(* ===== verification/_CoqProject ===== *)
-Q . S2P
Prelude.v
Addr.v
Lpm.v
LpmStr.v
DashMap.v
Node.v
Heap.v
Helpers.v
RouteTree.v
Trie.v
Concurrent.v
Readers.v
SafeThreads.v
Pool.v
Patricia.v
PatriciaThreads.v
PatriciaSafe.v
Engine.v
EngineThreads.v
Engines.v
Cache.v
Simd.v
ArtNode.v
ArtTree.v
ArtLookup.v
ArtEngine.v
Wrapper.v
Hybrid.v
RedisClient.v
Library.v
Boxed.v
TokenBucket.v
Config.v
Str.v
IpExtractor.v
Xdp.v
XdpLoader.v
XdpRuntime.v
Limiter.v
RouteTrie.v
AutoBan.v
Policy.v
Watcher.v
Adapters.v
Layers.v
Reload.v
Bindings.v
Classes.v
NodeClass.v
Server.v
Process.v
KitchenSink.v
Witness.v
WitnessPlanes.v
WitnessAdapters.v
WitnessRuntime.v
WitnessBindings.v
WitnessThreads.v
