(* ===== verification/Prelude.v ===== *)
(** * RadixIP: a verification development of the Rust implementation

    RadixIP stores IP prefixes with metadata, answers longest-prefix lookups,
    and puts a request policy (blocklist, rate limits, automatic bans) and a
    packet filter on top.  This library models the Rust code of the repository
    and proves what each part promises to the parts above it.

    ** The program and how its parts fit together

    - The engine crate (lib/rust/engine) has two binary trees over shared,
      mutable nodes (an uncompressed trie and a Patricia tree, tree.rs and
      node/), an adaptive radix tree (art/), engines that add statistics and
      sharding (engine.rs, engine_art.rs), a read cache (cache.rs), a hybrid
      engine with a control plane, a data plane and Redis in between
      (hybrid.rs), and the constructors that combine them (config.rs, lib.rs).
    - The policy crate (lib/rust/policy) extracts the client's address,
      consults an engine as blocklist, runs token buckets per address, subnet
      or route, and bans addresses that keep violating the limit by inserting
      host routes into the same engine; a watcher rebuilds the policy when
      its configuration file (lib/rust/config) changes.
    - The adapters (lib/rust/adapters) put the policy in front of tower, axum,
      actix and tonic services.
    - The eBPF program (ebpf/xdp-kernel) drops packets by source address; the
      loader (ebpf/xdp-loader) fills its maps from Redis.
    - A gRPC server (cmd/grpc-server-rust) serves an engine behind the
      interceptor and may start the loader in its own process, a demonstration
      server (cmd/kitchen-sink-rust) runs three adapters on one engine, and C,
      Node and Python bindings expose engines and policies.

    ** Files

    Shared: [Prelude] (fixed-width integers, bits, bytes, lists, tactics).
    [Addr] (addresses, metadata, and the class [IpNetworkCrate] with
    [IpNetworkLaws] for the ipnetwork crate), [Lpm] and [LpmStr] (lpm.rs),
    [DashMap] (the dashmap crate as a class), [Str] (string functions and the
    standard library's address parser).

    Trees and engines: [Node] (the eight node variants), [Heap] (the store of
    nodes, the monad [M] that reads and writes it and fails on a panic, and
    the predicate that a part of the store represents a tree), [RouteTree]
    (the trait, as a class of operations with laws), [Trie] and [Patricia]
    (its two implementations), [Helpers] (atomic.rs, errors.rs), [Engine]
    (StandardEngine, ShardedEngine and the class [RadixEngine]), [Engines]
    (their laws, the class [LpmEngine] and sessions of calls), [Cache] (both caches), [Simd] (node16_simd.rs),
    [ArtNode], [ArtTree], [ArtLookup] and [ArtEngine] (the adaptive radix tree
    over a store of boxes that can be freed, and its engines), [Wrapper]
    (EngineWrapper and the shard heuristics), [Hybrid], [RedisClient]
    (cache/src/redis.rs: commands, publishing, the subscription tasks, and the
    task that start_sync of the hybrid engine spawns), [Library]
    (radixip::new), [Boxed] (what the engines it makes without ART, split
    planes and Redis promise, the cached ones included).

    Threads: [Concurrent] and [PatriciaThreads] (the operations of the two
    trees as programs whose steps are single node accesses, and what two
    threads can do to each other), [Readers] (a lookup against one insert),
    [Pool] (any number of readers beside a writer of any list of routes),
    [SafeThreads] (programs that cannot fail whatever the others do, the class
    [ThreadedTree] of trees with such programs, and the uncompressed tree),
    [PatriciaSafe] (the compressed tree), [EngineThreads] (the methods of
    StandardEngine over any [ThreadedTree], the atomic size and the locked
    statistics).

    Policy: [TokenBucket], [Config], [IpExtractor], [Limiter], [RouteTrie],
    [AutoBan], [Policy] (PolicyEngine and PolicyHandle), [Watcher],
    [Adapters] (what an adapter does with one request), [Layers] (the layers
    and services that share one policy and wrap an application), [Reload] (a
    request before and after a reload).  Packet filter: [Xdp], [XdpLoader]
    (guards, maps, messages) and [XdpRuntime] (start and its task).  Front
    ends: [Bindings] (engine/src/ffi.rs, policy-ffi, lib/node, lib/python),
    [Classes] (the Python classes, and the interface [BoundClass] of a class
    over an engine), [NodeClass] (the Node class), [Server] (the gRPC service, and
    the loader's configuration from the environment or from the server's
    configuration file), [Process] (main of the gRPC server) and [KitchenSink].

    [Witness], [WitnessPlanes], [WitnessAdapters], [WitnessRuntime],
    [WitnessBindings] and [WitnessThreads] apply the claims to concrete inputs,
    with reference models of the external crates.

    Names follow the source: [trie_insert] is [UncompressedTree::insert],
    [policy_new] is [PolicyEngine::new], and so on; methods that mutate take
    and return the state they change, and nodes behind an [Arc] live in a
    store so that sharing is visible.

    ** What the theorems show

    - Trees refine a routing table: from creation every sequence of calls
      returns and answers as a finite map whose lookup is the reference
      matcher of lpm.rs (uncompressed), or as a map on keys with sound lookups
      (compressed, with the classes of tables on which they are complete).
    - Threads: while one thread inserts routes into the uncompressed tree, any
      number of others look addresses up and each answer is the longest match
      at one moment of its call, within a fixed number of steps.  Any calls by
      any number of threads, removals and clears included, are safe on both
      trees: no schedule makes a step panic, every call returns after a bounded
      number of its own steps, no count of the engine is lost, and on the
      uncompressed tree a lookup only answers with a route on the path of the
      address that someone stored.  What goes wrong is stated too: two inserts
      can lose a route, a lookup can miss a route that is replaced, two
      removals of one route wrap the size, and on the compressed tree a split
      hides a route from a lookup or lets it answer a route that does not
      contain the address.
    - Engines: over uncompressed trees sharded, cached (for prefixes of one
      family), wrapped and split engines answer as the plain engine does;
      sizes; which engine each configuration builds, against tables of the
      shards and the node representations.
    - ART, on targets other than AArch64: a node with at most 255 children is a
      finite map through every growth and shrink; in a release build, without
      removals nothing freed is ever touched and answers are sound for prefixes
      of the family of the address; the class of prefixes on which it is a
      longest-prefix matcher; creation, use and destruction terminate.
    - Hybrid: with Redis, interleavings of calls, publishing tasks and
      deliveries are a step relation; if no task fails, inserts arrive by the
      outstanding tasks and deliveries alone; removals never do.  The
      task of the Redis client refines that relation, delivers in order, ends
      with its stream, and published updates about metadata make the round trip.
    - Token bucket: rate bound, liveness, and no double spending under any
      interleaving of the compare-and-swap loop.  The limiter isolates keys
      while nothing is evicted.
    - Policy: with one bucket per address the decision of [check] and its
      effect on limiter, tracker and engine on every branch, evictions allowed;
      bans that block the next request (over uncompressed trees), per-route isolation, the last good configuration, the
      races between the sweeper and callers.
    - Adapters: the static ones, each with its own way to build a response,
      are one policy; the watched ones run the
      policy engine's decision on the published snapshot, with the listed
      differences.  All services of one layer are one policy, and the
      application answers exactly the allowed requests.
    - Front ends: the gRPC service gets the answers of the routing table for
      every sequence of calls, malformed arguments included; the gauge and the
      counters of the server are true; what the server's wiring prevents.  From
      their constructors on, without ART, split planes and Redis, every C
      program and every program on the Python and on the Node class runs to
      its end on a routing table; what lookups answer is the tree's contract
      without the cache, and metadata the program stored with it.  How main
      comes up, and which errors end it.
    - Packet filter: a packet is dropped exactly when its source is covered;
      guarded networks are never blocked whatever is received, at every moment
      of a run of the loader's task.
    - Several theorems state behaviour that contradicts the documentation or
      the evident intention of the code; they are phrased as what the code
      does, with the inputs on which it does it.

    ** Parameters

    Code that is not in the repository is a class of operations with the
    documented behaviour as laws, each with a reference instance: ipnetwork
    ([IpNetworkCrate]), dashmap ([DashMapCrate]), moka ([MokaCrate]), the Redis
    client and the JSON and text forms ([RedisCrate], [TextForms]), the
    iteration order of hash maps ([HashOrder]), notify ([NotifyCrate], and
    [NotifyStart] for the two calls that start watching and may fail), http
    ([HttpCrate]), ipnet and the LPM tries of the kernel, the redis driver
    ([RedisDriver]), aya and the file system of the loader ([LoaderHost]), and
    the application behind an adapter ([Service]).  Clocks are
    arguments: a function gives the successive readings of a call.  serde is
    a function from text to a configuration or an error.  Of serde_json it is
    assumed that updates about [Metadata] (strings only) parse back to what was
    printed ([UpdateLaws]), not that every JSON value does.

    ** Bounds and fuel

    Walks in the trie use [walk_fuel] = 129 and those in the Patricia tree
    [key_fuel], one more than the length of the key: every step consumes at
    least one of at most 128 bits.  ART descents use [tree_fuel] = 34: every
    step goes one byte deeper and the depth is at most 32.  Dropping an ART
    tree uses one more than the number of boxes.  The
    accesses of a call that other threads interrupt are bounded by
    [lookup_accesses] = 387 (three for each of 129 nodes), [insert_accesses]
    and [find_accesses] on the trie, and by the bounds of [PatriciaSafe] on
    the Patricia tree; [call_steps] adds those to the counters.  The
    theorems prove that the fuel is never exhausted on the represented states
    (each call returns), except where the statement says that a run is
    undefined or panics.  Integers are [Z] with the wrap-around, saturation or
    overflow panic of the source written out.  Where a product or a sum of the
    source is neither wrapping nor saturating, the model is the build with
    overflow checks ([None] is the panic); the theorems about the token bucket
    and the limiter assume that [capacity * 1000] and [rate * 1000] fit 64
    bits, and then both builds agree.

    ** Not modelled

    - The benches, the examples and the build scripts, art/node4.rs, which no
      module includes, and the Go, C++, Lua and operator code of the repository.
    - Sockets, logging, the text of the metrics endpoint and the threads and
      runtimes themselves: what runs in them is modelled, when it runs is a
      step relation or a schedule.
    - Memory orderings: each access to a field of a node and each atomic
      operation is one step of a sequentially consistent memory; the two
      stores of a Patricia edge are one step.
    - The order in which overlapping requests reach a reload: a request loads
      the published snapshot once and then is a request on that snapshot,
      which is what [Watcher] and [Reload] state.

    ** Left open

    What the uncompressed tree answers when removals overlap (answers are
    sound, and [Readers] shows that they are not linearizable); what lookups
    of the compressed tree may answer under concurrency beyond the two
    theorems that show it wrong; weaker memory orderings. *)

From Stdlib Require Export ZArith Lia.
From stdpp Require Export numbers strings prelude list gmap.


(** ** Scope, hint databases and tactics of the development *)

Create HintDb radix.

(** Break every boolean/option/decidable test of the goal or the context. *)
Ltac crush_match :=
  repeat match goal with
  | H : context [match ?x with _ => _ end] |- _ => destruct x eqn:?; try discriminate
  | |- context [match ?x with _ => _ end] => destruct x eqn:?; try discriminate
  end.

(** Turn boolean comparisons on [Z] and [nat] into propositions. *)
Ltac bprop :=
  repeat match goal with
  | H : (_ && _)%bool = true |- _ => apply andb_true_iff in H as [? ?]
  | H : (_ || _)%bool = false |- _ => apply orb_false_iff in H as [? ?]
  | H : negb _ = true |- _ => apply negb_true_iff in H
  | H : negb _ = false |- _ => apply negb_false_iff in H
  | H : Z.eqb _ _ = true |- _ => apply Z.eqb_eq in H
  | H : Z.eqb _ _ = false |- _ => apply Z.eqb_neq in H
  | H : Z.ltb _ _ = true |- _ => apply Z.ltb_lt in H
  | H : Z.ltb _ _ = false |- _ => apply Z.ltb_ge in H
  | H : Z.leb _ _ = true |- _ => apply Z.leb_le in H
  | H : Z.leb _ _ = false |- _ => apply Z.leb_gt in H
  | H : Nat.eqb _ _ = true |- _ => apply Nat.eqb_eq in H
  | H : Nat.eqb _ _ = false |- _ => apply Nat.eqb_neq in H
  | H : Nat.ltb _ _ = true |- _ => apply Nat.ltb_lt in H
  | H : Nat.ltb _ _ = false |- _ => apply Nat.ltb_ge in H
  | H : Nat.leb _ _ = true |- _ => apply Nat.leb_le in H
  | H : Nat.leb _ _ = false |- _ => apply Nat.leb_gt in H
  end.

(** ** Fixed-width integers

    A Rust [uN] is a [Z] in [0, 2^N); the operations write out the
    wrap-around, the saturation or the overflow check of the source. *)

Definition in_width (w x : Z) : Prop := (0 ≤ x < 2 ^ w)%Z.

Definition wrap (w x : Z) : Z := (x mod 2 ^ w)%Z.

Definition umax (w : Z) : Z := (2 ^ w - 1)%Z.

(** [saturating_add], [saturating_sub], [saturating_mul] at width [w]. *)
Definition sat_add (w x y : Z) : Z := Z.min (x + y) (umax w).
Definition sat_sub (x y : Z) : Z := Z.max 0 (x - y).
Definition sat_mul (w x y : Z) : Z := Z.min (x * y) (umax w).

(** A checked operation: [None] is the overflow panic of a debug build. *)
Definition checked (w x : Z) : option Z :=
  if ((0 <=? x) && (x <? 2 ^ w))%Z then Some x else None.

Lemma wrap_range w x : (0 ≤ w)%Z → in_width w (wrap w x).
Proof. intros. apply Z.mod_pos_bound. lia. Qed.

Lemma wrap_small w x : in_width w x → wrap w x = x.
Proof. apply Z.mod_small. Qed.

Lemma checked_Some w x : in_width w x → checked w x = Some x.
Proof. unfold checked, in_width. intros. case_match; [done|]. lia. Qed.

Lemma checked_inv w x y : checked w x = Some y → y = x ∧ in_width w x.
Proof. unfold checked, in_width. case_match; [|done]. intros [= <-]. bprop. lia. Qed.

(** ** Bits, most significant first *)

Definition bits_msb (w : nat) (a : Z) : list bool :=
  (λ i, Z.testbit a (Z.of_nat (w - 1 - i))) <$> seq 0 w.

Lemma length_bits_msb w a : length (bits_msb w a) = w.
Proof. unfold bits_msb. by rewrite length_fmap, length_seq. Qed.

Lemma bits_msb_lookup w a i :
  i < w → bits_msb w a !! i = Some (Z.testbit a (Z.of_nat (w - 1 - i))).
Proof.
  intros. unfold bits_msb. rewrite list_lookup_fmap, lookup_seq_lt by done. done.
Qed.

Lemma bits_msb_lookup_ge w a i : w ≤ i → bits_msb w a !! i = None.
Proof. intros. apply lookup_ge_None_2. by rewrite length_bits_msb. Qed.

(** The mask with the [p] most significant of [w] bits set. *)
Definition netmask (w p : Z) : Z := Z.shiftl (Z.ones p) (w - p).

Lemma netmask_testbit w p i :
  (0 ≤ p ≤ w)%Z → (0 ≤ i)%Z →
  Z.testbit (netmask w p) i = bool_decide (w - p ≤ i < w)%Z.
Proof.
  intros. unfold netmask.
  rewrite Z.shiftl_spec, Z.testbit_ones by lia.
  case_bool_decide; lia.
Qed.

(** Two addresses agree under a netmask exactly when their leading bits agree. *)
Lemma land_netmask_bits (w p : nat) (a b : Z) :
  p ≤ w →
  Z.land a (netmask (Z.of_nat w) (Z.of_nat p)) = Z.land b (netmask (Z.of_nat w) (Z.of_nat p)) ↔
  take p (bits_msb w a) = take p (bits_msb w b).
Proof.
  intros Hp. split.
  - intros Hab. apply list_eq. intros i.
    destruct (decide (i < p)) as [Hi|Hi]; last first.
    { rewrite !lookup_take_ge by lia. done. }
    rewrite !lookup_take_lt, !bits_msb_lookup by lia. f_equal.
    apply (f_equal (λ z, Z.testbit z (Z.of_nat (w - 1 - i)))) in Hab.
    rewrite !Z.land_spec, netmask_testbit in Hab by lia.
    rewrite bool_decide_eq_true_2 in Hab by lia.
    by rewrite !andb_true_r in Hab.
  - intros Hab. apply Z.bits_inj'. intros i Hi.
    rewrite !Z.land_spec, netmask_testbit by lia.
    case_bool_decide as Hr; [|by rewrite !andb_false_r].
    rewrite !andb_true_r.
    apply (f_equal (λ l, l !! (w - 1 - Z.to_nat i))) in Hab.
    rewrite !lookup_take_lt, !bits_msb_lookup in Hab by lia.
    injection Hab as Hab.
    by replace (Z.of_nat (w - 1 - (w - 1 - Z.to_nat i))) with i in Hab by lia.
Qed.

Lemma land_netmask_idemp w p a :
  Z.land (Z.land a (netmask w p)) (netmask w p) = Z.land a (netmask w p).
Proof. by rewrite <- Z.land_assoc, Z.land_diag. Qed.

Lemma land_width w a b : (0 ≤ w)%Z → in_width w a → in_width w (Z.land a b).
Proof.
  intros Hw Ha. assert (Z.land a b = Z.land a b mod 2 ^ w)%Z as ->; [|apply wrap_range; lia].
  rewrite <- Z.land_ones by lia. rewrite <- Z.land_assoc, (Z.land_comm b), Z.land_assoc, Z.land_ones by lia.
  by rewrite Z.mod_small.
Qed.

(** The shorter of two masks absorbs the longer one. *)
Lemma land_netmask_le w p q a :
  (0 ≤ p ≤ q)%Z → (q ≤ w)%Z → Z.land (Z.land a (netmask w q)) (netmask w p) = Z.land a (netmask w p).
Proof.
  intros Hp Hq. rewrite <- Z.land_assoc. f_equal. apply Z.bits_inj'. intros i Hi.
  rewrite Z.land_spec, !netmask_testbit by lia. repeat case_bool_decide; simpl; try done; lia.
Qed.

Lemma take_bits_land_netmask (w p : nat) a :
  p ≤ w → take p (bits_msb w (Z.land a (netmask (Z.of_nat w) (Z.of_nat p)))) = take p (bits_msb w a).
Proof. intros. apply land_netmask_bits; [done|]. apply land_netmask_idemp. Qed.

(** ** Big-endian bytes *)

Definition be_bytes (n : nat) (a : Z) : list Z :=
  (λ i, Z.land (Z.shiftr a (8 * Z.of_nat (n - 1 - i))) 255) <$> seq 0 n.

Lemma length_be_bytes n a : length (be_bytes n a) = n.
Proof. unfold be_bytes. by rewrite length_fmap, length_seq. Qed.

Lemma be_bytes_lookup n a i :
  i < n →
  be_bytes n a !! i = Some (Z.land (Z.shiftr a (8 * Z.of_nat (n - 1 - i))) 255).
Proof. intros. unfold be_bytes. by rewrite list_lookup_fmap, lookup_seq_lt. Qed.

Lemma land_255_testbit x j :
  (0 ≤ j < 8)%Z → Z.testbit (Z.land x 255) j = Z.testbit x j.
Proof.
  intros. change 255%Z with (Z.ones 8).
  rewrite Z.land_spec, Z.testbit_ones by lia.
  replace ((0 <=? j) && (j <? 8))%Z with true by lia. apply andb_true_r.
Qed.

Lemma land_255_range x : in_width 8 (Z.land x 255).
Proof.
  change 255%Z with (Z.ones 8). rewrite Z.land_ones by lia.
  apply Z.mod_pos_bound. lia.
Qed.

(** The value of big-endian bytes: [u32::from_be_bytes] and the like. *)
Definition be_value (bs : list Z) : Z := (foldl (λ acc b, acc * 256 + b) 0 bs)%Z.

Section be_value.
Local Open Scope Z_scope.

Lemma be_value_app bs b : be_value (bs ++ [b]) = be_value bs * 256 + b.
Proof. unfold be_value. by rewrite foldl_app. Qed.

Lemma be_value_be_bytes n a : 0 ≤ a < 2 ^ (8 * Z.of_nat n) → be_value (be_bytes n a) = a.
Proof.
  revert a. induction n as [|n IH]; intros a Ha; [change (0 = a); change (0 ≤ a < 1) in Ha; lia|].
  assert (be_bytes (S n) a = be_bytes n (Z.shiftr a 8) ++ [Z.land a 255]) as ->.
  { unfold be_bytes. rewrite seq_S, fmap_app. simpl. f_equal.
    - apply list_fmap_ext. intros i x Hi. apply lookup_seq in Hi.
      rewrite Z.shiftr_shiftr by lia. f_equal. f_equal. lia.
    - by replace (n - 0 - n)%nat with 0%nat by lia. }
  replace (8 * Z.of_nat (S n)) with (8 * Z.of_nat n + 8) in Ha by lia.
  rewrite Z.pow_add_r in Ha by lia. change (2 ^ 8) with 256 in Ha.
  rewrite be_value_app, Z.shiftr_div_pow2 by lia. change (2 ^ 8) with 256.
  rewrite IH by (split; [apply Z.div_pos; lia|apply Z.div_lt_upper_bound; lia]).
  change 255 with (Z.ones 8). rewrite Z.land_ones by lia. change (2 ^ 8) with 256.
  pose proof (Z.div_mod a 256). lia.
Qed.

End be_value.

(** Bit [k] of a byte as the source extracts it: [(b >> (7 - k)) & 1]. *)
Definition byte_bit (b : Z) (k : nat) : Z := Z.land (Z.shiftr b (Z.of_nat (7 - k))) 1.

Lemma byte_bit_testbit b k :
  byte_bit b k = Z.b2z (Z.testbit b (Z.of_nat (7 - k))).
Proof.
  unfold byte_bit. rewrite (Z.land_ones _ 1) by lia.
  rewrite Z.testbit_spec' by lia. rewrite Z.shiftr_div_pow2 by lia. done.
Qed.

(** Bit [pos] of the big-endian bytes of [a] is bit [pos] of [bits_msb]. *)
Lemma be_bytes_bit n a pos :
  pos < 8 * n →
  (b ← be_bytes n a !! (pos / 8); Some (byte_bit b (pos mod 8))) =
  Z.b2z <$> bits_msb (8 * n) a !! pos.
Proof.
  intros Hpos.
  pose proof (Nat.div_mod_eq pos 8) as Hdm.
  pose proof (Nat.mod_upper_bound pos 8 ltac:(lia)) as Hm.
  rewrite be_bytes_lookup, bits_msb_lookup by lia.
  cbn [mbind option_bind fmap option_fmap option_map]. f_equal.
  rewrite byte_bit_testbit, land_255_testbit, Z.shiftr_spec by lia.
  f_equal. f_equal. lia.
Qed.

(** ** Lists and options *)

Lemma prefix_take_iff {A} (k l : list A) :
  k `prefix_of` l ↔ take (length k) l = k.
Proof.
  split.
  - intros [r ->]. by rewrite take_app_length.
  - intros <-. exists (drop (length k) l). by rewrite take_drop.
Qed.

Lemma existsb_same {A} (f g : A → bool) (xs : list A) : (∀ x, f x = g x) → existsb f xs = existsb g xs.
Proof. intros Hfg. induction xs as [|x xs IH]; simpl; [done|]. by rewrite Hfg, IH. Qed.

Lemma is_Some_bool {A} (o : option A) :
  (match o with Some _ => true | None => false end) = bool_decide (is_Some o).
Proof. destruct o; case_bool_decide; naive_solver. Qed.

(** [Option::is_some] and [Option::is_none]. *)
Definition is_some {A} (o : option A) : bool :=
  match o with Some _ => true | None => false end.
Definition is_none {A} (o : option A) : bool := negb (is_some o).

Lemma is_none_spec {A} (o : option A) : is_none o = bool_decide (o = None).
Proof. destruct o; by case_bool_decide. Qed.

Lemma is_some_spec {A} (o : option A) : is_some o = true ↔ is_Some o.
Proof. destruct o; naive_solver. Qed.

(** ** [std::result::Result] *)

Inductive Result (A E : Type) := Ok (a : A) | Err (e : E).
Arguments Ok {A E} _.
Arguments Err {A E} _.
