(* ===== verification/Addr.v ===== *)
(** * Addresses, networks and payloads

    [IpAddr] is [std::net::IpAddr]; [IpNetworkCrate] is the interface of the
    external [ipnetwork] crate, a parameter of the development, and
    [IpNetworkLaws] its documented behaviour.  [Metadata] and [EngineStats]
    come from [lib/rust/engine/src/types.rs]. *)

From S2P Require Import Prelude.

Local Open Scope Z_scope.

(** ** Payloads (engine/src/types.rs) *)

Record Metadata := mkMetadata {
  value : string;
  attributes : gmap string string;
}.

#[export] Instance Metadata_eq_dec : EqDecision Metadata.
Proof. solve_decision. Defined.

Module Metadata.
Definition new (v : string) : Metadata := mkMetadata v ∅.
Definition with_attribute (m : Metadata) (k v : string) : Metadata :=
  mkMetadata (value m) (<[k := v]> (attributes m)).
End Metadata.

Record EngineStats := mkStats {
  stat_inserts : Z; stat_lookups : Z; stat_hits : Z;
  stat_misses : Z; stat_removals : Z; stat_size : Z;
}.

Definition EngineStats_default : EngineStats := mkStats 0 0 0 0 0 0.

(** ** [std::net::IpAddr] *)

(** An IPv4 address is its [u32] value, an IPv6 address its [u128] value. *)
Inductive IpAddr := V4 (a : Z) | V6 (a : Z).

#[export] Instance IpAddr_eq_dec : EqDecision IpAddr.
Proof. solve_decision. Defined.

#[export] Instance IpAddr_countable : Countable IpAddr.
Proof.
  apply (inj_countable'
    (λ ip, match ip with V4 a => inl a | V6 a => inr a end)
    (λ s, match s with inl a => V4 a | inr a => V6 a end)).
  by intros [].
Defined.

Definition ip_value (ip : IpAddr) : Z := match ip with V4 a | V6 a => a end.
Definition ip_width (ip : IpAddr) : nat := match ip with V4 _ => 32 | V6 _ => 128 end.
Definition ip_wf (ip : IpAddr) : Prop := in_width (Z.of_nat (ip_width ip)) (ip_value ip).

#[export] Instance ip_wf_dec ip : Decision (ip_wf ip).
Proof. unfold ip_wf, in_width. apply _. Defined.

(** [Ipv4Addr::octets] and [Ipv6Addr::octets]. *)
Definition octets (ip : IpAddr) : list Z :=
  match ip with V4 a => be_bytes 4 a | V6 a => be_bytes 16 a end.

Definition ip_bits (ip : IpAddr) : list bool := bits_msb (ip_width ip) (ip_value ip).

Definition same_family (x y : IpAddr) : bool :=
  match x, y with V4 _, V4 _ | V6 _, V6 _ => true | _, _ => false end.

Lemma length_ip_bits ip : length (ip_bits ip) = ip_width ip.
Proof. apply length_bits_msb. Qed.

Lemma ip_width_bound ip : (ip_width ip ≤ 128)%nat.
Proof. destruct ip; simpl; lia. Qed.

Lemma length_octets ip : (8 * length (octets ip) = ip_width ip)%nat.
Proof. by destruct ip. Qed.

(** ** The [ipnetwork] crate *)

Class IpNetworkCrate := {
  Ipv4Network : Type;
  Ipv6Network : Type;
  Ipv4Network_eq_dec :: EqDecision Ipv4Network;
  Ipv6Network_eq_dec :: EqDecision Ipv6Network;
  v4_new : Z → Z → option Ipv4Network;
  v4_ip : Ipv4Network → Z;
  v4_prefix : Ipv4Network → Z;
  v4_network : Ipv4Network → Z;
  v4_contains : Ipv4Network → Z → bool;
  v6_new : Z → Z → option Ipv6Network;
  v6_ip : Ipv6Network → Z;
  v6_prefix : Ipv6Network → Z;
  v6_network : Ipv6Network → Z;
  v6_contains : Ipv6Network → Z → bool;
  (* the methods of the enum [IpNetwork] *)
  net_ip : Ipv4Network + Ipv6Network → IpAddr;
  net_prefix : Ipv4Network + Ipv6Network → Z;
  net_network : Ipv4Network + Ipv6Network → IpAddr;
  net_contains : Ipv4Network + Ipv6Network → IpAddr → bool;
}.

(** The public enum [IpNetwork { V4(Ipv4Network), V6(Ipv6Network) }]. *)
Abbreviation IpNetwork := (Ipv4Network + Ipv6Network)%type.
Abbreviation NetV4 := (@inl Ipv4Network Ipv6Network).
Abbreviation NetV6 := (@inr Ipv4Network Ipv6Network).

(** What the documentation of one family of networks says: [new] checks the
    prefix length, [ip] and [prefix] return its arguments, [network] clears the
    host bits and [contains] compares the masked address with it. *)
Record family_laws (w : Z) {N : Type} (new : Z → Z → option N)
    (ip prefix network : N → Z) (contains : N → Z → bool) : Prop := {
  fl_ip_range n : in_width w (ip n);
  fl_prefix_range n : 0 ≤ prefix n ≤ w;
  fl_network n : network n = Z.land (ip n) (netmask w (prefix n));
  fl_contains n a :
    contains n a = bool_decide (Z.land a (netmask w (prefix n)) = network n);
  fl_new_ok a p : in_width w a → 0 ≤ p ≤ w → ∃ n, new a p = Some n ∧ ip n = a ∧ prefix n = p;
  fl_new_err a p : w < p → new a p = None;
  fl_ext n m : ip n = ip m → prefix n = prefix m → n = m;
}.

Class IpNetworkLaws `{IpNetworkCrate} : Prop := {
  v4_laws : family_laws 32 v4_new v4_ip v4_prefix v4_network v4_contains;
  v6_laws : family_laws 128 v6_new v6_ip v6_prefix v6_network v6_contains;
  net_ip_spec n :
    net_ip n = match n with inl m => V4 (v4_ip m) | inr m => V6 (v6_ip m) end;
  net_prefix_spec n :
    net_prefix n = match n with inl m => v4_prefix m | inr m => v6_prefix m end;
  net_network_spec n :
    net_network n = match n with inl m => V4 (v4_network m) | inr m => V6 (v6_network m) end;
  net_contains_spec n a :
    net_contains n a = match n, a with
                       | inl m, V4 x => v4_contains m x
                       | inr m, V6 x => v6_contains m x
                       | _, _ => false
                       end;
}.

(** ** A concrete model of the crate, for the witnesses *)

Module RefNetwork.
Definition ok (w : Z) (x : Z * Z) : Prop := in_width w x.1 ∧ 0 ≤ x.2 ≤ w.
#[export] Instance ok_dec w x : Decision (ok w x).
Proof. unfold ok, in_width. apply _. Defined.

Definition net (w : Z) : Type := dsig (ok w).

Definition new (w a p : Z) : option (net w) :=
  match decide (ok w (a, p)) with
  | left H => Some (dexist (a, p) H)
  | right _ => None
  end.
Definition ip {w} (n : net w) : Z := (`n).1.
Definition prefix {w} (n : net w) : Z := (`n).2.
Definition network {w} (n : net w) : Z := Z.land (ip n) (netmask w (prefix n)).
Definition contains {w} (n : net w) (a : Z) : bool :=
  bool_decide (Z.land a (netmask w (prefix n)) = network n).

#[export] Instance crate : IpNetworkCrate := {|
  Ipv4Network := net 32; Ipv6Network := net 128;
  v4_new := new 32; v4_ip := ip; v4_prefix := prefix;
  v4_network := network; v4_contains := contains;
  v6_new := new 128; v6_ip := ip; v6_prefix := prefix;
  v6_network := network; v6_contains := contains;
  net_ip n := match n with inl m => V4 (ip m) | inr m => V6 (ip m) end;
  net_prefix n := match n with inl m => prefix m | inr m => prefix m end;
  net_network n := match n with inl m => V4 (network m) | inr m => V6 (network m) end;
  net_contains n a := match n, a with
                      | inl m, V4 x => contains m x
                      | inr m, V6 x => contains m x
                      | _, _ => false
                      end;
|}.

Lemma laws_w w : family_laws w (new w) ip prefix network contains.
Proof.
  split.
  - intros n. apply (bool_decide_unpack _ (proj2_sig n)).
  - intros n. apply (bool_decide_unpack _ (proj2_sig n)).
  - done.
  - done.
  - intros a p Ha Hp. unfold new. case_decide as H; [|by destruct H].
    eexists; split; [done|]. done.
  - intros a p Hp. unfold new. case_decide as H; [|done].
    exfalso. destruct H as [_ [_ H]]. simpl in H. lia.
  - intros n m H1 H2. by apply dsig_eq, injective_projections.
Qed.

#[export] Instance laws : IpNetworkLaws.
Proof. split; [apply laws_w | apply laws_w | done..]. Qed.

(** CIDR literals of the concrete model. *)
Definition v4net (a p : Z) : option IpNetwork := inl <$> new 32 a p.
Definition v6net (a p : Z) : option IpNetwork := inr <$> new 128 a p.
End RefNetwork.

(** ** Facts about networks the components share *)

(** Membership in one family, as a fact about the leading bits. *)
Lemma family_contains_bits (w : nat) {N} {new ip prefix network contains}
    (L : @family_laws (Z.of_nat w) N new ip prefix network contains) n a :
  let key := take (Z.to_nat (prefix n)) (bits_msb w (network n)) in
  contains n a = true ↔ take (length key) (bits_msb w a) = key.
Proof.
  intros key. subst key.
  pose proof (fl_prefix_range _ _ _ _ _ _ L n) as Hr.
  rewrite (fl_contains _ _ _ _ _ _ L), bool_decide_eq_true, (fl_network _ _ _ _ _ _ L).
  set (p := Z.to_nat (prefix n)).
  replace (prefix n) with (Z.of_nat p) by lia.
  rewrite land_netmask_bits by lia.
  rewrite length_take, length_bits_msb, Nat.min_l by lia.
  by rewrite take_bits_land_netmask by lia.
Qed.

Section networks.
Context `{IpNetworkLaws}.
Implicit Types (n : IpNetwork) (ip : IpAddr).

(** The key of a network: the leading [prefix] bits of its address. *)
Definition net_len n : nat := Z.to_nat (net_prefix n).
Definition net_bits n : list bool := take (net_len n) (ip_bits (net_network n)).

Lemma net_len_width n : (net_len n ≤ ip_width (net_network n))%nat.
Proof.
  unfold net_len. rewrite net_prefix_spec, net_network_spec. destruct n as [n|n]; simpl.
  - pose proof (fl_prefix_range _ _ _ _ _ _ v4_laws n). lia.
  - pose proof (fl_prefix_range _ _ _ _ _ _ v6_laws n). lia.
Qed.

Lemma net_len_bound n : (net_len n ≤ 128)%nat.
Proof. etrans; [apply net_len_width|apply ip_width_bound]. Qed.

Lemma length_net_bits n : length (net_bits n) = net_len n.
Proof.
  unfold net_bits. rewrite length_take, length_ip_bits.
  pose proof (net_len_width n). lia.
Qed.

Lemma net_prefix_len n : net_prefix n = Z.of_nat (net_len n).
Proof.
  unfold net_len. rewrite Z2Nat.id; [done|]. rewrite net_prefix_spec. destruct n as [n|n].
  - apply (fl_prefix_range _ _ _ _ _ _ v4_laws n).
  - apply (fl_prefix_range _ _ _ _ _ _ v6_laws n).
Qed.

(** Membership of an address, as a fact about bit strings. *)
Lemma net_contains_bits n ip :
  net_contains n ip = true ↔
  same_family (net_network n) ip = true ∧ net_bits n `prefix_of` ip_bits ip.
Proof.
  rewrite net_contains_spec. unfold net_bits, net_len.
  rewrite prefix_take_iff.
  rewrite net_network_spec, net_prefix_spec.
  destruct n as [n|n], ip as [a|a]; simpl;
    try (split; [done | by intros []]).
  - rewrite (family_contains_bits 32 v4_laws). unfold ip_bits; simpl.
    split; [done | by intros []].
  - rewrite (family_contains_bits 128 v6_laws). unfold ip_bits; simpl.
    split; [done | by intros []].
Qed.

(** A network contains the address it was made from. *)
Lemma net_contains_own n : net_contains n (net_ip n) = true.
Proof.
  rewrite net_contains_spec, net_ip_spec. destruct n as [n|n].
  - rewrite (fl_contains _ _ _ _ _ _ v4_laws), (fl_network _ _ _ _ _ _ v4_laws). by case_bool_decide.
  - rewrite (fl_contains _ _ _ _ _ _ v6_laws), (fl_network _ _ _ _ _ _ v6_laws). by case_bool_decide.
Qed.
End networks.

#[export] Hint Resolve net_len_width net_len_bound ip_width_bound : radix.
