(* ===== verification/Lpm.v ===== *)
(** * Longest-prefix match helpers (engine/src/lpm.rs)

    [get_bit], [network_contains_ip] and the list-based reference matcher
    [longest_prefix_match_entries] (the [LPM::lookup] of the source).  The
    string helpers of the same file are in [LpmStr.v]; the tree walk
    [longest_prefix_match_binary] is in [Trie.v], with the nodes it walks. *)

From S2P Require Import Prelude Addr.

Local Open Scope Z_scope.

(** Bit [bit_pos] of an address; positions past the end read as 0. *)
Definition get_bit (ip : IpAddr) (bit_pos : nat) : Z :=
  let ip_bytes := octets ip in
  let byte_idx := (bit_pos / 8)%nat in
  match ip_bytes !! byte_idx with
  | None => 0
  | Some b => Z.land (Z.shiftr b (Z.of_nat (7 - bit_pos mod 8))) 1
  end.

Lemma get_bit_spec ip pos : get_bit ip pos = Z.b2z (default false (ip_bits ip !! pos)).
Proof.
  unfold get_bit.
  assert (∀ n a, match be_bytes n a !! (pos / 8)%nat with
                 | None => 0
                 | Some b => Z.land (Z.shiftr b (Z.of_nat (7 - pos mod 8))) 1
                 end = Z.b2z (default false (bits_msb (8 * n) a !! pos))) as Hgen.
  { intros n a. destruct (decide (pos < 8 * n)%nat) as [Hlt|Hge].
    - pose proof (be_bytes_bit n a pos Hlt) as Hb.
      rewrite bits_msb_lookup in Hb |- * by done.
      destruct (be_bytes n a !! (pos / 8)%nat) as [b|]; [|done].
      injection Hb as Hb. exact Hb.
    - rewrite bits_msb_lookup_ge by lia.
      rewrite lookup_ge_None_2; [done|].
      rewrite length_be_bytes. apply Nat.div_le_lower_bound; lia. }
  destruct ip as [a|a]; [apply (Hgen 4%nat) | apply (Hgen 16%nat)].
Qed.

Lemma get_bit_01 ip pos : get_bit ip pos = 0 ∨ get_bit ip pos = 1.
Proof. rewrite get_bit_spec. destruct (default _ _); auto. Qed.

Section lpm.
Context `{IpNetworkCrate}.

Definition network_contains_ip (network : IpNetwork) (ip : IpAddr) : bool :=
  match network, ip with
  | inl n, V4 a => v4_contains n a
  | inr n, V6 a => v6_contains n a
  | _, _ => false
  end.

(** One iteration of the loop of [longest_prefix_match_entries]. *)
Definition lpm_step {A} (ip : IpAddr) (best : option (IpNetwork * A)) (e : IpNetwork * A)
    : option (IpNetwork * A) :=
  if negb (network_contains_ip e.1 ip) then best
  else match best with
       | Some (best_network, _) =>
           if net_prefix best_network >=? net_prefix e.1 then best else Some e
       | None => Some e
       end.

Definition longest_prefix_match_entries {A} (entries : list (IpNetwork * A)) (ip : IpAddr)
    : option A :=
  snd <$> foldl (lpm_step ip) None entries.

(** [LPM::lookup]. *)
Definition LPM_lookup (entries : list (IpNetwork * Metadata)) (ip : IpAddr)
    : option Metadata :=
  longest_prefix_match_entries entries ip.
End lpm.

Section lpm_facts.
Context `{IpNetworkLaws} {A : Type}.
Implicit Types (es : list (IpNetwork * A)) (ip : IpAddr).

Lemma network_contains_ip_spec n ip : network_contains_ip n ip = net_contains n ip.
Proof. rewrite net_contains_spec. by destruct n, ip. Qed.

Lemma network_contains_bits n ip :
  network_contains_ip n ip = true ↔
  same_family (net_network n) ip = true ∧ net_bits n `prefix_of` ip_bits ip.
Proof. rewrite network_contains_ip_spec. apply net_contains_bits. Qed.

(** What the loop keeps: the first entry of maximal prefix length among
    those seen that contain the address. *)
Definition best_of es ip (best : option (IpNetwork * A)) : Prop :=
  match best with
  | None => Forall (λ e, network_contains_ip e.1 ip = false) es
  | Some e =>
      e ∈ es ∧ network_contains_ip e.1 ip = true ∧
      Forall (λ e', network_contains_ip e'.1 ip = true → net_prefix e'.1 ≤ net_prefix e.1) es
  end.

Lemma lpm_step_best es ip best e :
  best_of es ip best → best_of (es ++ [e]) ip (lpm_step ip best e).
Proof.
  unfold lpm_step, best_of. destruct (network_contains_ip e.1 ip) eqn:Ec; simpl.
  - destruct best as [[bn ba]|]; simpl.
    + intros (Hin & Hc & Hmax). rewrite Z.geb_leb.
      destruct (net_prefix e.1 <=? net_prefix bn) eqn:El; bprop; simpl.
      * split; [set_solver|]. split; [done|].
        apply Forall_app; split; [done|]. by constructor.
      * split; [set_solver|]. split; [done|].
        apply Forall_app; split; [|by repeat constructor].
        eapply Forall_impl; [exact Hmax|]. simpl. intros e' Hle He'.
        specialize (Hle He'). lia.
    + intros Hno. split; [set_solver|]. split; [done|].
      apply Forall_app; split; [|by repeat constructor].
      eapply Forall_impl; [exact Hno|]. simpl. congruence.
  - destruct best as [b|].
    + intros (Hin & Hc & Hmax). split; [set_solver|]. split; [done|].
      apply Forall_app; split; [done|]. constructor; [congruence|done].
    + intros Hno. apply Forall_app; split; [done|]. by constructor.
Qed.

Lemma lpm_fold_best es ip : best_of es ip (foldl (lpm_step ip) None es).
Proof.
  induction es as [|e es IH] using rev_ind; [by constructor|].
  rewrite foldl_app. simpl. by apply lpm_step_best.
Qed.

(** If one containing entry is strictly longer than every other containing
    entry, the matcher returns it, wherever it stands in the list. *)
Lemma lpm_entries_unique es ip e :
  e ∈ es → network_contains_ip e.1 ip = true →
  (∀ e', e' ∈ es → network_contains_ip e'.1 ip = true →
    e' = e ∨ net_prefix e'.1 < net_prefix e.1) →
  longest_prefix_match_entries es ip = Some e.2.
Proof.
  intros Hin Hc Huniq. unfold longest_prefix_match_entries.
  pose proof (lpm_fold_best es ip) as Hb.
  destruct (foldl _ _ _) as [b|]; simpl in *.
  - destruct Hb as (Hbin & Hbc & Hmax).
    rewrite Forall_forall in Hmax. specialize (Hmax e Hin Hc).
    destruct (Huniq b Hbin Hbc) as [->|]; [done|lia].
  - rewrite Forall_forall in Hb. specialize (Hb e Hin). congruence.
Qed.

Lemma lpm_entries_none es ip :
  (∀ e, e ∈ es → network_contains_ip e.1 ip = false) →
  longest_prefix_match_entries es ip = None.
Proof.
  intros Hno. unfold longest_prefix_match_entries.
  pose proof (lpm_fold_best es ip) as Hb.
  destruct (foldl _ _ _) as [b|]; simpl in *; [|done].
  destruct Hb as (Hbin & Hbc & _). specialize (Hno b Hbin). congruence.
Qed.

Lemma lpm_is_Some es ip :
  (∃ e, e ∈ es ∧ network_contains_ip e.1 ip = true) →
  is_Some (longest_prefix_match_entries es ip).
Proof.
  intros (e & Hin & Hc). unfold longest_prefix_match_entries.
  pose proof (lpm_fold_best es ip) as Hb.
  destruct (foldl _ _ _) as [b|]; simpl in *; [eauto|].
  rewrite Forall_forall in Hb. specialize (Hb e Hin). congruence.
Qed.
End lpm_facts.
