(* ===== verification/LpmStr.v ===== *)
(** * Binary strings of addresses (engine/src/lpm.rs)

    [ip_to_binary_string] and [longest_common_prefix_len], the string helpers
    of lpm.rs: the first spells out the bits of an address, the second counts
    the leading bytes two strings share, and together they decide containment
    in a network. *)

From Stdlib Require Import Ascii.
From S2P Require Import Prelude Addr Lpm.

Local Open Scope Z_scope.

(** ** [format!("{:0wb}", n)] *)

Definition digit (b : bool) : ascii := if b then "1"%char else "0"%char.

(** The digits of [n] from the least significant one, pushed in front; an
    integer of [fuel] bits has at most [fuel] digits. *)
Fixpoint bin_digits (fuel : nat) (n : Z) (acc : string) : string :=
  match fuel with
  | O => acc
  | S f =>
      let acc' := String (digit (n mod 2 =? 1)) acc in
      if n / 2 =? 0 then acc' else bin_digits f (n / 2) acc'
  end.

Fixpoint zeros (k : nat) : string :=
  match k with O => EmptyString | S k => String "0" (zeros k) end.

Definition format_bin (w : nat) (n : Z) : string :=
  let s := bin_digits w n EmptyString in
  zeros (w - String.length s) +:+ s.

(** [Ipv6Addr::segments] *)
Definition segments (a : Z) : list Z :=
  (λ i, Z.land (Z.shiftr a (16 * Z.of_nat (7 - i))) 65535) <$> seq 0 8.

Definition str_concat (ss : list string) : string := foldr String.append EmptyString ss.

Definition ip_to_binary_string (ip : IpAddr) : string :=
  match ip with
  | V4 _ => str_concat (format_bin 8 <$> octets ip)
  | V6 a => str_concat (format_bin 16 <$> segments a)
  end.

(** ** [longest_common_prefix_len] *)

Definition same_byte (left right : string) (index : nat) : bool :=
  match String.get index left, String.get index right with
  | Some x, Some y => Ascii.eqb x y
  | _, _ => false
  end.

(** [while index < limit && left_bytes[index] == right_bytes[index]] *)
Fixpoint lcp_loop (fuel : nat) (left right : string) (limit index : nat) : nat :=
  match fuel with
  | O => index
  | S f =>
      if (index <? limit)%nat && same_byte left right index
      then lcp_loop f left right limit (S index) else index
  end.

Definition longest_common_prefix_len (left right : string) : nat :=
  let limit := Nat.min (String.length left) (String.length right) in
  lcp_loop limit left right limit 0.

(** ** The string of an address is its bits *)

Definition bits_str (l : list bool) : string := foldr (λ b s, String (digit b) s) EmptyString l.

Lemma bits_str_app l k : bits_str (l ++ k) = bits_str l +:+ bits_str k.
Proof. induction l as [|b l IH]; [done|]. exact (f_equal (String (digit b)) IH). Qed.

Lemma length_bits_str l : String.length (bits_str l) = length l.
Proof. induction l as [|b l IH]; [done|]. exact (f_equal S IH). Qed.

Lemma str_app_assoc s t u : (s +:+ t) +:+ u = s +:+ (t +:+ u).
Proof. induction s as [|x s IH]; [done|]. exact (f_equal (String x) IH). Qed.

Lemma length_str_app s t : String.length (s +:+ t) = (String.length s + String.length t)%nat.
Proof. induction s as [|x s IH]; [done|]. exact (f_equal S IH). Qed.

Lemma get_bits_str l i : String.get i (bits_str l) = digit <$> l !! i.
Proof. revert i. induction l as [|b l IH]; intros [|i]; [done..|]. apply IH. Qed.

Lemma bits_msb_app m k a :
  bits_msb (m + k) a = bits_msb m (Z.shiftr a (Z.of_nat k)) ++ bits_msb k a.
Proof.
  apply list_eq. intros i. destruct (decide (i < m)%nat) as [Hi|Hi].
  - rewrite lookup_app_l by (by rewrite length_bits_msb).
    rewrite !bits_msb_lookup, Z.shiftr_spec by lia. do 2 f_equal. lia.
  - rewrite lookup_app_r, length_bits_msb by (rewrite length_bits_msb; lia).
    destruct (decide (i < m + k)%nat) as [Hi'|Hi'].
    + rewrite !bits_msb_lookup by lia. do 2 f_equal. lia.
    + rewrite !bits_msb_lookup_ge by lia. done.
Qed.

Lemma bits_msb_S w a : bits_msb (S w) a = bits_msb w (a / 2) ++ [a mod 2 =? 1].
Proof.
  replace (S w) with (w + 1)%nat by lia. rewrite bits_msb_app.
  rewrite Z.shiftr_div_pow2 by lia. change (2 ^ Z.of_nat 1) with 2. f_equal.
  cbn. f_equal. rewrite Z.bit0_odd, Zmod_odd. by destruct (Z.odd a).
Qed.

Lemma bits_msb_0 w : bits_msb w 0 = replicate w false.
Proof.
  apply list_eq. intros i. destruct (decide (i < w)%nat).
  - rewrite bits_msb_lookup, lookup_replicate_2, Z.testbit_0_l by lia. done.
  - rewrite bits_msb_lookup_ge by lia. symmetry. apply lookup_ge_None_2. rewrite length_replicate. lia.
Qed.

Lemma bits_str_false k : bits_str (replicate k false) = zeros k.
Proof. induction k as [|k IH]; [done|]. exact (f_equal (String "0") IH). Qed.

Lemma bin_digits_spec w : ∀ n acc, 0 ≤ n < 2 ^ Z.of_nat w → (0 < w)%nat →
  ∃ k, (k + String.length (bin_digits w n acc) = w + String.length acc)%nat ∧
    bits_str (bits_msb w n) +:+ acc = zeros k +:+ bin_digits w n acc.
Proof.
  induction w as [|w IH]; intros n acc Hn Hw; [lia|]. cbn [bin_digits].
  set (acc' := String _ acc).
  assert (bits_str (bits_msb (S w) n) +:+ acc = bits_str (bits_msb w (n / 2)) +:+ acc') as ->.
  { by rewrite bits_msb_S, bits_str_app, str_app_assoc. }
  destruct (Z.eqb_spec (n / 2) 0) as [E|E].
  - exists w. split; [cbn; lia|]. by rewrite E, bits_msb_0, bits_str_false.
  - assert (0 ≤ n / 2 < 2 ^ Z.of_nat w) as Hn'.
    { replace (Z.of_nat (S w)) with (Z.of_nat w + 1) in Hn by lia.
      rewrite Z.pow_add_r, Z.pow_1_r in Hn by lia.
      split; [apply Z.div_pos; lia|apply Z.div_lt_upper_bound; lia]. }
    destruct (IH (n / 2) acc' Hn') as (k & Hk & Hs).
    { destruct w; [|lia]. change (2 ^ Z.of_nat 0) with 1 in Hn'. lia. }
    exists k. split; [rewrite Hk; cbn; lia|exact Hs].
Qed.

Lemma str_app_nil s : s +:+ EmptyString = s.
Proof. induction s as [|x s IH]; [done|]. exact (f_equal (String x) IH). Qed.

Lemma format_bin_bits w n :
  0 ≤ n < 2 ^ Z.of_nat w → (0 < w)%nat → format_bin w n = bits_str (bits_msb w n).
Proof.
  intros Hn Hw. destruct (bin_digits_spec w n EmptyString Hn Hw) as (k & Hk & Hs).
  rewrite str_app_nil in Hs. unfold format_bin. rewrite Hs. do 2 f_equal. cbn in Hk. lia.
Qed.

(** An integer cut into [c]-bit pieces, most significant first. *)
Lemma chunks_bits (c : nat) n a :
  (0 < c)%nat →
  str_concat (format_bin c <$>
    ((λ i, Z.land (Z.shiftr a (Z.of_nat c * Z.of_nat (n - 1 - i))) (Z.ones (Z.of_nat c))) <$> seq 0 n)) =
  bits_str (bits_msb (c * n) a).
Proof.
  intros Hc. revert a. induction n as [|n IH]; intros a; [by rewrite Nat.mul_0_r|].
  replace (c * S n)%nat with (c * n + c)%nat by lia.
  rewrite bits_msb_app, bits_str_app, <- IH, seq_S, !fmap_app.
  assert (∀ l k, str_concat (l ++ k) = str_concat l +:+ str_concat k) as Happ.
  { intros l k. induction l as [|s l IHl]; [done|].
    change (s +:+ str_concat (l ++ k) = (s +:+ str_concat l) +:+ str_concat k).
    by rewrite str_app_assoc, IHl. }
  rewrite Happ. f_equal.
  - do 2 f_equal. apply list_fmap_ext. intros i x Hi. apply lookup_seq in Hi.
    rewrite Z.shiftr_shiftr by nia. do 2 f_equal.
    replace (S n - 1 - x)%nat with (S (n - 1 - x)) by lia. lia.
  - cbn [fmap list_fmap str_concat foldr]. rewrite str_app_nil.
    replace (S n - 1 - (0 + n))%nat with 0%nat by lia.
    rewrite Z.mul_0_r, Z.shiftr_0_r, format_bin_bits; [|rewrite Z.land_ones by lia; apply Z.mod_pos_bound; lia|done].
    f_equal. apply list_eq. intros i. destruct (decide (i < c)%nat).
    + rewrite !bits_msb_lookup, Z.land_spec, Z.testbit_ones_nonneg by lia.
      f_equal. rewrite (proj2 (Z.ltb_lt _ _)) by lia. apply andb_true_r.
    + by rewrite !bits_msb_lookup_ge by lia.
Qed.

Lemma ip_to_binary_string_bits ip : ip_to_binary_string ip = bits_str (ip_bits ip).
Proof.
  destruct ip as [a|a]; [apply (chunks_bits 8 4)|apply (chunks_bits 16 8)]; lia.
Qed.

(** ** The loop returns the length of the longest common prefix *)

Lemma lcp_loop_spec left right limit fuel : ∀ index,
  (limit ≤ index + fuel)%nat → (index ≤ limit)%nat →
  (∀ i, (i < index)%nat → same_byte left right i = true) →
  let r := lcp_loop fuel left right limit index in
  (r ≤ limit)%nat ∧ (∀ i, (i < r)%nat → same_byte left right i = true) ∧
  ((r < limit)%nat → same_byte left right r = false).
Proof.
  induction fuel as [|f IH]; intros index Hf Hi Heq; cbv zeta; cbn [lcp_loop].
  { split_and!; [lia|done|intros; lia]. }
  destruct (Nat.ltb_spec index limit) as [Hl|Hl]; cbn [andb]; [|split_and!; [lia|done|intros; lia]].
  destruct (same_byte left right index) eqn:E; [|done].
  apply IH; [lia|lia|]. intros i Hil. destruct (decide (i = index)) as [->|]; [done|]. apply Heq. lia.
Qed.

Lemma get_lt_length s i : (i < String.length s)%nat → is_Some (String.get i s).
Proof.
  revert i. induction s as [|x s IH]; intros i Hi; [cbn in Hi; lia|].
  destruct i as [|i]; [by eexists|]. apply IH. cbn in Hi. lia.
Qed.

(** [longest_common_prefix_len] never reads past either string, the bytes
    before the answer agree, and the byte at the answer, if both strings have
    one, differs. *)
Theorem lcp_len_spec left right :
  let r := longest_common_prefix_len left right in
  (r ≤ String.length left)%nat ∧ (r ≤ String.length right)%nat ∧
  (∀ i, (i < r)%nat → String.get i left = String.get i right) ∧
  ((r < String.length left)%nat → (r < String.length right)%nat →
    String.get r left ≠ String.get r right).
Proof.
  intros r. destruct (lcp_loop_spec left right
    (Nat.min (String.length left) (String.length right))
    (Nat.min (String.length left) (String.length right)) 0) as (Hle & Heq & Hne); [lia..|].
  fold (longest_common_prefix_len left right) in Hle, Heq, Hne. fold r in Hle, Heq, Hne.
  split_and!; [lia|lia| |].
  - intros i Hi. specialize (Heq i Hi). unfold same_byte in Heq.
    destruct (String.get i left), (String.get i right); try done. by apply Ascii.eqb_eq in Heq as ->.
  - intros H1 H2. specialize (Hne ltac:(lia)). unfold same_byte in Hne.
    destruct (get_lt_length _ _ H1) as [x Hx], (get_lt_length _ _ H2) as [y Hy]. rewrite Hx, Hy in *.
    apply Ascii.eqb_neq in Hne. congruence.
Qed.

Section network.
Context `{IpNetworkLaws}.

(** The two helpers decide containment: an address of the same family is in
    a network exactly when its binary string shares the first [prefix]
    characters with that of the network address. *)
Theorem network_contains_by_strings (n : IpNetwork) (ip : IpAddr) :
  network_contains_ip n ip = true ↔
  same_family (net_network n) ip = true ∧
  (net_len n ≤ longest_common_prefix_len (ip_to_binary_string (net_network n)) (ip_to_binary_string ip))%nat.
Proof.
  rewrite network_contains_bits. rewrite !ip_to_binary_string_bits.
  set (r := longest_common_prefix_len _ _). destruct (lcp_len_spec (bits_str (ip_bits (net_network n)))
    (bits_str (ip_bits ip))) as (Hl & Hr & Heq & Hne). fold r in Hl, Hr, Heq, Hne.
  rewrite !length_bits_str in Hl, Hr, Hne.
  assert (∀ x y : option bool, digit <$> x = digit <$> y → x = y) as Hinj.
  { intros [[]|] [[]|]; cbn; congruence. }
  pose proof (net_len_width n) as Hw. rewrite <- length_ip_bits in Hw.
  apply and_iff_compat_l. unfold net_bits. rewrite prefix_take_iff, length_take, Nat.min_l by lia. split.
  - intros Hp. destruct (decide (net_len n ≤ r)%nat) as [|Hlt]; [done|]. exfalso.
    apply (f_equal length) in Hp as Hlen. rewrite !length_take in Hlen.
    apply Hne; [lia|rewrite length_bits_str; lia|]. rewrite !get_bits_str. f_equal.
    apply (f_equal (.!! r)) in Hp. by rewrite !lookup_take_lt in Hp by lia.
  - intros Hle. apply list_eq. intros i. destruct (decide (i < net_len n)%nat).
    + rewrite !lookup_take_lt by lia. specialize (Heq i ltac:(lia)). rewrite !get_bits_str in Heq.
      by apply Hinj in Heq.
    + by rewrite !lookup_take_ge by lia.
Qed.
End network.
