(* ===== verification/DashMap.v ===== *)
(** * The interface of the [dashmap] crate

    A sharded concurrent map: the operations the sources call and their
    documented single-step behaviour.  Every call is atomic on its key. *)

From S2P Require Import Prelude.

Class DashMapCrate := {
  DashMap : Type → Type → Type;
  dm_new : ∀ {K V}, DashMap K V;
  dm_get : ∀ {K V} `{EqDecision K}, DashMap K V → K → option V;
  dm_insert : ∀ {K V} `{EqDecision K}, DashMap K V → K → V → DashMap K V;
  dm_remove : ∀ {K V} `{EqDecision K}, DashMap K V → K → DashMap K V;
  dm_iter : ∀ {K V} `{EqDecision K}, DashMap K V → list (K * V);
}.

Class DashMapLaws `{DashMapCrate} : Prop := {
  dm_get_new {K V} `{EqDecision K} (k : K) : dm_get (V:=V) dm_new k = None;
  dm_get_insert {K V} `{EqDecision K} (m : DashMap K V) k v k' :
    dm_get (dm_insert m k v) k' = if decide (k = k') then Some v else dm_get m k';
  dm_get_remove {K V} `{EqDecision K} (m : DashMap K V) k k' :
    dm_get (dm_remove m k) k' = if decide (k = k') then None else dm_get m k';
  dm_iter_spec {K V} `{EqDecision K} (m : DashMap K V) k v :
    (k, v) ∈ dm_iter m ↔ dm_get m k = Some v;
  dm_iter_nodup {K V} `{EqDecision K} (m : DashMap K V) : NoDup (dm_iter m).*1;
}.

(** A concrete model, for the witnesses: association lists whose first binding
    of a key counts. *)
Module RefDashMap.
Fixpoint get {K V} `{EqDecision K} (m : list (K * V)) (k : K) : option V :=
  match m with
  | [] => None
  | (k', v) :: m' => if decide (k' = k) then Some v else get m' k
  end.
Definition remove {K V} `{EqDecision K} (m : list (K * V)) (k : K) : list (K * V) :=
  filter (λ e, e.1 ≠ k) m.
Definition insert {K V} `{EqDecision K} (m : list (K * V)) (k : K) (v : V) :=
  (k, v) :: remove m k.

Lemma get_remove {K V} `{EqDecision K} (m : list (K * V)) k k' :
  get (remove m k) k' = if decide (k = k') then None else get m k'.
Proof.
  induction m as [|[j v] m IH].
  - simpl. by case_decide.
  - unfold remove in *. rewrite filter_cons. simpl.
    destruct (decide (j ≠ k)) as [Hj|Hj]; simpl; repeat case_decide; naive_solver.
Qed.

Lemma get_insert {K V} `{EqDecision K} (m : list (K * V)) k v k' :
  get (insert m k v) k' = if decide (k = k') then Some v else get m k'.
Proof. simpl. case_decide; [done|]. rewrite get_remove. by case_decide. Qed.

(** The enumeration drops shadowed bindings. *)
Fixpoint iter {K V} `{EqDecision K} (m : list (K * V)) : list (K * V) :=
  match m with
  | [] => []
  | (k, v) :: m' => (k, v) :: filter (λ e, e.1 ≠ k) (iter m')
  end.

Lemma iter_spec {K V} `{EqDecision K} (m : list (K * V)) k v :
  (k, v) ∈ iter m ↔ get m k = Some v.
Proof.
  induction m as [|[j w] m IH]; simpl; [set_solver|].
  rewrite elem_of_cons, list_elem_of_filter, IH. simpl.
  case_decide; naive_solver.
Qed.

Lemma iter_nodup {K V} `{EqDecision K} (m : list (K * V)) : NoDup (iter m).*1.
Proof.
  induction m as [|[k v] m IH]; [constructor|]. cbn. constructor.
  - rewrite list_elem_of_fmap. intros ([k' v'] & Hk & [Hne _]%list_elem_of_filter).
    by subst.
  - eapply sublist_NoDup; [exact IH|]. apply fmap_sublist, sublist_filter.
Qed.

#[export] Instance crate : DashMapCrate := {|
  DashMap K V := list (K * V);
  dm_new K V := [];
  dm_get K V _ := get;
  dm_insert K V _ := insert;
  dm_remove K V _ := remove;
  dm_iter K V _ := iter;
|}.

#[export] Instance laws : DashMapLaws.
Proof.
  split; intros; [done | apply get_insert | apply get_remove | apply iter_spec | apply iter_nodup].
Qed.
End RefDashMap.
