(* ===== verification/Node.v ===== *)
(** * Tree nodes (engine/src/traits.rs, engine/src/node/)

    The trait [Node] is a class; each of the eight node variants is a record
    with its own representation (plain fields, an [AtomicU8] that encodes an
    option or a length, a [DashMap] of children) and its [impl Node] an
    instance; [NodeWrapper] dispatches over them and [NodeBuilder] creates
    them.  A child is an [Arc<dyn Node>], modelled by its location in the heap
    of [Heap.v].  [NodeLaws] is what the trees rely on: every variant is
    observationally a plain record of fields ([node_view]).

    Locks are not modelled as such: each getter or setter is one critical
    section of one field, hence one step on the node. *)

From S2P Require Import Prelude Addr DashMap.

Local Open Scope Z_scope.

(** ** Variants (engine/src/traits.rs) *)

Inductive NodeVariant :=
  | NormalTrieNode_v | AtomicTrieNode_v | PaddedTrieNode_v | LockFreeTrieNode_v
  | NormalRadixNode_v | AtomicRadixNode_v | PaddedRadixNode_v | LockFreeRadixNode_v.

Definition is_compressed (v : NodeVariant) : bool :=
  match v with
  | NormalRadixNode_v | AtomicRadixNode_v | PaddedRadixNode_v | LockFreeRadixNode_v => true
  | _ => false
  end.

Inductive EngineVariant := Standard | Concurrent | LockFree | Adaptive | ART.

#[export] Instance NodeVariant_eq_dec : EqDecision NodeVariant.
Proof. solve_decision. Defined.
#[export] Instance EngineVariant_eq_dec : EqDecision EngineVariant.
Proof. solve_decision. Defined.

(** The location of a node: what an [Arc<dyn Node>] points to. *)
Abbreviation loc := positive.

(** [[0u8; 16]] *)
Definition zero16 : list Z := replicate 16 0.

(** The keys of the [DashMap] of children. *)
Inductive ChildKey := Left | Right.

#[export] Instance ChildKey_eq_dec : EqDecision ChildKey.
Proof. solve_decision. Defined.

Section nodes.
Context `{IpNetworkCrate} `{DashMapCrate}.

(** ** The trait *)

(** [node_set_bit] and [node_set_edge] return [None] where the source
    panics: an overflow of [bit + 1], or an edge on an uncompressed node. *)
Class Node (N : Type) := {
  node_bit : N → option Z;
  node_left : N → option loc;
  node_right : N → option loc;
  node_metadata : N → option Metadata;
  node_prefix : N → option IpNetwork;
  node_set_left : N → option loc → N;
  node_set_right : N → option loc → N;
  node_set_metadata : N → Metadata → N;
  node_clear_metadata : N → N;
  node_set_bit : N → Z → option N;
  node_set_prefix : N → IpNetwork → N;
  node_edge_bits : N → option (list Z);
  node_edge_len : N → option nat;
  node_set_edge : N → list Z → nat → option N;
}.

(** The default bodies of the trait: an uncompressed node has no edge. *)
Definition default_edge_bits {N} (n : N) : option (list Z) := None.
Definition default_edge_len {N} (n : N) : option nat := None.
Definition default_set_edge {N} (n : N) (_ : list Z) (_ : nat) : option N := None.

(** An [AtomicU8] holds 0 for [None] and [n + 1] for [Some n]. *)
Definition load_bit (b : Z) : option Z := if b =? 0 then None else Some (b - 1).
Definition store_bit (b : Z) : option Z := checked 8 (b + 1).

(** ** Uncompressed variants (node/uncompressed.rs) *)

Record NormalTrieNode := mkNormalTrie {
  nt_bit : option Z; nt_left : option loc; nt_right : option loc;
  nt_metadata : option Metadata; nt_prefix : option IpNetwork }.

Definition NormalTrieNode_new : NormalTrieNode := mkNormalTrie None None None None None.

#[export] Instance NormalTrieNode_Node : Node NormalTrieNode := {|
  node_bit n := nt_bit n;
  node_left n := nt_left n;
  node_right n := nt_right n;
  node_metadata n := nt_metadata n;
  node_prefix n := nt_prefix n;
  node_set_left '(mkNormalTrie b _ r m p) x := mkNormalTrie b x r m p;
  node_set_right '(mkNormalTrie b l _ m p) x := mkNormalTrie b l x m p;
  node_set_metadata '(mkNormalTrie b l r _ p) x := mkNormalTrie b l r (Some x) p;
  node_clear_metadata '(mkNormalTrie b l r _ p) := mkNormalTrie b l r None p;
  node_set_bit '(mkNormalTrie _ l r m p) x := Some (mkNormalTrie (Some x) l r m p);
  node_set_prefix '(mkNormalTrie b l r m _) x := mkNormalTrie b l r m (Some x);
  node_edge_bits := default_edge_bits;
  node_edge_len := default_edge_len;
  node_set_edge := default_set_edge;
|}.

Record AtomicTrieNode := mkAtomicTrie {
  at_bit : Z; at_left : option loc; at_right : option loc;
  at_metadata : option Metadata; at_prefix : option IpNetwork }.

Definition AtomicTrieNode_new : AtomicTrieNode := mkAtomicTrie 0 None None None None.

#[export] Instance AtomicTrieNode_Node : Node AtomicTrieNode := {|
  node_bit n := load_bit (at_bit n);
  node_left n := at_left n;
  node_right n := at_right n;
  node_metadata n := at_metadata n;
  node_prefix n := at_prefix n;
  node_set_left '(mkAtomicTrie b _ r m p) x := mkAtomicTrie b x r m p;
  node_set_right '(mkAtomicTrie b l _ m p) x := mkAtomicTrie b l x m p;
  node_set_metadata '(mkAtomicTrie b l r _ p) x := mkAtomicTrie b l r (Some x) p;
  node_clear_metadata '(mkAtomicTrie b l r _ p) := mkAtomicTrie b l r None p;
  node_set_bit '(mkAtomicTrie _ l r m p) x :=
    b ← store_bit x; Some (mkAtomicTrie b l r m p);
  node_set_prefix '(mkAtomicTrie b l r m _) x := mkAtomicTrie b l r m (Some x);
  node_edge_bits := default_edge_bits;
  node_edge_len := default_edge_len;
  node_set_edge := default_set_edge;
|}.

Record PaddedTrieNode := mkPaddedTrie {
  pt_bit : option Z; pt_pad1 : list Z; pt_left : option loc; pt_right : option loc;
  pt_metadata : option Metadata; pt_prefix : option IpNetwork }.

Definition PaddedTrieNode_new : PaddedTrieNode :=
  mkPaddedTrie None (replicate 63 0) None None None None.

#[export] Instance PaddedTrieNode_Node : Node PaddedTrieNode := {|
  node_bit n := pt_bit n;
  node_left n := pt_left n;
  node_right n := pt_right n;
  node_metadata n := pt_metadata n;
  node_prefix n := pt_prefix n;
  node_set_left '(mkPaddedTrie b q _ r m p) x := mkPaddedTrie b q x r m p;
  node_set_right '(mkPaddedTrie b q l _ m p) x := mkPaddedTrie b q l x m p;
  node_set_metadata '(mkPaddedTrie b q l r _ p) x := mkPaddedTrie b q l r (Some x) p;
  node_clear_metadata '(mkPaddedTrie b q l r _ p) := mkPaddedTrie b q l r None p;
  node_set_bit '(mkPaddedTrie _ q l r m p) x := Some (mkPaddedTrie (Some x) q l r m p);
  node_set_prefix '(mkPaddedTrie b q l r m _) x := mkPaddedTrie b q l r m (Some x);
  node_edge_bits := default_edge_bits;
  node_edge_len := default_edge_len;
  node_set_edge := default_set_edge;
|}.

Record LockFreeTrieNode := mkLockFreeTrie {
  lt_bit : Z; lt_children : DashMap ChildKey loc;
  lt_metadata : option Metadata; lt_prefix : option IpNetwork }.

Definition LockFreeTrieNode_new : LockFreeTrieNode :=
  mkLockFreeTrie 0 dm_new None None.

(** [set_left(Some(n))] inserts the key, [set_left(None)] removes it. *)
Definition set_child (m : DashMap ChildKey loc) (k : ChildKey) (x : option loc)
    : DashMap ChildKey loc :=
  match x with Some n => dm_insert m k n | None => dm_remove m k end.

#[export] Instance LockFreeTrieNode_Node : Node LockFreeTrieNode := {|
  node_bit n := load_bit (lt_bit n);
  node_left n := dm_get (lt_children n) Left;
  node_right n := dm_get (lt_children n) Right;
  node_metadata n := lt_metadata n;
  node_prefix n := lt_prefix n;
  node_set_left '(mkLockFreeTrie b c m p) x := mkLockFreeTrie b (set_child c Left x) m p;
  node_set_right '(mkLockFreeTrie b c m p) x := mkLockFreeTrie b (set_child c Right x) m p;
  node_set_metadata '(mkLockFreeTrie b c _ p) x := mkLockFreeTrie b c (Some x) p;
  node_clear_metadata '(mkLockFreeTrie b c _ p) := mkLockFreeTrie b c None p;
  node_set_bit '(mkLockFreeTrie _ c m p) x :=
    b ← store_bit x; Some (mkLockFreeTrie b c m p);
  node_set_prefix '(mkLockFreeTrie b c m _) x := mkLockFreeTrie b c m (Some x);
  node_edge_bits := default_edge_bits;
  node_edge_len := default_edge_len;
  node_set_edge := default_set_edge;
|}.

(** ** Compressed (Patricia) variants (node/compressed.rs) *)

Record NormalRadixNode := mkNormalRadix {
  nr_edge_bits : list Z; nr_edge_len : nat;
  nr_metadata : option Metadata; nr_prefix : option IpNetwork;
  nr_left : option loc; nr_right : option loc }.

Definition NormalRadixNode_new : NormalRadixNode :=
  mkNormalRadix zero16 0 None None None None.

#[export] Instance NormalRadixNode_Node : Node NormalRadixNode := {|
  node_bit _ := None;
  node_left n := nr_left n;
  node_right n := nr_right n;
  node_metadata n := nr_metadata n;
  node_prefix n := nr_prefix n;
  node_set_left '(mkNormalRadix e k m p _ r) x := mkNormalRadix e k m p x r;
  node_set_right '(mkNormalRadix e k m p l _) x := mkNormalRadix e k m p l x;
  node_set_metadata '(mkNormalRadix e k _ p l r) x := mkNormalRadix e k (Some x) p l r;
  node_clear_metadata '(mkNormalRadix e k _ p l r) := mkNormalRadix e k None p l r;
  node_set_bit n _ := Some n;
  node_set_prefix '(mkNormalRadix e k m _ l r) x := mkNormalRadix e k m (Some x) l r;
  node_edge_bits n := Some (nr_edge_bits n);
  node_edge_len n := Some (nr_edge_len n);
  node_set_edge '(mkNormalRadix _ _ m p l r) bits len :=
    Some (mkNormalRadix bits len m p l r);
|}.

(** The length is an [AtomicU8]; 255 means "see [edge_len_overflow]". *)
Record AtomicRadixNode := mkAtomicRadix {
  ar_atomic_edge_len : Z; ar_edge_bits : list Z; ar_edge_len_overflow : nat;
  ar_metadata : option Metadata; ar_prefix : option IpNetwork;
  ar_left : option loc; ar_right : option loc }.

Definition AtomicRadixNode_new : AtomicRadixNode :=
  mkAtomicRadix 0 zero16 0 None None None None.

#[export] Instance AtomicRadixNode_Node : Node AtomicRadixNode := {|
  node_bit _ := None;
  node_left n := ar_left n;
  node_right n := ar_right n;
  node_metadata n := ar_metadata n;
  node_prefix n := ar_prefix n;
  node_set_left '(mkAtomicRadix a e o m p _ r) x := mkAtomicRadix a e o m p x r;
  node_set_right '(mkAtomicRadix a e o m p l _) x := mkAtomicRadix a e o m p l x;
  node_set_metadata '(mkAtomicRadix a e o _ p l r) x := mkAtomicRadix a e o (Some x) p l r;
  node_clear_metadata '(mkAtomicRadix a e o _ p l r) := mkAtomicRadix a e o None p l r;
  node_set_bit n _ := Some n;
  node_set_prefix '(mkAtomicRadix a e o m _ l r) x := mkAtomicRadix a e o m (Some x) l r;
  node_edge_bits n := Some (ar_edge_bits n);
  node_edge_len n :=
    let atomic_val := Z.to_nat (ar_atomic_edge_len n) in
    if (atomic_val <? 255)%nat then Some atomic_val else Some (ar_edge_len_overflow n);
  node_set_edge '(mkAtomicRadix _ _ o m p l r) bits len :=
    if (len <? 255)%nat
    then Some (mkAtomicRadix (wrap 8 (Z.of_nat len)) bits o m p l r)
    else Some (mkAtomicRadix 255 bits len m p l r);
|}.

Record PaddedRadixNode := mkPaddedRadix {
  pr_edge_bits : list Z; pr_pad1 : list Z; pr_edge_len : nat;
  pr_metadata : option Metadata; pr_prefix : option IpNetwork;
  pr_left : option loc; pr_right : option loc }.

Definition PaddedRadixNode_new : PaddedRadixNode :=
  mkPaddedRadix zero16 (replicate 63 0) 0 None None None None.

#[export] Instance PaddedRadixNode_Node : Node PaddedRadixNode := {|
  node_bit _ := None;
  node_left n := pr_left n;
  node_right n := pr_right n;
  node_metadata n := pr_metadata n;
  node_prefix n := pr_prefix n;
  node_set_left '(mkPaddedRadix e q k m p _ r) x := mkPaddedRadix e q k m p x r;
  node_set_right '(mkPaddedRadix e q k m p l _) x := mkPaddedRadix e q k m p l x;
  node_set_metadata '(mkPaddedRadix e q k _ p l r) x := mkPaddedRadix e q k (Some x) p l r;
  node_clear_metadata '(mkPaddedRadix e q k _ p l r) := mkPaddedRadix e q k None p l r;
  node_set_bit n _ := Some n;
  node_set_prefix '(mkPaddedRadix e q k m _ l r) x := mkPaddedRadix e q k m (Some x) l r;
  node_edge_bits n := Some (pr_edge_bits n);
  node_edge_len n := Some (pr_edge_len n);
  node_set_edge '(mkPaddedRadix _ q _ m p l r) bits len :=
    Some (mkPaddedRadix bits q len m p l r);
|}.

Record LockFreeRadixNode := mkLockFreeRadix {
  lr_edge_bits : list Z; lr_edge_len : nat;
  lr_metadata : option Metadata; lr_prefix : option IpNetwork;
  lr_children : DashMap ChildKey loc }.

Definition LockFreeRadixNode_new : LockFreeRadixNode :=
  mkLockFreeRadix zero16 0 None None dm_new.

#[export] Instance LockFreeRadixNode_Node : Node LockFreeRadixNode := {|
  node_bit _ := None;
  node_left n := dm_get (lr_children n) Left;
  node_right n := dm_get (lr_children n) Right;
  node_metadata n := lr_metadata n;
  node_prefix n := lr_prefix n;
  node_set_left '(mkLockFreeRadix e k m p c) x := mkLockFreeRadix e k m p (set_child c Left x);
  node_set_right '(mkLockFreeRadix e k m p c) x := mkLockFreeRadix e k m p (set_child c Right x);
  node_set_metadata '(mkLockFreeRadix e k _ p c) x := mkLockFreeRadix e k (Some x) p c;
  node_clear_metadata '(mkLockFreeRadix e k _ p c) := mkLockFreeRadix e k None p c;
  node_set_bit n _ := Some n;
  node_set_prefix '(mkLockFreeRadix e k m _ c) x := mkLockFreeRadix e k m (Some x) c;
  node_edge_bits n := Some (lr_edge_bits n);
  node_edge_len n := Some (lr_edge_len n);
  node_set_edge '(mkLockFreeRadix _ _ m p c) bits len :=
    Some (mkLockFreeRadix bits len m p c);
|}.

(** ** The wrapper and the builder (node/mod.rs) *)

Inductive NodeWrapper :=
  | W_NormalTrie (n : NormalTrieNode)
  | W_AtomicTrie (n : AtomicTrieNode)
  | W_PaddedTrie (n : PaddedTrieNode)
  | W_LockFreeTrie (n : LockFreeTrieNode)
  | W_NormalRadix (n : NormalRadixNode)
  | W_AtomicRadix (n : AtomicRadixNode)
  | W_PaddedRadix (n : PaddedRadixNode)
  | W_LockFreeRadix (n : LockFreeRadixNode).

(** The macro [dispatch!], for a method that reads the node ... *)
Definition dispatch {A} (f : ∀ N, Node N → N → A) (w : NodeWrapper) : A :=
  match w with
  | W_NormalTrie n => f _ _ n | W_AtomicTrie n => f _ _ n
  | W_PaddedTrie n => f _ _ n | W_LockFreeTrie n => f _ _ n
  | W_NormalRadix n => f _ _ n | W_AtomicRadix n => f _ _ n
  | W_PaddedRadix n => f _ _ n | W_LockFreeRadix n => f _ _ n
  end.

(** ... and for one that writes it, possibly panicking. *)
Definition dispatch_opt (f : ∀ N, Node N → N → option N) (w : NodeWrapper)
    : option NodeWrapper :=
  match w with
  | W_NormalTrie n => W_NormalTrie <$> f _ _ n
  | W_AtomicTrie n => W_AtomicTrie <$> f _ _ n
  | W_PaddedTrie n => W_PaddedTrie <$> f _ _ n
  | W_LockFreeTrie n => W_LockFreeTrie <$> f _ _ n
  | W_NormalRadix n => W_NormalRadix <$> f _ _ n
  | W_AtomicRadix n => W_AtomicRadix <$> f _ _ n
  | W_PaddedRadix n => W_PaddedRadix <$> f _ _ n
  | W_LockFreeRadix n => W_LockFreeRadix <$> f _ _ n
  end.
Definition dispatch_set (f : ∀ N, Node N → N → N) (w : NodeWrapper) : NodeWrapper :=
  match w with
  | W_NormalTrie n => W_NormalTrie (f _ _ n)
  | W_AtomicTrie n => W_AtomicTrie (f _ _ n)
  | W_PaddedTrie n => W_PaddedTrie (f _ _ n)
  | W_LockFreeTrie n => W_LockFreeTrie (f _ _ n)
  | W_NormalRadix n => W_NormalRadix (f _ _ n)
  | W_AtomicRadix n => W_AtomicRadix (f _ _ n)
  | W_PaddedRadix n => W_PaddedRadix (f _ _ n)
  | W_LockFreeRadix n => W_LockFreeRadix (f _ _ n)
  end.

#[export] Instance NodeWrapper_Node : Node NodeWrapper := {|
  node_bit := dispatch (λ _ _, node_bit);
  node_left := dispatch (λ _ _, node_left);
  node_right := dispatch (λ _ _, node_right);
  node_metadata := dispatch (λ _ _, node_metadata);
  node_prefix := dispatch (λ _ _, node_prefix);
  node_set_left w x := dispatch_set (λ _ _ n, node_set_left n x) w;
  node_set_right w x := dispatch_set (λ _ _ n, node_set_right n x) w;
  node_set_metadata w x := dispatch_set (λ _ _ n, node_set_metadata n x) w;
  node_clear_metadata := dispatch_set (λ _ _, node_clear_metadata);
  node_set_bit w x := dispatch_opt (λ _ _ n, node_set_bit n x) w;
  node_set_prefix w x := dispatch_set (λ _ _ n, node_set_prefix n x) w;
  node_edge_bits := dispatch (λ _ _, node_edge_bits);
  node_edge_len := dispatch (λ _ _, node_edge_len);
  node_set_edge w b k := dispatch_opt (λ _ _ n, node_set_edge n b k) w;
|}.

Record NodeBuilder := mkBuilder { nb_variant : NodeVariant }.

Definition build (b : NodeBuilder) : NodeWrapper :=
  match nb_variant b with
  | NormalTrieNode_v => W_NormalTrie NormalTrieNode_new
  | AtomicTrieNode_v => W_AtomicTrie AtomicTrieNode_new
  | PaddedTrieNode_v => W_PaddedTrie PaddedTrieNode_new
  | LockFreeTrieNode_v => W_LockFreeTrie LockFreeTrieNode_new
  | NormalRadixNode_v => W_NormalRadix NormalRadixNode_new
  | AtomicRadixNode_v => W_AtomicRadix AtomicRadixNode_new
  | PaddedRadixNode_v => W_PaddedRadix PaddedRadixNode_new
  | LockFreeRadixNode_v => W_LockFreeRadix LockFreeRadixNode_new
  end.

Definition build_leaf (b : NodeBuilder) (network : IpNetwork) (m : Metadata) : NodeWrapper :=
  node_set_metadata (node_set_prefix (build b) network) m.

(** ** What the trees rely on *)

Record node_view := mkView {
  nv_left : option loc; nv_right : option loc;
  nv_metadata : option Metadata; nv_prefix : option IpNetwork;
  nv_edge : option (list Z * nat) }.

Definition view {T} `{Node T} (n : T) : node_view :=
  mkView (node_left n) (node_right n) (node_metadata n) (node_prefix n)
    (e ← node_edge_bits n; k ← node_edge_len n; Some (e, k)).

Class NodeLaws (T : Type) `{Node T} : Prop := {
  view_set_left (n : T) x :
    view (node_set_left n x) =
    let v := view n in mkView x (nv_right v) (nv_metadata v) (nv_prefix v) (nv_edge v);
  view_set_right (n : T) x :
    view (node_set_right n x) =
    let v := view n in mkView (nv_left v) x (nv_metadata v) (nv_prefix v) (nv_edge v);
  view_set_metadata (n : T) x :
    view (node_set_metadata n x) =
    let v := view n in mkView (nv_left v) (nv_right v) (Some x) (nv_prefix v) (nv_edge v);
  view_clear_metadata (n : T) :
    view (node_clear_metadata n) =
    let v := view n in mkView (nv_left v) (nv_right v) None (nv_prefix v) (nv_edge v);
  view_set_prefix (n : T) x :
    view (node_set_prefix n x) =
    let v := view n in mkView (nv_left v) (nv_right v) (nv_metadata v) (Some x) (nv_edge v);
  (* an edge can be set exactly on the nodes that have one *)
  view_set_edge (n : T) b k :
    match node_set_edge n b k with
    | Some n' =>
        let v := view n in
        is_Some (nv_edge v) ∧
        view n' = mkView (nv_left v) (nv_right v) (nv_metadata v) (nv_prefix v) (Some (b, k))
    | None => nv_edge (view n) = None
    end;
}.

Context `{!DashMapLaws}.

Lemma dm_get_set_child m k x k' :
  dm_get (set_child m k x) k' = if decide (k = k') then x else dm_get m k'.
Proof. destruct x; simpl; [apply dm_get_insert | apply dm_get_remove]. Qed.

Ltac node_laws :=
  split; intros []; intros; unfold view; simpl; rewrite ?dm_get_set_child; eauto.

#[export] Instance NormalTrieNode_laws : NodeLaws NormalTrieNode.
Proof. node_laws. Qed.
#[export] Instance AtomicTrieNode_laws : NodeLaws AtomicTrieNode.
Proof. node_laws. Qed.
#[export] Instance PaddedTrieNode_laws : NodeLaws PaddedTrieNode.
Proof. node_laws. Qed.
#[export] Instance LockFreeTrieNode_laws : NodeLaws LockFreeTrieNode.
Proof. node_laws. Qed.
#[export] Instance NormalRadixNode_laws : NodeLaws NormalRadixNode.
Proof. node_laws. Qed.
#[export] Instance PaddedRadixNode_laws : NodeLaws PaddedRadixNode.
Proof. node_laws. Qed.
#[export] Instance LockFreeRadixNode_laws : NodeLaws LockFreeRadixNode.
Proof. node_laws. Qed.

(** The [AtomicU8] length with its overflow cell is transparent. *)
#[export] Instance AtomicRadixNode_laws : NodeLaws AtomicRadixNode.
Proof.
  split; intros []; intros; try (unfold view; simpl; case_match; done).
  unfold view; simpl.
  destruct (k <? 255)%nat eqn:Hk; simpl; (split; [case_match; eauto|]).
  - bprop. rewrite wrap_small by (split; lia). rewrite Nat2Z.id.
    rewrite (proj2 (Nat.ltb_lt _ _) Hk). done.
  - done.
Qed.

#[export] Instance NodeWrapper_laws : NodeLaws NodeWrapper.
Proof.
  split; intros [n|n|n|n|n|n|n|n].
  all: try exact (view_set_left n). all: try exact (view_set_right n).
  all: try exact (view_set_metadata n). all: try exact (view_clear_metadata n).
  all: try exact (view_set_prefix n).
  all: intros b k; pose proof (view_set_edge n b k) as Hl; destruct n; simpl in *;
    try destruct (k <? 255)%nat; exact Hl.
Qed.

Lemma view_build b :
  view (build b) =
  mkView None None None None (if is_compressed (nb_variant b) then Some (zero16, 0%nat) else None).
Proof. destruct b as [[]]; unfold view; simpl; rewrite ?dm_get_new; done. Qed.
End nodes.

(** The trees see a node through its methods only. *)
#[global] Arguments node_bit : simpl never.
#[global] Arguments node_left : simpl never.
#[global] Arguments node_right : simpl never.
#[global] Arguments node_metadata : simpl never.
#[global] Arguments node_prefix : simpl never.
#[global] Arguments node_set_left : simpl never.
#[global] Arguments node_set_right : simpl never.
#[global] Arguments node_set_metadata : simpl never.
#[global] Arguments node_clear_metadata : simpl never.
#[global] Arguments node_set_bit : simpl never.
#[global] Arguments node_set_prefix : simpl never.
#[global] Arguments node_edge_bits : simpl never.
#[global] Arguments node_edge_len : simpl never.
#[global] Arguments node_set_edge : simpl never.
#[global] Arguments build : simpl never.
