(* ===== verification/Heap.v ===== *)
(** * The heap of nodes and its abstraction

    The trees of engine/src/tree.rs are made of [Arc<dyn Node>] cells with
    interior mutability: two handles on the same root see each other's
    updates.  [Heap] is that shared store, [M] the state-and-panic monad the
    tree operations run in, and [rep] relates a location to the pure binary
    tree it is the root of, together with its footprint. *)

From S2P Require Import Prelude Addr DashMap Node.

(** ** Pure binary trees *)

Inductive btree (A : Type) := Nil | Bin (a : A) (l r : btree A).
Arguments Nil {A}.
Arguments Bin {A} _ _ _.

Fixpoint height {A} (t : btree A) : nat :=
  match t with Nil => 0 | Bin _ l r => S (height l `max` height r) end.

Section heap.
Context `{IpNetworkCrate} `{DashMapCrate}.

(** ** Store and monad *)

Record Heap := mkHeap { cells : gmap loc NodeWrapper; next : loc }.

Definition empty_heap : Heap := mkHeap ∅ 1.

(** [None] is a panic; a dangling location is treated the same way, and the
    theorems show that neither happens. *)
Definition M (A : Type) : Type := Heap → option (A * Heap).

#[export] Instance M_ret : MRet M := λ A x h, Some (x, h).
#[export] Instance M_bind : MBind M := λ A B f m h,
  match m h with Some (a, h') => f a h' | None => None end.

(** [Arc::new(node)] *)
Definition alloc (n : NodeWrapper) : M loc := λ h,
  Some (next h, mkHeap (<[next h := n]> (cells h)) (Pos.succ (next h))).

(** A method call that reads the node behind an [Arc]. *)
Definition get {A} (f : NodeWrapper → A) (l : loc) : M A := λ h,
  n ← cells h !! l; Some (f n, h).

(** A method call that writes it. *)
Definition modify (f : NodeWrapper → NodeWrapper) (l : loc) : M unit := λ h,
  n ← cells h !! l; Some (tt, mkHeap (<[l := f n]> (cells h)) (next h)).

Definition modify_opt (f : NodeWrapper → option NodeWrapper) (l : loc) : M unit := λ h,
  n ← cells h !! l; n' ← f n; Some (tt, mkHeap (<[l := n']> (cells h)) (next h)).

Definition panic {A} : M A := λ _, None.

(** Every location in use is below the allocation pointer. *)
Definition heap_wf (h : Heap) : Prop :=
  ∀ l, is_Some (cells h !! l) → (l < next h)%positive.

Lemma heap_wf_empty : heap_wf empty_heap.
Proof. intros l [n Hl]. simpl in Hl. by rewrite lookup_empty in Hl. Qed.

Lemma heap_wf_fresh h : heap_wf h → cells h !! next h = None.
Proof.
  intros Hwf. destruct (cells h !! next h) eqn:E; [|done].
  specialize (Hwf (next h) (mk_is_Some _ _ E)). lia.
Qed.

Lemma heap_wf_alloc h n :
  heap_wf h → heap_wf (mkHeap (<[next h := n]> (cells h)) (Pos.succ (next h))).
Proof.
  intros Hwf l. simpl. rewrite lookup_insert. case_decide; subst; [lia|].
  intros Hl. specialize (Hwf l Hl). lia.
Qed.

Lemma heap_wf_write h l n :
  heap_wf h → is_Some (cells h !! l) →
  heap_wf (mkHeap (<[l := n]> (cells h)) (next h)).
Proof.
  intros Hwf Hl l'. simpl. rewrite lookup_insert. case_decide; subst; eauto.
Qed.

(** ** What a cell holds besides its children *)

Record cell := mkCell {
  c_meta : option Metadata;
  c_prefix : option IpNetwork;
  c_edge : option (list Z * nat);
}.

Definition cell_of_view (v : node_view) : cell :=
  mkCell (nv_metadata v) (nv_prefix v) (nv_edge v).
Definition pay (n : NodeWrapper) : cell := cell_of_view (view n).

(** ** Representation *)

Inductive rep (c : gmap loc NodeWrapper) : btree cell → option loc → gset loc → Prop :=
  | rep_nil : rep c Nil None ∅
  | rep_bin l n t0 t1 F0 F1 :
      c !! l = Some n →
      rep c t0 (node_left n) F0 → rep c t1 (node_right n) F1 →
      l ∉ F0 → l ∉ F1 → F0 ## F1 →
      rep c (Bin (pay n) t0 t1) (Some l) ({[l]} ∪ F0 ∪ F1).

Lemma rep_frame c c' t o F :
  rep c t o F → (∀ l, l ∈ F → c' !! l = c !! l) → rep c' t o F.
Proof.
  induction 1 as [|l n t0 t1 F0 F1 Hl H0' IH0 H1' IH1]; intros Heq; [constructor|].
  econstructor; try done.
  - rewrite Heq; [done|set_solver].
  - apply IH0. set_solver.
  - apply IH1. set_solver.
Qed.

Lemma rep_dom c t o F l : rep c t o F → l ∈ F → is_Some (c !! l).
Proof. induction 1; set_solver. Qed.

Lemma rep_none c t F : rep c t None F → t = Nil ∧ F = ∅.
Proof. by inversion 1. Qed.

Lemma rep_some c t l F :
  rep c t (Some l) F →
  ∃ n t0 t1 F0 F1, c !! l = Some n ∧ t = Bin (pay n) t0 t1 ∧
    rep c t0 (node_left n) F0 ∧ rep c t1 (node_right n) F1 ∧
    l ∉ F0 ∧ l ∉ F1 ∧ F0 ## F1 ∧ F = {[l]} ∪ F0 ∪ F1.
Proof. inversion 1; subst. eauto 20. Qed.

(** [h'] is reached from [h] by a computation that owns the footprint [F]
    and ends with the footprint [F']: the rest of the heap is untouched and
    what [F'] gained is fresh. *)
Record evolves (h h' : Heap) (F F' : gset loc) : Prop := {
  ev_wf : heap_wf h';
  ev_frame l : is_Some (cells h !! l) → l ∉ F → cells h' !! l = cells h !! l;
  ev_fresh l : l ∈ F' → l ∈ F ∨ cells h !! l = None;
}.

Lemma evolves_refl h F : heap_wf h → evolves h h F F.
Proof. split; auto. Qed.

Lemma evolves_trans h1 h2 h3 F1 F2 F3 :
  evolves h1 h2 F1 F2 → evolves h2 h3 F2 F3 → evolves h1 h3 F1 F3.
Proof.
  intros E1 E2. split.
  - apply E2.
  - intros l Hl Hn. pose proof (ev_frame _ _ _ _ E1 l Hl Hn) as Heq.
    rewrite <- Heq. apply (ev_frame _ _ _ _ E2).
    + by rewrite Heq.
    + intros Hin. destruct (ev_fresh _ _ _ _ E1 l Hin); [done|].
      by rewrite eq_None_not_Some in H1.
  - intros l Hl. destruct (ev_fresh _ _ _ _ E2 l Hl) as [Hin|Hnone].
    + apply (ev_fresh _ _ _ _ E1 l Hin).
    + destruct (decide (l ∈ F1)) as [|Hn]; [by left|right].
      destruct (cells h1 !! l) eqn:E; [|done].
      pose proof (ev_frame _ _ _ _ E1 l ltac:(eauto) Hn). congruence.
Qed.

(** A computation may own more than it needs and report less than it has. *)
Lemma evolves_weaken h h' F F' G G' :
  F ⊆ G → G' ⊆ F' → evolves h h' F F' → evolves h h' G G'.
Proof.
  intros HF HG [Hwf Hfr Hfs]. split; [done| |].
  - intros l Hl Hn. apply Hfr; [done|set_solver].
  - intros l Hl. destruct (Hfs l); [set_solver|left; set_solver|by right].
Qed.

Lemma evolves_extend h h' F F' X : evolves h h' F F' → evolves h h' (F ∪ X) (F' ∪ X).
Proof.
  intros [Hwf Hfr Hfs]. split; [done| |].
  - intros l Hl Hn. apply Hfr; [done|set_solver].
  - intros l Hl. destruct (decide (l ∈ X)); [left; set_solver|].
    destruct (Hfs l); [set_solver|left; set_solver|by right].
Qed.

(** What [evolves] leaves alone stays represented. *)
Lemma rep_evolves h h' F F' t o G :
  evolves h h' F F' → rep (cells h) t o G → F ## G →
  rep (cells h') t o G ∧ F' ## G.
Proof.
  intros Hev Hr Hd. split.
  - eapply rep_frame; [exact Hr|]. intros x Hx.
    apply (ev_frame _ _ _ _ Hev); [by eapply rep_dom|set_solver].
  - intros x Hx Hg. destruct (ev_fresh _ _ _ _ Hev x Hx) as [|Hnone]; [set_solver|].
    destruct (rep_dom _ _ _ _ x Hr Hg). congruence.
Qed.

(** Overwriting one node, possibly with other children. *)
Lemma rep_write h l n n' t0 t1 F0 F1 :
  heap_wf h → cells h !! l = Some n →
  rep (cells h) t0 (node_left n') F0 → rep (cells h) t1 (node_right n') F1 →
  l ∉ F0 → l ∉ F1 → F0 ## F1 →
  let h' := mkHeap (<[l := n']> (cells h)) (next h) in
  rep (cells h') (Bin (pay n') t0 t1) (Some l) ({[l]} ∪ F0 ∪ F1) ∧
  evolves h h' ({[l]} ∪ F0 ∪ F1) ({[l]} ∪ F0 ∪ F1).
Proof.
  intros Hwf Hl Hr0 Hr1 Hn0 Hn1 Hd h'. split.
  - constructor; simpl; try done.
    + by rewrite lookup_insert_eq.
    + eapply rep_frame; [done|]. intros x Hx. apply lookup_insert_ne. set_solver.
    + eapply rep_frame; [done|]. intros x Hx. apply lookup_insert_ne. set_solver.
  - split; simpl; [by apply heap_wf_write; eauto| |by left].
    intros x _ Hx. apply lookup_insert_ne. set_solver.
Qed.

(** Allocating a node without children. *)
Lemma rep_alloc h n :
  heap_wf h → node_left n = None → node_right n = None →
  let h' := mkHeap (<[next h := n]> (cells h)) (Pos.succ (next h)) in
  rep (cells h') (Bin (pay n) Nil Nil) (Some (next h)) {[next h]} ∧
  evolves h h' ∅ {[next h]}.
Proof.
  intros Hwf H0' H1' h'. split.
  - replace ({[next h]} : gset loc) with (({[next h]} ∪ ∅) ∪ ∅ : gset loc) by set_solver.
    constructor; simpl; try set_solver.
    + by rewrite lookup_insert_eq.
    + rewrite H0'. constructor.
    + rewrite H1'. constructor.
  - split; simpl; [by apply heap_wf_alloc| |].
    + intros x [m Hx] _. apply lookup_insert_ne. intros <-.
      rewrite heap_wf_fresh in Hx; done.
    + intros x ->%elem_of_singleton. right. by apply heap_wf_fresh.
Qed.

(** Replacing the subtree below one side of a node. *)
Lemma rep_update_left h h' l n t0' t1 F0 F0' F1 :
  cells h !! l = Some n → rep (cells h) t1 (node_right n) F1 →
  l ∉ F0 → l ∉ F1 → F0 ## F1 →
  evolves h h' F0 F0' → rep (cells h') t0' (node_left n) F0' →
  rep (cells h') (Bin (pay n) t0' t1) (Some l) ({[l]} ∪ F0' ∪ F1) ∧
  evolves h h' ({[l]} ∪ F0 ∪ F1) ({[l]} ∪ F0' ∪ F1).
Proof.
  intros Hl Hr1 Hn0 Hn1 Hd Hev Hr0.
  assert (l ∉ F0') as Hl'.
  { intros Hin. destruct (ev_fresh _ _ _ _ Hev l Hin); congruence. }
  assert (F0' ## F1) as Hd'.
  { intros x Hx Hx1. destruct (ev_fresh _ _ _ _ Hev x Hx) as [|Hnone]; [set_solver|].
    destruct (rep_dom _ _ _ _ x Hr1 Hx1). congruence. }
  split.
  - constructor; try done.
    + rewrite (ev_frame _ _ _ _ Hev); eauto.
    + eapply rep_frame; [done|]. intros x Hx.
      apply (ev_frame _ _ _ _ Hev); [by eapply rep_dom|set_solver].
  - split.
    + apply Hev.
    + intros x Hx Hnx. apply (ev_frame _ _ _ _ Hev); [done|set_solver].
    + intros x Hx. assert (x = l ∨ x ∈ F0' ∨ x ∈ F1) as [->|[?|?]] by set_solver.
      * left. set_solver.
      * destruct (ev_fresh _ _ _ _ Hev x); [done|left; set_solver|by right].
      * left. set_solver.
Qed.

Lemma rep_update_right h h' l n t0 t1' F0 F1 F1' :
  cells h !! l = Some n → rep (cells h) t0 (node_left n) F0 →
  l ∉ F0 → l ∉ F1 → F0 ## F1 →
  evolves h h' F1 F1' → rep (cells h') t1' (node_right n) F1' →
  rep (cells h') (Bin (pay n) t0 t1') (Some l) ({[l]} ∪ F0 ∪ F1') ∧
  evolves h h' ({[l]} ∪ F0 ∪ F1) ({[l]} ∪ F0 ∪ F1').
Proof.
  intros Hl Hr0 Hn0 Hn1 Hd Hev Hr1.
  assert (l ∉ F1') as Hl'.
  { intros Hin. destruct (ev_fresh _ _ _ _ Hev l Hin); congruence. }
  assert (F0 ## F1') as Hd'.
  { intros x Hx0 Hx. destruct (ev_fresh _ _ _ _ Hev x Hx) as [|Hnone]; [set_solver|].
    destruct (rep_dom _ _ _ _ x Hr0 Hx0). congruence. }
  split.
  - constructor; try done.
    + rewrite (ev_frame _ _ _ _ Hev); eauto.
    + eapply rep_frame; [done|]. intros x Hx.
      apply (ev_frame _ _ _ _ Hev); [by eapply rep_dom|set_solver].
  - split.
    + apply Hev.
    + intros x Hx Hnx. apply (ev_frame _ _ _ _ Hev); [done|set_solver].
    + intros x Hx. assert (x = l ∨ x ∈ F1' ∨ x ∈ F0) as [->|[?|?]] by set_solver.
      * left. set_solver.
      * destruct (ev_fresh _ _ _ _ Hev x); [done|left; set_solver|by right].
      * left. set_solver.
Qed.

(** The same, on the side a bit selects. *)
Definition side (b : bool) (n : NodeWrapper) : option loc :=
  if b then node_right n else node_left n.

Definition set_side (b : bool) (n : NodeWrapper) (x : option loc) : NodeWrapper :=
  if b then node_set_right n x else node_set_left n x.

Lemma rep_update_side (b : bool) h h' l n t0 t1 tc F0 F1 Fc :
  cells h !! l = Some n →
  rep (cells h) t0 (node_left n) F0 → rep (cells h) t1 (node_right n) F1 →
  l ∉ F0 → l ∉ F1 → F0 ## F1 →
  evolves h h' (if b then F1 else F0) Fc → rep (cells h') tc (side b n) Fc →
  ∃ F', rep (cells h') (Bin (pay n) (if b then t0 else tc) (if b then tc else t1)) (Some l) F' ∧
        evolves h h' ({[l]} ∪ F0 ∪ F1) F'.
Proof.
  intros Hl Hr0 Hr1 Hn0 Hn1 Hd Hev Hrc. destruct b; eexists.
  - by eapply rep_update_right.
  - by eapply rep_update_left.
Qed.

(** ** Running the primitives *)

Lemma get_run {A} (f : NodeWrapper → A) l h n :
  cells h !! l = Some n → get f l h = Some (f n, h).
Proof. intros Hl. unfold get. by rewrite Hl. Qed.

Lemma modify_run f l h n :
  cells h !! l = Some n →
  modify f l h = Some (tt, mkHeap (<[l := f n]> (cells h)) (next h)).
Proof. intros Hl. unfold modify. by rewrite Hl. Qed.

Lemma bind_run {A B} (m : M A) (f : A → M B) h a h' :
  m h = Some (a, h') → (m ≫= f) h = f a h'.
Proof. intros Hm. unfold mbind, M_bind. by rewrite Hm. Qed.

Lemma bind_bind {A B C} (m : M A) (f : A → M B) (g : B → M C) h :
  ((m ≫= f) ≫= g) h = (m ≫= λ a, f a ≫= g) h.
Proof. unfold mbind, M_bind. by destruct (m h) as [[]|]. Qed.

(** ** What the setters do to the fields the trees read *)

Context `{!DashMapLaws}.

Lemma set_left_fields (n : NodeWrapper) x :
  node_left (node_set_left n x) = x ∧ node_right (node_set_left n x) = node_right n ∧
  pay (node_set_left n x) = pay n.
Proof. pose proof (view_set_left n x) as Hv. unfold pay. rewrite Hv. by injection Hv. Qed.

Lemma set_right_fields (n : NodeWrapper) x :
  node_left (node_set_right n x) = node_left n ∧ node_right (node_set_right n x) = x ∧
  pay (node_set_right n x) = pay n.
Proof. pose proof (view_set_right n x) as Hv. unfold pay. rewrite Hv. by injection Hv. Qed.

Lemma set_metadata_fields (n : NodeWrapper) x :
  node_left (node_set_metadata n x) = node_left n ∧
  node_right (node_set_metadata n x) = node_right n ∧
  pay (node_set_metadata n x) = mkCell (Some x) (c_prefix (pay n)) (c_edge (pay n)).
Proof. pose proof (view_set_metadata n x) as Hv. unfold pay. rewrite Hv. by injection Hv. Qed.

Lemma clear_metadata_fields (n : NodeWrapper) :
  node_left (node_clear_metadata n) = node_left n ∧
  node_right (node_clear_metadata n) = node_right n ∧
  pay (node_clear_metadata n) = mkCell None (c_prefix (pay n)) (c_edge (pay n)).
Proof. pose proof (view_clear_metadata n) as Hv. unfold pay. rewrite Hv. by injection Hv. Qed.

Lemma set_prefix_fields (n : NodeWrapper) x :
  node_left (node_set_prefix n x) = node_left n ∧
  node_right (node_set_prefix n x) = node_right n ∧
  pay (node_set_prefix n x) = mkCell (c_meta (pay n)) (Some x) (c_edge (pay n)).
Proof. pose proof (view_set_prefix n x) as Hv. unfold pay. rewrite Hv. by injection Hv. Qed.

Lemma set_edge_fields (n : NodeWrapper) b k :
  is_Some (c_edge (pay n)) →
  ∃ n', node_set_edge n b k = Some n' ∧
    node_left n' = node_left n ∧ node_right n' = node_right n ∧
    pay n' = mkCell (c_meta (pay n)) (c_prefix (pay n)) (Some (b, k)).
Proof.
  intros He. pose proof (view_set_edge n b k) as Hv.
  destruct (node_set_edge n b k) as [n'|].
  - destruct Hv as [_ Hv]. exists n'. unfold pay. rewrite Hv. split; [done|]. by injection Hv.
  - unfold pay, cell_of_view in He. cbn [c_edge] in He. rewrite Hv in He. by destruct He.
Qed.

Lemma build_fields b :
  node_left (build b) = None ∧ node_right (build b) = None ∧
  pay (build b) = mkCell None None
    (if is_compressed (nb_variant b) then Some (zero16, 0%nat) else None).
Proof. pose proof (view_build b) as Hv. unfold pay. rewrite Hv. by injection Hv. Qed.

(** A write that keeps the children of a node changes its cell only. *)
Lemma rep_modify (f : NodeWrapper → NodeWrapper) (fc : cell → cell) h l c t0 t1 F :
  (∀ n, node_left (f n) = node_left n ∧ node_right (f n) = node_right n ∧
        pay (f n) = fc (pay n)) →
  heap_wf h → rep (cells h) (Bin c t0 t1) (Some l) F →
  ∃ h', modify f l h = Some (tt, h') ∧
    rep (cells h') (Bin (fc c) t0 t1) (Some l) F ∧ evolves h h' F F.
Proof.
  intros Hf Hwf (n & t0' & t1' & F0 & F1 & Hl & [= -> -> ->] & Hr0 & Hr1 & Hn0 & Hn1 & Hd & ->)%rep_some.
  destruct (Hf n) as (HL & HR & HP).
  eexists. split; [by apply modify_run|]. rewrite <- HP.
  apply (rep_write _ _ n); rewrite ?HL, ?HR; done.
Qed.

(** Making [x], the root of a separate tree, the child on one side of [l]. *)
Lemma rep_set_side (b : bool) h l n x t0 t1 tc F0 F1 Fc :
  heap_wf h → cells h !! l = Some n →
  rep (cells h) t0 (node_left n) F0 → rep (cells h) t1 (node_right n) F1 →
  l ∉ F0 → l ∉ F1 → F0 ## F1 →
  rep (cells h) tc x Fc → l ∉ Fc → Fc ## F0 → Fc ## F1 →
  let F' := {[l]} ∪ (if b then F0 else Fc) ∪ (if b then Fc else F1) in
  let h' := mkHeap (<[l := set_side b n x]> (cells h)) (next h) in
  rep (cells h') (Bin (pay n) (if b then t0 else tc) (if b then tc else t1)) (Some l) F' ∧
  evolves h h' ({[l]} ∪ F0 ∪ F1 ∪ Fc) F'.
Proof.
  intros Hwf Hl Hr0 Hr1 Hn0 Hn1 Hd Hrc Hnc Hd0 Hd1.
  destruct b; cbv zeta; unfold set_side.
  - destruct (set_right_fields n x) as (HL & HR & HP). rewrite <- HP.
    edestruct (rep_write h l n (node_set_right n x) t0 tc F0 Fc) as [Hr Hev];
      rewrite ?HL, ?HR; try done.
    split; [exact Hr|]. eapply evolves_weaken; [| |exact Hev]; set_solver.
  - destruct (set_left_fields n x) as (HL & HR & HP). rewrite <- HP.
    edestruct (rep_write h l n (node_set_left n x) tc t1 Fc F1) as [Hr Hev];
      rewrite ?HL, ?HR; try done.
    split; [exact Hr|]. eapply evolves_weaken; [| |exact Hev]; set_solver.
Qed.

Lemma side_set_side b n x : side b (set_side b n x) = x.
Proof. destruct b; simpl; [apply set_right_fields|apply set_left_fields]. Qed.
End heap.
