(* ===== verification/Helpers.v ===== *)
(** * Small helpers of the engine crate
    (engine/src/atomic.rs, engine/src/errors.rs, engine/src/types.rs)

    The shared node cell [AtomicNodeRef], the crate's error type and the rule
    record.  The other parts of the crate do not call them; they are part of
    its interface. *)

From S2P Require Import Prelude Addr Node Heap.

(** ** [RadixError] *)

Inductive RadixError :=
  | InvalidPrefix (s : string)
  | InvalidIp (s : string)
  | EngineError (s : string)
  | Serialization (s : string).

Definition RadixError_display (e : RadixError) : string :=
  match e with
  | InvalidPrefix s => "invalid CIDR prefix: " +:+ s
  | InvalidIp s => "invalid IP address: " +:+ s
  | EngineError s => "engine error: " +:+ s
  | Serialization s => "serialization error: " +:+ s
  end.

(** ** [SubnetRule] *)

Section rules.
Context `{IpNetworkCrate}.

Record SubnetRule := mkRule { rule_prefix : IpNetwork; rule_metadata : Metadata }.

Definition subnet_rule_new (prefix : IpNetwork) (metadata : Metadata) : SubnetRule := mkRule prefix metadata.
End rules.

(** [From<&str>] and [From<String>] *)
Definition metadata_from (v : string) : Metadata := Metadata.new v.

(** ** [AtomicNodeRef] *)

(** The node behind the lock; an [Arc] is the location it points to, which
    is what [Arc::ptr_eq] compares.  Each method holds the lock throughout,
    so it is one step. *)
Definition AtomicNodeRef : Type := option loc.

Definition atomic_new : AtomicNodeRef := None.
Definition atomic_load (self : AtomicNodeRef) : option loc := self.
Definition atomic_store (self : AtomicNodeRef) (node : loc) : AtomicNodeRef := Some node.

Definition compare_exchange (self : AtomicNodeRef) (current new : loc) : Result loc loc * AtomicNodeRef :=
  match self with
  | Some existing =>
      if decide (existing = current) then (Ok new, Some new) else (Err existing, Some existing)
  | None => (Err new, None)
  end.

(** Threads that race to replace the same node, in the order in which they
    get the lock. *)
Fixpoint race (self : AtomicNodeRef) (current : loc) (news : list loc) : list (Result loc loc) * AtomicNodeRef :=
  match news with
  | [] => ([], self)
  | new :: news =>
      let '(r, self) := compare_exchange self current new in
      let '(rs, self) := race self current news in
      (r :: rs, self)
  end.

Lemma race_other self current news b :
  self = Some b → b ≠ current → race self current news = ((λ _, Err b) <$> news, Some b).
Proof.
  intros -> Hb. induction news as [|new news IH]; [done|]. cbn. by rewrite decide_False, IH.
Qed.

Lemma race_empty current news : race None current news = (Err <$> news, None).
Proof. induction news as [|new news IH]; [done|]. cbn. by rewrite IH. Qed.

(** A race has one winner, the first to get the lock, and every other thread
    is told the winner's node; provided none of the threads puts the old node
    back.  On an empty cell nobody wins, however often they try, and each is
    handed its own node as the one in its way: only [store] fills the cell. *)
Theorem race_one_winner current new news :
  current ∉ new :: news →
  race (Some current) current (new :: news) = (Ok new :: ((λ _, Err new) <$> news), Some new) ∧
  race atomic_new current (new :: news) = (Err <$> new :: news, atomic_new).
Proof.
  intros Hc%not_elem_of_cons. split; [|apply race_empty]. cbn. rewrite decide_True by done.
  by rewrite (race_other _ _ _ new) by naive_solver.
Qed.
