(* ===== verification/RouteTree.v ===== *)
(** * The interface between the engines and the trees (trait [RouteTree])

    [RouteTree] is the trait of engine/src/traits.rs; [RouteTreeLaws] is what a
    tree promises to the engines: relative to a routing table keyed by bit
    strings, [insert], [remove] and [contains] are the map operations on the
    key of the prefix, and no operation panics.  How an address is answered
    ([rt_answers]) and what is left after [clear] ([rt_cleared]) differ between
    the trees and are fields of the interface. *)

From S2P Require Import Prelude Addr DashMap Node Heap.

(** A routing table: the entry stored for each bit string. *)
Abbreviation table := (gmap (list bool) (IpNetwork * Metadata)).

Section interface.
Context `{IpNetworkCrate} `{DashMapCrate}.

Class RouteTree (T : Type) := {
  rt_insert : T → IpNetwork → Metadata → M (Result bool string);
  rt_lookup : T → IpAddr → M (option Metadata);
  rt_remove : T → IpNetwork → M (option Metadata);
  rt_contains : T → IpNetwork → M bool;
  rt_clear : T → M unit;
}.

Class RouteTreeLaws (T : Type) `{RouteTree T} := {
  rt_key : IpNetwork → list bool;
  rt_answers : table → IpAddr → option Metadata → Prop;
  rt_cleared : table → table;
  rt_rep : Heap → T → table → gset loc → Prop;
  rt_cleared_idemp m : rt_cleared (rt_cleared m) = rt_cleared m;
  rt_rep_wf h t m F : rt_rep h t m F → heap_wf h;
  rt_insert_spec h t m F p md : rt_rep h t m F →
    ∃ h' F', rt_insert t p md h = Some (Ok (is_none (m !! rt_key p)), h') ∧
      rt_rep h' t (<[rt_key p := (p, md)]> m) F' ∧ evolves h h' F F';
  rt_lookup_spec h t m F ip : rt_rep h t m F →
    ∃ r, rt_lookup t ip h = Some (r, h) ∧ rt_answers m ip r;
  rt_remove_spec h t m F p : rt_rep h t m F →
    ∃ h' F', rt_remove t p h = Some (snd <$> m !! rt_key p, h') ∧
      rt_rep h' t (delete (rt_key p) m) F' ∧ evolves h h' F F';
  rt_contains_spec h t m F p : rt_rep h t m F →
    rt_contains t p h = Some (is_some (m !! rt_key p), h);
  rt_clear_spec h t m F : rt_rep h t m F →
    ∃ h' F', rt_clear t h = Some (tt, h') ∧
      rt_rep h' t (rt_cleared m) F' ∧ evolves h h' F F';
  rt_frame h h' t m F G G' : rt_rep h t m F → evolves h h' G G' → G ## F →
    rt_rep h' t m F ∧ G' ## F;
}.

(** The entries of a table, in an unspecified order. *)
Definition entries (m : table) : list (IpNetwork * Metadata) := (map_to_list m).*2.

Lemma elem_of_entries (m : table) e : e ∈ entries m ↔ ∃ k, m !! k = Some e.
Proof.
  unfold entries. rewrite list_elem_of_fmap. split.
  - intros ([k e'] & -> & Hin). exists k. by apply elem_of_map_to_list.
  - intros [k Hk]. exists (k, e). split; [done|]. by apply elem_of_map_to_list.
Qed.

(** ** Sequences of operations *)

Inductive op :=
  | OpInsert (p : IpNetwork) (md : Metadata)
  | OpLookup (ip : IpAddr)
  | OpRemove (p : IpNetwork)
  | OpContains (p : IpNetwork)
  | OpClear.

Inductive res :=
  | RInsert (r : Result bool string)
  | RMeta (r : option Metadata)
  | RBool (r : bool)
  | RUnit
  | RDone (r : Result unit string).

Definition run_op `{RouteTree T} (t : T) (o : op) : M res :=
  match o with
  | OpInsert p md => r ← rt_insert t p md; mret (RInsert r)
  | OpLookup ip => r ← rt_lookup t ip; mret (RMeta r)
  | OpRemove p => r ← rt_remove t p; mret (RMeta r)
  | OpContains p => r ← rt_contains t p; mret (RBool r)
  | OpClear => _ ← rt_clear t; mret RUnit
  end.

Fixpoint run_ops `{RouteTree T} (t : T) (os : list op) : M (list res) :=
  match os with
  | [] => mret []
  | o :: os' => r ← run_op t o; rs ← run_ops t os'; mret (r :: rs)
  end.

Lemma run_ops_cons `{RouteTree T} (t : T) o os h r h1 rs h2 :
  run_op t o h = Some (r, h1) → run_ops t os h1 = Some (rs, h2) →
  run_ops t (o :: os) h = Some (r :: rs, h2).
Proof.
  intros Ho Hos. cbn [run_ops].
  by rewrite (bind_run _ _ _ _ _ Ho), (bind_run _ _ _ _ _ Hos).
Qed.

(** The abstract machine: a step on the routing table. *)
Inductive spec_step (key : IpNetwork → list bool)
    (answers : table → IpAddr → option Metadata → Prop) (cleared : table → table)
    : table → op → res → table → Prop :=
  | spec_insert m p md :
      spec_step key answers cleared m (OpInsert p md)
        (RInsert (Ok (is_none (m !! key p)))) (<[key p := (p, md)]> m)
  | spec_lookup m ip r :
      answers m ip r → spec_step key answers cleared m (OpLookup ip) (RMeta r) m
  | spec_remove m p :
      spec_step key answers cleared m (OpRemove p) (RMeta (snd <$> m !! key p)) (delete (key p) m)
  | spec_contains m p :
      spec_step key answers cleared m (OpContains p) (RBool (is_some (m !! key p))) m
  | spec_clear m :
      spec_step key answers cleared m OpClear RUnit (cleared m).

Inductive spec_steps (key : IpNetwork → list bool)
    (answers : table → IpAddr → option Metadata → Prop) (cleared : table → table)
    : table → list op → list res → table → Prop :=
  | spec_done m : spec_steps key answers cleared m [] [] m
  | spec_more m (o : op) (r : res) m' (os : list op) (rs : list res) m'' :
      spec_step key answers cleared m o r m' →
      spec_steps key answers cleared m' os rs m'' →
      spec_steps key answers cleared m (o :: os) (r :: rs) m''.

Section laws.
Context `{RouteTreeLaws T}.

Lemma run_op_refines h (t : T) m F o :
  rt_rep h t m F →
  ∃ r h' m' F', run_op t o h = Some (r, h') ∧ rt_rep h' t m' F' ∧ evolves h h' F F' ∧
    spec_step rt_key rt_answers rt_cleared m o r m'.
Proof.
  intros Hr. destruct o as [p md|ip|p|p|]; simpl.
  - destruct (rt_insert_spec h t m F p md Hr) as (h' & F' & Hrun & ? & ?).
    rewrite (bind_run _ _ _ _ _ Hrun). eexists _, h', _, F'. split_and!; eauto; by constructor.
  - destruct (rt_lookup_spec h t m F ip Hr) as (r & Hrun & ?).
    rewrite (bind_run _ _ _ _ _ Hrun). eexists _, h, _, F.
    split_and!; eauto using rt_rep_wf, evolves_refl; by constructor.
  - destruct (rt_remove_spec h t m F p Hr) as (h' & F' & Hrun & ? & ?).
    rewrite (bind_run _ _ _ _ _ Hrun). eexists _, h', _, F'. split_and!; eauto; by constructor.
  - pose proof (rt_contains_spec h t m F p Hr) as Hrun.
    rewrite (bind_run _ _ _ _ _ Hrun). eexists _, h, _, F.
    split_and!; eauto using rt_rep_wf, evolves_refl; by constructor.
  - destruct (rt_clear_spec h t m F Hr) as (h' & F' & Hrun & ? & ?).
    rewrite (bind_run _ _ _ _ _ Hrun). eexists _, h', _, F'. split_and!; eauto; by constructor.
Qed.

(** Every sequence of operations runs without a panic and answers as the
    abstract machine may. *)
Lemma run_ops_refines os : ∀ h (t : T) m F,
  rt_rep h t m F →
  ∃ rs h' m' F', run_ops t os h = Some (rs, h') ∧ rt_rep h' t m' F' ∧ evolves h h' F F' ∧
    spec_steps rt_key rt_answers rt_cleared m os rs m'.
Proof.
  induction os as [|o os IH]; intros h t m F Hr; simpl.
  - exists [], h, m, F. split_and!; eauto using rt_rep_wf, evolves_refl; by constructor.
  - destruct (run_op_refines h t m F o Hr) as (r & h1 & m1 & F1 & Hrun & Hr1 & Hev & Hs).
    destruct (IH h1 t m1 F1 Hr1) as (rs & h2 & m2 & F2 & Hrun2 & Hr2 & Hev2 & Hs2).
    rewrite (bind_run _ _ _ _ _ Hrun), (bind_run _ _ _ _ _ Hrun2).
    exists (r :: rs), h2, m2, F2. split; [done|]. split; [done|].
    split; [by eapply evolves_trans|]. by econstructor.
Qed.
End laws.
End interface.
