(* ===== verification/Trie.v ===== *)
(** * The uncompressed tree (engine/src/tree.rs, [UncompressedTree])

    A bit-by-bit binary trie over the heap of nodes: [insert], [lookup]
    (with [longest_prefix_match_binary] of engine/src/lpm.rs), [remove],
    [contains] and [clear].  The specification is a routing table
    [gmap (list bool) (IpNetwork * Metadata)] keyed by the bits of the prefix;
    [trie_rep] says that the nodes reachable from the root implement it, and
    the refinement lemmas say what each operation does to it. *)

From S2P Require Import Prelude Addr Lpm DashMap Node Heap RouteTree.

Local Open Scope Z_scope.

Section operations.
Context `{IpNetworkCrate} `{DashMapCrate}.

Record UncompressedTree := mkUncompressed {
  ut_root : loc;
  ut_builder : NodeBuilder;
}.

Definition trie_new (v : NodeVariant) : M UncompressedTree :=
  let builder := mkBuilder v in
  root ← alloc (build builder);
  mret (mkUncompressed root builder).

(** The child the walk follows at a bit. *)
Definition child_at (bit : Z) (l : loc) : M (option loc) :=
  if bit =? 0 then get node_left l else get node_right l.

(** The loop [for depth in 0..prefix_len] of [insert]: [n] iterations left. *)
Fixpoint trie_insert_loop (b : NodeBuilder) (ip : IpAddr) (depth n : nat) (cur : loc)
    : M loc :=
  match n with
  | O => mret cur
  | S n' =>
      let bit := get_bit ip depth in
      nxt ← child_at bit cur;
      match nxt with
      | Some node => trie_insert_loop b ip (S depth) n' node
      | None =>
          new_node ← alloc (build b);
          _ ← (if bit =? 0
               then modify (λ w, node_set_left w (Some new_node)) cur
               else modify (λ w, node_set_right w (Some new_node)) cur);
          trie_insert_loop b ip (S depth) n' new_node
      end
  end.

Definition trie_insert (t : UncompressedTree) (prefix : IpNetwork) (metadata : Metadata)
    : M (Result bool string) :=
  let ip := net_network prefix in
  let prefix_len := Z.to_nat (net_prefix prefix) in
  cur ← trie_insert_loop (ut_builder t) ip 0 prefix_len (ut_root t);
  old ← get node_metadata cur;
  _ ← modify (λ w, node_set_prefix w prefix) cur;
  _ ← modify (λ w, node_set_metadata w metadata) cur;
  mret (Ok (is_none old)).

(** The loop of [remove] and [contains]: walk existing nodes only. *)
Fixpoint trie_find_loop (ip : IpAddr) (depth n : nat) (cur : loc) : M (option loc) :=
  match n with
  | O => mret (Some cur)
  | S n' =>
      nxt ← child_at (get_bit ip depth) cur;
      match nxt with
      | Some node => trie_find_loop ip (S depth) n' node
      | None => mret None
      end
  end.

Definition trie_remove (t : UncompressedTree) (prefix : IpNetwork) : M (option Metadata) :=
  let ip := net_network prefix in
  let prefix_len := Z.to_nat (net_prefix prefix) in
  cur ← trie_find_loop ip 0 prefix_len (ut_root t);
  match cur with
  | None => mret None
  | Some l =>
      removed ← get node_metadata l;
      _ ← (if is_some removed then modify node_clear_metadata l else mret tt);
      mret removed
  end.

Definition trie_contains (t : UncompressedTree) (prefix : IpNetwork) : M bool :=
  let ip := net_network prefix in
  let prefix_len := Z.to_nat (net_prefix prefix) in
  cur ← trie_find_loop ip 0 prefix_len (ut_root t);
  match cur with
  | None => mret false
  | Some l => md ← get node_metadata l; mret (is_some md)
  end.

Definition trie_clear (t : UncompressedTree) : M unit :=
  _ ← modify (λ w, node_set_left w None) (ut_root t);
  modify (λ w, node_set_right w None) (ut_root t).

(** Take the metadata of a node whose prefix contains the address. *)
Definition match_node (ip : IpAddr) (best : option Metadata) (l : loc)
    : M (option Metadata) :=
  pf ← get node_prefix l;
  match pf with
  | Some p =>
      if network_contains_ip p ip then
        md ← get node_metadata l;
        mret (match md with Some m => Some m | None => best end)
      else mret best
  | None => mret best
  end.

(** The [while let Some(node)] loop of [longest_prefix_match_binary]. *)
Fixpoint lpm_walk (fuel : nat) (ip : IpAddr) (depth : nat) (cur : option loc)
    (best : option Metadata) : M (option Metadata) :=
  match cur with
  | None => mret best
  | Some node =>
      match fuel with
      | O => panic
      | S fuel' =>
          best' ← match_node ip best node;
          nxt ← child_at (get_bit ip depth) node;
          lpm_walk fuel' ip (S depth) nxt best'
      end
  end.

(** A path has at most 128 nodes below the root. *)
Definition walk_fuel : nat := 129.

Definition longest_prefix_match_binary (root : loc) (ip : IpAddr) : M (option Metadata) :=
  best ← match_node ip None root;
  cur ← child_at (get_bit ip 0) root;
  lpm_walk walk_fuel ip 1 cur best.

Definition trie_lookup (t : UncompressedTree) (ip : IpAddr) : M (option Metadata) :=
  longest_prefix_match_binary (ut_root t) ip.

(** [longest_prefix_match] and [longest_prefix_match_with_lcp] of lpm.rs
    look at the root only. *)
Definition longest_prefix_match (root : loc) (ip : IpAddr) : M (option Metadata) :=
  best ← get node_metadata root;
  pf ← get node_prefix root;
  match pf with
  | Some p => if negb (network_contains_ip p ip) then mret None else mret best
  | None => mret best
  end.

(** ** Pure counterparts on [btree cell] *)

Definition blank (compressed : bool) : cell :=
  mkCell None None (if compressed then Some (zero16, 0%nat) else None).

Fixpoint t_get (t : btree cell) (k : list bool) : option cell :=
  match t with
  | Nil => None
  | Bin c l r =>
      match k with
      | [] => Some c
      | b :: k' => t_get (if b then r else l) k'
      end
  end.

(** Update the cell at [k], creating blank cells on the way. *)
Fixpoint t_update (bl : cell) (f : cell → cell) (t : btree cell) (k : list bool)
    : btree cell :=
  let '(c, l, r) := match t with Nil => (bl, Nil, Nil) | Bin c l r => (c, l, r) end in
  match k with
  | [] => Bin (f c) l r
  | false :: k' => Bin c (t_update bl f l k') r
  | true :: k' => Bin c l (t_update bl f r k')
  end.

Definition entry (c : cell) : option (IpNetwork * Metadata) :=
  p ← c_prefix c; m ← c_meta c; Some (p, m).

Definition t_match (ip : IpAddr) (best : option Metadata) (c : cell) : option Metadata :=
  match c_prefix c with
  | Some p =>
      if network_contains_ip p ip then
        match c_meta c with Some m => Some m | None => best end
      else best
  | None => best
  end.

Fixpoint t_walk (ip : IpAddr) (t : btree cell) (d : nat) (best : option Metadata)
    : option Metadata :=
  match t with
  | Nil => best
  | Bin c l r =>
      t_walk ip (if get_bit ip d =? 0 then l else r) (S d) (t_match ip best c)
  end.

(** Bits [d], ..., [d + n - 1] of an address, as the loops read them. *)
Definition path (ip : IpAddr) (d n : nat) : list bool :=
  (λ i, negb (get_bit ip i =? 0)) <$> seq d n.

(** ** Specification *)

(** A cell that holds metadata also holds the prefix it was inserted under,
    at the position of that prefix. *)
Definition trie_ok (t : btree cell) : Prop :=
  (∀ k c, t_get t k = Some c → is_Some (c_meta c) →
    ∃ p, c_prefix c = Some p ∧ net_bits p = k) ∧
  (height t ≤ 129)%nat.

Definition table_of (t : btree cell) (m : table) : Prop :=
  ∀ k, m !! k = (t_get t k ≫= entry).

Definition trie_rep (h : Heap) (t : UncompressedTree) (m : table) (F : gset loc) : Prop :=
  heap_wf h ∧
  ∃ bt, rep (cells h) bt (Some (ut_root t)) F ∧ trie_ok bt ∧ table_of bt m.
End operations.

(** ** Trees of cells *)

Section cells.
Context `{IpNetworkCrate} `{DashMapCrate}.
Implicit Types (t : btree cell) (k : list bool) (c bl : cell) (ip : IpAddr).

Lemma t_get_update_eq bl f t k :
  t_get (t_update bl f t k) k = Some (f (default bl (t_get t k))).
Proof.
  revert t. induction k as [|b k IH]; intros [|c l r]; try done.
  - destruct b; simpl; by rewrite IH.
  - destruct b; simpl; by rewrite IH.
Qed.

(** Besides the cell at [k], an update only creates blank cells. *)
Lemma t_get_update_ne bl f t k k' :
  k' ≠ k →
  t_get (t_update bl f t k) k' = t_get t k' ∨
  (t_get t k' = None ∧ t_get (t_update bl f t k) k' = Some bl).
Proof.
  revert t k'. induction k as [|b k IH]; intros t k' Hne.
  - destruct k' as [|b' k']; [done|].
    left. destruct t; simpl; [by destruct b'|done].
  - destruct k' as [|b' k'].
    + destruct t; destruct b; simpl; auto.
    + destruct (decide (b' = b)) as [->|Hb].
      * assert (k' ≠ k) as Hk by congruence.
        destruct t as [|c l r]; destruct b; simpl.
        all: first [exact (IH Nil k' Hk) | exact (IH _ k' Hk)].
      * left. destruct t, b, b'; simpl; done.
Qed.

Lemma height_update bl f t k :
  (height (t_update bl f t k) ≤ height t `max` S (length k))%nat.
Proof.
  revert t. induction k as [|b k IH]; intros [|c l r]; simpl; try lia.
  - specialize (IH Nil). destruct b; simpl in *; lia.
  - destruct b; simpl; [specialize (IH r)|specialize (IH l)]; lia.
Qed.

Lemma table_of_update bl f t k m e :
  entry bl = None → table_of t m →
  entry (f (default bl (t_get t k))) = Some e →
  table_of (t_update bl f t k) (<[k := e]> m).
Proof.
  intros Hbl Ht He k'. rewrite lookup_insert. case_decide as Hk.
  - subst k'. by rewrite t_get_update_eq.
  - rewrite (Ht k'). destruct (t_get_update_ne bl f t k k') as [->|[-> ->]]; [congruence|done|].
    done.
Qed.

Lemma table_of_delete bl f t k m :
  entry bl = None → table_of t m →
  entry (f (default bl (t_get t k))) = None →
  table_of (t_update bl f t k) (delete k m).
Proof.
  intros Hbl Ht He k'. rewrite lookup_delete. case_decide as Hk.
  - subst k'. by rewrite t_get_update_eq.
  - rewrite (Ht k'). destruct (t_get_update_ne bl f t k k') as [->|[-> ->]]; [congruence|done|].
    done.
Qed.

Lemma trie_ok_update bl f t k :
  c_meta bl = None → (length k ≤ 128)%nat → trie_ok t →
  (let c := f (default bl (t_get t k)) in
   is_Some (c_meta c) → ∃ p, c_prefix c = Some p ∧ net_bits p = k) →
  trie_ok (t_update bl f t k).
Proof.
  intros Hbl Hk [Hok Hh] Hf. split.
  - intros k' c Hc Hm. destruct (decide (k' = k)) as [->|Hne].
    + rewrite t_get_update_eq in Hc. injection Hc as <-. auto.
    + destruct (t_get_update_ne bl f t k k' Hne) as [Heq|[_ Heq]]; rewrite Heq in Hc.
      * eauto.
      * injection Hc as <-. rewrite Hbl in Hm. by destruct Hm.
  - pose proof (height_update bl f t k). lia.
Qed.

(** A blank cell and an absent one are the same to an update. *)
Lemma t_get_blank bl k : default bl (t_get (Bin bl Nil Nil) k) = bl.
Proof. destruct k as [|[] k]; done. Qed.

Lemma t_update_blank bl f k : t_update bl f (Bin bl Nil Nil) k = t_update bl f Nil k.
Proof. destruct k as [|[] k]; done. Qed.

Lemma path_S ip d n : path ip d (S n) = negb (get_bit ip d =? 0) :: path ip (S d) n.
Proof. done. Qed.

Lemma length_path ip d n : length (path ip d n) = n.
Proof. unfold path. by rewrite length_fmap, length_seq. Qed.

Lemma path_take ip n : (n ≤ ip_width ip)%nat → path ip 0 n = take n (ip_bits ip).
Proof.
  intros Hn. apply list_eq. intros i. unfold path. rewrite list_lookup_fmap.
  destruct (decide (i < n)%nat) as [Hi|Hi].
  - rewrite lookup_seq_lt, lookup_take_lt by done. simpl.
    rewrite get_bit_spec.
    destruct (lookup_lt_is_Some_2 (ip_bits ip) i) as [b Hb];
      [rewrite length_ip_bits; lia|].
    rewrite Hb. by destruct b.
  - rewrite lookup_seq_ge, lookup_take_ge by lia. done.
Qed.

(** What a cell contributes to a lookup. *)
Definition hit ip c : option Metadata :=
  p ← c_prefix c; if network_contains_ip p ip then c_meta c else None.

Lemma t_match_hit ip best c :
  t_match ip best c = match hit ip c with Some m => Some m | None => best end.
Proof.
  unfold t_match, hit. destruct (c_prefix c) as [p|]; [simpl|done].
  by destruct (network_contains_ip p ip).
Qed.

(** [res] is the deepest hit on the path of the address from depth [d],
    or [best] when there is none. *)
Definition deepest ip t d (best res : option Metadata) : Prop :=
  (res = best ∧ ∀ j c, t_get t (path ip d j) = Some c → hit ip c = None) ∨
  (∃ j c, t_get t (path ip d j) = Some c ∧ is_Some (hit ip c) ∧ res = hit ip c ∧
    ∀ j' c', (j < j')%nat → t_get t (path ip d j') = Some c' → hit ip c' = None).

Lemma t_walk_spec ip t d best : deepest ip t d best (t_walk ip t d best).
Proof.
  revert d best. induction t as [|c l IHl r IHr]; intros d best; [by left|].
  cbn [t_walk]. rewrite t_match_hit.
  set (sub := if get_bit ip d =? 0 then l else r).
  assert (∀ j, t_get (Bin c l r) (path ip d (S j)) = t_get sub (path ip (S d) j)) as Hsub.
  { intros j. rewrite path_S. unfold sub. simpl. by destruct (get_bit ip d =? 0). }
  assert (∀ b, deepest ip sub (S d) b (t_walk ip sub (S d) b)) as IH.
  { intros b. unfold sub. destruct (get_bit ip d =? 0); auto. }
  clear IHl IHr. destruct (IH (match hit ip c with Some m => Some m | None => best end))
    as [[Hw Hno]|(j & c' & Hc' & Hh & Hw & Hno)].
  - destruct (hit ip c) as [m|] eqn:Hc.
    + right. exists 0%nat, c. rewrite Hc. repeat split; eauto.
      intros [|j'] c' Hj Hg; [lia|]. rewrite Hsub in Hg. eauto.
    + left. split; [done|]. intros [|j] c' Hg; [by injection Hg as <-|].
      rewrite Hsub in Hg. eauto.
  - right. exists (S j), c'. rewrite Hsub. repeat split; try done.
    intros [|j'] c'' Hj Hg; [lia|]. rewrite Hsub in Hg.
    eapply (Hno j'); [lia|done].
Qed.
End cells.

(** ** The heap operations refine the operations on trees of cells *)

Section refinement.
Context `{IpNetworkLaws} `{DashMapLaws}.
Implicit Types (bt : btree cell) (ip : IpAddr) (h : Heap) (F : gset loc).

Definition blank_of (b : NodeBuilder) : cell := blank (is_compressed (nb_variant b)).

(** The direction of the walk at depth [d]. *)
Definition dir ip d : bool := negb (get_bit ip d =? 0).

Lemma child_at_run ip d l h n :
  cells h !! l = Some n →
  child_at (get_bit ip d) l h = Some (side (dir ip d) n, h).
Proof.
  intros Hl. unfold child_at, side, dir. destruct (get_bit ip d =? 0); by apply get_run.
Qed.

Lemma link_eq ip d (l nl : loc) :
  (if get_bit ip d =? 0 then modify (λ w, node_set_left w (Some nl)) l
   else modify (λ w, node_set_right w (Some nl)) l) =
  modify (λ w, set_side (dir ip d) w (Some nl)) l.
Proof. unfold dir. by destruct (get_bit ip d =? 0). Qed.

(** A fresh node linked on one side of [l]. *)
Lemma link_run b (bit : bool) h l n t0 t1 F0 F1 :
  heap_wf h → cells h !! l = Some n →
  rep (cells h) t0 (node_left n) F0 → rep (cells h) t1 (node_right n) F1 →
  l ∉ F0 → l ∉ F1 → F0 ## F1 →
  ∃ nl h1 h2 F', alloc (build b) h = Some (nl, h1) ∧
    modify (λ w, set_side bit w (Some nl)) l h1 = Some (tt, h2) ∧
    rep (cells h2) (Bin (pay n) (if bit then t0 else Bin (blank_of b) Nil Nil)
                      (if bit then Bin (blank_of b) Nil Nil else t1)) (Some l) F' ∧
    evolves h h2 ({[l]} ∪ F0 ∪ F1) F' ∧
    cells h2 !! l = Some (set_side bit n (Some nl)).
Proof.
  intros Hwf Hl Hr0 Hr1 Hn0 Hn1 Hd.
  destruct (build_fields b) as (HbL & HbR & HbP).
  destruct (rep_alloc h (build b) Hwf HbL HbR) as [Hnew Hev].
  rewrite HbP in Hnew.
  pose proof (heap_wf_fresh h Hwf) as Hfresh.
  set (h1 := mkHeap _ _) in *. set (nl := next h) in *.
  assert (l ≠ nl) as Hlnl by congruence.
  destruct (rep_evolves _ _ _ _ _ _ _ Hev Hr0) as [Hr0' Hd0]; [set_solver|].
  destruct (rep_evolves _ _ _ _ _ _ _ Hev Hr1) as [Hr1' Hd1]; [set_solver|].
  assert (cells h1 !! l = Some n) as Hl1 by (simpl; by rewrite lookup_insert_ne).
  destruct (rep_set_side bit h1 l n (Some nl) t0 t1 _ F0 F1 {[nl]}
    (ev_wf _ _ _ _ Hev) Hl1 Hr0' Hr1' Hn0 Hn1 Hd Hnew) as [Hrep Hev2]; [set_solver..|].
  eexists nl, h1, _, _. split; [done|]. split; [by apply modify_run|].
  split; [exact Hrep|]. split; [|by simpl; rewrite lookup_insert_eq].
  eapply evolves_trans; [|exact Hev2].
  eapply evolves_weaken; [| |apply (evolves_extend _ _ _ _ ({[l]} ∪ F0 ∪ F1) Hev)]; set_solver.
Qed.

(** What a continuation does at the node the loop reaches. *)
Definition acts {A} (K : loc → M A) (f : cell → cell) (g : cell → A) : Prop :=
  ∀ h c t0 t1 F l, heap_wf h → rep (cells h) (Bin c t0 t1) (Some l) F →
  ∃ h', K l h = Some (g c, h') ∧
    rep (cells h') (Bin (f c) t0 t1) (Some l) F ∧ evolves h h' F F.

(** Running a computation in the subtree on one side of [l]. *)
Lemma descend {A} (m : M A) (bit : bool) (a : A) (u : btree cell → btree cell) h l n child t0 t1 F :
  rep (cells h) (Bin (pay n) t0 t1) (Some l) F →
  cells h !! l = Some n → side bit n = Some child →
  (∀ tc Fc, rep (cells h) tc (Some child) Fc → tc = (if bit then t1 else t0) →
    ∃ h' Fc', m h = Some (a, h') ∧ rep (cells h') (u tc) (Some child) Fc' ∧
      evolves h h' Fc Fc') →
  ∃ h' F', m h = Some (a, h') ∧
    rep (cells h') (Bin (pay n) (if bit then t0 else u t0) (if bit then u t1 else t1)) (Some l) F' ∧
    evolves h h' F F'.
Proof.
  intros (n' & t0' & t1' & F0 & F1 & Hl' & Heq & Hr0 & Hr1 & Hn0 & Hn1 & Hd & ->)%rep_some Hl Hs Hm.
  assert (n' = n) as -> by congruence. assert (t0' = t0 ∧ t1' = t1) as [-> ->] by (split; congruence).
  destruct (Hm (if bit then t1 else t0) (if bit then F1 else F0)) as (h' & Fc & Hrun & Hrc & Hev).
  { rewrite <- Hs. by destruct bit. }
  { done. }
  rewrite <- Hs in Hrc.
  destruct (rep_update_side bit h h' l n t0 t1 _ F0 F1 Fc Hl Hr0 Hr1 Hn0 Hn1 Hd Hev Hrc)
    as (F' & Hr' & Hev').
  exists h', F'. split; [done|]. split; [|done]. by destruct bit.
Qed.

Lemma t_get_side c t0 t1 (bit : bool) k :
  t_get (Bin c t0 t1) (bit :: k) = t_get (if bit then t1 else t0) k.
Proof. done. Qed.

Lemma t_update_side bl f c t0 t1 (bit : bool) k :
  t_update bl f (Bin c t0 t1) (bit :: k) =
  Bin c (if bit then t0 else t_update bl f t0 k) (if bit then t_update bl f t1 k else t1).
Proof. by destruct bit. Qed.

Lemma insert_loop_refines {A} (K : loc → M A) f g b ip n : acts K f g →
  ∀ d cur bt F h, heap_wf h → rep (cells h) bt (Some cur) F →
  ∃ h' F', (trie_insert_loop b ip d n cur ≫= K) h =
             Some (g (default (blank_of b) (t_get bt (path ip d n))), h') ∧
    rep (cells h') (t_update (blank_of b) f bt (path ip d n)) (Some cur) F' ∧
    evolves h h' F F'.
Proof.
  intros HK. induction n as [|n IH]; intros d cur bt F h Hwf Hrep;
    pose proof Hrep as (m & t0 & t1 & F0 & F1 & Hl & -> & Hr0 & Hr1 & Hn0 & Hn1 & Hd & ->)%rep_some.
  - destruct (HK _ _ _ _ _ _ Hwf Hrep) as (h' & HKh & Hr' & Hev). eauto.
  - rewrite path_S. fold (dir ip d). cbn [trie_insert_loop].
    rewrite bind_bind, (bind_run _ _ _ _ _ (child_at_run ip d _ _ _ Hl)).
    rewrite t_get_side, t_update_side.
    destruct (side (dir ip d) m) as [child|] eqn:Hside.
    + eapply (descend _ (dir ip d) _ (λ t, t_update _ f t _)); [exact Hrep|done|done|].
      intros tc Fc Hrc ->. by apply IH.
    + destruct (link_run b (dir ip d) h cur m t0 t1 F0 F1) as
        (nl & h1 & h2 & F' & Hal & Hlk & Hr2 & Hev & Hl2); try done.
      rewrite bind_bind, (bind_run _ _ _ _ _ Hal), bind_bind, link_eq, (bind_run _ _ _ _ _ Hlk).
      assert ((if dir ip d then t1 else t0) = Nil) as Hnil.
      { unfold side in Hside. destruct (dir ip d);
          [rewrite Hside in Hr1; apply (rep_none _ _ _ Hr1)
          |rewrite Hside in Hr0; apply (rep_none _ _ _ Hr0)]. }
      assert (pay (set_side (dir ip d) m (Some nl)) = pay m) as Hpay.
      { unfold set_side. destruct (dir ip d); [apply set_right_fields|apply set_left_fields]. }
      rewrite <- Hpay in Hr2 |- *.
      destruct (descend (trie_insert_loop b ip (S d) n nl ≫= K) (dir ip d)
        (g (default (blank_of b) (t_get (if dir ip d then t1 else t0) (path ip (S d) n))))
        (λ t, t_update (blank_of b) f t (path ip (S d) n)) _ _ _ _ _ _ _ Hr2 Hl2
        (side_set_side _ _ _)) as (h' & F'' & Hrun & Hr' & Hev').
      { intros tc Fc Hrc Htc. rewrite Hnil.
        destruct (IH (S d) nl tc Fc h2) as (h' & Fc' & Hrun & Hr' & Hev');
          [by apply Hev|done|].
        exists h', Fc'. split; [|done]. rewrite Hrun, Htc. do 3 f_equal.
        transitivity (blank_of b); [|done]. destruct (dir ip d); apply t_get_blank. }
      exists h', F''. split; [done|]. split; [|by eapply evolves_trans].
      destruct (dir ip d); rewrite Hnil; rewrite t_update_blank in Hr'; exact Hr'.
Qed.

(** The read-only loop of [remove] and [contains]. *)
Lemma find_loop_refines {A} (K : option loc → M A) f g bl ip n :
  acts (λ l, K (Some l)) f g →
  ∀ d cur bt F h, heap_wf h → rep (cells h) bt (Some cur) F →
  match t_get bt (path ip d n) with
  | None => trie_find_loop ip d n cur h = Some (None, h)
  | Some c =>
      ∃ h' F', (trie_find_loop ip d n cur ≫= K) h = Some (g c, h') ∧
        rep (cells h') (t_update bl f bt (path ip d n)) (Some cur) F' ∧ evolves h h' F F'
  end.
Proof.
  intros HK. induction n as [|n IH]; intros d cur bt F h Hwf Hrep;
    pose proof Hrep as (m & t0 & t1 & F0 & F1 & Hl & -> & Hr0 & Hr1 & Hn0 & Hn1 & Hd & ->)%rep_some.
  - destruct (HK _ _ _ _ _ _ Hwf Hrep) as (h' & HKh & Hr' & Hev). simpl. eauto.
  - rewrite path_S. fold (dir ip d). cbn [trie_find_loop].
    rewrite t_get_side, t_update_side.
    rewrite bind_bind, !(bind_run _ _ _ _ _ (child_at_run ip d _ _ _ Hl)).
    destruct (side (dir ip d) m) as [child|] eqn:Hside.
    + assert (∃ tc Fc, tc = (if dir ip d then t1 else t0) ∧ rep (cells h) tc (Some child) Fc)
        as (tc & Fc & Htc & Hrc).
      { unfold side in Hside. destruct (dir ip d); rewrite <- Hside; eauto. }
      pose proof (IH (S d) child tc Fc h Hwf Hrc) as Hc. rewrite <- Htc.
      destruct (t_get tc (path ip (S d) n)) as [c|] eqn:Hg; [|done].
      eapply (descend _ (dir ip d) _ (λ t, t_update _ f t _)); [exact Hrep|done|done|].
      intros tc' Fc' Hrc' Htc'. assert (tc' = tc) as -> by congruence.
      specialize (IH (S d) child tc Fc' h Hwf Hrc'). by rewrite Hg in IH.
    + assert ((if dir ip d then t1 else t0) = Nil) as Hnil.
      { unfold side in Hside. destruct (dir ip d);
          [rewrite Hside in Hr1; apply (rep_none _ _ _ Hr1)
          |rewrite Hside in Hr0; apply (rep_none _ _ _ Hr0)]. }
      rewrite Hnil. by destruct n.
Qed.

Lemma match_node_run ip best l h n :
  cells h !! l = Some n → match_node ip best l h = Some (t_match ip best (pay n), h).
Proof.
  intros Hl. unfold match_node, t_match.
  rewrite (bind_run _ _ _ _ _ (get_run node_prefix _ _ _ Hl)).
  change (c_prefix (pay n)) with (node_prefix n).
  destruct (node_prefix n) as [p|]; [|done].
  destruct (network_contains_ip p ip); [|done].
  by rewrite (bind_run _ _ _ _ _ (get_run node_metadata _ _ _ Hl)).
Qed.

Lemma lpm_walk_refines ip fuel : ∀ d cur bt F h best,
  (height bt ≤ fuel)%nat → rep (cells h) bt cur F →
  lpm_walk fuel ip d cur best h = Some (t_walk ip bt d best, h).
Proof.
  induction fuel as [|fuel IH]; intros d cur bt F h best Hf Hrep.
  - destruct bt; [|simpl in Hf; lia]. by inversion Hrep; subst.
  - destruct cur as [l|]; [|by apply rep_none in Hrep as [-> _]].
    apply rep_some in Hrep as (n & t0 & t1 & F0 & F1 & Hl & -> & Hr0 & Hr1 & Hn0 & Hn1 & Hd & ->).
    cbn [lpm_walk t_walk]. simpl in Hf.
    rewrite (bind_run _ _ _ _ _ (match_node_run ip best l h n Hl)).
    rewrite (bind_run _ _ _ _ _ (child_at_run ip d _ _ _ Hl)).
    unfold dir. destruct (get_bit ip d =? 0); simpl; eapply IH; try done; lia.
Qed.

Lemma lpm_binary_refines ip l bt F h :
  (height bt ≤ 129)%nat → rep (cells h) bt (Some l) F →
  longest_prefix_match_binary l ip h = Some (t_walk ip bt 0 None, h).
Proof.
  intros Hh (n & t0 & t1 & F0 & F1 & Hl & -> & Hr0 & Hr1 & Hn0 & Hn1 & Hd & ->)%rep_some.
  unfold longest_prefix_match_binary. cbn [t_walk]. simpl in Hh.
  rewrite (bind_run _ _ _ _ _ (match_node_run ip None l h n Hl)).
  rewrite (bind_run _ _ _ _ _ (child_at_run ip 0 _ _ _ Hl)).
  unfold dir, side. destruct (get_bit ip 0 =? 0); cbn [negb];
    eapply lpm_walk_refines; try done; unfold walk_fuel; lia.
Qed.

(** *** Actions at one node compose *)

Lemma acts_mret {A} (a : A) : acts (λ _, mret a) id (λ _, a).
Proof. intros h c t0 t1 F l Hwf Hr. exists h. split_and!; [done|done|by apply evolves_refl]. Qed.

Lemma acts_get {A} (f : NodeWrapper → A) (g : cell → A) :
  (∀ n, f n = g (pay n)) → acts (get f) id g.
Proof.
  intros Hf h c t0 t1 F l Hwf Hr.
  pose proof Hr as (n & ? & ? & F0 & F1 & Hl & Heq & _)%rep_some.
  injection Heq as Hc _ _. subst c. exists h.
  split_and!; [|done|by apply evolves_refl]. by rewrite (get_run _ _ _ _ Hl), Hf.
Qed.

Lemma acts_modify f fc :
  (∀ n, node_left (f n) = node_left n ∧ node_right (f n) = node_right n ∧
        pay (f n) = fc (pay n)) →
  acts (modify f) fc (λ _, tt).
Proof. intros Hf h c t0 t1 F l Hwf Hr. by eapply rep_modify. Qed.

Lemma acts_bind {A B} (K1 : loc → M A) (K2 : A → loc → M B) f1 g1 f2 g2 f g :
  acts K1 f1 g1 → (∀ a, acts (K2 a) (f2 a) (g2 a)) →
  (∀ c, f c = f2 (g1 c) (f1 c)) → (∀ c, g c = g2 (g1 c) (f1 c)) →
  acts (λ l, a ← K1 l; K2 a l) f g.
Proof.
  intros HK1 HK2 Hf Hg h c t0 t1 F l Hwf Hr. rewrite Hf, Hg.
  destruct (HK1 _ _ _ _ _ _ Hwf Hr) as (h1 & Hrun1 & Hr1 & Hev1).
  destruct (HK2 (g1 c) h1 _ _ _ _ _ (ev_wf _ _ _ _ Hev1) Hr1) as (h2 & Hrun2 & Hr2 & Hev2).
  exists h2. rewrite (bind_run _ _ _ _ _ Hrun1). split_and!; [done|done|].
  by eapply evolves_trans.
Qed.

Lemma acts_set_prefix p :
  acts (modify (λ w, node_set_prefix w p)) (λ c, mkCell (c_meta c) (Some p) (c_edge c)) (λ _, tt).
Proof. apply acts_modify. intros n. apply set_prefix_fields. Qed.

Lemma acts_set_metadata md :
  acts (modify (λ w, node_set_metadata w md)) (λ c, mkCell (Some md) (c_prefix c) (c_edge c)) (λ _, tt).
Proof. apply acts_modify. intros n. apply set_metadata_fields. Qed.

Lemma acts_clear_metadata :
  acts (modify node_clear_metadata) (λ c, mkCell None (c_prefix c) (c_edge c)) (λ _, tt).
Proof. apply acts_modify. intros n. apply clear_metadata_fields. Qed.

Lemma acts_insert p md :
  acts (λ cur,
    old ← get node_metadata cur;
    _ ← modify (λ w, node_set_prefix w p) cur;
    _ ← modify (λ w, node_set_metadata w md) cur;
    mret (Ok (E:=string) (is_none old)))
    (λ c, mkCell (Some md) (Some p) (c_edge c)) (λ c, Ok (is_none (c_meta c))).
Proof.
  eapply (acts_bind _ _ _ _ (λ _ c, mkCell (Some md) (Some p) (c_edge c)) (λ old _, Ok (is_none old)));
    [by apply (acts_get _ c_meta)|intros old|done..].
  eapply (acts_bind _ _ _ _ (λ _ c, mkCell (Some md) (c_prefix c) (c_edge c)) (λ _ _, Ok (is_none old)));
    [apply acts_set_prefix|intros _|done..].
  eapply (acts_bind _ _ _ _ (λ _, id) (λ _ _, Ok (is_none old)));
    [apply acts_set_metadata|intros _; apply acts_mret|done..].
Qed.

Lemma acts_remove :
  acts (λ l,
    removed ← get node_metadata l;
    _ ← (if is_some removed then modify node_clear_metadata l else mret tt);
    mret removed)
    (λ c, mkCell None (c_prefix c) (c_edge c)) c_meta.
Proof.
  eapply (acts_bind _ _ _ _
    (λ old c, if is_some old then mkCell None (c_prefix c) (c_edge c) else c) (λ old _, old));
    [by apply (acts_get _ c_meta)|intros old|by intros [[md|] p e]|done].
  eapply (acts_bind _ _ (λ c, if is_some old then mkCell None (c_prefix c) (c_edge c) else c)
    (λ _, tt) (λ _, id) (λ _ _, old)); [|intros _; apply acts_mret|done..].
  destruct (is_some old); [apply acts_clear_metadata|apply acts_mret].
Qed.

(** ** The operations on the routing table *)

Lemma table_of_meta bt m k c :
  trie_ok bt → table_of bt m → t_get bt k = Some c → snd <$> m !! k = c_meta c.
Proof.
  intros [Hok _] Ht Hc. rewrite (Ht k), Hc. simpl. unfold entry.
  destruct (c_meta c) as [md|] eqn:Hm; [|by destruct (c_prefix c)].
  destruct (Hok k c Hc) as (p & -> & _); [eauto|]. done.
Qed.

Lemma path_net p : path (net_network p) 0 (Z.to_nat (net_prefix p)) = net_bits p.
Proof. rewrite path_take; [done|]. apply net_len_width. Qed.

Lemma is_none_snd {A B} (o : option (A * B)) : is_none (snd <$> o) = is_none o.
Proof. by destruct o. Qed.

Lemma is_some_snd {A B} (o : option (A * B)) : is_some (snd <$> o) = is_some o.
Proof. by destruct o. Qed.

Lemma trie_insert_refines h t m F p md :
  trie_rep h t m F →
  ∃ h' F', trie_insert t p md h = Some (Ok (is_none (m !! net_bits p)), h') ∧
    trie_rep h' t (<[net_bits p := (p, md)]> m) F' ∧ evolves h h' F F'.
Proof.
  intros (Hwf & bt & Hr & Hok & Ht). unfold trie_insert.
  destruct (insert_loop_refines _ _ _ (ut_builder t) (net_network p) (Z.to_nat (net_prefix p))
    (acts_insert p md) 0 _ bt F h Hwf Hr) as (h' & F' & Hrun & Hr' & Hev).
  rewrite path_net in *. exists h', F'. rewrite Hrun. split_and!.
  - do 3 f_equal. destruct (t_get bt (net_bits p)) as [c|] eqn:Hc; simpl.
    + by rewrite <- (table_of_meta _ _ _ _ Hok Ht Hc), is_none_snd.
    + by rewrite (Ht _), Hc.
  - split; [apply Hev|]. eexists. split; [exact Hr'|]. split.
    + apply trie_ok_update; [done| |done|simpl; eauto].
      rewrite length_net_bits. apply net_len_bound.
    + by apply table_of_update.
  - done.
Qed.

Lemma trie_remove_refines h t m F p :
  trie_rep h t m F →
  ∃ h' F', trie_remove t p h = Some (snd <$> m !! net_bits p, h') ∧
    trie_rep h' t (delete (net_bits p) m) F' ∧ evolves h h' F F'.
Proof.
  intros (Hwf & bt & Hr & Hok & Ht). unfold trie_remove.
  set (K := λ cur : option loc, match cur with Some l => _ | None => _ end).
  pose proof (find_loop_refines K _ _ (blank_of (ut_builder t)) (net_network p)
    (Z.to_nat (net_prefix p)) acts_remove 0 _ bt F h Hwf Hr) as Hfind.
  rewrite path_net in Hfind. destruct (t_get bt (net_bits p)) as [c|] eqn:Hc.
  - destruct Hfind as (h' & F' & Hrun & Hr' & Hev). exists h', F'. rewrite Hrun.
    rewrite (table_of_meta _ _ _ _ Hok Ht Hc). split_and!; [done| |done].
    split; [apply Hev|]. eexists. split; [exact Hr'|]. split.
    + apply trie_ok_update; [done| |done|simpl; intros Hm; by destruct Hm].
      rewrite length_net_bits. apply net_len_bound.
    + apply table_of_delete; [done|done|]. unfold entry. simpl. by destruct (c_prefix _).
  - assert (m !! net_bits p = None) as Hm by (rewrite (Ht _), Hc; done).
    exists h, F. rewrite (bind_run _ _ _ _ _ Hfind), Hm. split_and!; [done| |by apply evolves_refl].
    split; [done|]. exists bt. by rewrite delete_id.
Qed.

Lemma trie_contains_refines h t m F p :
  trie_rep h t m F → trie_contains t p h = Some (is_some (m !! net_bits p), h).
Proof.
  intros (Hwf & bt & Hr & Hok & Ht). unfold trie_contains.
  assert (∀ n ip d cur bt h F, rep (cells h) bt (Some cur) F →
    match t_get bt (path ip d n) with
    | None => trie_find_loop ip d n cur h = Some (None, h)
    | Some c => ∃ l w, trie_find_loop ip d n cur h = Some (Some l, h) ∧
                       cells h !! l = Some w ∧ pay w = c
    end) as Hfind.
  { clear. induction n as [|n IH]; intros ip d cur bt h F Hrep;
      apply rep_some in Hrep as (m & t0 & t1 & F0 & F1 & Hl & -> & Hr0 & Hr1 & _).
    - simpl. eauto.
    - rewrite path_S, t_get_side. fold (dir ip d). cbn [trie_find_loop].
      rewrite (bind_run _ _ _ _ _ (child_at_run ip d _ _ _ Hl)).
      assert (∃ Fc, rep (cells h) (if dir ip d then t1 else t0) (side (dir ip d) m) Fc) as [Fc Hc].
      { unfold side. destruct (dir ip d); eauto. }
      destruct (side (dir ip d) m) as [child|]; [by eapply IH|].
      apply rep_none in Hc as [-> _]. by destruct n. }
  specialize (Hfind (Z.to_nat (net_prefix p)) (net_network p) 0%nat _ _ _ _ Hr).
  rewrite path_net in Hfind. destruct (t_get bt (net_bits p)) as [c|] eqn:Hc.
  - destruct Hfind as (l & w & Hrun & Hl & <-). rewrite (bind_run _ _ _ _ _ Hrun).
    rewrite (bind_run _ _ _ _ _ (get_run node_metadata _ _ _ Hl)).
    by rewrite <- (is_some_snd (m !! _)), (table_of_meta _ _ _ _ Hok Ht Hc).
  - rewrite (bind_run _ _ _ _ _ Hfind). by rewrite (Ht _), Hc.
Qed.

(** [clear] drops the children of the root; the entry of the root itself,
    the default route, stays. *)
Definition keep_default (m : table) : table := filter (λ e, e.1 = []) m.

Lemma trie_clear_refines h t m F :
  trie_rep h t m F →
  ∃ h' F', trie_clear t h = Some (tt, h') ∧
    trie_rep h' t (keep_default m) F' ∧ evolves h h' F F'.
Proof.
  intros (Hwf & bt & Hr & Hok & Ht). unfold trie_clear.
  pose proof Hr as (n & t0 & t1 & F0 & F1 & Hl & -> & Hr0 & Hr1 & Hn0 & Hn1 & Hd & ->)%rep_some.
  rewrite (bind_run _ _ _ _ _ (modify_run _ _ _ _ Hl)).
  destruct (rep_set_side false h (ut_root t) n None t0 t1 Nil F0 F1 ∅ Hwf Hl Hr0 Hr1 Hn0 Hn1 Hd
    (rep_nil _)) as [Hra Hev1]; [set_solver..|].
  set (h1 := mkHeap _ _) in *.
  pose proof Hra as (n1 & ta & tb & Fa & Fb & Hl1 & Heq & Hra0 & Hra1 & Hna0 & Hna1 & Hda & HF)%rep_some.
  destruct (rep_set_side true h1 (ut_root t) n1 None ta tb Nil Fa Fb ∅ (ev_wf _ _ _ _ Hev1) Hl1
    Hra0 Hra1 Hna0 Hna1 Hda (rep_nil _)) as [Hrb Hev2]; [set_solver..|].
  eexists _, _. split; [by apply modify_run|]. split.
  - split; [apply Hev2|]. eexists. split; [exact Hrb|].
    injection Heq as Hm Hp He <- <-.
    assert (pay n1 = pay n) as Hpay.
    { unfold pay, cell_of_view, view in *. simpl in *. congruence. }
    rewrite Hpay. clear Hev1 Hev2 Hra Hrb. split; [split|].
    + intros [|b k] c Hc Hm'; [|by destruct b].
      by apply (proj1 Hok []).
    + simpl. lia.
    + intros [|b k].
      * unfold keep_default. simpl. rewrite map_lookup_filter, (Ht []). simpl.
        by destruct (entry (pay n)).
      * unfold keep_default. rewrite map_lookup_filter.
        destruct (m !! (b :: k)); simpl; [|by destruct b]. by destruct b.
  - eapply evolves_trans; [eapply evolves_weaken; [| |exact Hev1]; set_solver|].
    rewrite HF. eapply evolves_weaken; [| |exact Hev2]; set_solver.
Qed.

(** ** Lookups agree with the reference matcher *)

Lemma hit_entry ip c md :
  hit ip c = Some md ↔
  ∃ p, entry c = Some (p, md) ∧ network_contains_ip p ip = true.
Proof.
  unfold hit, entry. destruct (c_prefix c) as [p|]; simpl;
    [|split; [done|by intros (? & ? & _)]].
  destruct (network_contains_ip p ip) eqn:Hc; destruct (c_meta c) as [md'|]; simpl; split;
    try done; try (by intros (? & [= -> ->] & ?); congruence).
  intros [= <-]. eauto.
Qed.

(** In a table whose keys are the bits of the prefixes, the entries that
    contain an address sit on its path. *)
Lemma contained_on_path bt m k p md ip :
  trie_ok bt → table_of bt m → m !! k = Some (p, md) → network_contains_ip p ip = true →
  net_bits p = k ∧ k = path ip 0 (length k) ∧
  ∃ c, t_get bt k = Some c ∧ hit ip c = Some md.
Proof.
  intros [Hok _] Ht Hk Hc. rewrite (Ht k) in Hk.
  destruct (t_get bt k) as [c|] eqn:Hg; [simpl in Hk|done].
  assert (net_bits p = k) as Hpk.
  { unfold entry in Hk. destruct (c_prefix c) as [p'|] eqn:Hp; [simpl in Hk|done].
    destruct (c_meta c) as [md'|] eqn:Hm; [simpl in Hk|done]. injection Hk as -> ->.
    destruct (Hok k c Hg) as (p' & Hp' & <-); [rewrite Hm; eauto|]. congruence. }
  split; [done|]. split; [|exists c; split; [done|]; apply hit_entry; eauto].
  apply network_contains_bits in Hc as [_ Hpre]. rewrite Hpk in Hpre.
  rewrite path_take.
  - symmetry. by apply prefix_take_iff.
  - apply prefix_length in Hpre. by rewrite length_ip_bits in Hpre.
Qed.

Lemma t_walk_lpm bt m ip :
  trie_ok bt → table_of bt m → t_walk ip bt 0 None = LPM_lookup (entries m) ip.
Proof.
  intros Hok Ht. unfold LPM_lookup.
  destruct (t_walk_spec ip bt 0 None) as [[-> Hno]|(j & c & Hc & [md Hh] & -> & Hno)].
  - symmetry. apply lpm_entries_none. intros [p md] [k Hk]%elem_of_entries. simpl.
    apply not_true_is_false. intros Hcon.
    destruct (contained_on_path _ _ _ _ _ _ Hok Ht Hk Hcon) as (_ & Hkp & c & Hg & Hh).
    rewrite Hkp in Hg. specialize (Hno _ _ Hg). congruence.
  - pose proof Hh as (p & He & Hcon)%hit_entry.
    assert (m !! path ip 0 j = Some (p, md)) as Hm by (rewrite (Ht _), Hc; done).
    destruct (contained_on_path _ _ _ _ _ _ Hok Ht Hm Hcon) as (Hpk & _).
    rewrite Hh. symmetry. apply (lpm_entries_unique _ _ (p, md)); [|done|].
    { apply elem_of_entries. eauto. }
    intros [p' md'] [k' Hk']%elem_of_entries Hcon'. simpl in *.
    destruct (contained_on_path _ _ _ _ _ _ Hok Ht Hk' Hcon') as (Hpk' & Hkp' & c' & Hg' & Hh').
    rewrite !net_prefix_len, <- !length_net_bits, Hpk, Hpk', length_path.
    destruct (decide (length k' = j)) as [Hl|Hl].
    + left. rewrite Hl in Hkp'. congruence.
    + right. destruct (decide (j < length k')%nat) as [Hlt|]; [|lia].
      rewrite Hkp' in Hg'. specialize (Hno _ _ Hlt Hg'). congruence.
Qed.

Lemma trie_lookup_refines h t m F ip :
  trie_rep h t m F → trie_lookup t ip h = Some (LPM_lookup (entries m) ip, h).
Proof.
  intros (Hwf & bt & Hr & Hok & Ht). unfold trie_lookup.
  rewrite (lpm_binary_refines ip _ bt F h (proj2 Hok) Hr). by rewrite (t_walk_lpm bt m).
Qed.

Lemma trie_new_refines h v :
  heap_wf h →
  ∃ t h' F, trie_new v h = Some (t, h') ∧ ut_builder t = mkBuilder v ∧
    trie_rep h' t ∅ F ∧ evolves h h' ∅ F.
Proof.
  intros Hwf. destruct (build_fields (mkBuilder v)) as (HL & HR & HP).
  destruct (rep_alloc h (build (mkBuilder v)) Hwf HL HR) as [Hr Hev].
  eexists _, _, _. split; [done|]. split; [done|]. split; [|exact Hev].
  split; [apply Hev|]. eexists. split; [exact Hr|]. rewrite HP. split; [split|].
  - intros [|b k] c Hc Hm; [|by destruct b]. injection Hc as <-. by destruct Hm.
  - simpl. lia.
  - intros [|[] k]; rewrite lookup_empty; done.
Qed.

(** ** The tree implements the interface *)

#[export] Instance UncompressedTree_RouteTree : RouteTree UncompressedTree := {|
  rt_insert := trie_insert;
  rt_lookup := trie_lookup;
  rt_remove := trie_remove;
  rt_contains := trie_contains;
  rt_clear := trie_clear;
|}.

#[export] Program Instance UncompressedTree_laws : RouteTreeLaws UncompressedTree := {|
  rt_key := net_bits;
  rt_answers m ip r := r = LPM_lookup (entries m) ip;
  rt_cleared := keep_default;
  rt_rep := trie_rep;
|}.
Next Obligation.
  intros m. apply map_eq. intros k. simpl. unfold keep_default. rewrite !map_lookup_filter.
  destruct (m !! k) as [e|]; [|done]. by destruct k.
Qed.
Next Obligation. by intros h t m F [Hwf _]. Qed.
Next Obligation. intros. by eapply trie_insert_refines. Qed.
Next Obligation. intros. eexists. split; [by eapply trie_lookup_refines|done]. Qed.
Next Obligation. intros. by eapply trie_remove_refines. Qed.
Next Obligation. intros. by eapply trie_contains_refines. Qed.
Next Obligation. intros. by eapply trie_clear_refines. Qed.
Next Obligation.
  intros h h' t m F G G' (_ & bt & Hr & Hok) Hev Hd. destruct (rep_evolves _ _ _ _ _ _ _ Hev Hr Hd) as [Hr' Hd'].
  split; [|done]. split; [apply (ev_wf _ _ _ _ Hev)|]. by exists bt.
Qed.
End refinement.

(** ** Correctness of the uncompressed tree *)

Section theorems.
Context `{IpNetworkLaws} `{DashMapLaws}.

(** C1: starting from [UncompressedTree::new] with any node variant, every
    sequence of operations runs to its end without a panic (the lookup loop
    included), and its results are those of a routing table keyed by the
    bits of the prefix in which a lookup is the reference longest-prefix
    matcher [LPM::lookup] on the entries of the table. *)
Theorem uncompressed_tree_refines (v : NodeVariant) (os : list op) :
  ∃ t h0 rs h1 m, trie_new v empty_heap = Some (t, h0) ∧
    run_ops t os h0 = Some (rs, h1) ∧
    spec_steps net_bits (λ m ip r, r = LPM_lookup (entries m) ip) keep_default ∅ os rs m.
Proof.
  destruct (trie_new_refines empty_heap v heap_wf_empty) as (t & h0 & F & Hnew & _ & Hr & _).
  change (rt_rep h0 t ∅ F) in Hr.
  destruct (run_ops_refines os h0 t ∅ F Hr) as (rs & h1 & m & F' & Hrun & _ & _ & Hs).
  by exists t, h0, rs, h1, m.
Qed.

(** After [insert(p)] every address of [p] is answered, with the metadata
    of a stored prefix that contains it and is at least as long as [p]; all
    other entries of the table are untouched. *)
Theorem trie_insert_then_lookup h t m F p md ip :
  trie_rep h t m F → network_contains_ip p ip = true →
  ∃ b h' h'' q mdq, trie_insert t p md h = Some (Ok b, h') ∧
    trie_lookup t ip h' = Some (Some mdq, h'') ∧
    (q, mdq) ∈ entries (<[net_bits p := (p, md)]> m) ∧
    network_contains_ip q ip = true ∧ net_prefix p ≤ net_prefix q.
Proof.
  intros Hr Hc. destruct (trie_insert_refines h t m F p md Hr) as (h' & F' & Hrun & Hr' & _).
  pose proof (trie_lookup_refines h' t _ F' ip Hr') as Hl.
  set (m' := <[_ := _]> m) in *.
  assert ((p, md) ∈ entries m') as Hin.
  { apply elem_of_entries. exists (net_bits p). apply lookup_insert_eq. }
  unfold LPM_lookup, longest_prefix_match_entries in Hl.
  pose proof (lpm_fold_best (entries m') ip) as Hb.
  destruct (foldl _ _ _) as [[q mdq]|]; simpl in *.
  - destruct Hb as (Hq & Hqc & Hmax). rewrite Forall_forall in Hmax.
    eexists _, h', h', q, mdq. split_and!; eauto. by apply (Hmax (p, md)).
  - rewrite Forall_forall in Hb. specialize (Hb _ Hin). simpl in Hb. congruence.
Qed.

(** [clear] leaves the default route in place: whatever address the entry
    stored at the root contains is still answered with its metadata, and
    every other entry is gone. *)
Theorem trie_clear_keeps_default_route h t m F p md ip :
  trie_rep h t m F → m !! [] = Some (p, md) → network_contains_ip p ip = true →
  ∃ h', trie_clear t h = Some (tt, h') ∧ trie_lookup t ip h' = Some (Some md, h') ∧
    ∀ q, trie_contains t q h' = Some (bool_decide (net_bits q = []), h').
Proof.
  intros Hr Hd Hc. destruct (trie_clear_refines h t m F Hr) as (h' & F' & Hrun & Hr' & _).
  assert (keep_default m = {[ [] := (p, md) ]}) as Hk.
  { apply map_eq. intros k. unfold keep_default. rewrite map_lookup_filter.
    destruct k as [|b k].
    - rewrite Hd, lookup_singleton_eq. done.
    - rewrite lookup_singleton_ne by done. by destruct (m !! (b :: k)). }
  rewrite Hk in Hr'. exists h'. split_and!; [done| |].
  - rewrite (trie_lookup_refines _ _ _ _ ip Hr'). unfold entries.
    rewrite map_to_list_singleton. simpl. unfold LPM_lookup, longest_prefix_match_entries.
    simpl. unfold lpm_step. simpl. by rewrite Hc.
  - intros q. rewrite (trie_contains_refines _ _ _ _ q Hr'). do 2 f_equal.
    case_bool_decide as Hq.
    + by rewrite Hq, lookup_singleton_eq.
    + by rewrite lookup_singleton_ne by done.
Qed.

(** The two address families share one tree: a prefix of the other family
    with the same bits (such as ::/0 after 0.0.0.0/0) overwrites the entry,
    is reported as an update, and the addresses of the first prefix are no
    longer answered. *)
Theorem trie_cross_family_overwrite v p q mdp mdq ip :
  net_bits q = net_bits p →
  network_contains_ip p ip = true → network_contains_ip q ip = false →
  ∃ t h0 h1, trie_new v empty_heap = Some (t, h0) ∧
    run_ops t [OpInsert p mdp; OpLookup ip; OpInsert q mdq; OpLookup ip; OpContains p] h0 =
    Some ([RInsert (Ok true); RMeta (Some mdp); RInsert (Ok false); RMeta None; RBool true], h1).
Proof.
  intros Hbits Hp Hq.
  destruct (trie_new_refines empty_heap v heap_wf_empty) as (t & h0 & F & Hnew & _ & Hr & _).
  change (rt_rep h0 t ∅ F) in Hr.
  destruct (run_ops_refines [OpInsert p mdp; OpLookup ip; OpInsert q mdq; OpLookup ip; OpContains p]
    h0 t ∅ F Hr) as (rs & h1 & m & F' & Hrun & _ & _ & Hs).
  exists t, h0, h1. split; [done|]. rewrite Hrun. do 2 f_equal. simpl in Hs.
  repeat match goal with
  | H : spec_steps _ _ _ _ (_ :: _) _ _ |- _ => inversion H; clear H; subst
  | H : spec_steps _ _ _ _ [] _ _ |- _ => inversion H; clear H; subst
  | H : spec_step _ _ _ _ _ _ _ |- _ => inversion H; clear H; subst
  end.
  rewrite Hbits, insert_insert_eq, !lookup_insert_eq, lookup_empty.
  unfold entries. rewrite !insert_empty, !map_to_list_singleton.
  unfold LPM_lookup, longest_prefix_match_entries. simpl. unfold lpm_step. simpl.
  by rewrite Hp, Hq.
Qed.
End theorems.
