(* ===== verification/Concurrent.v ===== *)
(** * Threads on one tree (engine/src/tree.rs, engine/src/lpm.rs)

    The trees take no lock of their own: each getter or setter of a node is a
    critical section, and the calls of other threads can come between any two
    of them.  Here the operations of the uncompressed tree are programs of such
    steps; running a program without interruption is the operation of Trie.v,
    and a schedule interleaves two programs on the shared heap. *)

From S2P Require Import Prelude Addr Lpm DashMap Node Heap RouteTree Trie.

Local Open Scope Z_scope.

(** ** Programs of atomic steps *)

Section programs.
Context `{IpNetworkCrate} `{DashMapCrate}.

Inductive prog (A : Type) :=
  | PRet (a : A)
  | PStep (m : Heap → option (prog A * Heap)).
Arguments PRet {A}.
Arguments PStep {A}.

#[export] Instance prog_ret : MRet prog := @PRet.

#[export] Instance prog_bind : MBind prog := λ A B f,
  fix go (p : prog A) : prog B :=
  match p with
  | PRet a => f a
  | PStep m => PStep (λ h, match m h with Some (p', h') => Some (go p', h') | None => None end)
  end.

(** One method call on a node, or one allocation. *)
Definition atomic {A} (m : M A) : prog A :=
  PStep (λ h, match m h with Some (a, h') => Some (PRet a, h') | None => None end).

(** Running a program with nothing in between. *)
Fixpoint alone {A} (p : prog A) : M A :=
  match p with
  | PRet a => mret a
  | PStep m => λ h, match m h with Some (p', h') => alone p' h' | None => None end
  end.

(** ** The operations *)

Definition link_p (bit : Z) (cur new_node : loc) : prog unit :=
  atomic (if bit =? 0
          then modify (λ w, node_set_left w (Some new_node)) cur
          else modify (λ w, node_set_right w (Some new_node)) cur).

Fixpoint insert_loop_p (b : NodeBuilder) (ip : IpAddr) (depth n : nat) (cur : loc) : prog loc :=
  match n with
  | O => mret cur
  | S n' =>
      let bit := get_bit ip depth in
      nxt ← atomic (child_at bit cur);
      match nxt with
      | Some node => insert_loop_p b ip (S depth) n' node
      | None =>
          new_node ← atomic (alloc (build b));
          _ ← link_p bit cur new_node;
          insert_loop_p b ip (S depth) n' new_node
      end
  end.

(** The statements of [insert] after its loop. *)
Definition store_p (prefix : IpNetwork) (metadata : Metadata) (cur : loc) : prog (Result bool string) :=
  old ← atomic (get node_metadata cur);
  _ ← atomic (modify (λ w, node_set_prefix w prefix) cur);
  _ ← atomic (modify (λ w, node_set_metadata w metadata) cur);
  mret (Ok (is_none old)).

Definition insert_p (t : UncompressedTree) (prefix : IpNetwork) (metadata : Metadata)
    : prog (Result bool string) :=
  cur ← insert_loop_p (ut_builder t) (net_network prefix) 0 (Z.to_nat (net_prefix prefix)) (ut_root t);
  store_p prefix metadata cur.

Fixpoint find_loop_p (ip : IpAddr) (depth n : nat) (cur : loc) : prog (option loc) :=
  match n with
  | O => mret (Some cur)
  | S n' =>
      nxt ← atomic (child_at (get_bit ip depth) cur);
      match nxt with
      | Some node => find_loop_p ip (S depth) n' node
      | None => mret None
      end
  end.

Definition remove_p (t : UncompressedTree) (prefix : IpNetwork) : prog (option Metadata) :=
  cur ← find_loop_p (net_network prefix) 0 (Z.to_nat (net_prefix prefix)) (ut_root t);
  match cur with
  | None => mret None
  | Some l =>
      removed ← atomic (get node_metadata l);
      if is_some removed then
        _ ← atomic (modify node_clear_metadata l);
        mret removed
      else mret removed
  end.

Definition contains_p (t : UncompressedTree) (prefix : IpNetwork) : prog bool :=
  cur ← find_loop_p (net_network prefix) 0 (Z.to_nat (net_prefix prefix)) (ut_root t);
  match cur with
  | None => mret false
  | Some l => md ← atomic (get node_metadata l); mret (is_some md)
  end.

Definition clear_p (t : UncompressedTree) : prog unit :=
  _ ← atomic (modify (λ w, node_set_left w None) (ut_root t));
  atomic (modify (λ w, node_set_right w None) (ut_root t)).

Definition match_node_p (ip : IpAddr) (best : option Metadata) (l : loc) : prog (option Metadata) :=
  pf ← atomic (get node_prefix l);
  match pf with
  | Some p =>
      if network_contains_ip p ip then
        md ← atomic (get node_metadata l);
        mret (match md with Some m => Some m | None => best end)
      else mret best
  | None => mret best
  end.

Fixpoint lpm_walk_p (fuel : nat) (ip : IpAddr) (depth : nat) (cur : option loc)
    (best : option Metadata) : prog (option Metadata) :=
  match cur with
  | None => mret best
  | Some node =>
      match fuel with
      | O => atomic panic
      | S fuel' =>
          best' ← match_node_p ip best node;
          nxt ← atomic (child_at (get_bit ip depth) node);
          lpm_walk_p fuel' ip (S depth) nxt best'
      end
  end.

(** [lookup]: the root first, then the loop; the same steps as the loop from
    the root with one more unit of fuel. *)
Definition lookup_p (t : UncompressedTree) (ip : IpAddr) : prog (option Metadata) :=
  best ← match_node_p ip None (ut_root t);
  cur ← atomic (child_at (get_bit ip 0) (ut_root t));
  lpm_walk_p walk_fuel ip 1 cur best.

(** ** Two threads *)

Record threads (A B : Type) := mkThreads { th1 : prog A; th2 : prog B; th_heap : Heap }.
Arguments mkThreads {A B}. Arguments th1 {A B}. Arguments th2 {A B}. Arguments th_heap {A B}.

(** One step of the first ([false]) or the second thread; a thread that has
    returned stays where it is, [None] is a panic. *)
Definition thread_step {A B} (s : threads A B) (who : bool) : option (threads A B) :=
  if who then
    match th2 s with
    | PRet _ => Some s
    | PStep m => '(p, h) ← m (th_heap s); Some (mkThreads (th1 s) p h)
    end
  else
    match th1 s with
    | PRet _ => Some s
    | PStep m => '(p, h) ← m (th_heap s); Some (mkThreads p (th2 s) h)
    end.

Fixpoint interleave {A B} (s : threads A B) (sched : list bool) : option (threads A B) :=
  match sched with
  | [] => Some s
  | who :: sched => s' ← thread_step s who; interleave s' sched
  end.
End programs.

Arguments PRet {_ _ A}. Arguments PStep {_ _ A}.
Arguments mkThreads {_ _ A B}. Arguments th1 {_ _ A B}. Arguments th2 {_ _ A B}. Arguments th_heap {_ _ A B}.

(** ** Alone, a program is the operation *)

Section alone.
Context `{IpNetworkCrate} `{DashMapCrate}.

(** Induction on a program: what its first step can leave behind. *)
Lemma prog_induction {A} (P : prog A → Prop) :
  (∀ a, P (PRet a)) →
  (∀ m, (∀ h p h', m h = Some (p, h') → P p) → P (PStep m)) →
  ∀ p, P p.
Proof.
  intros Hret Hstep. fix IH 1. intros [a|m]; [apply Hret|].
  apply Hstep. intros h p h'. destruct (m h) as [[p0 h0]|]; [|discriminate].
  specialize (IH p0). by intros [= <- <-].
Qed.

Lemma alone_bind {A B} (p : prog A) (f : A → prog B) h :
  alone (p ≫= f) h = (alone p ≫= λ a, alone (f a)) h.
Proof.
  revert h. induction p as [a|m IH] using prog_induction; intros h; [done|].
  cbn -[mbind]. unfold mbind, M_bind. cbn. destruct (m h) as [[p' h']|] eqn:Hm; [|done].
  by apply (IH h p' h').
Qed.

Lemma alone_atomic {A} (m : M A) h : alone (atomic m) h = m h.
Proof. cbn. by destruct (m h) as [[a h']|]. Qed.

Lemma bind_ext {A B} (m m' : M A) (f g : A → M B) h h' :
  m h = m' h' → (∀ a h, f a h = g a h) → (m ≫= f) h = (m' ≫= g) h'.
Proof. unfold mbind, M_bind. intros -> Hf. destruct (m' h') as [[a h1]|]; [apply Hf|done]. Qed.

Lemma alone_step {A B} (m : M A) (f : A → prog B) (g : A → M B) h :
  (∀ a h, alone (f a) h = g a h) → alone (atomic m ≫= f) h = (m ≫= g) h.
Proof. intros Hf. rewrite alone_bind. apply bind_ext; [apply alone_atomic|done]. Qed.

Lemma alone_insert_loop b ip d n cur h :
  alone (insert_loop_p b ip d n cur) h = trie_insert_loop b ip d n cur h.
Proof.
  revert d cur h. induction n as [|n IH]; intros d cur h; [done|]. cbn [insert_loop_p trie_insert_loop].
  apply alone_step. intros [node|] h1; [apply IH|]. apply alone_step. intros nl h2.
  apply alone_step. intros _ h3. apply IH.
Qed.

Lemma alone_insert t p md h : alone (insert_p t p md) h = trie_insert t p md h.
Proof.
  unfold insert_p, trie_insert. rewrite alone_bind. apply bind_ext; [apply alone_insert_loop|].
  intros cur h1. unfold store_p. apply alone_step. intros old h2. apply alone_step. intros _ h3.
  by apply alone_step.
Qed.

Lemma alone_find_loop ip d n cur h : alone (find_loop_p ip d n cur) h = trie_find_loop ip d n cur h.
Proof.
  revert d cur h. induction n as [|n IH]; intros d cur h; [done|]. cbn [find_loop_p trie_find_loop].
  apply alone_step. intros [node|] h1; [apply IH|done].
Qed.

Lemma alone_remove t p h : alone (remove_p t p) h = trie_remove t p h.
Proof.
  unfold remove_p, trie_remove. rewrite alone_bind. apply bind_ext; [apply alone_find_loop|].
  intros [l|] h1; [|done]. apply alone_step. intros [md|] h2; simpl; [|done].
  apply alone_step. by intros [] h3.
Qed.

Lemma alone_contains t p h : alone (contains_p t p) h = trie_contains t p h.
Proof.
  unfold contains_p, trie_contains. rewrite alone_bind. apply bind_ext; [apply alone_find_loop|].
  intros [l|] h1; [|done]. by apply alone_step.
Qed.

Lemma alone_match_node ip best l h : alone (match_node_p ip best l) h = match_node ip best l h.
Proof.
  unfold match_node_p, match_node. apply alone_step. intros [p|] h1; [|done].
  destruct (network_contains_ip p ip); [|done]. by apply alone_step.
Qed.

Lemma alone_lpm_walk fuel ip d cur best h :
  alone (lpm_walk_p fuel ip d cur best) h = lpm_walk fuel ip d cur best h.
Proof.
  revert d cur best h. induction fuel as [|fuel IH]; intros d [node|] best h; try done.
  cbn [lpm_walk_p lpm_walk]. rewrite alone_bind. apply bind_ext; [apply alone_match_node|].
  intros best' h1. apply alone_step. intros nxt h2. apply IH.
Qed.

Lemma alone_lookup t ip h : alone (lookup_p t ip) h = trie_lookup t ip h.
Proof.
  unfold lookup_p, trie_lookup, longest_prefix_match_binary. rewrite alone_bind.
  apply bind_ext; [apply alone_match_node|]. intros best h1. apply alone_step. intros nxt h2.
  apply alone_lpm_walk.
Qed.

Lemma alone_clear t h : alone (clear_p t) h = trie_clear t h.
Proof. unfold clear_p, trie_clear. apply alone_step. intros _ h1. apply alone_atomic. Qed.

(** ** Schedules *)

Lemma interleave_app {A B} (s : threads A B) sched1 sched2 :
  interleave s (sched1 ++ sched2) = s' ← interleave s sched1; interleave s' sched2.
Proof.
  revert s. induction sched1 as [|who sched1 IH]; intros s; simpl; [done|].
  destruct (thread_step s who); simpl; [apply IH|done].
Qed.

(** A thread that is given all the steps it needs. *)
Lemma run_first {A B} (p : prog A) (q : prog B) h a h' :
  alone p h = Some (a, h') →
  ∃ n, interleave (mkThreads p q h) (replicate n false) = Some (mkThreads (PRet a) q h').
Proof.
  revert h. induction p as [a0|m IH] using prog_induction; intros h; cbn.
  - intros [= -> ->]. by exists 0%nat.
  - destruct (m h) as [[p1 h1]|] eqn:Hm; [|done]. intros Hr.
    destruct (IH _ _ _ Hm _ Hr) as [n Hn]. exists (S n). cbn. by rewrite Hm.
Qed.

Lemma run_second {A B} (p : prog A) (q : prog B) h b h' :
  alone q h = Some (b, h') →
  ∃ n, interleave (mkThreads p q h) (replicate n true) = Some (mkThreads p (PRet b) h').
Proof.
  revert h. induction q as [b0|m IH] using prog_induction; intros h; cbn.
  - intros [= -> ->]. by exists 0%nat.
  - destruct (m h) as [[p1 h1]|] eqn:Hm; [|done]. intros Hr.
    destruct (IH _ _ _ Hm _ Hr) as [n Hn]. exists (S n). cbn. by rewrite Hm.
Qed.
End alone.

(** ** Two inserts *)

Section races.
Context `{IpNetworkLaws} `{DashMapLaws}.
Implicit Types (h : Heap) (t : UncompressedTree) (p q : IpNetwork) (F : gset loc).

(** What is left of an insert that has found no child at the root. *)
Definition stale_insert t p md n : prog (Result bool string) :=
  cur ← (new_node ← atomic (alloc (build (ut_builder t)));
         _ ← link_p (get_bit (net_network p) 0) (ut_root t) new_node;
         insert_loop_p (ut_builder t) (net_network p) 1 n new_node);
  store_p p md cur.

Lemma insert_first_step t p md n h w {B} (x : prog B) :
  Z.to_nat (net_prefix p) = S n → cells h !! ut_root t = Some w → side (dir (net_network p) 0) w = None →
  interleave (mkThreads (insert_p t p md) x h) [false] = Some (mkThreads (stale_insert t p md n) x h).
Proof.
  intros Hn Hl Hs. unfold insert_p. rewrite Hn. cbn. rewrite (child_at_run _ _ _ _ _ Hl), Hs. done.
Qed.

(** It hangs a new node below the root, whatever is there by now, and goes on
    as an insert into the tree with that node. *)
Lemma stale_insert_run t p md n h w c (u0 u1 : btree cell) F :
  Z.to_nat (net_prefix p) = S n → heap_wf h →
  rep (cells h) (Bin c u0 u1) (Some (ut_root t)) F → cells h !! ut_root t = Some w →
  let b := dir (net_network p) 0 in
  let leaf := Bin (blank_of (ut_builder t)) Nil Nil in
  ∃ h2 F', alone (stale_insert t p md n) h = trie_insert t p md h2 ∧ heap_wf h2 ∧
    rep (cells h2) (Bin c (if b then u0 else leaf) (if b then leaf else u1)) (Some (ut_root t)) F'.
Proof.
  intros Hn Hwf Hrep Hw b leaf.
  apply rep_some in Hrep as (w' & u0' & u1' & F0 & F1 & Hl & Heq & Hr0 & Hr1 & Hn0 & Hn1 & Hd & ->).
  assert (w' = w) as -> by congruence. injection Heq as -> <- <-.
  destruct (link_run (ut_builder t) b h (ut_root t) w u0 u1 F0 F1) as
    (nl & h1 & h2 & F' & Hal & Hlk & Hr2 & Hev & Hl2); try done.
  exists h2, F'. split; [|split; [apply Hev|done]]. unfold stale_insert, trie_insert. rewrite Hn.
  cbn [trie_insert_loop]. rewrite bind_bind, (bind_run _ _ _ _ _ (child_at_run _ 0 _ _ _ Hl2)).
  unfold b in *. rewrite side_set_side.
  rewrite alone_bind. apply bind_ext.
  { rewrite alone_bind, (bind_run _ _ _ _ _ (eq_trans (alone_atomic _ _) Hal)).
    unfold link_p. rewrite link_eq, alone_bind, (bind_run _ _ _ _ _ (eq_trans (alone_atomic _ _) Hlk)).
    apply alone_insert_loop. }
  intros cur h3. unfold store_p. apply alone_step. intros old h4. apply alone_step. intros _ h5.
  by apply alone_step.
Qed.

(** A tree of blank cells holds nothing. *)
Lemma blank_tree_empty h t bt F :
  heap_wf h → rep (cells h) bt (Some (ut_root t)) F → (height bt ≤ 129)%nat →
  (∀ k c, t_get bt k = Some c → c_meta c = None) → trie_rep h t ∅ F.
Proof.
  intros Hwf Hr Hh Hb. split; [done|]. exists bt. split_and!; [done|split; [|done]|].
  - intros k c Hc [md Hm]. rewrite (Hb k c Hc) in Hm. done.
  - intros k. rewrite lookup_empty. destruct (t_get bt k) as [c|] eqn:Hc; [|done].
    cbn. unfold entry. rewrite (Hb k c Hc). by destruct (c_prefix c).
Qed.

(** C35: two threads that insert into a new tree below the same side of the root:
    both calls report a new route, and the route of the second thread is not
    in the tree afterwards. *)
Theorem concurrent_insert_lost v p q mdp mdq :
  0 < net_prefix p → 0 < net_prefix q → net_bits p ≠ net_bits q →
  dir (net_network p) 0 = dir (net_network q) 0 →
  ∃ t h0 sched h' F, trie_new v empty_heap = Some (t, h0) ∧
    interleave (mkThreads (insert_p t p mdp) (insert_p t q mdq) h0) sched =
      Some (mkThreads (PRet (Ok true)) (PRet (Ok true)) h') ∧
    trie_rep h' t {[net_bits p := (p, mdp)]} F ∧
    trie_contains t q h' = Some (false, h').
Proof.
  intros Hp Hq Hne Hdir. set (b := mkBuilder v).
  destruct (build_fields b) as (HL & HR & HP).
  destruct (rep_alloc empty_heap (build b) heap_wf_empty HL HR) as [Hr Hev].
  set (root := next empty_heap) in *. set (t := mkUncompressed root b). set (h0 := mkHeap _ _) in *.
  assert (cells h0 !! root = Some (build b)) as Hl by (apply lookup_insert_eq).
  destruct (Z.to_nat (net_prefix p)) as [|n] eqn:Hn; [lia|].
  destruct (Z.to_nat (net_prefix q)) as [|nq] eqn:Hnq; [lia|].
  (* the second thread runs after the first has looked at the root *)
  destruct (insert_loop_refines _ _ _ b (net_network q) (S nq) (acts_insert q mdq) 0 root _ _ h0
    (ev_wf _ _ _ _ Hev) Hr) as (h1 & F1 & Hrun & Hr1 & Hev1).
  rewrite path_S in Hrun, Hr1. fold (dir (net_network q) 0) in Hrun, Hr1.
  rewrite t_get_side in Hrun. rewrite t_update_side in Hr1.
  assert (trie_insert t q mdq h0 = Some (Ok true, h1)) as Hins.
  { unfold trie_insert, t; simpl. rewrite Hnq, Hrun. do 3 f_equal. destruct (dir (net_network q) 0); reflexivity. }
  rewrite <-Hdir in Hr1.
  (* the first thread goes on *)
  pose proof Hr1 as (w & ? & ? & ? & ? & Hw & _)%rep_some.
  destruct (stale_insert_run t p mdp n h1 w _ _ _ _ Hn (ev_wf _ _ _ _ Hev1) Hr1 Hw)
    as (h2 & F2 & Hst & Hwf2 & Hr2).
  assert (trie_rep h2 t ∅ F2) as Hrep2.
  { eapply blank_tree_empty; [done|exact Hr2| |]; rewrite HP; destruct (dir (net_network p) 0); simpl; try lia;
      intros [|[] [|[] k]] c; simpl; intros; by simplify_eq. }
  destruct (trie_insert_refines h2 t ∅ F2 p mdp Hrep2) as (h' & F' & Hrun' & Hrep' & _).
  rewrite lookup_empty, insert_empty in *.
  destruct (run_second (stale_insert t p mdp n) (insert_p t q mdq) h0 (Ok true) h1) as [k2 Hk2];
    [by rewrite alone_insert|].
  destruct (run_first (stale_insert t p mdp n) (PRet (Ok (E:=string) true)) h1 (Ok true) h') as [k1 Hk1];
    [by rewrite Hst, Hrun'|].
  exists t, h0, ([false] ++ replicate k2 true ++ replicate k1 false), h', F'. split_and!; [done| |done|].
  - rewrite interleave_app, (insert_first_step t p mdp n h0 (build b)); [|done|done|by destruct (dir _ _)].
    cbn [mbind option_bind]. by rewrite interleave_app, Hk2.
  - rewrite (trie_contains_refines _ _ _ _ q Hrep'). by rewrite lookup_singleton_ne.
Qed.
End races.
