(* ===== verification/Readers.v ===== *)
(** * A lookup while another thread writes (engine/src/tree.rs, engine/src/lpm.rs)

    [lookup] walks the tree without a lock, one getter at a time.  Against one
    [insert] of another thread its answer is the one before or the one after
    that insert, whatever the schedule; against two writes it need not be the
    answer of any table the tree has held. *)

From S2P Require Import Prelude Addr Lpm DashMap Node Heap RouteTree Trie Concurrent.

Local Open Scope Z_scope.

(** ** Following pointers *)

Section walks.
Context `{IpNetworkLaws} `{DashMapLaws}.
Implicit Types (c : gmap loc NodeWrapper) (bt : btree cell) (k : list bool) (h : Heap) (F : gset loc).

Fixpoint walk c (l : loc) k : option loc :=
  match k with
  | [] => Some l
  | b :: k' => n ← c !! l; l' ← side b n; walk c l' k'
  end.

Lemma walk_snoc c l k b : walk c l (k ++ [b]) = l' ← walk c l k; n ← c !! l'; side b n.
Proof.
  revert l. induction k as [|b' k IH]; intros l; simpl.
  - destruct (c !! l) as [n|]; simpl; [|done]. by destruct (side b n).
  - destruct (c !! l) as [n|]; simpl; [|done]. destruct (side b' n) as [l'|]; simpl; [apply IH|done].
Qed.

Lemma rep_side c bt (l : loc) F (b : bool) :
  rep c bt (Some l) F → ∃ n t0 t1 Fc, c !! l = Some n ∧ bt = Bin (pay n) t0 t1 ∧
    rep c (if b then t1 else t0) (side b n) Fc.
Proof.
  intros (n & t0 & t1 & F0 & F1 & Hl & -> & Hr0 & Hr1 & _)%rep_some.
  exists n, t0, t1, (if b then F1 else F0). by destruct b.
Qed.

(** In a tree, following pointers and following the cells is the same. *)
Lemma rep_walk c bt l F k :
  rep c bt (Some l) F →
  match t_get bt k with
  | Some x => ∃ l' n, walk c l k = Some l' ∧ c !! l' = Some n ∧ pay n = x
  | None => walk c l k = None
  end.
Proof.
  revert bt l F. induction k as [|b k IH]; intros bt l F Hr.
  - apply (rep_side _ _ _ _ true) in Hr as (n & t0 & t1 & Fc & Hl & -> & _). simpl. eauto.
  - apply (rep_side _ _ _ _ b) in Hr as (n & t0 & t1 & Fc & Hl & -> & Hc). rewrite t_get_side. simpl. rewrite Hl.
    simpl. destruct (side b n) as [l'|]; simpl; [by eapply IH|]. apply rep_none in Hc as [-> _]. by destruct k.
Qed.

Lemma walk_cell c bt l F k l' :
  rep c bt (Some l) F → walk c l k = Some l' → ∃ n, c !! l' = Some n ∧ t_get bt k = Some (pay n).
Proof.
  intros Hr Hw. pose proof (rep_walk _ _ _ _ k Hr) as Hg. destruct (t_get bt k) as [x|]; [|congruence].
  destruct Hg as (l2 & n & Hw' & Hn & <-). exists n. split; [congruence|done].
Qed.

(** Pointers that are set stay set. *)
Definition links c c' : Prop :=
  ∀ l n b l', c !! l = Some n → side b n = Some l' → ∃ n', c' !! l = Some n' ∧ side b n' = Some l'.

Lemma walk_mono c c' l k l' : links c c' → walk c l k = Some l' → walk c' l k = Some l'.
Proof.
  intros Hc. revert l. induction k as [|b k IH]; intros l; simpl; [done|].
  intros (n & Hl & (l1 & Hs & Hw)%bind_Some)%bind_Some.
  destruct (Hc _ _ _ _ Hl Hs) as (n' & -> & Hs'). simpl. rewrite Hs'. simpl. by apply IH.
Qed.

Lemma links_refl c : links c c.
Proof. intros l n b l'. eauto. Qed.

(** A computation on the subtree behind a path. *)
Lemma descend_path {A} (m : M A) (a : A) bl f k2 h k bt root F l :
  rep (cells h) bt (Some root) F → walk (cells h) root k = Some l →
  (∀ tc Fc, rep (cells h) tc (Some l) Fc →
    ∃ h' Fc', m h = Some (a, h') ∧ rep (cells h') (t_update bl f tc k2) (Some l) Fc' ∧ evolves h h' Fc Fc') →
  ∃ h' F', m h = Some (a, h') ∧ rep (cells h') (t_update bl f bt (k ++ k2)) (Some root) F' ∧ evolves h h' F F'.
Proof.
  intros Hr Hw Hm. revert bt root F Hr Hw. induction k as [|b k IH]; intros bt root F Hr Hw.
  - injection Hw as ->. by apply Hm.
  - simpl in Hw. apply bind_Some in Hw as (n & Hn & (l1 & Hs & Hw)%bind_Some).
    pose proof Hr as (n' & t0 & t1 & Fc & Hn' & -> & Hc)%(rep_side _ _ _ _ b).
    assert (n' = n) as -> by congruence. rewrite <-app_comm_cons, t_update_side.
    eapply (descend m b a (λ t, t_update bl f t (k ++ k2))); [exact Hr|done|done|].
    intros tc Fc' Hrc _. by apply IH.
Qed.

Lemma walk_in c bt l F k l' : rep c bt (Some l) F → walk c l k = Some l' → l' ∈ F.
Proof.
  revert bt l F. induction k as [|b k IH]; intros bt l F Hr; simpl.
  - intros [= <-]. apply rep_some in Hr as (n & ? & ? & ? & ? & _ & _ & _ & _ & _ & _ & _ & ->). set_solver.
  - apply rep_some in Hr as (n & t0 & t1 & F0 & F1 & Hl & -> & Hr0 & Hr1 & _ & _ & _ & ->). rewrite Hl. simpl.
    intros (l1 & Hs & Hw)%bind_Some. unfold side in Hs.
    destruct b; rewrite Hs in *; [specialize (IH _ _ _ Hr1 Hw)|specialize (IH _ _ _ Hr0 Hw)]; set_solver.
Qed.

Lemma set_side_fields b (n : NodeWrapper) x :
  side (negb b) (set_side b n x) = side (negb b) n ∧ pay (set_side b n x) = pay n.
Proof.
  destruct b; simpl; [destruct (set_right_fields n x) as (? & ? & ?)|destruct (set_left_fields n x) as (? & ? & ?)]; done.
Qed.

Lemma rep_node c l n (b : bool) (tb tn : btree cell) Fb Fn F :
  c !! l = Some n → rep c tb (side b n) Fb → rep c tn (side (negb b) n) Fn →
  l ∉ Fb → l ∉ Fn → Fb ## Fn → F = {[l]} ∪ Fb ∪ Fn →
  rep c (Bin (pay n) (if b then tn else tb) (if b then tb else tn)) (Some l) F.
Proof.
  intros Hl Hb Hn Hlb Hln Hd ->. destruct b; [|by constructor].
  replace ({[l]} ∪ Fb ∪ Fn) with ({[l]} ∪ Fn ∪ Fb) by set_solver. by constructor.
Qed.

(** A leaf that is linked at the end of a path. *)
Lemma rep_link c bt root F k cur n b nl leaf :
  rep c bt (Some root) F → walk c root k = Some cur → c !! cur = Some n → side b n = None →
  c !! nl = Some leaf → node_left leaf = None → node_right leaf = None → nl ∉ F →
  rep (<[cur := set_side b n (Some nl)]> c) (t_update (pay leaf) id bt (k ++ [b])) (Some root) ({[nl]} ∪ F).
Proof.
  intros Hr Hw Hn Hs Hnl HL HR Hnf. revert bt root F Hr Hw Hnf.
  induction k as [|b' k IH]; intros bt root F Hr Hw Hnf;
    pose proof Hr as (m & t0 & t1 & F0 & F1 & Hl & -> & Hr0 & Hr1 & Hn0 & Hn1 & Hd & ->)%rep_some.
  - injection Hw as ->. assert (m = n) as -> by congruence. cbn [app]. rewrite t_update_side.
    destruct (set_side_fields b n (Some nl)) as [Ho Hp]. rewrite <-Hp. cbn [t_update].
    assert ((if b then t1 else t0) = Nil ∧ (if b then F1 else F0) = ∅) as [Hnil HF].
    { unfold side in Hs. destruct b; rewrite Hs in *; by eapply rep_none. }
    assert (∀ t o G, rep c t o G → cur ∉ G → rep (<[cur:=set_side b n (Some nl)]> c) t o G) as Hfr.
    { intros t o G Ht Hc. eapply rep_frame; [exact Ht|]. intros l' Hl'. rewrite lookup_insert_ne; [done|]. set_solver. }
    assert (rep (<[cur:=set_side b n (Some nl)]> c) (Bin (pay leaf) Nil Nil) (Some nl) {[nl]}) as Hleaf.
    { apply Hfr; [|set_solver]. replace {[nl]} with ({[nl]} ∪ ∅ ∪ ∅ : gset loc) by set_solver.
      apply (rep_bin _ nl leaf Nil Nil ∅ ∅);
        [done|rewrite HL; constructor|rewrite HR; constructor|set_solver..]. }
    pose proof (rep_node (<[cur:=set_side b n (Some nl)]> c) cur (set_side b n (Some nl)) b
      (Bin (pay leaf) Nil Nil) (if b then t0 else t1) {[nl]} (if b then F0 else F1)
      ({[nl]} ∪ ({[cur]} ∪ F0 ∪ F1)) (lookup_insert_eq _ _ _)) as Hres.
    rewrite side_set_side, Ho in Hres.
    assert (rep (<[cur:=set_side b n (Some nl)]> c) (if b then t0 else t1) (side (negb b) n) (if b then F0 else F1))
      as Hoth by (apply Hfr; by destruct b).
    specialize (Hres Hleaf Hoth ltac:(set_solver) ltac:(by destruct b) ltac:(destruct b; set_solver)
      ltac:(destruct b; simpl in HF; subst; set_solver)).
    destruct b; simpl in *; rewrite Hnil; exact Hres.
  - simpl in Hw. rewrite Hl in Hw. simpl in Hw. apply bind_Some in Hw as (l1 & Hs1 & Hw).
    rewrite <-app_comm_cons, t_update_side.
    assert (∃ tb tn Fb Fn, rep c tb (Some l1) Fb ∧ rep c tn (side (negb b') m) Fn ∧ root ∉ Fb ∧ root ∉ Fn ∧
      Fb ## Fn ∧ {[root]} ∪ F0 ∪ F1 = {[root]} ∪ Fb ∪ Fn ∧ tb = (if b' then t1 else t0) ∧ tn = (if b' then t0 else t1))
      as (tb & tn & Fb & Fn & Hrb & Hrn & Hb & Hnn & Hdis & HF & -> & ->).
    { unfold side in *. destruct b'; simpl; [exists t1, t0, F1, F0|exists t0, t1, F0, F1];
        rewrite Hs1 in *; split_and!; try done; set_solver. }
    pose proof (walk_in _ _ _ _ _ _ Hrb Hw) as Hin. rewrite HF in *.
    specialize (IH _ _ _ Hrb Hw ltac:(set_solver)). rewrite <-Hs1 in IH.
    eapply (rep_node _ root m b' _ (if b' then t0 else t1) _ Fn ({[nl]} ∪ ({[root]} ∪ Fb ∪ Fn))) in IH.
    + destruct b'; exact IH.
    + rewrite lookup_insert_ne; [done|]. set_solver.
    + eapply rep_frame; [exact Hrn|]. intros l' Hl'. rewrite lookup_insert_ne; [done|]. set_solver.
    + apply not_elem_of_union. split; [|done]. apply not_elem_of_singleton. intros ->. set_solver.
    + done.
    + set_solver.
    + set_solver.
Qed.

Lemma links_insert c l n n' :
  c !! l = Some n → (∀ b l', side b n = Some l' → side b n' = Some l') → links c (<[l := n']> c).
Proof.
  intros Hl Hs l1 n1 b l' Hl1 Hs1. destruct (decide (l1 = l)) as [->|Hne].
  - exists n'. rewrite lookup_insert_eq. split; [done|]. apply Hs. congruence.
  - exists n1. by rewrite lookup_insert_ne.
Qed.
End walks.

(** ** Answers by depth *)

Section answers.
Context `{IpNetworkLaws} `{DashMapLaws}.
Implicit Types (bt : btree cell) (k : list bool) (ip : IpAddr).

(** What a walk sees at a path: the prefix and the metadata. *)
Definition seen bt k : option IpNetwork * option Metadata :=
  (t_get bt k ≫= c_prefix, t_get bt k ≫= c_meta).

Definition match_seen ip (best : option Metadata) (s : option IpNetwork * option Metadata) : option Metadata :=
  match s.1 with
  | Some p =>
      if network_contains_ip p ip then
        match s.2 with Some m => Some m | None => best end
      else best
  | None => best
  end.

(** The answer over the first [n] cells of the path of [ip]. *)
Definition upto ip (ct : list bool → option IpNetwork * option Metadata) (d n : nat) (best : option Metadata)
    : option Metadata :=
  foldl (λ best j, match_seen ip best (ct (path ip d j))) best (seq 0 n).

Lemma upto_S ip ct d n best : upto ip ct d (S n) best = match_seen ip (upto ip ct d n best) (ct (path ip d n)).
Proof. unfold upto. by rewrite seq_S, foldl_app. Qed.

Lemma upto_ext ip ct ct' d n best : (∀ k, ct k = ct' k) → upto ip ct d n best = upto ip ct' d n best.
Proof. intros He. induction n as [|n IH]; [done|]. by rewrite !upto_S, IH, He. Qed.

Lemma upto_front ip bt c t0 t1 d n best :
  bt = Bin c t0 t1 →
  upto ip (seen bt) d (S n) best = upto ip (seen (if dir ip d then t1 else t0)) (S d) n (t_match ip best c).
Proof.
  intros ->. induction n as [|n IH]; [done|]. rewrite (upto_S _ _ d), IH, upto_S. f_equal.
Qed.

Lemma upto_nil ip d n best : upto ip (seen Nil) d n best = best.
Proof. induction n as [|n IH]; [done|]. by rewrite upto_S, IH. Qed.

(** Where the path ends, the answer is complete. *)
Lemma t_walk_upto ip n : ∀ bt d best,
  t_get bt (path ip d n) = None → t_walk ip bt d best = upto ip (seen bt) d n best.
Proof.
  induction n as [|n IH]; intros [|c t0 t1] d best; try done.
  - intros _. by rewrite upto_nil.
  - rewrite path_S, t_get_side. intros Hg. rewrite (upto_front _ _ c t0 t1); [|done].
    rewrite <-IH; [|done]. cbn [t_walk]. unfold dir. by destruct (get_bit ip d =? 0).
Qed.

Lemma t_get_height bt k : (height bt ≤ length k)%nat → t_get bt k = None.
Proof.
  revert bt. induction k as [|b k IH]; intros [|c t0 t1]; simpl; try done; [lia|]. intros Hh.
  apply IH. destruct b; lia.
Qed.
End answers.

(** ** One step of a program *)

Section steps.
Context `{IpNetworkCrate} `{DashMapCrate}.

Definition run1 {A} (p : prog A) (h : Heap) : option (prog A * Heap) :=
  match p with PRet _ => None | PStep m => m h end.

Lemma run1_atomic {A B} (m : M A) (f : A → prog B) h a h' :
  m h = Some (a, h') → run1 (atomic m ≫= f) h = Some (f a, h').
Proof. intros Hm. cbn. by rewrite Hm. Qed.

Lemma run1_nested {A B C} (m : M A) (f : A → prog B) (g : B → prog C) h a h' :
  m h = Some (a, h') → run1 ((atomic m ≫= f) ≫= g) h = Some (f a ≫= g, h').
Proof. intros Hm. cbn. by rewrite Hm. Qed.

(** The part of a program before a bind, with all the steps it needs. *)
Lemma run_first_bind {A B C} (p : prog A) (f : A → prog B) (q : prog C) h a h' :
  alone p h = Some (a, h') →
  ∃ n, interleave (mkThreads (p ≫= f) q h) (replicate n false) = Some (mkThreads (f a) q h').
Proof.
  revert h. induction p as [a0|m IH] using prog_induction; intros h; cbn.
  - intros [= -> ->]. by exists 0%nat.
  - destruct (m h) as [[p1 h1]|] eqn:Hm; [|done]. intros Hr.
    destruct (IH _ _ _ Hm _ Hr) as [n Hn]. exists (S n). cbn. by rewrite Hm.
Qed.

Definition returned {A} (p : prog A) : Prop := match p with PRet _ => True | PStep _ => False end.

Lemma thread_step_first {A B} (p p' : prog A) (q : prog B) h h' :
  run1 p h = Some (p', h') → thread_step (mkThreads p q h) false = Some (mkThreads p' q h').
Proof. destruct p as [a|m]; cbn; [done|]. by intros ->. Qed.

Lemma thread_step_second {A B} (p : prog A) (q q' : prog B) h h' :
  run1 q h = Some (q', h') → thread_step (mkThreads p q h) true = Some (mkThreads p q' h').
Proof. destruct q as [a|m]; cbn; [done|]. by intros ->. Qed.

Lemma thread_step_idle {A B} (p : prog A) (q : prog B) h (who : bool) :
  (if who then returned q else returned p) → thread_step (mkThreads p q h) who = Some (mkThreads p q h).
Proof. destruct who, p, q; done. Qed.
End steps.

(** ** A lookup against one insert *)

Section linearize.
Context `{IpNetworkLaws} `{DashMapLaws}.
Variables (t : UncompressedTree) (ip : IpAddr) (p : IpNetwork) (md : Metadata) (bt0 : btree cell).
Implicit Types (bt : btree cell) (k : list bool) (h : Heap) (F : gset loc) (c : gmap loc NodeWrapper).

Abbreviation root := (ut_root t).
Abbreviation kp := (net_bits p).

(** If the address is below the position of [p], then [p] contains it, and so
    does the prefix that [p] replaces. *)
Hypothesis covers : ∀ d, path ip 0 d = kp → network_contains_ip p ip = true.
Hypothesis covers_old : ∀ d p0, path ip 0 d = kp →
  (seen bt0 kp).1 = Some p0 → is_Some ((seen bt0 kp).2) → network_contains_ip p0 ip = true.
Hypothesis ok0 : trie_ok bt0.

(** What a walk sees once the insert is through. *)
Definition after k : option IpNetwork * option Metadata :=
  if decide (k = kp) then (Some p, Some md) else seen bt0 k.

Lemma after_ne k : k ≠ kp → after k = seen bt0 k.
Proof. intros Hk. unfold after. by rewrite decide_False. Qed.

Lemma after_eq k : k = kp → after k = (Some p, Some md).
Proof. intros Hk. unfold after. by rewrite decide_True. Qed.

(** The shared tree, before or after the metadata is stored. *)
Definition shared (stored : bool) h bt F : Prop :=
  heap_wf h ∧ rep (cells h) bt (Some root) F ∧ (height bt ≤ 129)%nat ∧
  (∀ k, is_Some (t_get bt0 k) → is_Some (t_get bt k)) ∧
  if stored then ∀ k, seen bt k = after k
  else ∀ k, (seen bt k).2 = (seen bt0 k).2 ∧
    ((seen bt k).1 = (seen bt0 k).1 ∨ k = kp ∧ (seen bt k).1 = Some p).

Definition good (stored : bool) (d : nat) (best : option Metadata) : Prop :=
  best = upto ip (seen bt0) 0 d None ∨ stored = true ∧ best = upto ip after 0 d None.

(** The rest of the loop body after the match. *)
Definition next_p (fuel d : nat) (l : loc) (best : option Metadata) : prog (option Metadata) :=
  nxt ← atomic (child_at (get_bit ip d) l);
  lpm_walk_p fuel ip (S d) nxt best.

Definition take_meta (l : loc) (best : option Metadata) : prog (option Metadata) :=
  md ← atomic (get node_metadata l);
  mret (match md with Some m => Some m | None => best end).

Inductive reading (stored : bool) c : prog (option Metadata) → Prop :=
  | rd_visit d l best :
      walk c root (path ip 0 d) = Some l → good stored d best →
      reading stored c (lpm_walk_p (130 - d) ip d (Some l) best)
  | rd_meta d l best :
      walk c root (path ip 0 d) = Some l → good stored d best →
      (path ip 0 d ≠ kp → ∃ p1, (seen bt0 (path ip 0 d)).1 = Some p1 ∧ network_contains_ip p1 ip = true) →
      reading stored c (take_meta l best ≫= next_p (129 - d) d l)
  | rd_next d l best :
      walk c root (path ip 0 d) = Some l → good stored (S d) best →
      reading stored c (next_p (129 - d) d l best)
  | rd_done r :
      r = t_walk ip bt0 0 None ∨ stored = true ∧ r = upto ip after 0 129 None →
      reading stored c (PRet r).

Lemma good_mono (s s' : bool) d best : (s = true → s' = true) → good s d best → good s' d best.
Proof. intros Hs [->|[Ht ->]]; [by left|right; auto]. Qed.

Lemma reading_mono (s s' : bool) c c' pr :
  links c c' → (s = true → s' = true) → reading s c pr → reading s' c' pr.
Proof.
  intros Hl Hs [d l best Hw Hg|d l best Hw Hg Hp|d l best Hw Hg|r Hr].
  - apply rd_visit; [by eapply walk_mono|by eapply good_mono].
  - apply rd_meta; [by eapply walk_mono|by eapply good_mono|done].
  - apply rd_next; [by eapply walk_mono|by eapply good_mono].
  - apply rd_done. destruct Hr as [->|[Ht ->]]; [by left|right; auto].
Qed.

Lemma walk_seen (s : bool) h bt F k l :
  shared s h bt F → walk (cells h) root k = Some l →
  ∃ n, cells h !! l = Some n ∧ t_get bt k = Some (pay n) ∧ seen bt k = (node_prefix n, node_metadata n).
Proof.
  intros (_ & Hr & _) Hw. destruct (walk_cell _ _ _ _ _ _ Hr Hw) as (n & Hn & Hg).
  exists n. split_and!; [done|done|]. unfold seen. by rewrite Hg.
Qed.

(** A prefix that does not contain the address leaves the answer alone. *)
Lemma good_miss (s : bool) h bt F d best pf md1 :
  shared s h bt F → seen bt (path ip 0 d) = (pf, md1) → good s d best →
  (∀ p1, pf = Some p1 → network_contains_ip p1 ip = false) → good s (S d) best.
Proof.
  intros (_ & _ & _ & _ & Hs) Hseen Hg Hno.
  assert (path ip 0 d = kp → pf ≠ Some p) as Hnp.
  { intros Hk Hpf. specialize (Hno _ Hpf). rewrite (covers _ Hk) in Hno. done. }
  assert ((seen bt0 (path ip 0 d)).1 = pf ∧ (s = true → path ip 0 d ≠ kp)) as [Hpf Hne].
  { destruct s.
    - specialize (Hs (path ip 0 d)). rewrite Hseen in Hs. unfold after in Hs.
      case_decide as Hk; [injection Hs as -> _; by destruct (Hnp Hk)|]. by rewrite <-Hs.
    - destruct (Hs (path ip 0 d)) as [_ [Heq|[Hk Heq]]]; rewrite Hseen in Heq; simpl in Heq; [by rewrite Heq|].
      by destruct (Hnp Hk). }
  assert (match_seen ip best (seen bt0 (path ip 0 d)) = best) as Hm.
  { unfold match_seen. rewrite Hpf. destruct pf as [p1|]; [|done]. by rewrite (Hno p1 eq_refl). }
  destruct Hg as [->|[-> ->]].
  - left. by rewrite upto_S, Hm.
  - right. split; [done|]. by rewrite upto_S, after_ne, Hm by by apply Hne.
Qed.

(** Taking the metadata behind a prefix that contains the address. *)
Lemma good_take (s : bool) h bt F d best pf md1 :
  shared s h bt F → seen bt (path ip 0 d) = (pf, md1) → good s d best →
  (path ip 0 d ≠ kp → ∃ p1, (seen bt0 (path ip 0 d)).1 = Some p1 ∧ network_contains_ip p1 ip = true) →
  good s (S d) (match md1 with Some m => Some m | None => best end).
Proof.
  intros (_ & _ & _ & _ & Hs) Hseen Hg Hpre.
  assert ((path ip 0 d ≠ kp ∨ s = false) → (seen bt0 (path ip 0 d)).2 = md1) as Hold.
  { intros Hor. destruct s.
    - destruct Hor as [Hne|]; [|done]. specialize (Hs (path ip 0 d)). rewrite Hseen, after_ne in Hs by done.
      by rewrite <-Hs.
    - destruct (Hs (path ip 0 d)) as [Heq _]. rewrite Hseen in Heq. done. }
  assert (∀ b, (path ip 0 d ≠ kp ∨ s = false) →
    match_seen ip b (seen bt0 (path ip 0 d)) = match md1 with Some m => Some m | None => b end) as Hm.
  { intros b Hor. unfold match_seen. rewrite (Hold Hor).
    destruct (decide (path ip 0 d = kp)) as [Hk|Hk].
    - destruct ((seen bt0 (path ip 0 d)).1) as [p0|] eqn:Hp0.
      + destruct md1 as [m|]; [|by destruct (network_contains_ip p0 ip)].
        rewrite Hk in Hp0. specialize (Hold Hor). rewrite Hk in Hold.
        by rewrite (covers_old d p0 Hk Hp0) by (rewrite Hold; eauto).
      + destruct md1 as [m|]; [|done]. specialize (Hold Hor). unfold seen in Hold, Hp0. simpl in *.
        destruct (t_get bt0 (path ip 0 d)) as [c|] eqn:Hc; [simpl in *|done].
        destruct (proj1 ok0 _ _ Hc) as (? & Hc' & _); [rewrite Hold; eauto|congruence].
    - destruct (Hpre Hk) as (p1 & -> & ->). done. }
  destruct s; [destruct (decide (path ip 0 d = kp)) as [Hk|Hk]|].
  - right. split; [done|]. specialize (Hs (path ip 0 d)). rewrite Hseen in Hs. rewrite upto_S.
    rewrite <-Hs. rewrite after_eq in Hs by done. injection Hs as -> ->.
    unfold match_seen. simpl. by rewrite (covers d Hk).
  - destruct Hg as [->|[_ ->]]; [left|right; split; [done|]]; rewrite upto_S.
    + by rewrite Hm by auto.
    + by rewrite after_ne, Hm by auto.
  - destruct Hg as [->|[? _]]; [|done]. left. rewrite upto_S. by rewrite Hm by auto.
Qed.

Lemma path_snoc (a : IpAddr) d : path a 0 (S d) = path a 0 d ++ [dir a d].
Proof. unfold path. by rewrite seq_S, fmap_app. Qed.

Lemma walk_depth (s : bool) h bt F d l :
  shared s h bt F → walk (cells h) root (path ip 0 d) = Some l → (d < 129)%nat.
Proof.
  intros Hs Hw. destruct (walk_seen _ _ _ _ _ _ Hs Hw) as (n & _ & Hg & _).
  destruct (decide (d < 129)%nat); [done|]. destruct Hs as (_ & _ & Hh & _).
  rewrite t_get_height in Hg; [done|]. rewrite length_path. lia.
Qed.

(** Where the path of the address ends, the answer so far is the answer. *)
Lemma good_end (s : bool) h bt F d best :
  shared s h bt F → t_get bt (path ip 0 d) = None → good s d best →
  best = t_walk ip bt0 0 None ∨ s = true ∧ best = upto ip after 0 129 None.
Proof.
  intros (_ & _ & Hh & Hdom & Hs) Hg [->|[-> ->]].
  - left. symmetry. apply t_walk_upto. destruct (t_get bt0 (path ip 0 d)) eqn:Hg0; [|done].
    destruct (Hdom (path ip 0 d)) as [? Hc]; [by rewrite Hg0|congruence].
  - right. split; [done|]. rewrite <-!(upto_ext ip (seen bt) after) by done.
    rewrite <-!t_walk_upto; [done| |done]. apply t_get_height. by rewrite length_path.
Qed.

Lemma reading_step (s : bool) h bt F pr :
  shared s h bt F → reading s (cells h) pr →
  returned pr ∨ ∃ pr', run1 pr h = Some (pr', h) ∧ reading s (cells h) pr'.
Proof.
  intros Hs [d l best Hw Hg|d l best Hw Hg Hp|d l best Hw Hg|r Hr]; [right|right|right|by left].
  - pose proof (walk_depth _ _ _ _ _ _ Hs Hw) as Hd.
    destruct (walk_seen _ _ _ _ _ _ Hs Hw) as (n & Hn & _ & Hseen).
    replace (130 - d)%nat with (S (129 - d)) by lia. cbn [lpm_walk_p]. unfold match_node_p.
    eexists. split; [apply run1_nested, (get_run _ _ _ _ Hn)|].
    destruct (node_prefix n) as [p1|] eqn:Hp1.
    + destruct (network_contains_ip p1 ip) eqn:Hc.
      * apply rd_meta; [done|done|]. intros Hne. exists p1. split; [|done].
        destruct Hs as (_ & _ & _ & _ & Hs). destruct s.
        -- specialize (Hs (path ip 0 d)). rewrite Hseen, after_ne in Hs by done. by rewrite <-Hs.
        -- destruct (Hs (path ip 0 d)) as [_ [Heq|[? _]]]; [|done]. by rewrite <-Heq, Hseen.
      * apply rd_next; [done|]. eapply good_miss; [exact Hs|exact Hseen|done|]. by intros ? [= <-].
    + apply rd_next; [done|]. by eapply good_miss; [exact Hs|exact Hseen|done|].
  - destruct (walk_seen _ _ _ _ _ _ Hs Hw) as (n & Hn & _ & Hseen).
    eexists. split; [apply run1_nested, (get_run _ _ _ _ Hn)|].
    apply rd_next; [done|]. eapply good_take; [exact Hs|exact Hseen|done|done].
  - destruct (walk_seen _ _ _ _ _ _ Hs Hw) as (n & Hn & _ & _).
    eexists. split; [apply run1_atomic, (child_at_run _ _ _ _ _ Hn)|].
    assert (walk (cells h) root (path ip 0 (S d)) = side (dir ip d) n) as Hw'.
    { by rewrite path_snoc, walk_snoc, Hw; simpl; rewrite Hn. }
    destruct (side (dir ip d) n) as [l'|].
    + replace (129 - d)%nat with (130 - S d)%nat by lia. by apply rd_visit.
    + destruct (129 - d)%nat; apply rd_done; (eapply good_end; [exact Hs| |exact Hg]).
      all: pose proof (rep_walk _ _ _ _ (path ip 0 (S d)) (proj1 (proj2 Hs))) as Hg'.
      all: destruct (t_get bt (path ip 0 (S d))); [|done]; destruct Hg' as (? & ? & ? & _); congruence.
Qed.

(** ** The insert *)

Abbreviation builder := (ut_builder t).
Abbreviation ipw := (net_network p).
Abbreviation plen := (Z.to_nat (net_prefix p)).

Definition is_new : bool := is_none ((seen bt0 kp).2).

Inductive writing h bt F : bool → prog (Result bool string) → Prop :=
  | wr_loop d n cur :
      walk (cells h) root (path ipw 0 d) = Some cur → (d + n)%nat = plen →
      writing h bt F false (insert_loop_p builder ipw d n cur ≫= store_p p md)
  | wr_alloc d n cur :
      walk (cells h) root (path ipw 0 d) = Some cur → (d + S n)%nat = plen →
      t_get bt (path ipw 0 (S d)) = None →
      writing h bt F false
        ((nl ← atomic (alloc (build builder)); _ ← link_p (get_bit ipw d) cur nl;
          insert_loop_p builder ipw (S d) n nl) ≫= store_p p md)
  | wr_link d n cur nl :
      walk (cells h) root (path ipw 0 d) = Some cur → (d + S n)%nat = plen →
      t_get bt (path ipw 0 (S d)) = None → cells h !! nl = Some (build builder) → nl ∉ F →
      writing h bt F false
        ((_ ← link_p (get_bit ipw d) cur nl; insert_loop_p builder ipw (S d) n nl) ≫= store_p p md)
  | wr_prefix cur :
      walk (cells h) root kp = Some cur →
      writing h bt F false
        (_ ← atomic (modify (λ w, node_set_prefix w p) cur);
         _ ← atomic (modify (λ w, node_set_metadata w md) cur); mret (Ok is_new))
  | wr_meta cur :
      walk (cells h) root kp = Some cur → (seen bt kp).1 = Some p →
      writing h bt F false (_ ← atomic (modify (λ w, node_set_metadata w md) cur); mret (Ok is_new))
  | wr_done : writing h bt F true (PRet (Ok is_new)).

(** What a walk sees of a tree after the update of one cell. *)
Lemma seen_update bl f bt k k' :
  seen (Bin bl Nil Nil) [] = (None, None) →
  seen (t_update bl f bt k) k' =
    if decide (k' = k) then (c_prefix (f (default bl (t_get bt k))), c_meta (f (default bl (t_get bt k))))
    else seen bt k'.
Proof.
  intros Hbl. unfold seen. case_decide as Hk.
  - subst k'. by rewrite t_get_update_eq.
  - destruct (t_get_update_ne bl f bt k k' Hk) as [->|[-> ->]]; [done|]. injection Hbl. simpl. by intros -> ->.
Qed.

Lemma blank_seen : seen (Bin (blank_of builder) Nil Nil) [] = (None, None).
Proof. done. Qed.

Lemma update_dom bl f bt k k' : is_Some (t_get bt k') → is_Some (t_get (t_update bl f bt k) k').
Proof.
  intros Hs. destruct (decide (k' = k)) as [->|Hne]; [rewrite t_get_update_eq; eauto|].
  destruct (t_get_update_ne bl f bt k k' Hne) as [->|[_ ->]]; eauto.
Qed.

(** The shared tree after an update of one cell of the path. *)
Lemma shared_update (s : bool) h bt F h' F' f k :
  shared false h bt F → heap_wf h' → (length k ≤ 128)%nat →
  rep (cells h') (t_update (blank_of builder) f bt k) (Some root) F' →
  (∀ k', let ct := seen (t_update (blank_of builder) f bt k) k' in
    if s then ct = after k'
    else ct.2 = (seen bt0 k').2 ∧ (ct.1 = (seen bt0 k').1 ∨ k' = kp ∧ ct.1 = Some p)) →
  shared s h' (t_update (blank_of builder) f bt k) F'.
Proof.
  intros (Hwf & Hr & Hh & Hdom & Hs) Hwf' Hk Hr' Hct. split_and!; [done|done| | |].
  - pose proof (height_update (blank_of builder) f bt k). lia.
  - intros k' Hk'. by apply update_dom, Hdom.
  - destruct s; intros k'; apply (Hct k').
Qed.

Lemma write_cell h bt F cur f fc :
  shared false h bt F → walk (cells h) root kp = Some cur →
  (∀ n, node_left (f n) = node_left n ∧ node_right (f n) = node_right n ∧ pay (f n) = fc (pay n)) →
  ∃ h' F', modify f cur h = Some (tt, h') ∧ heap_wf h' ∧
    rep (cells h') (t_update (blank_of builder) fc bt kp) (Some root) F' ∧ links (cells h) (cells h').
Proof.
  intros (Hwf & Hr & _) Hw Hf. destruct (walk_cell _ _ _ _ _ _ Hr Hw) as (n & Hn & _).
  destruct (descend_path (modify f cur) tt (blank_of builder) fc [] h kp bt root F cur Hr Hw)
    as (h' & F' & Hrun & Hr' & Hev).
  { intros tc Fc Hrc. pose proof Hrc as (n' & t0 & t1 & ? & ? & _ & -> & _)%rep_some.
    destruct (acts_modify f fc Hf h _ _ _ _ _ Hwf Hrc) as (h' & ? & ? & ?). by exists h', Fc. }
  rewrite app_nil_r in Hr'. exists h', F'. split_and!; [done|apply Hev|done|].
  rewrite (modify_run _ _ _ _ Hn) in Hrun. injection Hrun as <-. eapply links_insert; [exact Hn|].
  intros b l'. destruct (Hf n) as (HL & HR & _). unfold side. destruct b; congruence.
Qed.

Lemma kp_length : (length kp ≤ 128)%nat.
Proof. rewrite length_net_bits. apply net_len_bound. Qed.

Lemma link_step h bt F d cur nl :
  shared false h bt F → walk (cells h) root (path ipw 0 d) = Some cur → (S d ≤ plen)%nat →
  t_get bt (path ipw 0 (S d)) = None → cells h !! nl = Some (build builder) → nl ∉ F →
  ∃ h' bt' F', modify (λ w, set_side (dir ipw d) w (Some nl)) cur h = Some (tt, h') ∧
    shared false h' bt' F' ∧ links (cells h) (cells h') ∧ walk (cells h') root (path ipw 0 (S d)) = Some nl.
Proof.
  clear covers covers_old ok0.
  intros Hs Hw Hd Hnone Hnl Hnf. pose proof Hs as (Hwf & Hr & Hh & Hdom & Hct).
  destruct (walk_cell _ _ _ _ _ _ Hr Hw) as (n & Hn & Hg).
  assert (side (dir ipw d) n = None) as Hside.
  { pose proof (rep_walk _ _ _ _ (path ipw 0 (S d)) Hr) as Hwn. rewrite Hnone in Hwn.
    rewrite path_snoc, walk_snoc, Hw in Hwn. simpl in Hwn. by rewrite Hn in Hwn. }
  destruct (build_fields builder) as (HL & HR & HP).
  pose proof (rep_link _ _ _ _ _ _ _ (dir ipw d) nl _ Hr Hw Hn Hside Hnl HL HR Hnf) as Hr'.
  rewrite HP, <-path_snoc in Hr'.
  set (h' := mkHeap (<[cur := set_side (dir ipw d) n (Some nl)]> (cells h)) (next h)).
  assert (links (cells h) (cells h')) as Hlk.
  { eapply links_insert; [exact Hn|]. intros b l' Hl'. destruct (decide (b = dir ipw d)) as [->|Hb]; [congruence|].
    assert (b = negb (dir ipw d)) as -> by (by destruct b, (dir ipw d)).
    by rewrite (proj1 (set_side_fields _ _ _)). }
  exists h', (t_update (blank_of builder) id bt (path ipw 0 (S d))), ({[nl]} ∪ F). split_and!; [| |done|].
  - by apply (modify_run (λ w, set_side (dir ipw d) w (Some nl)) _ _ _ Hn).
  - eapply shared_update; [exact Hs| | |exact Hr'|].
    + apply heap_wf_write; [done|by rewrite Hn].
    + rewrite length_path. pose proof kp_length as Hk. rewrite <-path_net, length_path in Hk. lia.
    + intros k'. rewrite seen_update by done. case_decide as Hk'; [|apply Hct].
      subst k'. rewrite Hnone. simpl. destruct (Hct (path ipw 0 (S d))) as [H2' H1'].
      unfold seen in H2', H1'. rewrite Hnone in H2', H1'. simpl in *. split; [done|].
      destruct H1' as [?|[_ ?]]; [by left|done].
  - rewrite path_snoc, walk_snoc, (walk_mono _ _ _ _ _ Hlk Hw). simpl. rewrite lookup_insert_eq. simpl.
    apply side_set_side.
Qed.

Lemma writing_step (s : bool) h bt F pr :
  shared s h bt F → writing h bt F s pr →
  returned pr ∨ ∃ pr' h' s' bt' F', run1 pr h = Some (pr', h') ∧ shared s' h' bt' F' ∧
    writing h' bt' F' s' pr' ∧ links (cells h) (cells h') ∧ (s = true → s' = true).
Proof.
  clear covers covers_old ok0.
  intros Hs Hwr. revert Hs.
  destruct Hwr as [d n cur Hw Hd|d n cur Hw Hd Hn|d n cur nl Hw Hd Hn Hnl Hnf|cur Hw|cur Hw Hp|];
    intros Hs; [right..|by left].
  - pose proof Hs as (Hwf & Hr & _). destruct (walk_cell _ _ _ _ _ _ Hr Hw) as (w & Hcw & Hg).
    destruct n as [|n].
    + eexists _, h, false, bt, F. split_and!; [apply run1_atomic, (get_run _ _ _ _ Hcw)|done| |apply links_refl|done].
      assert (d = plen) as -> by lia. rewrite path_net in *.
      assert (is_none (node_metadata w) = is_new) as ->.
      { unfold is_new. destruct Hs as (_ & _ & _ & _ & Hct). rewrite <-(proj1 (Hct kp)). unfold seen. by rewrite Hg. }
      by apply wr_prefix.
    + cbn [insert_loop_p]. eexists _, h, false, bt, F.
      split_and!; [apply run1_nested, (child_at_run _ _ _ _ _ Hcw)|done| |apply links_refl|done].
      assert (walk (cells h) root (path ipw 0 (S d)) = side (dir ipw d) w) as Hw'.
      { by rewrite path_snoc, walk_snoc, Hw; simpl; rewrite Hcw. }
      destruct (side (dir ipw d) w) as [l'|]; [apply wr_loop; [done|lia]|]. apply wr_alloc; [done|lia|].
      pose proof (rep_walk _ _ _ _ (path ipw 0 (S d)) Hr) as Hg'.
      destruct (t_get bt (path ipw 0 (S d))); [|done]. destruct Hg' as (? & ? & ? & _). congruence.
  - pose proof Hs as (Hwf & Hr & Hh & Hdom & Hct).
    pose proof (heap_wf_fresh h Hwf) as Hfr. destruct (build_fields builder) as (HL & HR & HP).
    destruct (rep_alloc h (build builder) Hwf HL HR) as [_ Hev]. set (h' := mkHeap _ _) in *.
    destruct (rep_evolves _ _ _ _ _ _ _ Hev Hr) as [Hr' Hdis]; [set_solver|].
    assert (links (cells h) (cells h')) as Hlk.
    { intros l m b l' Hl Hsd. exists m. split; [|done]. simpl. rewrite lookup_insert_ne; [done|congruence]. }
    eexists _, h', false, bt, F. split_and!; [by apply run1_nested| | |done|done].
    + split_and!; [apply Hev|done|done|done|done].
    + apply wr_link; [by eapply walk_mono|done|done|by simpl; rewrite lookup_insert_eq|set_solver].
  - destruct (link_step h bt F d cur nl Hs Hw ltac:(lia) Hn Hnl Hnf) as (h' & bt' & F' & Hrun & Hs' & Hlk & Hw').
    eexists _, h', false, bt', F'. split_and!; [|done| |done|done].
    + unfold link_p. apply run1_nested. rewrite link_eq. exact Hrun.
    + apply wr_loop; [done|lia].
  - destruct (write_cell h bt F cur _ (λ x, mkCell (c_meta x) (Some p) (c_edge x)) Hs Hw
      (λ n, set_prefix_fields n p)) as (h' & F' & Hrun & Hwf' & Hr' & Hlk).
    eexists _, h', false, _, F'. split_and!; [by apply run1_atomic| | |done|done].
    + eapply shared_update; [exact Hs|done|apply kp_length|exact Hr'|].
      intros k'. rewrite seen_update by done. destruct Hs as (_ & _ & _ & _ & Hct).
      case_decide as Hk; [|apply Hct]. subst k'. destruct (Hct kp) as [Hm _]. unfold seen in *. simpl in *.
      split; [|by right]. rewrite <-Hm. by destruct (t_get bt kp).
    + apply wr_meta; [by eapply walk_mono|]. rewrite seen_update by done. by rewrite decide_True.
  - destruct (write_cell h bt F cur _ (λ x, mkCell (Some md) (c_prefix x) (c_edge x)) Hs Hw
      (λ n, set_metadata_fields n md)) as (h' & F' & Hrun & Hwf' & Hr' & Hlk).
    eexists _, h', true, _, F'. split_and!; [by apply run1_atomic| |apply wr_done|done|done].
    eapply shared_update; [exact Hs|done|apply kp_length|exact Hr'|].
    intros k'. rewrite seen_update by done. destruct Hs as (_ & _ & _ & _ & Hct). unfold after.
    case_decide as Hk.
    + simpl. f_equal. unfold seen in Hp. by destruct (t_get bt kp).
    + destruct (Hct k') as [H2' [H1'|[? _]]]; [|done]. by destruct (seen bt k'), (seen bt0 k'); simpl in *; subst.
Qed.

(** ** Both threads *)

Definition both (s : threads (option Metadata) (Result bool string)) : Prop :=
  ∃ st bt F, shared st (th_heap s) bt F ∧ reading st (cells (th_heap s)) (th1 s) ∧
    writing (th_heap s) bt F st (th2 s).

Lemma both_step s who : both s → ∃ s', thread_step s who = Some s' ∧ both s'.
Proof.
  destruct s as [pr pw h]. intros (st & bt & F & Hs & Hr & Hw); simpl in *. destruct who.
  - destruct (writing_step _ _ _ _ _ Hs Hw) as [Hret|(pw' & h' & st' & bt' & F' & Hrun & Hs' & Hw' & Hl & Hm)].
    + eexists. split; [by apply thread_step_idle|]. by exists st, bt, F.
    + eexists. split; [by apply thread_step_second|]. exists st', bt', F'. split_and!; [done| |done].
      by eapply reading_mono.
  - destruct (reading_step _ _ _ _ _ Hs Hr) as [Hret|(pr' & Hrun & Hr')].
    + eexists. split; [by apply thread_step_idle|]. by exists st, bt, F.
    + eexists. split; [by apply thread_step_first|]. by exists st, bt, F.
Qed.

Lemma both_run s sched : both s → ∃ s', interleave s sched = Some s' ∧ both s'.
Proof.
  revert s. induction sched as [|who sched IH]; intros s Hs; [by exists s|].
  destruct (both_step s who Hs) as (s1 & Hs1 & Hb). simpl. rewrite Hs1. by apply IH.
Qed.

Lemma both_finish s : both s → ∃ sched s', interleave s sched = Some s' ∧ both s' ∧
  returned (th1 s') ∧ returned (th2 s').
Proof.
  destruct s as [pr pw h]. revert h pw. induction pr as [r|m IH] using prog_induction.
  - intros h pw. revert h. induction pw as [n|m IH] using prog_induction; intros h Hb; [by exists [], (mkThreads (PRet r) (PRet n) h)|].
    destruct (both_step _ true Hb) as (s1 & Hs1 & Hb1). cbn in Hs1.
    destruct (m h) as [[pw' h']|] eqn:Hm; simplify_eq/=.
    destruct (IH _ _ _ Hm h' Hb1) as (sched & s' & Hr & Hrest). exists (true :: sched), s'.
    split; [|done]. cbn. by rewrite Hm.
  - intros h pw Hb. destruct (both_step _ false Hb) as (s1 & Hs1 & Hb1). cbn in Hs1.
    destruct (m h) as [[pr' h']|] eqn:Hm; simplify_eq/=.
    destruct (IH _ _ _ Hm h' pw Hb1) as (sched & s' & Hr & Hrest). exists (false :: sched), s'.
    split; [|done]. cbn. by rewrite Hm.
Qed.

Lemma writing_returned h bt F (s : bool) n : writing h bt F s (PRet n) → s = true ∧ n = Ok is_new.
Proof.
  intros Hw. inversion Hw as [d k cur Hl Hd He|d k cur|d k cur nl|cur|cur|]; subst; try done.
  by destruct k.
Qed.

Lemma reading_returned (s : bool) c r :
  reading s c (PRet r) → r = t_walk ip bt0 0 None ∨ r = upto ip after 0 129 None.
Proof.
  intros Hr. inversion Hr as [d l best Hw Hg He|d l best|d l best|r' Hd]; subst; try done.
  - by destruct (130 - d)%nat.
  - destruct Hd as [->|[_ ->]]; auto.
Qed.

(** The table of the tree that holds the new route. *)
Lemma shared_table h bt F m :
  shared true h bt F → table_of bt0 m → trie_ok bt ∧ table_of bt (<[kp := (p, md)]> m).
Proof.
  intros (Hwf & Hr & Hh & _ & Hs) Ht. split; [split; [|done]|].
  - intros k x Hx [md' Hm]. specialize (Hs k). unfold seen in Hs. rewrite Hx in Hs. simpl in Hs. unfold after in Hs.
    case_decide as Hk; [exists p; split; congruence|]. unfold seen in Hs.
    destruct (t_get bt0 k) as [x0|] eqn:Hx0; simpl in Hs; [|congruence].
    destruct (proj1 ok0 k x0 Hx0) as (p0 & Hp0 & ?); [exists md'; congruence|]. exists p0. split; congruence.
  - intros k. assert (∀ u k, t_get u k ≫= entry = p0 ← (seen u k).1; m0 ← (seen u k).2; Some (p0, m0)) as He.
    { intros u k'. unfold seen. by destruct (t_get u k'). }
    rewrite He, Hs, lookup_insert. unfold after. case_decide as Hk; case_decide as Hk'; try congruence; [done|].
    by rewrite (Ht k), He.
Qed.
End linearize.

(** ** Theorems *)

Section theorems.
Context `{IpNetworkLaws} `{DashMapLaws}.

Lemma path_is_bits ip p d :
  same_family (net_network p) ip = true → path ip 0 d = net_bits p → network_contains_ip p ip = true.
Proof.
  intros Hf Hp. apply network_contains_bits. split; [done|]. rewrite <-Hp.
  assert (d = length (net_bits p)) as -> by (by rewrite <-Hp, length_path).
  rewrite path_take; [apply prefix_take|]. rewrite length_net_bits. etrans; [apply net_len_width|].
  by destruct (net_network p), ip.
Qed.

(** A lookup that runs while another thread inserts a route never panics and
    ends, under every schedule, and its answer is the longest-prefix match on
    the table before the insert or on the table after it, never a mixture of
    the two (with routes of the address's family at the inserted position). *)
Theorem lookup_linearizable h t m F ip p md :
  trie_rep h t m F → same_family (net_network p) ip = true →
  (∀ p0 md0, m !! net_bits p = Some (p0, md0) → same_family (net_network p0) ip = true) →
  let m' := <[net_bits p := (p, md)]> m in
  ∀ sched, ∃ s, interleave (mkThreads (lookup_p t ip) (insert_p t p md) h) sched = Some s ∧
    (∃ sched' r n h', interleave s sched' = Some (mkThreads (PRet r) (PRet n) h')) ∧
    ∀ r n h', s = mkThreads (PRet r) (PRet n) h' →
      n = Ok (is_none (m !! net_bits p)) ∧ (∃ F', trie_rep h' t m' F') ∧
      (r = LPM_lookup (entries m) ip ∨ r = LPM_lookup (entries m') ip).
Proof.
  intros (Hwf & bt0 & Hrep & Hok & Ht) Hf Hf0 m' sched.
  assert (∀ d, path ip 0 d = net_bits p → network_contains_ip p ip = true) as Hcov.
  { intros d Hd. by eapply path_is_bits. }
  assert (∀ d p0, path ip 0 d = net_bits p → (seen bt0 (net_bits p)).1 = Some p0 →
    is_Some (seen bt0 (net_bits p)).2 → network_contains_ip p0 ip = true) as Hold.
  { intros d p0 Hd Hp0 [md0 Hmd0]. unfold seen in Hp0, Hmd0. simpl in *.
    destruct (t_get bt0 (net_bits p)) as [x|] eqn:Hx; [simpl in *|done].
    destruct (proj1 Hok _ _ Hx) as (p1 & Hp1 & Hb); [eauto|]. assert (p1 = p0) as -> by congruence.
    apply (path_is_bits ip p0 d); [|congruence]. eapply (Hf0 p0 md0). rewrite (Ht _), Hx. simpl. unfold entry.
    by rewrite Hp0, Hmd0. }
  assert (both t ip p md bt0 (mkThreads (lookup_p t ip) (insert_p t p md) h)) as Hb.
  { exists false, bt0, F. split_and!; simpl.
    - split_and!; [done|done|apply Hok|done|]. intros k. split; [done|by left].
    - apply (rd_visit t ip p md bt0 false (cells h) 0 (ut_root t) None); [done|by left].
    - by apply (wr_loop t p md bt0 h bt0 F 0). }
  destruct (both_run t ip p md bt0 Hcov Hold Hok _ sched Hb) as (s & Hs & Hbs). exists s. split_and!; [done| |].
  - destruct (both_finish t ip p md bt0 Hcov Hold Hok s Hbs) as (sched' & [[r|] [n|] h'] & Hr & _ & ? & ?); try done.
    by exists sched', r, n, h'.
  - intros r n h' ->. destruct Hbs as (st & bt & F' & Hsh & Hrd & Hwr); simpl in *.
    destruct (writing_returned _ _ _ _ _ _ _ _ _ Hwr) as [-> ->].
    destruct (shared_table t p md bt0 Hok _ _ _ _ Hsh Ht) as [Hok' Ht'].
    destruct Hsh as (Hwf' & Hr' & Hh & _ & Hct). split_and!; [|by exists F'; split; [|exists bt]|].
    + unfold is_new. f_equal. destruct (t_get bt0 (net_bits p)) as [x|] eqn:Hx.
      * rewrite <-is_none_snd, (table_of_meta _ _ _ _ Hok Ht Hx). unfold seen. by rewrite Hx.
      * unfold seen. by rewrite (Ht _), Hx.
    + rewrite <-(t_walk_lpm bt0 m ip), <-(t_walk_lpm bt m' ip) by done.
      destruct (reading_returned _ _ _ _ _ _ _ _ Hrd) as [->| ->]; [by left|right].
      rewrite <-(upto_ext ip (seen bt)) by done. symmetry. apply t_walk_upto, t_get_height. by rewrite length_path.
Qed.

Lemma t_walk_no_entry ip (bt : btree cell) d best :
  (∀ k c, t_get bt k = Some c → entry c = None) → t_walk ip bt d best = best.
Proof.
  revert d best. induction bt as [|c l IHl r IHr]; intros d best Hno; [done|]. cbn [t_walk].
  assert (t_match ip best c = best) as ->.
  { specialize (Hno [] c eq_refl). unfold entry in Hno. unfold t_match.
    destruct (c_prefix c); [simpl in Hno|done]. destruct (c_meta c); [done|]. by destruct (network_contains_ip _ _). }
  destruct (get_bit ip d =? 0).
  - apply IHl. intros k c' Hk. by apply (Hno (false :: k) c').
  - apply IHr. intros k c' Hk. by apply (Hno (true :: k) c').
Qed.

(** What is left of a lookup that has seen no prefix at the root, on a tree
    that holds a route at the root only. *)
Lemma stale_lookup_run h t p md F ip :
  trie_rep h t {[ [] := (p, md) ]} F → alone (next_p ip 129 0 (ut_root t) None) h = Some (None, h).
Proof.
  intros (Hwf & bt & Hr & [_ Hh] & Ht).
  apply (rep_side _ _ _ _ (dir ip 0)) in Hr as (n & t0 & t1 & Fc & Hn & -> & Hc).
  unfold next_p. rewrite alone_bind, (bind_run _ _ _ _ _ (eq_trans (alone_atomic _ _) (child_at_run _ _ _ _ _ Hn))).
  rewrite alone_lpm_walk. simpl in Hh.
  assert (height (if dir ip 0 then t1 else t0) ≤ 129)%nat as Hhc by (destruct (dir ip 0); lia).
  rewrite (lpm_walk_refines ip 129 1 _ _ Fc h None Hhc Hc).
  rewrite t_walk_no_entry; [done|]. intros k c Hk. specialize (Ht (dir ip 0 :: k)).
  rewrite lookup_singleton_ne, t_get_side, Hk in Ht by done. done.
Qed.

Lemma answer_is_Some (m : table) k p md ip :
  m !! k = Some (p, md) → network_contains_ip p ip = true → is_Some (LPM_lookup (entries m) ip).
Proof. intros Hm Hc. apply lpm_is_Some. exists (p, md). split; [|done]. apply elem_of_entries. eauto. Qed.

(** Against two writes a lookup can answer what no table in between would:
    one thread replaces the route [q] by the default route [p], inserting the
    new one before it removes the old one, so that at every moment the address
    has a route; a lookup of the other thread reads the root before and the
    rest of the path after, and answers [None]. *)
Theorem lookup_misses_replacement v p q mdp mdq ip :
  net_prefix p = 0 → 0 < net_prefix q →
  network_contains_ip p ip = true → network_contains_ip q ip = true →
  ∃ t h0 h1 sched h' F, trie_new v empty_heap = Some (t, h0) ∧
    trie_insert t q mdq h0 = Some (Ok true, h1) ∧
    interleave (mkThreads (lookup_p t ip) (_ ← insert_p t p mdp; remove_p t q) h1) sched =
      Some (mkThreads (PRet None) (PRet (Some mdq)) h') ∧
    trie_rep h' t {[net_bits p := (p, mdp)]} F ∧
    Forall (λ m : table, is_Some (LPM_lookup (entries m) ip))
      [ {[net_bits q := (q, mdq)]};
        <[net_bits p := (p, mdp)]> {[net_bits q := (q, mdq)]};
        {[net_bits p := (p, mdp)]} ].
Proof.
  intros Hp Hq Hcp Hcq.
  assert (net_bits p = []) as Hkp.
  { apply nil_length_inv. rewrite length_net_bits. pose proof (net_prefix_len p). lia. }
  assert (net_bits q ≠ []) as Hkq.
  { intros Hk. apply (f_equal length) in Hk. rewrite length_net_bits in Hk. pose proof (net_prefix_len q). simpl in Hk. lia. }
  destruct (trie_new_refines empty_heap v heap_wf_empty) as (t & h0 & F0 & Hnew & _ & Hr0 & _).
  destruct (trie_insert_refines h0 t ∅ F0 q mdq Hr0) as (h1 & F1 & Hins & Hr1 & _).
  rewrite lookup_empty, insert_empty in *. pose proof Hr1 as Hr1'.
  destruct Hr1' as (_ & bt & Hrb & Hok & Ht).
  pose proof Hrb as (n & t0 & t1 & Fc & Hn & -> & _)%(rep_side _ _ _ _ true).
  (* the lookup at the root *)
  assert (alone (match_node_p ip None (ut_root t)) h1 = Some (None, h1)) as Hroot.
  { rewrite alone_match_node, (match_node_run _ _ _ _ _ Hn). do 2 f_equal. specialize (Ht []).
    rewrite lookup_singleton_ne in Ht by done. change (None = entry (pay n)) in Ht. unfold entry in Ht. unfold t_match.
    destruct (c_prefix (pay n)); [|done]. destruct (c_meta (pay n)); [done|]. case_match; reflexivity. }
  (* the replacement *)
  destruct (trie_insert_refines h1 t _ F1 p mdp Hr1) as (h2 & F2 & Hins2 & Hr2 & _).
  destruct (trie_remove_refines h2 t _ F2 q Hr2) as (h3 & F3 & Hrem & Hr3 & _).
  rewrite Hkp in *. rewrite lookup_insert_ne, lookup_singleton_eq in Hrem by done.
  rewrite delete_insert_ne, delete_singleton_eq, insert_empty in Hr3 by done.
  destruct (run_first_bind (match_node_p ip None (ut_root t)) (next_p ip 129 0 (ut_root t))
    (_ ← insert_p t p mdp; remove_p t q) h1 None h1 Hroot) as [n1 Hn1].
  destruct (run_second (next_p ip 129 0 (ut_root t) None) (_ ← insert_p t p mdp; remove_p t q) h1 (Some mdq) h3) as [n2 Hn2].
  { rewrite alone_bind, (bind_run _ _ _ _ _ (eq_trans (alone_insert _ _ _ _) Hins2)), alone_remove. exact Hrem. }
  destruct (run_first (next_p ip 129 0 (ut_root t) None) (PRet (Some mdq)) h3 None h3) as [n3 Hn3].
  { by eapply stale_lookup_run. }
  exists t, h0, h1, (replicate n1 false ++ replicate n2 true ++ replicate n3 false), h3, F3.
  split; [done|]. split; [done|]. split; [|split; [done|]].
  - rewrite interleave_app.
    change (lookup_p t ip) with (match_node_p ip None (ut_root t) ≫= next_p ip 129 0 (ut_root t)). rewrite Hn1. cbn [mbind option_bind]. by rewrite interleave_app, Hn2.
  - repeat apply Forall_cons_2; [| | |done].
    + eapply answer_is_Some; [apply lookup_singleton_eq|done].
    + eapply answer_is_Some; [apply lookup_insert_eq|done].
    + eapply answer_is_Some; [apply lookup_singleton_eq|done].
Qed.
End theorems.
