(* ===== verification/SafeThreads.v ===== *)
(** * Any calls on one tree (engine/src/tree.rs, engine/src/lpm.rs)

    Whatever the other threads call in the meantime (inserts, removals and
    clears included), a call on the shared tree meets no dangling pointer,
    never walks past depth 128 and returns after a bounded number of its own
    accesses.  What it answers is another matter: see Concurrent.v, Readers.v
    and Pool.v. *)

From S2P Require Import Prelude Addr Lpm DashMap Node Heap RouteTree Trie Concurrent Readers.

Local Open Scope Z_scope.

(** ** Programs that cannot fail *)

(** What every thread may rely on: an invariant of the heap, indexed by a world
    that only grows. *)
Section safety.
Context `{IpNetworkCrate} `{DashMapCrate} {W : Type} (le : relation W) `{!PreOrder le} (inv : W → Heap → Prop).
Implicit Types (h : Heap) (D : W).

(** At most [n] accesses to go, each of them defined on every heap of this
    world or a later one, with [Q] of the result. *)
Fixpoint safe {A} (n : nat) D (Q : W → A → Prop) (p : prog A) : Prop :=
  match p with
  | PRet a => Q D a
  | PStep m =>
      match n with
      | O => False
      | S n' => ∀ D' h, le D D' → inv D' h →
          ∃ p' h' D'', m h = Some (p', h') ∧ le D' D'' ∧ inv D'' h' ∧ safe n' D'' Q p'
      end
  end.

Definition keeps {A} (Q : W → A → Prop) : Prop := ∀ D D' a, le D D' → Q D a → Q D' a.

Definition any {A} : W → A → Prop := λ _ _, True.

Lemma any_keeps {A} : keeps (any (A:=A)).
Proof. done. Qed.

Lemma safe_ret {A} n D (Q : W → A → Prop) a : Q D a → safe n D Q (mret a).
Proof. by destruct n. Qed.

Lemma safe_grow {A} n D D' (Q : W → A → Prop) p : keeps Q → le D D' → safe n D Q p → safe n D' Q p.
Proof.
  intros HQ Hsub. destruct p as [a|m], n as [|n]; simpl; [by apply HQ..|done|].
  intros Hp D1 h Hsub1. apply Hp. by etrans.
Qed.

Lemma safe_more {A} n n' D (Q : W → A → Prop) p : (n ≤ n')%nat → safe n D Q p → safe n' D Q p.
Proof.
  revert n' D p. induction n as [|n IH]; intros [|n'] D [a|m] Hle; simpl; try done; [lia|].
  intros Hp D1 h Hsub Hok. destruct (Hp D1 h Hsub Hok) as (p' & h' & D2 & Hm & Hs2 & Hok2 & Hp').
  exists p', h', D2. split_and!; [done..|]. apply IH; [lia|done].
Qed.

Lemma safe_bind {A B} n k D (Q : W → A → Prop) (R : W → B → Prop) p (f : A → prog B) :
  safe n D Q p → (∀ D' a, le D D' → Q D' a → safe k D' R (f a)) → safe (n + k) D R (p ≫= f).
Proof.
  revert D p. induction n as [|n IH]; intros D [a|m] Hp Hf; try done.
  - by apply Hf.
  - apply (safe_more k); [lia|]. by apply Hf.
  - intros D1 h Hsub Hok. destruct (Hp D1 h Hsub Hok) as (p' & h' & D2 & Hm & Hs2 & Hok2 & Hp').
    exists (p' ≫= f), h', D2. split_and!; [by rewrite Hm|done..|]. apply IH; [done|]. intros D3 a Hs3. apply Hf.
    by do 2 (etrans; [eassumption|]).
Qed.

(** One access. *)
Lemma safe_atomic {A B} n D (Q : W → B → Prop) (m : M A) (f : A → prog B) :
  (∀ D' h, le D D' → inv D' h →
    ∃ a h' D'', m h = Some (a, h') ∧ le D' D'' ∧ inv D'' h' ∧ safe n D'' Q (f a)) →
  safe (S n) D Q (atomic m ≫= f).
Proof.
  intros Hm D' h Hsub Hok. destruct (Hm D' h Hsub Hok) as (a & h' & D'' & Hr & Hs & Hok' & Hp).
  exists (f a), h', D''. simpl. by rewrite Hr.
Qed.

Lemma safe_last {A} n D (Q : W → A → Prop) (m : M A) :
  safe (S n) D Q (atomic m ≫= mret) → safe (S n) D Q (atomic m).
Proof.
  intros Hp D' h Hsub Hok. destruct (Hp D' h Hsub Hok) as (p' & h' & D'' & Hm & Hrest). exists p', h', D''.
  split; [|done]. simpl in *. by destruct (m h) as [[a h1]|].
Qed.
End safety.

(** What an engine asks of a tree that it shares between threads: its methods
    as programs, the worlds of its heaps, that no method fails in them, and
    what a lookup may answer when the routes that anyone inserts are [ok]. *)
Class ThreadedTree `{IpNetworkCrate} `{DashMapCrate} (T : Type) `{!RouteTree T} `{!RouteTreeLaws T} := {
  tt_insert : T → IpNetwork → Metadata → prog (Result bool string);
  tt_lookup : T → IpAddr → prog (option Metadata);
  tt_remove : T → IpNetwork → prog (option Metadata);
  tt_contains : T → IpNetwork → prog bool;
  tt_clear : T → prog unit;
  tt_insert_alone t p md h : alone (tt_insert t p md) h = rt_insert t p md h;
  tt_lookup_alone t ip h : alone (tt_lookup t ip) h = rt_lookup t ip h;
  tt_remove_alone t p h : alone (tt_remove t p) h = rt_remove t p h;
  tt_contains_alone t p h : alone (tt_contains t p) h = rt_contains t p h;
  tt_clear_alone t h : alone (tt_clear t) h = rt_clear t h;
  tt_insert_busy t p md : ¬ returned (tt_insert t p md);
  tt_lookup_busy t ip : ¬ returned (tt_lookup t ip);
  tt_remove_busy t p : ¬ returned (tt_remove t p);
  tt_contains_busy t p : ¬ returned (tt_contains t p);
  tt_clear_busy t : ¬ returned (tt_clear t);
  tt_world : Type;
  tt_le : relation tt_world;
  tt_pre :: PreOrder tt_le;
  tt_inv : T → (IpNetwork → Metadata → Prop) → tt_world → Heap → Prop;
  tt_sound : (IpNetwork → Metadata → Prop) → IpAddr → option Metadata → Prop;
  tt_enter h t m F (ok : IpNetwork → Metadata → Prop) :
    rt_rep h t m F → (∀ p md, m !! rt_key p = Some (p, md) → ok p md) → ∃ w, tt_inv t ok w h;
  tt_insert_steps : IpNetwork → nat;
  tt_find_steps : IpNetwork → nat;
  tt_lookup_steps : nat;
  tt_clear_steps : nat;
  tt_insert_safe t ok p md w h : ok p md → tt_inv t ok w h →
    safe tt_le (tt_inv t ok) (tt_insert_steps p) w any (tt_insert t p md);
  tt_lookup_safe t ok ip w h : tt_inv t ok w h →
    safe tt_le (tt_inv t ok) tt_lookup_steps w (λ _, tt_sound ok ip) (tt_lookup t ip);
  tt_remove_safe t ok p w h : tt_inv t ok w h → safe tt_le (tt_inv t ok) (tt_find_steps p) w any (tt_remove t p);
  tt_contains_safe t ok p w h : tt_inv t ok w h → safe tt_le (tt_inv t ok) (tt_find_steps p) w any (tt_contains t p);
  tt_clear_safe t ok w h : tt_inv t ok w h → safe tt_le (tt_inv t ok) tt_clear_steps w any (tt_clear t);
}.

(** ** The uncompressed tree: positions *)

Section places.
Context `{IpNetworkLaws} `{DashMapLaws}.
Variables (root : loc) (ok : IpNetwork → Metadata → Prop).
Implicit Types (h : Heap) (l : loc) (D : gmap loc (list bool)) (k : list bool).

(** The metadata at a position comes from a route of that position. *)
Definition meta_ok k (md : option Metadata) : Prop := ∀ x, md = Some x → ∃ p, ok p x ∧ net_bits p = k.

(** Every node has the position it was made for; its children, whoever links
    them and however often, are one bit further, and its metadata belongs
    there.  Nodes that a race or a clear has cut off keep their position. *)
Record placed D h : Prop := {
  placed_wf : heap_wf h;
  placed_root : D !! root = Some [];
  placed_cell l k : D !! l = Some k → (length k ≤ 128)%nat ∧
    ∃ n, cells h !! l = Some n ∧ (∀ b l', side b n = Some l' → D !! l' = Some (k ++ [b])) ∧ meta_ok k (c_meta (pay n)) }.

Lemma placed_write D h l (n n' : NodeWrapper) k :
  placed D h → D !! l = Some k → cells h !! l = Some n →
  (∀ b l', side b n' = Some l' → D !! l' = Some (k ++ [b])) → meta_ok k (c_meta (pay n')) →
  placed D (mkHeap (<[l := n']> (cells h)) (next h)).
Proof.
  intros [Hwf Hroot Hc] Hl Hn Hs Hm. split; [by apply heap_wf_write; [|rewrite Hn]|done|].
  intros l1 k1 Hl1. destruct (Hc l1 k1 Hl1) as (Hd & n1 & Hn1 & Hs1 & Hm1). split; [done|]. cbn [cells].
  destruct (decide (l1 = l)) as [->|Hne]; [rewrite lookup_insert_eq|rewrite lookup_insert_ne by done].
  - rewrite Hl in Hl1. injection Hl1 as <-. by exists n'.
  - by exists n1.
Qed.

Lemma placed_alloc D h b k :
  placed D h → (length k ≤ 128)%nat →
  D ⊆ <[next h := k]> D ∧
  placed (<[next h := k]> D) (mkHeap (<[next h := build b]> (cells h)) (Pos.succ (next h))).
Proof.
  intros [Hwf Hroot Hc] Hd. destruct (build_fields b) as (HL & HR & HP).
  assert (D !! next h = None) as Hfr.
  { destruct (D !! next h) as [d1|] eqn:Hx; [|done]. destruct (Hc _ _ Hx) as (_ & n1 & Hn1 & _).
    by rewrite (heap_wf_fresh h Hwf) in Hn1. }
  assert (D ⊆ <[next h := k]> D) as Hsub by by apply insert_subseteq.
  split; [done|]. split; [by apply heap_wf_alloc|by eapply lookup_weaken|].
  intros l1 k1 [[<- <-]|[Hne Hl1]]%lookup_insert_Some; cbn [cells].
  - split; [done|]. exists (build b). rewrite lookup_insert_eq, HP. split_and!; [done| |done].
    intros [] l'; unfold side; congruence.
  - destruct (Hc l1 k1 Hl1) as (Hd1 & n1 & Hn1 & Hs1 & Hm1). split; [done|]. exists n1. rewrite lookup_insert_ne by done.
    split_and!; [done| |done]. intros b' l' Hl'. eapply lookup_weaken; [by eapply Hs1|done].
Qed.

(** The programs that cannot fail on placed nodes. *)
Abbreviation tsafe := (safe (⊆@{gmap loc (list bool)}) placed).

(** A getter of a placed node. *)
Lemma safe_get {A B} n D (Q : gmap loc (list bool) → B → Prop) (g : NodeWrapper → A) (f : A → prog B) l k :
  D !! l = Some k → (∀ D' a, D ⊆ D' → tsafe n D' Q (f a)) → tsafe (S n) D Q (atomic (get g l) ≫= f).
Proof.
  intros Hl Hf. apply safe_atomic. intros D' h Hsub Hok. pose proof (lookup_weaken _ _ _ _ Hl Hsub) as Hl'.
  destruct (placed_cell _ _ Hok l k Hl') as (_ & x & Hx & _). exists (g x), h, D'.
  split_and!; [by apply get_run|done|done|by apply Hf].
Qed.

Lemma safe_get_meta {B} n D (Q : gmap loc (list bool) → B → Prop) (f : option Metadata → prog B) l k :
  D !! l = Some k → (∀ D' md, D ⊆ D' → meta_ok k md → tsafe n D' Q (f md)) →
  tsafe (S n) D Q (atomic (get node_metadata l) ≫= f).
Proof.
  intros Hl Hf. apply safe_atomic. intros D' h Hsub Hok. pose proof (lookup_weaken _ _ _ _ Hl Hsub) as Hl'.
  destruct (placed_cell _ _ Hok l k Hl') as (_ & x & Hx & _ & Hm). exists (node_metadata x), h, D'.
  split_and!; [by apply get_run|done|done|by apply Hf].
Qed.

Lemma safe_child {B} n D (Q : gmap loc (list bool) → B → Prop) (f : option loc → prog B) ip i l k :
  D !! l = Some k →
  (∀ D' o, D ⊆ D' → (∀ l', o = Some l' → D' !! l' = Some (k ++ [dir ip i])) → tsafe n D' Q (f o)) →
  tsafe (S n) D Q (atomic (child_at (get_bit ip i) l) ≫= f).
Proof.
  intros Hl Hf. apply safe_atomic. intros D' h Hsub Hok. pose proof (lookup_weaken _ _ _ _ Hl Hsub) as Hl'.
  destruct (placed_cell _ _ Hok l k Hl') as (_ & x & Hx & Hs & _). exists (side (dir ip i) x), h, D'.
  split_and!; [by apply child_at_run|done|done|]. apply Hf; [done|]. intros l'. apply Hs.
Qed.

(** A setter that leaves the pointers alone or sets them one bit further, and
    leaves the metadata alone or sets it to what belongs there. *)
Lemma safe_set {B} n D (Q : gmap loc (list bool) → B → Prop) (g : NodeWrapper → NodeWrapper) (f : unit → prog B) l k :
  D !! l = Some k →
  (∀ x b l', side b (g x) = Some l' → side b x = Some l' ∨ D !! l' = Some (k ++ [b])) →
  (∀ x, c_meta (pay (g x)) = c_meta (pay x) ∨ meta_ok k (c_meta (pay (g x)))) →
  (∀ D', D ⊆ D' → tsafe n D' Q (f tt)) → tsafe (S n) D Q (atomic (modify g l) ≫= f).
Proof.
  intros Hl Hg Hmd Hf. apply safe_atomic. intros D' h Hsub Hok. pose proof (lookup_weaken _ _ _ _ Hl Hsub) as Hl'.
  destruct (placed_cell _ _ Hok l k Hl') as (_ & x & Hx & Hs & Hm). eexists tt, _, D'.
  split_and!; [by apply modify_run|done| |by apply Hf]. eapply placed_write; [done|done|done| |].
  - intros b l1 [Hl1|Hl1]%Hg; [by eapply Hs|by eapply lookup_weaken].
  - destruct (Hmd x) as [->|]; done.
Qed.

(** ** The operations *)

Definition at_place k D l : Prop := D !! l = Some k.

Lemma at_place_keeps k : keeps (⊆) (at_place k).
Proof. intros D D' l Hsub Hl. by eapply lookup_weaken. Qed.

Lemma safe_insert_loop b ip d n cur D :
  (d + n ≤ 128)%nat → at_place (path ip 0 d) D cur →
  tsafe (3 * n) D (at_place (path ip 0 (d + n))) (insert_loop_p b ip d n cur).
Proof.
  revert d cur D. induction n as [|n IH]; intros d cur D Hn Hc; [by rewrite Nat.add_0_r|].
  cbn [insert_loop_p]. apply (safe_more _ _ (S (2 + 3 * n))); [lia|]. replace (d + S n)%nat with (S d + n)%nat by lia.
  eapply safe_child; [exact Hc|]. rewrite <-path_snoc. intros D1 [l'|] Hs1 Hl'.
  { eapply safe_more; [|apply IH; [lia|by apply Hl']]. lia. }
  apply safe_atomic. intros D2 h Hs2 Hok.
  destruct (placed_alloc D2 h b (path ip 0 (S d)) Hok ltac:(rewrite length_path; lia)) as [Hs3 Hok'].
  eexists _, _, _. split_and!; [reflexivity|exact Hs3|exact Hok'|].
  assert (<[next h := path ip 0 (S d)]> D2 !! cur = Some (path ip 0 d)) as Hcur.
  { eapply lookup_weaken; [|exact Hs3]. eapply lookup_weaken; [|exact Hs2]. by eapply lookup_weaken. }
  unfold link_p. rewrite link_eq. eapply safe_set; [exact Hcur| | |].
  - intros x b' l' Hb'. destruct (decide (b' = dir ip d)) as [->|Hne].
    + rewrite side_set_side in Hb'. injection Hb' as <-. right. by rewrite lookup_insert_eq, path_snoc.
    + left. assert (b' = negb (dir ip d)) as -> by (by destruct b', (dir ip d)).
      by rewrite (proj1 (set_side_fields _ _ _)) in Hb'.
  - intros x. left. by rewrite (proj2 (set_side_fields _ _ _)).
  - intros D3 Hs4. apply IH; [lia|]. eapply lookup_weaken; [|exact Hs4]. by rewrite lookup_insert_eq.
Qed.

Lemma prefix_depth p : (Z.to_nat (net_prefix p) ≤ 128)%nat.
Proof. pose proof (net_len_bound p). pose proof (net_prefix_len p). lia. Qed.

(** The most accesses of a call. *)
Definition insert_accesses (p : IpNetwork) : nat := 3 * Z.to_nat (net_prefix p) + 3.
Definition find_accesses (p : IpNetwork) : nat := Z.to_nat (net_prefix p) + 2.
Definition lookup_accesses : nat := 387.

Lemma safe_insert t p md D :
  ok p md → at_place [] D (ut_root t) → tsafe (insert_accesses p) D any (insert_p t p md).
Proof.
  intros Hp Hr. apply (safe_bind _ _ _ 3 _ (at_place (net_bits p))).
  { rewrite <-path_net. apply (safe_insert_loop _ _ 0); [apply prefix_depth|done]. }
  intros D1 cur Hs Hc. unfold store_p. eapply safe_get; [exact Hc|]. intros D2 old Hs2.
  pose proof (at_place_keeps _ _ _ _ Hs2 Hc) as Hc2. eapply safe_set; [exact Hc2| | |].
  { intros x b l'. destruct (set_prefix_fields x p) as (HL & HR & _). unfold side. destruct b; rewrite ?HL, ?HR; auto. }
  { intros x. left. by destruct (set_prefix_fields x p) as (_ & _ & ->). }
  intros D3 Hs3. pose proof (at_place_keeps _ _ _ _ Hs3 Hc2) as Hc3. eapply safe_set; [exact Hc3| | |done].
  { intros x b l'. destruct (set_metadata_fields x md) as (HL & HR & _). unfold side. destruct b; rewrite ?HL, ?HR; auto. }
  intros x. right. destruct (set_metadata_fields x md) as (_ & _ & ->). intros y [= <-]. by exists p.
Qed.

Lemma safe_find_loop ip d n cur D :
  at_place (path ip 0 d) D cur →
  tsafe n D (λ D' o, ∀ l, o = Some l → at_place (path ip 0 (d + n)) D' l) (find_loop_p ip d n cur).
Proof.
  revert d cur D. induction n as [|n IH]; intros d cur D Hc.
  { intros l [= <-]. by rewrite Nat.add_0_r. }
  cbn [find_loop_p]. replace (d + S n)%nat with (S d + n)%nat by lia.
  eapply safe_child; [exact Hc|]. rewrite <-path_snoc.
  intros D1 [l'|] Hs Hl'; [by apply IH, Hl'|]. by apply (safe_more _ _ 0); [lia|].
Qed.

Lemma safe_remove t p D : at_place [] D (ut_root t) → tsafe (find_accesses p) D any (remove_p t p).
Proof.
  intros Hr. eapply (safe_bind _ _ _ 2); [by apply (safe_find_loop _ 0)|]. intros D1 [l|] Hs Hl; [|done].
  specialize (Hl l eq_refl). eapply safe_get; [exact Hl|]. intros D2 [md|] Hs2; [|done]. simpl.
  eapply (safe_set 0); [by eapply at_place_keeps| | |done].
  - intros x b l'. destruct (clear_metadata_fields x) as (HL & HR & _). unfold side. destruct b; rewrite ?HL, ?HR; auto.
  - intros x. right. by destruct (clear_metadata_fields x) as (_ & _ & ->).
Qed.

Lemma safe_contains t p D : at_place [] D (ut_root t) → tsafe (find_accesses p) D any (contains_p t p).
Proof.
  intros Hr. eapply (safe_bind _ _ _ 2); [by apply (safe_find_loop _ 0)|]. intros D1 [l|] Hs Hl; [|done].
  by eapply (safe_get 1); [exact (Hl l eq_refl)|].
Qed.

Lemma safe_clear t D : at_place [] D (ut_root t) → tsafe 2 D any (clear_p t).
Proof.
  intros Hr. unfold clear_p. eapply safe_set; [exact Hr| | |].
  { intros x b l'. destruct (set_left_fields x None) as (HL & HR & _). unfold side. destruct b; rewrite ?HL, ?HR; naive_solver. }
  { intros x. left. by destruct (set_left_fields x None) as (_ & _ & ->). }
  intros D1 Hs. apply safe_last. eapply (safe_set 0); [by eapply at_place_keeps| | |done].
  - intros x b l'. destruct (set_right_fields x None) as (HL & HR & _). unfold side. destruct b; rewrite ?HL, ?HR; naive_solver.
  - intros x. left. by destruct (set_right_fields x None) as (_ & _ & ->).
Qed.

(** What a lookup may answer: the metadata of a route on the path of the address. *)
Definition path_sound ip (r : option Metadata) : Prop :=
  ∀ md, r = Some md → ∃ p d, ok p md ∧ net_bits p = path ip 0 d.

(** For a route of the family of the address that is to contain it. *)
Lemma path_sound_contains ip r :
  path_sound ip r →
  ∀ md, r = Some md → ∃ p, ok p md ∧ (same_family (net_network p) ip = true → network_contains_ip p ip = true).
Proof. intros Hr md (p & d & Hp & Hd)%Hr. exists p. split; [done|]. intros Hf. by apply (path_is_bits ip p d Hf). Qed.

Lemma safe_match_node ip best l d D :
  path_sound ip best → at_place (path ip 0 d) D l → tsafe 2 D (λ _, path_sound ip) (match_node_p ip best l).
Proof.
  intros Hb Hl. eapply safe_get; [exact Hl|]. intros D1 [p|] Hs; [|done]. destruct (network_contains_ip p ip); [|done].
  eapply (safe_get_meta 0); [by eapply at_place_keeps|]. intros D2 md Hs2 Hmd. simpl. destruct md as [x|]; [|done].
  intros y [= <-]. destruct (Hmd x eq_refl) as (q & Hq & Hk). eauto.
Qed.

Lemma safe_walk ip n d cur best D h :
  placed D h → (129 - d ≤ n)%nat → path_sound ip best → (∀ l, cur = Some l → at_place (path ip 0 d) D l) →
  tsafe (3 * n) D (λ _, path_sound ip) (lpm_walk_p (S n) ip d cur best).
Proof.
  revert d cur best D h. induction n as [|n IH]; intros d [l|] best D h Hok Hn Hb Hc; try done.
  - destruct (placed_cell _ _ Hok l _ (Hc l eq_refl)) as [Hd _]. rewrite length_path in Hd. lia.
  - pose proof (Hc l eq_refl) as Hl. cbn [lpm_walk_p]. replace (3 * S n)%nat with (2 + S (3 * n))%nat by lia.
    eapply (safe_bind _ _ 2 (S (3 * n))); [by eapply safe_match_node|]. intros D1 best' Hs1 Hb'.
    intros D2 h2 Hs2 Hok2.
    assert (D2 !! l = Some (path ip 0 d)) as Hl2 by (eapply lookup_weaken; [|exact Hs2]; by eapply lookup_weaken).
    destruct (placed_cell _ _ Hok2 l _ Hl2) as (_ & x & Hx & Hside & _).
    eexists _, h2, D2. split_and!; [by cbn; rewrite (child_at_run _ _ _ _ _ Hx)|done|done|].
    eapply IH; [exact Hok2|lia|done|]. intros l' Hl'. unfold at_place. rewrite path_snoc. by eapply Hside.
Qed.

Lemma safe_lookup t ip D h :
  ut_root t = root → placed D h → tsafe lookup_accesses D (λ _, path_sound ip) (lookup_p t ip).
Proof.
  intros Ht Hok. apply (safe_walk ip 129 0 (Some (ut_root t)) None D h Hok); [lia|done|]. intros l [= <-].
  rewrite Ht. by apply placed_root in Hok.
Qed.
End places.

(** ** The positions of a tree that a single thread has built *)

Section entering.
Context `{IpNetworkLaws} `{DashMapLaws}.
Implicit Types (D : gmap loc (list bool)) (k : list bool) (h : Heap).

Lemma rep_places (cl : gmap loc NodeWrapper) bt : ∀ l F k,
  rep cl bt (Some l) F → (length k + height bt ≤ 129)%nat →
  ∃ D, dom D = F ∧ D !! l = Some k ∧ ∀ l' k', D !! l' = Some k' → (length k' ≤ 128)%nat ∧
    ∃ n k1, cl !! l' = Some n ∧ k' = k ++ k1 ∧ t_get bt k1 = Some (pay n) ∧
      ∀ b l'', side b n = Some l'' → D !! l'' = Some (k' ++ [b]).
Proof.
  induction bt as [|x t0 IH0 t1 IH1]; intros l F k Hr Hd; [by inversion Hr|].
  apply rep_some in Hr as (n & t0' & t1' & F0 & F1 & Hl & [= -> <- <-] & Hr0 & Hr1 & Hn0 & Hn1 & Hdis & ->).
  cbn [height] in Hd.
  set (P := λ b (tc : btree cell) D, ∀ l' k', D !! l' = Some k' → (length k' ≤ 128)%nat ∧
    ∃ m k1, cl !! l' = Some m ∧ k' = (k ++ [b]) ++ k1 ∧ t_get tc k1 = Some (pay m) ∧
      ∀ b l'', side b m = Some l'' → D !! l'' = Some (k' ++ [b])).
  assert (∃ D0, dom D0 = F0 ∧ (∀ l', side false n = Some l' → D0 !! l' = Some (k ++ [false])) ∧ P false t0 D0)
    as (D0 & Hdom0 & Hc0 & Hall0).
  { change (node_left n) with (side false n) in Hr0. destruct (side false n) as [l'|].
    - destruct (IH0 l' F0 (k ++ [false]) Hr0) as (D & Hdom & Hl' & Hall); [rewrite length_app; simpl; lia|].
      exists D. split_and!; [done| |done]. by intros ? [= <-].
    - apply rep_none in Hr0 as [_ ->]. exists ∅. split_and!; [by rewrite dom_empty_L|done|]. intros l' k'. by rewrite lookup_empty. }
  assert (∃ D1, dom D1 = F1 ∧ (∀ l', side true n = Some l' → D1 !! l' = Some (k ++ [true])) ∧ P true t1 D1)
    as (D1 & Hdom1 & Hc1 & Hall1).
  { change (node_right n) with (side true n) in Hr1. destruct (side true n) as [l'|].
    - destruct (IH1 l' F1 (k ++ [true]) Hr1) as (D & Hdom & Hl' & Hall); [rewrite length_app; simpl; lia|].
      exists D. split_and!; [done| |done]. by intros ? [= <-].
    - apply rep_none in Hr1 as [_ ->]. exists ∅. split_and!; [by rewrite dom_empty_L|done|]. intros l' k'. by rewrite lookup_empty. }
  clear IH0 IH1.
  assert (D0 ##ₘ D1) as Hd01 by (apply map_disjoint_dom; by rewrite Hdom0, Hdom1).
  assert ((D0 ∪ D1) !! l = None) as Hfresh.
  { apply not_elem_of_dom. rewrite dom_union_L, Hdom0, Hdom1. set_solver. }
  assert (∀ l' k', D0 !! l' = Some k' ∨ D1 !! l' = Some k' → <[l := k]> (D0 ∪ D1) !! l' = Some k') as Hin.
  { intros l' k' Hor. rewrite lookup_insert_ne.
    - destruct Hor; [by apply lookup_union_Some_l|by apply lookup_union_Some_r].
    - intros <-. apply lookup_union_None in Hfresh as [? ?]. destruct Hor; congruence. }
  exists (<[l := k]> (D0 ∪ D1)). split_and!.
  - rewrite dom_insert_L, dom_union_L, Hdom0, Hdom1. set_solver.
  - by rewrite lookup_insert_eq.
  - intros l' k' [[<- <-]|[Hne Hl']]%lookup_insert_Some.
    + split; [lia|]. exists n, []. split_and!; [done|by rewrite app_nil_r|done|]. intros [] l'' Hs; apply Hin; auto.
    + apply lookup_union_Some in Hl' as [Hl'|Hl'];
        [destruct (Hall0 _ _ Hl') as (Hle & m & k1 & Hm & -> & Hg & Hs)|
         destruct (Hall1 _ _ Hl') as (Hle & m & k1 & Hm & -> & Hg & Hs)|done]; (split; [done|]).
      * exists m, (false :: k1). split_and!; [done|by rewrite <-app_assoc|done|eauto].
      * exists m, (true :: k1). split_and!; [done|by rewrite <-app_assoc|done|eauto].
Qed.

Lemma trie_rep_placed h t m F (ok : IpNetwork → Metadata → Prop) :
  trie_rep h t m F → (∀ p md, m !! net_bits p = Some (p, md) → ok p md) → ∃ D, placed (ut_root t) ok D h.
Proof.
  intros (Hwf & bt & Hr & Hok & Ht) Hm. destruct (rep_places _ _ _ _ [] Hr (proj2 Hok)) as (D & _ & Hroot & Hall).
  exists D. split; [done|done|]. intros l k Hl. destruct (Hall l k Hl) as (Hk & n & k1 & Hn & -> & Hg & Hs).
  split; [done|]. exists n. split_and!; [done|done|]. intros md Hmd.
  destruct (proj1 Hok k1 (pay n) Hg) as (p & Hp & Hb); [by rewrite Hmd|]. exists p. split; [|done]. apply Hm.
  rewrite (Ht _), Hb, Hg. simpl. unfold entry. by rewrite Hp, Hmd.
Qed.

#[export] Program Instance trie_threaded : ThreadedTree UncompressedTree := {|
  tt_insert := insert_p; tt_lookup := lookup_p; tt_remove := remove_p; tt_contains := contains_p; tt_clear := clear_p;
  tt_insert_alone := alone_insert; tt_lookup_alone := alone_lookup; tt_remove_alone := alone_remove;
  tt_contains_alone := alone_contains; tt_clear_alone := alone_clear;
  tt_world := gmap loc (list bool); tt_le := (⊆); tt_inv t := placed (ut_root t); tt_sound := path_sound;
  tt_enter := trie_rep_placed;
  tt_insert_steps := insert_accesses; tt_find_steps := find_accesses; tt_lookup_steps := lookup_accesses; tt_clear_steps := 2;
|}.
Next Obligation. intros t p md. unfold insert_p. destruct (Z.to_nat (net_prefix p)); by intros []. Qed.
Next Obligation. by intros t ip []. Qed.
Next Obligation. intros t p. unfold remove_p. destruct (Z.to_nat (net_prefix p)); by intros []. Qed.
Next Obligation. intros t p. unfold contains_p. destruct (Z.to_nat (net_prefix p)); by intros []. Qed.
Next Obligation. by intros t []. Qed.
Next Obligation. intros t ok p md D h Hp Hok. exact (safe_insert _ _ _ _ _ _ Hp (placed_root _ _ _ _ Hok)). Qed.
Next Obligation. intros t ok ip D h Hok. exact (safe_lookup _ _ _ _ _ _ eq_refl Hok). Qed.
Next Obligation. intros t ok p D h Hok. exact (safe_remove _ _ _ _ _ (placed_root _ _ _ _ Hok)). Qed.
Next Obligation. intros t ok p D h Hok. exact (safe_contains _ _ _ _ _ (placed_root _ _ _ _ Hok)). Qed.
Next Obligation. intros t ok D h Hok. exact (safe_clear _ _ _ _ (placed_root _ _ _ _ Hok)). Qed.
End entering.
