(* ===== verification/Pool.v ===== *)
(** * Any number of readers beside one writer (engine/src/tree.rs, engine/src/lpm.rs)

    One thread inserts a list of routes, one call after the other; any number
    of threads look addresses up in the meantime, each call a program of single
    accesses to the shared nodes.  The lookups are linearizable and wait-free:
    each answers the longest-prefix match on the table at some moment between
    its first and its last access, after at most 387 accesses of its own. *)

From Stdlib Require Import Sorting.Sorted.
From S2P Require Import Prelude Addr Lpm DashMap Node Heap RouteTree Trie Concurrent Readers.

Local Open Scope Z_scope.

(** ** The threads *)

Inductive who := Writer | Reader (i : nat).

#[export] Instance who_eq_dec : EqDecision who.
Proof. solve_decision. Defined.

Section pool.
Context `{IpNetworkCrate} `{DashMapCrate}.

(** A lookup that has returned: the address, the number of inserts that were
    through when it was called and when it returned, and the answer. *)
Record answered := mkAnswered { an_ip : IpAddr; an_from : nat; an_to : nat; an_answer : option Metadata }.

Record reader := mkReader {
  rd_todo : list IpAddr;
  rd_call : option (IpAddr * nat * prog (option Metadata));
  rd_log : list answered }.

Record pool := mkPool {
  po_readers : list reader;
  po_call : option (prog (Result bool string));
  po_todo : list (IpNetwork * Metadata);
  po_done : list (Result bool string);
  po_heap : Heap }.

(** A reader calls [lookup] on its next address, or makes one access of the
    call it is in; the call returns with its last access. *)
Definition reader_step (t : UncompressedTree) (now : nat) (r : reader) (h : Heap) : option (reader * Heap) :=
  match rd_call r with
  | None =>
      match rd_todo r with
      | [] => Some (r, h)
      | ip :: todo => Some (mkReader todo (Some (ip, now, lookup_p t ip)) (rd_log r), h)
      end
  | Some (ip, from, p) =>
      '(p', h') ← run1 p h;
      Some (match p' with
            | PRet a => mkReader (rd_todo r) None (rd_log r ++ [mkAnswered ip from now a])
            | PStep _ => mkReader (rd_todo r) (Some (ip, from, p')) (rd_log r)
            end, h')
  end.

Definition writer_step (t : UncompressedTree) (s : pool) : option pool :=
  match po_call s with
  | None =>
      match po_todo s with
      | [] => Some s
      | (p, md) :: todo => Some (mkPool (po_readers s) (Some (insert_p t p md)) todo (po_done s) (po_heap s))
      end
  | Some p =>
      '(p', h') ← run1 p (po_heap s);
      Some (match p' with
            | PRet a => mkPool (po_readers s) None (po_todo s) (po_done s ++ [a]) h'
            | PStep _ => mkPool (po_readers s) (Some p') (po_todo s) (po_done s) h'
            end)
  end.

Definition pool_step (t : UncompressedTree) (s : pool) (w : who) : option pool :=
  match w with
  | Writer => writer_step t s
  | Reader i =>
      match po_readers s !! i with
      | None => Some s
      | Some r =>
          '(r', h') ← reader_step t (length (po_done s)) r (po_heap s);
          Some (mkPool (<[i := r']> (po_readers s)) (po_call s) (po_todo s) (po_done s) h')
      end
  end.

Fixpoint run_pool (t : UncompressedTree) (s : pool) (sched : list who) : option pool :=
  match sched with
  | [] => Some s
  | w :: sched => s' ← pool_step t s w; run_pool t s' sched
  end.

(** All threads idle, with the routes to insert and the addresses to look up. *)
Definition pool_start (rts : list (IpNetwork * Metadata)) (asks : list (list IpAddr)) (h : Heap) : pool :=
  mkPool ((λ l, mkReader l None []) <$> asks) None rts [] h.

(** The steps of reader [i] in a schedule. *)
Definition turns (i : nat) (sched : list who) : nat :=
  length (filter (λ w, w = Reader i) sched).
End pool.

(** ** The tables of a run *)

Section tables.
Context `{IpNetworkLaws} `{DashMapLaws}.
Variables (m0 : table) (rts : list (IpNetwork * Metadata)).
Implicit Types (m : table) (k : list bool) (ip : IpAddr) (p : IpNetwork) (md : Metadata) (bt : btree cell).

Definition put m (r : IpNetwork * Metadata) : table := <[net_bits r.1 := r]> m.

(** The table after the first [j] inserts. *)
Definition table_after (j : nat) : table := foldl put m0 (take j rts).

(** The routes of the run. *)
Definition listed p : Prop := (∃ md, m0 !! net_bits p = Some (p, md)) ∨ (∃ md, (p, md) ∈ rts).

(** The routes on the path of the address are of its family. *)
Definition fits ip : Prop :=
  ∀ p, listed p → net_bits p = path ip 0 (length (net_bits p)) → same_family (net_network p) ip = true.

Lemma table_after_S j r : rts !! j = Some r → table_after (S j) = put (table_after j) r.
Proof. intros Hr. unfold table_after. by rewrite (take_S_r _ _ _ Hr), foldl_snoc. Qed.

Lemma table_after_end j : (length rts ≤ j)%nat → table_after (S j) = table_after j.
Proof. intros Hj. unfold table_after. by rewrite !take_ge by lia. Qed.

(** No insert takes a position out of the table. *)
Lemma table_after_mono i j k : (i ≤ j)%nat → table_after j !! k = None → table_after i !! k = None.
Proof.
  induction 1 as [|j Hij IH]; [done|]. intros Hj. apply IH. destruct (rts !! j) as [r|] eqn:Hr.
  - rewrite (table_after_S _ _ Hr) in Hj. unfold put in Hj. by apply lookup_insert_None in Hj as [].
  - by rewrite table_after_end in Hj by by apply lookup_ge_None.
Qed.

Variable bt0 : btree cell.
Hypothesis ok0 : trie_ok bt0.
Hypothesis table0 : table_of bt0 m0.

(** Every table of the run is the table of a tree. *)
Lemma table_after_tree j : ∃ bt, trie_ok bt ∧ table_of bt (table_after j).
Proof.
  induction j as [|j (bt & Hok & Ht)]; [by exists bt0|]. destruct (rts !! j) as [[p md]|] eqn:Hr.
  - rewrite (table_after_S _ _ Hr). exists (t_update (mkCell None None None) (λ c, mkCell (Some md) (Some p) (c_edge c)) bt (net_bits p)).
    split; [apply trie_ok_update; [done| |done|simpl; eauto]|by apply table_of_update].
    rewrite length_net_bits. apply net_len_bound.
  - rewrite table_after_end by by apply lookup_ge_None. by exists bt.
Qed.

Lemma table_of_entry bt m k p md :
  trie_ok bt → table_of bt m → m !! k = Some (p, md) → net_bits p = k.
Proof.
  intros [Hk _] Ht Hm. rewrite (Ht k) in Hm. apply bind_Some in Hm as (c & Hc & He). unfold entry in He.
  destruct (c_prefix c) as [p'|] eqn:Hp; [|done]. destruct (c_meta c) as [md'|] eqn:Hmd; [|done].
  destruct (Hk k c Hc) as (p1 & Hp1 & <-); [by rewrite Hmd|]. simpl in He. congruence.
Qed.

Lemma table_after_entry j k p md : table_after j !! k = Some (p, md) → net_bits p = k ∧ listed p.
Proof.
  intros Hj. split; [destruct (table_after_tree j) as (bt & Hok & Ht); by eapply table_of_entry|].
  revert Hj. induction j as [|j IH].
  - intros Hk. left. exists md. by rewrite (table_of_entry _ _ _ _ _ ok0 table0 Hk).
  - destruct (rts !! j) as [r|] eqn:Hr; [|by rewrite table_after_end by by apply lookup_ge_None].
    rewrite (table_after_S _ _ Hr). unfold put. intros [[_ ->]|[_ Hk]]%lookup_insert_Some; [|by apply IH].
    right. exists md. by eapply list_elem_of_lookup_2.
Qed.

(** An entry on the path of the address contains it. *)
Lemma on_path_contains ip j d p md :
  fits ip → table_after j !! path ip 0 d = Some (p, md) → network_contains_ip p ip = true.
Proof.
  intros Hf [Hb Hl]%table_after_entry. apply (path_is_bits ip p d); [|done]. apply Hf; [done|].
  by rewrite Hb, length_path.
Qed.

(** What the table has at a position. *)
Definition held m k : option IpNetwork * option Metadata := (fst <$> m !! k, snd <$> m !! k).

Lemma match_held_Some ip j d b p md :
  fits ip → table_after j !! path ip 0 d = Some (p, md) →
  match_seen ip b (held (table_after j) (path ip 0 d)) = Some md.
Proof. intros Hf Hj. unfold match_seen, held. rewrite Hj. simpl. by rewrite (on_path_contains _ _ _ _ _ Hf Hj). Qed.

Lemma match_held_None ip m k b : m !! k = None → match_seen ip b (held m k) = b.
Proof. intros Hk. unfold match_seen, held. by rewrite Hk. Qed.

(** A tree and its table give the same answer at every position. *)
Lemma match_seen_held ip bt m k b :
  trie_ok bt → table_of bt m → match_seen ip b (seen bt k) = match_seen ip b (held m k).
Proof.
  intros [Hok _] Ht. unfold match_seen, held, seen. rewrite (Ht k). destruct (t_get bt k) as [c|] eqn:Hc; [|done].
  simpl. unfold entry. destruct (c_prefix c) as [p|]; [|done]. simpl.
  destruct (c_meta c); simpl; [done|]. by destruct (network_contains_ip p ip).
Qed.

Lemma upto_match ip ct ct' d n b :
  (∀ b k, match_seen ip b (ct k) = match_seen ip b (ct' k)) → upto ip ct d n b = upto ip ct' d n b.
Proof. intros He. induction n as [|n IH]; [done|]. by rewrite !upto_S, IH, He. Qed.

(** Past the last entry on the path nothing changes. *)
Lemma upto_past ip m d n :
  (d ≤ n)%nat → (∀ d', (d ≤ d')%nat → m !! path ip 0 d' = None) →
  upto ip (held m) 0 n None = upto ip (held m) 0 d None.
Proof.
  intros Hn Hm. induction Hn as [|n Hn IH]; [done|]. rewrite upto_S, IH. apply match_held_None. by apply Hm.
Qed.

Lemma upto_lpm ip j d :
  (d ≤ 129)%nat → (∀ d', (d ≤ d')%nat → table_after j !! path ip 0 d' = None) →
  upto ip (held (table_after j)) 0 d None = LPM_lookup (entries (table_after j)) ip.
Proof.
  intros Hd Hm. rewrite <-(upto_past ip _ d 129) by done. destruct (table_after_tree j) as (bt & Hok & Ht).
  rewrite <-(t_walk_lpm bt _ ip Hok Ht), (t_walk_upto ip 129).
  - symmetry. apply upto_match. intros b k. by apply match_seen_held.
  - apply t_get_height. rewrite length_path. apply Hok.
Qed.
End tables.

(** ** A lookup among inserts *)

Section reading_pool.
Context `{IpNetworkLaws} `{DashMapLaws}.
Variables (t : UncompressedTree) (m0 : table) (rts : list (IpNetwork * Metadata)) (bt0 : btree cell).
Hypothesis ok0 : trie_ok bt0.
Hypothesis table0 : table_of bt0 m0.
Implicit Types (bt : btree cell) (k : list bool) (h : Heap) (F : gset loc) (ip : IpAddr).

Abbreviation root := (ut_root t).
Abbreviation tab := (table_after m0 rts).

(** What a lookup relies on once [now] inserts are through, whatever the next
    one has already done to the tree. *)
Definition view (now : nat) h bt F : Prop :=
  heap_wf h ∧ rep (cells h) bt (Some root) F ∧ (height bt ≤ 129)%nat ∧
  ∀ k, (seen bt k).2 = snd <$> tab now !! k ∧
    (is_Some (tab now !! k) → ∃ p, (seen bt k).1 = Some p ∧ net_bits p = k ∧ listed m0 rts p).

(** The answer so far is that of a table of the window. *)
Definition right_so_far (from now : nat) ip (d : nat) (best : option Metadata) : Prop :=
  ∃ j, (from ≤ j ≤ now)%nat ∧ best = upto ip (held (tab j)) 0 d None.

(** A lookup in progress and the accesses it has left. *)
Inductive reads (from now : nat) (c : gmap loc NodeWrapper) ip : nat → prog (option Metadata) → Prop :=
  | rs_visit d l best :
      walk c root (path ip 0 d) = Some l → right_so_far from now ip d best → (d < 129)%nat →
      reads from now c ip (3 * (129 - d)) (lpm_walk_p (130 - d) ip d (Some l) best)
  | rs_meta d l best :
      walk c root (path ip 0 d) = Some l → right_so_far from now ip d best → (d < 129)%nat →
      reads from now c ip (3 * (129 - d) - 1) (take_meta l best ≫= next_p ip (129 - d) d l)
  | rs_next d l best :
      walk c root (path ip 0 d) = Some l → right_so_far from now ip (S d) best → (d < 129)%nat →
      reads from now c ip (3 * (129 - d) - 2) (next_p ip (129 - d) d l best).

Definition answers_right (from now : nat) ip (a : option Metadata) : Prop :=
  ∃ j, (from ≤ j ≤ now)%nat ∧ a = LPM_lookup (entries (tab j)) ip.

Lemma right_so_far_mono from now now' ip d best :
  (now ≤ now')%nat → right_so_far from now ip d best → right_so_far from now' ip d best.
Proof. intros Hn (j & Hj & Hb). exists j. split; [lia|done]. Qed.

Lemma reads_mono from now now' c c' ip n pr :
  links c c' → (now ≤ now')%nat → reads from now c ip n pr → reads from now' c' ip n pr.
Proof.
  intros Hl Hn Hr. destruct Hr; constructor; eauto using walk_mono, right_so_far_mono.
Qed.

Lemma view_walk now h bt F k l :
  view now h bt F → walk (cells h) root k = Some l →
  ∃ n, cells h !! l = Some n ∧ seen bt k = (node_prefix n, node_metadata n).
Proof.
  intros (_ & Hr & _) Hw. destruct (walk_cell _ _ _ _ _ _ Hr Hw) as (n & Hn & Hg).
  exists n. split; [done|]. unfold seen. by rewrite Hg.
Qed.

(** A position without an entry now had none before. *)
Lemma right_none from now ip d best :
  tab now !! path ip 0 d = None → right_so_far from now ip d best → right_so_far from now ip (S d) best.
Proof.
  intros Hn (j & Hj & ->). exists j. split; [done|]. rewrite upto_S, match_held_None; [done|].
  eapply table_after_mono; [|exact Hn]. lia.
Qed.

Lemma right_some from now ip d p md :
  fits m0 rts ip → (from ≤ now)%nat → tab now !! path ip 0 d = Some (p, md) → right_so_far from now ip (S d) (Some md).
Proof.
  intros Hf Hle Hn. exists now. split; [lia|]. by rewrite upto_S, (match_held_Some m0 rts bt0 ok0 table0 _ _ _ _ _ _ Hf Hn).
Qed.

(** A prefix on the path that does not contain the address has no metadata. *)
Lemma right_miss from now h bt F ip d best pf :
  view now h bt F → fits m0 rts ip → (seen bt (path ip 0 d)).1 = pf →
  (∀ p, pf = Some p → network_contains_ip p ip = false) →
  right_so_far from now ip d best → right_so_far from now ip (S d) best.
Proof.
  intros (_ & _ & _ & Hv) Hf Hpf Hno. apply right_none. destruct (Hv (path ip 0 d)) as [_ Hp].
  destruct (tab now !! path ip 0 d) as [e|]; [|done]. destruct Hp as (p & Hp & Hb & Hl); [done|].
  rewrite Hpf in Hp. specialize (Hno _ Hp).
  rewrite (path_is_bits ip p d) in Hno; [done| |done]. apply Hf; [done|]. by rewrite Hb, length_path.
Qed.

Lemma right_take from now h bt F ip d best md1 :
  view now h bt F → fits m0 rts ip → (from ≤ now)%nat → (seen bt (path ip 0 d)).2 = md1 →
  right_so_far from now ip d best →
  right_so_far from now ip (S d) (match md1 with Some m => Some m | None => best end).
Proof.
  intros (_ & _ & _ & Hv) Hf Hle Hmd Hb. destruct (Hv (path ip 0 d)) as [Hm _]. rewrite Hmd in Hm.
  destruct (tab now !! path ip 0 d) as [[p md]|] eqn:Ht; simpl in Hm; rewrite Hm.
  - by eapply right_some.
  - by apply right_none.
Qed.

Lemma t_get_below bt k k' : t_get bt k = None → t_get bt (k ++ k') = None.
Proof.
  revert bt. induction k as [|b k IH]; intros [|c u0 u1]; try done.
  rewrite <-app_comm_cons, !t_get_side. apply IH.
Qed.

(** Where the path ends, the answer is complete. *)
Lemma right_end from now h bt F ip d best :
  view now h bt F → (d ≤ 129)%nat → t_get bt (path ip 0 d) = None →
  right_so_far from now ip d best → answers_right from now ip best.
Proof.
  intros (_ & _ & _ & Hv) Hd Hg (j & Hj & ->). exists j. split; [done|]. eapply upto_lpm; [exact ok0|done|done|].
  intros d' Hd'. apply (table_after_mono _ _ j now); [lia|]. destruct (Hv (path ip 0 d')) as [Hm _].
  unfold seen in Hm. simpl in Hm. replace d' with (d + (d' - d))%nat in Hm |- * by lia.
  assert (t_get bt (path ip 0 (d + (d' - d))) = None) as Hg'.
  { unfold path in *. rewrite seq_app, fmap_app. by apply t_get_below. }
  rewrite Hg' in Hm. by destruct (tab now !! _).
Qed.

Lemma reads_step from now h bt F ip n pr :
  view now h bt F → fits m0 rts ip → (from ≤ now)%nat → reads from now (cells h) ip n pr →
  (0 < n)%nat ∧ ∃ pr', run1 pr h = Some (pr', h) ∧
    ((∃ a, pr' = PRet a ∧ answers_right from now ip a) ∨
     ¬ returned pr' ∧ ∃ n', (n' < n)%nat ∧ reads from now (cells h) ip n' pr').
Proof.
  intros Hv Hf Hle [d l best Hw Hg Hd|d l best Hw Hg Hd|d l best Hw Hg Hd]; (split; [lia|]).
  - destruct (view_walk _ _ _ _ _ _ Hv Hw) as (x & Hx & Hseen).
    replace (130 - d)%nat with (S (129 - d)) by lia. cbn [lpm_walk_p]. unfold match_node_p.
    eexists. split; [apply run1_nested, (get_run _ _ _ _ Hx)|]. right.
    assert (∀ b, right_so_far from now ip (S d) b → ¬ returned (next_p ip (129 - d) d l b) ∧
      ∃ n', (n' < 3 * (129 - d))%nat ∧ reads from now (cells h) ip n' (next_p ip (129 - d) d l b)) as Hnext.
    { intros b Hb. split; [by intros []|]. eexists. split; [|by apply rs_next]. lia. }
    destruct (node_prefix x) as [p1|] eqn:Hp1.
    + destruct (network_contains_ip p1 ip) eqn:Hc.
      * split; [by intros []|]. eexists. split; [|by apply rs_meta]. lia.
      * apply Hnext. eapply right_miss; [exact Hv|done|by rewrite Hseen|simpl|done]. intros q Hq. by simplify_eq.
    + apply Hnext. eapply right_miss; [exact Hv|done|by rewrite Hseen|simpl; congruence|done].
  - destruct (view_walk _ _ _ _ _ _ Hv Hw) as (x & Hx & Hseen).
    eexists. split; [apply run1_nested, (get_run _ _ _ _ Hx)|]. right. split; [by intros []|].
    eexists. split; [|apply rs_next; [done| |done]]; [lia|]. eapply right_take; [exact Hv|done|done|by rewrite Hseen|done].
  - destruct (view_walk _ _ _ _ _ _ Hv Hw) as (x & Hx & _).
    eexists. split; [apply run1_atomic, (child_at_run _ _ _ _ _ Hx)|].
    assert (walk (cells h) root (path ip 0 (S d)) = side (dir ip d) x) as Hw'.
    { by rewrite path_snoc, walk_snoc, Hw; simpl; rewrite Hx. }
    pose proof (rep_walk _ _ _ _ (path ip 0 (S d)) (proj1 (proj2 Hv))) as Hcell. rewrite Hw' in Hcell.
    destruct (side (dir ip d) x) as [l'|].
    + right. assert (S d < 129)%nat as Hd'.
      { destruct (decide (S d < 129)%nat); [done|]. rewrite t_get_height in Hcell; [done|].
        rewrite length_path. destruct Hv as (_ & _ & ? & _). lia. }
      replace (129 - d)%nat with (130 - S d)%nat by lia. split.
      * replace (130 - S d)%nat with (S (129 - S d)) by lia. by intros [].
      * eexists. split; [|by apply rs_visit]. lia.
    + left. exists best. split; [by destruct (129 - d)%nat|].
      destruct (t_get bt (path ip 0 (S d))) eqn:Hend; [by destruct Hcell as (? & ? & ? & _)|].
      eapply right_end; [exact Hv| |exact Hend|done]. lia.
Qed.
End reading_pool.

(** ** The invariant of the pool *)

Section invariant.
Context `{IpNetworkLaws} `{DashMapLaws}.
Variables (t : UncompressedTree) (m0 : table) (rts : list (IpNetwork * Metadata)) (bt0 : btree cell).
Hypothesis ok0 : trie_ok bt0.
Hypothesis table0 : table_of bt0 m0.
Implicit Types (bt : btree cell) (h : Heap) (F : gset loc) (ip : IpAddr) (s : pool) (r : reader).

Abbreviation tab := (table_after m0 rts).
Abbreviation now s := (length (po_done s)).

(** The most accesses of a lookup, and the step of its call. *)
Definition lookup_turns : nat := 388.

Definition right_log (a : answered) : Prop := answers_right m0 rts (an_from a) (an_to a) (an_ip a) (an_answer a).

(** The lookups of one thread, in their order: each was called after the one
    before had returned. *)
Definition in_order (l : list answered) : Prop := StronglySorted (λ a b, an_to a ≤ an_from b)%nat l.

Record log_ok (until : nat) (l : list answered) : Prop := {
  log_right : Forall right_log l;
  log_order : in_order l;
  log_until : Forall (λ a, an_to a ≤ until)%nat l }.

(** A reader that has [asks] to do in all and [n] steps to go. *)
Definition reader_ok (when : nat) (c : gmap loc NodeWrapper) (asks : list IpAddr) r (n : nat) : Prop :=
  match rd_call r with
  | None => log_ok when (rd_log r) ∧ (an_ip <$> rd_log r) ++ rd_todo r = asks ∧ n = (lookup_turns * length (rd_todo r))%nat
  | Some (ip, from, p) =>
      log_ok from (rd_log r) ∧ (an_ip <$> rd_log r) ++ ip :: rd_todo r = asks ∧ (from ≤ when)%nat ∧
      ∃ k, reads t m0 rts from when c ip k p ∧ n = (k + lookup_turns * length (rd_todo r))%nat
  end.

(** The writer between two inserts or in one. *)
Definition writer_ok s bt F : Prop :=
  match po_call s with
  | None =>
      po_todo s = drop (now s) rts ∧ heap_wf (po_heap s) ∧ rep (cells (po_heap s)) bt (Some (ut_root t)) F ∧
      trie_ok bt ∧ table_of bt (tab (now s))
  | Some pw => ∃ bt1 p md,
      rts !! now s = Some (p, md) ∧ po_todo s = drop (S (now s)) rts ∧ trie_ok bt1 ∧ table_of bt1 (tab (now s)) ∧
      shared t p md bt1 false (po_heap s) bt F ∧ writing t p md bt1 (po_heap s) bt F false pw ∧ ¬ returned pw
  end.

Definition done_ok (l : list (Result bool string)) : Prop :=
  ∀ j a, l !! j = Some a → ∃ p md, rts !! j = Some (p, md) ∧ a = Ok (is_none (tab j !! net_bits p)).

Definition pool_ok (asks : list (list IpAddr)) (budget : nat → nat) s : Prop :=
  done_ok (po_done s) ∧ (∃ bt F, writer_ok s bt F) ∧
  length (po_readers s) = length asks ∧
  ∀ i l r, asks !! i = Some l → po_readers s !! i = Some r →
    ∃ n, reader_ok (now s) (cells (po_heap s)) l r n ∧ (n ≤ budget i)%nat.

Lemma log_ok_mono u u' l : (u ≤ u')%nat → log_ok u l → log_ok u' l.
Proof. intros Hu [Hr Ho Hl]. split; [done|done|]. eapply Forall_impl; [exact Hl|]. simpl. lia. Qed.

Lemma log_ok_snoc from when l ip a :
  (from ≤ when)%nat → log_ok from l → answers_right m0 rts from when ip a →
  log_ok when (l ++ [mkAnswered ip from when a]).
Proof.
  intros Hle [Hr Ho Hl] Ha. split.
  - apply Forall_app. split; [done|]. by apply Forall_singleton.
  - clear Hr. induction Ho as [|b l Ho IH Hb]; [by repeat constructor|]. apply Forall_cons in Hl as [Hbu Hl].
    simpl. constructor; [by apply IH|]. apply Forall_app. split; [done|]. by apply Forall_singleton.
  - apply Forall_app. split; [|by apply Forall_singleton]. eapply Forall_impl; [exact Hl|]. simpl. lia.
Qed.

Lemma table_view bt m k :
  trie_ok bt → table_of bt m →
  (seen bt k).2 = snd <$> m !! k ∧ ∀ p md, m !! k = Some (p, md) → (seen bt k).1 = Some p.
Proof.
  intros Hok Ht. unfold seen. simpl. destruct (t_get bt k) as [c|] eqn:Hc; simpl.
  - rewrite (table_of_meta _ _ _ _ Hok Ht Hc). split; [done|]. intros p md. rewrite (Ht k), Hc. simpl. unfold entry.
    destruct (c_prefix c); [|done]. destruct (c_meta c); [|done]. simpl. congruence.
  - rewrite (Ht k), Hc. done.
Qed.

(** Readers see the table of the inserts that are through. *)
Lemma writer_view s bt F : writer_ok s bt F → view t m0 rts (now s) (po_heap s) bt F.
Proof.
  unfold writer_ok. destruct (po_call s) as [pw|].
  - intros (bt1 & p & md & Hr & _ & Hok & Ht & (Hwf & Hrep & Hh & _ & Hs) & _). split_and!; [done..|]. intros k.
    destruct (Hs k) as [-> Hp]. destruct (table_view bt1 _ k Hok Ht) as [-> Hp1]. split; [done|]. intros [[p0 md0] He].
    pose proof (table_after_entry _ _ _ ok0 table0 _ _ _ _ He) as [Hb Hl].
    destruct Hp as [->|[-> ->]]; [rewrite (Hp1 _ _ He); eauto|]. exists p. split_and!; [done|done|].
    right. exists md. by eapply list_elem_of_lookup_2.
  - intros (_ & Hwf & Hrep & Hok & Ht). split_and!; [done|done|apply Hok|]. intros k.
    destruct (table_view bt _ k Hok Ht) as [-> Hp1]. split; [done|]. intros [[p0 md0] He].
    pose proof (table_after_entry _ _ _ ok0 table0 _ _ _ _ He) as [Hb Hl]. rewrite (Hp1 _ _ He). eauto.
Qed.

Lemma reader_ok_mono u u' c c' l r n :
  links c c' → (u ≤ u')%nat → reader_ok u c l r n → reader_ok u' c' l r n.
Proof.
  intros Hc Hu. unfold reader_ok. destruct (rd_call r) as [[[ip from] p]|].
  - intros (Hl & Ha & Hf & k & Hr & Hn). split_and!; [done|done|lia|]. exists k. split; [by eapply reads_mono|done].
  - intros (Hl & Ha & Hn). split_and!; [by eapply log_ok_mono|done|done].
Qed.

Lemma reader_step_ok u h bt F l r n :
  view t m0 rts u h bt F → Forall (fits m0 rts) l → reader_ok u (cells h) l r n →
  ∃ r' n', reader_step t u r h = Some (r', h) ∧ reader_ok u (cells h) l r' n' ∧ (n' ≤ n - 1)%nat.
Proof.
  intros Hv Hfits. destruct r as [todo [[[ip from] p]|] log]; unfold reader_ok, reader_step; simpl.
  - intros (Hl & Ha & Hf & k & Hr & ->).
    assert (fits m0 rts ip) as Hfit by (rewrite <-Ha in Hfits; apply Forall_app in Hfits as [_ Hx]; by apply Forall_cons in Hx as []).
    destruct (reads_step _ _ _ _ ok0 table0 _ _ _ _ _ _ _ _ Hv Hfit Hf Hr) as (Hk & p' & -> & [(a & -> & Hans)|(Hnr & k' & Hlt & Hr')]); simpl.
    + eexists _, _. split; [done|]. simpl. split; [split_and!; [by apply log_ok_snoc| |reflexivity]|lia].
      by rewrite fmap_app, <-app_assoc.
    + eexists _, _. split; [done|]. destruct p' as [a|m]; [by destruct Hnr|]. simpl.
      split; [split_and!; [done..|by exists k']|lia].
  - destruct todo as [|ip todo]; simpl; intros (Hl & Ha & ->).
    + eexists _, _. split; [done|]. simpl. split; [by split_and!|lia].
    + eexists _, (387 + lookup_turns * length todo)%nat. split; [done|]. simpl. split; [|unfold lookup_turns; lia].
      split_and!; [done|done|done|]. exists 387%nat. split; [|done].
      apply (rs_visit t m0 rts u u (cells h) ip 0 (ut_root t) None); [done| |lia]. exists u. split; [lia|done].
Qed.

Lemma put_table bt1 bt F h p md j :
  rts !! j = Some (p, md) → trie_ok bt1 → table_of bt1 (tab j) → shared t p md bt1 true h bt F →
  trie_ok bt ∧ table_of bt (tab (S j)).
Proof. intros Hr Hok Ht Hs. rewrite (table_after_S _ _ _ _ Hr). by eapply shared_table. Qed.

Lemma is_new_table bt p j :
  trie_ok bt → table_of bt (tab j) → is_new p bt = is_none (tab j !! net_bits p).
Proof. intros Hok Ht. unfold is_new. rewrite (proj1 (table_view bt _ _ Hok Ht)). by destruct (tab j !! net_bits p). Qed.

(** A call of [insert] begins. *)
Lemma insert_begins h bt F p md :
  heap_wf h → rep (cells h) bt (Some (ut_root t)) F → trie_ok bt →
  shared t p md bt false h bt F ∧ writing t p md bt h bt F false (insert_p t p md) ∧ ¬ returned (insert_p t p md).
Proof.
  intros Hwf Hrep Hok. split_and!.
  - split_and!; [done|done|apply Hok|done|]. intros k. split; [done|by left].
  - by apply (wr_loop t p md bt h bt F 0).
  - unfold insert_p. destruct (Z.to_nat (net_prefix p)); by intros [].
Qed.

Lemma writer_step_ok s bt F :
  done_ok (po_done s) → writer_ok s bt F →
  ∃ s' bt' F', writer_step t s = Some s' ∧ done_ok (po_done s') ∧ writer_ok s' bt' F' ∧
    po_readers s' = po_readers s ∧ links (cells (po_heap s)) (cells (po_heap s')) ∧ (now s ≤ now s')%nat.
Proof.
  destruct s as [rs [pw|] todo dn h]; unfold writer_ok, writer_step; simpl; intros Hd.
  - intros (bt1 & p & md & Hr & Htodo & Hok & Ht & Hs & Hw & Hnr).
    destruct (writing_step t p md bt1 _ _ _ _ _ Hs Hw) as [?|(pw' & h' & st & bt' & F' & -> & Hs' & Hw' & Hlk & _)]; [done|]. simpl.
    destruct pw' as [a|m].
    + destruct (writing_returned _ _ _ _ _ _ _ _ _ Hw') as [-> ->].
      destruct (put_table _ _ _ _ _ _ _ Hr Hok Ht Hs') as [Hok' Ht'].
      eexists _, bt', F'. split; [done|]. simpl. rewrite length_app, Nat.add_1_r. split_and!; [|done|apply Hs'|apply Hs'|done|done|done|done|lia].
      intros j a [[_ Hj]|[Hj <-]]%lookup_snoc_Some; [by apply Hd|]. exists p, md. subst j. split; [done|].
      by rewrite (is_new_table _ _ _ Hok Ht).
    + eexists _, bt', F'. split; [done|]. simpl. split_and!; [done| |done|done|done].
      assert (st = false) as -> by (destruct st; [inversion Hw'|done]). exists bt1, p, md. split_and!; try done.
      by intros [].
  - intros (Htodo & Hwf & Hrep & Hok & Ht). destruct todo as [|[p md] todo].
    + eexists _, bt, F. split; [done|]. simpl. split_and!; [done|done|done|done|done|done|done|apply links_refl|done].
    + destruct (insert_begins h bt F p md Hwf Hrep Hok) as (Hs & Hw & Hnr).
      eexists _, bt, F. split; [done|]. simpl. split_and!; [done| |done|apply links_refl|done].
      exists bt, p, md. symmetry in Htodo.
      assert (rts !! length dn = Some (p, md)) as Hr.
      { by rewrite <-(Nat.add_0_r (length dn)), <-lookup_drop, Htodo. }
      split_and!; try done. rewrite (drop_S _ _ _ Hr) in Htodo. congruence.
Qed.

Definition spend (w : who) (budget : nat → nat) (i : nat) : nat :=
  if decide (w = Reader i) then (budget i - 1)%nat else budget i.

Lemma pool_step_ok asks budget s w :
  Forall (Forall (fits m0 rts)) asks → pool_ok asks budget s →
  ∃ s', pool_step t s w = Some s' ∧ pool_ok asks (spend w budget) s'.
Proof.
  intros Hfits (Hd & (bt & F & Hw) & Hlen & Hrs). destruct w as [|i]; simpl.
  - destruct (writer_step_ok s bt F Hd Hw) as (s' & bt' & F' & -> & Hd' & Hw' & Hr' & Hlk & Hn). exists s'. split; [done|].
    split_and!; [done|by exists bt', F'|by rewrite Hr'|]. rewrite Hr'. intros i l r Hl Hr.
    destruct (Hrs i l r Hl Hr) as (n & Hok & Hle). exists n. split; [by eapply reader_ok_mono|done].
  - destruct (po_readers s !! i) as [r|] eqn:Hr.
    + destruct (lookup_lt_is_Some_2 asks i) as [l Hl]; [rewrite <-Hlen; by eapply lookup_lt_Some|].
      destruct (Hrs i l r Hl Hr) as (n & Hok & Hle). pose proof (proj1 (Forall_lookup _ _) Hfits i l Hl) as Hf.
      destruct (reader_step_ok _ _ _ _ _ _ _ (writer_view _ _ _ Hw) Hf Hok) as (r' & n' & -> & Hok' & Hle'). simpl.
      eexists. split; [done|]. split_and!; simpl; [done|by exists bt, F|by rewrite length_insert|].
      intros j l' r1 Hl' Hr1. unfold spend. destruct (decide (j = i)) as [->|Hne].
      * rewrite list_lookup_insert_eq in Hr1 by (by eapply lookup_lt_Some). rewrite decide_True by done. simplify_eq.
        exists n'. split; [done|lia].
      * rewrite list_lookup_insert_ne in Hr1 by done. rewrite decide_False by congruence. by apply (Hrs j).
    + exists s. split; [done|]. split_and!; [done|by exists bt, F|done|]. intros j l r Hl Hr1. unfold spend.
      rewrite decide_False by congruence. by apply (Hrs j).
Qed.

Lemma pool_run_ok asks budget s sched :
  Forall (Forall (fits m0 rts)) asks → pool_ok asks budget s →
  ∃ s', run_pool t s sched = Some s' ∧ pool_ok asks (λ i, budget i - turns i sched)%nat s'.
Proof.
  intros Hfits. revert s budget. induction sched as [|w sched IH]; intros s budget Hs.
  - exists s. split; [done|]. destruct Hs as (Hd & Hw & Hlen & Hrs). split_and!; [done..|]. intros i l r Hl Hr.
    destruct (Hrs i l r Hl Hr) as (n & Hok & Hle). exists n. split; [done|]. unfold turns. simpl. lia.
  - destruct (pool_step_ok _ _ _ w Hfits Hs) as (s1 & Hs1 & Hok1). simpl. rewrite Hs1. simpl.
    destruct (IH s1 _ Hok1) as (s' & Hr & Hok'). exists s'. split; [done|].
    destruct Hok' as (Hd & Hw & Hlen & Hrs). split_and!; [done..|]. intros i l r Hl Hr'.
    destruct (Hrs i l r Hl Hr') as (n & Hok & Hle). exists n. split; [done|]. unfold spend, turns in *.
    rewrite filter_cons. case_decide; simpl; lia.
Qed.

(** One step of the writer. *)
Lemma writer_turn asks budget s :
  Forall (Forall (fits m0 rts)) asks → pool_ok asks budget s →
  ∃ s', writer_step t s = Some s' ∧ pool_ok asks budget s'.
Proof.
  intros Hfits Hok. destruct (pool_step_ok _ _ _ Writer Hfits Hok) as (s' & Hs & Hd & Hw & Hlen & Hrs).
  exists s'. split; [done|]. by split_and!.
Qed.

(** The writer alone finishes the call it is in. *)
Lemma writer_returns asks budget s :
  Forall (Forall (fits m0 rts)) asks → pool_ok asks budget s →
  ∃ n s', run_pool t s (replicate n Writer) = Some s' ∧ pool_ok asks budget s' ∧ po_call s' = None ∧ po_todo s' = po_todo s.
Proof.
  intros Hfits. destruct s as [rs [pw|] todo dn h]; [|by exists 0%nat; eexists].
  revert dn h. induction pw as [a|m IH] using prog_induction; intros dn h Hok.
  - destruct Hok as (_ & (bt & F & Hw) & _). unfold writer_ok in Hw. simpl in Hw.
    destruct Hw as (? & ? & ? & _ & _ & _ & _ & _ & _ & Hnr). by destruct Hnr.
  - destruct (writer_turn _ _ _ Hfits Hok) as (s1 & Hs1 & Hok1). pose proof Hs1 as Hs1'.
    unfold writer_step in Hs1'. simpl in Hs1'. destruct (m h) as [[p' h']|] eqn:Hm; [|done]. simpl in Hs1'.
    destruct p' as [a|m']; simplify_eq/=.
    + exists 1%nat. eexists. split; [by cbn [replicate run_pool pool_step]; rewrite Hs1|done].
    + destruct (IH _ _ _ Hm _ _ Hok1) as (n & s' & Hr & Hrest). exists (S n), s'. split; [|done].
      cbn [replicate run_pool pool_step]. by rewrite Hs1.
Qed.

Lemma run_pool_app s sched1 sched2 :
  run_pool t s (sched1 ++ sched2) = s' ← run_pool t s sched1; run_pool t s' sched2.
Proof.
  revert s. induction sched1 as [|w sched1 IH]; intros s; [done|]. simpl.
  destruct (pool_step t s w); simpl; [apply IH|done].
Qed.

(** The writer alone finishes what it has to do. *)
Lemma writer_finishes asks budget s :
  Forall (Forall (fits m0 rts)) asks → pool_ok asks budget s →
  ∃ n s', run_pool t s (replicate n Writer) = Some s' ∧ pool_ok asks budget s' ∧ po_call s' = None ∧ po_todo s' = [].
Proof.
  intros Hfits. remember (po_todo s) as todo eqn:Htodo. revert s Htodo.
  induction todo as [|r todo IH]; intros s Htodo Hok;
    destruct (writer_returns _ _ _ Hfits Hok) as (n & s1 & Hr1 & Hok1 & Hc1 & Ht1); rewrite <-Htodo in Ht1.
  - by exists n, s1.
  - destruct (writer_turn _ _ _ Hfits Hok1) as (s2 & Hs2 & Hok2).
    assert (todo = po_todo s2) as Ht2.
    { pose proof Hs2 as Hs2'. unfold writer_step in Hs2'. rewrite Hc1, Ht1 in Hs2'. destruct r. by simplify_eq/=. }
    destruct (IH s2 Ht2 Hok2) as (n' & s' & Hr' & Hrest). exists (n + S n')%nat, s'. split; [|done].
    rewrite replicate_add, run_pool_app, Hr1. cbn [replicate run_pool pool_step mbind option_bind]. by rewrite Hs2.
Qed.
End invariant.

(** ** Theorem *)

Section theorem.
Context `{IpNetworkLaws} `{DashMapLaws}.

Lemma pool_start_ok h t m bt F rts asks :
  heap_wf h → rep (cells h) bt (Some (ut_root t)) F → trie_ok bt → table_of bt m →
  pool_ok t m rts asks (λ i, lookup_turns * length (default [] (asks !! i)))%nat (pool_start rts asks h).
Proof.
  intros Hwf Hr Hok Ht. split_and!; [done|by exists bt, F|by simpl; rewrite length_fmap|].
  intros i l r Hl Hri. simpl in Hri. rewrite list_lookup_fmap, Hl in Hri. simpl in Hri. injection Hri as <-.
  exists (lookup_turns * length l)%nat. split; [|by rewrite Hl]. split_and!; [|done|done]. split; simpl; constructor.
Qed.

(** What a reader with nothing left to do has done. *)
Lemma reader_log t m rts u c l r n :
  reader_ok t m rts u c l r n →
  Forall (right_log m rts) (rd_log r) ∧ in_order (rd_log r) ∧ (an_ip <$> rd_log r) `prefix_of` l ∧
  (n = 0%nat → an_ip <$> rd_log r = l).
Proof.
  unfold reader_ok. destruct (rd_call r) as [[[ip from] p]|].
  - intros ([Hr Ho _] & <- & _ & k & Hk & ->). split_and!; [done|done|by eexists|]. inversion Hk; lia.
  - intros ([Hr Ho _] & <- & ->). split_and!; [done|done|by eexists|].
    destruct (rd_todo r); [by rewrite app_nil_r|done].
Qed.

Lemma pool_idle_table t m rts asks budget s :
  pool_ok t m rts asks budget s → po_call s = None → po_todo s = [] →
  length (po_done s) = length rts ∧ ∃ F, trie_rep (po_heap s) t (table_after m rts (length rts)) F.
Proof.
  intros (Hd & (bt & F & Hw) & _) Hc Hto. unfold writer_ok in Hw. rewrite Hc, Hto in Hw.
  destruct Hw as (Hdrop & Hwf & Hr & Hok & Ht).
  assert (length (po_done s) = length rts) as Hlen.
  { apply (f_equal length) in Hdrop. rewrite length_drop in Hdrop. simpl in Hdrop.
    destruct (decide (length (po_done s) ≤ length rts)%nat) as [|Hgt]; [lia|].
    destruct (lookup_lt_is_Some_2 (po_done s) (length rts)) as [a Ha]; [lia|].
    destruct (Hd _ _ Ha) as (p & md & Hp & _). apply lookup_lt_Some in Hp. lia. }
  rewrite Hlen in Ht. split; [done|]. exists F. split; [done|]. by exists bt.
Qed.

(** C5: while one thread inserts a list of routes into an uncompressed tree, any
    number of threads may look up addresses whose path holds only routes of
    their own family, now and after the inserts.  Under every schedule no step panics; each insert tells
    whether its route was new at its turn; each lookup answers the
    longest-prefix match on the table at one moment between its call and its
    return (the table after [j] of the inserts, with [j] between the number of
    inserts that were through at the call and at the return), in the order of
    the thread's calls, and a thread that is given 388 steps per address has
    all its answers, whatever the others do.  The writer can always finish,
    and leaves the table of all its routes. *)
Theorem readers_linearizable h t m F rts asks sched :
  trie_rep h t m F → Forall (Forall (fits m rts)) asks →
  ∃ s, run_pool t (pool_start rts asks h) sched = Some s ∧
    (∀ j a, po_done s !! j = Some a →
      ∃ p md, rts !! j = Some (p, md) ∧ a = Ok (is_none (table_after m rts j !! net_bits p))) ∧
    (∀ i l, asks !! i = Some l → ∃ r, po_readers s !! i = Some r ∧
      Forall (λ a, ∃ j, (an_from a ≤ j ≤ an_to a)%nat ∧
        an_answer a = LPM_lookup (entries (table_after m rts j)) (an_ip a)) (rd_log r) ∧
      in_order (rd_log r) ∧ (an_ip <$> rd_log r) `prefix_of` l ∧
      ((lookup_turns * length l ≤ turns i sched)%nat → an_ip <$> rd_log r = l)) ∧
    ∃ n s', run_pool t s (replicate n Writer) = Some s' ∧ length (po_done s') = length rts ∧
      ∃ F', trie_rep (po_heap s') t (table_after m rts (length rts)) F'.
Proof.
  intros (Hwf & bt & Hr & Hok & Ht) Hfits.
  pose proof (pool_start_ok h t m bt F rts asks Hwf Hr Hok Ht) as Hstart.
  destruct (pool_run_ok t m rts bt Hok Ht _ _ _ sched Hfits Hstart) as (s & Hrun & Hs).
  exists s. split; [done|]. split; [apply Hs|]. split.
  - intros i l Hl. pose proof Hs as (_ & _ & Hlen & Hrs).
    destruct (lookup_lt_is_Some_2 (po_readers s) i) as [r Hri]; [rewrite Hlen; by eapply lookup_lt_Some|].
    exists r. split; [done|]. destruct (Hrs i l r Hl Hri) as (n & Hro & Hn). rewrite Hl in Hn. cbn [from_option id] in Hn.
    destruct (reader_log _ _ _ _ _ _ _ _ Hro) as (Hright & Hord & Hpre & Hall). split_and!; [done|done|done|].
    intros Hturns. apply Hall. lia.
  - destruct (writer_finishes t m rts bt Hok Ht _ _ _ Hfits Hs) as (n & s' & Hr' & Hs' & Hc & Hto).
    exists n, s'. split; [done|]. by eapply pool_idle_table.
Qed.
End theorem.
