(* ===== verification/Patricia.v ===== *)
(** * The compressed tree (engine/src/tree.rs, [CompressedTree])

    A Patricia trie over the heap of nodes: every node carries an edge, a bit
    string of up to 128 bits in 16 bytes, and the children sit behind the
    pivot bit that follows the edge.  The specification is a routing table
    keyed by the first [prefix] bits of the sixteen bytes of the network
    address, [pkey]; [insert], [remove] and [contains] are the map operations
    on it, [lookup] is sound for it, and complete on trees without blank
    junctions. *)

From S2P Require Import Prelude Addr Lpm DashMap Node Heap RouteTree.

Local Open Scope Z_scope.

(** ** Bits in byte arrays *)

Definition get_bit_from_bytes (bytes : list Z) (pos : nat) : Z :=
  let byte_idx := (pos / 8)%nat in
  let bit_idx := (7 - pos mod 8)%nat in
  match bytes !! byte_idx with
  | None => 0
  | Some b => Z.land (Z.shiftr b (Z.of_nat bit_idx)) 1
  end.

(** One iteration of the loop of [extract_bits]: [out[byte_i] |= b << bit_i]. *)
Definition extract_step (bytes : list Z) (start : nat) (out : list Z) (i : nat) : list Z :=
  let b := get_bit_from_bytes bytes (start + i) in
  let byte_i := (i / 8)%nat in
  let bit_i := (7 - i mod 8)%nat in
  if (byte_i <? 16)%nat
  then alter (λ o, Z.lor o (wrap 8 (Z.shiftl b (Z.of_nat bit_i)))) byte_i out
  else out.

Definition extract_bits (bytes : list Z) (start len : nat) : list Z :=
  let max_len := (len `min` 128)%nat in
  foldl (extract_step bytes start) zero16 (seq 0 max_len).

(** The loop [for i in 0..max] with its early return. *)
Fixpoint common_prefix_loop (a b : list Z) (i n : nat) : nat :=
  match n with
  | O => i
  | S n' =>
      if negb (get_bit_from_bytes a i =? get_bit_from_bytes b i) then i
      else common_prefix_loop a b (S i) n'
  end.

Definition common_prefix_len (a : list Z) (a_len : nat) (b : list Z) (b_len : nat) : nat :=
  let max := (a_len `min` b_len)%nat in
  common_prefix_loop a b 0 max.

Definition ip_to_bytes (ip : IpAddr) : list Z :=
  match ip with
  | V4 _ => replicate 12 0 ++ octets ip
  | V6 _ => octets ip
  end.

Section operations.
Context `{IpNetworkCrate} `{DashMapCrate}.

Record CompressedTree := mkCompressed {
  ct_root : loc;
  ct_builder : NodeBuilder;
}.

Definition compressed_variant (v : NodeVariant) : NodeVariant :=
  match v with
  | NormalTrieNode_v | NormalRadixNode_v => NormalRadixNode_v
  | AtomicTrieNode_v | AtomicRadixNode_v => AtomicRadixNode_v
  | PaddedTrieNode_v | PaddedRadixNode_v => PaddedRadixNode_v
  | LockFreeTrieNode_v | LockFreeRadixNode_v => LockFreeRadixNode_v
  end.

Definition patricia_new (v : NodeVariant) : M CompressedTree :=
  let builder := mkBuilder (compressed_variant v) in
  root ← alloc (build builder);
  mret (mkCompressed root builder).

Definition node_edge (l : loc) : M (list Z * nat) :=
  bits ← get node_edge_bits l;
  len ← get node_edge_len l;
  mret (default zero16 bits, default 0%nat len).

Definition set_edge (l : loc) (bits : list Z) (len : nat) : M unit :=
  modify_opt (λ w, node_set_edge w bits len) l.

Definition child_of (bit : Z) (l : loc) : M (option loc) :=
  if bit =? 0 then get node_left l else get node_right l.

Definition set_child_of (bit : Z) (l : loc) (x : loc) : M unit :=
  if bit =? 0 then modify (λ w, node_set_left w (Some x)) l
  else modify (λ w, node_set_right w (Some x)) l.

(** A leaf built from the remainder of the key. *)
Definition new_leaf (b : NodeBuilder) (bits : list Z) (len : nat) (prefix : IpNetwork)
    (metadata : Metadata) : M loc :=
  leaf ← alloc (build b);
  _ ← set_edge leaf bits len;
  _ ← modify (λ w, node_set_prefix w prefix) leaf;
  _ ← modify (λ w, node_set_metadata w metadata) leaf;
  mret leaf.

(** The part of the split that pushes the current contents of [node] down
    into a new child behind bit [shared] of its edge. *)
Definition split_node (b : NodeBuilder) (node : loc) (edge_bits : list Z) (edge_len shared : nat)
    : M unit :=
  let pivot_bit := get_bit_from_bytes edge_bits shared in
  let child_edge_bits := extract_bits edge_bits (shared + 1) (edge_len - shared - 1) in
  let child_edge_len := (edge_len - shared - 1)%nat in
  child ← alloc (build b);
  _ ← set_edge child child_edge_bits child_edge_len;
  md ← get node_metadata node;
  _ ← match md with
      | Some m =>
          _ ← modify (λ w, node_set_metadata w m) child;
          modify node_clear_metadata node
      | None => mret tt
      end;
  pf ← get node_prefix node;
  _ ← match pf with
      | Some p => modify (λ w, node_set_prefix w p) child
      | None => mret tt
      end;
  lc ← get node_left node;
  _ ← modify (λ w, node_set_left w lc) child;
  rc ← get node_right node;
  _ ← modify (λ w, node_set_right w rc) child;
  _ ← set_edge node (extract_bits edge_bits 0 shared) shared;
  _ ← modify (λ w, node_set_left w None) node;
  _ ← modify (λ w, node_set_right w None) node;
  set_child_of pivot_bit node child.

Fixpoint insert_inner (fuel : nat) (node : loc) (b : NodeBuilder) (key : list Z)
    (key_len depth : nat) (prefix : IpNetwork) (metadata : Metadata) : M bool :=
  match fuel with
  | O => panic
  | S fuel' =>
      '(edge_bits, edge_len) ← node_edge node;
      let remaining := (key_len - depth)%nat in
      md ← get node_metadata node;
      lc ← get node_left node;
      rc ← get node_right node;
      if ((edge_len =? 0)%nat && is_none md && is_none lc && is_none rc)%bool then
        let new_bits := extract_bits key depth remaining in
        _ ← set_edge node new_bits remaining;
        _ ← modify (λ w, node_set_prefix w prefix) node;
        _ ← modify (λ w, node_set_metadata w metadata) node;
        mret true
      else
      let key_rem := extract_bits key depth remaining in
      let shared := common_prefix_len edge_bits edge_len key_rem remaining in
      if ((shared =? edge_len)%nat && (shared =? remaining)%nat)%bool then
        md ← get node_metadata node;
        _ ← modify (λ w, node_set_metadata w metadata) node;
        _ ← modify (λ w, node_set_prefix w prefix) node;
        mret (is_none md)
      else if (shared <? edge_len)%nat then
        _ ← split_node b node edge_bits edge_len shared;
        if (shared =? remaining)%nat then
          _ ← modify (λ w, node_set_metadata w metadata) node;
          _ ← modify (λ w, node_set_prefix w prefix) node;
          mret true
        else
          let new_bit := get_bit_from_bytes key_rem shared in
          let new_leaf_edge := extract_bits key_rem (shared + 1) (remaining - shared - 1) in
          leaf ← new_leaf b new_leaf_edge (remaining - shared - 1) prefix metadata;
          _ ← set_child_of new_bit node leaf;
          mret true
      else
      let next_bit := get_bit_from_bytes key_rem shared in
      child_opt ← child_of next_bit node;
      match child_opt with
      | Some child =>
          insert_inner fuel' child b key key_len (depth + shared + 1) prefix metadata
      | None =>
          let new_depth := (depth + shared + 1)%nat in
          let new_remaining := (key_len - new_depth)%nat in
          let leaf_edge := extract_bits key new_depth new_remaining in
          leaf ← new_leaf b leaf_edge new_remaining prefix metadata;
          _ ← set_child_of next_bit node leaf;
          mret true
      end
  end.

Fixpoint lookup_inner (fuel : nat) (node : loc) (key : list Z) (depth : nat)
    : M (option Metadata) :=
  match fuel with
  | O => panic
  | S fuel' =>
      '(edge_bits, edge_len) ← node_edge node;
      md ← get node_metadata node;
      if ((edge_len =? 0)%nat && is_none md)%bool then mret None else
      let remaining := (length key * 8 - depth)%nat in
      let key_rem := extract_bits key depth remaining in
      let shared := common_prefix_len edge_bits edge_len key_rem remaining in
      if (shared <? edge_len)%nat then mret None else
      best ← get node_metadata node;
      let new_depth := (depth + shared)%nat in
      if (length key * 8 <=? new_depth)%nat then mret best else
      child_opt ← child_of (get_bit_from_bytes key new_depth) node;
      match child_opt with
      | Some child =>
          deeper ← lookup_inner fuel' child key (new_depth + 1);
          mret (match deeper with Some d => Some d | None => best end)
      | None => mret best
      end
  end.

(** The walk that [remove_inner] and [contains_inner] share up to their
    action at the node where the key ends. *)
Fixpoint remove_inner (fuel : nat) (node : loc) (key : list Z) (key_len depth : nat)
    : M (option Metadata) :=
  match fuel with
  | O => panic
  | S fuel' =>
      '(edge_bits, edge_len) ← node_edge node;
      let remaining := (key_len - depth)%nat in
      let key_rem := extract_bits key depth remaining in
      let shared := common_prefix_len edge_bits edge_len key_rem remaining in
      if (shared <? edge_len)%nat then mret None else
      if (shared =? remaining)%nat then
        removed ← get node_metadata node;
        _ ← modify node_clear_metadata node;
        mret removed
      else
      child_opt ← child_of (get_bit_from_bytes key (depth + shared)) node;
      match child_opt with
      | Some child => remove_inner fuel' child key key_len (depth + shared + 1)
      | None => mret None
      end
  end.

Fixpoint contains_inner (fuel : nat) (node : loc) (key : list Z) (key_len depth : nat)
    : M bool :=
  match fuel with
  | O => panic
  | S fuel' =>
      '(edge_bits, edge_len) ← node_edge node;
      let remaining := (key_len - depth)%nat in
      let key_rem := extract_bits key depth remaining in
      let shared := common_prefix_len edge_bits edge_len key_rem remaining in
      if (shared <? edge_len)%nat then mret false else
      if (shared =? remaining)%nat then
        md ← get node_metadata node; mret (is_some md)
      else
      child_opt ← child_of (get_bit_from_bytes key (depth + shared)) node;
      match child_opt with
      | Some child => contains_inner fuel' child key key_len (depth + shared + 1)
      | None => mret false
      end
  end.

Definition clear_inner (node : loc) : M unit :=
  _ ← set_edge node zero16 0;
  _ ← modify node_clear_metadata node;
  _ ← modify (λ w, node_set_left w None) node;
  modify (λ w, node_set_right w None) node.

(** Every descent consumes at least the pivot bit of the key. *)
Definition key_fuel (key_len : nat) : nat := S key_len.

Definition patricia_insert (t : CompressedTree) (prefix : IpNetwork) (metadata : Metadata)
    : M (Result bool string) :=
  let ip := net_network prefix in
  let key := ip_to_bytes ip in
  let key_len := Z.to_nat (net_prefix prefix) in
  is_new ← insert_inner (key_fuel key_len) (ct_root t) (ct_builder t) key key_len 0 prefix metadata;
  mret (Ok is_new).

Definition patricia_lookup (t : CompressedTree) (ip : IpAddr) : M (option Metadata) :=
  let key := ip_to_bytes ip in
  lookup_inner (key_fuel 128) (ct_root t) key 0.

Definition patricia_remove (t : CompressedTree) (prefix : IpNetwork) : M (option Metadata) :=
  let ip := net_network prefix in
  let key := ip_to_bytes ip in
  let key_len := Z.to_nat (net_prefix prefix) in
  remove_inner (key_fuel key_len) (ct_root t) key key_len 0.

Definition patricia_contains (t : CompressedTree) (prefix : IpNetwork) : M bool :=
  let ip := net_network prefix in
  let key := ip_to_bytes ip in
  let key_len := Z.to_nat (net_prefix prefix) in
  contains_inner (key_fuel key_len) (ct_root t) key key_len 0.

Definition patricia_clear (t : CompressedTree) : M unit := clear_inner (ct_root t).
End operations.

(** ** Byte arrays as bit strings *)

(** Bits [s], ..., [s + n - 1] of a byte array. *)
Definition bslice (bytes : list Z) (s n : nat) : list bool :=
  (λ i, get_bit_from_bytes bytes i =? 1) <$> seq s n.

Lemma length_bslice bytes s n : length (bslice bytes s n) = n.
Proof. unfold bslice. by rewrite length_fmap, length_seq. Qed.

Lemma bslice_lookup bytes s n i :
  (i < n)%nat → bslice bytes s n !! i = Some (get_bit_from_bytes bytes (s + i) =? 1).
Proof. intros. unfold bslice. by rewrite list_lookup_fmap, lookup_seq_lt. Qed.

Lemma bslice_lookup_ge bytes s n i : (n ≤ i)%nat → bslice bytes s n !! i = None.
Proof. intros. apply lookup_ge_None_2. by rewrite length_bslice. Qed.

Lemma bslice_S bytes s n :
  bslice bytes s (S n) = (get_bit_from_bytes bytes s =? 1) :: bslice bytes (S s) n.
Proof. done. Qed.

Lemma bslice_drop bytes s n j : drop j (bslice bytes s n) = bslice bytes (s + j) (n - j).
Proof.
  apply list_eq. intros i. rewrite lookup_drop.
  destruct (decide (j + i < n)%nat).
  - by rewrite !bslice_lookup, Nat.add_assoc by lia.
  - by rewrite !bslice_lookup_ge by lia.
Qed.

Lemma bslice_take bytes s n j : (j ≤ n)%nat → take j (bslice bytes s n) = bslice bytes s j.
Proof.
  intros. apply list_eq. intros i. destruct (decide (i < j)%nat).
  - by rewrite lookup_take_lt, !bslice_lookup by lia.
  - by rewrite lookup_take_ge, bslice_lookup_ge by lia.
Qed.

Lemma get_bit_from_bytes_testbit bytes pos :
  get_bit_from_bytes bytes pos =
  Z.b2z (match bytes !! (pos / 8)%nat with
         | Some b => Z.testbit b (Z.of_nat (7 - pos mod 8)) | None => false end).
Proof.
  unfold get_bit_from_bytes. destruct (bytes !! (pos / 8)%nat) as [b|]; [|done].
  exact (byte_bit_testbit b (pos mod 8)).
Qed.

Lemma get_bit_from_bytes_b2z bytes pos :
  get_bit_from_bytes bytes pos = Z.b2z (get_bit_from_bytes bytes pos =? 1).
Proof.
  rewrite get_bit_from_bytes_testbit. destruct (bytes !! _) as [b|]; [|done].
  by destruct (Z.testbit b _).
Qed.

Lemma bit_is_zero bytes pos :
  (get_bit_from_bytes bytes pos =? 0) = negb (get_bit_from_bytes bytes pos =? 1).
Proof. rewrite get_bit_from_bytes_b2z. by destruct (_ =? 1). Qed.

(** *** [extract_bits] *)

Lemma shifted_bit_testbit (b : bool) (i j : nat) :
  (i < 8)%nat → (j < 8)%nat →
  Z.testbit (wrap 8 (Z.shiftl (Z.b2z b) (Z.of_nat i))) (Z.of_nat j) = b && (i =? j)%nat.
Proof.
  intros Hi Hj. unfold wrap. rewrite Z.mod_pow2_bits_low by lia.
  rewrite Z.shiftl_spec by lia.
  destruct (decide (i = j)) as [->|Hne].
  - rewrite Z.sub_diag, Nat.eqb_refl, andb_true_r. by destruct b.
  - rewrite (proj2 (Nat.eqb_neq i j) Hne), andb_false_r.
    destruct (Z.lt_total (Z.of_nat j - Z.of_nat i) 0) as [|[|Hp]]; [|lia|].
    + by apply Z.testbit_neg_r.
    + destruct b; [|apply Z.testbit_0_l]. simpl Z.b2z.
      destruct (Z.of_nat j - Z.of_nat i) as [|q|q] eqn:E; [lia| |lia]. done.
Qed.

Lemma extract_step_bit bytes s out i k :
  length out = 16%nat → (i < 128)%nat → (k < 128)%nat →
  get_bit_from_bytes (extract_step bytes s out i) k =
  Z.b2z ((get_bit_from_bytes out k =? 1) ||
         ((i =? k)%nat && (get_bit_from_bytes bytes (s + i) =? 1))).
Proof.
  intros Hout Hi Hk. unfold extract_step.
  pose proof (Nat.div_mod_eq i 8) as Hdi. pose proof (Nat.div_mod_eq k 8) as Hdk.
  pose proof (Nat.mod_upper_bound i 8 ltac:(lia)). pose proof (Nat.mod_upper_bound k 8 ltac:(lia)).
  rewrite (proj2 (Nat.ltb_lt _ _)) by lia.
  rewrite !(get_bit_from_bytes_testbit _ k).
  rewrite (get_bit_from_bytes_b2z bytes (s + i)).
  set (x := get_bit_from_bytes bytes (s + i) =? 1).
  destruct (decide (i / 8 = k / 8)%nat) as [Heq|Hne].
  - rewrite Heq, list_lookup_alter_eq.
    destruct (lookup_lt_is_Some_2 out (k / 8)) as [o Ho]; [lia|]. rewrite Ho. cbn [fmap option_fmap option_map].
    rewrite Z.lor_spec, shifted_bit_testbit by lia.
    replace (7 - i mod 8 =? 7 - k mod 8)%nat with (i =? k)%nat
      by (destruct (Nat.eqb_spec i k); destruct (Nat.eqb_spec (7 - i mod 8) (7 - k mod 8)); lia).
    destruct (Z.testbit _ _), x, (i =? k)%nat; done.
  - rewrite list_lookup_alter_ne by done.
    replace (i =? k)%nat with false by (symmetry; apply Nat.eqb_neq; intros ->; done).
    destruct (out !! _) as [o|]; [|done]. by destruct (Z.testbit o _).
Qed.

Lemma length_extract_step bytes s out i : length (extract_step bytes s out i) = length out.
Proof. unfold extract_step. case_match; [by rewrite length_alter|done]. Qed.

Lemma extract_loop_bit bytes s n k :
  (n ≤ 128)%nat → (k < 128)%nat →
  length (foldl (extract_step bytes s) zero16 (seq 0 n)) = 16%nat ∧
  get_bit_from_bytes (foldl (extract_step bytes s) zero16 (seq 0 n)) k =
  if (k <? n)%nat then get_bit_from_bytes bytes (s + k) else 0.
Proof.
  intros Hn Hk. induction n as [|n IH].
  - split; [done|]. simpl. rewrite get_bit_from_bytes_testbit.
    destruct (zero16 !! (k / 8)%nat) as [z|] eqn:Hz; [|done].
    apply lookup_replicate in Hz as [-> _]. by rewrite Z.testbit_0_l.
  - destruct IH as [IHl IHb]; [lia|]. rewrite seq_S, foldl_app. cbn [foldl].
    rewrite length_extract_step. split; [done|].
    rewrite extract_step_bit by lia. rewrite IHb, Nat.add_0_l.
    destruct (Nat.ltb_spec k n) as [Hlt|Hge].
    + rewrite (proj2 (Nat.eqb_neq n k)), orb_false_r by lia.
      rewrite (proj2 (Nat.ltb_lt k (S n))) by lia. symmetry. apply get_bit_from_bytes_b2z.
    + destruct (Nat.eqb_spec n k) as [->|Hne]; simpl.
      * rewrite (proj2 (Nat.ltb_lt k (S k))) by lia. symmetry. apply get_bit_from_bytes_b2z.
      * by rewrite (proj2 (Nat.ltb_ge k (S n))) by lia.
Qed.

Lemma bslice_extract bytes s n :
  (n ≤ 128)%nat → bslice (extract_bits bytes s n) 0 n = bslice bytes s n.
Proof.
  intros Hn. apply list_eq. intros i. destruct (decide (i < n)%nat).
  - rewrite !bslice_lookup by done. do 2 f_equal. unfold extract_bits.
    rewrite Nat.min_l by lia. destruct (extract_loop_bit bytes s n (0 + i)) as [_ ->]; [lia..|].
    by rewrite (proj2 (Nat.ltb_lt _ _)) by lia.
  - by rewrite !bslice_lookup_ge by lia.
Qed.

(** *** [common_prefix_len] *)

Fixpoint lcp (k l : list bool) : nat :=
  match k, l with
  | x :: k', y :: l' => if eqb x y then S (lcp k' l') else O
  | _, _ => O
  end.

Lemma common_prefix_loop_lcp a b i n :
  common_prefix_loop a b i n = (i + lcp (bslice a i n) (bslice b i n))%nat.
Proof.
  revert i. induction n as [|n IH]; intros i; [simpl; lia|].
  rewrite !bslice_S. cbn [common_prefix_loop lcp].
  rewrite (get_bit_from_bytes_b2z a i), (get_bit_from_bytes_b2z b i).
  destruct (get_bit_from_bytes a i =? 1), (get_bit_from_bytes b i =? 1); simpl; try lia;
    rewrite IH; lia.
Qed.

Lemma lcp_take k l : lcp (take (length l) k) (take (length k) l) = lcp k l.
Proof.
  revert l. induction k as [|x k IH]; intros [|y l]; simpl; try done. by rewrite IH.
Qed.

Lemma common_prefix_len_lcp a an b bn :
  common_prefix_len a an b bn = lcp (bslice a 0 an) (bslice b 0 bn).
Proof.
  unfold common_prefix_len. rewrite common_prefix_loop_lcp, Nat.add_0_l.
  rewrite <- (lcp_take (bslice a 0 an)), !length_bslice.
  destruct (decide (an ≤ bn)%nat).
  - rewrite Nat.min_l by done. rewrite (take_ge (bslice a 0 an)) by (rewrite length_bslice; lia).
    by rewrite bslice_take.
  - rewrite Nat.min_r by lia. rewrite (take_ge (bslice b 0 bn)) by (rewrite length_bslice; lia).
    by rewrite bslice_take by lia.
Qed.

(** ** Patricia trees of bit strings *)

(** How two bit strings meet, which is what [lcp] computes. *)
Inductive meet : list bool → list bool → nat → Prop :=
  | meet_prefix e k : meet e (e ++ k) (length e)
  | meet_short c b e : meet (c ++ b :: e) c (length c)
  | meet_fork c b e k : meet (c ++ b :: e) (c ++ negb b :: k) (length c).

Lemma lcp_meet e k : meet e k (lcp e k).
Proof.
  revert k. induction e as [|x e IH]; intros k; [apply (meet_prefix [])|].
  destruct k as [|y k]; [apply (meet_short [])|]. cbn [lcp].
  destruct (eqb x y) eqn:E.
  - apply eqb_prop in E as ->. destruct (IH k) as [e k|c b e|c b e k].
    + apply (meet_prefix (y :: e)).
    + apply (meet_short (y :: c)).
    + apply (meet_fork (y :: c)).
  - apply eqb_false_iff in E. replace y with (negb x) by (destruct x, y; done).
    apply (meet_fork []).
Qed.

(** [strip e k] is what is left of [k] after the edge [e]. *)
Fixpoint strip (e k : list bool) : option (list bool) :=
  match e, k with
  | [], _ => Some k
  | x :: e', y :: k' => if eqb x y then strip e' k' else None
  | _ :: _, [] => None
  end.

Lemma strip_app e k : strip e (e ++ k) = Some k.
Proof. induction e as [|x e IH]; [done|]. simpl. by rewrite eqb_reflx. Qed.

Lemma strip_refl e : strip e e = Some [].
Proof. rewrite <- (app_nil_r e) at 2. apply strip_app. Qed.

Lemma strip_inv e k k' : strip e k = Some k' → k = e ++ k'.
Proof.
  revert k. induction e as [|x e IH]; intros k; simpl; [by intros [= ->]|].
  destruct k as [|y k]; [done|]. destruct (eqb x y) eqn:E; [|done].
  apply eqb_prop in E as ->. intros ->%IH. done.
Qed.

Lemma strip_app_l c e k : strip (c ++ e) k = strip c k ≫= strip e.
Proof.
  revert k. induction c as [|x c IH]; intros k; [done|]. simpl.
  destruct k as [|y k]; [done|]. by destruct (eqb x y).
Qed.

Section patricia.
Context `{IpNetworkCrate}.

Record pcell := mkP {
  pc_edge : list bool;
  pc_meta : option Metadata;
  pc_prefix : option IpNetwork;
}.
Implicit Types (t : btree pcell) (a : pcell) (e k : list bool).

Definition pentry a : option (IpNetwork * Metadata) :=
  p ← pc_prefix a; m ← pc_meta a; Some (p, m).

Fixpoint p_get t k : option pcell :=
  match t with
  | Nil => None
  | Bin a l r =>
      match strip (pc_edge a) k with
      | None => None
      | Some [] => Some a
      | Some (b :: k') => p_get (if b then r else l) k'
      end
  end.

(** [t0] on the side of [b], [t1] on the other. *)
Definition join (a : pcell) (b : bool) t0 t1 : btree pcell :=
  if b then Bin a t1 t0 else Bin a t0 t1.

Definition is_nil t : bool := match t with Nil => true | Bin _ _ _ => false end.
Definition pleaf k p md : btree pcell := Bin (mkP k (Some md) (Some p)) Nil Nil.

Definition p_empty t : bool :=
  match t with
  | Bin a l r => (length (pc_edge a) =? 0)%nat && is_none (pc_meta a) && is_nil l && is_nil r
  | Nil => false
  end.

Fixpoint p_insert (p : IpNetwork) (md : Metadata) t k : btree pcell * bool :=
  match t with
  | Nil => (pleaf k p md, true)
  | Bin a l r =>
      if p_empty t then (pleaf k p md, true) else
      let e := pc_edge a in
      let s := lcp e k in
      if ((s =? length e) && (s =? length k))%nat then
        (Bin (mkP e (Some md) (Some p)) l r, is_none (pc_meta a))
      else if (s <? length e)%nat then
        let child := Bin (mkP (drop (S s) e) (pc_meta a) (pc_prefix a)) l r in
        let pivot := default false (e !! s) in
        if (s =? length k)%nat then (join (mkP (take s e) (Some md) (Some p)) pivot child Nil, true)
        else (join (mkP (take s e) None (pc_prefix a)) pivot child (pleaf (drop (S s) k) p md), true)
      else
        let b := default false (k !! s) in
        let '(sub, is_new) := p_insert p md (if b then r else l) (drop (S s) k) in
        (join a b sub (if b then l else r), is_new)
  end.

Fixpoint p_lookup t k : option Metadata :=
  match t with
  | Nil => None
  | Bin a l r =>
      if ((length (pc_edge a) =? 0)%nat && is_none (pc_meta a))%bool then None else
      match strip (pc_edge a) k with
      | None => None
      | Some [] => pc_meta a
      | Some (b :: k') =>
          match p_lookup (if b then r else l) k' with
          | Some d => Some d
          | None => pc_meta a
          end
      end
  end.

(** Clear the metadata of the cell at [k]. *)
Fixpoint p_remove t k : btree pcell :=
  match t with
  | Nil => Nil
  | Bin a l r =>
      match strip (pc_edge a) k with
      | None => t
      | Some [] => Bin (mkP (pc_edge a) None (pc_prefix a)) l r
      | Some (b :: k') =>
          join a b (p_remove (if b then r else l) k') (if b then l else r)
      end
  end.

(** *** Equations for the three ways a key meets an edge *)

Lemma p_get_join a b t0 t1 k :
  p_get (join a b t0 t1) k =
  match strip (pc_edge a) k with
  | None => None
  | Some [] => Some a
  | Some (b' :: k') => p_get (if eqb b b' then t0 else t1) k'
  end.
Proof. unfold join. destruct b; simpl; destruct (strip _ _) as [[|[] ?]|]; done. Qed.

Lemma join_split a b l r : join a b (if b then r else l) (if b then l else r) = Bin a l r.
Proof. by destruct b. Qed.

Lemma p_get_leaf k p md k' :
  p_get (pleaf k p md) k' = if decide (k = k') then Some (mkP k (Some md) (Some p)) else None.
Proof.
  simpl. destruct (strip k k') as [k''|] eqn:E.
  - apply strip_inv in E as ->. destruct k'' as [|b k''].
    + rewrite app_nil_r. by rewrite decide_True.
    + rewrite decide_False; [by destruct b|].
      intros Hk. apply (f_equal length) in Hk. rewrite length_app in Hk. simpl in Hk. lia.
  - case_decide as Hk; [|done]. subst k'.
    by rewrite strip_refl in E.
Qed.

(** An empty tree stores nothing. *)
Lemma p_get_empty t k a : p_empty t = true → p_get t k = Some a → pc_meta a = None.
Proof.
  destruct t as [|c l r]; [done|]. simpl. intros He. bprop.
  destruct l, r; try done. destruct (pc_meta c) eqn:Hm; [done|].
  destruct (strip (pc_edge c) k) as [[|[] ?]|]; try done. by intros [= <-].
Qed.

Lemma drop_S_middle (c : list bool) b e : drop (S (length c)) (c ++ b :: e) = e.
Proof. rewrite (cons_middle b c e), (assoc_L (++)). apply drop_app_length'. rewrite length_app. simpl. lia. Qed.

Lemma p_insert_meet p md a l r k s :
  p_empty (Bin a l r) = false → meet (pc_edge a) k s →
  p_insert p md (Bin a l r) k =
  match strip (pc_edge a) k with
  | Some [] => (Bin (mkP (pc_edge a) (Some md) (Some p)) l r, is_none (pc_meta a))
  | Some (b :: k') =>
      let '(sub, is_new) := p_insert p md (if b then r else l) k' in
      (join a b sub (if b then l else r), is_new)
  | None =>
      let e := pc_edge a in
      let child := Bin (mkP (drop (S s) e) (pc_meta a) (pc_prefix a)) l r in
      let pivot := default false (e !! s) in
      if (s =? length k)%nat then (join (mkP (take s e) (Some md) (Some p)) pivot child Nil, true)
      else (join (mkP (take s e) None (pc_prefix a)) pivot child (pleaf (drop (S s) k) p md), true)
  end.
Proof.
  intros Hne Hm. cbn [p_insert]. rewrite Hne.
  assert (lcp (pc_edge a) k = s) as ->.
  { clear Hne. revert Hm. generalize (pc_edge a). intros e. destruct 1 as [e k|c b e|c b e k].
    - induction e as [|x e IH]; simpl; [done|]. by rewrite eqb_reflx, IH.
    - induction c as [|x c IH]; simpl; [done|]. by rewrite eqb_reflx, IH.
    - induction c as [|x c IH]; simpl; [by rewrite eqb_negb2|]. by rewrite eqb_reflx, IH. }
  remember (pc_edge a) as e eqn:He. destruct Hm as [e k|c b e|c b e k].
  - rewrite strip_app, Nat.eqb_refl, Nat.ltb_irrefl. destruct k as [|b k].
    + by rewrite app_nil_r, Nat.eqb_refl.
    + rewrite (proj2 (Nat.eqb_neq _ _)) by (rewrite length_app; simpl; lia).
      rewrite list_lookup_middle by done. by rewrite drop_S_middle.
  - rewrite strip_app_l, strip_refl. simpl.
    rewrite (proj2 (Nat.eqb_neq (length c) _)) by (rewrite length_app; simpl; lia).
    by rewrite (proj2 (Nat.ltb_lt (length c) _)) by (rewrite length_app; simpl; lia).
  - rewrite strip_app_l, strip_app. simpl. rewrite eqb_negb2.
    rewrite !(proj2 (Nat.eqb_neq (length c) _)) by (rewrite length_app; simpl; lia).
    by rewrite (proj2 (Nat.ltb_lt (length c) _)) by (rewrite length_app; simpl; lia).
Qed.

(** *** The tree as a table *)

(** A cell that holds metadata also holds the prefix it was inserted under. *)
Definition pcell_ok a : Prop := is_Some (pc_meta a) → is_Some (pc_prefix a).

Fixpoint p_all (P : pcell → Prop) t : Prop :=
  match t with Nil => True | Bin a l r => P a ∧ p_all P l ∧ p_all P r end.

Lemma p_all_join P a b t0 t1 : p_all P (join a b t0 t1) ↔ P a ∧ p_all P t0 ∧ p_all P t1.
Proof. destruct b; simpl; tauto. Qed.

Lemma p_all_get P t k a : p_all P t → p_get t k = Some a → P a.
Proof.
  revert k. induction t as [|c l IHl r IHr]; intros k; simpl; [done|].
  intros (Hc & Hl & Hr). destruct (strip _ k) as [[|b k']|]; [by intros [= <-]| |done].
  destruct b; eauto.
Qed.

Lemma p_insert_ok p md t k : p_all pcell_ok t → p_all pcell_ok (p_insert p md t k).1.
Proof.
  assert (∀ e pf md, pcell_ok (mkP e (Some md) (Some pf))) as Hnew by (intros; red; eauto).
  assert (∀ e pf, pcell_ok (mkP e None pf)) as Hnone.
  { intros e pf. red; simpl. by intros []. }
  revert k. induction t as [|a l IHl r IHr]; intros k Hok; [simpl; auto|].
  destruct (p_empty (Bin a l r)) eqn:He.
  { cbn [p_insert]. rewrite He. simpl; auto. }
  destruct Hok as (Ha & Hl & Hr).
  rewrite (p_insert_meet _ _ _ _ _ _ _ He (lcp_meet _ _)).
  destruct (strip (pc_edge a) k) as [[|b k']|]; simpl; [auto| |].
  - destruct (p_insert p md (if b then r else l) k') as [sub n] eqn:E.
    assert (p_all pcell_ok sub) as Hsub.
    { replace sub with (sub, n).1 by done. rewrite <- E. destruct b; auto. }
    simpl. apply p_all_join. destruct b; auto.
  - destruct (_ =? _)%nat; apply p_all_join; simpl; auto 10.
Qed.

(** Splitting an edge keeps the other entries and adds the new one. *)
Lemma p_split_get p md a l r k s k' :
  meet (pc_edge a) k s → strip (pc_edge a) k = None →
  let child := Bin (mkP (drop (S s) (pc_edge a)) (pc_meta a) (pc_prefix a)) l r in
  let pivot := default false (pc_edge a !! s) in
  let top c := mkP (take s (pc_edge a)) c in
  p_get (if (s =? length k)%nat then join (top (Some md) (Some p)) pivot child Nil
         else join (top None (pc_prefix a)) pivot child (pleaf (drop (S s) k) p md)) k'
    ≫= pentry =
  if decide (k = k') then Some (p, md) else p_get (Bin a l r) k' ≫= pentry.
Proof.
  intros Hm Hs. cbv zeta. simpl p_get at 2. destruct a as [e m pf]. simpl in *.
  destruct Hm as [e k|k b e|c b e k].
  - by rewrite strip_app in Hs.
  - rewrite Nat.eqb_refl, take_app_length, drop_S_middle, list_lookup_middle by done.
    rewrite p_get_join, strip_app_l. simpl.
    destruct (strip k k') as [[|b' k2]|] eqn:Hs'; simpl.
    + apply strip_inv in Hs'. rewrite app_nil_r in Hs'. by rewrite decide_True.
    + rewrite decide_False by (intros <-; by rewrite strip_refl in Hs').
      destruct (eqb b b'); [|done]. simpl. by destruct (strip e k2) as [[|[] ?]|].
    + rewrite decide_False by (intros <-; by rewrite strip_refl in Hs'). done.
  - rewrite (proj2 (Nat.eqb_neq _ _)) by (rewrite length_app; simpl; lia).
    rewrite take_app_length, !drop_S_middle, list_lookup_middle by done.
    rewrite p_get_join, strip_app_l. cbn [pc_edge default from_option id].
    destruct (strip c k') as [[|b' k2]|] eqn:Hs'; cbn [mbind option_bind].
    + rewrite decide_False by (intros <-; by rewrite strip_app in Hs').
      simpl. by destruct pf.
    + apply strip_inv in Hs'. subst k'. cbn [strip]. destruct (eqb b b') eqn:Eb.
      * apply eqb_prop in Eb as ->. rewrite decide_False.
        -- simpl. by destruct (strip e k2) as [[|[] ?]|].
        -- intros [= Hb _]%app_inv_head. by destruct b'.
      * rewrite p_get_leaf. replace b' with (negb b) by (destruct b, b'; done).
        destruct (decide (k = k2)) as [->|Hk]; [by rewrite decide_True|].
        rewrite decide_False; [done|]. by intros [= ?]%app_inv_head.
    + rewrite decide_False by (intros <-; by rewrite strip_app in Hs'). done.
Qed.

(** Inserting below one child. *)
Lemma p_descend_get p md a b sub t0 t1 k2 k' :
  (∀ k', p_get sub k' ≫= pentry =
    if decide (k2 = k') then Some (p, md) else p_get t0 k' ≫= pentry) →
  p_get (join a b sub t1) k' ≫= pentry =
  if decide (pc_edge a ++ b :: k2 = k') then Some (p, md)
  else p_get (join a b t0 t1) k' ≫= pentry.
Proof.
  intros IH. rewrite !p_get_join.
  destruct (strip (pc_edge a) k') as [[|b' k2']|] eqn:Hs'.
  - rewrite decide_False; [done|]. intros <-. by rewrite strip_app in Hs'.
  - apply strip_inv in Hs'. subst k'. destruct (eqb b b') eqn:Eb.
    + apply eqb_prop in Eb as <-. rewrite IH.
      destruct (decide (k2 = k2')) as [->|Hk]; [by rewrite decide_True|].
      rewrite decide_False; [done|]. by intros [= ?]%app_inv_head.
    + rewrite decide_False; [done|].
      intros [= -> _]%app_inv_head. by rewrite eqb_reflx in Eb.
  - rewrite decide_False; [done|]. intros <-. by rewrite strip_app in Hs'.
Qed.

Lemma p_insert_get p md t k k' :
  p_get (p_insert p md t k).1 k' ≫= pentry =
  if decide (k = k') then Some (p, md) else p_get t k' ≫= pentry.
Proof.
  revert k k'. induction t as [|a l IHl r IHr]; intros k k'.
  { simpl fst. rewrite p_get_leaf. by case_decide. }
  destruct (p_empty (Bin a l r)) eqn:He.
  { cbn [p_insert]. rewrite He. simpl fst. rewrite p_get_leaf. case_decide; [done|].
    destruct (p_get (Bin a l r) k') as [c|] eqn:Hc; [|done]. simpl. unfold pentry.
    rewrite (p_get_empty _ _ _ He Hc). by destruct (pc_prefix c). }
  pose proof (lcp_meet (pc_edge a) k) as Hm.
  rewrite (p_insert_meet _ _ _ _ _ _ _ He Hm).
  destruct (strip (pc_edge a) k) as [[|b k2]|] eqn:Hs.
  - apply strip_inv in Hs. rewrite app_nil_r in Hs. subst k. simpl.
    destruct (strip (pc_edge a) k') as [[|b' k2']|] eqn:Hs'.
    + apply strip_inv in Hs'. rewrite app_nil_r in Hs'. by rewrite decide_True.
    + rewrite decide_False; [done|]. intros <-. by rewrite strip_refl in Hs'.
    + rewrite decide_False; [done|]. intros <-. by rewrite strip_refl in Hs'.
  - apply strip_inv in Hs. subst k.
    destruct (p_insert p md (if b then r else l) k2) as [sub n] eqn:E. cbn [fst].
    rewrite <- (join_split a b l r). apply p_descend_get.
    intros k''. replace sub with (sub, n).1 by done. rewrite <- E. destruct b; auto.
  - rewrite <- (p_split_get p md a l r k _ k' Hm Hs). by destruct (_ =? _)%nat.
Qed.

Lemma p_insert_new p md t k :
  (p_insert p md t k).2 = is_none (p_get t k ≫= pc_meta).
Proof.
  revert k. induction t as [|a l IHl r IHr]; intros k; [done|].
  destruct (p_empty (Bin a l r)) eqn:He.
  { cbn [p_insert]. rewrite He. destruct (p_get _ k) as [c|] eqn:Hc; [|done].
    simpl. by rewrite (p_get_empty _ _ _ He Hc). }
  rewrite (p_insert_meet _ _ _ _ _ _ _ He (lcp_meet _ _)). simpl p_get.
  destruct (strip (pc_edge a) k) as [[|b k2]|] eqn:Hs; [done| |].
  - destruct (p_insert p md (if b then r else l) k2) as [sub n] eqn:E. cbn [snd].
    replace n with (sub, n).2 by done. rewrite <- E. destruct b; auto.
  - by destruct (_ =? _)%nat.
Qed.

(** *** Removal *)

Lemma p_remove_get t k k' :
  p_get (p_remove t k) k' ≫= pentry =
  if decide (k = k') then None else p_get t k' ≫= pentry.
Proof.
  revert k k'. induction t as [|a l IHl r IHr]; intros k k'; [by case_decide|].
  cbn [p_remove]. destruct (strip (pc_edge a) k) as [[|b k2]|] eqn:Hs.
  - apply strip_inv in Hs. rewrite app_nil_r in Hs. subst k. simpl.
    destruct (strip (pc_edge a) k') as [[|b' k2']|] eqn:Hs'.
    + apply strip_inv in Hs'. rewrite app_nil_r in Hs'. rewrite decide_True by done.
      unfold pentry. simpl. by destruct (pc_prefix a).
    + rewrite decide_False; [done|]. intros <-. by rewrite strip_refl in Hs'.
    + rewrite decide_False; [done|]. intros <-. by rewrite strip_refl in Hs'.
  - apply strip_inv in Hs. subst k. rewrite <- (join_split a b l r).
    rewrite !p_get_join. destruct (strip (pc_edge a) k') as [[|b' k2']|] eqn:Hs'.
    + rewrite decide_False; [done|]. intros <-. by rewrite strip_app in Hs'.
    + apply strip_inv in Hs'. subst k'. destruct (eqb b b') eqn:Eb.
      * apply eqb_prop in Eb as <-.
        trans (if decide (k2 = k2') then None else p_get (if b then r else l) k2' ≫= pentry);
          [destruct b; auto|].
        destruct (decide (k2 = k2')) as [->|Hk]; [by rewrite decide_True|].
        rewrite decide_False; [done|]. by intros [= ?]%app_inv_head.
      * rewrite decide_False; [done|].
        intros [= -> _]%app_inv_head. by rewrite eqb_reflx in Eb.
    + rewrite decide_False; [done|]. intros <-. by rewrite strip_app in Hs'.
  - case_decide as Hk; [|done]. subst k'. simpl. by rewrite Hs.
Qed.

Lemma p_remove_ok t k : p_all pcell_ok t → p_all pcell_ok (p_remove t k).
Proof.
  revert k. induction t as [|a l IHl r IHr]; intros k; [done|]. intros (Ha & Hl & Hr).
  cbn [p_remove]. destruct (strip (pc_edge a) k) as [[|b k2]|]; [| |done].
  - simpl. split; [|done]. red; simpl. by intros [].
  - apply p_all_join. destruct b; auto.
Qed.

(** *** Lookup *)

Lemma strip_prefix e k1 k k1' :
  k1 `prefix_of` k → strip e k1 = Some k1' → ∃ k', strip e k = Some k' ∧ k1' `prefix_of` k'.
Proof.
  intros [r ->] ->%strip_inv. exists (k1' ++ r).
  rewrite <- app_assoc, strip_app. split; [done|]. by eexists.
Qed.

Lemma p_lookup_sound t k md :
  p_lookup t k = Some md →
  ∃ k1 a, k1 `prefix_of` k ∧ p_get t k1 = Some a ∧ pc_meta a = Some md.
Proof.
  revert k. induction t as [|a l IHl r IHr]; intros k; [done|]. cbn [p_lookup].
  destruct (_ && _)%bool; [done|].
  destruct (strip (pc_edge a) k) as [[|b k']|] eqn:Hs; [| |done].
  - intros Hm. apply strip_inv in Hs as ->. exists (pc_edge a), a.
    rewrite app_nil_r. split_and!; [done| |done]. simpl. by rewrite strip_refl.
  - apply strip_inv in Hs as ->.
    destruct (p_lookup (if b then r else l) k') as [d|] eqn:Hd.
    + intros [= <-].
      assert (∃ k1 c, k1 `prefix_of` k' ∧ p_get (if b then r else l) k1 = Some c ∧ pc_meta c = Some d)
        as (k1 & c & Hk1 & Hg & Hc) by (destruct b; auto).
      exists (pc_edge a ++ b :: k1), c. split_and!; [| |done].
      * apply prefix_app. by apply prefix_cons.
      * simpl. by rewrite strip_app.
    + intros Hm. exists (pc_edge a), a. split_and!; [by eexists| |done].
      simpl. by rewrite strip_refl.
Qed.

(** A blank junction: an inner node with an empty edge and no metadata. *)
Fixpoint p_clean t : Prop :=
  match t with
  | Nil => True
  | Bin a l r =>
      (pc_edge a = [] → pc_meta a = None → l = Nil ∧ r = Nil) ∧ p_clean l ∧ p_clean r
  end.

(** [r] is the metadata at the longest prefix of [k] that has some. *)
Definition longest (f : list bool → option Metadata) k (r : option Metadata) : Prop :=
  match r with
  | None => ∀ k1, k1 `prefix_of` k → f k1 = None
  | Some md =>
      ∃ k1, k1 `prefix_of` k ∧ f k1 = Some md ∧
        ∀ k2, k2 `prefix_of` k → (length k1 < length k2)%nat → f k2 = None
  end.

Lemma longest_ext f g k r : (∀ k, f k = g k) → longest f k r → longest g k r.
Proof.
  intros Hfg. destruct r as [md|]; simpl.
  - intros (k1 & Hk & Hf & Hmax). exists k1. split_and!; [done|by rewrite <- Hfg|].
    intros k2 Hk2 Hl. rewrite <- Hfg. auto.
  - intros Hf k1 Hk1. rewrite <- Hfg. auto.
Qed.

(** The contribution of one node and of the subtree the next bit selects. *)
Definition at_node (pm : option Metadata) (g : bool → list bool → option Metadata) k :=
  match k with [] => pm | b :: k' => g b k' end.

Lemma longest_step pm g q k :
  (∀ b k', longest (g b) k' (q b k')) →
  longest (at_node pm g) k
    (match k with [] => pm | b :: k' => match q b k' with Some d => Some d | None => pm end end).
Proof.
  intros Hq. destruct k as [|b k].
  - destruct pm as [md|]; simpl.
    + exists []. split_and!; [done|done|]. intros k2 ->%prefix_nil_inv. simpl. lia.
    + by intros k1 ->%prefix_nil_inv.
  - specialize (Hq b k). destruct (q b k) as [d|]; simpl in Hq.
    + destruct Hq as (k1 & Hk1 & Hg & Hmax). exists (b :: k1).
      split_and!; [by apply prefix_cons|done|]. intros [|b' k3] Hk3 Hlen; simpl in *; [lia|].
      pose proof (prefix_cons_inv_1 _ _ _ _ Hk3) as ->.
      apply prefix_cons_inv_2 in Hk3. apply Hmax; [done|lia].
    + assert (∀ k3 b', b' :: k3 `prefix_of` b :: k → g b' k3 = None) as Hno.
      { intros k3 b' Hk3. pose proof (prefix_cons_inv_1 _ _ _ _ Hk3) as ->.
        apply prefix_cons_inv_2 in Hk3. by apply Hq. }
      destruct pm as [md|]; simpl.
      * exists []. split_and!; [apply prefix_nil|done|].
        intros [|b' k3] Hk3 Hlen; simpl in *; [lia|]. auto.
      * intros [|b' k3] Hk3; [done|]. simpl. auto.
Qed.

Lemma longest_edge f e k r :
  longest f k r →
  longest (λ k, strip e k ≫= f) (e ++ k) r.
Proof.
  assert (∀ k2, k2 `prefix_of` e ++ k →
    strip e k2 = None ∨ ∃ k3, strip e k2 = Some k3 ∧ k2 = e ++ k3 ∧ k3 `prefix_of` k) as Hp.
  { intros k2 Hk2. destruct (strip e k2) as [k3|] eqn:Hs; [right|by left].
    exists k3. split; [done|]. pose proof (strip_inv _ _ _ Hs) as ->. split; [done|].
    by apply prefix_app_inv in Hk2. }
  destruct r as [md|]; simpl.
  - intros (k1 & Hk1 & Hf & Hmax). exists (e ++ k1). split_and!; [by apply prefix_app| |].
    + by rewrite strip_app.
    + intros k2 Hk2 Hl. destruct (Hp k2 Hk2) as [->|(k3 & -> & -> & Hk3)]; [done|].
      simpl. apply Hmax; [done|]. rewrite !length_app in Hl. lia.
  - intros Hno k2 Hk2. destruct (Hp k2 Hk2) as [->|(k3 & -> & -> & Hk3)]; [done|]. by apply Hno.
Qed.

Lemma p_lookup_complete t k :
  p_clean t → longest (λ k, p_get t k ≫= pc_meta) k (p_lookup t k).
Proof.
  revert k. induction t as [|a l IHl r IHr]; intros k; [done|].
  intros (Ha & Hl & Hr). cbn [p_lookup].
  destruct ((length (pc_edge a) =? 0)%nat && is_none (pc_meta a))%bool eqn:Hb.
  { apply andb_true_iff in Hb as [Hb Hm]. apply Nat.eqb_eq, nil_length_inv in Hb.
    rewrite is_none_spec in Hm. apply bool_decide_eq_true in Hm.
    destruct (Ha Hb Hm) as [-> ->]. intros k1 _. simpl.
    by destruct (strip (pc_edge a) k1) as [[|[] ?]|]. }
  apply (longest_ext (λ k, strip (pc_edge a) k ≫=
    at_node (pc_meta a) (λ b k, p_get (if b then r else l) k ≫= pc_meta))).
  { intros k1. simpl. by destruct (strip (pc_edge a) k1) as [[|b k2]|]. }
  destruct (strip (pc_edge a) k) as [k'|] eqn:Hs; last first.
  { intros k1 Hk1. destruct (strip (pc_edge a) k1) as [k1'|] eqn:Hs1; [|done].
    destruct (strip_prefix _ _ _ _ Hk1 Hs1) as (? & ? & _). congruence. }
  apply strip_inv in Hs as ->. apply longest_edge.
  apply (longest_step _ _ (λ b k, p_lookup (if b then r else l) k)).
  intros [] k1; auto.
Qed.
End patricia.

(** ** Nodes and the heap, seen as Patricia cells *)

Section heap_cells.
Context `{IpNetworkLaws} `{DashMapLaws}.
Implicit Types (h : Heap) (l x : loc) (a : pcell) (t : btree pcell) (F : gset loc).

(** [n] is the cell [a] with children [lc] and [rc]. *)
Record node_is (n : NodeWrapper) a (lc rc : option loc) : Prop := {
  ni_edge : ∃ b, c_edge (pay n) = Some (b, length (pc_edge a)) ∧
                 bslice b 0 (length (pc_edge a)) = pc_edge a;
  ni_len : (length (pc_edge a) ≤ 128)%nat;
  ni_meta : node_metadata n = pc_meta a;
  ni_prefix : node_prefix n = pc_prefix a;
  ni_left : node_left n = lc;
  ni_right : node_right n = rc;
}.

Definition at_loc h l a lc rc : Prop := ∃ n, cells h !! l = Some n ∧ node_is n a lc rc.

(** Only the cells of [S] differ. *)
Definition touches h h' (S : gset loc) : Prop :=
  heap_wf h' ∧ ∀ x, x ∉ S → cells h' !! x = cells h !! x.

Lemma touches_refl h S : heap_wf h → touches h h S.
Proof. by split. Qed.

Lemma touches_trans h1 h2 h3 S1 S2 S :
  touches h1 h2 S1 → touches h2 h3 S2 → S1 ⊆ S → S2 ⊆ S → touches h1 h3 S.
Proof.
  intros [_ H12] [Hwf H23] HS1 HS2. split; [done|]. intros x Hx.
  rewrite H23, H12; [done|set_solver..].
Qed.

Lemma touches_then h1 h2 h3 S : touches h1 h2 S → touches h2 h3 S → touches h1 h3 S.
Proof. intros ??. by eapply touches_trans. Qed.

Lemma touches_weaken h h' S S' : touches h h' S → S ⊆ S' → touches h h' S'.
Proof. intros [Hwf Ht] HS. split; [done|]. intros x Hx. apply Ht. set_solver. Qed.

Lemma at_loc_touches h h' S l a lc rc :
  touches h h' S → l ∉ S → at_loc h l a lc rc → at_loc h' l a lc rc.
Proof. intros [_ Ht] Hl (n & Hn & Hi). exists n. by rewrite Ht. Qed.

Lemma touches_evolves h h' S F F' :
  touches h h' S → (∀ x, x ∈ S → x ∈ F ∨ cells h !! x = None) → F' ⊆ F ∪ S →
  evolves h h' F F'.
Proof.
  intros [Hwf Ht] HS HF. split; [done| |].
  - intros x Hx Hn. apply Ht. intros HxS. destruct (HS x HxS); [done|].
    by rewrite eq_None_not_Some in H3.
  - intros x Hx. destruct (decide (x ∈ F)); [by left|]. apply HS. set_solver.
Qed.

(** *** Reading *)

Lemma node_edge_run h l a lc rc :
  at_loc h l a lc rc →
  ∃ b, node_edge l h = Some ((b, length (pc_edge a)), h) ∧
    bslice b 0 (length (pc_edge a)) = pc_edge a.
Proof.
  intros (n & Hl & [(b & He & Hb) _ _ _ _ _]). exists b. split; [|done].
  unfold node_edge. rewrite (bind_run _ _ _ _ _ (get_run node_edge_bits _ _ _ Hl)).
  rewrite (bind_run _ _ _ _ _ (get_run node_edge_len _ _ _ Hl)).
  unfold pay, cell_of_view, view in He. cbn [c_edge nv_edge] in He.
  destruct (node_edge_bits n) as [b'|]; [|done].
  destruct (node_edge_len n) as [k|]; [|done]. simpl in He. by injection He as -> ->.
Qed.

Lemma metadata_run h l a lc rc :
  at_loc h l a lc rc → get node_metadata l h = Some (pc_meta a, h).
Proof. intros (n & Hl & Hi). by rewrite (get_run _ _ _ _ Hl), (ni_meta _ _ _ _ Hi). Qed.

Lemma prefix_run h l a lc rc :
  at_loc h l a lc rc → get node_prefix l h = Some (pc_prefix a, h).
Proof. intros (n & Hl & Hi). by rewrite (get_run _ _ _ _ Hl), (ni_prefix _ _ _ _ Hi). Qed.

Lemma left_run h l a lc rc : at_loc h l a lc rc → get node_left l h = Some (lc, h).
Proof. intros (n & Hl & Hi). by rewrite (get_run _ _ _ _ Hl), (ni_left _ _ _ _ Hi). Qed.

Lemma right_run h l a lc rc : at_loc h l a lc rc → get node_right l h = Some (rc, h).
Proof. intros (n & Hl & Hi). by rewrite (get_run _ _ _ _ Hl), (ni_right _ _ _ _ Hi). Qed.

(** *** Writing *)

Lemma modify_at f h l a lc rc a' lc' rc' :
  heap_wf h → (∀ n, node_is n a lc rc → node_is (f n) a' lc' rc') →
  at_loc h l a lc rc →
  ∃ h', modify f l h = Some (tt, h') ∧ at_loc h' l a' lc' rc' ∧ touches h h' {[l]}.
Proof.
  intros Hwf Hf (n & Hl & Hi). eexists. split; [by apply modify_run|]. split.
  - exists (f n). simpl. rewrite lookup_insert_eq. auto.
  - split; [by apply heap_wf_write; eauto|]. intros x Hx. simpl. apply lookup_insert_ne. set_solver.
Qed.

Lemma meta_pay (n : NodeWrapper) : node_metadata n = c_meta (pay n).
Proof. done. Qed.
Lemma prefix_pay (n : NodeWrapper) : node_prefix n = c_prefix (pay n).
Proof. done. Qed.

Ltac node_is_tac L :=
  let n := fresh "n" in let Hi := fresh in
  intros n Hi; destruct Hi as [[? [He Hb]] ? Hm Hp HL HR]; destruct (L n) as (HL' & HR' & HP);
  split; cbn [pc_edge pc_meta pc_prefix];
  first [ congruence
        | rewrite HP; solve [eauto]
        | rewrite meta_pay, HP; first [done | exact Hm]
        | rewrite prefix_pay, HP; first [done | exact Hp]
        | done ].

Lemma set_left_at y h l a lc rc :
  heap_wf h → at_loc h l a lc rc →
  ∃ h', modify (λ w, node_set_left w y) l h = Some (tt, h') ∧
    at_loc h' l a y rc ∧ touches h h' {[l]}.
Proof. intros Hwf. apply modify_at; [done|]. node_is_tac (λ n : NodeWrapper, set_left_fields n y). Qed.

Lemma set_right_at y h l a lc rc :
  heap_wf h → at_loc h l a lc rc →
  ∃ h', modify (λ w, node_set_right w y) l h = Some (tt, h') ∧
    at_loc h' l a lc y ∧ touches h h' {[l]}.
Proof. intros Hwf. apply modify_at; [done|]. node_is_tac (λ n : NodeWrapper, set_right_fields n y). Qed.

Lemma set_metadata_at md h l a lc rc :
  heap_wf h → at_loc h l a lc rc →
  ∃ h', modify (λ w, node_set_metadata w md) l h = Some (tt, h') ∧
    at_loc h' l (mkP (pc_edge a) (Some md) (pc_prefix a)) lc rc ∧ touches h h' {[l]}.
Proof. intros Hwf. apply modify_at; [done|]. node_is_tac (λ n : NodeWrapper, set_metadata_fields n md). Qed.

Lemma clear_metadata_at h l a lc rc :
  heap_wf h → at_loc h l a lc rc →
  ∃ h', modify node_clear_metadata l h = Some (tt, h') ∧
    at_loc h' l (mkP (pc_edge a) None (pc_prefix a)) lc rc ∧ touches h h' {[l]}.
Proof. intros Hwf. apply modify_at; [done|]. node_is_tac (λ n : NodeWrapper, clear_metadata_fields n). Qed.

Lemma set_prefix_at p h l a lc rc :
  heap_wf h → at_loc h l a lc rc →
  ∃ h', modify (λ w, node_set_prefix w p) l h = Some (tt, h') ∧
    at_loc h' l (mkP (pc_edge a) (pc_meta a) (Some p)) lc rc ∧ touches h h' {[l]}.
Proof. intros Hwf. apply modify_at; [done|]. node_is_tac (λ n : NodeWrapper, set_prefix_fields n p). Qed.

Lemma set_edge_at b k h l a lc rc :
  heap_wf h → at_loc h l a lc rc → (k ≤ 128)%nat →
  ∃ h', set_edge l b k h = Some (tt, h') ∧
    at_loc h' l (mkP (bslice b 0 k) (pc_meta a) (pc_prefix a)) lc rc ∧ touches h h' {[l]}.
Proof.
  intros Hwf (n & Hl & [[b' [He Hb]] Hlen Hm Hp HL HR]) Hk.
  destruct (set_edge_fields n b k) as (n' & Hset & HL' & HR' & HP); [rewrite He; eauto|].
  unfold set_edge, modify_opt. rewrite Hl. simpl. rewrite Hset. simpl.
  eexists. split; [done|]. split.
  - exists n'. simpl. rewrite lookup_insert_eq. split; [done|].
    split; cbn [pc_edge pc_meta pc_prefix]; rewrite ?length_bslice; try congruence.
    + rewrite HP. eauto.
    + rewrite meta_pay, HP. exact Hm.
    + rewrite prefix_pay, HP. exact Hp.
  - split; [by apply heap_wf_write; eauto|]. intros x Hx. simpl. apply lookup_insert_ne. set_solver.
Qed.

Lemma alloc_at b h :
  heap_wf h → is_compressed (nb_variant b) = true →
  ∃ x h', alloc (build b) h = Some (x, h') ∧ cells h !! x = None ∧
    at_loc h' x (mkP [] None None) None None ∧ touches h h' {[x]}.
Proof.
  intros Hwf Hc. destruct (build_fields b) as (HL & HR & HP). rewrite Hc in HP.
  eexists _, _. split; [done|]. split; [by apply heap_wf_fresh|]. split.
  - exists (build b). simpl. rewrite lookup_insert_eq. split; [done|].
    split; cbn [pc_edge pc_meta pc_prefix]; [|simpl; lia| | |done|done].
    + rewrite HP. simpl. eauto.
    + by rewrite meta_pay, HP.
    + by rewrite prefix_pay, HP.
  - split; [by apply heap_wf_alloc|]. intros x Hx. simpl. apply lookup_insert_ne. set_solver.
Qed.

(** Run one step of a computation: [L] says what it does. *)
Ltac run L :=
  let Hrun := fresh "Hrun" in
  first [ rewrite (bind_run _ _ _ _ _ L)
        | destruct L as (? & Hrun & ? & ?); rewrite (bind_run _ _ _ _ _ Hrun); clear Hrun ].

(** Facts about untouched locations and accumulated footprints. *)
Ltac keep :=
  lazymatch goal with
  | |- heap_wf ?h => match goal with T : touches _ h _ |- _ => exact (proj1 T) end
  | |- at_loc ?h ?l _ _ _ =>
      first [ eassumption
            | match goal with
              | T : touches ?h0 h _, A : at_loc ?h0 l _ _ _ |- _ =>
                  eapply (at_loc_touches _ _ _ _ _ _ _ T); [set_solver|exact A]
              end ]
  end.

Lemma new_leaf_at b bits len p md h :
  heap_wf h → is_compressed (nb_variant b) = true → (len ≤ 128)%nat →
  ∃ x h', new_leaf b bits len p md h = Some (x, h') ∧ cells h !! x = None ∧
    at_loc h' x (mkP (bslice bits 0 len) (Some md) (Some p)) None None ∧ touches h h' {[x]}.
Proof.
  intros Hwf Hc Hlen. unfold new_leaf.
  destruct (alloc_at b h Hwf Hc) as (x & h1 & Hal & Hfresh & A1 & T1).
  rewrite (bind_run _ _ _ _ _ Hal).
  destruct (set_edge_at bits len h1 x _ _ _ (proj1 T1) A1 Hlen) as (h2 & R2 & A2 & T2).
  rewrite (bind_run _ _ _ _ _ R2).
  destruct (set_prefix_at p h2 x _ _ _ (proj1 T2) A2) as (h3 & R3 & A3 & T3).
  rewrite (bind_run _ _ _ _ _ R3).
  destruct (set_metadata_at md h3 x _ _ _ (proj1 T3) A3) as (h4 & R4 & A4 & T4).
  rewrite (bind_run _ _ _ _ _ R4).
  exists x, h4. split_and!; [done|done|exact A4|]. eauto using touches_then.
Qed.

Lemma set_child_of_at (bit : Z) y h l a lc rc :
  heap_wf h → at_loc h l a lc rc →
  ∃ h', set_child_of bit l y h = Some (tt, h') ∧
    at_loc h' l a (if bit =? 0 then Some y else lc) (if bit =? 0 then rc else Some y) ∧
    touches h h' {[l]}.
Proof.
  intros Hwf Ha. unfold set_child_of.
  destruct (bit =? 0); [by eapply set_left_at|by eapply set_right_at].
Qed.

(** Moving the metadata and the prefix of [l] down to the new child [x]. *)
Lemma move_metadata_at h l x a lc rc e :
  heap_wf h → x ≠ l → at_loc h l a lc rc → at_loc h x (mkP e None None) None None →
  ∃ h', (match pc_meta a with
         | Some m => _ ← modify (λ w, node_set_metadata w m) x; modify node_clear_metadata l
         | None => mret tt
         end) h = Some (tt, h') ∧
    at_loc h' l (mkP (pc_edge a) None (pc_prefix a)) lc rc ∧
    at_loc h' x (mkP e (pc_meta a) None) None None ∧ touches h h' {[l; x]}.
Proof.
  intros Hwf Hne Hl Hx. destruct a as [e0 [m|] pf]; simpl.
  - destruct (set_metadata_at m h x _ _ _ Hwf Hx) as (h1 & R1 & A1 & T1).
    rewrite (bind_run _ _ _ _ _ R1).
    assert (at_loc h1 l (mkP e0 (Some m) pf) lc rc) as Hl1 by keep.
    destruct (clear_metadata_at h1 l _ _ _ (proj1 T1) Hl1) as (h2 & R2 & A2 & T2).
    exists h2. split_and!; [done|done|keep|].
    eapply touches_trans; [exact T1|exact T2|set_solver..].
  - exists h. split_and!; [done..|by apply touches_refl].
Qed.

Lemma move_prefix_at h l x a lc rc e m :
  heap_wf h → x ≠ l → at_loc h l a lc rc → at_loc h x (mkP e m None) None None →
  ∃ h', (match pc_prefix a with
         | Some p => modify (λ w, node_set_prefix w p) x
         | None => mret tt
         end) h = Some (tt, h') ∧
    at_loc h' l a lc rc ∧ at_loc h' x (mkP e m (pc_prefix a)) None None ∧
    touches h h' {[l; x]}.
Proof.
  intros Hwf Hne Hl Hx. destruct (pc_prefix a) as [p|].
  - destruct (set_prefix_at p h x _ _ _ Hwf Hx) as (h1 & R1 & A1 & T1).
    exists h1. split_and!; [done|keep|done|].
    eapply touches_weaken; [exact T1|set_solver].
  - exists h. split_and!; [done..|by apply touches_refl].
Qed.

Lemma split_node_at b h l a lc rc eb s :
  heap_wf h → is_compressed (nb_variant b) = true → at_loc h l a lc rc →
  bslice eb 0 (length (pc_edge a)) = pc_edge a → (s < length (pc_edge a))%nat →
  ∃ x h', split_node b l eb (length (pc_edge a)) s h = Some (tt, h') ∧ cells h !! x = None ∧
    (let pivot := default false (pc_edge a !! s) in
     at_loc h' l (mkP (take s (pc_edge a)) None (pc_prefix a))
       (if pivot then None else Some x) (if pivot then Some x else None)) ∧
    at_loc h' x (mkP (drop (S s) (pc_edge a)) (pc_meta a) (pc_prefix a)) lc rc ∧
    touches h h' {[l; x]}.
Proof.
  intros Hwf Hc Hl Heb Hs. unfold split_node.
  assert (length (pc_edge a) ≤ 128)%nat as Hlen by (destruct Hl as (? & _ & Hi); apply Hi).
  destruct (alloc_at b h Hwf Hc) as (x & h1 & Hal & Hfresh & X1 & T1).
  rewrite (bind_run _ _ _ _ _ Hal).
  assert (x ≠ l) as Hxl by (destruct Hl as (? & ? & _); congruence).
  assert (L1 : at_loc h1 l a lc rc) by keep.
  destruct (set_edge_at (extract_bits eb (s + 1) (length (pc_edge a) - s - 1))
    (length (pc_edge a) - s - 1) h1 x _ _ _ (proj1 T1) X1 ltac:(lia)) as (h2 & R2 & X2 & T2).
  rewrite (bind_run _ _ _ _ _ R2). assert (L2 : at_loc h2 l a lc rc) by keep.
  rewrite (bind_run _ _ _ _ _ (metadata_run _ _ _ _ _ L2)).
  destruct (move_metadata_at h2 l x a lc rc _ (proj1 T2) Hxl L2 X2) as (h3 & R3 & L3 & X3 & T3).
  rewrite (bind_run _ _ _ _ _ R3), (bind_run _ _ _ _ _ (prefix_run _ _ _ _ _ L3)).
  destruct (move_prefix_at h3 l x _ lc rc _ _ (proj1 T3) Hxl L3 X3) as (h4 & R4 & L4 & X4 & T4).
  rewrite (bind_run _ _ _ _ _ R4), (bind_run _ _ _ _ _ (left_run _ _ _ _ _ L4)).
  destruct (set_left_at lc h4 x _ _ _ (proj1 T4) X4) as (h5 & R5 & X5 & T5).
  rewrite (bind_run _ _ _ _ _ R5). assert (L5 : at_loc h5 l (mkP (pc_edge a) None (pc_prefix a)) lc rc) by keep.
  rewrite (bind_run _ _ _ _ _ (right_run _ _ _ _ _ L5)).
  destruct (set_right_at rc h5 x _ _ _ (proj1 T5) X5) as (h6 & R6 & X6 & T6).
  rewrite (bind_run _ _ _ _ _ R6). assert (L6 : at_loc h6 l (mkP (pc_edge a) None (pc_prefix a)) lc rc) by keep.
  destruct (set_edge_at (extract_bits eb 0 s) s h6 l _ _ _ (proj1 T6) L6 ltac:(lia)) as (h7 & R7 & L7 & T7).
  rewrite (bind_run _ _ _ _ _ R7).
  destruct (set_left_at None h7 l _ _ _ (proj1 T7) L7) as (h8 & R8 & L8 & T8).
  rewrite (bind_run _ _ _ _ _ R8).
  destruct (set_right_at None h8 l _ _ _ (proj1 T8) L8) as (h9 & R9 & L9 & T9).
  rewrite (bind_run _ _ _ _ _ R9).
  destruct (set_child_of_at (get_bit_from_bytes eb s) x h9 l _ _ _ (proj1 T9) L9) as (h10 & R10 & L10 & T10).
  assert (touches h6 h10 {[l]}) as T610.
  { eauto using touches_then. }
  exists x, h10. split; [done|]. split; [done|]. split_and!.
  - rewrite bit_is_zero, bslice_extract in L10 by lia. cbn [pc_meta pc_prefix] in L10.
    rewrite <- Heb, bslice_lookup, bslice_take by lia. rewrite Nat.add_0_l.
    destruct (get_bit_from_bytes eb s =? 1); exact L10.
  - rewrite bslice_extract in X6 by lia.
    rewrite <- Heb, bslice_drop.
    replace (0 + S s)%nat with (s + 1)%nat by lia.
    replace (length (pc_edge a) - S s)%nat with (length (pc_edge a) - s - 1)%nat by lia. keep.
  - eapply touches_then; [|eapply touches_weaken; [exact T610|set_solver]].
    do 2 (eapply touches_then; [eapply touches_weaken; [eassumption|set_solver]|]).
    do 2 (eapply touches_then; [eassumption|]).
    eapply touches_then; eapply touches_weaken; eauto; set_solver.
Qed.

(** *** Trees in the heap *)

Inductive prep h : btree pcell → option loc → gset loc → Prop :=
  | prep_nil : prep h Nil None ∅
  | prep_bin l a lc rc t0 t1 F0 F1 :
      at_loc h l a lc rc → prep h t0 lc F0 → prep h t1 rc F1 →
      l ∉ F0 → l ∉ F1 → F0 ## F1 →
      prep h (Bin a t0 t1) (Some l) ({[l]} ∪ F0 ∪ F1).

Lemma prep_some h t l F :
  prep h t (Some l) F →
  ∃ a lc rc t0 t1 F0 F1, t = Bin a t0 t1 ∧ at_loc h l a lc rc ∧
    prep h t0 lc F0 ∧ prep h t1 rc F1 ∧ l ∉ F0 ∧ l ∉ F1 ∧ F0 ## F1 ∧ F = {[l]} ∪ F0 ∪ F1.
Proof. inversion 1; subst. eauto 20. Qed.

Lemma prep_none h t F : prep h t None F → t = Nil ∧ F = ∅.
Proof. by inversion 1. Qed.

Lemma prep_is_nil h t o F : prep h t o F → is_nil t = is_none o.
Proof. by destruct 1. Qed.

Lemma prep_dom h t o F x : prep h t o F → x ∈ F → is_Some (cells h !! x).
Proof.
  induction 1 as [|l a lc rc t0 t1 F0 F1 (n & Hl & _)]; [set_solver|].
  rewrite !elem_of_union, elem_of_singleton. intros [[->|?]|?]; eauto.
Qed.

Lemma prep_frame h h' t o F :
  prep h t o F → (∀ x, x ∈ F → cells h' !! x = cells h !! x) → prep h' t o F.
Proof.
  induction 1 as [|l a lc rc t0 t1 F0 F1 (n & Hl & Hi) _ IH0 _ IH1]; intros Heq; [constructor|].
  econstructor; try done.
  - exists n. rewrite Heq; [done|set_solver].
  - apply IH0. set_solver.
  - apply IH1. set_solver.
Qed.

Lemma prep_evolves h h' F F' t o G :
  evolves h h' F F' → prep h t o G → F ## G → prep h' t o G ∧ F' ## G.
Proof.
  intros Hev Hr Hd. split.
  - eapply prep_frame; [exact Hr|]. intros x Hx.
    apply (ev_frame _ _ _ _ Hev); [by eapply prep_dom|set_solver].
  - intros x Hx Hg. destruct (ev_fresh _ _ _ _ Hev x Hx) as [|Hnone]; [set_solver|].
    destruct (prep_dom _ _ _ _ x Hr Hg). congruence.
Qed.

Lemma prep_touches h h' S t o F :
  prep h t o F → touches h h' S → (∀ x, x ∈ S → x ∈ F → False) → prep h' t o F.
Proof. intros Hr [_ Ht] HS. eapply prep_frame; [exact Hr|]. intros x Hx. apply Ht. eauto. Qed.

(** A fresh location is outside every represented tree. *)
Lemma prep_fresh h t o F x : prep h t o F → cells h !! x = None → x ∉ F.
Proof. intros Hr Hx Hin. destruct (prep_dom _ _ _ _ _ Hr Hin). congruence. Qed.

(** The child on the side of [b]. *)
Definition pick {A} (b : bool) (x y : A) : A := if b then y else x.

(** Replacing the subtree on the side of [b]. *)
Lemma prep_descend (b : bool) h h' l a lc rc t0 t1 F0 F1 sub Fc :
  at_loc h l a lc rc → prep h t0 lc F0 → prep h t1 rc F1 →
  l ∉ F0 → l ∉ F1 → F0 ## F1 →
  evolves h h' (pick b F0 F1) Fc → prep h' sub (pick b lc rc) Fc →
  ∃ F', prep h' (join a b sub (pick b t1 t0)) (Some l) F' ∧
    evolves h h' ({[l]} ∪ F0 ∪ F1) F'.
Proof.
  intros Ha Hr0 Hr1 Hn0 Hn1 Hd Hev Hsub. pose proof Ha as (n & Hl & Hi).
  assert (at_loc h' l a lc rc) as Ha'.
  { exists n. split; [|done]. rewrite (ev_frame _ _ _ _ Hev); [done|by rewrite Hl|].
    destruct b; done. }
  assert (l ∉ Fc) as Hlc.
  { intros Hin. destruct (ev_fresh _ _ _ _ Hev l Hin) as [Hx|Hx]; [|congruence].
    destruct b; done. }
  assert (∀ G, (pick b F0 F1) ## G → (∃ t o, prep h t o G) →
    evolves h h' ({[l]} ∪ pick b F0 F1 ∪ G) ({[l]} ∪ Fc ∪ G)) as Hevs.
  { intros G HG _. eapply evolves_weaken; [| |apply (evolves_extend _ _ _ _ ({[l]} ∪ G) Hev)]; set_solver. }
  destruct b; simpl in *.
  - destruct (prep_evolves _ _ _ _ _ _ _ Hev Hr0) as [Hr0' Hd0]; [set_solver|].
    exists ({[l]} ∪ F0 ∪ Fc). split; [by econstructor; eauto|].
    eapply evolves_weaken; [| |apply (Hevs F0)]; eauto; set_solver.
  - destruct (prep_evolves _ _ _ _ _ _ _ Hev Hr1) as [Hr1' Hd1]; [set_solver|].
    exists ({[l]} ∪ Fc ∪ F1). split; [by econstructor; eauto|].
    eapply evolves_weaken; [| |apply (Hevs F1)]; eauto; set_solver.
Qed.

(** Hanging a fresh leaf on the empty side of [b]. *)
Lemma prep_attach (b : bool) h h' l a' lc rc t0 t1 F0 F1 x ax :
  prep h t0 lc F0 → prep h t1 rc F1 → l ∉ F0 → l ∉ F1 → F0 ## F1 →
  is_Some (cells h !! l) → pick b lc rc = None → cells h !! x = None →
  touches h h' {[l; x]} →
  at_loc h' x ax None None →
  at_loc h' l a' (pick b (Some x) lc) (pick b rc (Some x)) →
  ∃ F', prep h' (join a' b (Bin ax Nil Nil) (pick b t1 t0)) (Some l) F' ∧
    evolves h h' ({[l]} ∪ F0 ∪ F1) F'.
Proof.
  intros Hr0 Hr1 Hn0 Hn1 Hd [n Hl] Hpick Hx Ht Hax Hal.
  pose proof (prep_fresh _ _ _ _ _ Hr0 Hx). pose proof (prep_fresh _ _ _ _ _ Hr1 Hx).
  assert (l ≠ x) as Hlx by congruence.
  assert (prep h' (Bin ax Nil Nil) (Some x) {[x]}) as Hleaf.
  { replace ({[x]} : gset loc) with (({[x]} ∪ ∅) ∪ ∅ : gset loc) by set_solver.
    econstructor; [exact Hax|constructor|constructor|set_solver..]. }
  assert (∀ G, prep h (pick b t1 t0) (pick b rc lc) G → G = pick b F1 F0 → prep h' (pick b t1 t0) (pick b rc lc) G) as Ho.
  { intros G HG ->. eapply prep_touches; [exact HG|exact Ht|]. destruct b; simpl; set_solver. }
  exists ({[l]} ∪ pick b {[x]} F0 ∪ pick b F1 {[x]}). split.
  - destruct b; simpl in *; econstructor; eauto; set_solver.
  - eapply touches_evolves; [exact Ht| |].
    + intros y. rewrite elem_of_union, !elem_of_singleton. intros [->| ->]; [left; set_solver|by right].
    + destruct b; simpl; set_solver.
Qed.

(** Changing only the cell of the root. *)
Lemma prep_write_root h h' l a' lc rc t0 t1 F0 F1 :
  prep h t0 lc F0 → prep h t1 rc F1 → l ∉ F0 → l ∉ F1 → F0 ## F1 →
  touches h h' {[l]} → at_loc h' l a' lc rc →
  prep h' (Bin a' t0 t1) (Some l) ({[l]} ∪ F0 ∪ F1) ∧
  evolves h h' ({[l]} ∪ F0 ∪ F1) ({[l]} ∪ F0 ∪ F1).
Proof.
  intros Hr0 Hr1 Hn0 Hn1 Hd Ht Ha. split.
  - econstructor; [exact Ha| | |done..]; eapply prep_touches; eauto; set_solver.
  - eapply touches_evolves; [exact Ht|set_solver|set_solver].
Qed.

Lemma update_run {A} (r : A) p md h l a lc rc :
  heap_wf h → at_loc h l a lc rc →
  ∃ h', (_ ← modify (λ w, node_set_metadata w md) l;
         _ ← modify (λ w, node_set_prefix w p) l; mret r) h = Some (r, h') ∧
    at_loc h' l (mkP (pc_edge a) (Some md) (Some p)) lc rc ∧ touches h h' {[l]}.
Proof.
  intros Hwf Ha.
  destruct (set_metadata_at md h l _ _ _ Hwf Ha) as (h1 & R1 & A1 & T1).
  rewrite (bind_run _ _ _ _ _ R1).
  destruct (set_prefix_at p h1 l _ _ _ (proj1 T1) A1) as (h2 & R2 & A2 & T2).
  rewrite (bind_run _ _ _ _ _ R2). exists h2. split_and!; [done|done|]. eauto using touches_then.
Qed.

(** The empty node takes the rest of the key as its edge. *)
Lemma store_run bits len p md h l a lc rc :
  heap_wf h → at_loc h l a lc rc → (len ≤ 128)%nat →
  ∃ h', (_ ← set_edge l bits len;
         _ ← modify (λ w, node_set_prefix w p) l;
         _ ← modify (λ w, node_set_metadata w md) l; mret true) h = Some (true, h') ∧
    at_loc h' l (mkP (bslice bits 0 len) (Some md) (Some p)) lc rc ∧ touches h h' {[l]}.
Proof.
  intros Hwf Ha Hlen.
  destruct (set_edge_at bits len h l _ _ _ Hwf Ha Hlen) as (h1 & R1 & A1 & T1).
  rewrite (bind_run _ _ _ _ _ R1).
  destruct (set_prefix_at p h1 l _ _ _ (proj1 T1) A1) as (h2 & R2 & A2 & T2).
  rewrite (bind_run _ _ _ _ _ R2).
  destruct (set_metadata_at md h2 l _ _ _ (proj1 T2) A2) as (h3 & R3 & A3 & T3).
  rewrite (bind_run _ _ _ _ _ R3). exists h3. split_and!; [done|done|]. eauto using touches_then.
Qed.

(** A new leaf on the side of a bit that has no child. *)
Lemma leaf_run b bits len (bit : Z) p md h l a lc rc t0 t1 F0 F1 :
  heap_wf h → is_compressed (nb_variant b) = true → (len ≤ 128)%nat →
  at_loc h l a lc rc → prep h t0 lc F0 → prep h t1 rc F1 →
  l ∉ F0 → l ∉ F1 → F0 ## F1 → pick (negb (bit =? 0)) lc rc = None →
  ∃ h' F', (leaf ← new_leaf b bits len p md; _ ← set_child_of bit l leaf; mret true) h
      = Some (true, h') ∧
    prep h' (join a (negb (bit =? 0)) (pleaf (bslice bits 0 len) p md)
               (pick (negb (bit =? 0)) t1 t0)) (Some l) F' ∧
    evolves h h' ({[l]} ∪ F0 ∪ F1) F'.
Proof.
  intros Hwf Hc Hlen Ha Hr0 Hr1 Hn0 Hn1 Hd Hpick.
  destruct (new_leaf_at b bits len p md h Hwf Hc Hlen) as (x & h1 & R1 & Hx & X1 & T1).
  rewrite (bind_run _ _ _ _ _ R1).
  assert (x ≠ l) as Hxl by (destruct Ha as (? & ? & _); congruence).
  assert (L1 : at_loc h1 l a lc rc) by keep.
  destruct (set_child_of_at bit x h1 l _ _ _ (proj1 T1) L1) as (h2 & R2 & L2 & T2).
  rewrite (bind_run _ _ _ _ _ R2).
  assert (touches h h2 {[l; x]}) as T.
  { eapply touches_then; eapply touches_weaken; eauto; set_solver. }
  destruct (prep_attach (negb (bit =? 0)) h h2 l a lc rc t0 t1 F0 F1 x
    (mkP (bslice bits 0 len) (Some md) (Some p))) as (F' & Hr & Hev); try done.
  - destruct Ha as (n & Hl & _). eauto.
  - keep.
  - by destruct (bit =? 0).
  - eauto.
Qed.

(** After the split: [l] keeps the shared part, one child has the rest. *)
Lemma split_prep b h l a lc rc eb s t0 t1 F0 F1 :
  heap_wf h → is_compressed (nb_variant b) = true → at_loc h l a lc rc →
  prep h t0 lc F0 → prep h t1 rc F1 → l ∉ F0 → l ∉ F1 → F0 ## F1 →
  bslice eb 0 (length (pc_edge a)) = pc_edge a → (s < length (pc_edge a))%nat →
  let pivot := default false (pc_edge a !! s) in
  let child := Bin (mkP (drop (S s) (pc_edge a)) (pc_meta a) (pc_prefix a)) t0 t1 in
  ∃ h' lc' rc' F0' F1', split_node b l eb (length (pc_edge a)) s h = Some (tt, h') ∧
    heap_wf h' ∧ at_loc h' l (mkP (take s (pc_edge a)) None (pc_prefix a)) lc' rc' ∧
    prep h' (pick pivot child Nil) lc' F0' ∧ prep h' (pick pivot Nil child) rc' F1' ∧
    pick pivot rc' lc' = None ∧ l ∉ F0' ∧ l ∉ F1' ∧ F0' ## F1' ∧
    evolves h h' ({[l]} ∪ F0 ∪ F1) ({[l]} ∪ F0' ∪ F1').
Proof.
  intros Hwf Hc Ha Hr0 Hr1 Hn0 Hn1 Hd Heb Hs pivot child.
  destruct (split_node_at b h l a lc rc eb s Hwf Hc Ha Heb Hs) as (x & h' & R & Hx & L & X & T).
  fold pivot in L.
  pose proof (prep_fresh _ _ _ _ _ Hr0 Hx) as Hx0. pose proof (prep_fresh _ _ _ _ _ Hr1 Hx) as Hx1.
  assert (x ≠ l) as Hxl by (destruct Ha as (? & ? & _); congruence).
  assert (prep h' child (Some x) ({[x]} ∪ F0 ∪ F1)) as Hchild.
  { econstructor; [exact X| | |done..]; eapply prep_touches; eauto; set_solver. }
  assert (l ∉ {[x]} ∪ F0 ∪ F1) as Hlx by set_solver.
  assert (evolves h h' ({[l]} ∪ F0 ∪ F1) ({[l]} ∪ ({[x]} ∪ F0 ∪ F1))) as Hev.
  { eapply touches_evolves; [exact T| |set_solver].
    intros y. rewrite elem_of_union, !elem_of_singleton. intros [->| ->]; [left; set_solver|by right]. }
  destruct pivot; simpl in *.
  - exists h', None, (Some x), ∅, ({[x]} ∪ F0 ∪ F1).
    split_and!; [done|apply Hev|done|constructor|done|done|set_solver|done|set_solver|].
    by rewrite union_empty_r_L.
  - exists h', (Some x), None, ({[x]} ∪ F0 ∪ F1), ∅.
    split_and!; [done|apply Hev|done|done|constructor|done|done|set_solver|set_solver|].
    by rewrite union_empty_r_L.
Qed.

Lemma join_comm a b t0 t1 : join a (negb b) t0 t1 = join a b t1 t0.
Proof. by destruct b. Qed.

Lemma join_pick a b t0 t1 : Bin a (pick b t0 t1) (pick b t1 t0) = join a b t0 t1.
Proof. by destruct b. Qed.

Lemma child_of_run bit h l a lc rc :
  at_loc h l a lc rc → child_of bit l h = Some (pick (negb (bit =? 0)) lc rc, h).
Proof.
  intros Ha. unfold child_of. destruct (bit =? 0); [by eapply left_run|by eapply right_run].
Qed.

(** *** The recursive operations *)

(** The remaining bits of the key at a depth. *)
Definition rest (key : list Z) (key_len depth : nat) : list bool :=
  bslice key depth (key_len - depth).

Lemma rest_extract key key_len depth :
  (key_len ≤ 128)%nat →
  bslice (extract_bits key depth (key_len - depth)) 0 (key_len - depth) = rest key key_len depth.
Proof. intros. by rewrite bslice_extract by lia. Qed.

Lemma rest_shared eb e key key_len depth :
  (key_len ≤ 128)%nat → bslice eb 0 (length e) = e →
  common_prefix_len eb (length e) (extract_bits key depth (key_len - depth)) (key_len - depth) =
  lcp e (rest key key_len depth).
Proof. intros Hk He. by rewrite common_prefix_len_lcp, He, rest_extract. Qed.

Lemma rest_drop key key_len depth s :
  drop (S s) (rest key key_len depth) = rest key key_len (depth + s + 1).
Proof. unfold rest. rewrite bslice_drop. f_equal; lia. Qed.

Lemma rest_bit key key_len depth s :
  (key_len ≤ 128)%nat → (s < key_len - depth)%nat →
  negb (get_bit_from_bytes (extract_bits key depth (key_len - depth)) s =? 0) =
  default false (rest key key_len depth !! s).
Proof.
  intros Hk Hs. rewrite bit_is_zero, negb_involutive, <- (rest_extract _ _ _ Hk).
  by rewrite bslice_lookup, Nat.add_0_l.
Qed.

Lemma rest_key_bit key key_len depth s :
  (s < key_len - depth)%nat →
  negb (get_bit_from_bytes key (depth + s) =? 0) = default false (rest key key_len depth !! s).
Proof.
  intros Hs. rewrite bit_is_zero, negb_involutive. unfold rest. by rewrite bslice_lookup.
Qed.

Lemma lcp_le e k : (lcp e k ≤ length e ∧ lcp e k ≤ length k)%nat.
Proof. destruct (lcp_meet e k); rewrite ?length_app; simpl; lia. Qed.

Lemma lcp_fork e k :
  (lcp e k < length e)%nat → (lcp e k < length k)%nat →
  default false (k !! lcp e k) = negb (default false (e !! lcp e k)).
Proof.
  destruct (lcp_meet e k) as [e k|k b e|c b e k]; rewrite ?length_app; simpl; [lia|lia|].
  intros _ _. by rewrite !list_lookup_middle.
Qed.

Section insert.
Context (b : NodeBuilder) (key : list Z) (key_len : nat) (p : IpNetwork) (md : Metadata).
Hypothesis (Hc : is_compressed (nb_variant b) = true) (Hk : (key_len ≤ 128)%nat).

(** The branch that splits the edge of [l]. *)
Lemma insert_split_run h l a lc rc eb t0 t1 F0 F1 depth :
  let k := rest key key_len depth in
  let e := pc_edge a in
  let s := lcp e k in
  let remaining := (key_len - depth)%nat in
  let key_rem := extract_bits key depth remaining in
  heap_wf h → at_loc h l a lc rc →
  prep h t0 lc F0 → prep h t1 rc F1 → l ∉ F0 → l ∉ F1 → F0 ## F1 →
  bslice eb 0 (length e) = e → (s < length e)%nat →
  ∃ h' F',
    (_ ← split_node b l eb (length e) s;
     if (s =? remaining)%nat then
       _ ← modify (λ w, node_set_metadata w md) l;
       _ ← modify (λ w, node_set_prefix w p) l;
       mret true
     else
       let new_bit := get_bit_from_bytes key_rem s in
       let new_leaf_edge := extract_bits key_rem (s + 1) (remaining - s - 1) in
       leaf ← new_leaf b new_leaf_edge (remaining - s - 1) p md;
       _ ← set_child_of new_bit l leaf;
       mret true) h = Some (true, h') ∧
    (let child := Bin (mkP (drop (S s) e) (pc_meta a) (pc_prefix a)) t0 t1 in
     let pivot := default false (e !! s) in
     prep h' (if (s =? length k)%nat then join (mkP (take s e) (Some md) (Some p)) pivot child Nil
              else join (mkP (take s e) None (pc_prefix a)) pivot child (pleaf (drop (S s) k) p md))
       (Some l) F') ∧
    evolves h h' ({[l]} ∪ F0 ∪ F1) F'.
Proof.
  intros k e s remaining key_rem Hwf Ha Hr0 Hr1 Hn0 Hn1 Hd Heb Hs.
  assert (length k = remaining) as Hlk by apply length_bslice.
  destruct (split_prep b h l a lc rc eb s t0 t1 F0 F1 Hwf Hc Ha Hr0 Hr1 Hn0 Hn1 Hd Heb Hs)
    as (h1 & lc' & rc' & F0' & F1' & R1 & Hwf1 & L1 & P0 & P1 & Hpick & Hl0 & Hl1 & Hd' & Hev1).
  rewrite (bind_run _ _ _ _ _ R1), Hlk. cbv zeta.
  destruct (Nat.eqb_spec s remaining) as [Hsr|Hsr].
  - destruct (update_run true p md h1 l _ _ _ Hwf1 L1) as (h2 & R2 & L2 & T2).
    destruct (prep_write_root _ _ _ _ _ _ _ _ _ _ P0 P1 Hl0 Hl1 Hd' T2 L2) as [Hr Hev2].
    exists h2, ({[l]} ∪ F0' ∪ F1'). rewrite join_pick in Hr.
    split_and!; [exact R2|exact Hr|by eapply evolves_trans].
  - assert (s < remaining)%nat as Hsr'.
    { pose proof (proj2 (lcp_le e k)). unfold s in *. lia. }
    pose proof (rest_bit key key_len depth s Hk Hsr') as Hbit. fold k in Hbit.
    assert (lcp e k < length k)%nat as Hsk by (fold s; lia).
    pose proof (lcp_fork e k Hs Hsk) as Hfork. fold s in Hfork. rewrite Hfork in Hbit.
    destruct (leaf_run b (extract_bits key_rem (s + 1) (remaining - s - 1)) (remaining - s - 1)
      (get_bit_from_bytes key_rem s) p md h1 l _ lc' rc' _ _ F0' F1' Hwf1 Hc ltac:(lia) L1 P0 P1
      Hl0 Hl1 Hd') as (h2 & F2 & R2 & Hr & Hev2).
    { fold remaining key_rem in Hbit. rewrite Hbit.
      revert Hpick. fold e. by destruct (default false (e !! s)). }
    exists h2, F2. split_and!; [exact R2| |by eapply evolves_trans].
    fold remaining key_rem in Hbit. rewrite Hbit, join_comm in Hr.
    rewrite bslice_extract in Hr by lia.
    replace (bslice key_rem (s + 1) (remaining - s - 1)) with (drop (S s) k) in Hr.
    + revert Hr. fold e. by destruct (default false (e !! s)).
    + unfold k. rewrite <- (rest_extract key key_len depth Hk), bslice_drop. f_equal; lia.
Qed.

Lemma insert_inner_refines fuel : ∀ l depth t F h,
  (depth ≤ key_len)%nat → (key_len - depth < fuel)%nat →
  heap_wf h → prep h t (Some l) F →
  ∃ h' F', insert_inner fuel l b key key_len depth p md h =
      Some ((p_insert p md t (rest key key_len depth)).2, h') ∧
    prep h' (p_insert p md t (rest key key_len depth)).1 (Some l) F' ∧
    evolves h h' F F'.
Proof.
  induction fuel as [|fuel IH]; intros l depth t F h Hdk Hf Hwf Hr; [lia|].
  apply prep_some in Hr as (a & lc & rc & t0 & t1 & F0 & F1 & -> & Ha & Hr0 & Hr1 & Hn0 & Hn1 & Hd & ->).
  cbn [insert_inner].
  destruct (node_edge_run h l a lc rc Ha) as (eb & Re & Heb).
  rewrite (bind_run _ _ _ _ _ Re), (bind_run _ _ _ _ _ (metadata_run _ _ _ _ _ Ha)),
    (bind_run _ _ _ _ _ (left_run _ _ _ _ _ Ha)), (bind_run _ _ _ _ _ (right_run _ _ _ _ _ Ha)).
  rewrite <- (prep_is_nil _ _ _ _ Hr0), <- (prep_is_nil _ _ _ _ Hr1).
  change (_ && _ && _ && _)%bool with (p_empty (Bin a t0 t1)).
  set (k := rest key key_len depth).
  assert (length k = (key_len - depth)%nat) as Hlk by apply length_bslice.
  rewrite (rest_shared _ _ _ _ _ Hk Heb). fold k.
  cbn [p_insert]. destruct (p_empty (Bin a t0 t1)) eqn:Hemp.
  { assert (t0 = Nil ∧ t1 = Nil) as [-> ->].
    { simpl in Hemp. bprop. by destruct t0, t1. }
    destruct (store_run (extract_bits key depth (key_len - depth)) (key_len - depth) p md
      h l a lc rc Hwf Ha ltac:(lia)) as (h' & R & L & T).
    rewrite rest_extract in L by done.
    destruct (prep_write_root _ _ _ _ _ _ _ _ _ _ Hr0 Hr1 Hn0 Hn1 Hd T L) as [Hp Hev]. eauto. }
  rewrite Hlk. cbv zeta.
  destruct ((lcp (pc_edge a) k =? length (pc_edge a)) && (lcp (pc_edge a) k =? key_len - depth))%nat%bool eqn:Hex.
  { rewrite (bind_run _ _ _ _ _ (metadata_run _ _ _ _ _ Ha)).
    destruct (update_run (is_none (pc_meta a)) p md h l a lc rc Hwf Ha) as (h' & R & L & T).
    destruct (prep_write_root _ _ _ _ _ _ _ _ _ _ Hr0 Hr1 Hn0 Hn1 Hd T L) as [Hp Hev]. eauto. }
  destruct (lcp (pc_edge a) k <? length (pc_edge a))%nat eqn:Hlt.
  { bprop. destruct (insert_split_run h l a lc rc eb t0 t1 F0 F1 depth) as (h' & F' & R & Hp & Hev);
      try done.
    fold k in R, Hp. rewrite Hlk in Hp. exists h', F'.
    destruct (lcp (pc_edge a) k =? key_len - depth)%nat; eauto. }
  assert (lcp (pc_edge a) k < key_len - depth)%nat as Hsk.
  { pose proof (lcp_le (pc_edge a) k). apply Nat.ltb_ge in Hlt.
    apply andb_false_iff in Hex. rewrite !Nat.eqb_neq in Hex. lia. }
  set (s := lcp (pc_edge a) k) in *.
  rewrite (bind_run _ _ _ _ _ (child_of_run _ _ _ _ _ _ Ha)), (rest_bit _ _ _ _ Hk Hsk).
  fold k. set (d := default false (k !! s)).
  assert (prep h (pick d t0 t1) (pick d lc rc) (pick d F0 F1)) as Hrd by (by destruct d).
  change (if d then t1 else t0) with (pick d t0 t1).
  change (if d then t0 else t1) with (pick d t1 t0).
  unfold k. rewrite rest_drop.
  destruct (pick d lc rc) as [child|] eqn:Hchild.
  - destruct (IH child (depth + s + 1)%nat _ _ h ltac:(lia) ltac:(lia) Hwf Hrd) as (h' & Fc & R & Hp & Hev).
    destruct (p_insert p md (pick d t0 t1) _) as [sub n]. cbn [fst snd] in *.
    destruct (prep_descend d h h' l a lc rc t0 t1 F0 F1 sub Fc) as (F' & Hp' & Hev'); try done.
    { by rewrite Hchild. }
    eauto.
  - apply prep_none in Hrd as [Hnil _]. rewrite Hnil. cbn [p_insert fst snd].
    pose proof (rest_bit key key_len depth s Hk Hsk) as Hbit. fold k in Hbit. fold d in Hbit.
    destruct (leaf_run b (extract_bits key (depth + s + 1) (key_len - (depth + s + 1)))
      (key_len - (depth + s + 1)) (get_bit_from_bytes (extract_bits key depth (key_len - depth)) s)
      p md h l a lc rc t0 t1 F0 F1 Hwf Hc ltac:(lia) Ha Hr0 Hr1 Hn0 Hn1 Hd)
      as (h' & F' & R & Hp & Hev); [by rewrite Hbit|].
    rewrite Hbit, rest_extract in Hp by done. eauto.
Qed.
End insert.

(** [strip] as the walks compute it. *)
Lemma strip_walk e k :
  strip e k =
  if (lcp e k <? length e)%nat then None
  else if (lcp e k =? length k)%nat then Some []
  else Some (default false (k !! lcp e k) :: drop (S (lcp e k)) k).
Proof.
  destruct (lcp_meet e k) as [e k|k b e|c b e k].
  - rewrite strip_app, Nat.ltb_irrefl. destruct k as [|b k].
    + by rewrite app_nil_r, Nat.eqb_refl.
    + rewrite (proj2 (Nat.eqb_neq _ _)) by (rewrite length_app; simpl; lia).
      by rewrite list_lookup_middle, drop_S_middle.
  - rewrite strip_app_l, strip_refl. simpl.
    by rewrite (proj2 (Nat.ltb_lt _ _)) by (rewrite length_app; simpl; lia).
  - rewrite strip_app_l, strip_app. simpl. rewrite eqb_negb2.
    by rewrite (proj2 (Nat.ltb_lt _ _)) by (rewrite length_app; simpl; lia).
Qed.

Lemma contains_inner_refines key key_len : (key_len ≤ 128)%nat →
  ∀ fuel l depth t F h, (depth ≤ key_len)%nat → (key_len - depth < fuel)%nat →
  prep h t (Some l) F →
  contains_inner fuel l key key_len depth h =
  Some (is_some (p_get t (rest key key_len depth) ≫= pc_meta), h).
Proof.
  intros Hk. induction fuel as [|fuel IH]; intros l depth t F h Hdk Hf Hr; [lia|].
  apply prep_some in Hr as (a & lc & rc & t0 & t1 & F0 & F1 & -> & Ha & Hr0 & Hr1 & _).
  cbn [contains_inner p_get]. destruct (node_edge_run h l a lc rc Ha) as (eb & Re & Heb).
  rewrite (bind_run _ _ _ _ _ Re), (rest_shared _ _ _ _ _ Hk Heb), strip_walk.
  set (k := rest key key_len depth). set (s := lcp (pc_edge a) k).
  assert (length k = (key_len - depth)%nat) as Hlk by apply length_bslice. rewrite Hlk.
  destruct (s <? length (pc_edge a))%nat; [done|].
  destruct (Nat.eqb_spec s (key_len - depth)) as [Hs|Hs].
  { by rewrite (bind_run _ _ _ _ _ (metadata_run _ _ _ _ _ Ha)). }
  assert (s < key_len - depth)%nat as Hsk.
  { pose proof (proj2 (lcp_le (pc_edge a) k)) as Hle. fold s in Hle. lia. }
  rewrite (bind_run _ _ _ _ _ (child_of_run _ _ _ _ _ _ Ha)), (rest_key_bit _ _ _ _ Hsk).
  fold k. set (d := default false (k !! s)).
  assert (prep h (if d then t1 else t0) (pick d lc rc) (pick d F0 F1)) as Hrd by (by destruct d).
  unfold k. rewrite rest_drop. destruct (pick d lc rc) as [child|].
  - eapply IH; [lia|lia|exact Hrd].
  - by apply prep_none in Hrd as [-> _].
Qed.

Lemma remove_inner_refines key key_len : (key_len ≤ 128)%nat →
  ∀ fuel l depth t F h, (depth ≤ key_len)%nat → (key_len - depth < fuel)%nat →
  heap_wf h → prep h t (Some l) F →
  ∃ h' F', remove_inner fuel l key key_len depth h =
      Some (p_get t (rest key key_len depth) ≫= pc_meta, h') ∧
    prep h' (p_remove t (rest key key_len depth)) (Some l) F' ∧ evolves h h' F F'.
Proof.
  intros Hk. induction fuel as [|fuel IH]; intros l depth t F h Hdk Hf Hwf Hr; [lia|].
  pose proof Hr as (a & lc & rc & t0 & t1 & F0 & F1 & -> & Ha & Hr0 & Hr1 & Hn0 & Hn1 & Hd & ->)%prep_some.
  cbn [remove_inner p_get p_remove]. destruct (node_edge_run h l a lc rc Ha) as (eb & Re & Heb).
  rewrite (bind_run _ _ _ _ _ Re), (rest_shared _ _ _ _ _ Hk Heb), strip_walk.
  set (k := rest key key_len depth). set (s := lcp (pc_edge a) k).
  assert (length k = (key_len - depth)%nat) as Hlk by apply length_bslice. rewrite Hlk.
  destruct (s <? length (pc_edge a))%nat; 
    [eexists h, _; split_and!; [done|exact Hr|by apply evolves_refl]|].
  destruct (Nat.eqb_spec s (key_len - depth)) as [Hs|Hs].
  { rewrite (bind_run _ _ _ _ _ (metadata_run _ _ _ _ _ Ha)).
    destruct (clear_metadata_at h l a lc rc Hwf Ha) as (h' & R & L & T).
    rewrite (bind_run _ _ _ _ _ R).
    destruct (prep_write_root _ _ _ _ _ _ _ _ _ _ Hr0 Hr1 Hn0 Hn1 Hd T L) as [Hp Hev]. eauto. }
  assert (s < key_len - depth)%nat as Hsk.
  { pose proof (proj2 (lcp_le (pc_edge a) k)) as Hle. fold s in Hle. lia. }
  rewrite (bind_run _ _ _ _ _ (child_of_run _ _ _ _ _ _ Ha)), (rest_key_bit _ _ _ _ Hsk).
  fold k. set (d := default false (k !! s)).
  assert (prep h (pick d t0 t1) (pick d lc rc) (pick d F0 F1)) as Hrd by (by destruct d).
  change (if d then t1 else t0) with (pick d t0 t1).
  change (if d then t0 else t1) with (pick d t1 t0).
  unfold k. rewrite rest_drop. destruct (pick d lc rc) as [child|] eqn:Hchild.
  - destruct (IH child (depth + s + 1)%nat _ _ h ltac:(lia) ltac:(lia) Hwf Hrd) as (h' & Fc & R & Hp & Hev).
    rewrite <- Hchild in Hp.
    destruct (prep_descend d h h' l a lc rc t0 t1 F0 F1 _ Fc Ha Hr0 Hr1 Hn0 Hn1 Hd Hev Hp)
      as (F' & Hp' & Hev'). eauto.
  - apply prep_none in Hrd as [Hnil _]. exists h, ({[l]} ∪ F0 ∪ F1).
    rewrite Hnil. split_and!; [done| |by apply evolves_refl].
    replace (join a d (p_remove Nil _) _) with (Bin a t0 t1); [done|].
    by destruct d; simpl in *; subst.
Qed.

Lemma lookup_inner_refines key : length key = 16%nat →
  ∀ fuel l depth t F h, (depth ≤ 128)%nat → (128 - depth < fuel)%nat →
  prep h t (Some l) F →
  lookup_inner fuel l key depth h = Some (p_lookup t (rest key 128 depth), h).
Proof.
  intros Hkey. induction fuel as [|fuel IH]; intros l depth t F h Hdk Hf Hr; [lia|].
  apply prep_some in Hr as (a & lc & rc & t0 & t1 & F0 & F1 & -> & Ha & Hr0 & Hr1 & _).
  cbn [lookup_inner p_lookup]. rewrite Hkey. change (16 * 8)%nat with 128%nat.
  destruct (node_edge_run h l a lc rc Ha) as (eb & Re & Heb).
  rewrite (bind_run _ _ _ _ _ Re), (bind_run _ _ _ _ _ (metadata_run _ _ _ _ _ Ha)).
  destruct (_ && _)%bool; [done|].
  rewrite (rest_shared _ _ key 128 depth (le_n _) Heb), strip_walk.
  set (k := rest key 128 depth). set (s := lcp (pc_edge a) k).
  assert (length k = (128 - depth)%nat) as Hlk by apply length_bslice. rewrite Hlk.
  destruct (s <? length (pc_edge a))%nat; [done|].
  rewrite (bind_run _ _ _ _ _ (metadata_run _ _ _ _ _ Ha)).
  pose proof (proj2 (lcp_le (pc_edge a) k)) as Hle. fold s in Hle.
  destruct (Nat.eqb_spec s (128 - depth)) as [Hs|Hs].
  { by rewrite (proj2 (Nat.leb_le 128 (depth + s))) by lia. }
  rewrite (proj2 (Nat.leb_gt 128 (depth + s))) by lia.
  rewrite (bind_run _ _ _ _ _ (child_of_run _ _ _ _ _ _ Ha)), (rest_key_bit _ 128) by lia.
  fold k. set (d := default false (k !! s)).
  assert (prep h (if d then t1 else t0) (pick d lc rc) (pick d F0 F1)) as Hrd by (by destruct d).
  unfold k. rewrite rest_drop. destruct (pick d lc rc) as [child|].
  - by rewrite (bind_run _ _ _ _ _ (IH child (depth + s + 1)%nat _ _ h ltac:(lia) ltac:(lia) Hrd)).
  - by apply prep_none in Hrd as [-> _].
Qed.

Lemma clear_inner_refines h l t F :
  heap_wf h → prep h t (Some l) F →
  ∃ h' pf, clear_inner l h = Some (tt, h') ∧
    prep h' (Bin (mkP [] None pf) Nil Nil) (Some l) {[l]} ∧ evolves h h' F {[l]}.
Proof.
  intros Hwf (a & lc & rc & t0 & t1 & F0 & F1 & -> & Ha & Hr0 & Hr1 & Hn0 & Hn1 & Hd & ->)%prep_some.
  unfold clear_inner.
  destruct (set_edge_at zero16 0 h l _ _ _ Hwf Ha ltac:(lia)) as (h1 & R1 & L1 & T1).
  rewrite (bind_run _ _ _ _ _ R1).
  destruct (clear_metadata_at h1 l _ _ _ (proj1 T1) L1) as (h2 & R2 & L2 & T2).
  rewrite (bind_run _ _ _ _ _ R2).
  destruct (set_left_at None h2 l _ _ _ (proj1 T2) L2) as (h3 & R3 & L3 & T3).
  rewrite (bind_run _ _ _ _ _ R3).
  destruct (set_right_at None h3 l _ _ _ (proj1 T3) L3) as (h4 & R4 & L4 & T4).
  exists h4, (pc_prefix a). split; [done|]. split.
  - replace ({[l]} : gset loc) with (({[l]} ∪ ∅) ∪ ∅ : gset loc) by set_solver.
    econstructor; [exact L4|constructor|constructor|set_solver..].
  - eapply (touches_evolves _ _ {[l]}); [eauto using touches_then|set_solver|set_solver].
Qed.
End heap_cells.

(** ** The tree implements the interface *)

Section interface.
Context `{IpNetworkLaws} `{DashMapLaws}.

(** The 128 bits a lookup walks, and the bits a prefix is stored under. *)
Definition kbits (ip : IpAddr) : list bool := bslice (ip_to_bytes ip) 0 128.
Definition pkey (p : IpNetwork) : list bool := take (net_len p) (kbits (net_network p)).

Lemma rest_pkey p : rest (ip_to_bytes (net_network p)) (net_len p) 0 = pkey p.
Proof.
  unfold rest, pkey, kbits. rewrite Nat.sub_0_r, bslice_take; [done|apply net_len_bound].
Qed.

Lemma length_ip_to_bytes ip : length (ip_to_bytes ip) = 16%nat.
Proof. by destruct ip. Qed.

Definition patricia_rep (h : Heap) (t : CompressedTree) (m : table) (F : gset loc) : Prop :=
  heap_wf h ∧ is_compressed (nb_variant (ct_builder t)) = true ∧
  ∃ pt, prep h pt (Some (ct_root t)) F ∧ p_all pcell_ok pt ∧
    ∀ k, m !! k = p_get pt k ≫= pentry.

Lemma pentry_meta t k : p_all pcell_ok t → p_get t k ≫= pc_meta = snd <$> (p_get t k ≫= pentry).
Proof.
  intros Hok. destruct (p_get t k) as [a|] eqn:Hg; [|done]. simpl.
  pose proof (p_all_get _ _ _ _ Hok Hg) as Ha. unfold pcell_ok, pentry in *.
  destruct (pc_meta a); [|by destruct (pc_prefix a)].
  destruct Ha as [p ->]; [eauto|done].
Qed.

Lemma patricia_insert_run h t pt F p md :
  heap_wf h → is_compressed (nb_variant (ct_builder t)) = true →
  prep h pt (Some (ct_root t)) F →
  ∃ h' F', patricia_insert t p md h = Some (Ok (p_insert p md pt (pkey p)).2, h') ∧
    prep h' (p_insert p md pt (pkey p)).1 (Some (ct_root t)) F' ∧ evolves h h' F F'.
Proof.
  intros Hwf Hc Hr. unfold patricia_insert.
  change (Z.to_nat (net_prefix p)) with (net_len p).
  destruct (insert_inner_refines (ct_builder t) (ip_to_bytes (net_network p)) (net_len p) p md Hc
    (net_len_bound p) (key_fuel (net_len p)) (ct_root t) 0 pt F h) as (h' & F' & R & Hp & Hev);
    [lia|unfold key_fuel; lia|done|done|].
  rewrite rest_pkey in *. exists h', F'. by rewrite (bind_run _ _ _ _ _ R).
Qed.

Lemma patricia_contains_run h t pt F p :
  prep h pt (Some (ct_root t)) F →
  patricia_contains t p h = Some (is_some (p_get pt (pkey p) ≫= pc_meta), h).
Proof.
  intros Hr. unfold patricia_contains.
  change (Z.to_nat (net_prefix p)) with (net_len p).
  rewrite (contains_inner_refines (ip_to_bytes (net_network p)) (net_len p)
    (net_len_bound p) (key_fuel (net_len p)) (ct_root t) 0 pt F h);
    [|lia|unfold key_fuel; lia|done].
  by rewrite rest_pkey.
Qed.

Lemma patricia_insert_refines h t m F p md :
  patricia_rep h t m F →
  ∃ h' F', patricia_insert t p md h = Some (Ok (is_none (m !! pkey p)), h') ∧
    patricia_rep h' t (<[pkey p := (p, md)]> m) F' ∧ evolves h h' F F'.
Proof.
  intros (Hwf & Hc & pt & Hr & Hok & Hm).
  destruct (patricia_insert_run h t pt F p md Hwf Hc Hr) as (h' & F' & R & Hp & Hev).
  exists h', F'. rewrite R. split_and!.
  - rewrite p_insert_new, Hm, pentry_meta by done. by destruct (_ ≫= pentry).
  - split; [apply Hev|]. split; [done|]. eexists. split; [exact Hp|].
    split; [by apply p_insert_ok|]. intros k. rewrite p_insert_get, lookup_insert. by rewrite Hm.
  - done.
Qed.

Lemma patricia_remove_refines h t m F p :
  patricia_rep h t m F →
  ∃ h' F', patricia_remove t p h = Some (snd <$> m !! pkey p, h') ∧
    patricia_rep h' t (delete (pkey p) m) F' ∧ evolves h h' F F'.
Proof.
  intros (Hwf & Hc & pt & Hr & Hok & Hm). unfold patricia_remove.
  change (Z.to_nat (net_prefix p)) with (net_len p).
  destruct (remove_inner_refines (ip_to_bytes (net_network p)) (net_len p)
    (net_len_bound p) (key_fuel (net_len p)) (ct_root t) 0 pt F h) as (h' & F' & R & Hp & Hev);
    [lia|unfold key_fuel; lia|done|done|].
  rewrite rest_pkey in *. exists h', F'. rewrite R, Hm, pentry_meta by done. split_and!; [done| |done].
  split; [apply Hev|]. split; [done|]. eexists. split; [exact Hp|].
  split; [by apply p_remove_ok|]. intros k. rewrite p_remove_get, lookup_delete. by rewrite Hm.
Qed.

Lemma patricia_contains_refines h t m F p :
  patricia_rep h t m F → patricia_contains t p h = Some (is_some (m !! pkey p), h).
Proof.
  intros (Hwf & Hc & pt & Hr & Hok & Hm).
  rewrite (patricia_contains_run h t pt F p Hr).
  rewrite Hm, pentry_meta by done. by destruct (_ ≫= pentry).
Qed.

Lemma patricia_lookup_run h t pt F ip :
  prep h pt (Some (ct_root t)) F → patricia_lookup t ip h = Some (p_lookup pt (kbits ip), h).
Proof.
  intros Hr. unfold patricia_lookup.
  apply (lookup_inner_refines _ (length_ip_to_bytes ip) _ _ 0 pt F h); [lia| |done].
  unfold key_fuel. lia.
Qed.

(** An answer comes from an entry whose key leads the bits of the address. *)
Definition sound_answer (m : table) (ip : IpAddr) (r : option Metadata) : Prop :=
  ∀ md, r = Some md → ∃ k p, k `prefix_of` kbits ip ∧ m !! k = Some (p, md).

Lemma patricia_lookup_sound h t m F ip :
  patricia_rep h t m F →
  ∃ r, patricia_lookup t ip h = Some (r, h) ∧ sound_answer m ip r.
Proof.
  intros (Hwf & Hc & pt & Hr & Hok & Hm). eexists.
  split; [by eapply patricia_lookup_run|]. intros md Hl.
  apply p_lookup_sound in Hl as (k & a & Hk & Hg & Ha). exists k.
  pose proof (p_all_get _ _ _ _ Hok Hg) as [p Hp]; [rewrite Ha; eauto|].
  exists p. split; [done|]. rewrite Hm, Hg. simpl. unfold pentry. by rewrite Hp, Ha.
Qed.

Lemma patricia_clear_refines h t m F :
  patricia_rep h t m F →
  ∃ h' F', patricia_clear t h = Some (tt, h') ∧ patricia_rep h' t ∅ F' ∧ evolves h h' F F'.
Proof.
  intros (Hwf & Hc & pt & Hr & Hok & Hm).
  destruct (clear_inner_refines h _ pt F Hwf Hr) as (h' & pf & R & Hp & Hev).
  eexists _, _. split; [exact R|]. split; [|exact Hev]. split; [apply Hev|]. split; [done|].
  eexists. split; [exact Hp|]. split; [split; [by intros []|done]|].
  intros [|[] k]; rewrite lookup_empty; [|done..]. simpl. by destruct pf.
Qed.

Lemma compressed_variant_ok v : is_compressed (compressed_variant v) = true.
Proof. by destruct v. Qed.

Lemma patricia_new_run h v :
  heap_wf h →
  ∃ t h' F, patricia_new v h = Some (t, h') ∧
    is_compressed (nb_variant (ct_builder t)) = true ∧
    prep h' (Bin (mkP [] None None) Nil Nil) (Some (ct_root t)) F ∧ evolves h h' ∅ F.
Proof.
  intros Hwf.
  destruct (alloc_at (mkBuilder (compressed_variant v)) h Hwf (compressed_variant_ok v))
    as (x & h' & R & Hx & A & T).
  unfold patricia_new. rewrite (bind_run _ _ _ _ _ R).
  eexists (mkCompressed _ _), h', {[x]}. split_and!; [done|apply compressed_variant_ok| |].
  - replace ({[x]} : gset loc) with (({[x]} ∪ ∅) ∪ ∅ : gset loc) by set_solver.
    econstructor; [exact A|constructor|constructor|set_solver..].
  - eapply touches_evolves; [exact T| |set_solver]. intros y ->%elem_of_singleton. by right.
Qed.

Lemma patricia_new_variant h v t h' :
  patricia_new v h = Some (t, h') → nb_variant (ct_builder t) = compressed_variant v.
Proof.
  unfold patricia_new. intros R. apply bind_Some in R as ([x h1] & _ & [= <- <-]). done.
Qed.

Lemma patricia_new_refines h v :
  heap_wf h →
  ∃ t h' F, patricia_new v h = Some (t, h') ∧ patricia_rep h' t ∅ F ∧ evolves h h' ∅ F.
Proof.
  intros Hwf. destruct (patricia_new_run h v Hwf) as (t & h' & F & R & Hc & Hp & Hev).
  exists t, h', F. split_and!; [done| |done]. split; [apply Hev|]. split; [done|].
  eexists. split; [exact Hp|]. split; [split; [by intros []|done]|].
  intros [|[] k]; by rewrite lookup_empty.
Qed.

#[export] Instance CompressedTree_RouteTree : RouteTree CompressedTree := {|
  rt_insert := patricia_insert;
  rt_lookup := patricia_lookup;
  rt_remove := patricia_remove;
  rt_contains := patricia_contains;
  rt_clear := patricia_clear;
|}.

#[export] Program Instance CompressedTree_laws : RouteTreeLaws CompressedTree := {|
  rt_key := pkey;
  rt_answers := sound_answer;
  rt_cleared _ := ∅;
  rt_rep := patricia_rep;
|}.
Next Obligation. done. Qed.
Next Obligation. by intros h t m F [Hwf _]. Qed.
Next Obligation. intros. by eapply patricia_insert_refines. Qed.
Next Obligation. intros. by eapply patricia_lookup_sound. Qed.
Next Obligation. intros. by eapply patricia_remove_refines. Qed.
Next Obligation. intros. by eapply patricia_contains_refines. Qed.
Next Obligation. intros. by eapply patricia_clear_refines. Qed.
Next Obligation.
  intros h h' t m F G G' (_ & Hb & pt & Hr & Hok) Hev Hd.
  destruct (prep_evolves _ _ _ _ _ _ _ Hev Hr Hd) as [Hr' Hd'].
  split; [|done]. split_and!; [apply (ev_wf _ _ _ _ Hev)|done|]. by exists pt.
Qed.
End interface.

(** ** Correctness of the compressed tree *)

Section theorems.
Context `{IpNetworkLaws} `{DashMapLaws}.

Lemma kbits_v6 a : kbits (V6 a) = ip_bits (V6 a).
Proof.
  apply list_eq. intros i. unfold kbits.
  destruct (decide (i < 128)%nat) as [Hi|Hi].
  - rewrite bslice_lookup, Nat.add_0_l by done.
    change (get_bit_from_bytes (ip_to_bytes (V6 a)) i) with (get_bit (V6 a) i).
    rewrite get_bit_spec. destruct (lookup_lt_is_Some_2 (ip_bits (V6 a)) i) as [b Hb];
      [by rewrite length_ip_bits|]. rewrite Hb. by destruct b.
  - rewrite bslice_lookup_ge by lia. symmetry. apply lookup_ge_None_2.
    rewrite length_ip_bits. simpl. lia.
Qed.

(** The leading 96 bits of an IPv4 key are zero. *)
Lemma kbits_v4 a n : (n ≤ 96)%nat → take n (kbits (V4 a)) = replicate n false.
Proof.
  intros Hn. unfold kbits. rewrite bslice_take by lia. apply list_eq. intros i.
  destruct (decide (i < n)%nat) as [Hi|Hi].
  - rewrite bslice_lookup, lookup_replicate_2, Nat.add_0_l by done. f_equal.
    rewrite get_bit_from_bytes_testbit. cbn [ip_to_bytes].
    assert (i / 8 < 12)%nat as H8 by (apply Nat.div_lt_upper_bound; lia).
    rewrite lookup_app_l by (by rewrite length_replicate).
    rewrite lookup_replicate_2 by done. by rewrite Z.testbit_0_l.
  - rewrite bslice_lookup_ge by lia. symmetry. apply lookup_ge_None_2.
    rewrite length_replicate. lia.
Qed.

Lemma pkey_v4 (n : Ipv4Network) : pkey (NetV4 n) = replicate (net_len (NetV4 n)) false.
Proof.
  unfold pkey. rewrite net_network_spec. apply kbits_v4.
  pose proof (net_len_width (NetV4 n)) as Hw. rewrite net_network_spec in Hw. simpl in Hw. lia.
Qed.

Lemma pkey_v6 (n : Ipv6Network) : pkey (NetV6 n) = net_bits (NetV6 n).
Proof. unfold pkey, net_bits. rewrite net_network_spec. by rewrite kbits_v6. Qed.

(** C2: starting from [CompressedTree::new] with any node variant, every
    sequence of operations runs to its end without a panic, [insert],
    [remove] and [contains] are the map operations on the key of the prefix,
    [clear] empties the table, and a lookup only answers with the metadata
    of a stored entry whose key leads the bits of the address. *)
Theorem compressed_tree_refines (v : NodeVariant) (os : list op) :
  ∃ t h0 rs h1 m, patricia_new v empty_heap = Some (t, h0) ∧
    run_ops t os h0 = Some (rs, h1) ∧
    spec_steps pkey sound_answer (λ _, ∅) ∅ os rs m.
Proof.
  destruct (patricia_new_refines empty_heap v heap_wf_empty) as (t & h0 & F & Hnew & Hr & _).
  change (rt_rep h0 t ∅ F) in Hr.
  destruct (run_ops_refines os h0 t ∅ F Hr) as (rs & h1 & m & F' & Hrun & _ & _ & Hs).
  by exists t, h0, rs, h1, m.
Qed.


(** Two IPv4 prefixes of the same length share one key, because an IPv4
    address occupies the last four of the sixteen key bytes while the key
    is read from the first bit: the second insert is an update of the
    first, and any IPv4 address is then answered with its metadata. *)
Theorem compressed_v4_collision v (n1 n2 : Ipv4Network) md1 md2 a :
  net_prefix (NetV4 n1) = net_prefix (NetV4 n2) → 0 < net_prefix (NetV4 n1) →
  ∃ t h0 h1, patricia_new v empty_heap = Some (t, h0) ∧
    run_ops t [OpInsert (NetV4 n1) md1; OpInsert (NetV4 n2) md2; OpLookup (V4 a);
               OpContains (NetV4 n1)] h0 =
    Some ([RInsert (Ok true); RInsert (Ok false); RMeta (Some md2); RBool true], h1).
Proof.
  intros Hlen Hpos.
  destruct (patricia_new_run empty_heap v heap_wf_empty) as (t & h0 & F & Hnew & Hc & Hp & Hev).
  assert (pkey (NetV4 n2) = pkey (NetV4 n1)) as Hkey.
  { rewrite !pkey_v4. unfold net_len. by rewrite Hlen. }
  set (k := pkey (NetV4 n1)) in *.
  assert (k = replicate (length k) false ∧ (0 < length k ≤ 32)%nat) as [Hrep Hlk].
  { unfold k. rewrite pkey_v4. rewrite length_replicate. split; [done|].
    pose proof (net_len_width (NetV4 n1)) as Hw. rewrite net_network_spec in Hw. simpl in Hw.
    rewrite net_prefix_len in Hpos. lia. }
  destruct (patricia_insert_run h0 t _ F (NetV4 n1) md1 (ev_wf _ _ _ _ Hev) Hc Hp)
    as (h1 & F1 & R1 & P1 & Hev1). fold k in R1, P1.
  destruct (patricia_insert_run h1 t _ F1 (NetV4 n2) md2 (ev_wf _ _ _ _ Hev1) Hc P1)
    as (h2 & F2 & R2 & P2 & Hev2). rewrite Hkey in R2, P2.
  assert (p_insert (NetV4 n2) md2 (pleaf k (NetV4 n1) md1) k = (pleaf k (NetV4 n2) md2, false)) as Hupd.
  { assert (p_empty (pleaf k (NetV4 n1) md1) = false) as He.
    { simpl. destruct (Nat.eqb_spec (length k) 0); [lia|done]. }
    unfold pleaf. rewrite (p_insert_meet _ _ _ _ _ _ _ He (lcp_meet _ _)). simpl.
    by rewrite strip_refl. }
  cbn [p_insert p_empty pc_edge length Nat.eqb is_none is_some negb pc_meta is_nil andb fst snd] in R1, R2, P2.
  rewrite Hupd in R2, P2. cbn [fst snd] in R2, P2.
  exists t, h0, h2. split; [done|].
  assert (kbits (V4 a) = k ++ drop (length k) (kbits (V4 a))) as Hka.
  { rewrite Hrep at 1. rewrite <- (kbits_v4 a (length k)) by lia. by rewrite take_drop. }
  apply (run_ops_cons _ _ _ _ _ h1); [by simpl; rewrite (bind_run _ _ _ _ _ R1)|].
  apply (run_ops_cons _ _ _ _ _ h2); [by simpl; rewrite (bind_run _ _ _ _ _ R2)|].
  apply (run_ops_cons _ _ _ _ _ h2); [|apply (run_ops_cons _ _ _ _ _ h2); [|done]]; simpl.
  - rewrite (bind_run _ _ _ _ _ (patricia_lookup_run _ _ _ _ (V4 a) P2)).
    rewrite Hka. simpl. destruct (Nat.eqb_spec (length k) 0); [lia|]. simpl.
    rewrite strip_app. by destruct (drop _ _) as [|[] ?].
  - rewrite (bind_run _ _ _ _ _ (patricia_contains_run _ _ _ _ (NetV4 n1) P2)).
    fold k. simpl. by rewrite strip_refl.
Qed.

(** Two IPv6 prefixes that differ in their first bit leave the root of the
    tree without edge and without metadata, and [lookup_inner] gives up at
    such a node: no address is answered any more, although [contains]
    finds both prefixes. *)
Theorem compressed_blank_junction v p q mdp mdq kp kq ip :
  pkey p = false :: kp → pkey q = true :: kq →
  ∃ t h0 h1, patricia_new v empty_heap = Some (t, h0) ∧
    run_ops t [OpInsert p mdp; OpInsert q mdq; OpLookup ip; OpContains p; OpContains q] h0 =
    Some ([RInsert (Ok true); RInsert (Ok true); RMeta None; RBool true; RBool true], h1).
Proof.
  intros Hkp Hkq.
  destruct (patricia_new_run empty_heap v heap_wf_empty) as (t & h0 & F & Hnew & Hc & Hp & Hev).
  destruct (patricia_insert_run h0 t _ F p mdp (ev_wf _ _ _ _ Hev) Hc Hp)
    as (h1 & F1 & R1 & P1 & Hev1).
  destruct (patricia_insert_run h1 t _ F1 q mdq (ev_wf _ _ _ _ Hev1) Hc P1)
    as (h2 & F2 & R2 & P2 & Hev2).
  rewrite Hkp, ?Hkq in *. simpl in R1, R2, P2.
  exists t, h0, h2. split; [done|].
  apply (run_ops_cons _ _ _ _ _ h1); [by simpl; rewrite (bind_run _ _ _ _ _ R1)|].
  apply (run_ops_cons _ _ _ _ _ h2); [by simpl; rewrite (bind_run _ _ _ _ _ R2)|].
  apply (run_ops_cons _ _ _ _ _ h2);
    [|apply (run_ops_cons _ _ _ _ _ h2); [|apply (run_ops_cons _ _ _ _ _ h2); [|done]]]; simpl.
  - by rewrite (bind_run _ _ _ _ _ (patricia_lookup_run _ _ _ _ ip P2)).
  - rewrite (bind_run _ _ _ _ _ (patricia_contains_run _ _ _ _ p P2)), Hkp.
    simpl. by rewrite strip_refl.
  - rewrite (bind_run _ _ _ _ _ (patricia_contains_run _ _ _ _ q P2)), Hkq.
    simpl. by rewrite strip_refl.
Qed.
End theorems.
