(* ===== verification/PatriciaThreads.v ===== *)
(** * Threads on one compressed tree (engine/src/tree.rs, [CompressedTree])

    The operations of the Patricia tree as programs of single node accesses,
    like those of the uncompressed tree in Concurrent.v.  [set_edge], which
    takes two locks, is one step here; this only leaves out schedules.  Run
    without interruption each program is the operation of Patricia.v. *)

From S2P Require Import Prelude Addr Lpm DashMap Node Heap RouteTree Trie Concurrent Patricia.

Local Open Scope Z_scope.

Section programs.
Context `{IpNetworkCrate} `{DashMapCrate}.

Definition node_edge_p (l : loc) : prog (list Z * nat) :=
  bits ← atomic (get node_edge_bits l);
  len ← atomic (get node_edge_len l);
  mret (default zero16 bits, default 0%nat len).

(** [edge_len == 0 && node.metadata().is_none()]; the second operand is only
    read when the first one holds. *)
Definition blank_p (node : loc) (edge_len : nat) : prog bool :=
  if (edge_len =? 0)%nat then md ← atomic (get node_metadata node); mret (is_none md) else mret false.

(** [.. && node.left().is_none() && node.right().is_none()] *)
Definition unused_p (node : loc) (edge_len : nat) : prog bool :=
  blank ← blank_p node edge_len;
  if (blank : bool) then
    lc ← atomic (get node_left node);
    if is_none lc then rc ← atomic (get node_right node); mret (is_none rc) else mret false
  else mret false.

Definition new_leaf_p (b : NodeBuilder) (bits : list Z) (len : nat) (prefix : IpNetwork)
    (metadata : Metadata) : prog loc :=
  leaf ← atomic (alloc (build b));
  _ ← atomic (set_edge leaf bits len);
  _ ← atomic (modify (λ w, node_set_prefix w prefix) leaf);
  _ ← atomic (modify (λ w, node_set_metadata w metadata) leaf);
  mret leaf.

Definition split_node_p (b : NodeBuilder) (node : loc) (edge_bits : list Z) (edge_len shared : nat) : prog unit :=
  let pivot_bit := get_bit_from_bytes edge_bits shared in
  let child_edge_bits := extract_bits edge_bits (shared + 1) (edge_len - shared - 1) in
  let child_edge_len := (edge_len - shared - 1)%nat in
  child ← atomic (alloc (build b));
  _ ← atomic (set_edge child child_edge_bits child_edge_len);
  md ← atomic (get node_metadata node);
  _ ← match md with
      | Some m =>
          _ ← atomic (modify (λ w, node_set_metadata w m) child);
          atomic (modify node_clear_metadata node)
      | None => mret tt
      end;
  pf ← atomic (get node_prefix node);
  _ ← match pf with
      | Some p => atomic (modify (λ w, node_set_prefix w p) child)
      | None => mret tt
      end;
  lc ← atomic (get node_left node);
  _ ← atomic (modify (λ w, node_set_left w lc) child);
  rc ← atomic (get node_right node);
  _ ← atomic (modify (λ w, node_set_right w rc) child);
  _ ← atomic (set_edge node (extract_bits edge_bits 0 shared) shared);
  _ ← atomic (modify (λ w, node_set_left w None) node);
  _ ← atomic (modify (λ w, node_set_right w None) node);
  atomic (set_child_of pivot_bit node child).

Fixpoint insert_inner_p (fuel : nat) (node : loc) (b : NodeBuilder) (key : list Z)
    (key_len depth : nat) (prefix : IpNetwork) (metadata : Metadata) : prog bool :=
  match fuel with
  | O => atomic panic
  | S fuel' =>
      '(edge_bits, edge_len) ← node_edge_p node;
      let remaining := (key_len - depth)%nat in
      unused ← unused_p node edge_len;
      if (unused : bool) then
        let new_bits := extract_bits key depth remaining in
        _ ← atomic (set_edge node new_bits remaining);
        _ ← atomic (modify (λ w, node_set_prefix w prefix) node);
        _ ← atomic (modify (λ w, node_set_metadata w metadata) node);
        mret true
      else
      let key_rem := extract_bits key depth remaining in
      let shared := common_prefix_len edge_bits edge_len key_rem remaining in
      if ((shared =? edge_len)%nat && (shared =? remaining)%nat)%bool then
        md ← atomic (get node_metadata node);
        _ ← atomic (modify (λ w, node_set_metadata w metadata) node);
        _ ← atomic (modify (λ w, node_set_prefix w prefix) node);
        mret (is_none md)
      else if (shared <? edge_len)%nat then
        _ ← split_node_p b node edge_bits edge_len shared;
        if (shared =? remaining)%nat then
          _ ← atomic (modify (λ w, node_set_metadata w metadata) node);
          _ ← atomic (modify (λ w, node_set_prefix w prefix) node);
          mret true
        else
          let new_bit := get_bit_from_bytes key_rem shared in
          let new_leaf_edge := extract_bits key_rem (shared + 1) (remaining - shared - 1) in
          leaf ← new_leaf_p b new_leaf_edge (remaining - shared - 1) prefix metadata;
          _ ← atomic (set_child_of new_bit node leaf);
          mret true
      else
      let next_bit := get_bit_from_bytes key_rem shared in
      child_opt ← atomic (child_of next_bit node);
      match child_opt with
      | Some child =>
          insert_inner_p fuel' child b key key_len (depth + shared + 1) prefix metadata
      | None =>
          let new_depth := (depth + shared + 1)%nat in
          let new_remaining := (key_len - new_depth)%nat in
          let leaf_edge := extract_bits key new_depth new_remaining in
          leaf ← new_leaf_p b leaf_edge new_remaining prefix metadata;
          _ ← atomic (set_child_of next_bit node leaf);
          mret true
      end
  end.

Fixpoint lookup_inner_p (fuel : nat) (node : loc) (key : list Z) (depth : nat) : prog (option Metadata) :=
  match fuel with
  | O => atomic panic
  | S fuel' =>
      '(edge_bits, edge_len) ← node_edge_p node;
      blank ← blank_p node edge_len;
      if (blank : bool) then mret None else
      let remaining := (length key * 8 - depth)%nat in
      let key_rem := extract_bits key depth remaining in
      let shared := common_prefix_len edge_bits edge_len key_rem remaining in
      if (shared <? edge_len)%nat then mret None else
      best ← atomic (get node_metadata node);
      let new_depth := (depth + shared)%nat in
      if (length key * 8 <=? new_depth)%nat then mret best else
      child_opt ← atomic (child_of (get_bit_from_bytes key new_depth) node);
      match child_opt with
      | Some child =>
          deeper ← lookup_inner_p fuel' child key (new_depth + 1);
          mret (match deeper with Some d => Some d | None => best end)
      | None => mret best
      end
  end.

Fixpoint remove_inner_p (fuel : nat) (node : loc) (key : list Z) (key_len depth : nat) : prog (option Metadata) :=
  match fuel with
  | O => atomic panic
  | S fuel' =>
      '(edge_bits, edge_len) ← node_edge_p node;
      let remaining := (key_len - depth)%nat in
      let key_rem := extract_bits key depth remaining in
      let shared := common_prefix_len edge_bits edge_len key_rem remaining in
      if (shared <? edge_len)%nat then mret None else
      if (shared =? remaining)%nat then
        removed ← atomic (get node_metadata node);
        _ ← atomic (modify node_clear_metadata node);
        mret removed
      else
      child_opt ← atomic (child_of (get_bit_from_bytes key (depth + shared)) node);
      match child_opt with
      | Some child => remove_inner_p fuel' child key key_len (depth + shared + 1)
      | None => mret None
      end
  end.

Fixpoint contains_inner_p (fuel : nat) (node : loc) (key : list Z) (key_len depth : nat) : prog bool :=
  match fuel with
  | O => atomic panic
  | S fuel' =>
      '(edge_bits, edge_len) ← node_edge_p node;
      let remaining := (key_len - depth)%nat in
      let key_rem := extract_bits key depth remaining in
      let shared := common_prefix_len edge_bits edge_len key_rem remaining in
      if (shared <? edge_len)%nat then mret false else
      if (shared =? remaining)%nat then
        md ← atomic (get node_metadata node); mret (is_some md)
      else
      child_opt ← atomic (child_of (get_bit_from_bytes key (depth + shared)) node);
      match child_opt with
      | Some child => contains_inner_p fuel' child key key_len (depth + shared + 1)
      | None => mret false
      end
  end.

Definition clear_inner_p (node : loc) : prog unit :=
  _ ← atomic (set_edge node zero16 0);
  _ ← atomic (modify node_clear_metadata node);
  _ ← atomic (modify (λ w, node_set_left w None) node);
  atomic (modify (λ w, node_set_right w None) node).

Definition patricia_insert_p (t : CompressedTree) (prefix : IpNetwork) (metadata : Metadata)
    : prog (Result bool string) :=
  let key := ip_to_bytes (net_network prefix) in
  let key_len := Z.to_nat (net_prefix prefix) in
  is_new ← insert_inner_p (key_fuel key_len) (ct_root t) (ct_builder t) key key_len 0 prefix metadata;
  mret (Ok is_new).

Definition patricia_lookup_p (t : CompressedTree) (ip : IpAddr) : prog (option Metadata) :=
  lookup_inner_p (key_fuel 128) (ct_root t) (ip_to_bytes ip) 0.

Definition patricia_remove_p (t : CompressedTree) (prefix : IpNetwork) : prog (option Metadata) :=
  let key_len := Z.to_nat (net_prefix prefix) in
  remove_inner_p (key_fuel key_len) (ct_root t) (ip_to_bytes (net_network prefix)) key_len 0.

Definition patricia_contains_p (t : CompressedTree) (prefix : IpNetwork) : prog bool :=
  let key_len := Z.to_nat (net_prefix prefix) in
  contains_inner_p (key_fuel key_len) (ct_root t) (ip_to_bytes (net_network prefix)) key_len 0.

Definition patricia_clear_p (t : CompressedTree) : prog unit := clear_inner_p (ct_root t).
End programs.

(** ** Alone, a program is the operation *)

Section alone.
Context `{IpNetworkCrate} `{DashMapCrate}.

(** Step through a program and the operation it stands for. *)
Ltac steps :=
  repeat first
    [ done
    | apply alone_step; let a := fresh "a" in let h := fresh "h" in intros a h
    | apply alone_atomic ].

Lemma alone_node_edge l h : alone (node_edge_p l) h = node_edge l h.
Proof. unfold node_edge_p, node_edge. steps. Qed.

Lemma node_edge_live l h x h' : node_edge l h = Some (x, h') → h' = h ∧ ∃ w, cells h !! l = Some w.
Proof.
  unfold node_edge. destruct (cells h !! l) as [w|] eqn:Hl.
  - rewrite (bind_run _ _ _ _ _ (get_run _ _ _ _ Hl)), (bind_run _ _ _ _ _ (get_run _ _ _ _ Hl)).
    intros [= _ <-]. eauto.
  - unfold get, mbind, M_bind. by rewrite Hl.
Qed.

Lemma alone_new_leaf b bits len p md h : alone (new_leaf_p b bits len p md) h = new_leaf b bits len p md h.
Proof. unfold new_leaf_p, new_leaf. steps. Qed.

Lemma alone_split_node b l eb el s h : alone (split_node_p b l eb el s) h = split_node b l eb el s h.
Proof.
  unfold split_node_p, split_node. cbv zeta. do 3 (apply alone_step; intros ? ?).
  rewrite alone_bind. apply bind_ext; [destruct a1; steps|]. intros _ h4.
  apply alone_step. intros pf h5. rewrite alone_bind. apply bind_ext; [destruct pf; steps|]. intros _ h6. steps.
Qed.

(** Reads of a live node change nothing. *)
Lemma alone_blank l el h w : cells h !! l = Some w →
  alone (blank_p l el) h = Some (((el =? 0)%nat && is_none (node_metadata w))%bool, h).
Proof.
  intros Hl. unfold blank_p. destruct (el =? 0)%nat; [|done].
  by rewrite alone_bind, (bind_run _ _ _ _ _ (eq_trans (alone_atomic _ _) (get_run _ _ _ _ Hl))).
Qed.

Lemma alone_unused l el h w : cells h !! l = Some w →
  alone (unused_p l el) h =
  Some (((el =? 0)%nat && is_none (node_metadata w) && is_none (node_left w) && is_none (node_right w))%bool, h).
Proof.
  intros Hl. unfold unused_p. rewrite alone_bind, (bind_run _ _ _ _ _ (alone_blank _ _ _ _ Hl)).
  destruct ((el =? 0)%nat && _)%bool; [|done].
  rewrite alone_bind, (bind_run _ _ _ _ _ (eq_trans (alone_atomic _ _) (get_run _ _ _ _ Hl))).
  destruct (is_none (node_left w)); [|done].
  by rewrite alone_bind, (bind_run _ _ _ _ _ (eq_trans (alone_atomic _ _) (get_run _ _ _ _ Hl))).
Qed.

(** Both start with the edge of a node; a dangling location panics at once. *)
Lemma alone_with_edge {A} l (f : list Z * nat → prog A) (g : list Z * nat → M A) h :
  (∀ x w, cells h !! l = Some w → alone (f x) h = g x h) →
  alone (node_edge_p l ≫= f) h = (node_edge l ≫= g) h.
Proof.
  intros Hfg. rewrite alone_bind. unfold mbind, M_bind. rewrite alone_node_edge.
  destruct (node_edge l h) as [[x h']|] eqn:He; [|done]. apply node_edge_live in He as [-> [w Hw]]. by eapply Hfg.
Qed.

Lemma alone_insert_inner fuel l b key kl d p md h :
  alone (insert_inner_p fuel l b key kl d p md) h = insert_inner fuel l b key kl d p md h.
Proof.
  revert l d h. induction fuel as [|fuel IH]; intros l d h; [apply alone_atomic|].
  cbn [insert_inner_p insert_inner]. apply alone_with_edge. intros [eb el] w Hw. cbv zeta.
  rewrite alone_bind, (bind_run _ _ _ _ _ (alone_unused _ _ _ _ Hw)).
  rewrite (bind_run _ _ _ _ _ (get_run _ _ _ _ Hw)), (bind_run _ _ _ _ _ (get_run _ _ _ _ Hw)),
    (bind_run _ _ _ _ _ (get_run _ _ _ _ Hw)).
  destruct (_ && is_none (node_right w))%bool; [steps|].
  destruct (_ && (common_prefix_len _ _ _ _ =? kl - d)%nat)%bool; [steps|].
  destruct (_ <? el)%nat.
  - rewrite alone_bind. apply bind_ext; [apply alone_split_node|]. intros _ h1.
    destruct (_ =? kl - d)%nat; [steps|]. rewrite alone_bind. apply bind_ext; [apply alone_new_leaf|]. intros x h2. steps.
  - apply alone_step. intros [child|] h1; [apply IH|].
    rewrite alone_bind. apply bind_ext; [apply alone_new_leaf|]. intros x h2. steps.
Qed.

Lemma alone_lookup_inner fuel l key d h : alone (lookup_inner_p fuel l key d) h = lookup_inner fuel l key d h.
Proof.
  revert l d h. induction fuel as [|fuel IH]; intros l d h; [apply alone_atomic|].
  cbn [lookup_inner_p lookup_inner]. apply alone_with_edge. intros [eb el] w Hw. cbv zeta.
  rewrite alone_bind, (bind_run _ _ _ _ _ (alone_blank _ _ _ _ Hw)), (bind_run _ _ _ _ _ (get_run _ _ _ _ Hw)).
  destruct (_ && is_none (node_metadata w))%bool; [done|]. destruct (_ <? el)%nat; [done|].
  apply alone_step. intros best h1. destruct (_ <=? _)%nat; [done|].
  apply alone_step. intros [child|] h2; [|done]. rewrite alone_bind. apply bind_ext; [apply IH|done].
Qed.

Lemma alone_remove_inner fuel l key kl d h : alone (remove_inner_p fuel l key kl d) h = remove_inner fuel l key kl d h.
Proof.
  revert l d h. induction fuel as [|fuel IH]; intros l d h; [apply alone_atomic|].
  cbn [remove_inner_p remove_inner]. apply alone_with_edge. intros [eb el] w Hw. cbv zeta.
  destruct (_ <? el)%nat; [done|]. destruct (_ =? kl - d)%nat; [steps|].
  apply alone_step. intros [child|] h1; [apply IH|done].
Qed.

Lemma alone_contains_inner fuel l key kl d h : alone (contains_inner_p fuel l key kl d) h = contains_inner fuel l key kl d h.
Proof.
  revert l d h. induction fuel as [|fuel IH]; intros l d h; [apply alone_atomic|].
  cbn [contains_inner_p contains_inner]. apply alone_with_edge. intros [eb el] w Hw. cbv zeta.
  destruct (_ <? el)%nat; [done|]. destruct (_ =? kl - d)%nat; [steps|].
  apply alone_step. intros [child|] h1; [apply IH|done].
Qed.

Lemma alone_patricia_insert t p md h : alone (patricia_insert_p t p md) h = patricia_insert t p md h.
Proof. unfold patricia_insert_p, patricia_insert. rewrite alone_bind. apply bind_ext; [apply alone_insert_inner|done]. Qed.

Lemma alone_patricia_lookup t ip h : alone (patricia_lookup_p t ip) h = patricia_lookup t ip h.
Proof. apply alone_lookup_inner. Qed.

Lemma alone_patricia_remove t p h : alone (patricia_remove_p t p) h = patricia_remove t p h.
Proof. apply alone_remove_inner. Qed.

Lemma alone_patricia_contains t p h : alone (patricia_contains_p t p) h = patricia_contains t p h.
Proof. apply alone_contains_inner. Qed.

Lemma alone_patricia_clear t h : alone (patricia_clear_p t) h = patricia_clear t h.
Proof. unfold patricia_clear_p, clear_inner_p, patricia_clear, clear_inner. steps. Qed.

(** ** Part of a run *)

(** [q] gets to [q'] by some of its steps. *)
Inductive gets {A} : prog A → Heap → prog A → Heap → Prop :=
  | gets_here q h : gets q h q h
  | gets_step m h q1 h1 q2 h2 : m h = Some (q1, h1) → gets q1 h1 q2 h2 → gets (PStep m) h q2 h2.

Lemma gets_trans {A} (q1 q2 q3 : prog A) h1 h2 h3 : gets q1 h1 q2 h2 → gets q2 h2 q3 h3 → gets q1 h1 q3 h3.
Proof. induction 1; eauto using gets. Qed.

Lemma gets_alone {A} (q : prog A) h a h' : alone q h = Some (a, h') → gets q h (PRet a) h'.
Proof.
  revert h. induction q as [a0|m IH] using prog_induction; intros h; cbn.
  - intros [= -> ->]. constructor.
  - destruct (m h) as [[q1 h1]|] eqn:Hm; [|done]. eauto using gets.
Qed.

Lemma gets_bind {A B} (q : prog A) (f : A → prog B) h q' h' : gets q h q' h' → gets (q ≫= f) h (q' ≫= f) h'.
Proof. induction 1 as [|m h q1 h1 q2 h2 Hm _ IH]; [constructor|]. eapply gets_step; [cbn; by rewrite Hm|done]. Qed.

(** The first part of a program, run to its end. *)
Lemma gets_run {A B} (q : prog A) (f : A → prog B) h a h1 q' h' :
  alone q h = Some (a, h1) → gets (f a) h1 q' h' → gets (q ≫= f) h q' h'.
Proof. intros Hq. apply gets_trans. exact (gets_bind _ f _ _ _ (gets_alone _ _ _ _ Hq)). Qed.

(** Where a program gets to does not change where it ends. *)
Lemma gets_end {A} (q : prog A) h q' h' : gets q h q' h' → alone q h = alone q' h'.
Proof. induction 1 as [|m h q1 h1 q2 h2 Hm _ IH]; [done|]. cbn. by rewrite Hm. Qed.

Lemma gets_schedule {A B} (p : prog B) (q : prog A) h q' h' :
  gets q h q' h' → ∃ n, interleave (mkThreads p q h) (replicate n true) = Some (mkThreads p q' h').
Proof.
  induction 1 as [|m h q1 h1 q2 h2 Hm _ [n IH]]; [by exists 0%nat|]. exists (S n). cbn. by rewrite Hm.
Qed.

Lemma gets_schedule_first {A B} (p : prog B) (q : prog A) h q' h' :
  gets q h q' h' → ∃ n, interleave (mkThreads q p h) (replicate n false) = Some (mkThreads q' p h').
Proof.
  induction 1 as [|m h q1 h1 q2 h2 Hm _ [n IH]]; [by exists 0%nat|]. exists (S n). cbn. by rewrite Hm.
Qed.
End alone.

(** ** A lookup during a split *)

Section torn.
Context `{IpNetworkLaws} `{DashMapLaws}.
Implicit Types (h : Heap) (l : loc) (a : pcell) (t : CompressedTree) (p q : IpNetwork).

(** The split has emptied the node and not yet linked the new child. *)
Lemma split_emptied b l eb a lc rc s md h :
  heap_wf h → is_compressed (nb_variant b) = true → at_loc h l a lc rc → pc_meta a = Some md →
  ∃ r h', gets (split_node_p b l eb (length (pc_edge a)) s) h r h' ∧
    at_loc h' l (mkP (pc_edge a) None (pc_prefix a)) lc rc.
Proof.
  intros Hwf Hc Ha Hm. unfold split_node_p. cbv zeta.
  assert (length (pc_edge a) ≤ 128)%nat as Hlen by (destruct Ha as (? & _ & Hi); apply Hi).
  destruct (alloc_at b h Hwf Hc) as (x & h1 & R1 & Hx & X1 & T1).
  assert (x ≠ l) as Hxl by (destruct Ha as (? & ? & _); congruence).
  assert (at_loc h1 l a lc rc) as L1 by (eapply at_loc_touches; [exact T1|set_solver|done]).
  destruct (set_edge_at (extract_bits eb (s + 1) (length (pc_edge a) - s - 1))
    (length (pc_edge a) - s - 1) h1 x _ _ _ (proj1 T1) X1 ltac:(lia)) as (h2 & R2 & X2 & T2).
  assert (at_loc h2 l a lc rc) as L2 by (eapply at_loc_touches; [exact T2|set_solver|done]).
  destruct (move_metadata_at h2 l x a lc rc _ (proj1 T2) Hxl L2 X2) as (h3 & R3 & L3 & _).
  rewrite Hm in R3. eexists _, h3. split; [|exact L3].
  eapply gets_run; [exact (eq_trans (alone_atomic _ _) R1)|].
  eapply gets_run; [exact (eq_trans (alone_atomic _ _) R2)|].
  eapply gets_run; [exact (eq_trans (alone_atomic _ _) (metadata_run _ _ _ _ _ L2))|]. rewrite Hm.
  eapply gets_run; [|apply gets_here].
  etrans; [|exact R3]. apply alone_step. intros _ h4. apply alone_atomic.
Qed.

(** An insert that has to split the edge of a node that holds a route. *)
Lemma insert_emptied fuel b l key kl p md h a lc rc old :
  heap_wf h → is_compressed (nb_variant b) = true → (kl ≤ 128)%nat →
  at_loc h l a lc rc → pc_meta a = Some old → (lcp (pc_edge a) (rest key kl 0) < length (pc_edge a))%nat →
  ∃ r h', gets (insert_inner_p (S fuel) l b key kl 0 p md) h r h' ∧
    at_loc h' l (mkP (pc_edge a) None (pc_prefix a)) lc rc.
Proof.
  intros Hwf Hc Hk Ha Hm Hs. cbn [insert_inner_p].
  destruct (node_edge_run h l a lc rc Ha) as (eb & Re & Heb).
  pose proof Ha as (w & Hw & Hi).
  destruct (split_emptied b l eb a lc rc (lcp (pc_edge a) (rest key kl 0)) old h Hwf Hc Ha Hm) as (r & h' & Hg & L).
  eexists _, h'. split; [|exact L].
  eapply gets_run; [exact (eq_trans (alone_node_edge _ _) Re)|]. cbn beta iota.
  eapply gets_run; [exact (alone_unused _ _ _ _ Hw)|].
  rewrite (ni_meta _ _ _ _ Hi), Hm. cbn [is_none]. rewrite andb_false_r. cbn [andb].
  rewrite (rest_shared _ _ _ _ _ Hk Heb), (proj2 (Nat.eqb_neq _ _)) by lia. cbn [andb].
  rewrite (proj2 (Nat.ltb_lt _ _)) by lia. by apply gets_bind.
Qed.

(** The route is found again once the split is complete. *)
Lemma split_lookup p mdp q mdq k r :
  let e := pkey p in
  (0 < lcp e k < length e)%nat →
  (p_insert q mdq (pleaf e p mdp) k).2 = true ∧
  p_lookup (p_insert q mdq (pleaf e p mdp) k).1 (e ++ r) = Some mdp.
Proof.
  intros e Hs. unfold pleaf. cbn [p_insert p_empty pc_meta is_none pc_edge is_nil].
  rewrite andb_false_r. cbn [andb]. rewrite (proj2 (Nat.eqb_neq _ (length e))) by lia. cbn [andb].
  rewrite (proj2 (Nat.ltb_lt _ _)) by lia. set (s := lcp e k) in *.
  destruct (lookup_lt_is_Some_2 e s ltac:(lia)) as [b Hb]. rewrite Hb. cbn [default].
  assert (e ++ r = take s e ++ b :: (drop (S s) e ++ r)) as ->.
  { rewrite <-(take_drop_middle e s b Hb) at 1. by rewrite <-(assoc_L (++)). }
  set (child := Bin (mkP (drop (S s) e) (Some mdp) (Some p)) Nil Nil).
  assert (p_lookup child (drop (S s) e ++ r) = Some mdp) as Hchild.
  { cbn [p_lookup child pc_edge pc_meta is_none]. rewrite andb_false_r, strip_app. by destruct r as [|[] r]. }
  assert (length (take s e) ≠ 0%nat) as Hne by (rewrite length_take; lia).
  assert (∀ md pf (u : btree pcell), p_lookup (join (mkP (take s e) md pf) b child u) (take s e ++ b :: (drop (S s) e ++ r)) = Some mdp)
    as Hjoin.
  { intros md pf u. destruct b; cbn [join p_lookup pc_edge pc_meta];
      rewrite (proj2 (Nat.eqb_neq _ _) Hne); cbn [andb]; rewrite strip_app; cbn iota; by rewrite Hchild. }
  destruct (s =? length k)%nat; (split; [done|]); apply Hjoin.
Qed.

(** While an insert splits the node of a stored route, the route is neither
    in that node nor reachable in the new child: a concurrent lookup of an
    address it covers answers that nothing is known, although a lookup before
    the insert and one after it both find the route. *)
Theorem compressed_lookup_torn v p q mdp mdq ip :
  pkey p `prefix_of` kbits ip → (0 < lcp (pkey p) (pkey q) < length (pkey p))%nat →
  ∃ t h0 h1 sched h2, patricia_new v empty_heap = Some (t, h0) ∧
    patricia_insert t p mdp h0 = Some (Ok true, h1) ∧
    patricia_lookup t ip h1 = Some (Some mdp, h1) ∧
    interleave (mkThreads (patricia_lookup_p t ip) (patricia_insert_p t q mdq) h1) sched =
      Some (mkThreads (PRet None) (PRet (Ok true)) h2) ∧
    patricia_lookup t ip h2 = Some (Some mdp, h2).
Proof.
  intros [r Hip] Hs. destruct (patricia_new_run empty_heap v heap_wf_empty) as (t & h0 & F & Hnew & Hc & Hp0 & Hev0).
  destruct (patricia_insert_run h0 t _ F p mdp (ev_wf _ _ _ _ Hev0) Hc Hp0) as (h1 & F1 & R1 & Hp1 & Hev1).
  change (p_insert p mdp (Bin (mkP [] None None) Nil Nil) (pkey p)) with (pleaf (pkey p) p mdp, true) in R1, Hp1.
  cbn [fst snd] in R1, Hp1.
  destruct (patricia_insert_run h1 t _ F1 q mdq (ev_wf _ _ _ _ Hev1) Hc Hp1) as (h2 & F2 & R2 & Hp2 & _).
  destruct (split_lookup p mdp q mdq (pkey q) r Hs) as [Hn Hl2]. rewrite Hn in R2.
  pose proof Hp1 as (a & lc & rc & t0 & t1 & F0 & G & Heq & Ha & Hr0 & Hr1 & _)%prep_some.
  injection Heq as <- <- <-.
  assert (lc = None ∧ rc = None) as [-> ->] by (split; [by inversion Hr0|by inversion Hr1]).
  destruct (insert_emptied (net_len q) (ct_builder t) (ct_root t) (ip_to_bytes (net_network q)) (net_len q) q mdq h1
    _ _ _ mdp (ev_wf _ _ _ _ Hev1) Hc (net_len_bound q) Ha eq_refl) as (x & hm & Hg & Lm).
  { rewrite rest_pkey. cbn [pc_edge]. lia. }
  apply (gets_bind _ (λ is_new, mret (Ok is_new : Result bool string))) in Hg.
  change (insert_inner_p _ _ _ _ _ _ _ _ ≫= _) with (patricia_insert_p t q mdq) in Hg.
  assert (alone (patricia_lookup_p t ip) hm = Some (None, hm)) as Rm.
  { rewrite alone_patricia_lookup.
    rewrite (patricia_lookup_run hm t (Bin (mkP (pkey p) None (Some p)) Nil Nil) ({[ct_root t]} ∪ ∅ ∪ ∅) ip).
    - rewrite Hip. cbn [p_lookup pc_edge pc_meta is_none]. rewrite (proj2 (Nat.eqb_neq _ _)) by lia. cbn [andb].
      rewrite strip_app. by destruct r as [|[] r].
    - econstructor; [exact Lm|constructor|constructor|set_solver..]. }
  set (rest_q := x ≫= λ is_new, mret (Ok is_new : Result bool string)) in Hg.
  destruct (gets_schedule (patricia_lookup_p t ip) _ _ _ _ Hg) as [n1 S1].
  destruct (run_first (patricia_lookup_p t ip) rest_q hm _ _ Rm) as [n2 S2].
  pose proof (gets_end _ _ _ _ Hg) as Hend. rewrite alone_patricia_insert, R2 in Hend.
  destruct (run_second (PRet None : prog (option Metadata)) rest_q hm _ _ (eq_sym Hend)) as [n3 S3].
  exists t, h0, h1, (replicate n1 true ++ replicate n2 false ++ replicate n3 true), h2.
  split_and!; [done|done| | |].
  - rewrite (patricia_lookup_run _ _ _ _ ip Hp1), Hip. unfold pleaf. cbn [p_lookup pc_edge pc_meta is_none].
    rewrite andb_false_r, strip_app. by destruct r as [|[] r].
  - rewrite interleave_app, S1. cbn [mbind option_bind]. rewrite interleave_app, S2. exact S3.
  - by rewrite (patricia_lookup_run _ _ _ _ ip Hp2), Hip, Hl2.
Qed.

(** ** A lookup across a split *)

(** What is left of a lookup that has matched the edge of a node and read its
    metadata. *)
Definition stale_lookup (fuel : nat) l (key : list Z) (depth : nat) (best : option Metadata) : prog (option Metadata) :=
  child_opt ← atomic (child_of (get_bit_from_bytes key depth) l);
  match child_opt with
  | Some child =>
      deeper ← lookup_inner_p fuel child key (depth + 1);
      mret (match deeper with Some d => Some d | None => best end)
  | None => mret best
  end.

Lemma lookup_stale fuel key l e md pf lc rc h :
  length key = 16%nat → at_loc h l (mkP e (Some md) pf) lc rc → e `prefix_of` bslice key 0 128 → (length e < 128)%nat →
  gets (lookup_inner_p (S fuel) l key 0) h (stale_lookup fuel l key (length e) (Some md)) h.
Proof.
  intros Hkey Ha He Hlen. cbn [lookup_inner_p]. rewrite Hkey. change (16 * 8)%nat with 128%nat.
  destruct (node_edge_run h l _ lc rc Ha) as (eb & Re & Heb). cbn [pc_edge] in Re, Heb. pose proof Ha as (w & Hw & Hi).
  eapply gets_run; [exact (eq_trans (alone_node_edge _ _) Re)|]. cbn beta iota.
  eapply gets_run; [exact (alone_blank _ _ _ _ Hw)|]. rewrite (ni_meta _ _ _ _ Hi). cbn [pc_meta is_none].
  rewrite andb_false_r. cbv zeta. rewrite (rest_shared _ _ key 128 0 (le_n _) Heb).
  assert (lcp e (rest key 128 0) = length e) as ->.
  { unfold rest. rewrite Nat.sub_0_r. destruct He as [k ->]. clear. induction e as [|[] e IH]; simpl; [by destruct k|by rewrite IH..]. }
  rewrite Nat.ltb_irrefl.
  eapply gets_run; [exact (eq_trans (alone_atomic _ _) (metadata_run _ _ _ _ _ Ha))|]. cbn [pc_meta].
  rewrite Nat.add_0_l, (proj2 (Nat.leb_gt _ _)) by lia. apply gets_here.
Qed.

(** It goes on at the child that the node has by then, with the rest of the key. *)
Lemma stale_child_run fuel key l h a lc rc (b : bool) child tc Fc best depth :
  length key = 16%nat → (depth < 128)%nat → (127 - depth < fuel)%nat →
  at_loc h l a lc rc → bslice key 0 128 !! depth = Some b →
  (if b then rc else lc) = Some child → prep h tc (Some child) Fc →
  alone (stale_lookup fuel l key depth best) h =
    Some (match p_lookup tc (rest key 128 (depth + 1)) with Some d => Some d | None => best end, h).
Proof.
  intros Hkey Hd Hf Ha Hb Hch Hr. unfold stale_lookup.
  rewrite alone_bind, (bind_run _ _ _ _ _ (eq_trans (alone_atomic _ _) (child_of_run _ _ _ _ _ _ Ha))).
  assert (negb (get_bit_from_bytes key depth =? 0) = b) as ->.
  { rewrite <-(Nat.add_0_l depth), (rest_key_bit key 128 0 depth) by lia. unfold rest. rewrite Nat.sub_0_r. by rewrite Hb. }
  unfold pick. rewrite Hch. rewrite alone_bind.
  rewrite (bind_run _ _ _ _ _ (eq_trans (alone_lookup_inner _ _ _ _ _)
    (lookup_inner_refines key Hkey fuel child (depth + 1) tc Fc h ltac:(lia) ltac:(lia) Hr))). done.
Qed.

Lemma lcp_branch (e : list bool) s b : e !! s = Some b → lcp e (take s e ++ [negb b]) = s.
Proof.
  revert s. induction e as [|x e IH]; intros [|s] Hs; simpl in *; try done.
  - injection Hs as ->. by destruct b.
  - rewrite IH by done. by destruct x.
Qed.

(** The tree after the split: the old route on one side, the new one, with an
    empty edge, on the other. *)
Lemma split_branch p mdp q mdq (e : list bool) s b :
  (s < length e)%nat → e !! s = Some b →
  p_insert q mdq (pleaf e p mdp) (take s e ++ [negb b]) =
    (join (mkP (take s e) None (Some p)) b (pleaf (drop (S s) e) p mdp) (pleaf [] q mdq), true).
Proof.
  intros Hs Hb. unfold pleaf. cbn [p_insert p_empty pc_meta is_none pc_edge is_nil].
  rewrite andb_false_r. cbn [andb]. rewrite lcp_branch by done.
  rewrite (proj2 (Nat.eqb_neq s (length e))) by lia. cbn [andb]. rewrite (proj2 (Nat.ltb_lt _ _)) by lia.
  rewrite length_app, length_take, Nat.min_l by lia. simpl. rewrite (proj2 (Nat.eqb_neq s (s + 1))) by lia.
  rewrite Hb. cbn [default]. do 3 f_equal. rewrite drop_ge; [done|]. rewrite length_app, length_take. simpl. lia.
Qed.

Lemma p_lookup_leaf q mdq k : p_lookup (pleaf [] q mdq) k = Some mdq.
Proof. by destruct k as [|[] k]. Qed.

(** A junction links the leaf that the insert made on its other side. *)
Lemma join_child h l x b u q mdq F :
  prep h (join x b u (pleaf [] q mdq)) (Some l) F →
  ∃ lc rc child Fc, at_loc h l x lc rc ∧ (if negb b then rc else lc) = Some child ∧ prep h (pleaf [] q mdq) (Some child) Fc.
Proof.
  intros Hp. unfold join in Hp.
  destruct b; apply prep_some in Hp as (y & lc & rc & u0 & u1 & G0 & G1 & [= <- <- <-] & Ha & Hr0 & Hr1 & _).
  - destruct lc as [child|]; [|by inversion Hr0]. by exists (Some child), rc, child, G0.
  - destruct rc as [child|]; [|by inversion Hr1]. by exists lc, (Some child), child, G1.
Qed.

(** A route that leaves the bits of [e] does not contain what they lead. *)
Lemma branch_no_prefix (e r : list bool) s b :
  e !! s = Some b → ¬ take s e ++ [negb b] `prefix_of` e ++ r.
Proof.
  intros Hb [k Hk]. pose proof (lookup_lt_Some _ _ _ Hb) as Hs. apply (f_equal (.!! s)) in Hk.
  rewrite <-app_assoc in Hk. cbn [app] in Hk. rewrite (lookup_app_l e), Hb in Hk by lia.
  rewrite list_lookup_middle in Hk by (rewrite length_take; lia). by destruct b.
Qed.

(** C34: a lookup can answer a route that does not contain the address.  The tree
    holds [p]; another thread inserts [q], which leaves the bits of [p] with
    its last bit; a lookup of an address of [p] that has matched the whole edge
    of [p] before the split goes on after it, takes the next bit of the address
    for the side of [q], and answers the metadata of [q].  Before and after,
    the answer is that of [p]. *)
Theorem compressed_lookup_foreign v p (q6 : Ipv6Network) mdp mdq (a : Z) s b r :
  let q := NetV6 q6 in
  pkey p !! s = Some b → (0 < s)%nat → pkey q = take s (pkey p) ++ [negb b] → kbits (V6 a) = pkey p ++ negb b :: r →
  ∃ t h0 h1 sched h2, patricia_new v empty_heap = Some (t, h0) ∧
    patricia_insert t p mdp h0 = Some (Ok true, h1) ∧
    interleave (mkThreads (patricia_lookup_p t (V6 a)) (patricia_insert_p t q mdq) h1) sched =
      Some (mkThreads (PRet (Some mdq)) (PRet (Ok true)) h2) ∧
    network_contains_ip q (V6 a) = false ∧
    patricia_lookup t (V6 a) h1 = Some (Some mdp, h1) ∧ patricia_lookup t (V6 a) h2 = Some (Some mdp, h2).
Proof.
  intros q Hb Hs0 Hq Hip. pose proof (lookup_lt_Some _ _ _ Hb) as Hs.
  destruct (patricia_new_run empty_heap v heap_wf_empty) as (t & h0 & F & Hnew & Hc & Hp0 & Hev0).
  destruct (patricia_insert_run h0 t _ F p mdp (ev_wf _ _ _ _ Hev0) Hc Hp0) as (h1 & F1 & R1 & Hp1 & Hev1).
  change (p_insert p mdp (Bin (mkP [] None None) Nil Nil) (pkey p)) with (pleaf (pkey p) p mdp, true) in R1, Hp1.
  cbn [fst snd] in R1, Hp1.
  destruct (patricia_insert_run h1 t _ F1 q mdq (ev_wf _ _ _ _ Hev1) Hc Hp1) as (h2 & F2 & R2 & Hp2 & _).
  destruct (split_lookup p mdp q mdq (pkey q) (negb b :: r)) as [_ Hl2].
  { rewrite Hq, lcp_branch by done. lia. }
  rewrite Hq, (split_branch p mdp q mdq (pkey p) s b Hs Hb) in R2, Hp2, Hl2. cbn [fst snd] in R2, Hp2, Hl2.
  pose proof Hp1 as (a1 & lc1 & rc1 & t0 & t1 & F0 & G & Heq & Ha1 & _)%prep_some. injection Heq as <- <- <-.
  assert (length (ip_to_bytes (V6 a)) = 16%nat) as Hkey by apply length_ip_to_bytes.
  assert (length (pkey p) < 128)%nat as Hlen.
  { apply (f_equal length) in Hip. unfold kbits in Hip. rewrite length_bslice, length_app in Hip. simpl in Hip. lia. }
  (* the lookup up to the metadata of [p] *)
  assert (gets (patricia_lookup_p t (V6 a)) h1
    (stale_lookup 128 (ct_root t) (ip_to_bytes (V6 a)) (length (pkey p)) (Some mdp)) h1) as Hg.
  { unfold patricia_lookup_p, key_fuel. apply (lookup_stale 128 _ _ _ _ _ _ _ _ Hkey Ha1); [|done]. by exists (negb b :: r). }
  destruct (gets_schedule_first (patricia_insert_p t q mdq) _ _ _ _ Hg) as [n1 S1].
  set (late := stale_lookup 128 (ct_root t) (ip_to_bytes (V6 a)) (length (pkey p)) (Some mdp)) in *.
  (* the insert *)
  rewrite <-alone_patricia_insert in R2. destruct (run_second late _ _ _ _ R2) as [n2 S2].
  (* the rest of the lookup *)
  assert (alone late h2 = Some (Some mdq, h2)) as R3.
  { destruct (join_child _ _ _ _ _ _ _ _ Hp2) as (lc2 & rc2 & child & Fc & Ha2 & Hch & Hr2).
    unfold late. erewrite (stale_child_run 128 (ip_to_bytes (V6 a)) (ct_root t) h2 _ lc2 rc2 (negb b) child
      (pleaf [] q mdq) Fc (Some mdp) (length (pkey p)) Hkey Hlen); [|lia|done| |done|done].
    - by rewrite p_lookup_leaf.
    - change (bslice (ip_to_bytes (V6 a)) 0 128) with (kbits (V6 a)). rewrite Hip. apply list_lookup_middle. done. }
  destruct (run_first late (PRet (Ok true : Result bool string)) h2 _ _ R3) as [n3 S3].
  exists t, h0, h1, (replicate n1 false ++ replicate n2 true ++ replicate n3 false), h2. split_and!; [done|done| | | |].
  - rewrite interleave_app, S1. cbn [mbind option_bind]. rewrite interleave_app, S2. exact S3.
  - destruct (network_contains_ip q (V6 a)) eqn:Hcon; [|done]. apply network_contains_bits in Hcon as [_ Hpre].
    unfold q in Hpre. rewrite <-pkey_v6, <-kbits_v6 in Hpre. fold q in Hpre. rewrite Hq, Hip in Hpre.
    by destruct (branch_no_prefix _ _ _ _ Hb Hpre).
  - rewrite (patricia_lookup_run _ _ _ _ (V6 a) Hp1), Hip. unfold pleaf. cbn [p_lookup pc_edge pc_meta is_none].
    rewrite andb_false_r, strip_app. by destruct b.
  - by rewrite (patricia_lookup_run _ _ _ _ (V6 a) Hp2), Hip, Hl2.
Qed.
End torn.
