(* ===== verification/PatriciaSafe.v ===== *)
(** * Any calls on one compressed tree (engine/src/tree.rs)

    Splits under way tear the answers of other threads (PatriciaThreads.v), but
    not their safety: no call meets a dangling pointer or a node without an
    edge, and since every descent takes a bit of the key, each call returns
    after a bounded number of its own accesses.  What a lookup answers is not
    bounded by what the tree holds ([compressed_lookup_foreign]). *)

From S2P Require Import Prelude Addr Lpm DashMap Node Heap RouteTree Trie Concurrent Readers SafeThreads Patricia PatriciaThreads.

Local Open Scope Z_scope.

Section live.
Context `{IpNetworkLaws} `{DashMapLaws}.
Implicit Types (h : Heap) (l : loc) (L : gset loc).

(** The live nodes: allocated, with an edge, and pointing to live nodes. *)
Record live_ok (b : NodeBuilder) (root : loc) L h : Prop := {
  live_wf : heap_wf h;
  live_builder : is_compressed (nb_variant b) = true;
  live_root : root ∈ L;
  live_cell l : l ∈ L → ∃ n, cells h !! l = Some n ∧ is_Some (c_edge (pay n)) ∧ ∀ s l', side s n = Some l' → l' ∈ L }.

Lemma live_write b root L h l (n n' : NodeWrapper) :
  live_ok b root L h → l ∈ L → cells h !! l = Some n → is_Some (c_edge (pay n')) →
  (∀ s l', side s n' = Some l' → l' ∈ L) →
  live_ok b root L (mkHeap (<[l := n']> (cells h)) (next h)).
Proof.
  intros [Hwf Hb Hroot Hc] Hl Hn He Hs. split; [by apply heap_wf_write; [|rewrite Hn]|done|done|].
  intros l1 Hl1. cbn [cells]. destruct (decide (l1 = l)) as [->|Hne]; [rewrite lookup_insert_eq|rewrite lookup_insert_ne by done].
  - by exists n'.
  - by apply Hc.
Qed.

Lemma live_alloc b root L h :
  live_ok b root L h →
  live_ok b root ({[next h]} ∪ L) (mkHeap (<[next h := build b]> (cells h)) (Pos.succ (next h))).
Proof.
  intros [Hwf Hb Hroot Hc]. destruct (build_fields b) as (HL & HR & HP). split; [by apply heap_wf_alloc|done|set_solver|].
  intros l1 Hl1. cbn [cells]. destruct (decide (l1 = next h)) as [->|Hne].
  - exists (build b). split_and!; [by rewrite lookup_insert_eq|rewrite HP, Hb; simpl; eauto|].
    intros [] l'; unfold side; congruence.
  - destruct (Hc l1) as (n & Hn & He & Hs); [set_solver|]. exists n. rewrite lookup_insert_ne by done.
    split_and!; [done|done|]. intros s l' Hl'. specialize (Hs s l' Hl'). set_solver.
Qed.

(** The programs that cannot fail on live nodes. *)
Abbreviation lsafe b root := (safe (⊆@{gset loc}) (live_ok b root)).

Section accesses.
Context {B : Type} (b : NodeBuilder) (root : loc) (Q : gset loc → B → Prop).

Lemma live_get {A} n L (g : NodeWrapper → A) (f : A → prog B) l :
  l ∈ L → (∀ L' a, L ⊆ L' → lsafe b root n L' Q (f a)) → lsafe b root (S n) L Q (atomic (get g l) ≫= f).
Proof.
  intros Hl Hf. apply safe_atomic. intros L' h Hsub Hok.
  destruct (live_cell _ _ _ _ Hok l) as (x & Hx & _); [set_solver|]. exists (g x), h, L'.
  split_and!; [by apply get_run|done|done|by apply Hf].
Qed.

Lemma live_child n L (f : option loc → prog B) bit l :
  l ∈ L → (∀ L' o, L ⊆ L' → (∀ l', o = Some l' → l' ∈ L') → lsafe b root n L' Q (f o)) →
  lsafe b root (S n) L Q (atomic (child_of bit l) ≫= f).
Proof.
  intros Hl Hf. apply safe_atomic. intros L' h Hsub Hok.
  destruct (live_cell _ _ _ _ Hok l) as (x & Hx & _ & Hs); [set_solver|]. exists (side (negb (bit =? 0)) x), h, L'.
  split_and!; [|done|done|].
  - unfold child_of, side. destruct (bit =? 0); by apply get_run.
  - apply Hf; [done|]. intros l'. apply Hs.
Qed.

(** A setter that keeps the edge and points to live nodes. *)
Lemma live_set n L (g : NodeWrapper → NodeWrapper) (f : unit → prog B) l :
  l ∈ L → (∀ x, c_edge (pay (g x)) = c_edge (pay x)) →
  (∀ x s l', side s (g x) = Some l' → side s x = Some l' ∨ l' ∈ L) →
  (∀ L', L ⊆ L' → lsafe b root n L' Q (f tt)) → lsafe b root (S n) L Q (atomic (modify g l) ≫= f).
Proof.
  intros Hl He Hg Hf. apply safe_atomic. intros L' h Hsub Hok.
  destruct (live_cell _ _ _ _ Hok l) as (x & Hx & Hed & Hs); [set_solver|]. eexists tt, _, L'.
  split_and!; [by apply modify_run|done| |by apply Hf]. eapply live_write; [done|set_solver|done|by rewrite He|].
  intros s l1 [Hl1|Hl1]%Hg; [by eapply Hs|set_solver].
Qed.

Lemma live_set_edge n L bits len (f : unit → prog B) l :
  l ∈ L → (∀ L', L ⊆ L' → lsafe b root n L' Q (f tt)) → lsafe b root (S n) L Q (atomic (set_edge l bits len) ≫= f).
Proof.
  intros Hl Hf. apply safe_atomic. intros L' h Hsub Hok.
  destruct (live_cell _ _ _ _ Hok l) as (x & Hx & Hed & Hs); [set_solver|].
  destruct (set_edge_fields x bits len Hed) as (x' & Hx' & HL & HR & HP). eexists tt, _, L'.
  split_and!; [unfold set_edge, modify_opt; rewrite Hx; simpl; by rewrite Hx'|done| |by apply Hf].
  eapply live_write; [done|set_solver|done|rewrite HP; simpl; eauto|].
  intros [] l'; unfold side; rewrite ?HL, ?HR; [apply (Hs true)|apply (Hs false)].
Qed.

Lemma live_new n L (f : loc → prog B) :
  (∀ L' l, L ⊆ L' → l ∈ L' → lsafe b root n L' Q (f l)) → lsafe b root (S n) L Q (atomic (alloc (build b)) ≫= f).
Proof.
  intros Hf. apply safe_atomic. intros L' h Hsub Hok. eexists _, _, ({[next h]} ∪ L').
  split_and!; [reflexivity|set_solver|by apply live_alloc|]. apply Hf; set_solver.
Qed.
End accesses.

(** The setters of a node, seen as such. *)
Lemma live_meta {B} b root (Q : gset loc → B → Prop) n L md (f : unit → prog B) l :
  l ∈ L → (∀ L', L ⊆ L' → lsafe b root n L' Q (f tt)) →
  lsafe b root (S n) L Q (atomic (modify (λ w, node_set_metadata w md) l) ≫= f).
Proof.
  intros Hl. apply live_set; [done| |]; intros x; destruct (set_metadata_fields x md) as (HL & HR & HP); [by rewrite HP|].
  intros [] l'; unfold side; rewrite ?HL, ?HR; auto.
Qed.

Lemma live_unset {B} b root (Q : gset loc → B → Prop) n L (f : unit → prog B) l :
  l ∈ L → (∀ L', L ⊆ L' → lsafe b root n L' Q (f tt)) →
  lsafe b root (S n) L Q (atomic (modify node_clear_metadata l) ≫= f).
Proof.
  intros Hl. apply live_set; [done| |]; intros x; destruct (clear_metadata_fields x) as (HL & HR & HP); [by rewrite HP|].
  intros [] l'; unfold side; rewrite ?HL, ?HR; auto.
Qed.

Lemma live_prefix {B} b root (Q : gset loc → B → Prop) n L p (f : unit → prog B) l :
  l ∈ L → (∀ L', L ⊆ L' → lsafe b root n L' Q (f tt)) →
  lsafe b root (S n) L Q (atomic (modify (λ w, node_set_prefix w p) l) ≫= f).
Proof.
  intros Hl. apply live_set; [done| |]; intros x; destruct (set_prefix_fields x p) as (HL & HR & HP); [by rewrite HP|].
  intros [] l'; unfold side; rewrite ?HL, ?HR; auto.
Qed.

Lemma live_left {B} b root (Q : gset loc → B → Prop) n L o (f : unit → prog B) l :
  l ∈ L → (∀ l', o = Some l' → l' ∈ L) → (∀ L', L ⊆ L' → lsafe b root n L' Q (f tt)) →
  lsafe b root (S n) L Q (atomic (modify (λ w, node_set_left w o) l) ≫= f).
Proof.
  intros Hl Ho. apply live_set; [done| |]; intros x; destruct (set_left_fields x o) as (HL & HR & HP); [by rewrite HP|].
  intros [] l'; unfold side; rewrite ?HL, ?HR; auto.
Qed.

Lemma live_right {B} b root (Q : gset loc → B → Prop) n L o (f : unit → prog B) l :
  l ∈ L → (∀ l', o = Some l' → l' ∈ L) → (∀ L', L ⊆ L' → lsafe b root n L' Q (f tt)) →
  lsafe b root (S n) L Q (atomic (modify (λ w, node_set_right w o) l) ≫= f).
Proof.
  intros Hl Ho. apply live_set; [done| |]; intros x; destruct (set_right_fields x o) as (HL & HR & HP); [by rewrite HP|].
  intros [] l'; unfold side; rewrite ?HL, ?HR; auto.
Qed.

Lemma live_link {B} b root (Q : gset loc → B → Prop) n L bit c (f : unit → prog B) l :
  l ∈ L → c ∈ L → (∀ L', L ⊆ L' → lsafe b root n L' Q (f tt)) →
  lsafe b root (S n) L Q (atomic (set_child_of bit l c) ≫= f).
Proof.
  intros Hl Hc Hf. unfold set_child_of. destruct (bit =? 0); [apply live_left|apply live_right]; try done; by intros ? [= <-].
Qed.

(** ** The operations *)

Definition is_live L l : Prop := l ∈ L.

Lemma is_live_keeps : keeps (⊆@{gset loc}) is_live.
Proof. intros L L' l Hs Hl. by apply Hs. Qed.

Lemma live_edge {B} b root (Q : gset loc → B → Prop) n L (f : list Z * nat → prog B) l :
  l ∈ L → (∀ L' x, L ⊆ L' → lsafe b root n L' Q (f x)) → lsafe b root (S (S n)) L Q (node_edge_p l ≫= f).
Proof.
  intros Hl Hf. apply (safe_bind _ _ 2 n _ (λ _ _, True)); [|by intros L' x Hs _; apply Hf].
  unfold node_edge_p. apply live_get; [done|]. intros L1 bits Hs. apply live_get; [set_solver|done].
Qed.

Lemma live_blank b root L l el : l ∈ L → lsafe b root 1 L any (blank_p l el).
Proof. intros Hl. unfold blank_p. destruct (el =? 0)%nat; [|done]. by apply live_get. Qed.

Lemma live_unused b root L l el : l ∈ L → lsafe b root 3 L any (unused_p l el).
Proof.
  intros Hl. apply (safe_bind _ _ 1 2 _ any); [by apply live_blank|]. intros L1 [] Hs _; [|done].
  apply live_get; [set_solver|]. intros L2 lc Hs2. destruct (is_none lc); [|done]. apply live_get; [set_solver|done].
Qed.

Lemma live_new_leaf b root L bits len p md : lsafe b root 4 L is_live (new_leaf_p b bits len p md).
Proof.
  apply live_new. intros L1 l Hs Hl. apply live_set_edge; [done|]. intros L2 Hs2.
  apply live_prefix; [set_solver|]. intros L3 Hs3. apply live_meta; [set_solver|]. intros L4 Hs4. unfold is_live. simpl. set_solver.
Qed.

Lemma live_split b root L l eb el s : l ∈ L → lsafe b root 15 L any (split_node_p b l eb el s).
Proof.
  intros Hl. unfold split_node_p. cbv zeta. apply live_new. intros L1 c Hs1 Hc. apply live_set_edge; [done|]. intros L2 Hs2.
  apply live_get; [set_solver|]. intros L3 md Hs3. assert (l ∈ L3 ∧ c ∈ L3) as [Hl3 Hc3] by set_solver. clear Hs1 Hs2 Hs3 Hl Hc.
  apply (safe_bind _ _ 2 10 _ any).
  { destruct md as [m|]; [|done]. apply live_meta; [done|]. intros L4 Hs4. apply safe_last. by apply live_unset; [set_solver|]. }
  intros L4 _ Hs4 _. apply live_get; [set_solver|]. intros L5 pf Hs5. assert (l ∈ L5 ∧ c ∈ L5) as [Hl5 Hc5] by set_solver.
  clear Hs4 Hs5 Hl3 Hc3. apply (safe_bind _ _ 1 8 _ any).
  { destruct pf as [p|]; [|done]. apply safe_last. by apply live_prefix. }
  intros L6 _ Hs6 _.
  change (atomic (get node_left l)) with (atomic (child_of 0 l)). apply live_child; [set_solver|]. intros L7 lc Hs7 Hlc.
  apply live_left; [set_solver|done|]. intros L8 Hs8.
  change (atomic (get node_right l)) with (atomic (child_of 1 l)). apply live_child; [set_solver|]. intros L9 rc Hs9 Hrc.
  apply live_right; [set_solver|done|]. intros L10 Hs10. apply live_set_edge; [set_solver|]. intros L11 Hs11.
  apply live_left; [set_solver|done|]. intros L12 Hs12. apply live_right; [set_solver|done|]. intros L13 Hs13.
  apply safe_last. apply live_link; [set_solver|set_solver|done].
Qed.

Lemma common_prefix_len_le a an b bn : (common_prefix_len a an b bn ≤ an ∧ common_prefix_len a an b bn ≤ bn)%nat.
Proof.
  rewrite common_prefix_len_lcp. pose proof (lcp_le (bslice a 0 an) (bslice b 0 bn)) as Hl.
  by rewrite !length_bslice in Hl.
Qed.

(** A leaf that is linked below a node. *)
Lemma live_leaf b root L l bits len p md bit (a : bool) :
  l ∈ L →
  lsafe b root 5 L any (leaf ← new_leaf_p b bits len p md; _ ← atomic (set_child_of bit l leaf); mret a).
Proof.
  intros Hl. apply (safe_bind _ _ 4 1 _ is_live); [apply live_new_leaf|]. intros L1 c Hs Hc.
  apply live_link; [set_solver|done|done].
Qed.

Lemma live_insert_inner b root key kl p md fuel : ∀ l d L,
  l ∈ L → (d ≤ kl)%nat → (kl - d < fuel)%nat →
  lsafe b root (6 * (kl - d) + 25) L any (insert_inner_p fuel l b key kl d p md).
Proof.
  induction fuel as [|fuel IH]; intros l d L Hl Hd Hf; [lia|]. cbn [insert_inner_p].
  apply (safe_more _ _ (S (S (3 + (6 * (kl - d) + 20))))); [lia|]. apply live_edge; [done|]. intros L1 [eb el] Hs1. cbv zeta.
  apply (safe_bind _ _ 3 _ _ any); [apply live_unused; set_solver|]. intros L2 un Hs2 _.
  assert (l ∈ L2) as Hl2 by set_solver. clear Hs1 Hs2 Hl. destruct un.
  { apply (safe_more _ _ 3); [lia|]. apply live_set_edge; [done|]. intros L3 Hs3. apply live_prefix; [set_solver|].
    intros L4 Hs4. by apply live_meta; [set_solver|]. }
  pose proof (common_prefix_len_le eb el (extract_bits key d (kl - d)) (kl - d)) as Hle.
  set (sh := common_prefix_len eb el _ _) in *.
  destruct ((sh =? el)%nat && (sh =? kl - d)%nat)%bool eqn:Heq.
  { apply (safe_more _ _ 3); [lia|]. apply live_get; [done|]. intros L3 old Hs3. apply live_meta; [set_solver|].
    intros L4 Hs4. by apply live_prefix; [set_solver|]. }
  destruct (Nat.ltb_spec sh el) as [Hlt|Hge].
  { apply (safe_more _ _ (15 + 5)); [lia|]. apply (safe_bind _ _ 15 5 _ any); [by apply live_split|]. intros L3 _ Hs3 _.
    destruct (sh =? kl - d)%nat; [|apply live_leaf; set_solver].
    apply (safe_more _ _ 2); [lia|]. apply live_meta; [set_solver|]. intros L4 Hs4. by apply live_prefix; [set_solver|]. }
  assert (sh < kl - d)%nat as Hsh.
  { destruct (Nat.eqb_spec sh el), (Nat.eqb_spec sh (kl - d)); simpl in Heq; try done; lia. }
  apply (safe_more _ _ (S (6 * (kl - d) + 19))); [lia|]. apply live_child; [done|]. intros L3 [c|] Hs3 Hc.
  - eapply safe_more; [|apply IH; [by apply Hc|lia|lia]]. lia.
  - apply (safe_more _ _ 5); [lia|]. apply live_leaf. set_solver.
Qed.

Lemma live_lookup_inner b root key fuel : ∀ l d L,
  l ∈ L → (d ≤ length key * 8)%nat → (length key * 8 - d < fuel)%nat →
  lsafe b root (5 * (length key * 8 - d) + 5) L any (lookup_inner_p fuel l key d).
Proof.
  induction fuel as [|fuel IH]; intros l d L Hl Hd Hf; [lia|]. cbn [lookup_inner_p].
  set (kl := (length key * 8)%nat) in *.
  apply (safe_more _ _ (S (S (1 + S (S (5 * (kl - d))))))); [lia|]. apply live_edge; [done|]. intros L1 [eb el] Hs1. cbv zeta.
  apply (safe_bind _ _ 1 _ _ any); [apply live_blank; set_solver|]. intros L2 un Hs2 _.
  assert (l ∈ L2) as Hl2 by set_solver. clear Hs1 Hs2 Hl. destruct un; [by apply safe_ret|].
  pose proof (common_prefix_len_le eb el (extract_bits key d (kl - d)) (kl - d)) as Hle.
  set (sh := common_prefix_len eb el _ _) in *. destruct (sh <? el)%nat; [by apply safe_ret|].
  apply live_get; [done|]. intros L3 best Hs3. destruct (Nat.leb_spec kl (d + sh)) as [|Hlt]; [done|].
  apply live_child; [set_solver|]. intros L4 [c|] Hs4 Hc; [|by apply safe_ret].
  replace (5 * (kl - d))%nat with (5 * (kl - d) + 0)%nat by lia.
  apply (safe_bind _ _ _ 0 _ any); [|done]. eapply safe_more; [|apply IH; [by apply Hc|lia|lia]]. fold kl. lia.
Qed.

Lemma live_remove_inner b root key kl fuel : ∀ l d L,
  l ∈ L → (d ≤ kl)%nat → (kl - d < fuel)%nat →
  lsafe b root (3 * (kl - d) + 4) L any (remove_inner_p fuel l key kl d).
Proof.
  induction fuel as [|fuel IH]; intros l d L Hl Hd Hf; [lia|]. cbn [remove_inner_p].
  apply (safe_more _ _ (S (S (3 * (kl - d) + 2)))); [lia|]. apply live_edge; [done|]. intros L1 [eb el] Hs1. cbv zeta.
  pose proof (common_prefix_len_le eb el (extract_bits key d (kl - d)) (kl - d)) as Hle.
  set (sh := common_prefix_len eb el _ _) in *. assert (l ∈ L1) as Hl1 by set_solver. destruct (sh <? el)%nat; [by apply safe_ret|].
  destruct (Nat.eqb_spec sh (kl - d)) as [|Hne].
  { apply (safe_more _ _ 2); [lia|]. apply live_get; [done|]. intros L2 r Hs2. by apply live_unset; [set_solver|]. }
  apply (safe_more _ _ (S (3 * (kl - d) + 1))); [lia|]. apply live_child; [done|]. intros L2 [c|] Hs2 Hc; [|by apply safe_ret].
  eapply safe_more; [|apply IH; [by apply Hc|lia|lia]]. lia.
Qed.

Lemma live_contains_inner b root key kl fuel : ∀ l d L,
  l ∈ L → (d ≤ kl)%nat → (kl - d < fuel)%nat →
  lsafe b root (3 * (kl - d) + 4) L any (contains_inner_p fuel l key kl d).
Proof.
  induction fuel as [|fuel IH]; intros l d L Hl Hd Hf; [lia|]. cbn [contains_inner_p].
  apply (safe_more _ _ (S (S (3 * (kl - d) + 2)))); [lia|]. apply live_edge; [done|]. intros L1 [eb el] Hs1. cbv zeta.
  pose proof (common_prefix_len_le eb el (extract_bits key d (kl - d)) (kl - d)) as Hle.
  set (sh := common_prefix_len eb el _ _) in *. assert (l ∈ L1) as Hl1 by set_solver. destruct (sh <? el)%nat; [by apply safe_ret|].
  destruct (Nat.eqb_spec sh (kl - d)) as [|Hne].
  { apply (safe_more _ _ 1); [lia|]. by apply live_get. }
  apply (safe_more _ _ (S (3 * (kl - d) + 1))); [lia|]. apply live_child; [done|]. intros L2 [c|] Hs2 Hc; [|by apply safe_ret].
  eapply safe_more; [|apply IH; [by apply Hc|lia|lia]]. lia.
Qed.

Lemma live_clear_inner b root l L : l ∈ L → lsafe b root 4 L any (clear_inner_p l).
Proof.
  intros Hl. apply live_set_edge; [done|]. intros L1 Hs1. apply live_unset; [set_solver|]. intros L2 Hs2.
  apply live_left; [set_solver|done|]. intros L3 Hs3. apply safe_last. by apply live_right; [set_solver|done|].
Qed.

(** ** The nodes of a tree that a single thread has built *)

Lemma prep_live h pt : ∀ l F, prep h pt (Some l) F → l ∈ F ∧
  ∀ l', l' ∈ F → ∃ n, cells h !! l' = Some n ∧ is_Some (c_edge (pay n)) ∧ ∀ s l'', side s n = Some l'' → l'' ∈ F.
Proof.
  induction pt as [|a t0 IH0 t1 IH1]; intros l F Hr; [by inversion Hr|].
  apply prep_some in Hr as (a' & lc & rc & t0' & t1' & F0 & F1 & [= <- <- <-] & (n & Hn & Hni) & Hr0 & Hr1 & _ & _ & _ & ->).
  split; [set_solver|]. intros l' Hl'.
  assert (∀ l'', (lc = Some l'' → l'' ∈ F0) ∧ (rc = Some l'' → l'' ∈ F1)) as Hch.
  { intros l''. split; intros ->; [by apply (IH0 _ _ Hr0)|by apply (IH1 _ _ Hr1)]. }
  assert (l' = l ∨ l' ∈ F0 ∨ l' ∈ F1) as [->|[Hin|Hin]] by set_solver.
  - exists n. split_and!; [done| |].
    + destruct (ni_edge _ _ _ _ Hni) as (bits & -> & _). eauto.
    + intros s l'' Hs. destruct (Hch l'') as [H0' H1']. destruct s; unfold side in Hs.
      * rewrite (ni_right _ _ _ _ Hni) in Hs. set_solver.
      * rewrite (ni_left _ _ _ _ Hni) in Hs. set_solver.
  - destruct lc as [lc|]; [|apply prep_none in Hr0 as [_ ->]; set_solver].
    destruct (proj2 (IH0 _ _ Hr0) l' Hin) as (n' & Hn' & He & Hs). exists n'. split_and!; [done|done|]. intros s l'' Hl''.
    specialize (Hs s l'' Hl''). set_solver.
  - destruct rc as [rc|]; [|apply prep_none in Hr1 as [_ ->]; set_solver].
    destruct (proj2 (IH1 _ _ Hr1) l' Hin) as (n' & Hn' & He & Hs). exists n'. split_and!; [done|done|]. intros s l'' Hl''.
    specialize (Hs s l'' Hl''). set_solver.
Qed.

Lemma patricia_rep_live h t m F : patricia_rep h t m F → live_ok (ct_builder t) (ct_root t) F h.
Proof.
  intros (Hwf & Hb & pt & Hr & _). destruct (prep_live _ _ _ _ Hr) as [Hroot Hc]. by split.
Qed.

#[export] Program Instance patricia_threaded : ThreadedTree CompressedTree := {|
  tt_insert := patricia_insert_p; tt_lookup := patricia_lookup_p; tt_remove := patricia_remove_p;
  tt_contains := patricia_contains_p; tt_clear := patricia_clear_p;
  tt_insert_alone := alone_patricia_insert; tt_lookup_alone := alone_patricia_lookup;
  tt_remove_alone := alone_patricia_remove; tt_contains_alone := alone_patricia_contains;
  tt_clear_alone := alone_patricia_clear;
  tt_world := gset loc; tt_le := (⊆); tt_inv t _ := live_ok (ct_builder t) (ct_root t); tt_sound _ _ _ := True;
  tt_insert_steps p := (6 * Z.to_nat (net_prefix p) + 25)%nat; tt_find_steps p := (3 * Z.to_nat (net_prefix p) + 4)%nat;
  tt_lookup_steps := 645; tt_clear_steps := 4;
|}.
Next Obligation. by intros t p md []. Qed.
Next Obligation. by intros t ip []. Qed.
Next Obligation. by intros t p []. Qed.
Next Obligation. by intros t p []. Qed.
Next Obligation. by intros t []. Qed.
Next Obligation. intros h t m F ok Hr _. exists F. exact (patricia_rep_live _ _ _ _ Hr). Qed.
Next Obligation.
  intros t ok p md L h _ Hok. pose proof (live_root _ _ _ _ Hok) as Hr.
  apply (safe_more _ _ (6 * (Z.to_nat (net_prefix p) - 0) + 25 + 0)); [lia|].
  apply (safe_bind _ _ _ 0 _ any); [|done]. apply live_insert_inner; [done|lia|unfold key_fuel; lia].
Qed.
Next Obligation.
  intros t ok ip L h Hok. pose proof (live_lookup_inner (ct_builder t) (ct_root t) (ip_to_bytes ip) (key_fuel 128) (ct_root t) 0 L) as Hl.
  rewrite length_ip_to_bytes in Hl. apply Hl; [exact (live_root _ _ _ _ Hok)|lia|unfold key_fuel; lia].
Qed.
Next Obligation.
  intros t ok p L h Hok. pose proof (live_remove_inner (ct_builder t) (ct_root t) (ip_to_bytes (net_network p))
    (Z.to_nat (net_prefix p)) (key_fuel (Z.to_nat (net_prefix p))) (ct_root t) 0 L (live_root _ _ _ _ Hok)) as Hr.
  rewrite Nat.sub_0_r in Hr. apply Hr; unfold key_fuel; lia.
Qed.
Next Obligation.
  intros t ok p L h Hok. pose proof (live_contains_inner (ct_builder t) (ct_root t) (ip_to_bytes (net_network p))
    (Z.to_nat (net_prefix p)) (key_fuel (Z.to_nat (net_prefix p))) (ct_root t) 0 L (live_root _ _ _ _ Hok)) as Hr.
  rewrite Nat.sub_0_r in Hr. apply Hr; unfold key_fuel; lia.
Qed.
Next Obligation. intros t ok L h Hok. exact (live_clear_inner _ _ _ _ (live_root _ _ _ _ Hok)). Qed.
End live.
