(* ===== verification/Engine.v ===== *)
(** * The engines (engine/src/engine.rs)

    [StandardEngine] wraps one tree with a size counter and statistics,
    [ShardedEngine] a vector of standard engines.  [ShardedEngine::new] clones
    the tree into every shard, and the clone of a tree shares its root: all
    shards are handles on one tree in the heap.  The engines are proved
    against the interface [RouteTreeLaws]. *)

From S2P Require Import Prelude Addr DashMap Node Heap RouteTree.

Local Open Scope Z_scope.

Section engines.
Context `{IpNetworkCrate} `{DashMapCrate} {T : Type} `{!RouteTree T}.

(** ** StandardEngine *)

Record StandardEngine := mkStandard {
  se_tree : T;
  se_size : Z;             (* AtomicUsize *)
  se_stats : EngineStats;  (* RwLock<EngineStats> *)
}.

Definition standard_new (tree : T) : StandardEngine := mkStandard tree 0 EngineStats_default.

Definition bump (x : Z) : Z := wrap 64 (x + 1).

Definition standard_size (e : StandardEngine) : Z := se_size e.

Definition standard_insert (e : StandardEngine) (prefix : IpNetwork) (metadata : Metadata)
    : M (Result unit string * StandardEngine) :=
  r ← rt_insert (se_tree e) prefix metadata;
  match r with
  | Err err => mret (Err err, e)
  | Ok is_new =>
      let size := if (is_new : bool) then wrap 64 (se_size e + 1) else se_size e in
      let s := se_stats e in
      mret (Ok tt, mkStandard (se_tree e) size
        (mkStats (bump (stat_inserts s)) (stat_lookups s) (stat_hits s) (stat_misses s)
           (stat_removals s) size))
  end.

Definition standard_lookup (e : StandardEngine) (ip : IpAddr)
    : M (option Metadata * StandardEngine) :=
  result ← rt_lookup (se_tree e) ip;
  let s := se_stats e in
  mret (result, mkStandard (se_tree e) (se_size e)
    (mkStats (stat_inserts s) (bump (stat_lookups s))
       (if is_some result then bump (stat_hits s) else stat_hits s)
       (if is_some result then stat_misses s else bump (stat_misses s))
       (stat_removals s) (stat_size s))).

Definition standard_remove (e : StandardEngine) (prefix : IpNetwork)
    : M (option Metadata * StandardEngine) :=
  removed ← rt_remove (se_tree e) prefix;
  if is_some removed then
    let size := wrap 64 (se_size e - 1) in
    let s := se_stats e in
    mret (removed, mkStandard (se_tree e) size
      (mkStats (stat_inserts s) (stat_lookups s) (stat_hits s) (stat_misses s)
         (bump (stat_removals s)) size))
  else mret (removed, e).

Definition standard_contains (e : StandardEngine) (prefix : IpNetwork) : M bool :=
  rt_contains (se_tree e) prefix.

Definition standard_clear (e : StandardEngine) : M StandardEngine :=
  _ ← rt_clear (se_tree e);
  let s := se_stats e in
  mret (mkStandard (se_tree e) 0
    (mkStats (stat_inserts s) (stat_lookups s) (stat_hits s) (stat_misses s)
       (stat_removals s) 0)).

Definition standard_stats (e : StandardEngine) : EngineStats :=
  let s := se_stats e in
  mkStats (stat_inserts s) (stat_lookups s) (stat_hits s) (stat_misses s)
    (stat_removals s) (standard_size e).

(** ** ShardedEngine *)

Record ShardedEngine := mkSharded {
  sh_shards : list StandardEngine;
  sh_num_shards : nat;
  sh_mask_bits : Z;  (* u8 *)
}.

(** [tree.clone()] clones the [Arc] of the root: every shard gets the same tree. *)
Definition sharded_new (num_shards : nat) (tree : T) : ShardedEngine :=
  mkSharded (replicate num_shards (standard_new tree)) num_shards 32.

(** [for shard in &self.shards { shard.insert(prefix, metadata.clone())?; }] *)
Fixpoint insert_all (es : list StandardEngine) (prefix : IpNetwork) (metadata : Metadata)
    : M (Result unit string * list StandardEngine) :=
  match es with
  | [] => mret (Ok tt, [])
  | e :: es' =>
      '(r, e') ← standard_insert e prefix metadata;
      match r with
      | Err err => mret (Err err, e' :: es')
      | Ok _ =>
          '(r', es'') ← insert_all es' prefix metadata;
          mret (r', e' :: es'')
      end
  end.

Fixpoint remove_all (es : list StandardEngine) (prefix : IpNetwork) (removed : option Metadata)
    : M (option Metadata * list StandardEngine) :=
  match es with
  | [] => mret (removed, [])
  | e :: es' =>
      '(shard_removed, e') ← standard_remove e prefix;
      let removed' := if is_none removed then shard_removed else removed in
      '(r, es'') ← remove_all es' prefix removed';
      mret (r, e' :: es'')
  end.

Fixpoint clear_all (es : list StandardEngine) : M (list StandardEngine) :=
  match es with
  | [] => mret []
  | e :: es' => e' ← standard_clear e; es'' ← clear_all es'; mret (e' :: es'')
  end.
End engines.
Arguments StandardEngine : clear implicits.
Arguments ShardedEngine : clear implicits.

(** ** Choosing a shard

    Shared verbatim by [ShardedEngine::get_shard] and
    [ShardedARTEngineAdapter::get_shard]. *)

(** [hash.wrapping_mul(31).wrapping_add(byte)] at width [w]. *)
Definition hash_byte (w hash byte : Z) : Z := wrap w (wrap w (hash * 31) + byte).

Definition hash_bytes (w : Z) (bytes : list Z) : Z := foldl (hash_byte w) 0 bytes.

(** [None] is the panic of a shift by the full width. *)
Definition shard_hash (mask_bits : Z) (ip : IpAddr) : option Z :=
  match ip with
  | V4 a =>
      let ip_u32 := a in
      mask ← (if mask_bits >=? 32 then Some (umax 32)
              else if mask_bits =? 0 then None
              else Some (wrap 32 (Z.shiftl (umax 32) (32 - mask_bits))));
      let masked_ip := Z.land ip_u32 mask in
      Some (hash_bytes 32 (be_bytes 4 masked_ip))
  | V6 a =>
      let bytes := octets ip in
      Some (if mask_bits <=? 64 then
              let bytes_to_keep := Z.to_nat ((mask_bits + 7) / 8) in
              let hash := hash_bytes 64 (take bytes_to_keep bytes) in
              if (negb (mask_bits mod 8 =? 0) && (bytes_to_keep <? length bytes)%nat)%bool then
                let mask := wrap 8 (Z.shiftl 255 (8 - mask_bits mod 8)) in
                let partial_byte := Z.land (nth bytes_to_keep bytes 0) mask in
                hash_byte 64 hash partial_byte
              else hash
            else hash_bytes 64 (take 16 bytes))
  end.

(** [hash % self.num_shards]; [None] is the panic of a division by zero. *)
Definition get_shard (num_shards : nat) (mask_bits : Z) (ip : IpAddr) : option nat :=
  hash ← shard_hash mask_bits ip;
  if (num_shards =? 0)%nat then None else Some (Z.to_nat (hash mod Z.of_nat num_shards)).

Lemma foldl_hash_range w bytes x : 0 ≤ w → in_width w x → in_width w (foldl (hash_byte w) x bytes).
Proof.
  intros Hw. revert x. induction bytes as [|b bytes IH]; intros x Hx; simpl; [done|].
  apply IH. by apply wrap_range.
Qed.

Lemma shard_hash_32 ip : ∃ hash, shard_hash 32 ip = Some hash ∧ 0 ≤ hash.
Proof.
  destruct ip as [a|a]; simpl; eexists; (split; [done|]).
  - apply (foldl_hash_range 32); [lia|]. split; lia.
  - apply (foldl_hash_range 64); [lia|]. split; lia.
Qed.

Lemma get_shard_range k ip : (0 < k)%nat → ∃ i, get_shard k 32 ip = Some i ∧ (i < k)%nat.
Proof.
  intros Hk. unfold get_shard. destruct (shard_hash_32 ip) as (hash & -> & Hh).
  cbn [mbind option_bind]. destruct (Nat.eqb_spec k 0) as [->|_]; [lia|].
  eexists. split; [done|]. pose proof (Z.mod_pos_bound hash (Z.of_nat k) ltac:(lia)). lia.
Qed.

Section sharded.
Context `{IpNetworkCrate} `{DashMapCrate} {T : Type} `{!RouteTree T}.
Implicit Types (s : ShardedEngine T).

Definition sharded_insert s (prefix : IpNetwork) (metadata : Metadata)
    : M (Result unit string * ShardedEngine T) :=
  '(r, es) ← insert_all (sh_shards s) prefix metadata;
  mret (r, mkSharded es (sh_num_shards s) (sh_mask_bits s)).

(** [self.shards[shard_idx].lookup(ip)]: an index out of range panics. *)
Definition sharded_lookup s (ip : IpAddr) : M (option Metadata * ShardedEngine T) :=
  match get_shard (sh_num_shards s) (sh_mask_bits s) ip with
  | None => panic
  | Some shard_idx =>
      match sh_shards s !! shard_idx with
      | None => panic
      | Some e =>
          '(r, e') ← standard_lookup e ip;
          mret (r, mkSharded (<[shard_idx := e']> (sh_shards s)) (sh_num_shards s) (sh_mask_bits s))
      end
  end.

Definition sharded_remove s (prefix : IpNetwork) : M (option Metadata * ShardedEngine T) :=
  '(r, es) ← remove_all (sh_shards s) prefix None;
  mret (r, mkSharded es (sh_num_shards s) (sh_mask_bits s)).

Definition sharded_contains s (prefix : IpNetwork) : M bool :=
  match sh_shards s with
  | e :: _ => standard_contains e prefix
  | [] => mret false
  end.

Definition sharded_clear s : M (ShardedEngine T) :=
  es ← clear_all (sh_shards s);
  mret (mkSharded es (sh_num_shards s) (sh_mask_bits s)).

Definition sharded_size s : Z :=
  match sh_shards s with e :: _ => standard_size e | [] => 0 end.

(** Sums of the read counters, the write counters of the first shard. *)
Definition sharded_stats s : EngineStats :=
  let sum f := foldl (λ acc e, wrap 64 (acc + f (standard_stats e))) 0 (sh_shards s) in
  let first f := match sh_shards s with e :: _ => f (standard_stats e) | [] => 0 end in
  mkStats (first stat_inserts) (sum stat_lookups) (sum stat_hits) (sum stat_misses)
    (first stat_removals) (sharded_size s).
End sharded.

(** ** The trait [RadixEngine] *)

Section trait.
Context `{IpNetworkCrate} `{DashMapCrate}.

Class RadixEngine (E : Type) := {
  re_insert : E → IpNetwork → Metadata → M (Result unit string * E);
  re_lookup : E → IpAddr → M (option Metadata * E);
  re_remove : E → IpNetwork → M (option Metadata * E);
  re_contains : E → IpNetwork → M bool;
  re_clear : E → M E;
  re_size : E → Z;
  re_stats : E → EngineStats;
}.

#[export] Instance StandardEngine_RadixEngine {T} `{!RouteTree T} : RadixEngine (StandardEngine T) := {|
  re_insert := standard_insert;
  re_lookup := standard_lookup;
  re_remove := standard_remove;
  re_contains := standard_contains;
  re_clear := standard_clear;
  re_size := standard_size;
  re_stats := standard_stats;
|}.

#[export] Instance ShardedEngine_RadixEngine {T} `{!RouteTree T} : RadixEngine (ShardedEngine T) := {|
  re_insert := sharded_insert;
  re_lookup := sharded_lookup;
  re_remove := sharded_remove;
  re_contains := sharded_contains;
  re_clear := sharded_clear;
  re_size := sharded_size;
  re_stats := sharded_stats;
|}.

Definition engine_op `{RadixEngine E} (e : E) (o : op) : M (res * E) :=
  match o with
  | OpInsert p md => '(r, e') ← re_insert e p md; mret (RDone r, e')
  | OpLookup ip => '(r, e') ← re_lookup e ip; mret (RMeta r, e')
  | OpRemove p => '(r, e') ← re_remove e p; mret (RMeta r, e')
  | OpContains p => r ← re_contains e p; mret (RBool r, e)
  | OpClear => e' ← re_clear e; mret (RUnit, e')
  end.

Fixpoint engine_ops `{RadixEngine E} (e : E) (os : list op) : M (list res * E) :=
  match os with
  | [] => mret ([], e)
  | o :: os' =>
      '(r, e') ← engine_op e o;
      '(rs, e'') ← engine_ops e' os';
      mret (r :: rs, e'')
  end.

(** The abstract machine of an engine: a routing table and the counter that
    [size] reports. *)
Inductive engine_step (key : IpNetwork → list bool)
    (answers : table → IpAddr → option Metadata → Prop) (cleared : table → table)
    : table * Z → op → res → table * Z → Prop :=
  | es_insert m n p md :
      engine_step key answers cleared (m, n) (OpInsert p md) (RDone (Ok tt))
        (<[key p := (p, md)]> m, if is_none (m !! key p) then wrap 64 (n + 1) else n)
  | es_lookup m n ip r :
      answers m ip r → engine_step key answers cleared (m, n) (OpLookup ip) (RMeta r) (m, n)
  | es_remove m n p :
      engine_step key answers cleared (m, n) (OpRemove p) (RMeta (snd <$> m !! key p))
        (delete (key p) m, if is_some (m !! key p) then wrap 64 (n - 1) else n)
  | es_contains m n p :
      engine_step key answers cleared (m, n) (OpContains p) (RBool (is_some (m !! key p))) (m, n)
  | es_clear m n :
      engine_step key answers cleared (m, n) OpClear RUnit (cleared m, 0).

Inductive engine_steps (key : IpNetwork → list bool)
    (answers : table → IpAddr → option Metadata → Prop) (cleared : table → table)
    : table * Z → list op → list res → table * Z → Prop :=
  | es_done s : engine_steps key answers cleared s [] [] s
  | es_more s (o : op) (r : res) s' (os : list op) (rs : list res) s'' :
      engine_step key answers cleared s o r s' →
      engine_steps key answers cleared s' os rs s'' →
      engine_steps key answers cleared s (o :: os) (r :: rs) s''.

(** When [clear] empties the table, the counter is the number of routes. *)
Lemma engine_steps_size key answers cleared s os rs s' :
  (∀ m, cleared m = ∅) →
  engine_steps key answers cleared s os rs s' →
  s.2 = wrap 64 (Z.of_nat (size s.1)) → s'.2 = wrap 64 (Z.of_nat (size s'.1)).
Proof.
  intros Hcl. induction 1 as [|s o r s' os rs s'' Hs Hss IH]; [done|].
  intros Hn. apply IH. clear IH Hss.
  destruct Hs as [m n p md|m n ip r|m n p|m n p|m n]; simpl in *; subst; try done.
  - rewrite map_size_insert. destruct (m !! key p) as [e|]; simpl; [done|].
    unfold wrap. rewrite Zplus_mod_idemp_l. f_equal. lia.
  - rewrite map_size_delete. destruct (m !! key p) as [e|] eqn:Hk; simpl; [|done].
    unfold wrap. rewrite Zminus_mod_idemp_l. f_equal.
    assert (size m ≠ 0%nat); [|lia]. intros Hz%map_size_empty_inv. subst.
    by rewrite lookup_empty in Hk.
  - by rewrite Hcl, map_size_empty.
Qed.
End trait.

(** ** What an engine promises to the policy layer *)

Section engine_interface.
Context `{IpNetworkCrate} `{DashMapCrate}.

Class RadixEngineLaws (E : Type) `{!RadixEngine E} := {
  re_key : IpNetwork → list bool;
  re_answers : table → IpAddr → option Metadata → Prop;
  re_cleared : table → table;
  re_rep : Heap → E → table → Z → gset loc → Prop;
  re_rep_wf h e m n F : re_rep h e m n F → heap_wf h;
  re_size_spec h e m n F : re_rep h e m n F → re_size e = n;
  re_insert_spec h e m n F p md : re_rep h e m n F →
    ∃ e' h' F', re_insert e p md h = Some ((Ok tt, e'), h') ∧
      re_rep h' e' (<[re_key p := (p, md)]> m)
        (if is_none (m !! re_key p) then wrap 64 (n + 1) else n) F' ∧ evolves h h' F F';
  re_lookup_spec h e m n F ip : re_rep h e m n F →
    ∃ r e', re_lookup e ip h = Some ((r, e'), h) ∧ re_rep h e' m n F ∧ re_answers m ip r;
  re_remove_spec h e m n F p : re_rep h e m n F →
    ∃ e' h' F', re_remove e p h = Some ((snd <$> m !! re_key p, e'), h') ∧
      re_rep h' e' (delete (re_key p) m)
        (if is_some (m !! re_key p) then wrap 64 (n - 1) else n) F' ∧ evolves h h' F F';
  re_contains_spec h e m n F p : re_rep h e m n F →
    re_contains e p h = Some (is_some (m !! re_key p), h);
  re_clear_spec h e m n F : re_rep h e m n F →
    ∃ e' h' F', re_clear e h = Some (e', h') ∧ re_rep h' e' (re_cleared m) 0 F' ∧
      evolves h h' F F';
  re_frame h h' e m n F G G' : re_rep h e m n F → evolves h h' G G' → G ## F →
    re_rep h' e m n F ∧ G' ## F;
}.

Context {E : Type} `{!RadixEngine E} `{!RadixEngineLaws E}.

Lemma engine_op_refines (h : Heap) (e : E) (m : table) (n : Z) (F : gset loc) (o : op) :
  re_rep h e m n F →
  ∃ r e' h' m' n' F', engine_op e o h = Some ((r, e'), h') ∧ re_rep h' e' m' n' F' ∧
    evolves h h' F F' ∧ engine_step re_key re_answers re_cleared (m, n) o r (m', n').
Proof.
  intros Hr. pose proof (re_rep_wf _ _ _ _ _ Hr) as Hwf.
  destruct o as [p md|ip|p|p|]; cbn [engine_op].
  - destruct (re_insert_spec h e m n F p md Hr) as (e' & h' & F' & R & Hr' & Hev).
    rewrite (bind_run _ _ _ _ _ R). eexists _, _, _, _, _, _. split_and!; [done|done|done|constructor].
  - destruct (re_lookup_spec h e m n F ip Hr) as (r & e' & R & Hr' & Ha).
    rewrite (bind_run _ _ _ _ _ R). eexists _, _, _, _, _, _.
    split_and!; [done|done|by apply evolves_refl|by constructor].
  - destruct (re_remove_spec h e m n F p Hr) as (e' & h' & F' & R & Hr' & Hev).
    rewrite (bind_run _ _ _ _ _ R). eexists _, _, _, _, _, _. split_and!; [done|done|done|constructor].
  - rewrite (bind_run _ _ _ _ _ (re_contains_spec h e m n F p Hr)).
    eexists _, _, _, _, _, _. split_and!; [done|done|by apply evolves_refl|constructor].
  - destruct (re_clear_spec h e m n F Hr) as (e' & h' & F' & R & Hr' & Hev).
    rewrite (bind_run _ _ _ _ _ R). eexists _, _, _, _, _, _. split_and!; [done|done|done|constructor].
Qed.

Lemma engine_ops_refines (os : list op) : ∀ (h : Heap) (e : E) (m : table) (n : Z) (F : gset loc),
  re_rep h e m n F →
  ∃ rs e' h' m' F', engine_ops e os h = Some ((rs, e'), h') ∧
    re_rep h' e' m' (re_size e') F' ∧ evolves h h' F F' ∧
    engine_steps re_key re_answers re_cleared (m, n) os rs (m', re_size e').
Proof.
  induction os as [|o os IH]; intros h e m n F HR; cbn [engine_ops].
  - pose proof (re_size_spec _ _ _ _ _ HR) as <-. exists [], e, h, m, F.
    split_and!; [done|done|eauto using evolves_refl, re_rep_wf|constructor].
  - destruct (engine_op_refines h e m n F o HR) as (r & e1 & h1 & m1 & n1 & F1 & R1 & HR1 & Hev1 & S1).
    destruct (IH h1 e1 m1 n1 F1 HR1) as (rs & e2 & h2 & m2 & F2 & R2 & HR2 & Hev2 & S2).
    rewrite (bind_run _ _ _ _ _ R1). cbn beta iota. rewrite (bind_run _ _ _ _ _ R2).
    exists (r :: rs), e2, h2, m2, F2. split_and!; [done|done|by eapply evolves_trans|].
    by econstructor.
Qed.
End engine_interface.

(** ** The engines keep the promise *)

Section refinement.
Context `{IpNetworkCrate} `{DashMapCrate} {T : Type} `{!RouteTree T} `{!RouteTreeLaws T}.
Implicit Types (h : Heap) (m : table) (F : gset loc) (n : Z).

(** *** StandardEngine *)

Definition standard_rep h (e : StandardEngine T) m n F : Prop :=
  rt_rep h (se_tree e) m F ∧ se_size e = n.

Lemma standard_insert_run h e m n F p md :
  standard_rep h e m n F →
  ∃ e' h' F', standard_insert e p md h = Some ((Ok tt, e'), h') ∧ se_tree e' = se_tree e ∧
    standard_rep h' e' (<[rt_key p := (p, md)]> m)
      (if is_none (m !! rt_key p) then wrap 64 (n + 1) else n) F' ∧ evolves h h' F F'.
Proof.
  intros [Hr <-]. destruct (rt_insert_spec h (se_tree e) m F p md Hr) as (h' & F' & R & Hr' & Hev).
  unfold standard_insert. rewrite (bind_run _ _ _ _ _ R). by eexists _, h', F'.
Qed.

Lemma standard_lookup_run h e m n F ip :
  standard_rep h e m n F →
  ∃ r e', standard_lookup e ip h = Some ((r, e'), h) ∧ se_tree e' = se_tree e ∧
    standard_rep h e' m n F ∧ rt_answers m ip r.
Proof.
  intros [Hr <-]. destruct (rt_lookup_spec h (se_tree e) m F ip Hr) as (r & R & Hans).
  unfold standard_lookup. rewrite (bind_run _ _ _ _ _ R). by eexists r, _.
Qed.

Lemma standard_remove_run h e m n F p :
  standard_rep h e m n F →
  ∃ e' h' F', standard_remove e p h = Some ((snd <$> m !! rt_key p, e'), h') ∧
    se_tree e' = se_tree e ∧
    standard_rep h' e' (delete (rt_key p) m)
      (if is_some (m !! rt_key p) then wrap 64 (n - 1) else n) F' ∧ evolves h h' F F'.
Proof.
  intros [Hr <-]. destruct (rt_remove_spec h (se_tree e) m F p Hr) as (h' & F' & R & Hr' & Hev).
  unfold standard_remove. rewrite (bind_run _ _ _ _ _ R).
  destruct (m !! rt_key p) as [[q md]|]; simpl; by eexists _, h', F'.
Qed.

Lemma standard_clear_run h e m n F :
  standard_rep h e m n F →
  ∃ e' h' F', standard_clear e h = Some (e', h') ∧ se_tree e' = se_tree e ∧
    standard_rep h' e' (rt_cleared m) 0 F' ∧ evolves h h' F F'.
Proof.
  intros [Hr <-]. destruct (rt_clear_spec h (se_tree e) m F Hr) as (h' & F' & R & Hr' & Hev).
  unfold standard_clear. rewrite (bind_run _ _ _ _ _ R). by eexists _, h', F'.
Qed.

#[export] Program Instance StandardEngine_laws : RadixEngineLaws (StandardEngine T) := {|
  re_key := rt_key;
  re_answers := rt_answers;
  re_cleared := rt_cleared;
  re_rep := standard_rep;
|}.
Next Obligation. intros h e m n F [Hr _]. by eapply rt_rep_wf. Qed.
Next Obligation. by intros h e m n F [_ Hn]. Qed.
Next Obligation.
  intros h e m n F p md Hr.
  destruct (standard_insert_run h e m n F p md Hr) as (e' & h' & F' & R & _ & ?). eauto.
Qed.
Next Obligation.
  intros h e m n F ip Hr.
  destruct (standard_lookup_run h e m n F ip Hr) as (r & e' & R & _ & ?). eauto.
Qed.
Next Obligation.
  intros h e m n F p Hr.
  destruct (standard_remove_run h e m n F p Hr) as (e' & h' & F' & R & _ & ?). eauto.
Qed.
Next Obligation. intros h e m n F p [Hr _]. by eapply rt_contains_spec. Qed.
Next Obligation.
  intros h e m n F Hr.
  destruct (standard_clear_run h e m n F Hr) as (e' & h' & F' & R & _ & ?). eauto.
Qed.
Next Obligation.
  intros h h' e m n F G G' [Hr Hn] Hev Hd. destruct (rt_frame _ _ _ _ _ _ _ Hr Hev Hd). by repeat split.
Qed.

(** *** ShardedEngine *)

(** All shards are handles on one tree; the first one keeps the counter. *)
Definition sharded_rep h (s : ShardedEngine T) m n F : Prop :=
  ∃ e es, sh_shards s = e :: es ∧ standard_rep h e m n F ∧
    Forall (λ e', se_tree e' = se_tree e) es ∧
    sh_num_shards s = length (sh_shards s) ∧ sh_mask_bits s = 32.

(** Once the first shard has inserted, the others overwrite the same entry. *)
Lemma insert_all_run (es : list (StandardEngine T)) t p md : ∀ h m F,
  Forall (λ e', se_tree e' = t) es → rt_rep h t m F → m !! rt_key p = Some (p, md) →
  ∃ es' h' F', insert_all es p md h = Some ((Ok tt, es'), h') ∧ length es' = length es ∧
    Forall (λ e', se_tree e' = t) es' ∧ rt_rep h' t m F' ∧ evolves h h' F F'.
Proof.
  induction es as [|e es IH]; intros h m F Hes Hr Hm; cbn [insert_all].
  - exists [], h, F. split_and!; eauto using evolves_refl, rt_rep_wf.
  - apply Forall_cons in Hes as [<- Hes'].
    destruct (standard_insert_run h e m (se_size e) F p md) as (e' & h1 & F1 & R1 & Ht & [Hr1 _] & Hev1);
      [by split|].
    rewrite insert_id, Ht in Hr1 by done.
    destruct (IH h1 m F1 Hes' Hr1 Hm) as (es' & h2 & F2 & R2 & Hl & Hall & Hr2 & Hev2).
    rewrite (bind_run _ _ _ _ _ R1). cbn beta iota. rewrite (bind_run _ _ _ _ _ R2).
    exists (e' :: es'), h2, F2. split_and!; [done|by simpl; rewrite Hl|by constructor|done|].
    by eapply evolves_trans.
Qed.

(** Once the first shard has removed the entry, the others find nothing. *)
Lemma remove_all_run (es : list (StandardEngine T)) t p acc : ∀ h m F,
  Forall (λ e', se_tree e' = t) es → rt_rep h t m F → m !! rt_key p = None →
  ∃ es' h' F', remove_all es p acc h = Some ((acc, es'), h') ∧ length es' = length es ∧
    Forall (λ e', se_tree e' = t) es' ∧ rt_rep h' t m F' ∧ evolves h h' F F'.
Proof.
  induction es as [|e es IH]; intros h m F Hes Hr Hm; cbn [remove_all].
  - exists [], h, F. split_and!; eauto using evolves_refl, rt_rep_wf.
  - apply Forall_cons in Hes as [<- Hes'].
    destruct (standard_remove_run h e m (se_size e) F p) as (e' & h1 & F1 & R1 & Ht & [Hr1 _] & Hev1);
      [by split|].
    rewrite delete_id, Ht in Hr1 by done. rewrite Hm in R1.
    destruct (IH h1 m F1 Hes' Hr1 Hm) as (es' & h2 & F2 & R2 & Hl & Hall & Hr2 & Hev2).
    rewrite (bind_run _ _ _ _ _ R1). cbn beta iota zeta.
    replace (if is_none acc then snd <$> None else acc) with acc by (by destruct acc).
    rewrite (bind_run _ _ _ _ _ R2).
    exists (e' :: es'), h2, F2. split_and!; [done|by simpl; rewrite Hl|by constructor|done|].
    by eapply evolves_trans.
Qed.

Lemma clear_all_run (es : list (StandardEngine T)) t : ∀ h m F,
  Forall (λ e', se_tree e' = t) es → rt_rep h t m F → rt_cleared m = m →
  ∃ es' h' F', clear_all es h = Some (es', h') ∧ length es' = length es ∧
    Forall (λ e', se_tree e' = t) es' ∧ rt_rep h' t m F' ∧ evolves h h' F F'.
Proof.
  induction es as [|e es IH]; intros h m F Hes Hr Hm; cbn [clear_all].
  - exists [], h, F. split_and!; eauto using evolves_refl, rt_rep_wf.
  - apply Forall_cons in Hes as [<- Hes'].
    destruct (standard_clear_run h e m (se_size e) F) as (e' & h1 & F1 & R1 & Ht & [Hr1 _] & Hev1);
      [by split|].
    rewrite Hm, Ht in Hr1.
    destruct (IH h1 m F1 Hes' Hr1 Hm) as (es' & h2 & F2 & R2 & Hl & Hall & Hr2 & Hev2).
    rewrite (bind_run _ _ _ _ _ R1), (bind_run _ _ _ _ _ R2).
    exists (e' :: es'), h2, F2. split_and!; [done|by simpl; rewrite Hl|by constructor|done|].
    by eapply evolves_trans.
Qed.

Lemma sharded_insert_run h s m n F p md :
  sharded_rep h s m n F →
  ∃ s' h' F', sharded_insert s p md h = Some ((Ok tt, s'), h') ∧
    sharded_rep h' s' (<[rt_key p := (p, md)]> m)
      (if is_none (m !! rt_key p) then wrap 64 (n + 1) else n) F' ∧ evolves h h' F F'.
Proof.
  destruct s as [shards k mb]. intros (e & es & Hs & Hr & Hes & Hk & Hmb). simpl in *. subst shards.
  destruct (standard_insert_run h e m n F p md Hr) as (e' & h1 & F1 & R1 & Ht & [Hr1 Hn] & Hev1).
  rewrite <- Ht in Hes.
  destruct (insert_all_run es (se_tree e') p md h1 _ F1 Hes Hr1 (lookup_insert_eq _ _ _))
    as (es' & h2 & F2 & R2 & Hl & Hall & Hr2 & Hev2).
  unfold sharded_insert. cbn [insert_all sh_shards]. rewrite bind_bind, (bind_run _ _ _ _ _ R1).
  cbn beta iota. rewrite bind_bind, (bind_run _ _ _ _ _ R2).
  eexists (mkSharded (e' :: es') _ _), h2, F2. split_and!; [done| |by eapply evolves_trans].
  exists e', es'. split_and!; [done|done|done| |done]. simpl in *. lia.
Qed.

Lemma sharded_remove_run h s m n F p :
  sharded_rep h s m n F →
  ∃ s' h' F', sharded_remove s p h = Some ((snd <$> m !! rt_key p, s'), h') ∧
    sharded_rep h' s' (delete (rt_key p) m)
      (if is_some (m !! rt_key p) then wrap 64 (n - 1) else n) F' ∧ evolves h h' F F'.
Proof.
  destruct s as [shards k mb]. intros (e & es & Hs & Hr & Hes & Hk & Hmb). simpl in *. subst shards.
  destruct (standard_remove_run h e m n F p Hr) as (e' & h1 & F1 & R1 & Ht & [Hr1 Hn] & Hev1).
  rewrite <- Ht in Hes.
  destruct (remove_all_run es (se_tree e') p (snd <$> m !! rt_key p) h1 _ F1 Hes Hr1 (lookup_delete_eq _ _))
    as (es' & h2 & F2 & R2 & Hl & Hall & Hr2 & Hev2).
  unfold sharded_remove. cbn [remove_all sh_shards]. rewrite bind_bind, (bind_run _ _ _ _ _ R1).
  cbn beta iota zeta. change (is_none (None (A:=Metadata))) with true. cbn iota.
  rewrite bind_bind, (bind_run _ _ _ _ _ R2).
  eexists (mkSharded (e' :: es') _ _), h2, F2. split_and!; [done| |by eapply evolves_trans].
  exists e', es'. split_and!; [done|done|done| |done]. simpl in *. lia.
Qed.

Lemma sharded_clear_run h s m n F :
  sharded_rep h s m n F →
  ∃ s' h' F', sharded_clear s h = Some (s', h') ∧
    sharded_rep h' s' (rt_cleared m) 0 F' ∧ evolves h h' F F'.
Proof.
  destruct s as [shards k mb]. intros (e & es & Hs & Hr & Hes & Hk & Hmb). simpl in *. subst shards.
  destruct (standard_clear_run h e m n F Hr) as (e' & h1 & F1 & R1 & Ht & [Hr1 Hn] & Hev1).
  rewrite <- Ht in Hes.
  destruct (clear_all_run es (se_tree e') h1 _ F1 Hes Hr1 (rt_cleared_idemp m))
    as (es' & h2 & F2 & R2 & Hl & Hall & Hr2 & Hev2).
  unfold sharded_clear. cbn [clear_all sh_shards]. rewrite bind_bind, (bind_run _ _ _ _ _ R1).
  rewrite bind_bind, (bind_run _ _ _ _ _ R2).
  eexists (mkSharded (e' :: es') _ _), h2, F2. split_and!; [done| |by eapply evolves_trans].
  exists e', es'. split_and!; [done|done|done| |done]. simpl in *. lia.
Qed.

Lemma sharded_lookup_run h s m n F ip :
  sharded_rep h s m n F →
  ∃ r s', sharded_lookup s ip h = Some ((r, s'), h) ∧
    sharded_rep h s' m n F ∧ rt_answers m ip r.
Proof.
  destruct s as [shards k mb]. intros (e & es & Hs & Hr & Hes & Hk & Hmb). simpl in *. subst shards mb.
  unfold sharded_lookup. cbn [sh_num_shards sh_mask_bits sh_shards].
  destruct (get_shard_range k ip) as (i & -> & Hi); [simpl in Hk; lia|].
  assert (∃ e', (e :: es) !! i = Some e' ∧ se_tree e' = se_tree e) as (e' & Hi' & Ht).
  { destruct (lookup_lt_is_Some_2 (e :: es) i) as [e' He']; [lia|]. exists e'. split; [done|].
    destruct i as [|i]; [by injection He' as ->|].
    rewrite Forall_lookup in Hes. eapply Hes. exact He'. }
  rewrite Hi'.
  destruct (standard_lookup_run h e' m (se_size e') F ip) as (r & e'' & R & Ht' & [Hr'' Hn''] & Ha).
  { split; [rewrite Ht; apply Hr|done]. }
  rewrite (bind_run _ _ _ _ _ R). eexists r, _. split_and!; [done| |done].
  destruct i as [|i]; simpl in *.
  - injection Hi' as <-. exists e'', es. split_and!; [done| | |by simpl|done].
    + split; [done|]. destruct Hr as [_ Hn]. congruence.
    + eapply Forall_impl; [exact Hes|]. simpl. congruence.
  - exists e, (<[i := e'']> es). split_and!; [done|done| | |done].
    + apply Forall_insert; [done|congruence].
    + simpl. by rewrite length_insert.
Qed.

#[export] Program Instance ShardedEngine_laws : RadixEngineLaws (ShardedEngine T) := {|
  re_key := rt_key;
  re_answers := rt_answers;
  re_cleared := rt_cleared;
  re_rep := sharded_rep;
  re_insert_spec := sharded_insert_run;
  re_lookup_spec := sharded_lookup_run;
  re_remove_spec := sharded_remove_run;
  re_clear_spec := sharded_clear_run;
|}.
Next Obligation. intros h s m n F (e & es & _ & [Hr _] & _). by eapply rt_rep_wf. Qed.
Next Obligation.
  intros h s m n F (e & es & Hs & [_ Hn] & _). cbn. unfold sharded_size. by rewrite Hs.
Qed.
Next Obligation.
  intros h s m n F p (e & es & Hs & [Hr _] & _). cbn. unfold sharded_contains. rewrite Hs.
  by eapply rt_contains_spec.
Qed.
Next Obligation.
  intros h h' s m n F G G' (e & es & Hs & [Hr Hn] & Hes) Hev Hd.
  destruct (rt_frame _ _ _ _ _ _ _ Hr Hev Hd). split; [|done]. exists e, es. by repeat split; try apply Hes.
Qed.

Lemma sharded_rep_new k h t F :
  (0 < k)%nat → rt_rep h t ∅ F → sharded_rep h (sharded_new k t) (∅ : table) 0 F.
Proof.
  intros Hk Hr. destruct k as [|k]; [lia|].
  exists (standard_new t), (replicate k (standard_new t)).
  split_and!; [done|by split| |simpl; by rewrite length_replicate|done].
  by apply Forall_replicate.
Qed.
End refinement.
