(* ===== verification/EngineThreads.v ===== *)
(** * One engine, many threads (engine/src/engine.rs)

    [StandardEngine] takes [&self] everywhere: its calls run side by side on
    the tree, the atomic size and the statistics behind their lock.  A call is
    a sequence of phases, each an access to one of the three; a schedule
    interleaves the phases of any number of calls.  (A thread that makes
    several calls is several entries that the schedule runs in turn.) *)

From S2P Require Import Prelude Addr Lpm DashMap Node Heap RouteTree Trie Concurrent Readers SafeThreads Patricia PatriciaThreads PatriciaSafe Engine.

Local Open Scope Z_scope.

Section threads.
Context `{IpNetworkCrate} `{DashMapCrate}.

Record engine_mem := mkMem { em_heap : Heap; em_size : Z; em_stats : EngineStats }.

Inductive engine_call :=
  | CallInsert (prefix : IpNetwork) (metadata : Metadata)
  | CallLookup (ip : IpAddr)
  | CallRemove (prefix : IpNetwork)
  | CallContains (prefix : IpNetwork)
  | CallClear
  | CallStats.

(** What a call has returned; for an insert, what the tree has told it. *)
Inductive engine_return :=
  | Inserted (r : Result bool string)
  | Looked (r : option Metadata)
  | Removed (r : option Metadata)
  | Contained (r : bool)
  | Cleared
  | Stats (s : EngineStats).

(** Where a call is: in the tree, before an access to the size, before the
    section under the lock, or back. *)
Inductive phase :=
  | PhInsert (p : prog (Result bool string))
  | PhAdd
  | PhInserted (is_new : bool)
  | PhLookup (p : prog (option Metadata))
  | PhLooked (r : option Metadata)
  | PhRemove (p : prog (option Metadata))
  | PhSub (removed : Metadata)
  | PhRemoved (removed : Metadata)
  | PhContains (p : prog bool)
  | PhClear (p : prog unit)
  | PhStore
  | PhCleared
  | PhRead
  | PhLoad (s : EngineStats)
  | PhDone (a : engine_return).

(** One access of the tree; the call goes on when the tree has answered. *)
Definition tree_step {A} (p : prog A) (stay : prog A → phase) (go : A → phase) (g : engine_mem)
    : option (phase * engine_mem) :=
  '(p', h) ← run1 p (em_heap g);
  Some (match p' with PRet a => go a | PStep _ => stay p' end, mkMem h (em_size g) (em_stats g)).

Definition insert_answered (r : Result bool string) : phase :=
  match r with
  | Err e => PhDone (Inserted (Err e))
  | Ok is_new => if (is_new : bool) then PhAdd else PhInserted false
  end.

Definition remove_answered (removed : option Metadata) : phase :=
  match removed with Some md => PhSub md | None => PhDone (Removed None) end.

Definition with_size (s : EngineStats) (n : Z) : EngineStats :=
  mkStats (stat_inserts s) (stat_lookups s) (stat_hits s) (stat_misses s) (stat_removals s) n.

Definition phase_step (ph : phase) (g : engine_mem) : option (phase * engine_mem) :=
  let s := em_stats g in
  match ph with
  | PhInsert p => tree_step p PhInsert insert_answered g
  | PhAdd => Some (PhInserted true, mkMem (em_heap g) (wrap 64 (em_size g + 1)) s)
  | PhInserted new => Some (PhDone (Inserted (Ok new)), mkMem (em_heap g) (em_size g)
      (mkStats (bump (stat_inserts s)) (stat_lookups s) (stat_hits s) (stat_misses s) (stat_removals s) (em_size g)))
  | PhLookup p => tree_step p PhLookup PhLooked g
  | PhLooked r => Some (PhDone (Looked r), mkMem (em_heap g) (em_size g)
      (mkStats (stat_inserts s) (bump (stat_lookups s))
         (if is_some r then bump (stat_hits s) else stat_hits s)
         (if is_some r then stat_misses s else bump (stat_misses s)) (stat_removals s) (stat_size s)))
  | PhRemove p => tree_step p PhRemove remove_answered g
  | PhSub md => Some (PhRemoved md, mkMem (em_heap g) (wrap 64 (em_size g - 1)) s)
  | PhRemoved md => Some (PhDone (Removed (Some md)), mkMem (em_heap g) (em_size g)
      (mkStats (stat_inserts s) (stat_lookups s) (stat_hits s) (stat_misses s) (bump (stat_removals s)) (em_size g)))
  | PhContains p => tree_step p PhContains (λ b, PhDone (Contained b)) g
  | PhClear p => tree_step p PhClear (λ _, PhStore) g
  | PhStore => Some (PhCleared, mkMem (em_heap g) 0 s)
  | PhCleared => Some (PhDone Cleared, mkMem (em_heap g) (em_size g) (with_size s 0))
  | PhRead => Some (PhLoad s, g)
  | PhLoad s => Some (PhDone (Stats (with_size s (em_size g))), g)
  | PhDone _ => Some (ph, g)
  end.

Definition calls_step (s : list phase * engine_mem) (i : nat) : option (list phase * engine_mem) :=
  match s.1 !! i with
  | None => Some s
  | Some ph => '(ph', g) ← phase_step ph s.2; Some (<[i := ph']> s.1, g)
  end.

Fixpoint run_calls (s : list phase * engine_mem) (sched : list nat) : option (list phase * engine_mem) :=
  match sched with
  | [] => Some s
  | i :: sched => s' ← calls_step s i; run_calls s' sched
  end.
End threads.

(** ** Alone, the phases are the engine's methods *)

Section alone.
Context `{IpNetworkCrate} `{DashMapCrate} {T : Type} `{!RouteTree T} `{!RouteTreeLaws T} `{!ThreadedTree T}.
Implicit Types (g : engine_mem) (t : T).

Definition call_start (t : T) (c : engine_call) : phase :=
  match c with
  | CallInsert p md => PhInsert (tt_insert t p md)
  | CallLookup ip => PhLookup (tt_lookup t ip)
  | CallRemove p => PhRemove (tt_remove t p)
  | CallContains p => PhContains (tt_contains t p)
  | CallClear => PhClear (tt_clear t)
  | CallStats => PhRead
  end.

Definition mem_of (e : StandardEngine T) (h : Heap) : engine_mem := mkMem h (se_size e) (se_stats e).

Definition turns_of (n : nat) : list nat := replicate n 0%nat.

Lemma run_calls_app s sched1 sched2 :
  run_calls s (sched1 ++ sched2) = s' ← run_calls s sched1; run_calls s' sched2.
Proof.
  revert s. induction sched1 as [|i sched1 IH]; intros s; [done|]. simpl.
  destruct (calls_step s i); simpl; [apply IH|done].
Qed.

(** The tree's part of a call. *)
Lemma tree_alone {A} (stay : prog A → phase) (go : A → phase) (i : nat) (p : prog A) phs h n st a h' :
  (∀ p g, phase_step (stay p) g = tree_step p stay go g) → ¬ returned p →
  phs !! i = Some (stay p) → alone p h = Some (a, h') →
  ∃ k, run_calls (phs, mkMem h n st) (replicate k i) = Some (<[i := go a]> phs, mkMem h' n st).
Proof.
  intros Hstay. revert phs h. induction p as [a0|m IH] using prog_induction; [by intros ??[]|]. intros phs h _ Hi Ha.
  cbn in Ha. destruct (m h) as [[p' h1]|] eqn:Hm; [|done].
  assert (calls_step (phs, mkMem h n st) i =
    Some (<[i := match p' with PRet a => go a | PStep _ => stay p' end]> phs, mkMem h1 n st)) as Hstep.
  { unfold calls_step. simpl. rewrite Hi, Hstay. unfold tree_step. simpl. by rewrite Hm. }
  destruct p' as [a1|m1].
  - cbn in Ha. injection Ha as -> ->. exists 1%nat. simpl. by rewrite Hstep.
  - destruct (IH _ _ _ Hm (<[i := stay (PStep m1)]> phs) h1) as [k Hk]; [by intros []| |done|].
    { by rewrite list_lookup_insert_eq by (by eapply lookup_lt_Some). }
    exists (S k). simpl. rewrite Hstep. simpl. by rewrite Hk, list_insert_insert_eq.
Qed.

Lemma bind_Some_M {A B} (m : M A) (f : A → M B) h b h' :
  (m ≫= f) h = Some (b, h') → ∃ a h1, m h = Some (a, h1) ∧ f a h1 = Some (b, h').
Proof. unfold mbind, M_bind. destruct (m h) as [[a h1]|]; [|done]. eauto. Qed.

Abbreviation single ph g := ([ph], g).

(** A call that nobody interrupts leaves the engine that the method returns. *)
Lemma insert_alone (e e' : StandardEngine T) p md h r h' :
  standard_insert e p md h = Some ((r, e'), h') →
  ∃ k a, run_calls (single (call_start (se_tree e) (CallInsert p md)) (mem_of e h)) (turns_of k) =
      Some (single (PhDone (Inserted a)) (mem_of e' h')) ∧
    r = match a with Ok _ => Ok tt | Err x => Err x end.
Proof.
  unfold standard_insert. intros (a & h1 & Ha & Hk)%bind_Some_M. rewrite <-tt_insert_alone in Ha.
  destruct (tree_alone PhInsert insert_answered 0 (tt_insert (se_tree e) p md) [call_start (se_tree e) (CallInsert p md)] h
    (se_size e) (se_stats e) a h1) as [k Hrun]; try done; [apply tt_insert_busy|].
  destruct a as [[]|x]; cbn in Hk; injection Hk as <- <- <-.
  - exists (k + 2)%nat, (Ok true). unfold turns_of, mem_of. by rewrite replicate_add, run_calls_app, Hrun.
  - exists (k + 1)%nat, (Ok false). unfold turns_of, mem_of. by rewrite replicate_add, run_calls_app, Hrun.
  - exists k, (Err x). unfold turns_of, mem_of. by rewrite Hrun.
Qed.

Lemma lookup_alone (e e' : StandardEngine T) ip h r h' :
  standard_lookup e ip h = Some ((r, e'), h') →
  ∃ k, run_calls (single (call_start (se_tree e) (CallLookup ip)) (mem_of e h)) (turns_of k) =
    Some (single (PhDone (Looked r)) (mem_of e' h')).
Proof.
  unfold standard_lookup. intros (a & h1 & Ha & Hk)%bind_Some_M. rewrite <-tt_lookup_alone in Ha.
  destruct (tree_alone PhLookup PhLooked 0 (tt_lookup (se_tree e) ip) [call_start (se_tree e) (CallLookup ip)] h
    (se_size e) (se_stats e) a h1) as [k Hrun]; try done; [apply tt_lookup_busy|].
  cbn in Hk. injection Hk as <- <- <-. exists (k + 1)%nat. unfold turns_of, mem_of. by rewrite replicate_add, run_calls_app, Hrun.
Qed.

Lemma remove_alone (e e' : StandardEngine T) p h r h' :
  standard_remove e p h = Some ((r, e'), h') →
  ∃ k, run_calls (single (call_start (se_tree e) (CallRemove p)) (mem_of e h)) (turns_of k) =
    Some (single (PhDone (Removed r)) (mem_of e' h')).
Proof.
  unfold standard_remove. intros (a & h1 & Ha & Hk)%bind_Some_M. rewrite <-tt_remove_alone in Ha.
  destruct (tree_alone PhRemove remove_answered 0 (tt_remove (se_tree e) p) [call_start (se_tree e) (CallRemove p)] h
    (se_size e) (se_stats e) a h1) as [k Hrun]; try done; [apply tt_remove_busy|].
  destruct a as [md|]; cbn in Hk; injection Hk as <- <- <-.
  - exists (k + 2)%nat. unfold turns_of, mem_of. by rewrite replicate_add, run_calls_app, Hrun.
  - exists k. unfold turns_of, mem_of. by rewrite Hrun.
Qed.

Lemma clear_alone (e e' : StandardEngine T) h h' :
  standard_clear e h = Some (e', h') →
  ∃ k, run_calls (single (call_start (se_tree e) CallClear) (mem_of e h)) (turns_of k) =
    Some (single (PhDone Cleared) (mem_of e' h')).
Proof.
  unfold standard_clear. intros ([] & h1 & Ha & Hk)%bind_Some_M. rewrite <-tt_clear_alone in Ha.
  destruct (tree_alone PhClear (λ _, PhStore) 0 (tt_clear (se_tree e)) [call_start (se_tree e) CallClear] h
    (se_size e) (se_stats e) tt h1) as [k Hrun]; try done; [apply tt_clear_busy|].
  cbn in Hk. injection Hk as <- <-. exists (k + 2)%nat. unfold turns_of, mem_of. by rewrite replicate_add, run_calls_app, Hrun.
Qed.
End alone.

(** ** Safety *)

Section safety.
Context `{IpNetworkCrate} `{DashMapCrate} {T : Type} `{!RouteTree T} `{!RouteTreeLaws T} `{!ThreadedTree T}.
Variables (t : T) (ok : IpNetwork → Metadata → Prop).
Implicit Types (g : engine_mem) (D : tt_world) (ph : phase) (c : engine_call).

(** The most steps of a call. *)
Definition call_steps c : nat :=
  match c with
  | CallInsert p _ => tt_insert_steps p + 2
  | CallLookup _ => tt_lookup_steps + 1
  | CallRemove p => tt_find_steps p + 2
  | CallContains p => tt_find_steps p
  | CallClear => tt_clear_steps + 2
  | CallStats => 2
  end.

Definition in_tree {A} (n : nat) D (Q : A → Prop) (p : prog A) : Prop :=
  ¬ returned p ∧ safe tt_le (tt_inv t ok) n D (λ _, Q) p.

(** What a lookup may answer, for the address of the call. *)
Definition sound_for c (r : option Metadata) : Prop := ∃ ip, c = CallLookup ip ∧ tt_sound ok ip r.

(** Inserted routes are [ok]. *)
Definition call_ok c : Prop := match c with CallInsert p md => ok p md | _ => True end.

(** The call [c] with at most [n] steps to go. *)
Definition phase_ok c (n : nat) D ph : Prop :=
  match ph with
  | PhInsert p => ∃ k, in_tree k D (λ _, True) p ∧ (k + 2 ≤ n)%nat
  | PhLookup p => ∃ k, in_tree k D (sound_for c) p ∧ (k + 1 ≤ n)%nat
  | PhRemove p => ∃ k, in_tree k D (λ _, True) p ∧ (k + 2 ≤ n)%nat
  | PhContains p => ∃ k, in_tree k D (λ _, True) p ∧ (k ≤ n)%nat
  | PhClear p => ∃ k, in_tree k D (λ _, True) p ∧ (k + 2 ≤ n)%nat
  | PhAdd | PhSub _ | PhStore | PhRead => (2 ≤ n)%nat
  | PhLooked r => (1 ≤ n)%nat ∧ sound_for c r
  | PhInserted _ | PhRemoved _ | PhCleared | PhLoad _ => (1 ≤ n)%nat
  | PhDone (Looked r) => sound_for c r
  | PhDone _ => True
  end.

Lemma in_tree_grow {A} n D D' (Q : A → Prop) (p : prog A) : tt_le D D' → in_tree n D Q p → in_tree n D' Q p.
Proof. intros Hs [Hr Hp]. split; [done|]. apply (safe_grow tt_le (tt_inv t ok) n D D' (λ _, Q) p); [by intros ???|done|done]. Qed.

Lemma phase_ok_grow c n D D' ph : tt_le D D' → phase_ok c n D ph → phase_ok c n D' ph.
Proof.
  intros Hs. destruct ph as [p| |b|p|r|p|md|md|p|p| | | |s|a]; simpl; try done;
    intros (k & Hp & Hk); exists k; eauto using in_tree_grow.
Qed.

Lemma safe_post {A} n D (Q R : A → Prop) (p : prog A) :
  (∀ a, Q a → R a) → safe tt_le (tt_inv t ok) n D (λ _, Q) p → safe tt_le (tt_inv t ok) n D (λ _, R) p.
Proof.
  intros HQR. revert D p. induction n as [|n IH]; intros D [a|m]; simpl; auto. intros Hp D1 h Hs Hok.
  destruct (Hp D1 h Hs Hok) as (p' & h' & D2 & Hm & Hs2 & Hok2 & Hp'). exists p', h', D2. auto.
Qed.

Lemma call_start_ok c D h : call_ok c → tt_inv t ok D h → phase_ok c (call_steps c) D (call_start t c).
Proof.
  intros Hc Hok. destruct c as [p md|ip|p|p| |]; cbn [call_start call_steps phase_ok].
  - exists (tt_insert_steps p). split; [|lia]. split; [apply tt_insert_busy|by eapply tt_insert_safe].
  - exists tt_lookup_steps. split; [|lia]. split; [apply tt_lookup_busy|].
    eapply safe_post; [|by eapply tt_lookup_safe]. intros r Hr. by exists ip.
  - exists (tt_find_steps p). split; [|lia]. split; [apply tt_remove_busy|by eapply tt_remove_safe].
  - exists (tt_find_steps p). split; [|lia]. split; [apply tt_contains_busy|by eapply tt_contains_safe].
  - exists tt_clear_steps. split; [|lia]. split; [apply tt_clear_busy|by eapply tt_clear_safe].
  - lia.
Qed.

Lemma tree_step_ok {A} k D (Q : A → Prop) (p : prog A) stay go g :
  in_tree k D Q p → tt_inv t ok D (em_heap g) →
  ∃ ph h' D', tree_step p stay go g = Some (ph, mkMem h' (em_size g) (em_stats g)) ∧ tt_le D D' ∧ tt_inv t ok D' h' ∧
    ((∃ a, ph = go a ∧ (0 < k)%nat ∧ Q a) ∨ ∃ p' k', ph = stay p' ∧ k = S k' ∧ in_tree k' D' Q p').
Proof.
  intros [Hr Hp] Hok. destruct p as [a|m]; [by destruct Hr|]. destruct k as [|k]; [done|].
  destruct (Hp D (em_heap g)) as (p' & h' & D' & Hm & Hs & Hok' & Hp'); [done|done|].
  unfold tree_step. simpl. rewrite Hm. simpl. eexists _, h', D'. split_and!; [done..|].
  destruct p' as [a|m'].
  - left. exists a. split_and!; [done|lia|]. by destruct k.
  - right. exists (PStep m'), k. split_and!; [done|done|]. split; [by intros []|done].
Qed.

Lemma phase_step_ok c n D ph g :
  tt_inv t ok D (em_heap g) → phase_ok c n D ph →
  ∃ ph' g' D', phase_step ph g = Some (ph', g') ∧ tt_le D D' ∧ tt_inv t ok D' (em_heap g') ∧ phase_ok c (n - 1) D' ph'.
Proof.
  intros Hok. destruct ph as [p| |b|p|r|p|md|md|p|p| | | |s|a]; cbn [phase_ok phase_step]; intros Hp.
  2,3,5,7,8,11,12,13,14,15: eexists _, _, D; split_and!; [done|done|done|simpl; first [done|apply Hp|lia]].
  all: destruct Hp as (k & Hin & Hk); 
    match goal with |- context [tree_step _ ?stay ?go ?g] =>
      destruct (tree_step_ok _ _ _ _ stay go g Hin Hok) as (ph' & h' & D' & -> & Hs & Hok' & Hph) end;
    eexists _, _, D'; split_and!; [done|done|done|]; destruct Hph as [(a & -> & Hk0 & HQ)|(p' & k' & -> & -> & Hin')];
    [|exists k'; split; [done|lia]].
  - destruct a as [[]|x]; simpl; first [done|lia].
  - split; [lia|done].
  - destruct a; simpl; first [done|lia].
  - done.
  - simpl. lia.
Qed.
End safety.

(** ** Counters *)

Section counters.
Context `{IpNetworkCrate} `{DashMapCrate}.
Implicit Types (g : engine_mem) (ph : phase) (phs : list phase).

Definition tally (f : phase → Z) phs : Z := foldr (λ ph n, f ph + n) 0 phs.

Lemma tally_insert f phs i ph ph' :
  phs !! i = Some ph → tally f (<[i := ph']> phs) = tally f phs + (f ph' - f ph).
Proof.
  revert i. induction phs as [|x phs IH]; intros [|i] Hi; simpl in *; [done|done| |].
  - injection Hi as ->. lia.
  - rewrite IH by done. lia.
Qed.

(** What a call has added to a counter so far. *)
Definition n_inserts ph : Z := match ph with PhDone (Inserted (Ok _)) => 1 | _ => 0 end.
Definition n_lookups ph : Z := match ph with PhDone (Looked _) => 1 | _ => 0 end.
Definition n_hits ph : Z := match ph with PhDone (Looked (Some _)) => 1 | _ => 0 end.
Definition n_misses ph : Z := match ph with PhDone (Looked None) => 1 | _ => 0 end.
Definition n_removals ph : Z := match ph with PhDone (Removed (Some _)) => 1 | _ => 0 end.

(** What a call has added to the size: an insert that the tree called new, a
    removal that found a route. *)
Definition n_size ph : Z :=
  match ph with
  | PhInserted true | PhDone (Inserted (Ok true)) => 1
  | PhRemoved _ | PhDone (Removed (Some _)) => -1
  | _ => 0
  end.

Definition clearing ph : bool :=
  match ph with PhClear _ | PhStore | PhCleared | PhDone Cleared => true | _ => false end.

Definition moved (f : phase → Z) ph ph' (x x' : Z) : Prop := x' = wrap 64 (x + (f ph' - f ph)).

Record counted ph ph' g g' : Prop := {
  cnt_inserts : moved n_inserts ph ph' (stat_inserts (em_stats g)) (stat_inserts (em_stats g'));
  cnt_lookups : moved n_lookups ph ph' (stat_lookups (em_stats g)) (stat_lookups (em_stats g'));
  cnt_hits : moved n_hits ph ph' (stat_hits (em_stats g)) (stat_hits (em_stats g'));
  cnt_misses : moved n_misses ph ph' (stat_misses (em_stats g)) (stat_misses (em_stats g'));
  cnt_removals : moved n_removals ph ph' (stat_removals (em_stats g)) (stat_removals (em_stats g'));
  cnt_clearing : clearing ph' = clearing ph;
  cnt_size : clearing ph = false → moved n_size ph ph' (em_size g) (em_size g') }.

Record counters_ok g : Prop := {
  cok_inserts : in_width 64 (stat_inserts (em_stats g));
  cok_lookups : in_width 64 (stat_lookups (em_stats g));
  cok_hits : in_width 64 (stat_hits (em_stats g));
  cok_misses : in_width 64 (stat_misses (em_stats g));
  cok_removals : in_width 64 (stat_removals (em_stats g));
  cok_size : in_width 64 (em_size g) }.

Lemma moved_none f ph ph' x : in_width 64 x → f ph' = f ph → moved f ph ph' x x.
Proof. intros Hx Hf. unfold moved. rewrite Hf, Z.sub_diag, Z.add_0_r. by rewrite wrap_small. Qed.

Lemma moved_by f ph ph' x d : f ph' - f ph = d → moved f ph ph' x (wrap 64 (x + d)).
Proof. intros <-. done. Qed.

Lemma counters_counted ph ph' g g' : counters_ok g → counted ph ph' g g' → in_width 64 (em_size g') → counters_ok g'.
Proof.
  intros _ [Hi Hl Hh Hm Hr _ _] Hs. unfold moved in *. split; [rewrite Hi|rewrite Hl|rewrite Hh|rewrite Hm|rewrite Hr|done];
    apply wrap_range; lia.
Qed.

(** A tree access moves no counter. *)
Lemma tree_step_counted {A} (p : prog A) stay go g ph' g' :
  tree_step p stay go g = Some (ph', g') → em_size g' = em_size g ∧ em_stats g' = em_stats g ∧
  ((∃ a, ph' = go a) ∨ ∃ p', ph' = stay p').
Proof.
  unfold tree_step. intros ([[a|m] h] & _ & [= <- <-])%bind_Some; eauto.
Qed.

Ltac moves := first
  [ done
  | by apply moved_none
  | by intros; apply moved_none
  | by apply moved_by
  | by intros; apply moved_by
  | apply wrap_range; lia ].

Lemma phase_step_counted ph g ph' g' :
  counters_ok g → phase_step ph g = Some (ph', g') → counted ph ph' g g' ∧ in_width 64 (em_size g').
Proof.
  intros [Hi Hl Hh Hm Hr Hs]. destruct ph as [p| |b|p|r|p|md|md|p|p| | | |s|a]; cbn [phase_step]; intros Hstep.
  all: match type of Hstep with
    | tree_step _ _ _ _ = _ =>
        apply tree_step_counted in Hstep as (Hz & Hst & Hph); split; [|by rewrite Hz];
        split; rewrite ?Hz, ?Hst; destruct Hph as [([] & ->)|(p' & ->)]
    | _ => injection Hstep as <- <-; split; [split|]; simpl
    end.
  all: repeat match goal with |- context [insert_answered (Ok ?b)] => is_var b; destruct b end.
  all: repeat match goal with |- context [PhInserted ?b] => is_var b; destruct b | |- context [PhLooked ?r] => is_var r; destruct r end.
  all: moves.
Qed.
End counters.

(** ** Any calls, any schedule *)

Section together.
Context `{IpNetworkCrate} `{DashMapCrate} {T : Type} `{!RouteTree T} `{!RouteTreeLaws T} `{!ThreadedTree T}.
Implicit Types (t : T) (g : engine_mem) (D : tt_world) (ph : phase) (phs : list phase) (c : engine_call) (cs : list engine_call).

(** The counters of the engine are those before, and what the calls have
    added; the size too, if no call clears the table. *)
Record totals g0 phs g : Prop := {
  tot_inserts : stat_inserts (em_stats g) = wrap 64 (stat_inserts (em_stats g0) + tally n_inserts phs);
  tot_lookups : stat_lookups (em_stats g) = wrap 64 (stat_lookups (em_stats g0) + tally n_lookups phs);
  tot_hits : stat_hits (em_stats g) = wrap 64 (stat_hits (em_stats g0) + tally n_hits phs);
  tot_misses : stat_misses (em_stats g) = wrap 64 (stat_misses (em_stats g0) + tally n_misses phs);
  tot_removals : stat_removals (em_stats g) = wrap 64 (stat_removals (em_stats g0) + tally n_removals phs);
  tot_size : Forall (λ ph, clearing ph = false) phs → em_size g = wrap 64 (em_size g0 + tally n_size phs) }.

Lemma moved_total f phs i ph ph' x0 x x' :
  phs !! i = Some ph → x = wrap 64 (x0 + tally f phs) → moved f ph ph' x x' →
  x' = wrap 64 (x0 + tally f (<[i := ph']> phs)).
Proof.
  intros Hi -> ->. rewrite (tally_insert f phs i ph ph' Hi). unfold wrap. rewrite Zplus_mod_idemp_l. f_equal. lia.
Qed.

Lemma totals_step g0 phs g i ph ph' g' :
  phs !! i = Some ph → totals g0 phs g → counted ph ph' g g' → totals g0 (<[i := ph']> phs) g'.
Proof.
  intros Hi [T1 T2 T3 T4 T5 T6] [C1 C2 C3 C4 C5 C6 C7]. split; [by eapply moved_total..|].
  intros Hno. assert (clearing ph' = false) as Hc'.
  { apply (Forall_lookup_1 _ _ i ph' Hno). by apply list_lookup_insert_eq, (lookup_lt_Some _ _ _ Hi). }
  rewrite C6 in Hc'. eapply moved_total; [done| |by apply C7]. apply T6. apply Forall_lookup. intros j pj Hj.
  destruct (decide (j = i)) as [->|Hne]; [congruence|]. apply (Forall_lookup_1 _ _ j pj Hno).
  by rewrite list_lookup_insert_ne.
Qed.

Definition steps_of (i : nat) (sched : list nat) : nat := length (filter (λ j, j = i) sched).

Definition calls_ok t ok (call : nat → engine_call) g0 (budget : nat → nat) phs g : Prop :=
  counters_ok g ∧ totals g0 phs g ∧ ∃ D, tt_inv t ok D (em_heap g) ∧
    ∀ i ph, phs !! i = Some ph → phase_ok t ok (call i) (budget i) D ph.

Lemma calls_run_ok t ok call g0 sched : ∀ budget phs g,
  calls_ok t ok call g0 budget phs g → ∃ phs' g', run_calls (phs, g) sched = Some (phs', g') ∧ length phs' = length phs ∧
    Forall2 (λ ph ph', clearing ph' = clearing ph) phs phs' ∧
    calls_ok t ok call g0 (λ i, budget i - steps_of i sched)%nat phs' g'.
Proof.
  induction sched as [|i sched IH]; intros budget phs g (Hc & Ht & D & Hok & Hphs).
  { exists phs, g. split_and!; [done|done|by apply Forall_Forall2_diag, Forall_forall|].
    split_and!; [done|done|]. exists D. split; [done|]. intros i ph Hi. unfold steps_of. simpl.
    rewrite Nat.sub_0_r. by apply Hphs. }
  cbn [run_calls]. unfold calls_step. simpl. destruct (phs !! i) as [ph|] eqn:Hi.
  - destruct (phase_step_ok t ok _ _ _ _ _ Hok (Hphs i ph Hi)) as (ph' & g' & D' & Hstep & Hs & Hok' & Hp').
    destruct (phase_step_counted _ _ _ _ Hc Hstep) as [Hcnt Hsz]. rewrite Hstep. simpl.
    destruct (IH (λ j, if decide (j = i) then budget j - 1 else budget j)%nat (<[i:=ph']> phs) g') as
      (phs2 & g2 & Hr & Hlen & Hcl & Hc2 & Ht2 & D2 & Hok2 & Hphs2).
    { split_and!; [by eapply counters_counted|by eapply totals_step|]. exists D'. split; [done|]. intros j pj Hj.
      destruct (decide (j = i)) as [->|Hne].
      - rewrite list_lookup_insert_eq in Hj by (by eapply lookup_lt_Some). by simplify_eq.
      - rewrite list_lookup_insert_ne in Hj by done. eapply phase_ok_grow; [exact Hs|by apply Hphs]. }
    rewrite length_insert in Hlen. exists phs2, g2. split_and!; [done|done| |split_and!; [done|done|]].
    + apply Forall2_same_length_lookup. split; [done|]. intros j pj pj2 Hj Hj2.
      destruct (decide (j = i)) as [->|Hne].
      * rewrite Hi in Hj. injection Hj as <-. rewrite <-(cnt_clearing _ _ _ _ Hcnt).
        eapply (Forall2_lookup_lr _ _ _ _ _ _ Hcl); [|exact Hj2]. by apply list_lookup_insert_eq, (lookup_lt_Some _ _ _ Hi).
      * eapply (Forall2_lookup_lr _ _ _ _ _ _ Hcl); [|exact Hj2]. by rewrite list_lookup_insert_ne.
    + exists D2. split; [done|]. intros j pj Hj. specialize (Hphs2 j pj Hj). unfold steps_of in *. rewrite filter_cons.
      destruct (decide (j = i)) as [->|Hne]; [rewrite decide_True by done; simpl|rewrite decide_False by done; done].
      by rewrite <-Nat.sub_add_distr in Hphs2.
  - destruct (IH budget phs g) as (phs2 & g2 & Hr & Hlen & Hcl & Hc2 & Ht2 & D2 & Hok2 & Hphs2);
      [split_and!; [done|done|by exists D]|]. simpl.
    exists phs2, g2. split_and!; [done..|]. split_and!; [done|done|]. exists D2. split; [done|]. intros j pj Hj.
    specialize (Hphs2 j pj Hj). unfold steps_of in *. rewrite filter_cons, decide_False; [done|]. intros <-.
    apply lookup_lt_Some in Hj. apply lookup_ge_None in Hi. lia.
Qed.

Lemma phase_ok_done t ok c D ph : phase_ok t ok c 0 D ph → ∃ a, ph = PhDone a.
Proof.
  destruct ph as [p| |b|p|r|p|md|md|p|p| | | |s|a]; simpl; try lia; [intros (k & _ & ?); lia..| | |eauto].
  - intros (k & [Hr Hp] & ?). assert (k = 0%nat) as -> by lia. destruct p as [a|m]; [by destruct Hr|done].
  - intros (k & _ & ?). lia.
Qed.

Lemma clearing_start t c : c ≠ CallClear → clearing (call_start t c) = false.
Proof. by destruct c. Qed.

Lemma tally_start t cs f : (∀ c, f (call_start t c) = 0) → tally f (call_start t <$> cs) = 0.
Proof.
  intros Hf. induction cs as [|c cs IH]; [done|]. rewrite fmap_cons.
  change (f (call_start t c) + tally f (call_start t <$> cs) = 0). by rewrite Hf, IH.
Qed.

(** A route of the table at the start, or one that a call inserts. *)
Definition offered (m : table) cs p md : Prop := m !! rt_key p = Some (p, md) ∨ CallInsert p md ∈ cs.

(** C6: any number of threads may call any method of one engine: under every
    schedule no step panics, a call returns once it has had its bounded number
    of steps, whatever the others do, and no count is lost: the statistics are
    those at the start plus one insert, lookup, hit, miss or removal for each
    call that has returned with it; the size, unless some call clears the
    table, is the one at the start plus the inserts that the tree called new
    minus the removals that found a route.  A lookup that has returned answers
    what the tree's contract allows with the routes of the start and of the
    calls. *)
Theorem engine_threads_safe h t m F n st cs sched :
  rt_rep h t m F → counters_ok (mkMem h n st) →
  ∃ phs g, run_calls (call_start t <$> cs, mkMem h n st) sched = Some (phs, g) ∧ length phs = length cs ∧
    (∀ i c, cs !! i = Some c → (call_steps c ≤ steps_of i sched)%nat → ∃ a, phs !! i = Some (PhDone a)) ∧
    totals (mkMem h n st) phs g ∧
    (CallClear ∉ cs → em_size g = wrap 64 (n + tally n_size phs)) ∧
    (∀ i ip r, cs !! i = Some (CallLookup ip) → phs !! i = Some (PhDone (Looked r)) → tt_sound (offered m cs) ip r).
Proof.
  intros Hr Hc. destruct (tt_enter h t m F (offered m cs) Hr ltac:(intros p md Hp; by left)) as [D Hok].
  destruct (calls_run_ok t (offered m cs) (λ i, default CallStats (cs !! i)) (mkMem h n st) sched
    (λ i, call_steps (default CallStats (cs !! i))) (call_start t <$> cs) (mkMem h n st))
    as (phs & g & Hrun & Hlen & Hcl & _ & Htot & D' & _ & Hphs).
  { split_and!; [done| |].
    - destruct Hc. split; try intros _; rewrite tally_start by (by intros []); rewrite Z.add_0_r; by rewrite wrap_small.
    - exists D. split; [done|]. intros i ph Hi. rewrite list_lookup_fmap in Hi. destruct (cs !! i) as [c|] eqn:Hci; [|done].
      injection Hi as <-. eapply call_start_ok; [|exact Hok]. destruct c; try done. right. by eapply list_elem_of_lookup_2. }
  rewrite length_fmap in Hlen. exists phs, g. split_and!; [done|done| |done| |].
  - intros i c Hi Hsteps. destruct (lookup_lt_is_Some_2 phs i) as [ph Hph]; [rewrite Hlen; by eapply lookup_lt_Some|].
    specialize (Hphs i ph Hph). rewrite Hi in Hphs. cbn [from_option id] in Hphs.
    replace (call_steps c - steps_of i sched)%nat with 0%nat in Hphs by lia.
    destruct (phase_ok_done _ _ _ _ _ Hphs) as [a ->]. by exists a.
  - intros Hno. apply Htot. apply Forall_lookup. intros i ph Hi.
    destruct (lookup_lt_is_Some_2 cs i) as [c Hci]; [rewrite <-Hlen; by eapply lookup_lt_Some|].
    rewrite (Forall2_lookup_lr _ _ _ i (call_start t c) ph Hcl), clearing_start;
      [done| |by rewrite list_lookup_fmap, Hci|done]. intros ->. apply Hno. by eapply list_elem_of_lookup_2.
  - intros i ip r Hi Hph. specialize (Hphs i _ Hph). rewrite Hi in Hphs. destruct Hphs as (ip' & [= <-] & Hs). done.
Qed.

End together.

Section removals.
Context `{IpNetworkLaws} `{DashMapLaws}.

(** ** Two removals of one route *)

Lemma find_walk (ip : IpAddr) d n cur l h :
  walk (cells h) cur (path ip d n) = Some l → trie_find_loop ip d n cur h = Some (Some l, h).
Proof.
  revert d cur. induction n as [|n IH]; intros d cur; [by intros [= ->]|]. rewrite path_S. cbn [walk trie_find_loop].
  intros (x & Hx & (l' & Hs & Hw)%bind_Some)%bind_Some. rewrite (bind_run _ _ _ _ _ (child_at_run ip d _ _ _ Hx)).
  change (side (dir ip d) x = Some l') in Hs. rewrite Hs. by apply IH.
Qed.

(** The position of a route in the heap. *)
Lemma route_cell h t m F p md :
  trie_rep h t m F → m !! net_bits p = Some (p, md) →
  ∃ l x, walk (cells h) (ut_root t) (net_bits p) = Some l ∧ cells h !! l = Some x ∧ node_metadata x = Some md.
Proof.
  intros (Hwf & bt & Hr & Hok & Ht) Hm. pose proof (rep_walk _ _ _ _ (net_bits p) Hr) as Hw. pose proof (Ht (net_bits p)) as He.
  rewrite Hm in He. destruct (t_get bt (net_bits p)) as [c|] eqn:Hg; [|done]. destruct Hw as (l & x & Hw & Hx & Hp).
  exists l, x. split_and!; [done|done|]. pose proof (table_of_meta _ _ _ _ Hok Ht Hg) as Hmd. rewrite Hm in Hmd.
  simpl in Hmd. rewrite <-Hp in Hmd. by rewrite Hmd.
Qed.

(** Clearing a cell that holds no route any more. *)
Lemma clear_again h t m F p l :
  trie_rep h t m F → m !! net_bits p = None → walk (cells h) (ut_root t) (net_bits p) = Some l →
  ∃ h' F', modify node_clear_metadata l h = Some (tt, h') ∧ trie_rep h' t m F'.
Proof.
  intros (Hwf & bt & Hr & Hok & Ht) Hm Hw.
  destruct (descend_path (modify node_clear_metadata l) tt (blank_of (ut_builder t))
    (λ x, mkCell None (c_prefix x) (c_edge x)) [] h (net_bits p) bt (ut_root t) F l Hr Hw) as (h' & F' & Hrun & Hr' & Hev).
  { intros tc Fc Hrc. pose proof Hrc as (n' & t0 & t1 & ? & ? & _ & -> & _)%rep_some.
    destruct (acts_modify node_clear_metadata (λ x, mkCell None (c_prefix x) (c_edge x)) clear_metadata_fields h _ _ _ _ _ Hwf Hrc) as (h' & ? & ? & ?). by exists h', Fc. }
  rewrite app_nil_r in Hr'. exists h', F'. split; [done|]. split; [apply Hev|]. eexists. split_and!; [exact Hr'| |].
  - apply trie_ok_update; [done| |done|simpl; by intros []]. rewrite length_net_bits. apply net_len_bound.
  - rewrite <-(delete_id m (net_bits p)) by done. apply table_of_delete; [done|done|]. unfold entry. simpl.
    by destruct (c_prefix _).
Qed.

(** The part of a tree call before a bind. *)
Lemma tree_upto {A B} (stay : prog B → phase) (go : B → phase) (i : nat) (p : prog A) (f : A → prog B) phs h n st a h' :
  (∀ p g, phase_step (stay p) g = tree_step p stay go g) → ¬ returned (f a) →
  phs !! i = Some (stay (p ≫= f)) → alone p h = Some (a, h') →
  ∃ k, run_calls (phs, mkMem h n st) (replicate k i) = Some (<[i := stay (f a)]> phs, mkMem h' n st).
Proof.
  intros Hstay Hf. revert phs h. induction p as [a0|m IH] using prog_induction; intros phs h Hi Ha.
  - cbn in Ha. injection Ha as -> ->. exists 0%nat. simpl. by rewrite list_insert_id.
  - cbn in Ha. destruct (m h) as [[p' h1]|] eqn:Hm; [|done].
    assert (calls_step (phs, mkMem h n st) i = Some (<[i := stay (p' ≫= f)]> phs, mkMem h1 n st)) as Hstep.
    { unfold calls_step. simpl. rewrite Hi, Hstay. unfold tree_step. simpl. rewrite Hm. simpl.
      destruct p' as [a1|m1]; [|done]. cbn in Ha. injection Ha as -> ->. simpl. by destruct (f a). }
    destruct (IH _ _ _ Hm (<[i := stay (p' ≫= f)]> phs) h1) as [k Hk]; [|done|].
    { by rewrite list_lookup_insert_eq by (by eapply lookup_lt_Some). }
    exists (S k). simpl. rewrite Hstep. simpl. by rewrite Hk, list_insert_insert_eq.
Qed.

(** C36: two threads that remove the same route at the same time can both be told
    that they removed it, and both take one off the size: the table is empty
    and the size is [usize::MAX]. *)
Theorem double_remove_wraps h t F p md st :
  trie_rep h t {[net_bits p := (p, md)]} F →
  ∃ sched h' F' st', run_calls (call_start t <$> [CallRemove p; CallRemove p], mkMem h 1 st) sched =
      Some (PhDone <$> [Removed (Some md); Removed (Some md)], mkMem h' (2 ^ 64 - 1) st') ∧
    trie_rep h' t ∅ F' ∧ stat_size st' = 2 ^ 64 - 1.
Proof.
  intros Hrep. destruct (route_cell _ _ _ _ _ _ Hrep (lookup_singleton_eq _ _)) as (l & x & Hw & Hx & Hmd).
  pose (rest := λ cur, match cur with
    | None => mret None
    | Some l => removed ← atomic (get node_metadata l);
        if is_some removed then _ ← atomic (modify node_clear_metadata l); mret removed else mret removed
    end : prog (option Metadata)).
  pose (start := call_start t <$> [CallRemove p; CallRemove p]).
  (* the first thread up to its read of the metadata *)
  destruct (tree_upto PhRemove remove_answered 0
    (find_loop_p (net_network p) 0 (Z.to_nat (net_prefix p)) (ut_root t)) rest start h 1 st (Some l) h) as [k1 Hk1]; [done|by intros []|done| |].
  { rewrite alone_find_loop. apply find_walk. by rewrite path_net. }
  pose (late := _ ← atomic (modify node_clear_metadata l); mret (Some md) : prog (option Metadata)).
  assert (calls_step (<[0%nat := PhRemove (rest (Some l))]> start, mkMem h 1 st) 0 =
    Some ([PhRemove late; PhRemove (remove_p t p)], mkMem h 1 st)) as Hread.
  { unfold calls_step. cbn. rewrite (get_run _ _ _ _ Hx), Hmd. done. }
  (* the second thread *)
  destruct (trie_remove_refines h t _ F p Hrep) as (h2 & F2 & Hrem & Hrep2 & Hev).
  rewrite lookup_singleton_eq in Hrem. rewrite delete_singleton_eq in Hrep2. rewrite <-alone_remove in Hrem.
  destruct (tree_alone PhRemove remove_answered 1 (remove_p t p) [PhRemove late; PhRemove (remove_p t p)] h 1 st
    (Some md) h2) as [k2 Hk2]; [done| |done|done|].
  { unfold remove_p. destruct (Z.to_nat (net_prefix p)); by intros []. }
  (* the first thread again *)
  assert (trie_remove t p h = Some (Some md, mkHeap (<[l := node_clear_metadata x]> (cells h)) (next h))) as Hexp.
  { unfold trie_remove.
    rewrite (bind_run _ _ _ (Some l) h) by (apply find_walk; by rewrite path_net).
    rewrite (bind_run _ _ _ _ _ (get_run _ _ _ _ Hx)), Hmd. cbn [is_some]. by rewrite (bind_run _ _ _ _ _ (modify_run _ _ _ _ Hx)). }
  rewrite alone_remove, Hexp in Hrem. injection Hrem as <-.
  assert (walk (cells (mkHeap (<[l := node_clear_metadata x]> (cells h)) (next h))) (ut_root t) (net_bits p) = Some l) as Hw2.
  { eapply walk_mono; [|exact Hw]. eapply links_insert; [exact Hx|]. intros b l'. unfold side.
    destruct (clear_metadata_fields x) as (HL & HR & _). destruct b; by rewrite ?HL, ?HR. }
  destruct (clear_again _ _ _ _ _ _ Hrep2 (lookup_empty _) Hw2) as (h3 & F3 & Hrun3 & Hrep3).
  exists (replicate k1 0 ++ [0] ++ replicate k2 1 ++ [1; 1; 0; 0; 0])%nat, h3, F3. eexists.
  split; [|split; [exact Hrep3|shelve]]. fold start. unfold remove_p in Hk1.
  rewrite run_calls_app, Hk1. cbn [mbind option_bind]. rewrite run_calls_app. cbn [run_calls]. rewrite Hread. cbn [mbind option_bind].
  rewrite run_calls_app, Hk2. cbn [mbind option_bind]. cbn. rewrite Hrun3. cbn. reflexivity.
  Unshelve. reflexivity.
Qed.
End removals.
