(* ===== verification/Engines.v ===== *)
(** * The engines over the two trees

    Instances of the engine theorems at [UncompressedTree] and
    [CompressedTree], starting from the constructors. *)

From S2P Require Import Prelude Addr Lpm DashMap Node Heap RouteTree Trie Patricia Engine.

Local Open Scope Z_scope.

Section engines.
Context `{IpNetworkLaws} `{DashMapLaws}.

(** How the engines over the uncompressed tree answer. *)
Definition lpm_answers (m : table) (ip : IpAddr) (r : option Metadata) : Prop :=
  r = LPM_lookup (entries m) ip.

(** An engine whose routing table is the one of the uncompressed tree. *)
Class LpmEngine (E : Type) `{!RadixEngine E} `{!RadixEngineLaws E} : Prop := {
  lpm_key p : re_key p = net_bits p;
  lpm_answer m ip r : re_answers m ip r → lpm_answers m ip r;
  lpm_cleared m : re_cleared m = keep_default m;
}.

#[export] Instance standard_lpm : LpmEngine (StandardEngine UncompressedTree).
Proof. by split. Qed.
#[export] Instance sharded_lpm : LpmEngine (ShardedEngine UncompressedTree).
Proof. by split. Qed.

Lemma lpm_engine_step `{LpmEngine E} s o r s' :
  engine_step re_key re_answers re_cleared s o r s' → engine_step net_bits lpm_answers keep_default s o r s'.
Proof.
  destruct 1; rewrite ?lpm_key, ?lpm_cleared; constructor. by apply lpm_answer.
Qed.

Lemma lpm_engine_steps `{LpmEngine E} s os rs s' :
  engine_steps re_key re_answers re_cleared s os rs s' → engine_steps net_bits lpm_answers keep_default s os rs s'.
Proof. induction 1; econstructor; eauto using lpm_engine_step. Qed.

(** With functional answers the abstract machine is deterministic. *)
Lemma engine_step_det key answers cleared s o r1 s1 r2 s2 :
  (∀ m ip r r', answers m ip r → answers m ip r' → r = r') →
  engine_step key answers cleared s o r1 s1 → engine_step key answers cleared s o r2 s2 →
  r1 = r2 ∧ s1 = s2.
Proof.
  intros Hans H1' H2'. destruct H1'; inversion H2'; subst; try done.
  split; [|done]. f_equal. by eapply Hans.
Qed.

Lemma engine_steps_det key answers cleared s os rs1 s1 :
  (∀ m ip r r', answers m ip r → answers m ip r' → r = r') →
  engine_steps key answers cleared s os rs1 s1 → ∀ rs2 s2,
  engine_steps key answers cleared s os rs2 s2 → rs1 = rs2 ∧ s1 = s2.
Proof.
  intros Hans. induction 1 as [|s o r s' os rs s'' Hs Hss IH]; intros rs2 s2 H2'.
  - by inversion H2'.
  - inversion H2'; subst.
    match goal with Hs' : engine_step _ _ _ s o _ _ |- _ =>
      destruct (engine_step_det _ _ _ _ _ _ _ _ _ Hans Hs Hs') as [<- <-] end.
    match goal with Hss' : engine_steps _ _ _ _ os _ _ |- _ =>
      by destruct (IH _ _ Hss') as [<- <-] end.
Qed.

(** A session: an engine is created on an empty heap and serves a sequence of
    calls; what is observed is the answers and the final size.  [None] is a
    panic. *)
Definition session {E} `{!RadixEngine E} (mk : M E) (os : list op) : option (list res * Z) :=
  '(e, h) ← mk empty_heap;
  '(rs, e', _) ← engine_ops e os h;
  Some (rs, re_size e').

(** The dispatch adds nothing: what [inj] wraps runs as the engine inside. *)
Class Dispatches {E W} `{!RadixEngine E} `{!RadixEngine W} (inj : E → W) : Prop := {
  d_insert e p md : re_insert (inj e) p md = '(r, e') ← re_insert e p md; mret (r, inj e');
  d_lookup e ip : re_lookup (inj e) ip = '(r, e') ← re_lookup e ip; mret (r, inj e');
  d_remove e p : re_remove (inj e) p = '(r, e') ← re_remove e p; mret (r, inj e');
  d_contains e p : re_contains (inj e) p = re_contains e p;
  d_clear e : re_clear (inj e) = e' ← re_clear e; mret (inj e');
  d_size e : re_size (inj e) = re_size e;
}.

Section dispatched.
Context {E W} `{!RadixEngine E} `{!RadixEngine W} (inj : E → W) `{!Dispatches inj}.

Lemma dispatch_op e o h :
  engine_op (inj e) o h = '(r, e', h') ← engine_op e o h; Some ((r, inj e'), h').
Proof.
  destruct o as [p md|ip|p|p|]; cbn [engine_op];
    rewrite ?d_insert, ?d_lookup, ?d_remove, ?d_contains, ?d_clear; unfold mbind, M_bind, mret, M_ret;
    cbn [mbind option_bind].
  - by destruct (re_insert e p md h) as [[[r e'] h']|].
  - by destruct (re_lookup e ip h) as [[[r e'] h']|].
  - by destruct (re_remove e p h) as [[[r e'] h']|].
  - by destruct (re_contains e p h) as [[r h']|].
  - by destruct (re_clear e h) as [[e' h']|].
Qed.

Lemma dispatch_ops os : ∀ e h,
  engine_ops (inj e) os h = '(rs, e', h') ← engine_ops e os h; Some ((rs, inj e'), h').
Proof.
  induction os as [|o os IH]; intros e h; [done|]. cbn [engine_ops].
  unfold mbind, M_bind at 1 3. rewrite dispatch_op. cbn [mbind option_bind].
  destruct (engine_op e o h) as [[[r e'] h']|]; cbn [mbind option_bind]; [|done]. unfold M_bind. rewrite IH.
  by destruct (engine_ops e' os h') as [[[rs e''] h'']|].
Qed.

(** A session on the front is the session on the engine. *)
Lemma dispatch_session (mk : M E) (mkw : M W) os :
  mkw empty_heap = ('(e, h) ← mk empty_heap; Some (inj e, h)) → session mkw os = session mk os.
Proof.
  intros Hmk. unfold session. rewrite Hmk. destruct (mk empty_heap) as [[e h]|]; [|done].
  cbn [mbind option_bind]. rewrite dispatch_ops.
  destruct (engine_ops e os h) as [[[rs e'] h']|]; [|done]. cbn [mbind option_bind]. by rewrite d_size.
Qed.
End dispatched.

(** The four ways [EngineWrapper::new] puts an engine around a tree. *)
Definition uncompressed_standard (v : NodeVariant) : M (StandardEngine UncompressedTree) :=
  tree ← trie_new v; mret (standard_new tree).
Definition uncompressed_sharded (v : NodeVariant) (k : nat) : M (ShardedEngine UncompressedTree) :=
  tree ← trie_new v; mret (sharded_new k tree).
Definition compressed_standard (v : NodeVariant) : M (StandardEngine CompressedTree) :=
  tree ← patricia_new v; mret (standard_new tree).
Definition compressed_sharded (v : NodeVariant) (k : nat) : M (ShardedEngine CompressedTree) :=
  tree ← patricia_new v; mret (sharded_new k tree).

(** A session on an engine that starts with the empty table follows the
    abstract machine. *)
Lemma session_refines {E} `{!RadixEngine E} `{!RadixEngineLaws E} (mk : M E) (e : E) (h : Heap)
    (F : gset loc) (os : list op) :
  mk empty_heap = Some (e, h) → re_rep h e ∅ 0 F →
  ∃ rs m n, session mk os = Some (rs, n) ∧
    engine_steps re_key re_answers re_cleared (∅, 0) os rs (m, n).
Proof.
  intros Hmk Hr.
  destruct (engine_ops_refines os h e ∅ 0 F Hr) as (rs & e' & h1 & m & F' & R & _ & _ & Hs).
  exists rs, m, (re_size e'). split; [|done]. unfold session. rewrite Hmk. cbn [mbind option_bind].
  by rewrite R.
Qed.

(** Any two such engines that start empty are interchangeable. *)
Lemma lpm_session `{LpmEngine E} (mk : M E) (e : E) (h : Heap) (F : gset loc) os :
  mk empty_heap = Some (e, h) → re_rep h e ∅ 0 F →
  ∃ rs m n, session mk os = Some (rs, n) ∧
    engine_steps net_bits lpm_answers keep_default (∅, 0) os rs (m, n).
Proof.
  intros Hmk Hr. destruct (session_refines mk e h F os Hmk Hr) as (rs & m & n & R & Hs).
  exists rs, m, n. split; [done|]. by apply lpm_engine_steps.
Qed.

Lemma lpm_steps_det s os rs1 s1 rs2 s2 :
  engine_steps net_bits lpm_answers keep_default s os rs1 s1 →
  engine_steps net_bits lpm_answers keep_default s os rs2 s2 → rs1 = rs2 ∧ s1 = s2.
Proof. intros S1 S2. eapply engine_steps_det; [|exact S1|exact S2]. unfold lpm_answers. congruence. Qed.

(** The same for the unsharded engine, with the engine and the heap it ends
    in: the engine stays usable behind a cache. *)
Lemma standard_uncompressed_run v os :
  ∃ t h0 rs e h1 m, trie_new v empty_heap = Some (t, h0) ∧
    engine_ops (standard_new t) os h0 = Some ((rs, e), h1) ∧
    engine_steps net_bits lpm_answers keep_default (∅, 0) os rs (m, standard_size e).
Proof.
  destruct (trie_new_refines empty_heap v heap_wf_empty) as (t & h & F & Hnew & _ & Hr & _).
  assert (re_rep h (standard_new t) ∅ 0 F) as Hr' by (by split).
  destruct (engine_ops_refines os h _ ∅ 0 F Hr') as (rs & e' & h1 & m & F' & R & _ & _ & Hs).
  by exists t, h, rs, e', h1, m.
Qed.

Lemma standard_uncompressed_session v os :
  ∃ rs m n, session (uncompressed_standard v) os = Some (rs, n) ∧
    engine_steps net_bits lpm_answers keep_default (∅, 0) os rs (m, n).
Proof.
  destruct (trie_new_refines empty_heap v heap_wf_empty) as (t & h & F & Hnew & _ & Hr & _).
  destruct (session_refines (uncompressed_standard v) (standard_new t) h F os) as (rs & m & n & R & Hs).
  - unfold uncompressed_standard. by rewrite (bind_run _ _ _ _ _ Hnew).
  - by split.
  - by exists rs, m, n.
Qed.

Lemma sharded_uncompressed_session v k os :
  (0 < k)%nat →
  ∃ rs m n, session (uncompressed_sharded v k) os = Some (rs, n) ∧
    engine_steps net_bits lpm_answers keep_default (∅, 0) os rs (m, n).
Proof.
  intros Hk.
  destruct (trie_new_refines empty_heap v heap_wf_empty) as (t & h & F & Hnew & _ & Hr & _).
  change (rt_rep h t ∅ F) in Hr.
  destruct (session_refines (uncompressed_sharded v k) (sharded_new k t) h F os) as (rs & m & n & R & Hs).
  - unfold uncompressed_sharded. by rewrite (bind_run _ _ _ _ _ Hnew).
  - by apply sharded_rep_new.
  - by exists rs, m, n.
Qed.

(** Starting from [StandardEngine::new(UncompressedTree::new(variant))],
    every sequence of engine calls runs without a panic and answers as a
    routing table with a 64-bit counter: the counter goes up on an insert of
    a new key, down on a removal of a stored one, to 0 on [clear], and
    [size] reports it. *)
Theorem standard_engine_refines v os :
  ∃ rs m n, session (uncompressed_standard v) os = Some (rs, n) ∧
    engine_steps net_bits lpm_answers keep_default (∅, 0) os rs (m, n).
Proof. apply standard_uncompressed_session. Qed.

(** C3: over uncompressed trees sharding is transparent: an engine with any
    positive number of shards, of any node representation, answers every
    sequence of calls exactly as the unsharded engine, and reports the same
    size, although the shards are chosen by a hash of the address; and neither
    panics. *)
Theorem sharded_equals_standard v k os :
  (0 < k)%nat →
  is_Some (session (uncompressed_standard v) os) ∧
  session (uncompressed_sharded v k) os = session (uncompressed_standard v) os.
Proof.
  intros Hk. destruct (standard_uncompressed_session v os) as (rs & m & n & R1 & S1).
  destruct (sharded_uncompressed_session v k os Hk) as (rs' & m' & n' & R2 & S2).
  destruct (lpm_steps_det _ _ _ _ _ _ S1 S2) as [<- [= _ <-]].
  rewrite R1, R2. eauto.
Qed.

(** Over the compressed tree, with any number of shards, [size] is the
    number of stored keys (modulo 2^64) after every sequence of calls. *)
Theorem compressed_engine_size v k os :
  (0 < k)%nat →
  ∃ rs m n, session (compressed_sharded v k) os = Some (rs, n) ∧
    engine_steps pkey sound_answer (λ _, ∅) (∅, 0) os rs (m, n) ∧
    n = wrap 64 (Z.of_nat (size m)).
Proof.
  intros Hk.
  destruct (patricia_new_refines empty_heap v heap_wf_empty) as (t & h & F & Hnew & Hr & _).
  change (rt_rep h t ∅ F) in Hr.
  destruct (session_refines (compressed_sharded v k) (sharded_new k t) h F os) as (rs & m & n & R & Hs).
  - unfold compressed_sharded. by rewrite (bind_run _ _ _ _ _ Hnew).
  - by apply sharded_rep_new.
  - exists rs, m, n. split_and!; [done|done|].
    apply (engine_steps_size _ _ _ _ _ _ _ (λ _, eq_refl) Hs). by simpl.
Qed.

(** [clear] resets the counter but keeps the default route: removing a
    default route after [clear] takes the counter below zero, and [size]
    reports 2^64 - 1. *)
Theorem size_wraps_after_clear v p md :
  net_prefix p = 0 →
  session (uncompressed_standard v) [OpInsert p md; OpClear; OpRemove p] =
  Some ([RDone (Ok tt); RUnit; RMeta (Some md)], 2 ^ 64 - 1).
Proof.
  intros Hp.
  destruct (standard_uncompressed_session v [OpInsert p md; OpClear; OpRemove p])
    as (rs & m & n & R & Hs).
  assert (net_bits p = []) as Hbits by (unfold net_bits, net_len; by rewrite Hp).
  rewrite R.
  repeat match goal with
  | H : engine_steps _ _ _ _ (_ :: _) _ _ |- _ => inversion H; clear H; subst
  | H : engine_steps _ _ _ _ [] _ _ |- _ => inversion H; clear H; subst
  | H : engine_step _ _ _ _ _ _ _ |- _ => inversion H; clear H; subst
  end.
  rewrite Hbits in *. unfold keep_default in *.
  by rewrite insert_empty, map_filter_singleton_True, lookup_singleton_eq in * by done.
Qed.
End engines.
