(* ===== verification/Cache.v ===== *)
(** * The caches (cache/src/memory.rs, engine/src/cache.rs)

    [RadixCache<T>] of the cache crate, with expiry, and the [RadixCache] and
    [CachedEngine] of the engine crate, which put a map of lookup results (and
    optionally Redis) in front of an engine.  The Redis server, JSON and the
    text form of addresses are parameters. *)

From S2P Require Import Prelude Addr Lpm DashMap Node Heap RouteTree Trie Engine Engines.

Local Open Scope Z_scope.

Record CacheConfig := mkCacheConfig { max_entries : Z; ttl_seconds : option Z }.

(** [HashMap::keys().next()]: some key, in an order the language leaves open. *)
Class HashOrder := first_key : ∀ {V}, gmap IpAddr V → option IpAddr.
Class HashOrderLaws `{HashOrder} : Prop := {
  first_key_in {V} (m : gmap IpAddr V) k : first_key m = Some k → is_Some (m !! k);
  first_key_none {V} (m : gmap IpAddr V) : first_key m = None → m = ∅;
}.

Module RefHashOrder.
#[export] Instance order : HashOrder := λ V m, fst <$> head (map_to_list m).
#[export] Instance laws : HashOrderLaws.
Proof.
  split; intros V m; unfold first_key, order.
  - intros k. destruct (map_to_list m) as [|[k' v] l] eqn:E; [done|]. intros [= ->].
    exists v. apply elem_of_map_to_list. rewrite E. set_solver.
  - destruct (map_to_list m) as [|e l] eqn:E; [|done]. intros _. by apply map_to_list_empty_iff.
Qed.
End RefHashOrder.

(** The eviction both caches use: at capacity, one entry goes. *)
Definition evict `{HashOrder} {V} (max_entries : Z) (m : gmap IpAddr V) : gmap IpAddr V :=
  if max_entries <=? Z.of_nat (size m) then
    match first_key m with Some k => delete k m | None => m end
  else m.

Lemma evict_subseteq `{HashOrder} {V} n (m : gmap IpAddr V) : evict n m ⊆ m.
Proof.
  unfold evict. destruct (n <=? _); [|done]. destruct (first_key m); [|done]. apply delete_subseteq.
Qed.

Lemma evict_insert_size `{HashOrderLaws} {V} n (m : gmap IpAddr V) k v :
  0 ≤ n → Z.of_nat (size m) ≤ Z.max 1 n → Z.of_nat (size (<[k := v]> (evict n m))) ≤ Z.max 1 n.
Proof.
  intros Hn Hm. unfold evict. rewrite map_size_insert.
  destruct (Z.leb_spec n (Z.of_nat (size m))) as [Hle|Hlt].
  - destruct (first_key m) as [j|] eqn:Hj.
    + apply first_key_in in Hj as [w Hw]. rewrite map_size_delete, Hw.
      assert (size m ≠ 0%nat). { intros Hz%map_size_empty_inv. subst. by rewrite lookup_empty in Hw. }
      destruct (delete j m !! k); simpl; lia.
    + apply first_key_none in Hj as ->. rewrite lookup_empty, map_size_empty. simpl. lia.
  - destruct (m !! k); simpl; lia.
Qed.

(** ** cache/src/memory.rs *)

Module Memory.
Section cache.
Context `{HashOrder} {T : Type}.

Record CacheEntry := mkEntry { value : T; expires_at : option Z }.
Record RadixCache := mkCache { cache : gmap IpAddr CacheEntry; config : CacheConfig }.

Definition new (config : CacheConfig) : RadixCache := mkCache ∅ config.

(** [now] is an [Instant] in nanoseconds. *)
Definition get (c : RadixCache) (ip : IpAddr) (now : Z) : option T * RadixCache :=
  match cache c !! ip with
  | None => (None, c)
  | Some entry =>
      let should_remove := match expires_at entry with Some t => t <=? now | None => false end in
      if should_remove then (None, mkCache (delete ip (cache c)) (config c))
      else (value <$> cache c !! ip, c)
  end.

Definition insert (c : RadixCache) (ip : IpAddr) (v : T) (now : Z) : RadixCache :=
  let guard := evict (max_entries (config c)) (cache c) in
  let expires := (λ ttl, now + ttl * 1000000000) <$> ttl_seconds (config c) in
  mkCache (<[ip := mkEntry v expires]> guard) (config c).

Definition invalidate_prefix (c : RadixCache) (matches : IpAddr → bool) : RadixCache :=
  mkCache (filter (λ e, matches e.1 = false) (cache c)) (config c).

Definition clear (c : RadixCache) : RadixCache := mkCache ∅ (config c).

Inductive cache_op :=
  | CGet (ip : IpAddr) (now : Z)
  | CInsert (ip : IpAddr) (v : T) (now : Z)
  | CInvalidate (matches : IpAddr → bool)
  | CClear.

Definition cache_step (c : RadixCache) (o : cache_op) : RadixCache :=
  match o with
  | CGet ip now => (get c ip now).2
  | CInsert ip v now => insert c ip v now
  | CInvalidate f => invalidate_prefix c f
  | CClear => clear c
  end.

Context `{!HashOrderLaws}.

Lemma cache_step_config c o : config (cache_step c o) = config c.
Proof. destruct o; simpl; try done. unfold get. by repeat case_match. Qed.

Lemma cache_step_bound n c o :
  0 ≤ n → max_entries (config c) = n → Z.of_nat (size (cache c)) ≤ Z.max 1 n →
  Z.of_nat (size (cache (cache_step c o))) ≤ Z.max 1 n.
Proof.
  intros Hn Hmax Hc. destruct o as [ip now|ip v now|f|]; simpl.
  - unfold get. destruct (cache c !! ip) as [e|] eqn:He; [|done].
    destruct (match expires_at e with Some t => t <=? now | None => false end); simpl; [|done].
    rewrite map_size_delete, He. lia.
  - rewrite Hmax. by apply evict_insert_size.
  - etrans; [|exact Hc]. apply Nat2Z.inj_le, map_subseteq_size, map_filter_subseteq.
  - rewrite map_size_empty. lia.
Qed.

(** The in-memory cache returns a stored value exactly until its
    time-to-live has passed, drops it at the first read after that, never
    returns a value of an invalidated address, and never holds more than
    [max_entries] values (one, when [max_entries] is 0). *)
Theorem memory_cache_spec (cfg : CacheConfig) (os : list cache_op) ip v now now' f :
  0 ≤ max_entries cfg →
  let c := foldl cache_step (new cfg) os in
  Z.of_nat (size (cache c)) ≤ Z.max 1 (max_entries cfg) ∧
  (get (insert c ip v now) ip now').1 =
    (if match ttl_seconds cfg with Some ttl => now + ttl * 1000000000 <=? now' | None => false end
     then None else Some v) ∧
  (f ip = true → (get (invalidate_prefix c f) ip now').1 = None) ∧
  (∀ now2, (get c ip now').1 = None → (get (get c ip now').2 ip now2).1 = None).
Proof.
  intros Hn c. assert (config c = cfg) as Hcfg.
  { unfold c. clear. induction os as [|o os IH] using rev_ind; [done|].
    rewrite foldl_app. simpl. by rewrite cache_step_config. }
  assert (Z.of_nat (size (cache c)) ≤ Z.max 1 (max_entries cfg)) as Hsz.
  { unfold c. clear Hcfg. induction os as [|o os IH] using rev_ind.
    { cbn [foldl new cache]. rewrite map_size_empty. lia. }
    rewrite foldl_app. apply cache_step_bound; [done| |done].
    clear. induction os as [|o os IH] using rev_ind; [done|].
    rewrite foldl_app. simpl. by rewrite cache_step_config. }
  split_and!; [done| | |].
  - unfold get, insert. cbn [cache config]. rewrite lookup_insert_eq. cbn [expires_at]. rewrite Hcfg.
    destruct (ttl_seconds cfg) as [ttl|]; simpl; [by destruct (_ <=? _)|done].
  - intros Hf. unfold get, invalidate_prefix. cbn [cache].
    rewrite map_lookup_filter. destruct (cache c !! ip) as [e|]; [|done]. simpl.
    rewrite option_guard_False by congruence. done.
  - intros now2. unfold get. destruct (cache c !! ip) as [e|] eqn:He; simpl; [|by rewrite He].
    destruct (match expires_at e with Some t => t <=? now' | None => false end); simpl; [|done].
    by rewrite lookup_delete_eq.
Qed.
End cache.
End Memory.

(** ** engine/src/cache.rs *)

(** The Redis commands the sources call; [Err] leaves the server unchanged. *)
Class RedisCrate := {
  Redis : Type;
  r_get : Redis → string → Result (option string) string;
  r_set : Redis → string → string → Result Redis string;
  r_hset : Redis → string → string → string → Result Redis string;
  r_hdel : Redis → string → string → Result Redis string;
  r_hgetall : Redis → string → Result (list (string * string)) string;
}.

(** What a reachable server promises for the string keys. *)
Class RedisLaws `{RedisCrate} : Prop := {
  r_set_ok r k v : ∃ r', r_set r k v = Ok r' ∧ r_get r' k = Ok (Some v);
  r_hset_get r k f v r' k' : r_hset r k f v = Ok r' → r_get r' k' = r_get r k';
  r_hdel_get r k f r' k' : r_hdel r k f = Ok r' → r_get r' k' = r_get r k';
}.

(** [serde_json] and the [Display] and [FromStr] of networks and addresses. *)
Class TextForms `{IpNetworkCrate} := {
  metadata_to_json : Metadata → Result string string;
  metadata_from_json : string → Result Metadata string;
  network_to_string : IpNetwork → string;
  network_from_string : string → Result IpNetwork string;
  ip_to_string : IpAddr → string;
}.

Class JsonLaws `{TextForms} : Prop :=
  json_roundtrip md : ∃ json, metadata_to_json md = Ok json ∧ metadata_from_json json = Ok md.

Section cached.
Context `{IpNetworkCrate} `{DashMapCrate} `{HashOrder} `{RedisCrate} `{!TextForms}.
Context {E : Type} `{!RadixEngine E}.

(** The engine is shared with [CachedEngine] and threaded through the calls. *)
Record RadixCache := mkRadixCache {
  rc_cache : gmap IpAddr (option Metadata);
  rc_config : CacheConfig;
  rc_redis : option Redis;
}.

(** Boot-load the persisted prefixes into the engine. *)
Fixpoint boot_load (e : E) (entries : list (string * string)) : M E :=
  match entries with
  | [] => mret e
  | (cidr, meta_json) :: rest =>
      match network_from_string cidr with
      | Ok network =>
          match metadata_from_json meta_json with
          | Ok metadata => '(_, e') ← re_insert e network metadata; boot_load e' rest
          | Err _ => boot_load e rest
          end
      | Err _ => boot_load e rest
      end
  end.

Definition radix_cache_new (config : CacheConfig) (engine : E) (redis : option Redis)
    : M (RadixCache * E) :=
  let cache := mkRadixCache ∅ config redis in
  match redis with
  | Some r =>
      match r_hgetall r "radixip:entries" with
      | Ok entries => e' ← boot_load engine entries; mret (cache, e')
      | Err _ => mret (cache, engine)
      end
  | None => mret (cache, engine)
  end.

Definition lookup_key (ip : IpAddr) : string := "radixip:lookup:" +:+ ip_to_string ip.

(** The shared lookup cache in Redis, consulted when the engine has nothing. *)
Definition redis_lookup (redis : option Redis) (ip : IpAddr) : option Metadata :=
  match redis with
  | Some r =>
      match r_get r (lookup_key ip) with
      | Ok (Some cached_meta) =>
          match metadata_from_json cached_meta with Ok meta => Some meta | Err _ => None end
      | _ => None
      end
  | None => None
  end.

Definition redis_store (redis : option Redis) (ip : IpAddr) (result : option Metadata)
    : option Redis :=
  match redis, result with
  | Some r, Some res =>
      match metadata_to_json res with
      | Ok json => match r_set r (lookup_key ip) json with Ok r' => Some r' | Err _ => Some r end
      | Err _ => Some r
      end
  | _, _ => redis
  end.

Definition lookup_with_cache (c : RadixCache) (e : E) (ip : IpAddr)
    : M (option Metadata * RadixCache * E) :=
  match rc_cache c !! ip with
  | Some entry => mret (entry, c, e)
  | None =>
      '(found, e') ← re_lookup e ip;
      let result := if is_none found then redis_lookup (rc_redis c) ip else found in
      let cache := <[ip := result]> (evict (max_entries (rc_config c)) (rc_cache c)) in
      mret (result, mkRadixCache cache (rc_config c) (redis_store (rc_redis c) ip result), e')
  end.

Definition invalidate (c : RadixCache) (prefix : IpNetwork) : RadixCache :=
  mkRadixCache (filter (λ x, network_contains_ip prefix x.1 = false) (rc_cache c))
    (rc_config c) (rc_redis c).

Definition cache_clear (c : RadixCache) : RadixCache :=
  mkRadixCache ∅ (rc_config c) (rc_redis c).

Definition set_redis (c : RadixCache) (r : option Redis) : RadixCache :=
  mkRadixCache (rc_cache c) (rc_config c) r.

Record CachedEngine := mkCached { ce_inner : E; ce_cache : RadixCache }.

Definition cached_new (inner : E) (config : CacheConfig) (redis : option Redis) : M CachedEngine :=
  '(cache, e) ← radix_cache_new config inner redis;
  mret (mkCached e cache).

Definition persist (redis : option Redis) (prefix : IpNetwork) (metadata : Metadata)
    : option Redis :=
  match redis with
  | Some r =>
      match metadata_to_json metadata with
      | Ok json =>
          match r_hset r "radixip:entries" (network_to_string prefix) json with
          | Ok r' => Some r' | Err _ => Some r
          end
      | Err _ => Some r
      end
  | None => None
  end.

Definition unpersist (redis : option Redis) (prefix : IpNetwork) : option Redis :=
  match redis with
  | Some r =>
      match r_hdel r "radixip:entries" (network_to_string prefix) with
      | Ok r' => Some r' | Err _ => Some r
      end
  | None => None
  end.

Definition cached_insert (c : CachedEngine) (prefix : IpNetwork) (metadata : Metadata)
    : M (Result unit string * CachedEngine) :=
  '(r, e) ← re_insert (ce_inner c) prefix metadata;
  match r with
  | Err err => mret (Err err, mkCached e (ce_cache c))
  | Ok _ =>
      let cache := set_redis (ce_cache c) (persist (rc_redis (ce_cache c)) prefix metadata) in
      mret (Ok tt, mkCached e (invalidate cache prefix))
  end.

Definition cached_lookup (c : CachedEngine) (ip : IpAddr) : M (option Metadata * CachedEngine) :=
  '(r, cache, e) ← lookup_with_cache (ce_cache c) (ce_inner c) ip;
  mret (r, mkCached e cache).

Definition cached_remove (c : CachedEngine) (prefix : IpNetwork)
    : M (option Metadata * CachedEngine) :=
  '(result, e) ← re_remove (ce_inner c) prefix;
  let cache := set_redis (ce_cache c) (unpersist (rc_redis (ce_cache c)) prefix) in
  mret (result, mkCached e (invalidate cache prefix)).

Definition cached_contains (c : CachedEngine) (prefix : IpNetwork) : M bool :=
  re_contains (ce_inner c) prefix.

Definition cached_clear (c : CachedEngine) : M CachedEngine :=
  e ← re_clear (ce_inner c);
  mret (mkCached e (cache_clear (ce_cache c))).

#[export] Instance CachedEngine_RadixEngine : RadixEngine CachedEngine := {|
  re_insert := cached_insert;
  re_lookup := cached_lookup;
  re_remove := cached_remove;
  re_contains := cached_contains;
  re_clear := cached_clear;
  re_size c := re_size (ce_inner c);
  re_stats c := re_stats (ce_inner c);
|}.
End cached.
Arguments CachedEngine {_} _.

(** ** The cache is transparent *)

Section coherence.
Context `{IpNetworkCrate} `{!IpNetworkLaws} `{DashMapCrate} `{!DashMapLaws} `{HashOrder}.
Context `{RedisCrate} `{!TextForms}.
Implicit Types (m : table).

Definition is_v4 (p : IpNetwork) : bool := match p with inl _ => true | inr _ => false end.

(** A table of one address family, each entry under its own bits. *)
Definition family_table (fam : bool) m : Prop :=
  ∀ k p md, m !! k = Some (p, md) → net_bits p = k ∧ is_v4 p = fam.

Definition op_family (fam : bool) (o : op) : Prop :=
  match o with
  | OpInsert p _ | OpRemove p => is_v4 p = fam
  | _ => True
  end.

Lemma contains_same_bits p q ip :
  net_bits p = net_bits q → is_v4 p = is_v4 q → network_contains_ip p ip = network_contains_ip q ip.
Proof.
  intros Hb Hf. apply eq_bool_prop_intro. rewrite !Is_true_true, !network_contains_bits, Hb.
  assert (same_family (net_network p) ip = same_family (net_network q) ip) as ->; [|done].
  rewrite !net_network_spec. by destruct p, q.
Qed.

(** The matcher only depends on the entries that contain the address. *)
Lemma lpm_ext fam m m' ip :
  family_table fam m → family_table fam m' →
  (∀ e, network_contains_ip e.1 ip = true → e ∈ entries m → e ∈ entries m') →
  (∀ e, network_contains_ip e.1 ip = true → e ∈ entries m' → e ∈ entries m) →
  LPM_lookup (entries m') ip = LPM_lookup (entries m) ip.
Proof.
  intros Hm Hm' Hsub Hsup. unfold LPM_lookup at 2. unfold longest_prefix_match_entries.
  pose proof (lpm_fold_best (entries m) ip) as Hb.
  destruct (foldl _ _ (entries m)) as [[p md]|]; simpl in *.
  - destruct Hb as (Hin & Hc & Hmax). rewrite Forall_forall in Hmax.
    apply (lpm_entries_unique _ _ (p, md)); [by apply Hsub|done|].
    intros [q mdq] Hin' Hc'. pose proof (Hsup _ Hc' Hin') as Hinm.
    pose proof (Hmax (q, mdq) Hinm Hc') as Hle. simpl in *.
    destruct (decide (net_prefix q = net_prefix p)) as [Heq|]; [left|right; lia].
    apply elem_of_entries in Hin as [k Hk]. apply elem_of_entries in Hin' as [k' Hk'].
    destruct (Hm _ _ _ Hk) as [Hkb _]. destruct (Hm' _ _ _ Hk') as [Hkb' _].
    apply network_contains_bits in Hc as [_ Hp]. apply network_contains_bits in Hc' as [_ Hq].
    assert (net_bits p = net_bits q) as Hbits.
    { apply prefix_take_iff in Hp, Hq. rewrite <- Hp, <- Hq, !length_net_bits.
      unfold net_len. by rewrite Heq. }
    apply elem_of_entries in Hinm as [k2 Hk2].
    destruct (Hm _ _ _ Hk2) as [Hkb2 _]. congruence.
  - apply lpm_entries_none. intros e Hin. apply not_true_is_false. intros Hc.
    rewrite Forall_forall in Hb. specialize (Hb e (Hsup e Hc Hin)). congruence.
Qed.

Lemma lpm_insert_outside fam m p md ip :
  family_table fam m → is_v4 p = fam → network_contains_ip p ip = false →
  LPM_lookup (entries (<[net_bits p := (p, md)]> m)) ip = LPM_lookup (entries m) ip.
Proof.
  intros Hm Hp Hc. apply (lpm_ext fam); [done| | |].
  - intros k q mdq. rewrite lookup_insert. case_decide; [intros [= <- <-]; done|apply Hm].
  - intros [q mdq] Hq [k Hk]%elem_of_entries. apply elem_of_entries. exists k.
    rewrite lookup_insert_ne; [done|]. intros Heq. destruct (Hm _ _ _ Hk) as [Hkb Hf].
    rewrite (contains_same_bits p q ip) in Hc by congruence. simpl in Hq. congruence.
  - intros [q mdq] Hq [k Hk]%elem_of_entries. apply elem_of_entries. exists k.
    rewrite lookup_insert in Hk. case_decide; [|done]. injection Hk as <- <-. simpl in Hq. congruence.
Qed.

Lemma lpm_delete_outside fam m p ip :
  family_table fam m → is_v4 p = fam → network_contains_ip p ip = false →
  LPM_lookup (entries (delete (net_bits p) m)) ip = LPM_lookup (entries m) ip.
Proof.
  intros Hm Hp Hc. apply (lpm_ext fam); [done| | |].
  - intros k q mdq [_ Hk]%lookup_delete_Some. by eapply Hm.
  - intros [q mdq] Hq [k Hk]%elem_of_entries. apply elem_of_entries. exists k.
    rewrite lookup_delete_ne; [done|]. intros Heq. destruct (Hm _ _ _ Hk) as [Hkb Hf].
    rewrite (contains_same_bits p q ip) in Hc by congruence. simpl in Hq. congruence.
  - intros [q mdq] Hq [k Hk]%elem_of_entries. apply elem_of_entries. exists k.
    by apply lookup_delete_Some in Hk as [_ Hk].
Qed.

Implicit Types (F : gset loc) (n : Z) (h : Heap).

(** Any engine that keeps the table of the uncompressed tree. *)
Section any_engine.
Context {E : Type} `{!RadixEngine E} `{!RadixEngineLaws E} `{!LpmEngine E}.
Implicit Types (c : CachedEngine E).

(** Every cached result is the current answer of the table. *)
Definition cached_ok (fam : bool) h c m n F : Prop :=
  re_rep h (ce_inner c) m n F ∧ rc_redis (ce_cache c) = None ∧ family_table fam m ∧
  ∀ ip r, rc_cache (ce_cache c) !! ip = Some r → r = LPM_lookup (entries m) ip.

Lemma cached_op_refines fam h c m n F o :
  cached_ok fam h c m n F → op_family fam o →
  ∃ r c' h' m' n' F', engine_op c o h = Some ((r, c'), h') ∧ cached_ok fam h' c' m' n' F' ∧
    engine_step net_bits lpm_answers keep_default (m, n) o r (m', n').
Proof.
  intros (Hr & Hred & Hm & Hc) Ho. destruct o as [p md|ip|p|p|];
    cbn [engine_op re_insert re_lookup re_remove re_contains re_clear CachedEngine_RadixEngine op_family] in *.
  - destruct (re_insert_spec h _ m n F p md Hr) as (e' & h' & F' & R & Hr' & _). rewrite lpm_key in Hr'.
    unfold cached_insert. rewrite bind_bind, (bind_run _ _ _ _ _ R).
    eexists _, _, h', _, _, F'. split; [done|]. split; [|constructor].
    split_and!; [exact Hr'|simpl; by rewrite Hred| |].
    + intros k q mdq. rewrite lookup_insert. case_decide; [intros [= <- <-]; done|apply Hm].
    + intros ip r. simpl. rewrite map_lookup_filter_Some. simpl. intros [Hl Hno].
      rewrite (lpm_insert_outside fam) by done. by apply Hc.
  - unfold cached_lookup, lookup_with_cache.
    destruct (rc_cache (ce_cache c) !! ip) as [r|] eqn:Hl.
    + eexists _, _, h, m, n, F. split; [done|]. split; [|constructor; by apply Hc].
      by destruct c.
    + destruct (re_lookup_spec h _ m n F ip Hr) as (r & e' & R & Hr' & Ha%lpm_answer).
      rewrite !bind_bind, (bind_run _ _ _ _ _ R). cbn beta iota zeta. rewrite Hred.
      assert ((if is_none r then redis_lookup None ip else r) = r) as -> by (by destruct r).
      assert (redis_store None ip r = None) as -> by done.
      eexists _, _, h, m, n, F. split; [done|]. split; [|by constructor].
      split_and!; [done|done|done|]. intros ip' r'. simpl. rewrite lookup_insert. case_decide.
      * intros [= <-]. subst. done.
      * intros Hl'. apply Hc. eapply lookup_weaken; [exact Hl'|apply evict_subseteq].
  - destruct (re_remove_spec h _ m n F p Hr) as (e' & h' & F' & R & Hr' & _). rewrite lpm_key in R, Hr'.
    unfold cached_remove. rewrite bind_bind, (bind_run _ _ _ _ _ R).
    eexists _, _, h', _, _, F'. split; [done|]. split; [|constructor].
    split_and!; [exact Hr'|simpl; by rewrite Hred| |].
    + intros k q mdq [_ Hk]%lookup_delete_Some. by eapply Hm.
    + intros ip r. simpl. rewrite map_lookup_filter_Some. simpl. intros [Hl Hno].
      rewrite (lpm_delete_outside fam) by done. by apply Hc.
  - unfold cached_contains. rewrite (bind_run _ _ _ _ _ (re_contains_spec h _ m n F p Hr)), lpm_key.
    eexists _, _, h, m, n, F. split; [done|]. split; [done|constructor].
  - destruct (re_clear_spec h _ m n F Hr) as (e' & h' & F' & R & Hr' & _). rewrite lpm_cleared in Hr'.
    unfold cached_clear. rewrite bind_bind, (bind_run _ _ _ _ _ R).
    eexists _, _, h', _, _, F'. split; [done|]. split; [|constructor].
    split_and!; [exact Hr'|done| |done].
    intros k q mdq [Hk _]%map_lookup_filter_Some. by eapply Hm.
Qed.

Lemma cached_ops_refines fam os : ∀ h c m n F,
  cached_ok fam h c m n F → Forall (op_family fam) os →
  ∃ rs c' h' m', engine_ops c os h = Some ((rs, c'), h') ∧
    engine_steps net_bits lpm_answers keep_default (m, n) os rs (m', re_size c').
Proof.
  induction os as [|o os IH]; intros h c m n F Hc Ho; cbn [engine_ops].
  - pose proof (re_size_spec _ _ _ _ _ (proj1 Hc)) as <-. exists [], c, h, m. split; [done|constructor].
  - apply Forall_cons in Ho as [Ho Hos].
    destruct (cached_op_refines fam h c m n F o Hc Ho) as (r & c1 & h1 & m1 & n1 & F1 & R1 & Hc1 & S1).
    destruct (IH h1 c1 m1 n1 F1 Hc1 Hos) as (rs & c2 & h2 & m2 & R2 & S2).
    rewrite (bind_run _ _ _ _ _ R1). cbn beta iota. rewrite (bind_run _ _ _ _ _ R2).
    exists (r :: rs), c2, h2, m2. split; [done|]. by econstructor.
Qed.

(** A cache put in front of an empty engine. *)
Lemma cached_session fam (mk : M (CachedEngine E)) e cfg h F os :
  mk empty_heap = Some (mkCached e (mkRadixCache ∅ cfg None), h) → re_rep h e ∅ 0 F →
  Forall (op_family fam) os →
  ∃ rs m n, session mk os = Some (rs, n) ∧
    engine_steps net_bits lpm_answers keep_default (∅, 0) os rs (m, n).
Proof.
  intros Hmk Hr Hos. set (c := mkCached e (mkRadixCache ∅ cfg None)) in Hmk.
  assert (cached_ok fam h c ∅ 0 F) as Hc.
  { split_and!; [done|done| |].
    - intros k p md. by rewrite lookup_empty.
    - intros ip r. simpl. by rewrite lookup_empty. }
  destruct (cached_ops_refines fam os h c ∅ 0 F Hc Hos) as (rs & c' & h' & m & R & S).
  exists rs, m, (re_size c'). split; [|done]. unfold session. rewrite Hmk. cbn [mbind option_bind]. by rewrite R.
Qed.
End any_engine.

Abbreviation Std := (StandardEngine UncompressedTree).
Implicit Types (c : CachedEngine Std).

(** Without Redis, the cache in front of the engine is transparent for
    prefixes of one address family: every sequence of calls gets the same
    answers, and the same size, as without the cache. *)
Theorem cached_engine_transparent v cfg fam os :
  Forall (op_family fam) os →
  ∃ t h0 c rs e1 h1 c2 h2, trie_new v empty_heap = Some (t, h0) ∧
    engine_ops (standard_new t) os h0 = Some ((rs, e1), h1) ∧
    cached_new (standard_new t) cfg None h0 = Some (c, h0) ∧
    engine_ops c os h0 = Some ((rs, c2), h2) ∧ re_size c2 = re_size e1.
Proof.
  intros Hos. destruct (standard_uncompressed_run v os) as (t & h0 & rs & e1 & h1 & m1 & Hnew & R1 & S1).
  destruct (trie_new_refines empty_heap v heap_wf_empty) as (t' & h0' & F & Hnew' & _ & Hr & _).
  rewrite Hnew in Hnew'. injection Hnew' as <- <-. change (rt_rep h0 t ∅ F) in Hr.
  set (c := mkCached (standard_new t) (mkRadixCache ∅ cfg None)).
  assert (cached_ok fam h0 c ∅ 0 F) as Hc.
  { split_and!; [by split|done| |].
    - intros k p md. by rewrite lookup_empty.
    - intros ip r. simpl. by rewrite lookup_empty. }
  destruct (cached_ops_refines fam os h0 c ∅ 0 F Hc Hos) as (rs' & c2 & h2 & m2 & R2 & S2).
  destruct (lpm_steps_det _ _ _ _ _ _ S1 S2) as [<- [= _ Hsz]].
  exists t, h0, c, rs, e1, h1, c2, h2. split_and!; try done.
Qed.

(** ** Where it is not *)

Lemma lpm_singleton p md ip :
  LPM_lookup (entries {[ net_bits p := (p, md) ]}) ip =
  if network_contains_ip p ip then Some md else None.
Proof.
  unfold entries. rewrite map_to_list_singleton. unfold LPM_lookup, longest_prefix_match_entries.
  simpl. unfold lpm_step. simpl. by destruct (network_contains_ip p ip).
Qed.

Lemma engine_ops_cons {E} `{!RadixEngine E} (e : E) o os h r e1 h1 rs e2 h2 :
  engine_op e o h = Some ((r, e1), h1) → engine_ops e1 os h1 = Some ((rs, e2), h2) →
  engine_ops e (o :: os) h = Some ((r :: rs, e2), h2).
Proof.
  intros Ho Hos. cbn [engine_ops]. rewrite (bind_run _ _ _ _ _ Ho). cbn beta iota.
  by rewrite (bind_run _ _ _ _ _ Hos).
Qed.

(** One call on the cached engine, in terms of the inner engine. *)
Lemma cached_insert_run h c m n F p md :
  re_rep h (ce_inner c) m n F →
  ∃ e' h' n' F', engine_op c (OpInsert p md) h =
      Some ((RDone (Ok tt), mkCached e' (invalidate
        (set_redis (ce_cache c) (persist (rc_redis (ce_cache c)) p md)) p)), h') ∧
    re_rep h' e' (<[net_bits p := (p, md)]> m) n' F'.
Proof.
  intros Hr. destruct (re_insert_spec h _ m n F p md Hr) as (e' & h' & F' & R & Hr' & _).
  cbn [engine_op re_insert CachedEngine_RadixEngine]. unfold cached_insert.
  rewrite bind_bind, (bind_run _ _ _ _ _ R). eexists e', h', _, F'. split; [done|exact Hr'].
Qed.

Lemma cached_remove_run h c m n F p :
  re_rep h (ce_inner c) m n F →
  ∃ e' h' n' F', engine_op c (OpRemove p) h =
      Some ((RMeta (snd <$> m !! net_bits p), mkCached e' (invalidate
        (set_redis (ce_cache c) (unpersist (rc_redis (ce_cache c)) p)) p)), h') ∧
    re_rep h' e' (delete (net_bits p) m) n' F'.
Proof.
  intros Hr. destruct (re_remove_spec h _ m n F p Hr) as (e' & h' & F' & R & Hr' & _).
  cbn [engine_op re_remove CachedEngine_RadixEngine]. unfold cached_remove.
  rewrite bind_bind, (bind_run _ _ _ _ _ R). eexists e', h', _, F'. split; [done|exact Hr'].
Qed.

Lemma cached_lookup_run h c m n F ip :
  re_rep h (ce_inner c) m n F → rc_cache (ce_cache c) !! ip = None →
  let found := LPM_lookup (entries m) ip in
  let result := if is_none found then redis_lookup (rc_redis (ce_cache c)) ip else found in
  ∃ e', engine_op c (OpLookup ip) h =
      Some ((RMeta result, mkCached e' (mkRadixCache
        (<[ip := result]> (evict (max_entries (rc_config (ce_cache c))) (rc_cache (ce_cache c))))
        (rc_config (ce_cache c)) (redis_store (rc_redis (ce_cache c)) ip result))), h) ∧
    re_rep h e' m n F.
Proof.
  intros Hr Hl found result. destruct (re_lookup_spec h _ m n F ip Hr) as (r & e' & R & Hr' & Ha).
  simpl in Ha. subst r. fold found in R.
  cbn [engine_op re_lookup CachedEngine_RadixEngine]. unfold cached_lookup, lookup_with_cache.
  rewrite Hl, !bind_bind, (bind_run _ _ _ _ _ R). exists e'. split; [done|exact Hr'].
Qed.

(** With Redis, a lookup result is also stored there and never removed:
    after a prefix is removed, and [contains] says so, a lookup of one of
    its addresses is still answered with the removed metadata. *)
Theorem cached_redis_stale `{!RedisLaws} `{!JsonLaws} v cfg r p md ip :
  network_contains_ip p ip = true → r_hgetall r "radixip:entries" = Ok [] →
  ∃ t h0 c c2 h2, trie_new v empty_heap = Some (t, h0) ∧
    cached_new (standard_new t) cfg (Some r) h0 = Some (c, h0) ∧
    engine_ops c [OpInsert p md; OpLookup ip; OpRemove p; OpContains p; OpLookup ip] h0 =
    Some (([RDone (Ok tt); RMeta (Some md); RMeta (Some md); RBool false; RMeta (Some md)], c2), h2).
Proof.
  intros Hc Hall.
  destruct (trie_new_refines empty_heap v heap_wf_empty) as (t & h0 & F & Hnew & _ & Hr & _).
  set (c := mkCached (standard_new t) (mkRadixCache ∅ cfg (Some r))).
  assert (re_rep h0 (ce_inner c) ∅ 0 F) as HR by (by split).
  destruct (cached_insert_run h0 c ∅ 0 F p md HR) as (e1 & h1 & n1 & F1 & R1 & Hr1).
  rewrite insert_empty in Hr1.
  set (c1 := mkCached e1 _) in R1.
  assert (∃ r1, rc_redis (ce_cache c1) = Some r1) as [r1 Hred1].
  { simpl. destruct (metadata_to_json md); [|by eexists]. case_match; by eexists. }
  assert (rc_cache (ce_cache c1) = ∅) as Hcache1 by (simpl; apply map_filter_empty).
  destruct (cached_lookup_run h1 c1 _ n1 F1 ip Hr1) as (e2 & R2 & Hr2).
  { by rewrite Hcache1, lookup_empty. }
  rewrite lpm_singleton, Hc in R2. cbn [is_none is_some negb] in R2.
  destruct (json_roundtrip md) as (json & Hj & Hj').
  destruct (r_set_ok r1 (lookup_key ip) json) as (r2 & Hset & Hget).
  assert (redis_store (rc_redis (ce_cache c1)) ip (Some md) = Some r2) as Hst.
  { rewrite Hred1. simpl. by rewrite Hj, Hset. }
  rewrite Hst in R2. set (c2 := mkCached e2 _) in R2.
  destruct (cached_remove_run h1 c2 _ n1 F1 p Hr2) as (e3 & h3 & n3 & F3 & R3 & Hr3).
  rewrite lookup_singleton_eq in R3. rewrite delete_singleton_eq in Hr3.
  set (c3 := mkCached e3 _) in R3.
  assert (∃ r3, rc_redis (ce_cache c3) = Some r3 ∧ r_get r3 (lookup_key ip) = Ok (Some json))
    as (r3 & Hred3 & Hget3).
  { simpl. destruct (r_hdel r2 _ _) as [r3|] eqn:Hdel; [|by exists r2].
    exists r3. split; [done|]. by rewrite (r_hdel_get _ _ _ _ _ Hdel). }
  destruct (cached_lookup_run h3 c3 ∅ n3 F3 ip Hr3) as (e4 & R4 & _).
  { simpl. apply map_lookup_filter_None. right. intros x _. simpl. congruence. }
  assert (redis_lookup (rc_redis (ce_cache c3)) ip = Some md) as Hlk.
  { rewrite Hred3. simpl. by rewrite Hget3, Hj'. }
  change (LPM_lookup (entries ∅) ip) with (None (A:=Metadata)) in R4.
  change (is_none None) with true in R4. cbn iota in R4. rewrite Hlk in R4.
  eexists t, h0, c, _, h3. split_and!; [done| |].
  { unfold cached_new, radix_cache_new. by rewrite Hall. }
  eapply engine_ops_cons; [exact R1|]. eapply engine_ops_cons; [exact R2|].
  eapply engine_ops_cons; [exact R3|].
  eapply (engine_ops_cons _ _ _ _ _ c3 h3); [|by eapply engine_ops_cons; [exact R4|]].
  cbn [engine_op re_contains CachedEngine_RadixEngine]. unfold cached_contains.
  by rewrite (bind_run _ _ _ _ _ (re_contains_spec h3 _ ∅ n3 F3 p Hr3)).
Qed.

(** Without Redis, a prefix of the other family with the same bits
    replaces the stored entry but only invalidates addresses of its own
    family: the cache keeps answering from the entry that is gone. *)
Theorem cached_cross_family_stale v cfg p q mdp mdq ip :
  net_bits q = net_bits p →
  network_contains_ip p ip = true → network_contains_ip q ip = false →
  ∃ t h0 c e1 h1 c2 h2, trie_new v empty_heap = Some (t, h0) ∧
    cached_new (standard_new t) cfg None h0 = Some (c, h0) ∧
    let os := [OpInsert p mdp; OpLookup ip; OpInsert q mdq; OpLookup ip] in
    engine_ops (standard_new t) os h0 =
      Some (([RDone (Ok tt); RMeta (Some mdp); RDone (Ok tt); RMeta None], e1), h1) ∧
    engine_ops c os h0 =
      Some (([RDone (Ok tt); RMeta (Some mdp); RDone (Ok tt); RMeta (Some mdp)], c2), h2).
Proof.
  intros Hbits Hp Hq. set (os := [OpInsert p mdp; OpLookup ip; OpInsert q mdq; OpLookup ip]).
  destruct (standard_uncompressed_run v os) as (t & h0 & rs & e1 & h1 & m1 & Hnew & R & Hs).
  destruct (trie_new_refines empty_heap v heap_wf_empty) as (t' & h0' & F & Hnew' & _ & Hr & _).
  rewrite Hnew in Hnew'. injection Hnew' as <- <-.
  set (c := mkCached (standard_new t) (mkRadixCache ∅ cfg None)).
  assert (re_rep h0 (ce_inner c) ∅ 0 F) as HR by (by split).
  destruct (cached_insert_run h0 c ∅ 0 F p mdp HR) as (e1' & h1' & n1 & F1 & R1 & Hr1).
  rewrite insert_empty in Hr1. set (c1 := mkCached e1' _) in R1.
  assert (rc_cache (ce_cache c1) = ∅) as Hcache1 by (simpl; apply map_filter_empty).
  destruct (cached_lookup_run h1' c1 _ n1 F1 ip Hr1) as (e2 & R2 & Hr2).
  { by rewrite Hcache1, lookup_empty. }
  rewrite lpm_singleton, Hp in R2. cbn [is_none is_some negb] in R2. set (c2 := mkCached e2 _) in R2.
  destruct (cached_insert_run h1' c2 _ n1 F1 q mdq Hr2) as (e3 & h3 & n3 & F3 & R3 & Hr3).
  set (c3 := mkCached e3 _) in R3.
  assert (rc_cache (ce_cache c3) !! ip = Some (Some mdp)) as Hstale.
  { simpl. apply map_lookup_filter_Some. split; [apply lookup_insert_eq|done]. }
  eexists t, h0, c, e1, h1, _, h3. split; [done|]. split; [done|]. cbn zeta. fold os. split.
  - rewrite R. do 3 f_equal. unfold os in Hs.
    repeat match goal with
    | H : engine_steps _ _ _ _ (_ :: _) _ _ |- _ => inversion H; clear H; subst
    | H : engine_steps _ _ _ _ [] _ _ |- _ => inversion H; clear H; subst
    | H : engine_step _ _ _ _ _ _ _ |- _ => inversion H; clear H; subst
    end.
    unfold lpm_answers in *. subst. rewrite Hbits, insert_insert_eq, !insert_empty.
    rewrite <- Hbits at 2. rewrite !lpm_singleton, Hp, Hq. done.
  - eapply engine_ops_cons; [exact R1|]. eapply engine_ops_cons; [exact R2|].
    eapply engine_ops_cons; [exact R3|]. eapply engine_ops_cons; [|done].
    cbn [engine_op re_lookup CachedEngine_RadixEngine]. unfold cached_lookup, lookup_with_cache.
    by rewrite Hstale.
Qed.
End coherence.
