(* ===== verification/Simd.v ===== *)
(** * Vectorised key search (engine/src/art/node16_simd.rs)

    The scalar loop, the SSE/AVX2 path and the NEON path of
    [simd_find_child], with the intrinsics written out on lists of bytes.
    The outer [option] of a result is the panic of a debug build (an index or
    a shift out of range), the inner one the [Option] the function returns. *)

From S2P Require Import Prelude.

Local Open Scope Z_scope.

(** [for i in 0..count { if keys[i] == target { return Some(i) } }] *)
Fixpoint find_scalar_loop (keys : list Z) (target : Z) (i n : nat) : option (option nat) :=
  match n with
  | O => Some None
  | S n' =>
      k ← keys !! i;
      if k =? target then Some (Some i) else find_scalar_loop keys target (S i) n'
  end.

Definition find_scalar (keys : list Z) (target count : Z) : option (option nat) :=
  find_scalar_loop keys target 0 (Z.to_nat count).

(** ** Intrinsics *)

(** [u32::trailing_zeros], [u64::trailing_zeros]: [n] bits are inspected. *)
Fixpoint trailing_zeros (n : nat) (x : Z) : nat :=
  match n with
  | O => O
  | S n' => if Z.odd x then O else S (trailing_zeros n' (Z.div2 x))
  end.

(** [_mm_set1_epi8] / [vdupq_n_u8] *)
Definition splat (x : Z) : list Z := replicate 16 x.

(** [_mm_cmpeq_epi8] / [vceqq_u8]: 0xFF where the bytes agree. *)
Definition cmpeq (u v : list Z) : list Z := zip_with (λ a b, if a =? b then 255 else 0) u v.

(** [_mm_movemask_epi8]: bit [i] is the top bit of byte [i]. *)
Definition movemask (v : list Z) : Z :=
  foldr (λ b acc, Z.b2z (Z.testbit b 7) + 2 * acc) 0 v.

(** [vshrn_n_u16(vreinterpretq_u16_u8(v), 4)] on little-endian lanes, then read
    back as one [u64]. *)
Fixpoint shrn4 (v : list Z) : list Z :=
  match v with
  | lo :: hi :: v' => wrap 8 (Z.shiftr (lo + 256 * hi) 4) :: shrn4 v'
  | _ => []
  end.
Definition le_u64 (v : list Z) : Z := foldr (λ b acc, b + 256 * acc) 0 v.

(** A left shift of 1 at width [w]: shifting by the width or more panics. *)
Definition checked_shl1 (w s : Z) : option Z := if s <? w then Some (wrap w (Z.shiftl 1 s)) else None.

(** ** The three paths *)

(** [find_avx2] and [find_sse4_1] have the same body. *)
Definition find_sse4_1 (keys : list Z) (target count : Z) : option (option nat) :=
  let cmp := cmpeq keys (splat target) in
  let mask := movemask cmp in
  bit ← checked_shl1 32 count;
  let valid_mask := Z.land mask (bit - 1) in
  Some (if valid_mask =? 0 then None else Some (trailing_zeros 32 valid_mask)).

Definition find_avx2 := find_sse4_1.

Definition find_neon (keys : list Z) (target count : Z) : option (option nat) :=
  let cmp := cmpeq keys (splat target) in
  let as_u64 := le_u64 (shrn4 cmp) in
  bit ← checked_shl1 64 (count * 4);
  let valid := Z.land as_u64 (bit - 1) in
  Some (if valid =? 0 then None else Some (trailing_zeros 64 valid / 4)%nat).

(** The same in a release build, where the shift amount is taken modulo 64. *)
Definition find_neon_release (keys : list Z) (target count : Z) : option nat :=
  let cmp := cmpeq keys (splat target) in
  let as_u64 := le_u64 (shrn4 cmp) in
  let valid := Z.land as_u64 (wrap 64 (Z.shiftl 1 (count * 4 mod 64)) - 1) in
  if valid =? 0 then None else Some (trailing_zeros 64 valid / 4)%nat.

(** The detected instruction set decides at run time. *)
Inductive target_arch := X86_64 (avx2 sse4_1 : bool) | AArch64 | OtherArch.

Definition simd_find_child (arch : target_arch) (keys : list Z) (target count : Z)
    : option (option nat) :=
  if count =? 0 then Some None else
  match arch with
  | X86_64 avx2 sse4_1 =>
      if avx2 then find_avx2 keys target count
      else if sse4_1 then find_sse4_1 keys target count
      else find_scalar keys target count
  | AArch64 => find_neon keys target count
  | OtherArch => find_scalar keys target count
  end.

(** ** The C entry point (node16_simd_ffi/src/lib.rs)

    [idx as i8] keeps the low eight bits, read in two's complement. *)
Definition as_i8 (x : Z) : Z := let y := wrap 8 x in if y <? 128 then y else y - 256.

Definition node16_simd_find (arch : target_arch) (keys : list Z) (target count : Z) : option Z :=
  match simd_find_child arch keys target count with
  | Some (Some idx) => Some (as_i8 (Z.of_nat idx))
  | Some None => Some (-1)
  | None => None
  end.

(** ** Specification *)

(** The first index whose key is [target]. *)
Fixpoint first_index (keys : list Z) (target : Z) : option nat :=
  match keys with
  | [] => None
  | k :: keys' => if k =? target then Some O else S <$> first_index keys' target
  end.

Lemma find_scalar_loop_spec keys target i n :
  (i + n ≤ length keys)%nat →
  find_scalar_loop keys target i n =
  Some (Nat.add i <$> first_index (take n (drop i keys)) target).
Proof.
  revert i. induction n as [|n IH]; intros i Hlen; [by destruct (drop i keys)|].
  destruct (lookup_lt_is_Some_2 keys i) as [k Hk]; [lia|].
  cbn [find_scalar_loop]. rewrite Hk, (drop_S _ _ _ Hk). simpl.
  destruct (k =? target); simpl.
  - by rewrite Nat.add_0_r.
  - rewrite IH by lia. destruct (first_index _ _) as [j|]; simpl; [|done].
    by rewrite Nat.add_succ_r.
Qed.

(** A mask of [s] low bits keeps the first fields of width [s] of a word. *)
Definition fields (s : Z) (v : list Z) : Z := foldr (λ b acc, b + 2 ^ s * acc) 0 v.

Lemma fields_cons s b v : fields s (b :: v) = b + 2 ^ s * fields s v.
Proof. done. Qed.

Lemma fields_range s v : 0 ≤ s → Forall (λ b, 0 ≤ b < 2 ^ s) v → 0 ≤ fields s v.
Proof.
  intros Hs. induction 1 as [|b v Hb Hv IH]; simpl; [lia|].
  pose proof (Z.pow_pos_nonneg 2 s). nia.
Qed.

Lemma fields_take s v n :
  0 < s → Forall (λ b, 0 ≤ b < 2 ^ s) v →
  Z.land (fields s v) (Z.ones (Z.of_nat n * s)) = fields s (take n v).
Proof.
  intros Hs Hv. rewrite Z.land_ones by lia. revert n.
  induction Hv as [|b v Hb Hv IH]; intros n.
  - rewrite take_nil. apply Z.mod_0_l. apply Z.pow_nonzero; lia.
  - destruct n as [|n]; [by rewrite Z.mod_1_r|].
    cbn [take]. rewrite !fields_cons, <- IH. replace (Z.of_nat (S n) * s) with (s + Z.of_nat n * s) by lia.
    rewrite Z.pow_add_r by lia.
    pose proof (Z.pow_pos_nonneg 2 s ltac:(lia) ltac:(lia)).
    pose proof (Z.pow_pos_nonneg 2 (Z.of_nat n * s) ltac:(lia) ltac:(lia)).
    rewrite Z.rem_mul_r by lia.
    replace ((b + 2 ^ s * fields s v) mod 2 ^ s) with b.
    2: { rewrite (Z.mul_comm (2 ^ s)), Z_mod_plus_full. by rewrite Z.mod_small. }
    replace ((b + 2 ^ s * fields s v) / 2 ^ s) with (fields s v); [done|].
    rewrite (Z.mul_comm (2 ^ s)), Z.div_add by lia. rewrite Z.div_small by done. lia.
Qed.

(** *** SSE: one bit per byte *)

Lemma movemask_fields keys target :
  movemask (cmpeq keys (replicate (length keys) target)) =
  fields 1 ((λ k, Z.b2z (k =? target)) <$> keys).
Proof.
  induction keys as [|k keys IH]; [done|].
  simpl. unfold cmpeq, movemask in *. rewrite IH. by destruct (k =? target).
Qed.

Lemma bits_first keys target n :
  (length keys ≤ n)%nat →
  let x := fields 1 ((λ k, Z.b2z (k =? target)) <$> keys) in
  (if x =? 0 then None else Some (trailing_zeros n x)) = first_index keys target.
Proof.
  revert n. induction keys as [|k keys IH]; intros n Hn; [done|]. cbv zeta in *.
  rewrite fmap_cons, fields_cons. cbn [first_index].
  set (x := fields 1 _) in *. change (2 ^ 1) with 2.
  assert (0 ≤ x) as Hx.
  { apply fields_range; [lia|]. apply Forall_fmap, Forall_true. intros j.
    simpl. destruct (j =? target); simpl; lia. }
  clearbody x.
  destruct n as [|n]; [simpl in Hn; lia|]. simpl in Hn.
  destruct (k =? target); cbn [Z.b2z trailing_zeros].
  - destruct (Z.eqb_spec (1 + 2 * x) 0); [lia|].
    by rewrite Z.odd_add, Z.odd_mul.
  - rewrite Z.add_0_l, Z.odd_mul. cbn [Z.odd andb].
    rewrite <- (IH n) by lia.
    destruct (Z.eqb_spec x 0) as [Hz|Hne]; [by rewrite Hz|].
    destruct (Z.eqb_spec (2 * x) 0); [lia|]. simpl.
    by rewrite Z.div2_div, Z.mul_comm, Z.div_mul.
Qed.

(** *** NEON: one nibble per byte *)

Lemma shrn4_fields (n : nat) keys target :
  length keys = (2 * n)%nat →
  le_u64 (shrn4 (cmpeq keys (replicate (length keys) target))) =
  fields 4 ((λ k, if k =? target then 15 else 0) <$> keys).
Proof.
  revert keys. induction n as [|n IH]; intros keys Hl; [by destruct keys|].
  destruct keys as [|k [|k' keys]]; simpl in Hl; [lia|lia|].
  simpl length. cbn [replicate]. unfold cmpeq. cbn [zip_with shrn4].
  rewrite !fmap_cons, !fields_cons, <- (IH keys) by lia. unfold cmpeq, le_u64. cbn [foldr].
  set (y := foldr _ _ _). destruct (k =? target), (k' =? target); 
    match goal with |- context [wrap 8 ?t] =>
      let v := eval vm_compute in (wrap 8 t) in change (wrap 8 t) with v end;
    change (2 ^ 4) with 16; lia.
Qed.

Lemma nibbles_first keys target n :
  (4 * length keys ≤ n)%nat →
  let x := fields 4 ((λ k, if k =? target then 15 else 0) <$> keys) in
  (if x =? 0 then None else Some (trailing_zeros n x / 4)%nat) = first_index keys target.
Proof.
  revert n. induction keys as [|k keys IH]; intros n Hn; [done|]. cbv zeta in *.
  rewrite fmap_cons, fields_cons. cbn [first_index].
  set (x := fields 4 _) in *. change (2 ^ 4) with 16.
  assert (0 ≤ x) as Hx.
  { apply fields_range; [lia|]. apply Forall_fmap, Forall_true. intros j.
    simpl. destruct (j =? target); lia. }
  clearbody x.
  simpl in Hn. do 4 (destruct n as [|n]; [lia|]).
  destruct (k =? target).
  - destruct (Z.eqb_spec (15 + 16 * x) 0); [lia|]. cbn [trailing_zeros].
    by rewrite Z.odd_add, Z.odd_mul.
  - rewrite Z.add_0_l. rewrite <- (IH n) by lia.
    destruct (Z.eqb_spec x 0) as [Hz|Hne]; [by rewrite Hz|].
    destruct (Z.eqb_spec (16 * x) 0); [lia|]. cbn [fmap option_fmap option_map].
    assert (∀ y, Z.odd (2 * y) = false ∧ Z.div2 (2 * y) = y) as Hdbl.
    { intros y. rewrite Z.odd_mul, Z.div2_div, Z.mul_comm, Z.div_mul by lia. done. }
    replace (16 * x) with (2 * (2 * (2 * (2 * x)))) by lia. cbn [trailing_zeros].
    do 4 (rewrite (proj1 (Hdbl _)), (proj2 (Hdbl _))). f_equal.
    replace (S (S (S (S (trailing_zeros n x))))) with (1 * 4 + trailing_zeros n x)%nat by lia.
    by rewrite Nat.div_add_l.
Qed.

Lemma first_index_lt keys target i : first_index keys target = Some i → (i < length keys)%nat.
Proof.
  revert i. induction keys as [|k keys IH]; intros i; cbn; [done|].
  destruct (k =? target); [intros [= <-]; lia|]. intros (j & Hj & ->)%fmap_Some. apply IH in Hj. lia.
Qed.

(** ** Theorems *)

Lemma simd_find_child_first arch keys target count :
  length keys = 16%nat → 0 ≤ count ≤ 16 → arch ≠ AArch64 →
  simd_find_child arch keys target count =
  Some (first_index (take (Z.to_nat count) keys) target).
Proof.
  intros Hl Hc Harch. unfold simd_find_child.
  destruct (Z.eqb_spec count 0) as [->|Hne]; [done|].
  assert (find_scalar keys target count = Some (first_index (take (Z.to_nat count) keys) target)) as Hs.
  { unfold find_scalar. rewrite find_scalar_loop_spec by lia. rewrite drop_0.
    by destruct (first_index _ _). }
  assert (find_sse4_1 keys target count = Some (first_index (take (Z.to_nat count) keys) target)) as Hv.
  { unfold find_sse4_1, checked_shl1, splat. rewrite <- Hl, movemask_fields.
    rewrite (proj2 (Z.ltb_lt count 32)) by lia. cbn [mbind option_bind].
    rewrite wrap_small.
    2: { rewrite Z.shiftl_1_l. split; [lia|]. apply Z.pow_lt_mono_r; lia. }
    replace (Z.shiftl 1 count - 1) with (Z.ones (Z.of_nat (Z.to_nat count) * 1))
      by (rewrite Z.ones_equiv, Z.shiftl_1_l, Z2Nat.id, ?Z.mul_1_r by lia; lia).
    rewrite fields_take; [|lia|].
    - rewrite <- fmap_take. f_equal. apply bits_first. rewrite length_take. lia.
    - apply Forall_fmap, Forall_true. intros j. simpl. destruct (j =? target); simpl; lia. }
  destruct arch as [[] []| |]; done.
Qed.

(** C37: on a [Node16] with [count] keys (1 to 16), every x86-64 and scalar path
    of [simd_find_child] returns the first index below [count] whose key is
    the target byte, and none otherwise; nothing panics. *)
Theorem simd_find_child_spec arch keys target count :
  length keys = 16%nat → 0 ≤ count ≤ 16 → arch ≠ AArch64 →
  simd_find_child arch keys target count =
  Some (first_index (take (Z.to_nat count) keys) target).
Proof. apply simd_find_child_first. Qed.

(** The NEON path agrees with them as long as the node is not full: for
    [count] below 16 it returns the first matching index. *)
Theorem neon_find_child_spec keys target count :
  length keys = 16%nat → 0 < count < 16 →
  simd_find_child AArch64 keys target count =
  Some (first_index (take (Z.to_nat count) keys) target).
Proof.
  intros Hl Hc. unfold simd_find_child. destruct (Z.eqb_spec count 0); [lia|].
  unfold find_neon, checked_shl1, splat. rewrite <- Hl, (shrn4_fields 8) by done.
  rewrite (proj2 (Z.ltb_lt _ _)) by lia. cbn [mbind option_bind].
  rewrite wrap_small.
  2: { rewrite Z.shiftl_1_l. split; [lia|]. apply Z.pow_lt_mono_r; lia. }
  replace (Z.shiftl 1 (count * 4) - 1) with (Z.ones (Z.of_nat (Z.to_nat count) * 4))
    by (rewrite Z.ones_equiv, Z.shiftl_1_l, Z2Nat.id, ?Z.mul_1_r by lia; lia).
  rewrite fields_take; [|lia|].
  - rewrite <- fmap_take. f_equal. apply nibbles_first. rewrite length_take. lia.
  - apply Forall_fmap, Forall_true. intros j. simpl. destruct (j =? target); lia.
Qed.

(** On a full node (16 keys) the NEON path shifts by 64: a debug build
    panics, and a release build, which reduces the shift modulo 64, misses
    every key. *)
Theorem neon_full_node_misses keys target :
  simd_find_child AArch64 keys target 16 = None ∧
  find_neon_release keys target 16 = None.
Proof.
  split; [done|]. unfold find_neon_release.
  change (wrap 64 (Z.shiftl 1 (16 * 4 mod 64)) - 1) with 0. by rewrite Z.land_0_r.
Qed.

(** The C entry point loses nothing in its byte: on x86-64 and on the scalar
    path its answer is not negative exactly when a key matches, and is then
    the first index that does. *)
Theorem node16_simd_find_spec arch keys target count :
  length keys = 16%nat → 0 ≤ count ≤ 16 → arch ≠ AArch64 →
  ∃ r, node16_simd_find arch keys target count = Some r ∧
    (r = -1 ∧ first_index (take (Z.to_nat count) keys) target = None ∨
     0 ≤ r < count ∧ first_index (take (Z.to_nat count) keys) target = Some (Z.to_nat r)).
Proof.
  intros Hl Hc Ha. unfold node16_simd_find. rewrite simd_find_child_first by done.
  destruct (first_index _ _) as [i|] eqn:Hi; [|eexists; split; [done|by left]].
  apply first_index_lt in Hi as Hlt. rewrite length_take in Hlt.
  exists (Z.of_nat i). assert (as_i8 (Z.of_nat i) = Z.of_nat i) as ->.
  { unfold as_i8. cbv zeta. rewrite wrap_small by (unfold in_width; lia). by rewrite (proj2 (Z.ltb_lt _ _)) by lia. }
  split; [done|]. right. split; [lia|]. by rewrite Nat2Z.id.
Qed.
