(* ===== verification/ArtNode.v ===== *)
(** * Nodes of the adaptive radix tree (engine/src/art/mod.rs)

    The five node layouts of [NodeBox] and the operations on the children of
    one node: [find_child], [add_child] with its growth 4 -> 16 -> 48 -> 256,
    [remove_child] with the way back, and [update_child] of art/tree.rs.
    Raw pointers are options of locations, [None] being null; the fixed-size
    arrays are lists, and an index outside of them is a panic ([None]). *)

From S2P Require Import Prelude Addr Node Simd.

Local Open Scope Z_scope.

(** ** Arrays and loops *)

(** [*mut ()] *)
Abbreviation ptr := (option loc).

(** [a[i] = x] with the bounds check. *)
Definition store {A} (a : list A) (i : nat) (x : A) : option (list A) :=
  if (i <? length a)%nat then Some (<[i := x]> a) else None.

(** [for i in lo..lo+n { body }] over the variables [s] the body assigns. *)
Fixpoint for_range {S} (lo n : nat) (body : nat → S → option S) (s : S) : option S :=
  match n with
  | O => Some s
  | Datatypes.S n' => s' ← body lo s; for_range (Datatypes.S lo) n' body s'
  end.

(** The build the code runs in: with overflow checks or without, and the
    instruction set [simd_find_child] finds. *)
Inductive profile := Debug | Release.

Record build := mkBuild { b_profile : profile; b_arch : target_arch }.

(** [x += 1] and [x -= 1] on a [u8]. *)
Definition u8_arith (bd : build) (x : Z) : option Z :=
  match b_profile bd with Debug => checked 8 x | Release => Some (wrap 8 x) end.

(** ** Layouts *)

Inductive NodeType := TNode4 | TNode16 | TNode48 | TNode256 | TLeaf.

Record Header := mkHeader {
  h_node_type : NodeType;
  h_num_children : Z;    (* u8 *)
  h_prefix_len : Z;      (* u8 *)
  h_prefix : list Z;     (* [u8; 8] *)
}.

Record Node4 := mkNode4 { n4_header : Header; n4_keys : list Z; n4_children : list ptr }.
Record Node16 := mkNode16 { n16_header : Header; n16_keys : list Z; n16_children : list ptr }.
Record Node48 := mkNode48 { n48_header : Header; n48_index : list Z; n48_children : list ptr }.
Record Node256 := mkNode256 { n256_header : Header; n256_children : list ptr }.

Record LeafNode := mkLeaf {
  leaf_value : ptr;
  leaf_prefix_len : Z;         (* u8 *)
  leaf_masked_key : list Z;    (* [u8; 16] *)
}.

Inductive NodeBox :=
  | N4 (n : Node4) | N16 (n : Node16) | N48 (n : Node48) | N256 (n : Node256) | Leaf (l : LeafNode).

Definition Node4_default : Node4 :=
  mkNode4 (mkHeader TNode4 0 0 (replicate 8 0)) (replicate 4 0) (replicate 4 None).

Definition retype (h : Header) (t : NodeType) : Header :=
  mkHeader t (h_num_children h) (h_prefix_len h) (h_prefix h).
Definition recount (h : Header) (c : Z) : Header :=
  mkHeader (h_node_type h) c (h_prefix_len h) (h_prefix h).

(** [header.num_children as usize] *)
Definition count (h : Header) : nat := Z.to_nat (h_num_children h).

Definition node_type (n : NodeBox) : NodeType :=
  match n with
  | N4 _ => TNode4 | N16 _ => TNode16 | N48 _ => TNode48 | N256 _ => TNode256 | Leaf _ => TLeaf
  end.

Definition is_empty (n : NodeBox) : bool :=
  match n with
  | N4 n => h_num_children (n4_header n) =? 0
  | N16 n => h_num_children (n16_header n) =? 0
  | N48 n => h_num_children (n48_header n) =? 0
  | N256 n => h_num_children (n256_header n) =? 0
  | Leaf _ => false
  end.

Definition is_full (n : NodeBox) : bool :=
  match n with
  | N4 n => 4 <=? h_num_children (n4_header n)
  | N16 n => 16 <=? h_num_children (n16_header n)
  | N48 n => 48 <=? h_num_children (n48_header n)
  | N256 n => 255 <=? h_num_children (n256_header n)
  | Leaf _ => true
  end.

Definition max_children (n : NodeBox) : Z :=
  match n with N4 _ => 4 | N16 _ => 16 | N48 _ => 48 | N256 _ => 256 | Leaf _ => 0 end.

Definition min_children (n : NodeBox) : Z :=
  match n with N4 _ => 1 | N16 _ => 4 | N48 _ => 17 | N256 _ => 49 | Leaf _ => 0 end.

(** [LeafNode::matches]: the loop over the full bytes, then the boundary byte. *)
Fixpoint bytes_match (ip mk : list Z) (i n : nat) : option bool :=
  match n with
  | O => Some true
  | S n' =>
      x ← ip !! i; y ← mk !! i;
      if x =? y then bytes_match ip mk (S i) n' else Some false
  end.

(** [0xFF_u8 << (8 - remain_bits)] for [0 < remain_bits < 8]. *)
Definition high_mask (remain_bits : Z) : Z := wrap 8 (Z.shiftl 255 (8 - remain_bits)).

Definition leaf_matches (l : LeafNode) (ip : list Z) : option bool :=
  let full_bytes := Z.to_nat (leaf_prefix_len l / 8) in
  let remain_bits := leaf_prefix_len l mod 8 in
  ok ← bytes_match ip (leaf_masked_key l) 0 (full_bytes `min` length ip);
  if negb ok then Some false else
  if ((0 <? remain_bits) && (full_bytes <? length ip)%nat)%bool then
    let mask := high_mask remain_bits in
    x ← ip !! full_bytes; y ← leaf_masked_key l !! full_bytes;
    Some (Z.land x mask =? Z.land y mask)
  else Some true.

(** ** find_child *)

(** [node16_simd::simd_find_child(&n.keys, byte, count)] *)
Definition node16_search (bd : build) (keys : list Z) (byte cnt : Z) : option (option nat) :=
  match b_profile bd, b_arch bd with
  | Release, AArch64 => Some (if cnt =? 0 then None else find_neon_release keys byte cnt)
  | _, arch => simd_find_child arch keys byte cnt
  end.

(** The outer option is a panic, the next one the [Option] that is returned. *)
Definition find_child (bd : build) (n : NodeBox) (byte : Z) : option (option ptr) :=
  match n with
  | N4 n =>
      i ← find_scalar_loop (n4_keys n) byte 0 (count (n4_header n));
      match i with Some i => c ← n4_children n !! i; Some (Some c) | None => Some None end
  | N16 n =>
      i ← node16_search bd (n16_keys n) byte (h_num_children (n16_header n));
      match i with Some i => c ← n16_children n !! i; Some (Some c) | None => Some None end
  | N48 n =>
      idx ← n48_index n !! Z.to_nat byte;
      if idx <? 48 then c ← n48_children n !! Z.to_nat idx; Some (Some c) else Some None
  | N256 n =>
      c ← n256_children n !! Z.to_nat byte;
      Some (if is_some c then Some c else None)
  | Leaf _ => Some None
  end.

(** ** add_child *)

Definition n256_add (bd : build) (n : Node256) (byte : Z) (child : ptr) : option NodeBox :=
  c ← n256_children n !! Z.to_nat byte;
  num ← (if is_none c then u8_arith bd (h_num_children (n256_header n) + 1)
         else Some (h_num_children (n256_header n)));
  cs ← store (n256_children n) (Z.to_nat byte) child;
  Some (N256 (mkNode256 (recount (n256_header n) num) cs)).

(** [for i in 0..256 { let idx = n.index[i]; if idx < 48 { new.children[i] = n.children[idx] } }] *)
Definition spread (index : list Z) (children : list ptr) : option (list ptr) :=
  for_range 0 256 (λ i new,
    idx ← index !! i;
    if idx <? 48 then c ← children !! Z.to_nat idx; store new i c else Some new)
    (replicate 256 None).

Definition n48_grow (n : Node48) : option Node256 :=
  cs ← spread (n48_index n) (n48_children n);
  Some (mkNode256 (retype (n48_header n) TNode256) cs).

Definition n48_add (bd : build) (n : Node48) (byte : Z) (child : ptr) : option NodeBox :=
  if 48 <=? h_num_children (n48_header n) then
    new ← n48_grow n; n256_add bd new byte child
  else
    let idx := count (n48_header n) in
    index ← store (n48_index n) (Z.to_nat byte) (wrap 8 (Z.of_nat idx));
    cs ← store (n48_children n) idx child;
    num ← u8_arith bd (h_num_children (n48_header n) + 1);
    let n' := mkNode48 (recount (n48_header n) num) index cs in
    if 45 <=? num then new ← n48_grow n'; Some (N256 new) else Some (N48 n').

(** [for i in 0..num { new.index[keys[i]] = i; new.children[i] = children[i] }] *)
Definition n16_grow (n : Node16) : option Node48 :=
  '(index, cs) ← for_range 0 (count (n16_header n)) (λ i '(index, cs),
    b ← n16_keys n !! i;
    index' ← store index (Z.to_nat b) (wrap 8 (Z.of_nat i));
    c ← n16_children n !! i;
    cs' ← store cs i c;
    Some (index', cs')) (replicate 256 48, replicate 48 None);
  Some (mkNode48 (retype (n16_header n) TNode48) index cs).

Definition n16_add (bd : build) (n : Node16) (byte : Z) (child : ptr) : option NodeBox :=
  if 16 <=? h_num_children (n16_header n) then
    new ← n16_grow n; n48_add bd new byte child
  else
    let idx := count (n16_header n) in
    keys ← store (n16_keys n) idx byte;
    cs ← store (n16_children n) idx child;
    num ← u8_arith bd (h_num_children (n16_header n) + 1);
    Some (N16 (mkNode16 (recount (n16_header n) num) keys cs)).

(** [for i in 0..num { new.keys[i] = keys[i]; new.children[i] = children[i] }] *)
Definition copy_entries (num : nat) (keys : list Z) (children : list ptr)
    (new : list Z * list ptr) : option (list Z * list ptr) :=
  for_range 0 num (λ i '(ks, cs),
    k ← keys !! i; ks' ← store ks i k;
    c ← children !! i; cs' ← store cs i c;
    Some (ks', cs')) new.

Definition n4_grow (n : Node4) : option Node16 :=
  '(keys, cs) ← copy_entries (count (n4_header n)) (n4_keys n) (n4_children n)
                  (replicate 16 0, replicate 16 None);
  Some (mkNode16 (retype (n4_header n) TNode16) keys cs).

Definition n4_add (bd : build) (n : Node4) (byte : Z) (child : ptr) : option NodeBox :=
  if 4 <=? h_num_children (n4_header n) then
    new ← n4_grow n; n16_add bd new byte child
  else
    let idx := count (n4_header n) in
    keys ← store (n4_keys n) idx byte;
    cs ← store (n4_children n) idx child;
    num ← u8_arith bd (h_num_children (n4_header n) + 1);
    Some (N4 (mkNode4 (recount (n4_header n) num) keys cs)).

Definition add_child (bd : build) (n : NodeBox) (byte : Z) (child : ptr) : option NodeBox :=
  match n with
  | N4 n => n4_add bd n byte child
  | N16 n => n16_add bd n byte child
  | N48 n => n48_add bd n byte child
  | N256 n => n256_add bd n byte child
  | Leaf l => Some (Leaf (mkLeaf child (leaf_prefix_len l) (leaf_masked_key l)))
  end.

(** ** remove_child *)

(** [for j in i..num-1 { keys[j] = keys[j+1]; children[j] = children[j+1] }] *)
Definition shift_left (i num : nat) (st : list Z * list ptr) : option (list Z * list ptr) :=
  for_range i (num - 1 - i) (λ j '(ks, cs),
    k ← ks !! S j; ks' ← store ks j k;
    c ← cs !! S j; cs' ← store cs j c;
    Some (ks', cs')) st.

Definition n4_remove (bd : build) (n : Node4) (byte : Z) : option NodeBox :=
  i ← find_scalar_loop (n4_keys n) byte 0 (count (n4_header n));
  match i with
  | Some i =>
      '(keys, cs) ← shift_left i (count (n4_header n)) (n4_keys n, n4_children n);
      num ← u8_arith bd (h_num_children (n4_header n) - 1);
      Some (N4 (mkNode4 (recount (n4_header n) num) keys cs))
  | None => Some (N4 n)
  end.

Definition n16_remove (bd : build) (n : Node16) (byte : Z) : option NodeBox :=
  i ← find_scalar_loop (n16_keys n) byte 0 (count (n16_header n));
  match i with
  | Some i =>
      '(keys, cs) ← shift_left i (count (n16_header n)) (n16_keys n, n16_children n);
      num ← u8_arith bd (h_num_children (n16_header n) - 1);
      let h := recount (n16_header n) num in
      if num <? 4 then
        '(ks, cs') ← copy_entries (Z.to_nat num) keys cs (replicate 4 0, replicate 4 None);
        Some (N4 (mkNode4 (retype h TNode4) ks cs'))
      else Some (N16 (mkNode16 h keys cs))
  | None => Some (N16 n)
  end.

(** [for i in 0..256 { if index[i] < 48 && !children[index[i]].is_null()
    { keys[k] = i; new[k] = children[index[i]]; k += 1 } }] *)
Definition n48_collect (index : list Z) (children : list ptr)
    : option (list Z * list ptr * nat) :=
  for_range 0 256 (λ i '(ks, cs, k),
    idx ← index !! i;
    if idx <? 48 then
      c ← children !! Z.to_nat idx;
      if is_some c then
        ks' ← store ks k (wrap 8 (Z.of_nat i)); cs' ← store cs k c; Some (ks', cs', S k)
      else Some (ks, cs, k)
    else Some (ks, cs, k)) (replicate 16 0, replicate 16 None, O).

Definition n48_remove (bd : build) (n : Node48) (byte : Z) : option NodeBox :=
  idx ← n48_index n !! Z.to_nat byte;
  if idx <? 48 then
    cs ← store (n48_children n) (Z.to_nat idx) None;
    index ← store (n48_index n) (Z.to_nat byte) 48;
    num ← u8_arith bd (h_num_children (n48_header n) - 1);
    let h := recount (n48_header n) num in
    if num <? 17 then
      '(ks, cs', k) ← n48_collect index cs;
      Some (N16 (mkNode16 (retype (recount h (wrap 8 (Z.of_nat k))) TNode16) ks cs'))
    else Some (N48 (mkNode48 h index cs))
  else Some (N48 n).

(** [for i in 0..256 { if !children[i].is_null() { index[i] = k; new[k] = children[i]; k += 1 } }] *)
Definition n256_collect (bd : build) (children : list ptr) : option (list Z * list ptr * Z) :=
  for_range 0 256 (λ i '(index, cs, k),
    c ← children !! i;
    if is_some c then
      index' ← store index i k; cs' ← store cs (Z.to_nat k) c;
      k' ← u8_arith bd (k + 1); Some (index', cs', k')
    else Some (index, cs, k)) (replicate 256 48, replicate 48 None, 0).

Definition n256_remove (bd : build) (n : Node256) (byte : Z) : option NodeBox :=
  c ← n256_children n !! Z.to_nat byte;
  if is_some c then
    cs ← store (n256_children n) (Z.to_nat byte) None;
    num ← u8_arith bd (h_num_children (n256_header n) - 1);
    let h := recount (n256_header n) num in
    if num <? 49 then
      '(index, cs', k) ← n256_collect bd cs;
      Some (N48 (mkNode48 (recount (retype h TNode48) k) index cs'))
    else Some (N256 (mkNode256 h cs))
  else Some (N256 n).

Definition remove_child (bd : build) (n : NodeBox) (byte : Z) : option NodeBox :=
  match n with
  | N4 n => n4_remove bd n byte
  | N16 n => n16_remove bd n byte
  | N48 n => n48_remove bd n byte
  | N256 n => n256_remove bd n byte
  | Leaf _ => Some (Leaf (mkLeaf None 0 (replicate 16 0)))
  end.

(** ** update_child (art/tree.rs) *)

Definition update_child (n : NodeBox) (byte : Z) (new_child : ptr) : option NodeBox :=
  match n with
  | N4 n =>
      i ← find_scalar_loop (n4_keys n) byte 0 (count (n4_header n));
      match i with
      | Some i => cs ← store (n4_children n) i new_child; Some (N4 (mkNode4 (n4_header n) (n4_keys n) cs))
      | None => Some (N4 n)
      end
  | N16 n =>
      i ← find_scalar_loop (n16_keys n) byte 0 (count (n16_header n));
      match i with
      | Some i => cs ← store (n16_children n) i new_child; Some (N16 (mkNode16 (n16_header n) (n16_keys n) cs))
      | None => Some (N16 n)
      end
  | N48 n =>
      idx ← n48_index n !! Z.to_nat byte;
      if idx <? 48 then
        cs ← store (n48_children n) (Z.to_nat idx) new_child;
        Some (N48 (mkNode48 (n48_header n) (n48_index n) cs))
      else Some (N48 n)
  | N256 n =>
      cs ← store (n256_children n) (Z.to_nat byte) new_child;
      Some (N256 (mkNode256 (n256_header n) cs))
  | Leaf l => Some (Leaf l)
  end.

(** ** Nodes as association lists

    [node_rep d n cs]: the inner node [n] holds the children [cs], an
    association list from bytes to locations.  In the two small layouts the
    list is the array itself, and the first entry of a byte counts; in the
    two big ones the keys are distinct and the order is immaterial.  With
    [d] a [Node48] is dense: the slots in use are below [num_children]. *)

Fixpoint assoc {A} (cs : list (Z * A)) (b : Z) : option A :=
  match cs with
  | [] => None
  | (k, x) :: cs' => if k =? b then Some x else assoc cs' b
  end.

Definition is_byte (b : Z) : Prop := 0 ≤ b < 256.

Definition array_rep (cap : nat) (h : Header) (keys : list Z) (children : list ptr)
    (cs : list (Z * loc)) : Prop :=
  length keys = cap ∧ length children = cap ∧ (length cs ≤ cap)%nat ∧
  h_num_children h = Z.of_nat (length cs) ∧
  ∀ j k l, cs !! j = Some (k, l) → keys !! j = Some k ∧ children !! j = Some (Some l).

Definition index_rep (d : bool) (h : Header) (index : list Z) (children : list ptr)
    (cs : list (Z * loc)) : Prop :=
  length index = 256%nat ∧ length children = 48%nat ∧ NoDup cs.*1 ∧
  Z.of_nat (length cs) ≤ h_num_children h ≤ 48 ∧
  (∀ b : nat, (b < 256)%nat → ∃ i, index !! b = Some i ∧
    match assoc cs (Z.of_nat b) with
    | Some l => 0 ≤ i < 48 ∧ children !! Z.to_nat i = Some (Some l) ∧ (d = true → i < h_num_children h)
    | None => i = 48
    end) ∧
  (∀ b b' i, index !! b = Some i → index !! b' = Some i → i < 48 → b = b').

Definition direct_rep (h : Header) (children : list ptr) (cs : list (Z * loc)) : Prop :=
  length children = 256%nat ∧ NoDup cs.*1 ∧ in_width 8 (h_num_children h) ∧
  ∀ b : nat, (b < 256)%nat → children !! b = Some (assoc cs (Z.of_nat b)).

Definition node_rep (d : bool) (n : NodeBox) (cs : list (Z * loc)) : Prop :=
  Forall is_byte cs.*1 ∧
  match n with
  | N4 n => array_rep 4 (n4_header n) (n4_keys n) (n4_children n) cs
  | N16 n => array_rep 16 (n16_header n) (n16_keys n) (n16_children n) cs
  | N48 n => index_rep d (n48_header n) (n48_index n) (n48_children n) cs
  | N256 n => direct_rep (n256_header n) (n256_children n) cs
  | Leaf _ => False
  end.

Definition is_big (n : NodeBox) : bool := match n with N48 _ | N256 _ => true | _ => false end.

(** [num_children] of a big node is the number of its children (modulo 256). *)
Definition counted (n : NodeBox) (cs : list (Z * loc)) : Prop :=
  match n with
  | N48 n => h_num_children (n48_header n) = Z.of_nat (length cs)
  | N256 n => h_num_children (n256_header n) = wrap 8 (Z.of_nat (length cs))
  | _ => True
  end.

(** Growing out of an array keeps the last entry of every byte. *)
Fixpoint keep_last {A} (cs : list (Z * A)) : list (Z * A) :=
  match cs with
  | [] => []
  | (k, x) :: cs' => if is_some (assoc cs' k) then keep_last cs' else (k, x) :: keep_last cs'
  end.

(** What [add_child] does to the list first: a full [Node16] becomes big. *)
Definition grows {A} (big : bool) (cs : list (Z * A)) : bool := (big || (length cs =? 16)%nat)%bool.
Definition grown {A} (big : bool) (cs : list (Z * A)) : list (Z * A) :=
  if (negb big && (length cs =? 16)%nat)%bool then keep_last cs else cs.

(** The first entry of a byte replaced, and removed. *)
Fixpoint assoc_set {A} (cs : list (Z * A)) (b : Z) (x : A) : list (Z * A) :=
  match cs with
  | [] => []
  | (k, y) :: cs' => if k =? b then (k, x) :: cs' else (k, y) :: assoc_set cs' b x
  end.
Fixpoint assoc_del {A} (cs : list (Z * A)) (b : Z) : list (Z * A) :=
  match cs with
  | [] => []
  | (k, y) :: cs' => if k =? b then cs' else (k, y) :: assoc_del cs' b
  end.

(** *** Association lists *)

Lemma assoc_first_index {A} (cs : list (Z * A)) b :
  assoc cs b = i ← first_index cs.*1 b; cs.*2 !! i.
Proof.
  induction cs as [|[k x] cs IH]; csimpl; [done|]. destruct (k =? b); [done|].
  rewrite IH. by destruct (first_index cs.*1 b).
Qed.

Lemma first_index_Some (ks : list Z) b i :
  first_index ks b = Some i ↔ ks !! i = Some b ∧ (∀ j, (j < i)%nat → ks !! j ≠ Some b).
Proof.
  revert i. induction ks as [|k ks IH]; intros i; csimpl; [by rewrite lookup_nil; split; [|intros [? _]]|].
  destruct (Z.eqb_spec k b) as [->|Hne].
  - split; [intros [= <-]; split; [done|lia]|]. intros [Hi Hlt].
    destruct i as [|i]; [done|]. by destruct (Hlt O ltac:(lia)).
  - rewrite fmap_Some. split.
    + intros (j & Hj%IH & ->). destruct Hj as [Hj Hlt]. split; [done|].
      intros [|j'] Hj'; csimpl; [congruence|]. apply Hlt. lia.
    + intros [Hi Hlt]. destruct i as [|i]; [csimpl in Hi; congruence|].
      exists i. split; [|done]. apply IH. split; [done|]. intros j Hj. apply (Hlt (S j)). lia.
Qed.

Lemma assoc_None {A} (cs : list (Z * A)) b : assoc cs b = None ↔ b ∉ cs.*1.
Proof.
  induction cs as [|[k x] cs IH]; csimpl; [set_solver|].
  destruct (Z.eqb_spec k b) as [->|Hne]; [set_solver|]. rewrite IH. set_solver.
Qed.

Lemma assoc_elem {A} (cs : list (Z * A)) b x : assoc cs b = Some x → (b, x) ∈ cs.
Proof.
  induction cs as [|[k y] cs IH]; csimpl; [done|].
  destruct (Z.eqb_spec k b) as [->|Hne]; [intros [= ->]; set_solver|]. intros ?. set_solver.
Qed.

Lemma assoc_nodup {A} (cs : list (Z * A)) b x : NoDup cs.*1 → assoc cs b = Some x ↔ (b, x) ∈ cs.
Proof.
  intros Hnd. split; [apply assoc_elem|]. induction cs as [|[k y] cs IH]; csimpl; [set_solver|].
  apply NoDup_cons in Hnd as [Hk Hnd]. rewrite elem_of_cons. intros [[= -> ->]|Hin].
  - by rewrite Z.eqb_refl.
  - destruct (Z.eqb_spec k b) as [->|Hne]; [|by apply IH].
    destruct Hk. apply list_elem_of_fmap. by exists (b, x).
Qed.

Lemma assoc_app {A} (cs cs' : list (Z * A)) b :
  assoc (cs ++ cs') b = match assoc cs b with Some x => Some x | None => assoc cs' b end.
Proof. induction cs as [|[k x] cs IH]; csimpl; [done|]. by destruct (k =? b). Qed.

Lemma assoc_perm {A} (cs cs' : list (Z * A)) b :
  NoDup cs.*1 → cs ≡ₚ cs' → assoc cs b = assoc cs' b.
Proof.
  intros Hnd Hp. assert (NoDup cs'.*1) as Hnd' by (by rewrite <- Hp).
  destruct (assoc cs b) as [x|] eqn:E.
  - symmetry. apply (assoc_nodup _ _ _ Hnd'). rewrite <- Hp. by apply assoc_elem.
  - symmetry. apply assoc_None. rewrite <- Hp. by apply assoc_None.
Qed.

Lemma keep_last_keys {A} (cs : list (Z * A)) b : b ∈ (keep_last cs).*1 ↔ b ∈ cs.*1.
Proof.
  induction cs as [|[k x] cs IH]; csimpl; [done|].
  destruct (assoc cs k) eqn:E; csimpl.
  - rewrite IH, elem_of_cons. split; [by right|]. intros [->|?]; [|done].
    apply assoc_elem in E. apply list_elem_of_fmap. by eexists (_, _).
  - rewrite !elem_of_cons, IH. done.
Qed.

Lemma keep_last_nodup {A} (cs : list (Z * A)) : NoDup (keep_last cs).*1.
Proof.
  induction cs as [|[k x] cs IH]; csimpl; [constructor|].
  destruct (assoc cs k) eqn:E; csimpl; [done|]. constructor; [|done].
  rewrite keep_last_keys. by apply assoc_None.
Qed.

Lemma keep_last_sublist {A} (cs : list (Z * A)) : keep_last cs `sublist_of` cs.
Proof.
  induction cs as [|[k x] cs IH]; csimpl; [done|].
  destruct (assoc cs k); csimpl; by constructor.
Qed.

Lemma keep_last_id {A} (cs : list (Z * A)) : NoDup cs.*1 → keep_last cs = cs.
Proof.
  induction cs as [|[k x] cs IH]; csimpl; [done|]. intros [Hk Hnd]%NoDup_cons.
  apply assoc_None in Hk. rewrite Hk. csimpl. by rewrite IH.
Qed.

(** The last entry of a byte, read from the right. *)
Lemma assoc_keep_last_snoc {A} (cs : list (Z * A)) k x b :
  assoc (keep_last (cs ++ [(k, x)])) b = if k =? b then Some x else assoc (keep_last cs) b.
Proof.
  induction cs as [|[k' x'] cs IH]; csimpl; [by destruct (k =? b)|].
  rewrite assoc_app. csimpl.
  destruct (assoc cs k') as [y|] eqn:E; csimpl; [done|].
  destruct (Z.eqb_spec k k') as [->|Hne]; csimpl.
  - rewrite IH. destruct (Z.eqb_spec k' b) as [->|]; [done|]. done.
  - destruct (Z.eqb_spec k' b) as [->|]; [|done]. destruct (Z.eqb_spec k b); [congruence|done].
Qed.

Lemma assoc_set_keys {A} (cs : list (Z * A)) b x : (assoc_set cs b x).*1 = cs.*1.
Proof. induction cs as [|[k y] cs IH]; csimpl; [done|]. destruct (k =? b); csimpl; congruence. Qed.

Lemma assoc_set_index {A} (cs : list (Z * A)) b x i :
  first_index cs.*1 b = Some i → assoc_set cs b x = <[i := (b, x)]> cs.
Proof.
  revert i. induction cs as [|[k y] cs IH]; intros i; csimpl; [done|].
  destruct (Z.eqb_spec k b) as [->|Hne]; [by intros [= <-]|].
  intros (j & Hj & ->)%fmap_Some. simpl. by rewrite (IH _ Hj).
Qed.

Lemma assoc_set_lookup {A} (cs : list (Z * A)) b x b' :
  is_Some (assoc cs b) → assoc (assoc_set cs b x) b' = if b =? b' then Some x else assoc cs b'.
Proof.
  induction cs as [|[k y] cs IH]; csimpl; [by intros [? ?]|].
  destruct (Z.eqb_spec k b) as [->|Hne]; csimpl; [by destruct (b =? b')|].
  intros Hs. rewrite (IH Hs). destruct (Z.eqb_spec k b') as [->|]; [|done].
  destruct (Z.eqb_spec b b'); [congruence|done].
Qed.

Lemma assoc_del_index {A} (cs : list (Z * A)) b :
  assoc_del cs b = match first_index cs.*1 b with Some i => delete i cs | None => cs end.
Proof.
  induction cs as [|[k y] cs IH]; csimpl; [done|]. destruct (k =? b); [done|].
  rewrite IH. by destruct (first_index cs.*1 b).
Qed.

Lemma assoc_del_sublist {A} (cs : list (Z * A)) b : assoc_del cs b `sublist_of` cs.
Proof.
  induction cs as [|[k y] cs IH]; csimpl; [done|]. destruct (k =? b); by constructor.
Qed.

Lemma assoc_del_nodup {A} (cs : list (Z * A)) b : NoDup cs.*1 → NoDup (assoc_del cs b).*1.
Proof. intros Hnd. eapply sublist_NoDup; [exact Hnd|]. apply fmap_sublist, assoc_del_sublist. Qed.

Lemma assoc_del_lookup {A} (cs : list (Z * A)) b b' :
  NoDup cs.*1 → assoc (assoc_del cs b) b' = if b =? b' then None else assoc cs b'.
Proof.
  induction cs as [|[k y] cs IH]; csimpl; [by destruct (b =? b')|]. intros [Hk Hnd]%NoDup_cons.
  destruct (Z.eqb_spec k b) as [->|Hne]; csimpl.
  - destruct (Z.eqb_spec b b') as [Heq|]; [|done]. rewrite <- Heq. by apply assoc_None.
  - rewrite (IH Hnd). destruct (Z.eqb_spec k b') as [->|]; [|done].
    destruct (Z.eqb_spec b b'); [congruence|done].
Qed.

Lemma assoc_del_length {A} (cs : list (Z * A)) b :
  is_Some (assoc cs b) → length cs = S (length (assoc_del cs b)).
Proof.
  induction cs as [|[k y] cs IH]; csimpl; [by intros [? ?]|].
  destruct (k =? b); csimpl; [done|]. intros Hs. by rewrite (IH Hs).
Qed.

(** The children in the order of their bytes, up to byte [j]. *)
Definition ordered {A} (cs : list (Z * A)) (j : nat) : list (Z * A) :=
  omap (λ b, (λ x, (Z.of_nat b, x)) <$> assoc cs (Z.of_nat b)) (seq 0 j).

Lemma ordered_S {A} (cs : list (Z * A)) j :
  ordered cs (S j) = ordered cs j ++
    match assoc cs (Z.of_nat j) with Some x => [(Z.of_nat j, x)] | None => [] end.
Proof.
  unfold ordered. rewrite seq_S, omap_app. f_equal. simpl. by destruct (assoc cs (Z.of_nat j)).
Qed.

Lemma elem_of_ordered {A} (cs : list (Z * A)) j b x :
  (b, x) ∈ ordered cs j ↔ assoc cs b = Some x ∧ 0 ≤ b < Z.of_nat j.
Proof.
  unfold ordered. rewrite list_elem_of_omap. split.
  - intros (i & Hi%elem_of_seq & (y & Hy & [= -> ->])%fmap_Some). split; [done|lia].
  - intros [Hx Hb]. exists (Z.to_nat b). rewrite Z2Nat.id, Hx, elem_of_seq by lia. split; [lia|done].
Qed.

Lemma ordered_nodup {A} (cs : list (Z * A)) j : NoDup (ordered cs j).*1.
Proof.
  induction j as [|j IH]; [constructor|]. rewrite ordered_S.
  destruct (assoc cs (Z.of_nat j)) as [x|]; [|by rewrite app_nil_r].
  rewrite fmap_app. apply NoDup_app. split_and!; [done| |csimpl; apply NoDup_singleton].
  intros b ([b' y] & -> & [_ Hb]%elem_of_ordered)%list_elem_of_fmap. csimpl.
  intros ->%list_elem_of_singleton. lia.
Qed.

Lemma ordered_perm {A} (cs : list (Z * A)) :
  NoDup cs.*1 → Forall is_byte cs.*1 → ordered cs 256 ≡ₚ cs.
Proof.
  intros Hnd Hby. apply NoDup_Permutation.
  - eapply NoDup_fmap_1, ordered_nodup.
  - by eapply NoDup_fmap_1.
  - intros [b x]. rewrite elem_of_ordered, (assoc_nodup _ _ _ Hnd). split; [by intros [? _]|].
    intros Hin. split; [done|]. change (is_byte b). eapply Forall_forall; [exact Hby|].
    apply list_elem_of_fmap. by exists (b, x).
Qed.

Lemma ordered_length {A} (cs : list (Z * A)) j : (length (ordered cs j) ≤ length cs)%nat.
Proof.
  apply submseteq_length, NoDup_submseteq; [eapply NoDup_fmap_1, ordered_nodup|].
  intros [b x] [Hx _]%elem_of_ordered. by apply assoc_elem.
Qed.

Lemma ordered_assoc {A} (cs : list (Z * A)) j (b : nat) :
  assoc (ordered cs j) (Z.of_nat b) = if (b <? j)%nat then assoc cs (Z.of_nat b) else None.
Proof.
  destruct (assoc (ordered cs j) (Z.of_nat b)) as [x|] eqn:E.
  - apply assoc_elem, elem_of_ordered in E as [E Hb]. by rewrite (proj2 (Nat.ltb_lt _ _)), E by lia.
  - destruct (Nat.ltb_spec b j) as [Hb|]; [|done].
    destruct (assoc cs (Z.of_nat b)) as [x|] eqn:Ex; [|done].
    apply assoc_None in E. destruct E. apply list_elem_of_fmap. exists (Z.of_nat b, x).
    split; [done|]. apply elem_of_ordered. split; [done|lia].
Qed.

(** *** Loops *)

Lemma store_ok {A} (a : list A) i x : (i < length a)%nat → store a i x = Some (<[i := x]> a).
Proof. intros Hi. unfold store. by rewrite (proj2 (Nat.ltb_lt _ _) Hi). Qed.

Lemma for_range_inv {S} (P : nat → S → Prop) (body : nat → S → option S) (n : nat) :
  ∀ lo s, P lo s →
  (∀ i s, (lo ≤ i < lo + n)%nat → P i s → ∃ s', body i s = Some s' ∧ P (Datatypes.S i) s') →
  ∃ s', for_range lo n body s = Some s' ∧ P (lo + n)%nat s'.
Proof.
  induction n as [|n IH]; intros lo s Hs Hstep; simpl.
  - exists s. by rewrite Nat.add_0_r.
  - destruct (Hstep lo s ltac:(lia) Hs) as (s' & -> & Hs'). simpl.
    destruct (IH (Datatypes.S lo) s' Hs') as (s'' & -> & Hs''); [intros i t Hi; apply Hstep; lia|].
    exists s''. by rewrite <- Nat.add_succ_comm.
Qed.

(** The first [j] elements of [new] are those of [old]. *)
Definition copied {A} (old : list A) (cap j : nat) (new : list A) : Prop :=
  length new = cap ∧ ∀ i, (i < j)%nat → new !! i = old !! i.

Lemma copied_step {A} (old new : list A) cap j x :
  copied old cap j new → (j < cap)%nat → old !! j = Some x → copied old cap (S j) (<[j := x]> new).
Proof.
  intros [Hl Hc] Hj Hx. split; [by rewrite length_insert|]. intros i Hi.
  destruct (decide (i = j)) as [->|Hne].
  - by rewrite list_lookup_insert_eq by lia.
  - rewrite list_lookup_insert_ne by done. apply Hc. lia.
Qed.

Lemma copy_entries_spec num keys children ks0 (cs0 : list ptr) cap :
  (num ≤ length keys)%nat → (num ≤ length children)%nat → (num ≤ cap)%nat →
  length ks0 = cap → length cs0 = cap →
  ∃ ks cs, copy_entries num keys children (ks0, cs0) = Some (ks, cs) ∧
    copied keys cap num ks ∧ copied children cap num cs.
Proof.
  intros Hk Hc Hcap Hl1 Hl2. unfold copy_entries.
  destruct (for_range_inv (λ j s, copied keys cap j s.1 ∧ copied children cap j s.2)
    (λ i '(ks, cs), k ← keys !! i; ks' ← store ks i k; c ← children !! i; cs' ← store cs i c;
       Some (ks', cs')) num 0 (ks0, cs0)) as ([ks cs] & -> & [H1 H2]).
  - split; (split; [done|lia]).
  - intros i [ks cs] Hi [H1 H2]. simpl in *.
    destruct (lookup_lt_is_Some_2 keys i) as [k Hki]; [lia|].
    destruct (lookup_lt_is_Some_2 children i) as [c Hci]; [lia|].
    rewrite Hki, Hci. simpl. rewrite (store_ok ks) by (rewrite (proj1 H1); lia). simpl.
    rewrite (store_ok cs) by (rewrite (proj1 H2); lia). eexists. split; [done|].
    split; apply copied_step; done || lia.
  - eauto.
Qed.

(** Moving the elements after [i] one to the left, up to position [j]. *)
Definition shifted {A} (old : list A) (i j : nat) (new : list A) : Prop :=
  length new = length old ∧
  ∀ x, new !! x = if decide (i ≤ x < j)%nat then old !! S x else old !! x.

Lemma shifted_step {A} (old new : list A) i j x :
  (i ≤ j)%nat → shifted old i j new → old !! S j = Some x →
  new !! S j = Some x ∧ shifted old i (S j) (<[j := x]> new).
Proof.
  intros Hij [Hl Hs] Hx. split; [by rewrite Hs, decide_False by lia|].
  split; [by rewrite length_insert|]. intros y.
  pose proof (lookup_lt_Some _ _ _ Hx). destruct (decide (y = j)) as [->|Hne].
  - rewrite list_lookup_insert_eq by lia. by rewrite decide_True by lia.
  - rewrite list_lookup_insert_ne, Hs by done. repeat case_decide; done || lia.
Qed.

Lemma shift_left_spec i num keys (children : list ptr) :
  (i < num)%nat → (num ≤ length keys)%nat → (num ≤ length children)%nat →
  ∃ ks cs, shift_left i num (keys, children) = Some (ks, cs) ∧
    shifted keys i (num - 1) ks ∧ shifted children i (num - 1) cs.
Proof.
  intros Hi Hk Hc. unfold shift_left.
  destruct (for_range_inv (λ j s, shifted keys i j s.1 ∧ shifted children i j s.2)
    (λ j '(ks, cs), k ← ks !! S j; ks' ← store ks j k; c ← cs !! S j; cs' ← store cs j c;
       Some (ks', cs')) (num - 1 - i) i (keys, children)) as ([ks cs] & -> & [H1 H2]).
  - split; (split; [done|]); intros x; by rewrite decide_False by lia.
  - intros j [ks cs] Hj [H1 H2]. simpl in *.
    destruct (lookup_lt_is_Some_2 keys (S j)) as [k Hkj]; [lia|].
    destruct (lookup_lt_is_Some_2 children (S j)) as [c Hcj]; [lia|].
    destruct (shifted_step keys ks i j k ltac:(lia) H1 Hkj) as [-> H1'].
    destruct (shifted_step children cs i j c ltac:(lia) H2 Hcj) as [-> H2']. simpl.
    rewrite (store_ok ks) by (rewrite (proj1 H1); lia). simpl.
    rewrite (store_ok cs) by (rewrite (proj1 H2); lia). eexists. split; [done|]. done.
  - exists ks, cs. replace (i + (num - 1 - i))%nat with (num - 1)%nat in * by lia. done.
Qed.

(** ** The layouts, one by one *)

Lemma u8_arith_ok bd x : in_width 8 x → u8_arith bd x = Some x.
Proof.
  intros Hx. unfold u8_arith. destruct (b_profile bd); [by apply checked_Some|by rewrite wrap_small].
Qed.

Section layouts.
Implicit Types (cs : list (Z * loc)) (h : Header).

(** *** Arrays *)

Lemma array_keys cap h keys children cs :
  array_rep cap h keys children cs → take (count h) keys = cs.*1.
Proof.
  intros (Hk & Hc & Hcap & Hnum & Hat). unfold count. rewrite Hnum, Nat2Z.id.
  apply list_eq. intros j. rewrite list_lookup_fmap. destruct (cs !! j) as [[k l]|] eqn:E; simpl.
  - rewrite lookup_take_lt by (by eapply lookup_lt_Some). by apply (Hat _ _ _ E).
  - apply lookup_take_ge. by apply lookup_ge_None.
Qed.

Lemma array_find cap h keys children cs b :
  array_rep cap h keys children cs →
  find_scalar_loop keys b 0 (count h) = Some (first_index cs.*1 b).
Proof.
  intros Hr. rewrite find_scalar_loop_spec.
  - rewrite drop_0, (array_keys _ _ _ _ _ Hr). by destruct (first_index cs.*1 b).
  - destruct Hr as (Hk & _ & Hcap & Hnum & _). unfold count. lia.
Qed.

Lemma array_child cap h keys children cs b i :
  array_rep cap h keys children cs → first_index cs.*1 b = Some i →
  ∃ l, cs !! i = Some (b, l) ∧ children !! i = Some (Some l) ∧ assoc cs b = Some l.
Proof.
  intros (_ & _ & _ & _ & Hat) Hi. pose proof Hi as [Hk _]%first_index_Some.
  rewrite list_lookup_fmap in Hk. destruct (cs !! i) as [[k l]|] eqn:E; [|done]. injection Hk as ->.
  exists l. split_and!; [done|by apply (Hat _ _ _ E)|]. rewrite assoc_first_index, Hi. simpl.
  by rewrite list_lookup_fmap, E.
Qed.

Lemma array_absent {A} (cs : list (Z * A)) b : first_index cs.*1 b = None → assoc cs b = None.
Proof. rewrite assoc_first_index. by intros ->. Qed.

Lemma array_snoc cap h keys children cs b l :
  array_rep cap h keys children cs → (length cs < cap)%nat →
  array_rep cap (recount h (h_num_children h + 1)) (<[count h := b]> keys)
    (<[count h := Some l]> children) (cs ++ [(b, l)]).
Proof.
  intros (Hk & Hc & Hcap & Hnum & Hat) Hlt. unfold count. rewrite Hnum, Nat2Z.id.
  split_and!; rewrite ?length_insert, ?length_app; csimpl; [done|done|lia|lia|].
  intros j k x [Hj|[Hj Hx]]%lookup_app_Some.
  - pose proof (lookup_lt_Some _ _ _ Hj). rewrite !list_lookup_insert_ne by lia. by apply Hat.
  - destruct (j - length cs)%nat eqn:E; [|done]. injection Hx as <- <-.
    assert (j = length cs) as -> by lia. by rewrite !list_lookup_insert_eq by lia.
Qed.

Lemma array_delete cap h keys children cs i ks' (cs' : list ptr) :
  array_rep cap h keys children cs → (i < length cs)%nat →
  shifted keys i (length cs - 1) ks' → shifted children i (length cs - 1) cs' →
  array_rep cap (recount h (h_num_children h - 1)) ks' cs' (delete i cs).
Proof.
  intros (Hk & Hc & Hcap & Hnum & Hat) Hi [Hl1 Hs1] [Hl2 Hs2].
  assert (length (delete i cs) = length cs - 1)%nat as Hlen.
  { destruct (lookup_lt_is_Some_2 cs i Hi) as [x Hx]. by rewrite (length_delete _ _ (ex_intro _ x Hx)). }
  split_and!; [congruence|congruence|lia|simpl; lia|].
  intros j k l Hj. pose proof (lookup_lt_Some _ _ _ Hj). rewrite Hs1, Hs2.
  case_decide.
  - rewrite list_lookup_delete_ge in Hj by lia. by apply Hat.
  - rewrite list_lookup_delete_lt in Hj by lia. by apply Hat.
Qed.

Lemma array_copy cap cap' h h' keys children cs ks' (cs' : list ptr) :
  array_rep cap h keys children cs → (length cs ≤ cap')%nat →
  h_num_children h' = h_num_children h →
  copied keys cap' (length cs) ks' → copied children cap' (length cs) cs' →
  array_rep cap' h' ks' cs' cs.
Proof.
  intros (Hk & Hc & Hcap & Hnum & Hat) Hlt Hh [Hl1 Hs1] [Hl2 Hs2].
  split_and!; [done|done|done|congruence|]. intros j k l Hj. pose proof (lookup_lt_Some _ _ _ Hj).
  rewrite Hs1, Hs2 by done. by apply Hat.
Qed.

(** *** Indices *)

Lemma index_set h index children cs cs' b l m :
  index_rep true h index children cs → h_num_children h = m → m < 48 → is_byte b →
  NoDup cs'.*1 → Z.of_nat (length cs') ≤ m + 1 →
  (∀ b', assoc cs' b' = if b =? b' then Some l else assoc cs b') →
  index_rep true (recount h (m + 1)) (<[Z.to_nat b := m]> index) (<[Z.to_nat m := Some l]> children) cs'.
Proof.
  intros (Hi & Hc & _ & Hnum & Hat & Hinj) Hm Hlt Hb Hnd Hlen Has. unfold is_byte in Hb.
  split_and!; rewrite ?length_insert; simpl; [done|done|done|lia|lia| |].
  - intros b' Hb'. rewrite Has. destruct (Z.eqb_spec b (Z.of_nat b')) as [->|Hne].
    + exists m. rewrite Nat2Z.id, !list_lookup_insert_eq by lia. split_and!; done || lia.
    + destruct (Hat b' Hb') as (i & Hidx & Hi'). exists i.
      rewrite list_lookup_insert_ne by lia. split; [done|].
      destruct (assoc cs (Z.of_nat b')) as [l'|]; [|done].
      destruct Hi' as (Hr & Hcl & Hd). specialize (Hd eq_refl).
      rewrite list_lookup_insert_ne by lia. split_and!; done || lia.
  - assert (∀ b' i, index !! b' = Some i → i < 48 → i < m) as Hused.
    { intros b' i Hx Hi48. pose proof (lookup_lt_Some _ _ _ Hx) as Hb'.
      destruct (Hat b' ltac:(lia)) as (i' & Hx' & Hi'). rewrite Hx in Hx'. injection Hx' as <-.
      destruct (assoc cs (Z.of_nat b')); [|lia]. destruct Hi' as (_ & _ & Hd). specialize (Hd eq_refl). lia. }
    intros b1 b2 i H1 H2 Hi48. rewrite !list_lookup_insert in *.
    repeat case_decide; naive_solver lia.
Qed.

Lemma index_rep_empty h :
  index_rep true (recount h 0) (replicate 256 48) (replicate 48 None) [].
Proof.
  split_and!; [apply length_replicate|apply length_replicate|constructor|done|done| |].
  - intros b Hb. exists 48. split; [by apply lookup_replicate_2|done].
  - intros b b' i [-> _]%lookup_replicate. lia.
Qed.

Lemma index_header d h h' index children cs :
  h_num_children h' = h_num_children h →
  index_rep d h index children cs → index_rep d h' index children cs.
Proof. unfold index_rep. by intros ->. Qed.

Lemma index_weaken d h index children cs :
  index_rep d h index children cs → index_rep false h index children cs.
Proof.
  intros (Hi & Hc & Hnd & Hnum & Hat & Hinj). split_and!; try done; [lia|lia|].
  intros b Hb. destruct (Hat b Hb) as (i & Hx & Hm). exists i. split; [done|].
  destruct (assoc cs (Z.of_nat b)); [|done]. by destruct Hm as (? & ? & _).
Qed.

Lemma spread_spec d h index children cs :
  index_rep d h index children cs →
  ∃ new, spread index children = Some new ∧ length new = 256%nat ∧
    ∀ b : nat, (b < 256)%nat → new !! b = Some (assoc cs (Z.of_nat b)).
Proof.
  intros (Hi & Hc & Hnd & Hnum & Hat & Hinj). unfold spread.
  destruct (for_range_inv (λ j new, length new = 256%nat ∧ ∀ b, (b < 256)%nat →
      new !! b = Some (if (b <? j)%nat then assoc cs (Z.of_nat b) else None))
    (λ i new, idx ← index !! i;
       if idx <? 48 then c ← children !! Z.to_nat idx; store new i c else Some new) 256 0
    (replicate 256 None)) as (new & -> & Hl & Hnew).
  - split; [done|]. intros b Hb. by rewrite lookup_replicate_2.
  - intros i new Hi256 [Hl Hnew]. destruct (Hat i ltac:(lia)) as (idx & -> & Hm). cbn [mbind option_bind].
    destruct (assoc cs (Z.of_nat i)) as [l|] eqn:Ea.
    + destruct Hm as (Hr & Hcl & _). rewrite (proj2 (Z.ltb_lt _ _)), Hcl by lia. cbn [mbind option_bind].
      rewrite store_ok by lia. eexists. split; [done|]. split; [by rewrite length_insert|].
      intros b Hb. destruct (decide (b = i)) as [->|Hne].
      * rewrite list_lookup_insert_eq by lia. by rewrite (proj2 (Nat.ltb_lt _ _)), Ea by lia.
      * rewrite list_lookup_insert_ne, Hnew by done.
        destruct (Nat.ltb_spec b i), (Nat.ltb_spec b (S i)); done || lia.
    + subst idx. eexists. split; [done|]. split; [done|]. intros b Hb. rewrite Hnew by done.
      destruct (Nat.ltb_spec b i), (Nat.ltb_spec b (S i)); try done || lia.
      assert (b = i) as -> by lia. by rewrite Ea.
  - exists new. split_and!; [done|done|]. intros b Hb. rewrite Hnew by done.
    by rewrite (proj2 (Nat.ltb_lt b (0 + 256))) by lia.
Qed.
End layouts.

(** ** Operations on nodes *)

Section operations.
Context (bd : build).
Implicit Types (cs : list (Z * loc)).

Lemma node16_search_spec keys byte cnt :
  b_arch bd ≠ AArch64 → length keys = 16%nat → 0 ≤ cnt ≤ 16 →
  node16_search bd keys byte cnt = Some (first_index (take (Z.to_nat cnt) keys) byte).
Proof.
  intros Ha Hl Hc. unfold node16_search.
  destruct (b_profile bd), (b_arch bd); try done; by apply simd_find_child_first.
Qed.

Lemma find_child_run d n cs b :
  b_arch bd ≠ AArch64 → node_rep d n cs → is_byte b →
  find_child bd n b = Some (Some <$> assoc cs b).
Proof.
  intros Ha [_ Hr] Hb. destruct n as [n|n|n|n|lf]; simpl in *; [..|done].
  - rewrite (array_find _ _ _ _ _ _ Hr). cbn [mbind option_bind].
    destruct (first_index cs.*1 b) as [i|] eqn:Hi.
    + destruct (array_child _ _ _ _ _ _ _ Hr Hi) as (l & _ & -> & ->). done.
    + by rewrite array_absent.
  - rewrite node16_search_spec; [|done|apply Hr|].
    + fold (count (n16_header n)). rewrite (array_keys _ _ _ _ _ Hr). cbn [mbind option_bind].
      destruct (first_index cs.*1 b) as [i|] eqn:Hi.
      * destruct (array_child _ _ _ _ _ _ _ Hr Hi) as (l & _ & -> & ->). done.
      * by rewrite array_absent.
    + destruct Hr as (_ & _ & ? & -> & _). lia.
  - destruct Hr as (_ & _ & _ & _ & Hat & _). unfold is_byte in Hb.
    destruct (Hat (Z.to_nat b)) as (i & -> & Hi); [lia|]. rewrite Z2Nat.id in Hi by lia.
    cbn [mbind option_bind]. destruct (assoc cs b) as [l|].
    + destruct Hi as (Hi & -> & _). by rewrite (proj2 (Z.ltb_lt _ _)) by lia.
    + by subst i.
  - destruct Hr as (_ & _ & _ & Hat). unfold is_byte in Hb.
    rewrite (Hat (Z.to_nat b)), Z2Nat.id by lia. simpl. by destruct (assoc cs b).
Qed.

Lemma n4_grow_run n cs :
  array_rep 4 (n4_header n) (n4_keys n) (n4_children n) cs →
  ∃ n', n4_grow n = Some n' ∧ array_rep 16 (n16_header n') (n16_keys n') (n16_children n') cs.
Proof.
  intros Hr. pose proof Hr as (Hk & Hc & Hcap & Hnum & _). unfold n4_grow, count.
  rewrite Hnum, Nat2Z.id.
  destruct (copy_entries_spec (length cs) (n4_keys n) (n4_children n) (replicate 16 0)
    (replicate 16 None) 16) as (ks & cs' & -> & H1 & H2); try done || lia.
  eexists. split; [done|]. simpl.
  eapply array_copy; [exact Hr|lia|done|done|done].
Qed.

Lemma n16_grow_run n cs :
  Forall is_byte cs.*1 → array_rep 16 (n16_header n) (n16_keys n) (n16_children n) cs →
  ∃ n', n16_grow n = Some n' ∧
    index_rep true (n48_header n') (n48_index n') (n48_children n') (keep_last cs) ∧
    h_num_children (n48_header n') = Z.of_nat (length cs).
Proof.
  intros Hby (Hk & Hc & Hcap & Hnum & Hat). unfold n16_grow, count. rewrite Hnum, Nat2Z.id.
  destruct (for_range_inv (λ j s, index_rep true (recount (n16_header n) (Z.of_nat j)) s.1 s.2
      (keep_last (take j cs)))
    (λ i '(index, ch), b ← n16_keys n !! i; index' ← store index (Z.to_nat b) (wrap 8 (Z.of_nat i));
       c ← n16_children n !! i; cs' ← store ch i c; Some (index', cs'))
    (length cs) 0 (replicate 256 48, replicate 48 None)) as ([index ch] & -> & Hr).
  - apply index_rep_empty.
  - intros i [index ch] Hi Hr. destruct (lookup_lt_is_Some_2 cs i) as [[k l] Hkl]; [lia|].
    destruct (Hat _ _ _ Hkl) as [-> ->]. cbn [mbind option_bind].
    assert (is_byte k) as Hb.
    { eapply Forall_forall; [exact Hby|]. apply list_elem_of_fmap. exists (k, l).
      split; [done|]. by eapply list_elem_of_lookup_2. }
    pose proof Hr as (Hl1 & Hl2 & _). unfold is_byte in Hb. simpl in Hl1, Hl2.
    rewrite (store_ok index) by lia. cbn [mbind option_bind]. rewrite (store_ok ch) by lia.
    eexists. split; [done|]. rewrite wrap_small by (split; lia). simpl.
    rewrite (take_S_r _ _ _ Hkl).
    pose proof (index_set (recount (n16_header n) (Z.of_nat i)) index ch (keep_last (take i cs))
      (keep_last (take i cs ++ [(k, l)])) k l (Z.of_nat i) Hr eq_refl ltac:(lia) Hb
      (keep_last_nodup _)) as Hs.
    rewrite Nat2Z.id in Hs. replace (Z.of_nat (S i)) with (Z.of_nat i + 1) by lia. apply Hs.
    + pose proof (sublist_length _ _ (keep_last_sublist (take i cs ++ [(k, l)]))) as Hle.
      rewrite length_app, length_take in Hle. simpl in Hle. lia.
    + intros b'. apply assoc_keep_last_snoc.
  - simpl in Hr. rewrite firstn_all in Hr. eexists. split; [done|]. simpl.
    split; [|done]. eapply index_header; [|exact Hr]. simpl. congruence.
Qed.

Lemma n48_grow_run d n cs :
  index_rep d (n48_header n) (n48_index n) (n48_children n) cs →
  ∃ n', n48_grow n = Some n' ∧ direct_rep (n256_header n') (n256_children n') cs ∧
    h_num_children (n256_header n') = h_num_children (n48_header n).
Proof.
  intros Hr. destruct (spread_spec _ _ _ _ _ Hr) as (new & Hs & Hl & Hnew).
  unfold n48_grow. rewrite Hs. eexists. split; [done|]. split; [|done].
  destruct Hr as (_ & _ & Hnd & Hnum & _). split_and!; [done|done|split; simpl; lia|done].
Qed.

(** A child for a byte that has none, in a [Node256] and in a [Node48]. *)
Lemma assoc_snoc {A} (cs : list (Z * A)) b x b' :
  assoc cs b = None → assoc (cs ++ [(b, x)]) b' = if b =? b' then Some x else assoc cs b'.
Proof.
  intros Hn. rewrite assoc_app. simpl. destruct (Z.eqb_spec b b') as [<-|]; [by rewrite Hn|].
  by destruct (assoc cs b').
Qed.

Lemma nodup_snoc {A} (cs : list (Z * A)) b x :
  assoc cs b = None → NoDup cs.*1 → NoDup (cs ++ [(b, x)]).*1.
Proof.
  intros Hn%assoc_None Hnd. rewrite fmap_app. apply NoDup_app. split_and!; [done| |].
  - intros y Hy. csimpl. set_solver.
  - csimpl. by apply NoDup_singleton.
Qed.

Lemma n256_add_run n cs b l :
  direct_rep (n256_header n) (n256_children n) cs → is_byte b → assoc cs b = None →
  is_Some (u8_arith bd (h_num_children (n256_header n) + 1)) →
  ∃ n', n256_add bd n b (Some l) = Some (N256 n') ∧
    direct_rep (n256_header n') (n256_children n') (cs ++ [(b, l)]) ∧
    Some (h_num_children (n256_header n')) = u8_arith bd (h_num_children (n256_header n) + 1).
Proof.
  intros (Hl & Hnd & Hnum & Hat) Hb Hn [num Hov]. unfold n256_add, is_byte in *.
  rewrite (Hat (Z.to_nat b)), Z2Nat.id, Hn by lia. cbn [mbind option_bind].
  change (is_none None) with true. cbn iota. rewrite Hov. cbn [mbind option_bind].
  rewrite store_ok by lia. eexists. split; [done|]. split; [|done].
  split_and!; simpl; rewrite ?length_insert; [done|by apply nodup_snoc| |].
  - unfold u8_arith in Hov. destruct (b_profile bd).
    + by apply checked_inv in Hov as [-> ?].
    + injection Hov as <-. by apply wrap_range.
  - intros b' Hb'. rewrite assoc_snoc by done. destruct (Z.eqb_spec b (Z.of_nat b')) as [->|Hne].
    + by rewrite Nat2Z.id, list_lookup_insert_eq by lia.
    + rewrite list_lookup_insert_ne by lia. by apply Hat.
Qed.

Lemma n48_add_run n cs b l :
  index_rep true (n48_header n) (n48_index n) (n48_children n) cs → is_byte b → assoc cs b = None →
  ∃ n', n48_add bd n b (Some l) = Some n' ∧ is_big n' = true ∧
    match n' with
    | N48 n => index_rep true (n48_header n) (n48_index n) (n48_children n) (cs ++ [(b, l)])
    | N256 n => direct_rep (n256_header n) (n256_children n) (cs ++ [(b, l)])
    | _ => False
    end ∧
    match n' with
    | N48 n' => h_num_children (n48_header n') = h_num_children (n48_header n) + 1
    | N256 n' => h_num_children (n256_header n') = h_num_children (n48_header n) + 1
    | _ => False
    end.
Proof.
  intros Hr Hb Hn. pose proof Hr as (Hl1 & Hl2 & Hnd & Hnum & _). unfold n48_add.
  destruct (Z.leb_spec 48 (h_num_children (n48_header n))) as [Hge|Hlt].
  - destruct (n48_grow_run _ _ _ Hr) as (n1 & -> & Hd & Hh). cbn [mbind option_bind].
    assert (u8_arith bd (h_num_children (n256_header n1) + 1) = Some (h_num_children (n48_header n) + 1))
      as Hov by (rewrite Hh; apply u8_arith_ok; split; lia).
    destruct (n256_add_run n1 cs b l Hd Hb Hn (ex_intro _ _ Hov)) as (n2 & -> & Hd2 & Hc).
    exists (N256 n2). split_and!; [done|done|done|]. rewrite Hov in Hc. congruence.
  - unfold count. assert (is_byte b) as Hb' by done. unfold is_byte in Hb'.
    set (m := h_num_children (n48_header n)) in *.
    rewrite (store_ok (n48_index n)) by lia. cbn [mbind option_bind].
    rewrite (store_ok (n48_children n)) by lia. cbn [mbind option_bind].
    rewrite (u8_arith_ok bd (m + 1)) by (split; lia). cbn [mbind option_bind].
    rewrite Z2Nat.id, wrap_small by (try split; lia).
    pose proof (index_set (n48_header n) (n48_index n) (n48_children n) cs (cs ++ [(b, l)]) b l m Hr
      eq_refl Hlt Hb (nodup_snoc _ _ _ Hn Hnd)) as Hs.
    assert (index_rep true (recount (n48_header n) (m + 1)) (<[Z.to_nat b := m]> (n48_index n))
      (<[Z.to_nat m := Some l]> (n48_children n)) (cs ++ [(b, l)])) as Hs'.
    { apply Hs; [rewrite length_app; simpl; lia|]. intros b'. by apply assoc_snoc. }
    clear Hs. destruct (Z.leb_spec 45 (m + 1)).
    + destruct (n48_grow_run true (mkNode48 (recount (n48_header n) (m + 1))
        (<[Z.to_nat b := m]> (n48_index n)) (<[Z.to_nat m := Some l]> (n48_children n))) _ Hs')
        as (n1 & -> & Hd & Hh). exists (N256 n1). done.
    + eexists. split_and!; [done|done|exact Hs'|done].
Qed.

Lemma bytes_snoc cs b l : Forall is_byte cs.*1 → is_byte b → Forall is_byte (cs ++ [(b, l)]).*1.
Proof. intros Hby Hb. rewrite fmap_app. apply Forall_app. split; [done|]. by constructor. Qed.

Lemma bytes_sublist {A} (cs cs' : list (Z * A)) :
  cs' `sublist_of` cs → Forall is_byte cs.*1 → Forall is_byte cs'.*1.
Proof.
  intros Hs Hby. rewrite Forall_forall in *. intros b Hb. apply Hby.
  eapply elem_of_submseteq; [exact Hb|]. apply sublist_submseteq. by apply fmap_sublist.
Qed.

(** A new entry in an array that has room. *)
Lemma n16_add_room n cs b l :
  node_rep true (N16 n) cs → (length cs < 16)%nat → is_byte b →
  ∃ n', n16_add bd n b (Some l) = Some (N16 n') ∧ node_rep true (N16 n') (cs ++ [(b, l)]).
Proof.
  intros [Hby Hr] Hlt Hb. pose proof Hr as (Hk & Hc & _ & Hnum & _). simpl in *. unfold n16_add.
  rewrite (proj2 (Z.leb_gt 16 _)) by lia. unfold count. rewrite Hnum, Nat2Z.id.
  rewrite (store_ok (n16_keys n)) by lia. cbn [mbind option_bind].
  rewrite (store_ok (n16_children n)) by lia. cbn [mbind option_bind].
  rewrite u8_arith_ok by (split; lia). eexists. split; [done|]. split; [by apply bytes_snoc|].
  pose proof (array_snoc _ _ _ _ _ b l Hr Hlt) as Hs. unfold count in Hs.
  by rewrite Hnum, Nat2Z.id in Hs.
Qed.

Lemma n4_add_run n cs b l :
  node_rep true (N4 n) cs → is_byte b →
  ∃ n', n4_add bd n b (Some l) = Some n' ∧ is_big n' = false ∧ node_rep true n' (cs ++ [(b, l)]).
Proof.
  intros [Hby Hr] Hb. pose proof Hr as (Hk & Hc & Hcap & Hnum & _). simpl in *. unfold n4_add.
  destruct (Z.leb_spec 4 (h_num_children (n4_header n))) as [Hge|Hlt].
  - destruct (n4_grow_run _ _ Hr) as (n1 & -> & Hr1). cbn [mbind option_bind].
    destruct (n16_add_room n1 cs b l (conj Hby Hr1) ltac:(lia) Hb) as (n2 & -> & Hr2). by exists (N16 n2).
  - unfold count. rewrite Hnum, Nat2Z.id.
    rewrite (store_ok (n4_keys n)) by lia. cbn [mbind option_bind].
    rewrite (store_ok (n4_children n)) by lia. cbn [mbind option_bind].
    rewrite u8_arith_ok by (split; lia). eexists. split; [done|]. split; [done|].
    split; [by apply bytes_snoc|].
    pose proof (array_snoc _ _ _ _ _ b l Hr ltac:(lia)) as Hs. unfold count in Hs.
    by rewrite Hnum, Nat2Z.id in Hs.
Qed.

Lemma add_small_run n cs b l :
  node_rep true n cs → is_big n = false → (length cs < 16)%nat → is_byte b →
  ∃ n', add_child bd n b (Some l) = Some n' ∧ is_big n' = false ∧ node_rep true n' (cs ++ [(b, l)]).
Proof.
  intros Hr Hs Hlt Hb. destruct n as [n|n|n|n|lf]; try done; [by apply n4_add_run| |by destruct Hr].
  destruct (n16_add_room n cs b l Hr Hlt Hb) as (n' & ? & ?). by exists (N16 n').
Qed.

(** [num_children += 1] does not overflow in a [Node256]. *)
Definition has_room (n : NodeBox) : Prop :=
  match n with N256 n => is_Some (u8_arith bd (h_num_children (n256_header n) + 1)) | _ => True end.

Lemma add_child_run n cs b l :
  node_rep true n cs → is_byte b → assoc cs b = None → has_room n →
  ∃ n', add_child bd n b (Some l) = Some n' ∧ is_big n' = grows (is_big n) cs ∧
    node_rep true n' (grown (is_big n) cs ++ [(b, l)]) ∧
    (NoDup cs.*1 → counted n cs → counted n' (cs ++ [(b, l)])).
Proof.
  intros Hr Hb Hn Hov. unfold grows, grown. pose proof Hr as [Hby Hr0].
  destruct n as [n|n|n|n|lf]; simpl in Hr0 |- *; [..|done].
  - pose proof Hr0 as (_ & _ & Hcap & _ & _). rewrite (proj2 (Nat.eqb_neq (length cs) 16)) by lia.
    destruct (n4_add_run n cs b l Hr Hb) as (n' & -> & Hbig & Hr'). exists n'.
    split_and!; [done|done|done|]. by destruct n'.
  - pose proof Hr0 as (_ & _ & Hcap & Hnum & _).
    destruct (Nat.eqb_spec (length cs) 16) as [Hfull|Hlt].
    + destruct (n16_grow_run _ _ Hby Hr0) as (n1 & Hg & Hi & Hc). unfold n16_add.
      rewrite (proj2 (Z.leb_le 16 _)), Hg by lia. cbn [mbind option_bind].
      destruct (n48_add_run n1 (keep_last cs) b l Hi Hb) as (n2 & -> & Hbig & Hr2 & Hc2).
      { apply assoc_None. rewrite keep_last_keys. by apply assoc_None. }
      exists n2. split_and!; [done|done| |].
      * split; [|by destruct n2]. apply bytes_snoc; [|done].
        eapply bytes_sublist; [apply keep_last_sublist|done].
      * intros Hnd _. destruct n2; simpl in *; try done; rewrite length_app; simpl; [lia|].
        rewrite wrap_small by (split; lia). lia.
    + destruct (n16_add_room n cs b l Hr ltac:(lia) Hb) as (n' & -> & Hr'). by exists (N16 n').
  - destruct (n48_add_run n cs b l Hr0 Hb Hn) as (n2 & -> & Hbig & Hr2 & Hc2).
    exists n2. split_and!; [done|done|split; [by apply bytes_snoc|by destruct n2]|].
    intros _ Hcnt. destruct Hr0 as (_ & _ & _ & Hnum & _).
    destruct n2; simpl in *; try done; rewrite length_app; simpl; [lia|].
    rewrite wrap_small by (split; lia). lia.
  - destruct (n256_add_run n cs b l Hr0 Hb Hn Hov) as (n' & -> & Hr' & Hc).
    exists (N256 n'). split_and!; [done|done|split; [by apply bytes_snoc|done]|].
    intros _ Hcnt. simpl in *. rewrite Hcnt in Hc. unfold u8_arith in Hc. rewrite length_app. simpl.
    destruct (b_profile bd).
    + symmetry in Hc. apply checked_inv in Hc as [-> Hw]. unfold wrap, in_width in *.
      rewrite Nat2Z.inj_add, <- Z.add_mod_idemp_l by lia. symmetry. by apply Z.mod_small.
    + injection Hc as ->. unfold wrap. rewrite Z.add_mod_idemp_l by lia. f_equal. lia.
Qed.

(** Another child for a byte that has one. *)
Lemma array_replace cap h keys children cs b l i :
  array_rep cap h keys children cs → first_index cs.*1 b = Some i →
  store children i (Some l) = Some (<[i := Some l]> children) ∧
  array_rep cap h keys (<[i := Some l]> children) (assoc_set cs b l).
Proof.
  intros Hr Hi. destruct (array_child _ _ _ _ _ _ _ Hr Hi) as (l0 & Hcs & Hch & _).
  pose proof (lookup_lt_Some _ _ _ Hch). split; [by apply store_ok|].
  destruct Hr as (Hk & Hc & Hcap & Hnum & Hat). rewrite (assoc_set_index _ _ _ _ Hi).
  split_and!; rewrite ?length_insert; try done. intros j k x Hj.
  destruct (decide (j = i)) as [->|Hne].
  - rewrite list_lookup_insert_eq in Hj by (by eapply lookup_lt_Some). injection Hj as <- <-.
    rewrite list_lookup_insert_eq by done. split; [|done]. by apply (Hat _ _ _ Hcs).
  - rewrite list_lookup_insert_ne in Hj by done. rewrite list_lookup_insert_ne by done. by apply Hat.
Qed.

Lemma update_child_run n cs b l :
  node_rep true n cs → is_byte b → is_Some (assoc cs b) →
  ∃ n', update_child n b (Some l) = Some n' ∧ is_big n' = is_big n ∧
    node_rep true n' (assoc_set cs b l).
Proof.
  intros [Hby Hr] Hb Hs. unfold node_rep. rewrite assoc_set_keys.
  assert (∃ i, first_index cs.*1 b = Some i) as [i Hi].
  { destruct (first_index cs.*1 b) eqn:E; [eauto|]. apply array_absent in E. by destruct Hs; congruence. }
  destruct n as [n|n|n|n|lf]; simpl in Hr |- *; [..|done].
  - rewrite (array_find _ _ _ _ _ _ Hr), Hi. cbn [mbind option_bind].
    destruct (array_replace _ _ _ _ _ b l i Hr Hi) as [-> Hr']. by eexists.
  - rewrite (array_find _ _ _ _ _ _ Hr), Hi. cbn [mbind option_bind].
    destruct (array_replace _ _ _ _ _ b l i Hr Hi) as [-> Hr']. by eexists.
  - destruct Hr as (Hl1 & Hl2 & Hnd & Hnum & Hat & Hinj). unfold is_byte in Hb.
    destruct (Hat (Z.to_nat b)) as (ix & Hix & Hm); [lia|]. rewrite Z2Nat.id in Hm by lia.
    rewrite Hix. destruct Hs as [l0 Hl0]. rewrite Hl0 in Hm. destruct Hm as (Hr & Hch & Hd).
    cbn [mbind option_bind]. rewrite (proj2 (Z.ltb_lt _ _)), store_ok by lia.
    eexists. split; [done|]. split; [done|]. split; [done|]. simpl.
    split_and!; rewrite ?assoc_set_keys, ?length_insert; try done.
    + rewrite <- (length_fmap fst), assoc_set_keys, length_fmap. lia.
    + lia.
    + intros b' Hb'. rewrite assoc_set_lookup by (by eexists).
      destruct (Z.eqb_spec b (Z.of_nat b')) as [->|Hne].
      * exists ix. rewrite Nat2Z.id in Hix. split; [done|].
        split_and!; [lia|lia| |done]. by rewrite list_lookup_insert_eq by lia.
      * destruct (Hat b' Hb') as (i' & Hi' & Hm'). exists i'. split; [done|].
        destruct (assoc cs (Z.of_nat b')) as [x|]; [|done]. destruct Hm' as (Hr' & Hch' & Hd').
        rewrite list_lookup_insert_ne; [done|]. intros Heq. apply Hne.
        assert (i' = ix) as -> by lia. pose proof (Hinj _ _ _ Hix Hi' ltac:(lia)). lia.
  - destruct Hr as (Hl & Hnd & Hnum & Hat). unfold is_byte in Hb.
    rewrite store_ok by lia. eexists. split; [done|]. split; [done|]. split; [done|]. simpl.
    split_and!; rewrite ?assoc_set_keys, ?length_insert; try done.
    intros b' Hb'. rewrite assoc_set_lookup by done.
    destruct (Z.eqb_spec b (Z.of_nat b')) as [->|Hne].
    + rewrite Nat2Z.id. by rewrite list_lookup_insert_eq by lia.
    + rewrite list_lookup_insert_ne by lia. by apply Hat.
Qed.

(** *** Removal *)

(** Removing the slot of a byte from an index leaves a hole. *)
Lemma index_del d h index children cs b l i :
  index_rep d h index children cs → is_byte b → assoc cs b = Some l →
  index !! Z.to_nat b = Some i →
  index_rep false (recount h (h_num_children h - 1)) (<[Z.to_nat b := 48]> index)
    (<[Z.to_nat i := None]> children) (assoc_del cs b).
Proof.
  intros (Hl1 & Hl2 & Hnd & Hnum & Hat & Hinj) Hb Hl Hi. unfold is_byte in Hb.
  pose proof (assoc_del_length cs b (mk_is_Some _ _ Hl)) as Hlen.
  destruct (Hat (Z.to_nat b)) as (i0 & Hi0 & Hm); [lia|]. rewrite Hi in Hi0. injection Hi0 as <-.
  rewrite Z2Nat.id, Hl in Hm by lia. destruct Hm as (Hri & _).
  split_and!; rewrite ?length_insert; simpl; [done|done|by apply assoc_del_nodup|lia|lia| |].
  - intros b' Hb'. rewrite assoc_del_lookup by done.
    destruct (Z.eqb_spec b (Z.of_nat b')) as [->|Hne].
    + exists 48. by rewrite Nat2Z.id, list_lookup_insert_eq by lia.
    + destruct (Hat b' Hb') as (i' & Hi' & Hm'). exists i'.
      rewrite list_lookup_insert_ne by lia. split; [done|].
      destruct (assoc cs (Z.of_nat b')) as [x|]; [|done]. destruct Hm' as (Hr' & Hch' & _).
      split_and!; [lia|lia| |done]. rewrite list_lookup_insert_ne; [done|]. intros Heq. apply Hne.
      assert (i' = i) as -> by lia. pose proof (Hinj _ _ _ Hi Hi' ltac:(lia)). lia.
  - intros b1 b2 j H1 H2 Hj. rewrite list_lookup_insert in H1, H2.
    repeat case_decide; simplify_eq; try lia. by eapply Hinj.
Qed.

Lemma n48_collect_spec h index children cs :
  index_rep false h index children cs → (length cs ≤ 16)%nat →
  ∃ ks ch, n48_collect index children = Some (ks, ch, length (ordered cs 256)) ∧
    array_rep 16 (recount h (Z.of_nat (length (ordered cs 256)))) ks ch (ordered cs 256).
Proof.
  intros (Hl1 & Hl2 & Hnd & Hnum & Hat & Hinj) Hle. unfold n48_collect.
  match goal with |- context [for_range 0 256 ?body ?s0] =>
    destruct (for_range_inv (λ j s, s.2 = length (ordered cs j) ∧
      array_rep 16 (recount h (Z.of_nat (length (ordered cs j)))) s.1.1 s.1.2 (ordered cs j))
      body 256 0 s0) as ([[ks ch] k] & Hrun & Hk & Hr) end.
  - split; [done|]. split_and!; [apply length_replicate|apply length_replicate|simpl; lia|done|done].
  - intros j [[ks ch] k] Hj [Hk Hr]. cbn [fst snd] in *. pose proof (ordered_length cs (S j)) as Hol.
    destruct (Hat j ltac:(lia)) as (i & -> & Hm). cbn [mbind option_bind].
    rewrite ordered_S in *. destruct (assoc cs (Z.of_nat j)) as [l|].
    + destruct Hm as (Hi & -> & _). rewrite (proj2 (Z.ltb_lt _ _)) by lia. cbn [mbind option_bind].
      change (is_some (Some l)) with true. cbn iota. rewrite length_app in Hol |- *. simpl in Hol |- *.
      pose proof Hr as (Hlk & Hlc & _).
      rewrite (store_ok ks) by lia. cbn [mbind option_bind]. rewrite (store_ok ch) by lia.
      eexists. split; [done|]. cbn [fst snd]. split; [lia|]. subst k.
      rewrite wrap_small by (split; lia).
      pose proof (array_snoc _ _ _ _ _ (Z.of_nat j) l Hr ltac:(lia)) as Hs.
      unfold count in Hs. simpl in Hs. rewrite Nat2Z.id in Hs. by rewrite Nat2Z.inj_add.
    + subst i. rewrite app_nil_r. eexists. split; [done|]. done.
  - simpl in Hk. subst k. cbn [fst snd] in Hr. rewrite Hrun. by exists ks, ch.
Qed.

Lemma n256_collect_spec h children cs :
  direct_rep h children cs → (length cs ≤ 48)%nat →
  ∃ index ch, n256_collect bd children = Some (index, ch, Z.of_nat (length (ordered cs 256))) ∧
    index_rep true (recount h (Z.of_nat (length (ordered cs 256)))) index ch (ordered cs 256).
Proof.
  intros (Hl & Hnd & Hnum & Hat) Hle. unfold n256_collect.
  match goal with |- context [for_range 0 256 ?body ?s0] =>
    destruct (for_range_inv (λ j s, s.2 = Z.of_nat (length (ordered cs j)) ∧
      index_rep true (recount h (Z.of_nat (length (ordered cs j)))) s.1.1 s.1.2 (ordered cs j))
      body 256 0 s0) as ([[index ch] k] & Hrun & Hk & Hr) end.
  - split; [done|]. apply index_rep_empty.
  - intros j [[index ch] k] Hj [Hk Hr]. cbn [fst snd] in *. pose proof (ordered_length cs (S j)) as Hol.
    rewrite (Hat j) by lia. cbn [mbind option_bind]. pose proof (ordered_assoc cs (S j)) as Hoa.
    pose proof (ordered_nodup cs (S j)) as Hon.
    rewrite ordered_S in *. destruct (assoc cs (Z.of_nat j)) as [l|] eqn:El.
    + change (is_some (Some l)) with true. cbn iota. rewrite length_app in Hol |- *. simpl in Hol |- *.
      pose proof Hr as (Hl1 & Hl2 & _).
      rewrite (store_ok index) by lia. cbn [mbind option_bind]. rewrite (store_ok ch) by lia.
      cbn [mbind option_bind]. rewrite u8_arith_ok by (split; lia).
      eexists. split; [done|]. cbn [fst snd]. split; [lia|]. subst k.
      pose proof (index_set _ _ _ _ (ordered cs j ++ [(Z.of_nat j, l)]) (Z.of_nat j) l
        (Z.of_nat (length (ordered cs j))) Hr eq_refl ltac:(lia) ltac:(unfold is_byte; lia) Hon) as Hs.
      rewrite !Nat2Z.id in Hs. rewrite Nat2Z.inj_add, Nat2Z.id. apply Hs.
      * rewrite length_app. simpl. lia.
      * intros b'. apply assoc_snoc. apply assoc_None.
        intros ([b'' x] & Hb & [_ Hx]%elem_of_ordered)%list_elem_of_fmap. simpl in Hb. lia.
    + rewrite app_nil_r. eexists. split; [done|]. done.
  - simpl in Hk. subst k. cbn [fst snd] in Hr. rewrite Hrun. by exists index, ch.
Qed.

Lemma array_header cap h h' keys children cs :
  h_num_children h' = h_num_children h →
  array_rep cap h keys children cs → array_rep cap h' keys children cs.
Proof. unfold array_rep. by intros ->. Qed.

(** The loop of the two array layouts: find the entry, close the gap. *)
Lemma array_remove cap h keys children cs b i :
  array_rep cap h keys children cs → first_index cs.*1 b = Some i → (cap ≤ 16)%nat →
  (1 ≤ length cs)%nat ∧
  u8_arith bd (h_num_children h - 1) = Some (h_num_children h - 1) ∧
  ∃ ks ch, shift_left i (count h) (keys, children) = Some (ks, ch) ∧
    array_rep cap (recount h (h_num_children h - 1)) ks ch (assoc_del cs b).
Proof.
  intros Hr Hi Hcap. pose proof Hr as (Hk & Hc & Hle & Hnum & _).
  destruct (array_child _ _ _ _ _ _ _ Hr Hi) as (l & Hcs & _).
  pose proof (lookup_lt_Some _ _ _ Hcs) as Hlt. split; [lia|].
  split; [apply u8_arith_ok; split; lia|]. unfold count. rewrite Hnum, Nat2Z.id.
  destruct (shift_left_spec i (length cs) keys children) as (ks & ch & -> & H1 & H2); [lia..|].
  exists ks, ch. split; [done|]. rewrite assoc_del_index, Hi, <- Hnum. by eapply array_delete.
Qed.

Lemma assoc_del_absent {A} (cs : list (Z * A)) b : assoc cs b = None → assoc_del cs b = cs.
Proof.
  intros Hn. rewrite assoc_del_index. destruct (first_index cs.*1 b) as [i|] eqn:E; [|done].
  apply assoc_None in Hn. destruct Hn. apply first_index_Some in E as [E _].
  by eapply list_elem_of_lookup_2.
Qed.

Lemma remove_child_run d n cs b :
  node_rep d n cs → counted n cs → is_byte b → (length cs ≤ 255)%nat →
  ∃ n' cs', remove_child bd n b = Some n' ∧ cs' ≡ₚ assoc_del cs b ∧
    node_rep false n' cs' ∧ counted n' cs'.
Proof.
  intros [Hby Hr] Hcnt Hb Hlen.
  assert (Forall is_byte (assoc_del cs b).*1) as Hby'
    by (eapply bytes_sublist; [apply assoc_del_sublist|done]).
  destruct n as [n|n|n|n|lf]; simpl in Hr, Hcnt |- *; [..|done].
  - unfold n4_remove. rewrite (array_find _ _ _ _ _ _ Hr). cbn [mbind option_bind].
    destruct (first_index cs.*1 b) as [i|] eqn:Hi.
    + destruct (array_remove _ _ _ _ _ b i Hr Hi ltac:(lia)) as (_ & -> & ks & ch & -> & Hr').
      eexists _, _. split; [done|]. split; [done|]. by split.
    + rewrite assoc_del_absent by (by apply array_absent). by exists (N4 n), cs.
  - unfold n16_remove. rewrite (array_find _ _ _ _ _ _ Hr). cbn [mbind option_bind].
    destruct (first_index cs.*1 b) as [i|] eqn:Hi.
    + destruct (array_remove _ _ _ _ _ b i Hr Hi ltac:(lia)) as (Hpos & -> & ks & ch & -> & Hr').
      cbn [mbind option_bind]. destruct (Z.ltb_spec (h_num_children (n16_header n) - 1) 4) as [Hlt|].
      * pose proof Hr' as (Hk & Hc & Hle & Hnum & _). simpl in Hnum.
        destruct (copy_entries_spec (length (assoc_del cs b)) ks ch (replicate 4 0)
          (replicate 4 None) 4) as (ks' & ch' & Hcp & H1 & H2); try done || lia.
        rewrite Hnum, Nat2Z.id, Hcp. cbn [mbind option_bind].
        eexists _, _. split; [done|]. split; [done|]. split; [|done]. split; [done|]. simpl.
        eapply array_copy; [exact Hr'|lia|simpl; congruence|done|done].
      * eexists _, _. split; [done|]. split; [done|]. by split.
    + rewrite assoc_del_absent by (by apply array_absent). by exists (N16 n), cs.
  - pose proof Hr as (Hl1 & Hl2 & Hnd & Hnum & Hat & _). unfold n48_remove.
    assert (is_byte b) as Hb0 by done. unfold is_byte in Hb0.
    destruct (Hat (Z.to_nat b)) as (i & Hi & Hm); [lia|]. rewrite Z2Nat.id in Hm by lia.
    rewrite Hi. cbn [mbind option_bind]. destruct (assoc cs b) as [l|] eqn:Hl.
    + destruct Hm as (Hri & _). rewrite (proj2 (Z.ltb_lt _ _)) by lia.
      rewrite (store_ok (n48_children n)) by lia. cbn [mbind option_bind].
      rewrite (store_ok (n48_index n)) by lia. cbn [mbind option_bind].
      pose proof (assoc_del_length cs b (mk_is_Some _ _ Hl)) as Hdl.
      rewrite u8_arith_ok by (split; lia). cbn [mbind option_bind].
      pose proof (index_del _ _ _ _ _ _ _ _ Hr Hb Hl Hi) as Hdel.
      destruct (Z.ltb_spec (h_num_children (n48_header n) - 1) 17).
      * destruct (n48_collect_spec _ _ _ _ Hdel ltac:(lia)) as (ks & ch & -> & Hr').
        cbn [mbind option_bind]. pose proof (ordered_length (assoc_del cs b) 256).
        pose proof (ordered_perm _ (assoc_del_nodup _ b Hnd) Hby') as Hperm.
        eexists _, _. split; [done|]. split; [exact Hperm|]. split; [|done].
        split; [by rewrite Hperm|]. eapply array_header; [|exact Hr'].
        cbn [retype recount h_num_children n16_header]. apply wrap_small. split; lia.
      * eexists _, _. split; [done|]. split; [done|]. split; [by split|]. simpl. lia.
    + subst i. change (48 <? 48) with false. cbn iota. rewrite assoc_del_absent by done.
      exists (N48 n), cs. split; [done|]. split; [done|]. split; [|done].
      split; [done|]. by eapply index_weaken.
  - pose proof Hr as (Hl & Hnd & Hnum & Hat). unfold n256_remove.
    assert (is_byte b) as Hb0 by done. unfold is_byte in Hb0.
    rewrite (Hat (Z.to_nat b)), Z2Nat.id by lia. cbn [mbind option_bind].
    destruct (assoc cs b) as [l|] eqn:Ha.
    + change (is_some (Some l)) with true. cbn iota. rewrite store_ok by lia. cbn [mbind option_bind].
      pose proof (assoc_del_length cs b (mk_is_Some _ _ Ha)) as Hdl.
      rewrite wrap_small in Hcnt by (split; lia). rewrite Hcnt.
      rewrite u8_arith_ok by (split; lia). cbn [mbind option_bind].
      assert (direct_rep (recount (n256_header n) (Z.of_nat (length cs) - 1))
        (<[Z.to_nat b := None]> (n256_children n)) (assoc_del cs b)) as Hr'.
      { split_and!; rewrite ?length_insert; [done|by apply assoc_del_nodup|split; simpl; lia|].
        intros b' Hb'. rewrite assoc_del_lookup by done.
        destruct (Z.eqb_spec b (Z.of_nat b')) as [->|Hne].
        - by rewrite Nat2Z.id, list_lookup_insert_eq by lia.
        - rewrite list_lookup_insert_ne by lia. by apply Hat. }
      destruct (Z.ltb_spec (Z.of_nat (length cs) - 1) 49).
      * destruct (n256_collect_spec _ _ _ Hr' ltac:(lia)) as (index & ch & -> & Hr2).
        cbn [mbind option_bind]. pose proof (ordered_perm _ (assoc_del_nodup _ b Hnd) Hby') as Hperm.
        eexists _, _. split; [done|]. split; [exact Hperm|]. split.
        -- split; [by rewrite Hperm|]. eapply index_weaken, index_header; [|exact Hr2].
           cbn [recount retype h_num_children n48_header]. reflexivity.
        -- cbn [counted recount retype h_num_children n48_header]. reflexivity.
      * eexists _, _. split; [done|]. split; [done|]. split; [by split|]. simpl.
        rewrite wrap_small by (split; lia). lia.
    + simpl. rewrite assoc_del_absent by done. by exists (N256 n), cs.
Qed.
End operations.

(** ** Theorems *)

Section theorems.
Context (bd : build).

Fixpoint add_children (n : NodeBox) (cs : list (Z * loc)) : option NodeBox :=
  match cs with
  | [] => Some n
  | (b, l) :: cs' => n' ← add_child bd n b (Some l); add_children n' cs'
  end.

Fixpoint remove_children (n : NodeBox) (bs : list Z) : option NodeBox :=
  match bs with
  | [] => Some n
  | b :: bs' => n' ← remove_child bd n b; remove_children n' bs'
  end.

Lemma node_rep_default d : node_rep d (N4 Node4_default) [].
Proof. split; [constructor|]. split_and!; [done|done|simpl; lia|done|done]. Qed.

Lemma node_rep_weaken d n cs : node_rep d n cs → node_rep false n cs.
Proof. intros [Hby Hr]. split; [done|]. destruct n; try done. by eapply index_weaken. Qed.

Lemma counted_room n cs : counted n cs → (length cs < 255)%nat → has_room bd n.
Proof.
  destruct n as [n|n|n|n|lf]; simpl; try done. intros -> Hlt. eexists. rewrite wrap_small by (split; lia).
  apply u8_arith_ok. split; lia.
Qed.

Lemma add_children_run adds : ∀ n cs,
  node_rep true n cs → counted n cs → NoDup (cs ++ adds).*1 → Forall is_byte adds.*1 →
  (length (cs ++ adds) ≤ 255)%nat →
  ∃ n', add_children n adds = Some n' ∧ node_rep true n' (cs ++ adds) ∧ counted n' (cs ++ adds).
Proof.
  induction adds as [|[b l] adds IH]; intros n cs Hr Hc Hnd Hby Hlen.
  - rewrite app_nil_r. by exists n.
  - apply Forall_cons in Hby as [Hb Hby]. cbn [add_children].
    rewrite fmap_app in Hnd. csimpl in Hnd. rewrite length_app in Hlen. simpl in Hlen.
    assert (NoDup cs.*1 ∧ assoc cs b = None) as [Hnd' Hn].
    { apply NoDup_app in Hnd as (Hnd' & Hd & _). split; [done|]. apply assoc_None.
      intros Hin. apply (Hd b Hin). set_solver. }
    destruct (add_child_run bd n cs b l Hr Hb Hn) as (n1 & -> & _ & Hr1 & Hc1).
    { eapply counted_room; [done|lia]. }
    cbn [mbind option_bind]. assert (grown (is_big n) cs = cs) as Hg.
    { unfold grown. destruct (_ && _)%bool; [by apply keep_last_id|done]. }
    rewrite Hg in Hr1. rewrite (cons_middle (b, l)), (assoc_L (++)).
    apply IH; [done|by apply Hc1| |done|].
    + rewrite !fmap_app. csimpl. by rewrite <- (assoc_L (++)).
    + rewrite !length_app. simpl. lia.
Qed.

Lemma remove_children_run bs : ∀ n cs,
  node_rep false n cs → counted n cs → NoDup cs.*1 → (length cs ≤ 255)%nat → Forall is_byte bs →
  ∃ n' cs', remove_children n bs = Some n' ∧ node_rep false n' cs' ∧
    ∀ b, assoc cs' b = if decide (b ∈ bs) then None else assoc cs b.
Proof.
  induction bs as [|b bs IH]; intros n cs Hr Hc Hnd Hlen Hbs.
  - exists n, cs. split_and!; [done|done|]. done.
  - apply Forall_cons in Hbs as [Hb Hbs]. cbn [remove_children].
    destruct (remove_child_run bd false n cs b Hr Hc Hb Hlen) as (n1 & cs1 & -> & Hp & Hr1 & Hc1).
    cbn [mbind option_bind]. pose proof (assoc_del_nodup cs b Hnd) as Hnd1.
    assert (NoDup cs1.*1) as Hnd2 by (by rewrite Hp).
    destruct (IH n1 cs1 Hr1 Hc1 Hnd2) as (n' & cs' & -> & Hr' & Ha); [|done|].
    { rewrite Hp. pose proof (sublist_length _ _ (assoc_del_sublist cs b)). lia. }
    exists n', cs'. split_and!; [done|done|]. intros b'. rewrite Ha.
    rewrite (assoc_perm cs1 _ b' Hnd2 Hp), assoc_del_lookup by done.
    destruct (Z.eqb_spec b b') as [->|Hne]; repeat case_decide; try done; set_solver.
Qed.

(** C17: on a target other than AArch64, a node filled with children for distinct
    bytes, up to 255 of them and through every growth 4 -> 16 -> 48 -> 256, finds exactly these;
    after any removals, through every shrinking, it finds the remaining ones;
    no step panics, with overflow checks or without. *)
Theorem art_node_map adds dels :
  b_arch bd ≠ AArch64 → NoDup adds.*1 → Forall is_byte adds.*1 → (length adds ≤ 255)%nat →
  Forall is_byte dels →
  ∃ n n', add_children (N4 Node4_default) adds = Some n ∧ remove_children n dels = Some n' ∧
    ∀ b, is_byte b →
      find_child bd n b = Some (Some <$> assoc adds b) ∧
      find_child bd n' b = Some (if decide (b ∈ dels) then None else Some <$> assoc adds b).
Proof.
  intros Harch Hnd Hby Hlen Hdels.
  destruct (add_children_run adds (N4 Node4_default) [] (node_rep_default _) I Hnd Hby Hlen)
    as (n & Hadd & Hr & Hc).
  destruct (remove_children_run dels n adds (node_rep_weaken _ _ _ Hr) Hc Hnd Hlen Hdels)
    as (n' & cs' & Hdel & Hr' & Ha).
  exists n, n'. split_and!; [done|done|]. intros b Hb. split; [by eapply find_child_run|].
  rewrite (find_child_run bd _ n' cs' b Harch Hr' Hb), Ha. by case_decide.
Qed.

End theorems.

(** A removal from a [Node48] leaves a hole, and the next [add_child] writes to
    slot [num_children], which is in use: the child of another byte is
    replaced by the new one. *)
Theorem node48_add_overwrites bd (f : nat → loc) (x : loc) :
  (n1 ← add_children bd (N4 Node4_default) ((λ i, (Z.of_nat i, f i)) <$> seq 0 20);
   n2 ← remove_child bd n1 3;
   n3 ← add_child bd n2 20 (Some x);
   before ← find_child bd n2 19;
   after ← find_child bd n3 19;
   added ← find_child bd n3 20;
   Some (before, after, added)) =
  Some (Some (Some (f 19%nat)), Some (Some x), Some (Some x)).
Proof. destruct bd as [[] arch]; vm_compute; reflexivity. Qed.

(** With overflow checks the 256th child of a node panics: [num_children] is a
    [u8]. *)
Theorem node256_full_panics arch (f : nat → loc) :
  add_children (mkBuild Debug arch) (N4 Node4_default) ((λ i, (Z.of_nat i, f i)) <$> seq 0 256) = None.
Proof. vm_compute. reflexivity. Qed.
