(* ===== verification/ArtTree.v ===== *)
(** * The adaptive radix tree (engine/src/art/tree.rs)

    [Tree] with its recursive insert, search, delete and memory reclamation
    on raw pointers.  The nodes live in a store of boxes; reading or freeing
    a box that is not there is undefined behaviour, an outcome of its own.
    For trees that only grow the store is related to a pure tree, on which
    the answers of the code are characterised. *)

From S2P Require Import Prelude Addr Node Simd ArtNode.

Local Open Scope Z_scope.

(** ** Outcomes and boxes *)

Inductive Outcome (A : Type) :=
  | Done (a : A)     (* the call returns *)
  | Panics           (* an index out of bounds or a checked overflow *)
  | Undefined        (* a box is used after it was freed, or freed twice *)
  | Diverges.        (* the fuel of the model is used up *)
Arguments Done {A} _.
Arguments Panics {A}.
Arguments Undefined {A}.
Arguments Diverges {A}.

(** The boxes that [Box::into_raw] leaked to raw pointers. *)
Record Store := mkStore { st_nodes : gmap loc NodeBox; st_next : loc }.

Definition AM (A : Type) : Type := Store → Outcome (A * Store).

#[export] Instance AM_ret : MRet AM := λ A x st, Done (x, st).
#[export] Instance AM_bind : MBind AM := λ A B f m st,
  match m st with
  | Done (a, st') => f a st'
  | Panics => Panics
  | Undefined => Undefined
  | Diverges => Diverges
  end.

Definition lift {A} (o : option A) : AM A := λ st,
  match o with Some a => Done (a, st) | None => Panics end.
Definition diverge {A} : AM A := λ _, Diverges.

(** [Box::into_raw(Box::new(n))] *)
Definition new_box (n : NodeBox) : AM loc := λ st,
  Done (st_next st, mkStore (<[st_next st := n]> (st_nodes st)) (Pos.succ (st_next st))).
(** [&*ptr] *)
Definition deref (l : loc) : AM NodeBox := λ st,
  match st_nodes st !! l with Some n => Done (n, st) | None => Undefined end.
(** [Box::from_raw], a change of the box, [Box::into_raw] *)
Definition write_box (l : loc) (n : NodeBox) : AM unit := λ st,
  match st_nodes st !! l with
  | Some _ => Done (tt, mkStore (<[l := n]> (st_nodes st)) (st_next st))
  | None => Undefined
  end.
(** [drop(Box::from_raw(ptr))] *)
Definition free_box (l : loc) : AM unit := λ st,
  match st_nodes st !! l with
  | Some _ => Done (tt, mkStore (delete l (st_nodes st)) (st_next st))
  | None => Undefined
  end.

(** ** Helpers *)

Definition index_byte (key : list Z) (depth : nat) (prefix_len : Z) : option Z :=
  b ← key !! depth;
  let full_bytes := Z.to_nat (prefix_len / 8) in
  let remain_bits := prefix_len mod 8 in
  Some (if ((depth =? full_bytes)%nat && (0 <? remain_bits))%bool
        then Z.land b (high_mask remain_bits) else b).

(** The key with its host bits cleared, in sixteen bytes. *)
Definition masked_key_of (key : list Z) (prefix_len : Z) : option (list Z) :=
  let full_bytes := Z.to_nat (prefix_len / 8) in
  let remain_bits := prefix_len mod 8 in
  masked_key ← for_range 0 (full_bytes `min` length key)
    (λ i mk, k ← key !! i; store mk i k) (replicate 16 0);
  if ((0 <? remain_bits) && (full_bytes <? length key)%nat)%bool then
    k ← key !! full_bytes; store masked_key full_bytes (Z.land k (high_mask remain_bits))
  else Some masked_key.

Definition make_leaf (key : list Z) (prefix_len : Z) (value : ptr) : AM ptr :=
  mk ← lift (masked_key_of key prefix_len);
  l ← new_box (Leaf (mkLeaf value prefix_len mk));
  mret (Some l).

(** [ceil(prefix_len / 8)] *)
Definition max_depth_of (prefix_len : Z) : nat := Z.to_nat ((prefix_len + 7) / 8).

Section tree.
Context (bd : build).

(** ** insert_node *)

Fixpoint insert_node (fuel : nat) (node_ptr : ptr) (key : list Z) (depth : nat)
    (prefix_len : Z) (value : ptr) : AM ptr :=
  match fuel with
  | O => diverge
  | S fuel' =>
      node ← match node_ptr with Some l => n ← deref l; mret (Some n) | None => mret None end;
      if (max_depth_of prefix_len <=? depth)%nat then
        match node_ptr, node with
        | Some l, Some (Leaf _) =>
            mk ← lift (masked_key_of key prefix_len);
            _ ← write_box l (Leaf (mkLeaf value prefix_len mk));
            mret (Some l)
        | _, _ => make_leaf key prefix_len value
        end
      else
      match node_ptr, node with
      | Some l, Some (Leaf existing_leaf) =>
          _ ← free_box l;
          let existing_depth := Z.to_nat (leaf_prefix_len existing_leaf / 8) in
          existing_b ← lift (if (depth <? existing_depth)%nat
                             then index_byte (leaf_masked_key existing_leaf) depth (leaf_prefix_len existing_leaf)
                             else leaf_masked_key existing_leaf !! depth);
          existing_ptr ← new_box (Leaf existing_leaf);
          new_node ← lift (add_child bd (N4 Node4_default) existing_b (Some existing_ptr));
          new_b ← lift (index_byte key depth prefix_len);
          new_child ← insert_node fuel' None key (S depth) prefix_len value;
          final ← lift (add_child bd new_node new_b new_child);
          l' ← new_box final;
          mret (Some l')
      | _, _ =>
          l ← match node_ptr with Some l => mret l | None => new_box (N4 Node4_default) end;
          b ← lift (index_byte key depth prefix_len);
          n ← deref l;
          child ← lift (find_child bd n b);
          match child with
          | Some child_ptr =>
              new_child ← insert_node fuel' child_ptr key (S depth) prefix_len value;
              if decide (new_child = child_ptr) then mret (Some l) else
              parent ← deref l;
              parent' ← lift (update_child parent b new_child);
              _ ← write_box l parent';
              mret (Some l)
          | None =>
              leaf_ptr ← make_leaf key prefix_len value;
              owned ← deref l;
              new ← lift (add_child bd owned b leaf_ptr);
              l' ← new_box new;
              _ ← free_box l;
              mret (Some l')
          end
      end
  end.

(** ** search *)

Fixpoint search (fuel : nat) (node_ptr : ptr) (key : list Z) (depth : nat) : AM (option ptr) :=
  match fuel with
  | O => diverge
  | S fuel' =>
      match node_ptr with
      | None => mret None
      | Some l =>
          node ← deref l;
          match node with
          | Leaf leaf =>
              ok ← lift (leaf_matches leaf key);
              mret (if (ok : bool) then Some (leaf_value leaf) else None)
          | _ =>
              if (length key <=? depth)%nat then mret None else
              b ← lift (key !! depth);
              child ← lift (find_child bd node b);
              match child with
              | Some c => search fuel' c key (S depth)
              | None => mret None
              end
          end
      end
  end.

(** ** delete_node: the new pointer and [*deleted] *)

Fixpoint delete_node (fuel : nat) (node_ptr : ptr) (key : list Z) (depth : nat) (prefix_len : Z)
    : AM (ptr * bool) :=
  match fuel with
  | O => diverge
  | S fuel' =>
      match node_ptr with
      | None => mret (None, false)
      | Some l =>
          node ← deref l;
          match node with
          | Leaf leaf =>
              ok ← (if leaf_prefix_len leaf =? prefix_len then lift (leaf_matches leaf key)
                    else mret false);
              if (ok : bool) then _ ← free_box l; mret (None, true) else mret (node_ptr, false)
          | _ =>
              if (max_depth_of prefix_len <=? depth)%nat then mret (node_ptr, false) else
              b ← lift (index_byte key depth prefix_len);
              child ← lift (find_child bd node b);
              match child with
              | None => mret (node_ptr, false)
              | Some child_ptr =>
                  '(new_child, deleted) ← delete_node fuel' child_ptr key (S depth) prefix_len;
                  if negb deleted then mret (node_ptr, false) else
                  owned ← deref l;
                  if is_none new_child then
                    new ← lift (remove_child bd owned b);
                    l' ← new_box new;
                    _ ← free_box l;
                    mret (Some l', true)
                  else
                    owned' ← lift (update_child owned b new_child);
                    _ ← write_box l owned';
                    mret (Some l, true)
              end
          end
      end
  end.

(** ** drop_subtree *)

(** The child pointers in the order the loops visit them. *)
Definition drop_order (n : NodeBox) : option (list ptr) :=
  match n with
  | N4 n => mapM (λ i, n4_children n !! i) (seq 0 (count (n4_header n)))
  | N16 n => mapM (λ i, n16_children n !! i) (seq 0 (count (n16_header n)))
  | N48 n =>
      cs ← mapM (λ i, idx ← n48_index n !! i;
                  if idx <? 48 then n48_children n !! Z.to_nat idx else Some None) (seq 0 256);
      Some (filter is_Some cs)
  | N256 n => cs ← mapM (λ i, n256_children n !! i) (seq 0 256); Some (filter is_Some cs)
  | Leaf _ => Some []
  end.

Fixpoint iter {A} (f : A → AM unit) (xs : list A) : AM unit :=
  match xs with [] => mret tt | x :: xs' => _ ← f x; iter f xs' end.

Fixpoint drop_subtree (fuel : nat) (p : ptr) : AM unit :=
  match fuel with
  | O => diverge
  | S fuel' =>
      match p with
      | None => mret tt
      | Some l =>
          owned ← deref l;
          cs ← lift (drop_order owned);
          _ ← iter (drop_subtree fuel') cs;
          free_box l
      end
  end.

(** ** Tree *)

Record Tree := mkTree { tr_root : ptr; tr_size : Z (* usize *) }.

(** A recursion never goes deeper than the key: [max_depth] and the length of
    the key are at most 32 levels. *)
Definition tree_fuel : nat := 34.

Lemma tree_fuel_bound : (34 ≤ tree_fuel)%nat.
Proof. done. Qed.
#[global] Opaque tree_fuel.

Definition tree_new : AM Tree :=
  l ← new_box (N4 Node4_default); mret (mkTree (Some l) 0).

Definition usize_arith (x : Z) : option Z :=
  match b_profile bd with Debug => checked 64 x | Release => Some (wrap 64 x) end.

Definition insert_prefix (t : Tree) (ip : list Z) (prefix_len : Z) (value : ptr) : AM Tree :=
  new_root ← insert_node tree_fuel (tr_root t) ip 0 prefix_len value;
  size ← lift (usize_arith (tr_size t + 1));
  mret (mkTree new_root size).

Definition match_ip (t : Tree) (ip : list Z) : AM (option ptr) :=
  search tree_fuel (tr_root t) ip 0.

Definition delete_prefix (t : Tree) (ip : list Z) (prefix_len : Z) : AM (bool * Tree) :=
  '(root, deleted) ← delete_node tree_fuel (tr_root t) ip 0 prefix_len;
  mret (deleted, mkTree root (if (deleted : bool) then sat_sub (tr_size t) 1 else tr_size t)).

(** [insert] and [delete] with host semantics: [(ip.len() * 8) as u8]. *)
Definition tree_insert (t : Tree) (ip : list Z) (value : ptr) : AM Tree :=
  insert_prefix t ip (wrap 8 (Z.of_nat (length ip) * 8)) value.
Definition tree_delete (t : Tree) (ip : list Z) : AM (bool * Tree) :=
  delete_prefix t ip (wrap 8 (Z.of_nat (length ip) * 8)).

(** [impl Drop for Tree] *)
Definition tree_drop (t : Tree) : AM unit := λ st,
  drop_subtree (S (size (st_nodes st))) (tr_root t) st.
End tree.

(** ** Pure trees *)

(** What a tree that only grows holds: leaves, and inner nodes with an
    association list of children ([big] once the node has left the arrays). *)
Inductive ptree := PLeaf (lf : LeafNode) | PNode (big : bool) (cs : list (Z * ptree)).

Definition byte_at (key : list Z) (depth : nat) : Z := default 0 (key !! depth).
Definition ibyte (key : list Z) (depth : nat) (prefix_len : Z) : Z :=
  default 0 (index_byte key depth prefix_len).
Definition leaf_of (key : list Z) (prefix_len : Z) (v : ptr) : LeafNode :=
  mkLeaf v prefix_len (default [] (masked_key_of key prefix_len)).
Definition lmatch (lf : LeafNode) (key : list Z) : bool := default false (leaf_matches lf key).

(** [insert_node] on a pure tree; [r] is the number of bytes still to consume. *)
Fixpoint p_insert (r : nat) (t : option ptree) (key : list Z) (depth : nat) (len : Z) (v : ptr)
    : ptree :=
  match r with
  | O => PLeaf (leaf_of key len v)
  | S r' =>
      let b := ibyte key depth len in
      match t with
      | None => PNode false [(b, PLeaf (leaf_of key len v))]
      | Some (PLeaf lf) =>
          PNode false [(byte_at (leaf_masked_key lf) depth, PLeaf lf);
                       (b, p_insert r' None key (S depth) len v)]
      | Some (PNode big cs) =>
          match assoc cs b with
          | Some c => PNode big (assoc_set cs b (p_insert r' (Some c) key (S depth) len v))
          | None => PNode (grows big cs) (grown big cs ++ [(b, PLeaf (leaf_of key len v))])
          end
      end
  end.

(** [search] on a pure tree; [r] is the number of bytes left in the key. *)
Fixpoint p_search (r : nat) (t : ptree) (key : list Z) (depth : nat) : option ptr :=
  match t with
  | PLeaf lf => if lmatch lf key then Some (leaf_value lf) else None
  | PNode _ cs =>
      match r with
      | O => None
      | S r' => c ← assoc cs (byte_at key depth); p_search r' c key (S depth)
      end
  end.

(** ** Keys and leaves *)

Definition key_ok (key : list Z) (len : Z) : Prop :=
  Forall is_byte key ∧ (length key ≤ 16)%nat ∧ 0 ≤ len ≤ 8 * Z.of_nat (length key).

Definition leaf_ok (lf : LeafNode) : Prop :=
  length (leaf_masked_key lf) = 16%nat ∧ Forall is_byte (leaf_masked_key lf) ∧
  0 ≤ leaf_prefix_len lf ≤ 128.

Lemma land_mask_byte b m : is_byte b → is_byte (Z.land b m).
Proof.
  intros Hb. assert (Z.land b 255 = b) as <-.
  { change 255 with (Z.ones 8). rewrite Z.land_ones by lia. apply Z.mod_small. exact Hb. }
  rewrite <- Z.land_assoc, (Z.land_comm 255), Z.land_assoc. apply land_255_range.
Qed.

Lemma index_byte_run key depth len :
  Forall is_byte key → (depth < length key)%nat →
  index_byte key depth len = Some (ibyte key depth len) ∧ is_byte (ibyte key depth len).
Proof.
  intros Hby Hd. unfold ibyte, index_byte.
  destruct (lookup_lt_is_Some_2 key depth Hd) as [b Hb]. rewrite Hb. cbn [mbind option_bind default].
  split; [done|]. pose proof (proj1 (Forall_lookup _ _) Hby _ _ Hb) as Hbb. simpl.
  destruct (_ && _)%bool; [|done]. by apply land_mask_byte.
Qed.

Lemma byte_at_lookup key depth : (depth < length key)%nat → key !! depth = Some (byte_at key depth).
Proof. intros [b Hb]%lookup_lt_is_Some_2. unfold byte_at. by rewrite Hb. Qed.

Lemma byte_at_byte key depth : Forall is_byte key → is_byte (byte_at key depth).
Proof.
  intros Hby. unfold byte_at. destruct (key !! depth) as [b|] eqn:E; simpl; [|unfold is_byte; lia].
  by apply (proj1 (Forall_lookup _ _) Hby _ _ E).
Qed.

Lemma max_depth_full len :
  0 ≤ len →
  max_depth_of len = (Z.to_nat (len / 8)%Z + if (0 <? len mod 8)%Z then 1 else 0)%nat.
Proof.
  intros Hl. unfold max_depth_of. destruct (Z.ltb_spec 0 (len mod 8)); Z.div_mod_to_equations; lia.
Qed.

(** The masked key: the full bytes, the boundary byte, zeros. *)
Lemma masked_key_run key len :
  key_ok key len →
  ∃ mk, masked_key_of key len = Some mk ∧ length mk = 16%nat ∧ Forall is_byte mk ∧
    ∀ i, (i < max_depth_of len)%nat → mk !! i = Some (ibyte key i len).
Proof.
  intros (Hby & Hlen & Hr). unfold masked_key_of.
  pose proof (Z.div_mod len 8 ltac:(lia)) as Hdm. pose proof (Z.mod_pos_bound len 8 ltac:(lia)) as Hmod.
  set (full := Z.to_nat (len / 8)). set (rem := len mod 8) in *.
  pose proof (max_depth_full len ltac:(lia)) as Hmd. fold full rem in Hmd. rewrite Hmd. clear Hmd.
  assert (Z.of_nat full = len / 8) as Hfz by (unfold full; apply Z2Nat.id, Z.div_pos; lia).
  assert (full ≤ length key)%nat as Hfull by lia. rewrite Nat.min_l by done.
  destruct (for_range_inv (λ j mk, copied key 16 j mk ∧ Forall is_byte mk)
    (λ i mk, k ← key !! i; store mk i k) full 0 (replicate 16 0)) as (mk & -> & [Hl Hc] & Hbm).
  - split; [split; [done|lia]|]. apply Forall_replicate. unfold is_byte. lia.
  - intros i mk Hi [Hc Hbm]. rewrite (byte_at_lookup key i) by lia. cbn [mbind option_bind].
    rewrite store_ok by (rewrite (proj1 Hc); lia). eexists. split; [done|]. split.
    + apply copied_step; [done|lia|by apply byte_at_lookup; lia].
    + apply Forall_insert; [done|by apply byte_at_byte].
  - cbn [mbind option_bind].
    assert (∀ i, (i < full)%nat → mk !! i = Some (ibyte key i len)) as Hlow.
    { intros i Hi. rewrite Hc by lia. unfold ibyte, index_byte.
      rewrite (byte_at_lookup key i) by lia. cbn [mbind option_bind default]. fold full rem.
      by rewrite (proj2 (Nat.eqb_neq i full)) by lia. }
    destruct (Z.ltb_spec 0 rem) as [Hrem|Hrem]; simpl.
    + assert (full < length key)%nat as Hlt by lia. rewrite (proj2 (Nat.ltb_lt _ _) Hlt).
      rewrite (byte_at_lookup key full Hlt). cbn [mbind option_bind]. rewrite store_ok by lia.
      eexists. split; [done|]. split; [by rewrite length_insert|]. split.
      * apply Forall_insert; [done|]. by apply land_mask_byte, byte_at_byte.
      * intros i Hi. destruct (decide (i = full)) as [->|Hne].
        -- rewrite list_lookup_insert_eq by lia. unfold ibyte, index_byte.
           rewrite (byte_at_lookup key full Hlt). cbn [mbind option_bind default]. fold full rem.
           rewrite Nat.eqb_refl. by rewrite (proj2 (Z.ltb_lt 0 rem)) by lia.
        -- rewrite list_lookup_insert_ne by done. apply Hlow. lia.
    + eexists. split; [done|]. split; [done|]. split; [done|]. intros i Hi. apply Hlow. lia.
Qed.

Lemma leaf_of_ok key len v : key_ok key len → leaf_ok (leaf_of key len v).
Proof.
  intros Hk. destruct (masked_key_run key len Hk) as (mk & Hmk & Hl & Hb & _).
  unfold leaf_of, leaf_ok. rewrite Hmk. simpl. destruct Hk as (_ & ? & ?). split_and!; done || lia.
Qed.

Lemma bytes_match_run ip mk n : ∀ i,
  (i + n ≤ length ip)%nat → (i + n ≤ length mk)%nat → is_Some (bytes_match ip mk i n).
Proof.
  induction n as [|n IH]; intros i Hi Hm; [by eexists|]. cbn [bytes_match].
  rewrite (byte_at_lookup ip i), (byte_at_lookup mk i) by lia. cbn [mbind option_bind].
  destruct (_ =? _); [apply IH; lia|by eexists].
Qed.

Lemma leaf_matches_run lf key :
  leaf_ok lf → (length key ≤ 16)%nat → leaf_matches lf key = Some (lmatch lf key).
Proof.
  intros (Hl & _ & Hr) Hlen. unfold lmatch. cut (is_Some (leaf_matches lf key)).
  { intros [x ->]. done. }
  unfold leaf_matches. set (full := Z.to_nat (leaf_prefix_len lf / 8)).
  destruct (bytes_match_run key (leaf_masked_key lf) (full `min` length key) 0) as [ok ->]; [lia|lia|].
  cbn [mbind option_bind]. destruct (negb ok); [by eexists|].
  destruct (0 <? _); simpl; [|by eexists].
  destruct (Nat.ltb_spec full (length key)) as [Hf|]; [|by eexists].
  rewrite (byte_at_lookup key full), (byte_at_lookup (leaf_masked_key lf) full) by lia. by eexists.
Qed.

(** ** The boxes of a tree *)

(** [art_rep ns t l F]: in the boxes [ns] the pointer [l] is the root of [t],
    and [F] are the boxes it consists of, none of them shared. *)
Inductive art_rep (ns : gmap loc NodeBox) : ptree → loc → gset loc → Prop :=
  | rep_leaf l lf : ns !! l = Some (Leaf lf) → leaf_ok lf → art_rep ns (PLeaf lf) l {[ l ]}
  | rep_node l n cs kls F :
      ns !! l = Some n → node_rep true n kls → kids_rep ns cs kls F → l ∉ F →
      art_rep ns (PNode (is_big n) cs) l ({[ l ]} ∪ F)
with kids_rep (ns : gmap loc NodeBox) : list (Z * ptree) → list (Z * loc) → gset loc → Prop :=
  | kids_nil : kids_rep ns [] [] ∅
  | kids_cons b t l cs kls F1 F2 :
      art_rep ns t l F1 → kids_rep ns cs kls F2 → F1 ## F2 →
      kids_rep ns ((b, t) :: cs) ((b, l) :: kls) (F1 ∪ F2).

Scheme art_rep_mut := Induction for art_rep Sort Prop
  with kids_rep_mut := Induction for kids_rep Sort Prop.

Lemma rep_frame_all :
  (∀ ns t l F, art_rep ns t l F → ∀ ns', (∀ x, x ∈ F → ns' !! x = ns !! x) → art_rep ns' t l F) ∧
  (∀ ns cs kls F, kids_rep ns cs kls F → ∀ ns', (∀ x, x ∈ F → ns' !! x = ns !! x) →
    kids_rep ns' cs kls F).
Proof.
  assert (∀ ns t l F, art_rep ns t l F → ∀ ns', (∀ x, x ∈ F → ns' !! x = ns !! x) →
    art_rep ns' t l F) as Hr.
  { intros ns. apply (art_rep_mut ns
      (λ t l F _, ∀ ns', (∀ x, x ∈ F → ns' !! x = ns !! x) → art_rep ns' t l F)
      (λ cs kls F _, ∀ ns', (∀ x, x ∈ F → ns' !! x = ns !! x) → kids_rep ns' cs kls F)).
    - intros l lf Hl Hok ns' Hf. constructor; [|done]. rewrite Hf by set_solver. done.
    - intros l n cs kls F Hl Hn _ IH HlF ns' Hf. econstructor; [|done| |done].
      + rewrite Hf by set_solver. done.
      + apply IH. intros x Hx. apply Hf. set_solver.
    - intros ns' _. constructor.
    - intros b t l cs kls F1 F2 _ IH1 _ IH2 Hd ns' Hf. constructor; [| |done].
      + apply IH1. intros x Hx. apply Hf. set_solver.
      + apply IH2. intros x Hx. apply Hf. set_solver. }
  split; [exact Hr|]. intros ns cs kls F. induction 1 as [|b t l cs kls F1 F2 Ht _ IH Hd]; intros ns' Hf.
  - constructor.
  - constructor; [|apply IH; intros x Hx; apply Hf; set_solver|done].
    eapply Hr; [done|]. intros x Hx. apply Hf. set_solver.
Qed.

Lemma art_frame ns ns' t l F :
  art_rep ns t l F → (∀ x, x ∈ F → ns' !! x = ns !! x) → art_rep ns' t l F.
Proof. intros. by eapply (proj1 rep_frame_all). Qed.

Lemma kids_frame ns ns' cs kls F :
  kids_rep ns cs kls F → (∀ x, x ∈ F → ns' !! x = ns !! x) → kids_rep ns' cs kls F.
Proof. intros. by eapply (proj2 rep_frame_all). Qed.

Lemma art_root ns t l F : art_rep ns t l F → l ∈ F ∧ is_Some (ns !! l).
Proof. destruct 1; (split; [set_solver|by eexists]). Qed.

Lemma art_alloc ns t l F x : art_rep ns t l F → x ∈ F → is_Some (ns !! x).
Proof.
  intros Hr. revert x. revert t l F Hr. apply (art_rep_mut ns
    (λ t l F _, ∀ x, x ∈ F → is_Some (ns !! x)) (λ cs kls F _, ∀ x, x ∈ F → is_Some (ns !! x))).
  - intros l lf Hl _ x ->%elem_of_singleton. by eexists.
  - intros l n cs kls F Hl _ _ IH _ x [->%elem_of_singleton|Hx]%elem_of_union; [by eexists|by apply IH].
  - set_solver.
  - intros b t l cs kls F1 F2 _ IH1 _ IH2 _ x [Hx|Hx]%elem_of_union; [by apply IH1|by apply IH2].
Qed.

Lemma kids_keys ns cs kls F : kids_rep ns cs kls F → cs.*1 = kls.*1.
Proof. induction 1; csimpl; congruence. Qed.

Lemma kids_length ns cs kls F : kids_rep ns cs kls F → length cs = length kls.
Proof. intros Hk. by rewrite <- (length_fmap fst), (kids_keys _ _ _ _ Hk), length_fmap. Qed.

Lemma kids_none ns cs kls F b : kids_rep ns cs kls F → assoc cs b = None ↔ assoc kls b = None.
Proof. intros Hk. by rewrite !assoc_None, (kids_keys _ _ _ _ Hk). Qed.

Lemma kids_some ns cs kls F b t :
  kids_rep ns cs kls F → assoc cs b = Some t →
  ∃ l F1, assoc kls b = Some l ∧ art_rep ns t l F1 ∧ F1 ⊆ F.
Proof.
  induction 1 as [|k t' l cs kls F1 F2 Ht Hk IH Hd]; csimpl; [done|].
  destruct (k =? b).
  - intros [= <-]. exists l, F1. split_and!; [done|done|set_solver].
  - intros Ha. destruct (IH Ha) as (l' & F' & ? & ? & ?). exists l', F'. split_and!; [done|done|set_solver].
Qed.

(** Replacing the tree of one child: its boxes are exchanged, the others kept. *)
Lemma kids_set ns cs kls F b t :
  kids_rep ns cs kls F → assoc cs b = Some t →
  ∃ l F1 F2, assoc kls b = Some l ∧ art_rep ns t l F1 ∧ F = F1 ∪ F2 ∧ F1 ## F2 ∧
    ∀ ns' t' l' F1', art_rep ns' t' l' F1' → F1' ## F2 → (∀ x, x ∈ F2 → ns' !! x = ns !! x) →
      kids_rep ns' (assoc_set cs b t') (assoc_set kls b l') (F1' ∪ F2).
Proof.
  induction 1 as [|k t0 l cs kls Fa Fb Ht Hk IH Hd]; csimpl; [done|].
  destruct (Z.eqb_spec k b) as [->|Hne].
  - intros [= <-]. exists l, Fa, Fb. split_and!; [done|done|done|done|].
    intros ns' t' l' F1' Hr' Hd' Hf. constructor; [done| |done]. by eapply kids_frame.
  - intros Ha. destruct (IH Ha) as (l' & F1 & F2 & Hl' & Hr' & HF & Hd' & Hset).
    exists l', F1, (Fa ∪ F2). split_and!; [done|done|set_solver|set_solver|].
    intros ns' t' l'' F1' Hr'' Hd'' Hf.
    replace (F1' ∪ (Fa ∪ F2)) with (Fa ∪ (F1' ∪ F2)) by set_solver. constructor.
    + eapply art_frame; [done|]. intros x Hx. apply Hf. set_solver.
    + apply Hset; [done|set_solver|]. intros x Hx. apply Hf. set_solver.
    + set_solver.
Qed.

Lemma assoc_set_same {A} (cs : list (Z * A)) b x : assoc cs b = Some x → assoc_set cs b x = cs.
Proof.
  induction cs as [|[k y] cs IH]; csimpl; [done|]. destruct (Z.eqb_spec k b) as [->|Hne].
  - by intros [= ->].
  - intros Ha. by rewrite IH.
Qed.

Lemma kids_snoc ns cs kls F b t l F' :
  kids_rep ns cs kls F → art_rep ns t l F' → F ## F' →
  kids_rep ns (cs ++ [(b, t)]) (kls ++ [(b, l)]) (F ∪ F').
Proof.
  induction 1 as [|k t0 l0 cs kls Fa Fb Ht Hk IH Hd]; intros Hr Hd'; simpl.
  - replace (∅ ∪ F') with (F' ∪ ∅) by set_solver. repeat constructor; [done|set_solver].
  - replace (Fa ∪ Fb ∪ F') with (Fa ∪ (Fb ∪ F')) by set_solver.
    constructor; [done|apply IH; [done|set_solver]|set_solver].
Qed.

Lemma kids_keep_last ns cs kls F :
  kids_rep ns cs kls F → ∃ F', kids_rep ns (keep_last cs) (keep_last kls) F' ∧ F' ⊆ F.
Proof.
  induction 1 as [|k t l cs kls Fa Fb Ht Hk (F' & IH & Hsub) Hd]; simpl.
  - exists ∅. split; [constructor|done].
  - assert (is_some (assoc cs k) = is_some (assoc kls k)) as ->.
    { pose proof (kids_none _ _ _ _ k Hk). destruct (assoc cs k), (assoc kls k); naive_solver. }
    destruct (is_some (assoc kls k)).
    + exists F'. split; [done|set_solver].
    + exists (Fa ∪ F'). split; [|set_solver]. constructor; [done|done|set_solver].
Qed.

Lemma kids_grown ns big cs kls F :
  kids_rep ns cs kls F → ∃ F', kids_rep ns (grown big cs) (grown big kls) F' ∧ F' ⊆ F.
Proof.
  intros Hk. unfold grown. rewrite (kids_length _ _ _ _ Hk).
  destruct (_ && _)%bool; [by apply kids_keep_last|by exists F].
Qed.

Lemma kids_grows ns big cs kls F : kids_rep ns cs kls F → grows big cs = grows big kls.
Proof. intros Hk. unfold grows. by rewrite (kids_length _ _ _ _ Hk). Qed.

(** ** insert_node and search run as on pure trees *)

Lemma am_run {A B} (m : AM A) (f : A → AM B) st a st' :
  m st = Done (a, st') → (m ≫= f) st = f a st'.
Proof. intros Hm. unfold mbind, AM_bind. by rewrite Hm. Qed.

Lemma lift_run {A B} (o : option A) (f : A → AM B) st a :
  o = Some a → (lift o ≫= f) st = f a st.
Proof. by intros ->. Qed.

Lemma deref_run {B} l (f : NodeBox → AM B) st n :
  st_nodes st !! l = Some n → (deref l ≫= f) st = f n st.
Proof. intros Hl. apply am_run. unfold deref. by rewrite Hl. Qed.

Definition store_wf (st : Store) : Prop :=
  ∀ x, is_Some (st_nodes st !! x) → (x < st_next st)%positive.

(** [st'] was reached from [st] by an operation on the boxes [F] that leaves
    the boxes [F']: all others are as before, new boxes are fresh. *)
Record changes (st st' : Store) (F F' : gset loc) : Prop := {
  evo_wf : store_wf st';
  evo_next : (st_next st ≤ st_next st')%positive;
  evo_frame x : (x < st_next st)%positive → x ∉ F → st_nodes st' !! x = st_nodes st !! x;
  evo_new x : x ∈ F' → x ∈ F ∨ (st_next st ≤ x)%positive;
}.

Lemma store_wf_new st n :
  store_wf st → store_wf (mkStore (<[st_next st := n]> (st_nodes st)) (Pos.succ (st_next st))).
Proof.
  intros Hwf x. simpl. rewrite lookup_insert. case_decide; [lia|]. intros Hx. specialize (Hwf x Hx). lia.
Qed.

Lemma store_wf_sub st ns nx :
  store_wf st → (∀ x, is_Some (ns !! x) → is_Some (st_nodes st !! x)) → (st_next st ≤ nx)%positive →
  store_wf (mkStore ns nx).
Proof. intros Hwf Hs Hn x Hx. specialize (Hwf x (Hs x Hx)). simpl. lia. Qed.

Lemma grown_new st n F :
  store_wf st →
  changes st (mkStore (<[st_next st := n]> (st_nodes st)) (Pos.succ (st_next st))) F {[ st_next st ]}.
Proof.
  intros Hwf. split; simpl; [by apply store_wf_new|lia| |].
  - intros x Hx _. by rewrite lookup_insert_ne by lia.
  - intros x ->%elem_of_singleton. right. lia.
Qed.

Lemma grown_trans st1 st2 st3 F1 F2 F3 :
  changes st1 st2 F1 F2 → changes st2 st3 F2 F3 → changes st1 st3 F1 F3.
Proof.
  intros [W1 N1 R1 A1] [W2 N2 R2 A2]. split; [done|lia| |].
  - intros x Hx HF. rewrite R2; [by apply R1|lia|]. intros [?|?]%A1; [done|lia].
  - intros x [[Hx|Hx]%A1|Hx]%A2; [by left|right; lia|right; lia].
Qed.

Lemma grown_mono st1 st2 F1 F1' F2 F2' :
  changes st1 st2 F1 F2 → F1 ⊆ F1' → F2' ⊆ F2 ∪ F1' → changes st1 st2 F1' F2'.
Proof.
  intros [W N R A] H1 H2. split; [done|done| |].
  - intros x Hx HF. apply R; [done|set_solver].
  - intros x Hx. destruct (decide (x ∈ F1')) as [|Hn]; [by left|].
    destruct (A x ltac:(set_solver)); [set_solver|by right].
Qed.

Lemma rep_below st t l F x : store_wf st → art_rep (st_nodes st) t l F → x ∈ F → (x < st_next st)%positive.
Proof. intros Hwf Hr Hx. apply Hwf. by eapply art_alloc. Qed.

Lemma kids_below st cs kls F x :
  store_wf st → kids_rep (st_nodes st) cs kls F → x ∈ F → (x < st_next st)%positive.
Proof.
  intros Hwf. induction 1 as [|k t l cs kls Fa Fb Ht Hk IH Hd]; [set_solver|].
  intros [Hx|Hx]%elem_of_union; [by eapply rep_below|by apply IH].
Qed.

Lemma make_leaf_run key len v st :
  key_ok key len →
  make_leaf key len v st =
  Done (Some (st_next st),
    mkStore (<[st_next st := Leaf (leaf_of key len v)]> (st_nodes st)) (Pos.succ (st_next st))).
Proof.
  intros Hk. destruct (masked_key_run key len Hk) as (mk & Hmk & _). unfold make_leaf, leaf_of.
  by rewrite (lift_run _ _ _ _ Hmk), Hmk.
Qed.

Lemma max_depth_le key len : key_ok key len → (max_depth_of len ≤ length key)%nat.
Proof. intros (_ & _ & Hr). unfold max_depth_of. Z.div_mod_to_equations. lia. Qed.

Lemma node_not_leaf {A} n (x : LeafNode → A) (y : A) :
  match n with Leaf _ => False | _ => True end → match n with Leaf lf => x lf | _ => y end = y.
Proof. by destruct n. Qed.

Section runs.
Context (bd : build) (Hrel : b_profile bd = Release) (Harch : b_arch bd ≠ AArch64).

Lemma release_room n : has_room bd n.
Proof. destruct n; simpl; try done. unfold u8_arith. rewrite Hrel. by eexists. Qed.

(** The terminal case. *)
Lemma insert_node_leaf key len v fuel p t F st depth :
  key_ok key len → (max_depth_of len ≤ depth)%nat → (0 < fuel)%nat → store_wf st →
  match p, t with
  | None, None => F = ∅
  | Some l, Some t => art_rep (st_nodes st) t l F
  | _, _ => False
  end →
  ∃ l' st' F', insert_node bd fuel p key depth len v st = Done (Some l', st') ∧
    art_rep (st_nodes st') (PLeaf (leaf_of key len v)) l' F' ∧ changes st st' F F'.
Proof.
  intros Hk Hd Hf Hwf Hp. destruct fuel as [|fuel]; [lia|]. cbn [insert_node].
  pose proof (leaf_of_ok key len v Hk) as Hok.
  assert (∀ F, ∃ l' st' F', make_leaf key len v st = Done (Some l', st') ∧
    art_rep (st_nodes st') (PLeaf (leaf_of key len v)) l' F' ∧ changes st st' F F') as Hnew.
  { intros F0. rewrite (make_leaf_run _ _ _ _ Hk). eexists _, _, _. split; [done|].
    split; [apply rep_leaf; [simpl; by rewrite lookup_insert_eq|done]|by apply grown_new]. }
  apply Nat.leb_le in Hd.
  destruct p as [l|], t as [t|]; try done.
  - rewrite (am_run _ _ st (st_nodes st !! l) st)
      by (destruct (art_root _ _ _ _ Hp) as [_ [n Hl]]; rewrite (deref_run _ _ _ _ Hl), Hl; done).
    rewrite Hd. destruct Hp as [l lf Hl Hlok|l n cs kls F Hl Hn Hkids HlF]; rewrite Hl.
    + destruct (masked_key_run key len Hk) as (mk & Hmk & _). rewrite (lift_run _ _ _ _ Hmk).
      rewrite (am_run _ _ _ tt (mkStore (<[l := Leaf (mkLeaf v len mk)]> (st_nodes st)) (st_next st)))
        by (unfold write_box; by rewrite Hl).
      eexists l, _, {[ l ]}. split; [done|]. unfold leaf_of in *. rewrite Hmk in *. simpl in *. split.
      * apply rep_leaf; [simpl; by rewrite lookup_insert_eq|done].
      * split; simpl; [|lia| |by left].
        -- eapply store_wf_sub; [done| |lia]. intros x. rewrite lookup_insert. case_decide; subst; eauto.
        -- intros x _ Hx. rewrite lookup_insert_ne by set_solver. done.
    + destruct n; [..|by destruct Hn]; apply Hnew.
  - rewrite (am_run _ _ st None st) by done. rewrite Hd. apply Hnew.
Qed.

(** No child for the byte: a leaf is added and the node is boxed anew. *)
Lemma insert_absent st l n cs kls F key len v b :
  store_wf st → st_nodes st !! l = Some n → node_rep true n kls → kids_rep (st_nodes st) cs kls F →
  l ∉ F → key_ok key len → is_byte b → assoc cs b = None →
  ∃ l' st' F',
    (leaf_ptr ← make_leaf key len v;
     owned ← deref l;
     new ← lift (add_child bd owned b leaf_ptr);
     l' ← new_box new;
     _ ← free_box l;
     mret (Some l')) st = Done (Some l', st') ∧
    art_rep (st_nodes st')
      (PNode (grows (is_big n) cs) (grown (is_big n) cs ++ [(b, PLeaf (leaf_of key len v))])) l' F' ∧
    changes st st' ({[ l ]} ∪ F) F'.
Proof.
  intros Hwf Hl Hn Hkids HlF Hk Hb Ha.
  set (lf := leaf_of key len v). set (l1 := st_next st). set (l2 := Pos.succ l1).
  pose proof (Hwf l (mk_is_Some _ _ Hl)) as Hlt. fold l1 in Hlt.
  destruct (add_child_run bd n kls b l1 Hn Hb) as (n' & Hadd & Hbig & Hn' & _);
    [by apply (kids_none _ _ _ _ _ Hkids)|apply release_room|].
  rewrite (am_run _ _ _ _ _ (make_leaf_run key len v st Hk)). fold lf l1.
  rewrite (deref_run _ _ _ n) by (simpl; by rewrite lookup_insert_ne by lia).
  rewrite (lift_run _ _ _ _ Hadd). cbv [new_box free_box mbind AM_bind mret AM_ret]. cbn [st_nodes st_next].
  fold l2. rewrite !lookup_insert_ne, Hl by lia.
  destruct (kids_grown _ (is_big n) _ _ _ Hkids) as (F' & Hg & Hsub).
  eexists l2, _, ({[ l2 ]} ∪ (F' ∪ {[ l1 ]})). split; [done|]. simpl.
  assert (∀ x, x ∈ F → x < l1)%positive as HF by (intros x; by apply (kids_below _ _ _ _ _ Hwf Hkids)).
  split.
  - rewrite (kids_grows _ _ _ _ _ Hkids), <- Hbig. eapply rep_node; [|exact Hn'| |].
    + rewrite lookup_delete_ne, lookup_insert_eq by lia. done.
    + apply kids_snoc.
      * eapply kids_frame; [exact Hg|]. intros x Hx%Hsub. specialize (HF x Hx).
        rewrite lookup_delete_ne, !lookup_insert_ne; [done|lia|lia|set_solver].
      * apply rep_leaf; [|by apply leaf_of_ok].
        rewrite lookup_delete_ne, lookup_insert_ne, lookup_insert_eq by lia. done.
      * apply disjoint_singleton_r. intros Hx%Hsub. specialize (HF _ Hx). lia.
    + rewrite elem_of_union, elem_of_singleton. intros [Hx%Hsub|Hx]; [specialize (HF _ Hx)|]; lia.
  - split; simpl; [| lia| |].
    + intros x. simpl. rewrite lookup_delete, !lookup_insert.
      repeat case_decide; try lia; intros Hx; specialize (Hwf x Hx); lia.
    + intros x Hx HxF. fold l1 in Hx. rewrite lookup_delete_ne, !lookup_insert_ne; [done|lia|lia|set_solver].
    + intros x Hx. fold l1. rewrite !elem_of_union, !elem_of_singleton in Hx.
      destruct Hx as [->|[Hx%Hsub| ->]]; [right; lia|left; set_solver|right; lia].
Qed.

Lemma existing_byte lf depth :
  leaf_ok lf → (depth < 16)%nat →
  (if (depth <? Z.to_nat (leaf_prefix_len lf / 8))%nat
   then index_byte (leaf_masked_key lf) depth (leaf_prefix_len lf)
   else leaf_masked_key lf !! depth) = Some (byte_at (leaf_masked_key lf) depth).
Proof.
  intros (Hl & _) Hd. pose proof (byte_at_lookup (leaf_masked_key lf) depth ltac:(lia)) as Hb.
  destruct (Nat.ltb_spec depth (Z.to_nat (leaf_prefix_len lf / 8))) as [Hlt|]; [|done].
  unfold index_byte. rewrite Hb. cbn [mbind option_bind].
  by rewrite (proj2 (Nat.eqb_neq depth _)) by lia.
Qed.

(** A leaf in the way: a node for the old leaf and the new branch. *)
Lemma insert_expand st l lf depth nb rec tc :
  store_wf st → st_nodes st !! l = Some (Leaf lf) → leaf_ok lf → (depth < 16)%nat → is_byte nb →
  (∀ st1, store_wf st1 → ∃ lc st2 Fc, rec st1 = Done (Some lc, st2) ∧
    art_rep (st_nodes st2) tc lc Fc ∧ changes st1 st2 ∅ Fc) →
  ∃ l' st' F',
    (_ ← free_box l;
     existing_b ← lift (if (depth <? Z.to_nat (leaf_prefix_len lf / 8))%nat
                        then index_byte (leaf_masked_key lf) depth (leaf_prefix_len lf)
                        else leaf_masked_key lf !! depth);
     existing_ptr ← new_box (Leaf lf);
     new_node ← lift (add_child bd (N4 Node4_default) existing_b (Some existing_ptr));
     new_b ← lift (Some nb);
     new_child ← rec;
     final ← lift (add_child bd new_node new_b new_child);
     l' ← new_box final;
     mret (Some l')) st = Done (Some l', st') ∧
    art_rep (st_nodes st')
      (PNode false [(byte_at (leaf_masked_key lf) depth, PLeaf lf); (nb, tc)]) l' F' ∧
    changes st st' {[ l ]} F'.
Proof.
  intros Hwf Hl Hok Hd Hb Hrec. set (e := st_next st). set (eb := byte_at (leaf_masked_key lf) depth).
  pose proof (Hwf l (mk_is_Some _ _ Hl)) as Hlt. fold e in Hlt.
  set (st1 := mkStore (<[e := Leaf lf]> (delete l (st_nodes st))) (Pos.succ e)).
  assert (store_wf st1) as Hwf1.
  { intros x. simpl. rewrite lookup_insert, lookup_delete. repeat case_decide; try lia; intros Hx.
    specialize (Hwf x Hx). unfold e. lia. }
  assert (is_byte eb) as Heb by (apply byte_at_byte, Hok).
  destruct (add_small_run bd (N4 Node4_default) [] eb e (node_rep_default true) eq_refl ltac:(simpl; lia) Heb)
    as (n1 & Ha1 & Hs1 & Hn1).
  destruct (Hrec st1 Hwf1) as (lc & st2 & Fc & Hrun & Hc & Hev).
  destruct (add_small_run bd n1 _ nb lc Hn1 Hs1 ltac:(simpl; lia) Hb) as (n2 & Ha2 & Hs2 & Hn2).
  rewrite (am_run _ _ _ tt (mkStore (delete l (st_nodes st)) (st_next st)))
    by (unfold free_box; by rewrite Hl).
  rewrite (lift_run _ _ _ _ (existing_byte lf depth Hok Hd)).
  rewrite (am_run (new_box (Leaf lf)) _ _ e st1) by done.
  rewrite (lift_run _ _ _ _ Ha1), (lift_run _ _ _ nb eq_refl), (am_run _ _ _ _ _ Hrun).
  rewrite (lift_run _ _ _ _ Ha2). set (l' := st_next st2).
  pose proof (evo_next _ _ _ _ Hev) as Hnx. fold l' in Hnx. simpl in Hnx.
  assert (∀ x, x ∈ Fc → (e < x < l')%positive) as HFc.
  { intros x Hx. split; [|by apply (rep_below _ _ _ _ _ (evo_wf _ _ _ _ Hev) Hc)].
    destruct (evo_new _ _ _ _ Hev x Hx) as [?|Hge]; [set_solver|]. simpl in Hge. lia. }
  eexists l', _, ({[ l' ]} ∪ ({[ e ]} ∪ (Fc ∪ ∅))). split; [done|]. cbn [st_nodes st_next]. split.
  - rewrite <- Hs2. eapply rep_node; [by rewrite lookup_insert_eq|exact Hn2| |].
    + constructor; [|constructor; [|constructor|set_solver]|].
      * apply rep_leaf; [|done]. rewrite lookup_insert_ne by lia.
        rewrite (evo_frame _ _ _ _ Hev); [|simpl; lia|apply not_elem_of_empty]. simpl. by rewrite lookup_insert_eq.
      * eapply art_frame; [exact Hc|]. intros x Hx%HFc. by rewrite lookup_insert_ne by lia.
      * apply disjoint_singleton_l. rewrite elem_of_union. intros [Hx%HFc|]; [lia|set_solver].
    + rewrite !elem_of_union, elem_of_singleton. intros [Hx|[Hx%HFc|?]]; [lia|lia|set_solver].
  - split; cbn [st_nodes st_next].
    + apply store_wf_new, (evo_wf _ _ _ _ Hev).
    + fold e. lia.
    + intros x Hx HxF. fold e in Hx. rewrite lookup_insert_ne by lia.
      rewrite (evo_frame _ _ _ _ Hev); [|simpl; lia|apply not_elem_of_empty]. simpl.
      rewrite lookup_insert_ne, lookup_delete_ne; [done|set_solver|lia].
    + intros x. fold e. rewrite !elem_of_union, !elem_of_singleton.
      intros [->|[->|[Hx%HFc|?]]]; [right; lia|right; lia|right; lia|set_solver].
Qed.

(** A child for the byte: the recursive call, then the parent's pointer. *)
Lemma insert_below st l n cs kls F b c rec tc :
  store_wf st → st_nodes st !! l = Some n → node_rep true n kls → kids_rep (st_nodes st) cs kls F →
  l ∉ F → is_byte b → assoc cs b = Some c →
  (∀ lc Fc, assoc kls b = Some lc → art_rep (st_nodes st) c lc Fc →
    ∃ l1 st1 F1, rec (Some lc) st = Done (Some l1, st1) ∧ art_rep (st_nodes st1) tc l1 F1 ∧
      changes st st1 Fc F1) →
  ∃ lc st' F', assoc kls b = Some lc ∧
    (new_child ← rec (Some lc);
     if decide (new_child = Some lc) then mret (Some l) else
     parent ← deref l;
     parent' ← lift (update_child parent b new_child);
     _ ← write_box l parent';
     mret (Some l)) st = Done (Some l, st') ∧
    art_rep (st_nodes st') (PNode (is_big n) (assoc_set cs b tc)) l F' ∧
    changes st st' ({[ l ]} ∪ F) F'.
Proof.
  intros Hwf Hl Hn Hkids HlF Hb Ha Hrec.
  destruct (kids_set _ _ _ _ b c Hkids Ha) as (lc & Fc & F2 & Hlc & Hc & -> & Hd & Hset).
  destruct (Hrec lc Fc Hlc Hc) as (l1 & st1 & F1 & Hrun & H1 & Hev). exists lc.
  cut (∃ st' F', (new_child ← rec (Some lc);
     if decide (new_child = Some lc) then mret (Some l) else
     parent ← deref l;
     parent' ← lift (update_child parent b new_child);
     _ ← write_box l parent';
     mret (Some l)) st = Done (Some l, st') ∧
    art_rep (st_nodes st') (PNode (is_big n) (assoc_set cs b tc)) l F' ∧
    changes st st' ({[ l ]} ∪ (Fc ∪ F2)) F').
  { intros (st' & F' & Hout). by exists st', F'. }
  assert (∀ x, x ∈ F1 → x ∉ F2 ∧ x ≠ l) as HF1.
  { intros x Hx. destruct (evo_new _ _ _ _ Hev x Hx) as [Hx'|Hge]; [set_solver|]. split.
    - intros Hx2. pose proof (kids_below _ _ _ _ x Hwf Hkids ltac:(set_solver)). lia.
    - intros ->. pose proof (Hwf l (mk_is_Some _ _ Hl)). lia. }
  assert (st_nodes st1 !! l = Some n) as Hl1.
  { rewrite (evo_frame _ _ _ _ Hev); [done|by apply Hwf|set_solver]. }
  assert (∀ x, x ∈ F2 → st_nodes st1 !! x = st_nodes st !! x) as Hf2.
  { intros x Hx. apply (evo_frame _ _ _ _ Hev); [|set_solver].
    apply (kids_below _ _ _ _ x Hwf Hkids). set_solver. }
  assert (changes st st1 ({[ l ]} ∪ (Fc ∪ F2)) ({[ l ]} ∪ (F1 ∪ F2))) as Hev'.
  { eapply grown_mono; [exact Hev|set_solver|set_solver]. }
  rewrite (am_run _ _ _ _ _ Hrun).
  destruct (decide (Some l1 = Some lc)) as [[= ->]|Hne].
  - exists st1, ({[ l ]} ∪ (F1 ∪ F2)). split; [done|]. split; [|done].
    eapply rep_node; [done| | |set_solver]; [exact Hn|].
    rewrite <- (assoc_set_same kls b lc Hlc). apply Hset; [done|set_solver|done].
  - rewrite (deref_run _ _ _ _ Hl1).
    destruct (update_child_run n kls b l1 Hn Hb (mk_is_Some _ _ Hlc)) as (n' & Hu & Hbig & Hn').
    rewrite (lift_run _ _ _ _ Hu). unfold write_box, mbind, AM_bind. rewrite Hl1.
    eexists _, ({[ l ]} ∪ (F1 ∪ F2)). split; [done|]. simpl. split.
    + rewrite <- Hbig. eapply rep_node; [by rewrite lookup_insert_eq|exact Hn'| |set_solver].
      apply Hset; [|set_solver|].
      * eapply art_frame; [exact H1|]. intros x Hx%HF1. rewrite lookup_insert_ne by naive_solver. done.
      * intros x Hx. rewrite lookup_insert_ne by set_solver. by apply Hf2.
    + destruct Hev' as [W N R A]. split; simpl; [|done| |done].
      * eapply store_wf_sub; [exact W| |lia]. intros x. rewrite lookup_insert. case_decide; subst; eauto.
      * intros x Hx HxF. rewrite lookup_insert_ne by set_solver. by apply R.
Qed.

Theorem insert_node_run key len v :
  key_ok key len → ∀ r fuel depth st p t F,
  (depth + r = max_depth_of len)%nat → (r < fuel)%nat → store_wf st →
  match p, t with
  | None, None => F = ∅
  | Some l, Some t => art_rep (st_nodes st) t l F
  | _, _ => False
  end →
  ∃ l' st' F', insert_node bd fuel p key depth len v st = Done (Some l', st') ∧
    art_rep (st_nodes st') (p_insert r t key depth len v) l' F' ∧ changes st st' F F'.
Proof.
  intros Hk. pose proof (max_depth_le key len Hk) as Hmd. pose proof Hk as (Hby & H16 & _).
  induction r as [|r IH]; intros fuel depth st p t F Hr Hf Hwf Hp.
  { apply (insert_node_leaf key len v fuel p t F st depth Hk); [lia|lia|done|done]. }
  destruct fuel as [|fuel]; [lia|]. cbn [insert_node p_insert].
  destruct (index_byte_run key depth len Hby ltac:(lia)) as [Hib Hb]. rewrite Hib.
  set (b := ibyte key depth len) in *.
  assert ((max_depth_of len <=? depth)%nat = false) as Hleb by (apply Nat.leb_gt; lia).
  destruct p as [l|], t as [t|]; try done.
  - destruct Hp as [l lf Hl Hlok|l n cs kls F Hl Hn Hkids HlF].
    + rewrite (am_run _ _ st (Some (Leaf lf)) st) by (by rewrite (deref_run _ _ _ _ Hl)). rewrite Hleb.
      eapply (insert_expand st l lf depth b _ _ Hwf Hl Hlok); [lia|done|].
      intros st1 Hwf1. by apply (IH fuel (S depth) st1 None None ∅); [lia|lia|..].
    + rewrite (am_run _ _ st (Some n) st) by (by rewrite (deref_run _ _ _ _ Hl)). rewrite Hleb.
      rewrite node_not_leaf by (by destruct n; [..|destruct Hn]). rewrite (am_run _ _ st l st) by done.
      rewrite (lift_run _ _ _ b eq_refl), (deref_run _ _ _ _ Hl).
      rewrite (lift_run _ _ _ _ (find_child_run bd _ _ _ b Harch Hn Hb)).
      destruct (assoc cs b) as [c|] eqn:Ha.
      * destruct (insert_below st l n cs kls F b c
          (λ q, insert_node bd fuel q key (S depth) len v) (p_insert r (Some c) key (S depth) len v)
          Hwf Hl Hn Hkids HlF Hb Ha) as (lc & st' & F' & Hlc & Hrun & Hout).
        { intros lc Fc _ Hc. by apply (IH fuel (S depth) st (Some lc) (Some c) Fc); [lia|lia|..]. }
        rewrite Hlc. cbn [fmap option_fmap option_map]. exists l, st', F'. by split.
      * rewrite (proj1 (kids_none _ _ _ _ b Hkids) Ha). cbn [fmap option_fmap option_map].
        by apply (insert_absent st l n cs kls F key len v b).
  - subst F. rewrite (am_run _ _ st None st) by done. rewrite Hleb.
    set (st0 := mkStore (<[st_next st := N4 Node4_default]> (st_nodes st)) (Pos.succ (st_next st))).
    rewrite (am_run _ _ st (st_next st) st0), (lift_run _ _ _ b eq_refl) by done.
    assert (st_nodes st0 !! st_next st = Some (N4 Node4_default)) as Hl0 by (simpl; by rewrite lookup_insert_eq).
    rewrite (deref_run _ _ _ _ Hl0).
    rewrite (lift_run _ _ _ _ (find_child_run bd true _ [] b Harch (node_rep_default _) Hb)).
    cbn [fmap option_fmap option_map assoc].
    destruct (insert_absent st0 (st_next st) (N4 Node4_default) [] [] ∅ key len v b) as
      (l' & st' & F' & Hrun & Hrep & Hev); try done.
    + by apply store_wf_new.
    + apply node_rep_default.
    + constructor.
    + exists l', st', F'. split; [done|]. split; [done|].
      eapply grown_trans; [by apply (grown_new st (N4 Node4_default) ∅)|].
      by replace ({[st_next st]} : gset loc) with ({[st_next st]} ∪ ∅ : gset loc) by set_solver.
Qed.

Lemma search_run key :
  Forall is_byte key → (length key ≤ 16)%nat → ∀ r fuel depth st t l F,
  (depth + r = length key)%nat → (r < fuel)%nat → art_rep (st_nodes st) t l F →
  search bd fuel (Some l) key depth st = Done (p_search r t key depth, st).
Proof.
  intros Hby H16. induction r as [|r IH]; intros fuel depth st t l F Hr Hf Hrep;
    (destruct fuel as [|fuel]; [lia|]); cbn [search];
    destruct Hrep as [l lf Hl Hlok|l n cs kls F Hl Hn Hkids HlF]; rewrite (deref_run _ _ _ _ Hl).
  - rewrite (lift_run _ _ _ _ (leaf_matches_run lf key Hlok H16)). done.
  - rewrite (proj2 (Nat.leb_le (length key) depth)) by lia. by destruct n; [..|by destruct Hn].
  - rewrite (lift_run _ _ _ _ (leaf_matches_run lf key Hlok H16)). done.
  - rewrite (proj2 (Nat.leb_gt (length key) depth)) by lia.
    rewrite node_not_leaf by (by destruct n; [..|destruct Hn]).
    rewrite (lift_run _ _ _ _ (byte_at_lookup key depth ltac:(lia))). set (b := byte_at key depth).
    rewrite (lift_run _ _ _ _ (find_child_run bd _ _ _ b Harch Hn (byte_at_byte key depth Hby))).
    cbn [p_search]. fold b. destruct (assoc cs b) as [c|] eqn:Ha.
    + destruct (kids_some _ _ _ _ b c Hkids Ha) as (lc & Fc & -> & Hc & _).
      cbn [fmap option_fmap option_map mbind option_bind]. by apply (IH fuel (S depth) st c lc Fc); [lia|lia|].
    + by rewrite (proj1 (kids_none _ _ _ _ b Hkids) Ha).
Qed.
End runs.

(** ** drop_subtree frees every box of a tree once *)

Lemma mapM_total {A B} (f : A → option B) (h : A → B) (xs : list A) :
  (∀ x, x ∈ xs → f x = Some (h x)) → mapM f xs = Some (h <$> xs).
Proof. intros Hf. by apply mapM_Some_2, Forall2_fmap_r, Forall_Forall2_diag, Forall_forall. Qed.

Lemma filter_ordered (kls : list (Z * loc)) n :
  filter is_Some ((λ i, assoc kls (Z.of_nat i)) <$> seq 0 n) = Some <$> (ordered kls n).*2.
Proof.
  induction n as [|n IH]; [done|]. rewrite seq_S, fmap_app, filter_app, IH, ordered_S, !fmap_app. f_equal.
  csimpl. by destruct (assoc kls (Z.of_nat n)).
Qed.

Lemma array_order cap h keys children (kls : list (Z * loc)) :
  array_rep cap h keys children kls →
  mapM (λ i, children !! i) (seq 0 (count h)) = Some (Some <$> kls.*2).
Proof.
  intros (_ & Hc & Hcap & Hnum & Hat). unfold count. rewrite Hnum, Nat2Z.id.
  apply mapM_Some_2, Forall2_same_length_lookup. rewrite length_seq, !length_fmap. split; [done|].
  intros i x y [-> Hi]%lookup_seq. rewrite !list_lookup_fmap. simpl.
  destruct (kls !! i) as [[k l]|] eqn:E; [|done]. simpl. intros [= <-]. by apply (Hat _ _ _ E).
Qed.

Lemma drop_order_run n kls :
  node_rep true n kls → ∃ kls', drop_order n = Some (Some <$> kls'.*2) ∧ kls' ≡ₚ kls.
Proof.
  intros [Hby Hr]. destruct n as [n|n|n|n|lf]; simpl in Hr; cbn [drop_order]; [..|done].
  - exists kls. by rewrite (array_order _ _ _ _ _ Hr).
  - exists kls. by rewrite (array_order _ _ _ _ _ Hr).
  - destruct Hr as (_ & _ & Hnd & _ & Hat & _). exists (ordered kls 256).
    split; [|by apply ordered_perm]. rewrite <- filter_ordered.
    rewrite (mapM_total _ (λ i, assoc kls (Z.of_nat i))); [done|].
    intros i Hi%elem_of_seq. destruct (Hat i ltac:(lia)) as (ix & -> & Hm). cbn [mbind option_bind].
    destruct (assoc kls (Z.of_nat i)) as [l|]; [|by subst ix].
    destruct Hm as (Hix & Hch & _). by rewrite (proj2 (Z.ltb_lt _ _)), Hch by lia.
  - destruct Hr as (_ & Hnd & _ & Hat). exists (ordered kls 256).
    split; [|by apply ordered_perm]. rewrite <- filter_ordered.
    rewrite (mapM_total _ (λ i, assoc kls (Z.of_nat i))); [done|].
    intros i Hi%elem_of_seq. apply Hat. lia.
Qed.

Lemma kids_perm ns kls kls' :
  kls' ≡ₚ kls → ∀ cs F, kids_rep ns cs kls F → ∃ cs', kids_rep ns cs' kls' F.
Proof.
  intros Hp. symmetry in Hp. induction Hp as [|[b l] k1 k2 Hp IH|[b l] [b' l'] k1|k1 k2 k3 _ IH1 _ IH2];
    intros cs F Hk.
  - by exists cs.
  - inversion Hk as [|? t ? cs1 ? F1 F2 Ht Hk1 Hd]; subst.
    destruct (IH _ _ Hk1) as [cs' Hk']. exists ((b, t) :: cs'). by constructor.
  - inversion Hk as [|? t ? cs1 ? F1 F2 Ht Hk1 Hd]; subst.
    inversion Hk1 as [|? t' ? cs2 ? F3 F4 Ht' Hk2 Hd']; subst.
    exists ((b, t') :: (b', t) :: cs2). replace (F1 ∪ (F3 ∪ F4)) with (F3 ∪ (F1 ∪ F4)) by set_solver.
    constructor; [done| |set_solver]. constructor; [done|done|set_solver].
  - destruct (IH1 _ _ Hk) as [cs1 Hk1]. by apply (IH2 _ _ Hk1).
Qed.

(** The boxes [F] are gone, the rest of the store is untouched. *)
Definition freed (st st' : Store) (F : gset loc) : Prop :=
  st_next st' = st_next st ∧
  ∀ x, st_nodes st' !! x = if decide (x ∈ F) then None else st_nodes st !! x.

Lemma drop_subtree_run fuel : ∀ st t l F,
  art_rep (st_nodes st) t l F → (size F < fuel)%nat →
  ∃ st', drop_subtree fuel (Some l) st = Done (tt, st') ∧ freed st st' F.
Proof.
  induction fuel as [|fuel IH]; intros st t l F Hrep Hf; [lia|]. cbn [drop_subtree].
  destruct Hrep as [l lf Hl _|l n cs kls F Hl Hn Hkids HlF]; rewrite (deref_run _ _ _ _ Hl).
  - rewrite (lift_run (drop_order (Leaf lf)) _ _ [] eq_refl), (am_run _ _ st tt st) by done.
    unfold free_box. rewrite Hl. eexists. split; [done|]. split; [done|]. intros x. simpl.
    rewrite lookup_delete. repeat case_decide; set_solver.
  - rewrite size_union, size_singleton in Hf by set_solver.
    destruct (drop_order_run n kls Hn) as (kls' & Ho & Hp). rewrite (lift_run _ _ _ _ Ho).
    destruct (kids_perm _ _ _ Hp _ _ Hkids) as [cs' Hk].
    assert (∀ ns cs kls F, kids_rep ns cs kls F → (size F < fuel)%nat →
      ∀ st, (∀ x, x ∈ F → st_nodes st !! x = ns !! x) →
      ∃ st', iter (drop_subtree fuel) (Some <$> kls.*2) st = Done (tt, st') ∧ freed st st' F) as Hiter.
    { clear -IH. induction 1 as [|b t l cs kls F1 F2 Ht Hk IHk Hd]; intros Hs st Hf.
      - exists st. split; [done|]. split; [done|]. intros x. by rewrite decide_False by set_solver.
      - rewrite size_union in Hs by done. csimpl.
        destruct (IH st t l F1) as (st1 & R1 & [N1 D1]);
          [eapply art_frame; [done|]; intros x Hx; apply Hf; set_solver|lia|].
        rewrite (am_run _ _ _ _ _ R1).
        destruct (IHk ltac:(lia) st1) as (st2 & R2 & [N2 D2]).
        { intros x Hx. rewrite D1, decide_False by set_solver. apply Hf. set_solver. }
        exists st2. split; [done|]. split; [congruence|]. intros x. rewrite D2, D1.
        repeat case_decide; set_solver. }
    destruct (Hiter _ _ _ _ Hk ltac:(lia) st ltac:(done)) as (st1 & R1 & [N1 D1]).
    rewrite (am_run _ _ _ _ _ R1). unfold free_box. rewrite D1, decide_False, Hl by done.
    eexists. split; [done|]. split; [done|]. intros x. simpl. rewrite lookup_delete, D1.
    repeat case_decide; set_solver.
Qed.

Lemma tree_drop_run st t tr l F :
  tr_root tr = Some l → art_rep (st_nodes st) t l F →
  ∃ st', tree_drop tr st = Done (tt, st') ∧ freed st st' F.
Proof.
  intros Hroot Hrep. unfold tree_drop. rewrite Hroot. eapply drop_subtree_run; [done|].
  apply Nat.lt_succ_r. rewrite <- (size_dom (D := gset loc)). apply subseteq_size.
  intros x Hx. apply elem_of_dom. by eapply art_alloc.
Qed.

(** ** The life of a tree *)

Fixpoint insert_prefixes (bd : build) (t : Tree) (xs : list (list Z * Z * ptr)) : AM Tree :=
  match xs with
  | [] => mret t
  | (key, len, v) :: xs' => t' ← insert_prefix bd t key len v; insert_prefixes bd t' xs'
  end.

Lemma insert_prefixes_run bd xs :
  b_profile bd = Release → b_arch bd ≠ AArch64 → Forall (λ x, key_ok x.1.1 x.1.2) xs →
  ∀ tr st t l F, store_wf st → tr_root tr = Some l → art_rep (st_nodes st) t l F →
  ∃ tr' st' t' l' F', insert_prefixes bd tr xs st = Done (tr', st') ∧ store_wf st' ∧
    tr_root tr' = Some l' ∧ art_rep (st_nodes st') t' l' F'.
Proof.
  intros Hrel Harch. induction 1 as [|[[key len] v] xs Hk Hxs IH]; intros tr st t l F Hwf Hroot Hrep.
  { by exists tr, st, t, l, F. }
  pose proof (max_depth_le _ _ Hk) as Hmd. pose proof Hk as (_ & H16 & _). simpl in Hmd, H16.
  destruct (insert_node_run bd Hrel Harch key len v Hk (max_depth_of len) tree_fuel 0 st (Some l) (Some t) F)
    as (l1 & st1 & F1 & Hrun & Hrep1 & Hch); [lia|pose proof tree_fuel_bound; lia|done|done|].
  cbn [insert_prefixes].
  rewrite (am_run _ _ _ (mkTree (Some l1) (wrap 64 (tr_size tr + 1))) st1).
  - eapply (IH _ st1 _ l1 F1); [apply (evo_wf _ _ _ _ Hch)|done|exact Hrep1].
  - unfold insert_prefix. rewrite Hroot, (am_run _ _ _ _ _ Hrun).
    unfold usize_arith. by rewrite Hrel.
Qed.

(** C18: a release build off AArch64 that creates a tree, inserts any prefixes of at most
    sixteen bytes, searches for any key and drops the tree always returns: no call diverges,
    panics, reads a freed box or frees one twice. *)
Theorem tree_life_terminates bd xs key :
  b_profile bd = Release → b_arch bd ≠ AArch64 →
  Forall (λ x, key_ok x.1.1 x.1.2) xs → Forall is_byte key → (length key ≤ 16)%nat →
  ∃ r st, (t0 ← tree_new; t ← insert_prefixes bd t0 xs; r ← match_ip bd t key;
           _ ← tree_drop t; mret r) (mkStore ∅ 1) = Done (r, st).
Proof.
  intros Hrel Harch Hxs Hby H16.
  set (st0 := mkStore {[ 1%positive := N4 Node4_default ]} 2).
  rewrite (am_run _ _ _ (mkTree (Some 1%positive) 0) st0) by done.
  destruct (insert_prefixes_run bd xs Hrel Harch Hxs (mkTree (Some 1%positive) 0) st0
    (PNode false []) 1 ({[1%positive]} ∪ ∅)) as (tr & st & t & l & F & Hrun & Hwf & Hroot & Hrep).
  - intros x. simpl. rewrite lookup_singleton. case_decide; [lia|]. by intros [? [=]].
  - done.
  - change false with (is_big (N4 Node4_default)).
    eapply rep_node; [apply lookup_singleton_eq|apply node_rep_default|constructor|set_solver].
  - rewrite (am_run _ _ _ _ _ Hrun). unfold match_ip. rewrite Hroot.
    rewrite (am_run _ _ _ _ _ (search_run bd Harch key Hby H16 (length key) tree_fuel 0 st t l F
      eq_refl ltac:(pose proof tree_fuel_bound; lia) Hrep)).
    destruct (tree_drop_run st t tr l F Hroot Hrep) as (st' & Hdrop & _).
    rewrite (am_run _ _ _ _ _ Hdrop). by eexists _, _.
Qed.
