(* ===== verification/ArtLookup.v ===== *)
(** * What lookups in an adaptive radix tree answer

    [LeafNode::matches] is membership of the address in the prefix of the
    leaf; a search only ends in leaves of the tree; and on prefixes that
    differ in their first two bytes it finds every one of them.  All on the
    pure trees of [ArtTree]. *)

From S2P Require Import Prelude Addr Lpm Node Simd ArtNode ArtTree.

Local Open Scope Z_scope.

(** ** Bytes and bits *)

Lemma byte_bits_eq x y :
  is_byte x → is_byte y → (∀ k, (k < 8)%nat → byte_bit x k = byte_bit y k) → x = y.
Proof.
  intros Hx Hy Hb. apply Z.bits_inj'. intros j Hj. unfold is_byte in *.
  destruct (decide (j < 8)) as [Hlt|Hge].
  - specialize (Hb (Z.to_nat (7 - j)) ltac:(lia)). rewrite !byte_bit_testbit in Hb.
    replace (Z.of_nat (7 - Z.to_nat (7 - j))) with j in Hb by lia. by apply Z.b2z_inj.
  - assert (∀ z, 0 ≤ z < 256 → Z.testbit z j = false) as Hhigh.
    { intros z Hz. apply Z.testbit_false; [done|].
      rewrite Z.div_small; [done|]. split; [lia|]. apply Z.lt_le_trans with (2 ^ 8); [lia|].
      apply Z.pow_le_mono_r; lia. }
    by rewrite !Hhigh.
Qed.

Lemma high_mask_bit r j : 0 < r < 8 → 0 ≤ j < 8 → Z.testbit (high_mask r) j = (8 - r <=? j).
Proof.
  intros Hr Hj. unfold high_mask, wrap. rewrite Z.mod_pow2_bits_low, Z.shiftl_spec by lia.
  change 255 with (Z.ones 8). destruct (Z.leb_spec (8 - r) j).
  - rewrite Z.testbit_ones by lia. destruct (Z.leb_spec 0 (j - (8 - r))), (Z.ltb_spec (j - (8 - r)) 8); done || lia.
  - by rewrite Z.testbit_neg_r by lia.
Qed.

(** Two bytes agree under the mask of [r] high bits when these bits agree. *)
Lemma high_mask_eq x y r :
  is_byte x → is_byte y → 0 < r < 8 →
  Z.land x (high_mask r) = Z.land y (high_mask r) ↔
  ∀ k, (k < Z.to_nat r)%nat → byte_bit x k = byte_bit y k.
Proof.
  intros Hx Hy Hr. split.
  - intros Heq k Hk. rewrite !byte_bit_testbit. f_equal.
    assert (Z.testbit (Z.land x (high_mask r)) (Z.of_nat (7 - k)) =
            Z.testbit (Z.land y (high_mask r)) (Z.of_nat (7 - k))) as Ht by (by rewrite Heq).
    rewrite !Z.land_spec, high_mask_bit in Ht by lia.
    by rewrite (proj2 (Z.leb_le _ _)), !andb_true_r in Ht by lia.
  - intros Hb. apply byte_bits_eq; [by apply land_mask_byte..|]. intros k Hk.
    rewrite !byte_bit_testbit, !Z.land_spec, high_mask_bit by lia. f_equal.
    destruct (Z.leb_spec (8 - r) (Z.of_nat (7 - k))); [|by rewrite !andb_false_r].
    rewrite !andb_true_r. apply Z.b2z_inj. rewrite <- !byte_bit_testbit. apply Hb. lia.
Qed.

(** ** Leaves *)

Lemma bytes_match_spec ip mk n : ∀ i,
  (i + n ≤ length ip)%nat → (i + n ≤ length mk)%nat →
  bytes_match ip mk i n = Some true ↔ ∀ j, (i ≤ j < i + n)%nat → byte_at ip j = byte_at mk j.
Proof.
  induction n as [|n IH]; intros i Hi Hm; [split; [intros _ j Hj; lia|done]|].
  cbn [bytes_match]. rewrite (byte_at_lookup ip i), (byte_at_lookup mk i) by lia. cbn [mbind option_bind].
  destruct (Z.eqb_spec (byte_at ip i) (byte_at mk i)) as [Heq|Hne].
  - rewrite IH by lia. split.
    + intros Hj j Hr. destruct (decide (j = i)) as [->|]; [done|]. apply Hj. lia.
    + intros Hj j Hr. apply Hj. lia.
  - split; [done|]. intros Hj. destruct Hne. apply Hj. lia.
Qed.

(** A leaf matches an address whose leading [len] bits are those of its key. *)
Lemma lmatch_bytes key len v ip :
  key_ok key len → Forall is_byte ip → length ip = length key →
  lmatch (leaf_of key len v) ip = true ↔
  (∀ j, (j < Z.to_nat (len / 8))%nat → byte_at ip j = byte_at key j) ∧
  (0 < len mod 8 → Z.land (byte_at ip (Z.to_nat (len / 8))) (high_mask (len mod 8)) =
                   Z.land (byte_at key (Z.to_nat (len / 8))) (high_mask (len mod 8))).
Proof.
  intros Hk Hip Hlen. destruct (masked_key_run key len Hk) as (mk & Hmk & Hl & Hb & Hat).
  pose proof Hk as (Hby & H16 & Hr). unfold lmatch, leaf_of. rewrite Hmk. cbn [default from_option]. unfold id.
  unfold leaf_matches. cbn [leaf_prefix_len leaf_masked_key].
  rewrite max_depth_full in Hat by lia. set (full := Z.to_nat (len / 8)) in *. set (rem := len mod 8) in *.
  assert (Z.of_nat full = len / 8) as Hfz by (unfold full; apply Z2Nat.id, Z.div_pos; lia).
  pose proof (Z.div_mod len 8 ltac:(lia)) as Hdm. fold rem in Hdm.
  pose proof (Z.mod_pos_bound len 8 ltac:(lia)) as Hmod. fold rem in Hmod.
  rewrite Nat.min_l by lia.
  assert (∀ j, (j < full)%nat → byte_at mk j = byte_at key j) as Hlow.
  { intros j Hj. unfold byte_at at 1. rewrite Hat by lia. unfold ibyte, index_byte. simpl.
    rewrite (byte_at_lookup key j) by lia. cbn [mbind option_bind default from_option id]. fold full.
    by rewrite (proj2 (Nat.eqb_neq j full)) by lia. }
  pose proof (bytes_match_spec ip mk full 0 ltac:(lia) ltac:(lia)) as Hbm.
  destruct (bytes_match_run ip mk full 0) as [ok Hok]; [lia|lia|]. rewrite Hok in *. cbn [mbind option_bind].
  assert (ok = true ↔ ∀ j, (j < full)%nat → byte_at ip j = byte_at key j) as Hfirst.
  { split.
    - intros -> j Hj. rewrite <- (Hlow j Hj). apply (proj1 Hbm eq_refl). lia.
    - intros Hj. cut (Some ok = Some true); [by intros [=]|]. apply Hbm. intros j Hjr.
      rewrite Hlow by lia. apply Hj. lia. }
  destruct (Z.ltb_spec 0 rem) as [Hrem|Hrem]; cbn [andb].
  - rewrite (proj2 (Nat.ltb_lt full (length ip))) by lia.
    rewrite (byte_at_lookup ip full), (Hat full) by lia. cbn [mbind option_bind].
    assert (ibyte key full len = Z.land (byte_at key full) (high_mask rem)) as ->.
    { unfold ibyte, index_byte. rewrite (byte_at_lookup key full) by lia. cbn [mbind option_bind default from_option id].
      fold full rem. rewrite Nat.eqb_refl. by rewrite (proj2 (Z.ltb_lt 0 rem)) by lia. }
    rewrite <- Z.land_assoc, Z.land_diag.
    destruct ok; cbn [negb default from_option]; unfold id.
    + rewrite Z.eqb_eq. naive_solver.
    + split; [done|]. intros [Hj _]. by rewrite (proj2 Hfirst Hj).
  - destruct ok; cbn [negb default from_option]; unfold id; [|naive_solver].
    split; [|done]. intros _. split; [by apply Hfirst|lia].
Qed.

Lemma octets_bytes ip : Forall is_byte (octets ip).
Proof.
  assert (∀ n a, Forall is_byte (be_bytes n a)) as Hb.
  { intros n a. apply Forall_fmap, Forall_true. intros i. apply land_255_range. }
  destruct ip; apply Hb.
Qed.

Lemma octets_le ip : (length (octets ip) ≤ 16)%nat.
Proof. destruct ip; simpl; lia. Qed.

Definition key_bit (key : list Z) (pos : nat) : Z := byte_bit (byte_at key (pos / 8)) (pos mod 8).

Lemma key_bit_octets ip pos :
  (pos < ip_width ip)%nat → key_bit (octets ip) pos = Z.b2z (default false (ip_bits ip !! pos)).
Proof.
  intros Hpos. rewrite <- get_bit_spec. unfold key_bit, get_bit, byte_at, byte_bit.
  pose proof (length_octets ip) as Hl.
  destruct (lookup_lt_is_Some_2 (octets ip) (pos / 8)) as [b ->]; [|done].
  apply Nat.Div0.div_lt_upper_bound. lia.
Qed.

(** Agreeing on full bytes and on the boundary byte is agreeing on every
    leading bit. *)
Lemma bytes_bits key ip len :
  Forall is_byte key → Forall is_byte ip → 0 ≤ len →
  ((∀ j, (j < Z.to_nat (len / 8))%nat → byte_at ip j = byte_at key j) ∧
   (0 < len mod 8 → Z.land (byte_at ip (Z.to_nat (len / 8))) (high_mask (len mod 8)) =
                    Z.land (byte_at key (Z.to_nat (len / 8))) (high_mask (len mod 8)))) ↔
  ∀ pos, (pos < Z.to_nat len)%nat → key_bit ip pos = key_bit key pos.
Proof.
  intros Hk Hip Hlen. pose proof (Z.div_mod len 8 ltac:(lia)) as Hdm.
  pose proof (Z.mod_pos_bound len 8 ltac:(lia)) as Hmod.
  set (full := Z.to_nat (len / 8)). set (rem := len mod 8) in *.
  assert (Z.of_nat full = len / 8) as Hfz by (unfold full; apply Z2Nat.id, Z.div_pos; lia).
  pose proof (byte_at_byte ip full Hip) as Bi. pose proof (byte_at_byte key full Hk) as Bk. split.
  - intros [Hfull Hrem] pos Hpos. unfold key_bit.
    pose proof (Nat.div_mod_eq pos 8) as Hp. pose proof (Nat.mod_upper_bound pos 8 ltac:(lia)).
    destruct (decide (pos / 8 < full)%nat) as [Hlt|Hge]; [by rewrite Hfull|].
    assert (pos / 8 = full)%nat as -> by lia.
    apply (high_mask_eq _ _ rem Bi Bk ltac:(lia)); [apply Hrem; lia|lia].
  - intros Hbits.
    assert (∀ j k, (k < 8)%nat → (8 * j + k < Z.to_nat len)%nat →
      byte_bit (byte_at ip j) k = byte_bit (byte_at key j) k) as Hb.
    { intros j k Hk8 Hpos. specialize (Hbits _ Hpos). unfold key_bit in Hbits.
      rewrite (Nat.mul_comm 8 j), Nat.div_add_l, (Nat.div_small k 8), Nat.add_0_r in Hbits by lia.
      rewrite (Nat.add_comm (j * 8)), Nat.Div0.mod_add, Nat.mod_small in Hbits by lia. done. }
    split.
    + intros j Hj. apply byte_bits_eq; [by apply byte_at_byte..|]. intros k Hk8. apply Hb; lia.
    + intros Hrem. apply high_mask_eq; [done|done|lia|]. intros k Hk8. apply Hb; lia.
Qed.

Section networks.
Context `{IpNetworkLaws}.
Implicit Types (p : IpNetwork) (ip : IpAddr).

(** The key of a prefix: the octets of its address as written. *)
Definition net_key p : list Z := octets (net_ip p).

Lemma same_family_network p ip : same_family (net_network p) ip = same_family (net_ip p) ip.
Proof. rewrite net_network_spec, net_ip_spec. by destruct p. Qed.

Lemma net_bits_ip p : net_bits p = take (net_len p) (ip_bits (net_ip p)).
Proof.
  unfold net_bits, net_len. rewrite net_prefix_spec, net_network_spec, net_ip_spec.
  destruct p as [p|p]; unfold ip_bits; simpl.
  - pose proof (fl_prefix_range _ _ _ _ _ _ v4_laws p). rewrite (fl_network _ _ _ _ _ _ v4_laws).
    rewrite <- (Z2Nat.id (v4_prefix p)) at 2 by lia. apply (take_bits_land_netmask 32). lia.
  - pose proof (fl_prefix_range _ _ _ _ _ _ v6_laws p). rewrite (fl_network _ _ _ _ _ _ v6_laws).
    rewrite <- (Z2Nat.id (v6_prefix p)) at 2 by lia. apply (take_bits_land_netmask 128). lia.
Qed.

Lemma net_len_ip p : (net_len p ≤ ip_width (net_ip p))%nat.
Proof. pose proof (net_len_width p) as Hw. rewrite net_network_spec in Hw. rewrite net_ip_spec. by destruct p. Qed.

Lemma net_key_ok p : key_ok (net_key p) (net_prefix p).
Proof.
  split_and!; [apply octets_bytes|apply octets_le|..]; rewrite net_prefix_len; [lia|].
  pose proof (net_len_ip p). pose proof (length_octets (net_ip p)). unfold net_key. lia.
Qed.

Lemma same_family_width x y : same_family x y = true → ip_width x = ip_width y.
Proof. by destruct x, y. Qed.

(** The leaf of a prefix matches an address of its family when the prefix
    contains it. *)
Lemma lmatch_contains p v ip :
  same_family (net_ip p) ip = true →
  lmatch (leaf_of (net_key p) (net_prefix p) v) (octets ip) = net_contains p ip.
Proof.
  intros Hf. apply eq_bool_prop_intro. rewrite !Is_true_true.
  pose proof (same_family_width _ _ Hf) as Hw. pose proof (net_len_ip p) as Hlen.
  rewrite lmatch_bytes; [|apply net_key_ok|apply octets_bytes|].
  2: { pose proof (length_octets ip). pose proof (length_octets (net_ip p)). unfold net_key. lia. }
  rewrite bytes_bits; [|apply octets_bytes|apply octets_bytes|rewrite net_prefix_len; lia].
  rewrite net_contains_bits, same_family_network, Hf, net_bits_ip.
  rewrite net_prefix_len, Nat2Z.id. split.
  - intros Hb. split; [done|]. apply prefix_take_iff.
    rewrite length_take, length_ip_bits, Nat.min_l by done. apply list_eq. intros i.
    destruct (decide (i < net_len p)%nat) as [Hi|]; [|by rewrite !lookup_take_ge by lia].
    rewrite !lookup_take_lt by done. specialize (Hb i Hi).
    unfold net_key in Hb. rewrite !key_bit_octets in Hb by lia.
    destruct (lookup_lt_is_Some_2 (ip_bits ip) i) as [x Hx]; [rewrite length_ip_bits; lia|].
    destruct (lookup_lt_is_Some_2 (ip_bits (net_ip p)) i) as [y Hy]; [rewrite length_ip_bits; lia|].
    rewrite Hx, Hy in Hb |- *. simpl in Hb. f_equal. by apply Z.b2z_inj.
  - intros [_ Hp%prefix_take_iff] i Hi.
    rewrite length_take, length_ip_bits, Nat.min_l in Hp by done.
    unfold net_key. rewrite !key_bit_octets by lia.
    rewrite <- (lookup_take_lt (ip_bits ip) (net_len p) i) by done.
    rewrite <- (lookup_take_lt (ip_bits (net_ip p)) (net_len p) i) by done. by rewrite Hp.
Qed.
End networks.

(** ** Searches only end in leaves *)

Inductive leaf_in (lf : LeafNode) : ptree → Prop :=
  | in_leaf : leaf_in lf (PLeaf lf)
  | in_node big cs b t : (b, t) ∈ cs → leaf_in lf t → leaf_in lf (PNode big cs).

Lemma p_search_leaf key r : ∀ t depth v,
  p_search r t key depth = Some v →
  ∃ lf, leaf_in lf t ∧ lmatch lf key = true ∧ leaf_value lf = v.
Proof.
  induction r as [|r IH]; intros [lf|big cs] depth v; simpl; try done.
  1, 2: destruct (lmatch lf key) eqn:Hm; [|done]; intros [= <-]; exists lf; by repeat constructor.
  destruct (assoc cs (byte_at key depth)) as [c|] eqn:Ha; [|done]. simpl. intros Hs.
  destruct (IH _ _ _ Hs) as (lf & Hin & Hm & Hv). exists lf. split; [|done].
  eapply in_node; [by apply assoc_elem|done].
Qed.

Lemma elem_of_assoc_set {A} (cs : list (Z * A)) b x e :
  e ∈ assoc_set cs b x → e.2 = x ∨ e ∈ cs.
Proof.
  induction cs as [|[k y] cs IH]; simpl; [set_solver|]. destruct (k =? b).
  - intros [->|?]%elem_of_cons; [by left|set_solver].
  - intros [->|?]%elem_of_cons; [set_solver|]. destruct IH; [done|by left|set_solver].
Qed.

Lemma elem_of_grown {A} big (cs : list (Z * A)) e : e ∈ grown big cs → e ∈ cs.
Proof.
  unfold grown. destruct (_ && _)%bool; [|done]. intros He.
  eapply elem_of_submseteq; [exact He|]. apply sublist_submseteq, keep_last_sublist.
Qed.

Lemma p_insert_leaf key len v r : ∀ t depth lf,
  leaf_in lf (p_insert r t key depth len v) →
  lf = leaf_of key len v ∨ ∃ t0, t = Some t0 ∧ leaf_in lf t0.
Proof.
  assert (∀ lf lf', leaf_in lf (PLeaf lf') → lf = lf') as Hl by (intros ? ?; by inversion 1).
  induction r as [|r IH]; intros t depth lf; cbn [p_insert]; [intros ->%Hl; by left|].
  destruct t as [[lf'|big cs]|].
  - inversion 1 as [|? ? b t Hin Ht]; subst. rewrite !elem_of_cons in Hin.
    destruct Hin as [[= -> ->]|[[= -> ->]|?]]; [right; eauto| |set_solver].
    destruct (IH _ _ _ Ht) as [->|(t0 & ? & _)]; [by left|done].
  - destruct (assoc cs (ibyte key depth len)) as [c|] eqn:Ha; inversion 1 as [|? ? b t Hin Ht]; subst.
    + apply elem_of_assoc_set in Hin as [Heq|Hin]; [simpl in Heq; subst t|right; eauto using in_node].
      destruct (IH _ _ _ Ht) as [->|(t0 & [= <-] & ?)]; [by left|].
      right. eauto using in_node, assoc_elem.
    + apply elem_of_app in Hin as [Hin%elem_of_grown|[= -> ->]%list_elem_of_singleton].
      * right. eauto using in_node.
      * left. by apply Hl.
  - inversion 1 as [|? ? b t Hin Ht]; subst. apply list_elem_of_singleton in Hin as [= -> ->].
    left. by apply Hl.
Qed.

(** A run of inserts: the key, the length and the value of each. *)
Abbreviation entry := (list Z * Z * ptr)%type.
Definition xkey (x : entry) : list Z := x.1.1.
Definition xlen (x : entry) : Z := x.1.2.
Definition xleaf (x : entry) : LeafNode := leaf_of (xkey x) (xlen x) x.2.

Definition p_add (t : ptree) (x : entry) : ptree :=
  p_insert (max_depth_of (xlen x)) (Some t) (xkey x) 0 (xlen x) x.2.
Definition p_run (xs : list entry) : ptree := foldl p_add (PNode false []) xs.

Lemma p_run_snoc xs x : p_run (xs ++ [x]) = p_add (p_run xs) x.
Proof. unfold p_run. by rewrite foldl_app. Qed.

Lemma p_run_leaf xs lf : leaf_in lf (p_run xs) → ∃ x, x ∈ xs ∧ lf = xleaf x.
Proof.
  induction xs as [|x xs IH] using rev_ind.
  - inversion 1. set_solver.
  - rewrite p_run_snoc. intros [->|(t0 & [= <-] & Hin)]%p_insert_leaf.
    + exists x. set_solver.
    + destruct (IH Hin) as (y & ? & ->). exists y. set_solver.
Qed.

(** ** Prefixes that differ in their first two bytes *)

Definition wide (x : entry) : Prop := key_ok (xkey x) (xlen x) ∧ 16 ≤ xlen x.
Definition aligned (x : entry) : Prop :=
  key_ok (xkey x) (xlen x) ∧ (xlen x = 16 ∨ 24 ≤ xlen x).

Lemma aligned_wide x : aligned x → wide x.
Proof. intros [? [?|?]]; split; done || lia. Qed.

Definition b0 (x : entry) : Z := byte_at (xkey x) 0.
Definition b1 (x : entry) : Z := byte_at (xkey x) 1.

Lemma ibyte_full key i len :
  (i < length key)%nat → (i < Z.to_nat (len / 8))%nat → ibyte key i len = byte_at key i.
Proof.
  intros Hk Hi. unfold ibyte, index_byte. rewrite (byte_at_lookup key i Hk).
  cbn [mbind option_bind]. by rewrite (proj2 (Nat.eqb_neq i _)) by lia.
Qed.

Lemma wide_bytes x :
  wide x → (2 ≤ length (xkey x))%nat ∧ (2 ≤ Z.to_nat (xlen x / 8))%nat ∧
  ∃ r, max_depth_of (xlen x) = S (S r).
Proof.
  intros [(_ & _ & Hr) Hl]. split; [lia|]. split; [Z.div_mod_to_equations; lia|].
  exists (max_depth_of (xlen x) - 2)%nat. unfold max_depth_of. Z.div_mod_to_equations; lia.
Qed.

Lemma masked_byte x i :
  wide x → (i < 2)%nat → byte_at (leaf_masked_key (xleaf x)) i = byte_at (xkey x) i.
Proof.
  intros Ha Hi. destruct (wide_bytes x Ha) as (Hk & Hf & r & Hr).
  destruct Ha as [Hok _]. destruct (masked_key_run _ _ Hok) as (mk & Hmk & _ & _ & Hat).
  unfold xleaf, leaf_of. rewrite Hmk. simpl. unfold byte_at at 1. rewrite Hat by lia. simpl.
  apply ibyte_full; lia.
Qed.

(** The leaf of [x] hangs here, or below one more byte. *)
Definition at_two (t : ptree) (x : entry) : Prop :=
  t = PLeaf (xleaf x) ∨ 24 ≤ xlen x ∧ t = PNode false [(byte_at (xkey x) 2, PLeaf (xleaf x))].

(** The subtree [c] below the first byte [b] holds exactly the entries of [xs]
    that start with it. *)
Definition under (xs : list entry) (b : Z) (c : ptree) : Prop :=
  (∃ x, x ∈ xs ∧ b0 x = b ∧ c = PLeaf (xleaf x) ∧ ∀ y, y ∈ xs → b0 y = b → y = x) ∨
  (∃ big cs, c = PNode big cs ∧ NoDup cs.*1 ∧
    (∀ x, x ∈ xs → b0 x = b → ∃ c', assoc cs (b1 x) = Some c' ∧ at_two c' x) ∧
    (∀ k, is_Some (assoc cs k) → ∃ x, x ∈ xs ∧ b0 x = b ∧ b1 x = k)).

Definition two_level (xs : list entry) (t : ptree) : Prop :=
  ∃ big cs, t = PNode big cs ∧ NoDup cs.*1 ∧
    (∀ x, x ∈ xs → is_Some (assoc cs (b0 x))) ∧
    (∀ b c, assoc cs b = Some c → under xs b c).

Lemma p_insert_two r x :
  aligned x → max_depth_of (xlen x) = S (S r) →
  at_two (p_insert r None (xkey x) 2 (xlen x) x.2) x.
Proof.
  intros [Hok Hl] Hr. destruct r as [|r]; [by left|]. right. cbn [p_insert].
  assert (24 ≤ xlen x) as H24 by (destruct Hl as [Hl|]; [rewrite Hl in Hr; done|done]).
  split; [done|]. destruct Hok as (_ & _ & Hle).
  rewrite ibyte_full; [done|lia|Z.div_mod_to_equations; lia].
Qed.

Lemma grown_id {A} big (cs : list (Z * A)) : NoDup cs.*1 → grown big cs = cs.
Proof. intros Hnd. unfold grown. destruct (_ && _)%bool; [by apply keep_last_id|done]. Qed.

Lemma under_other xs b c x : under xs b c → b0 x ≠ b → under (xs ++ [x]) b c.
Proof.
  intros Hu Hb. destruct Hu as [(y & Hy & Hyb & -> & Hone)|(big & cs & -> & Hnd & Hall & Hback)].
  - left. exists y. split_and!; [set_solver|done|done|].
    intros z [Hz|Hz%list_elem_of_singleton]%elem_of_app; [by apply Hone|congruence].
  - right. exists big, cs. split_and!; [done|done| |].
    + intros z [Hz|Hz%list_elem_of_singleton]%elem_of_app; [by apply Hall|congruence].
    + intros k Hk. destruct (Hback k Hk) as (z & ? & ? & ?). exists z. set_solver.
Qed.

Lemma under_insert xs c x r :
  Forall aligned xs → aligned x → max_depth_of (xlen x) = S (S r) →
  (∀ y, y ∈ xs → b0 y = b0 x → b1 y ≠ b1 x) →
  under xs (b0 x) c →
  under (xs ++ [x]) (b0 x) (p_insert (S r) (Some c) (xkey x) 1 (xlen x) x.2).
Proof.
  intros Hal Hx Hr Hdist Hu. destruct (wide_bytes x (aligned_wide x Hx)) as (Hk & Hf & _).
  pose proof (p_insert_two r x Hx Hr) as Htwo. right. cbn [p_insert].
  rewrite (ibyte_full (xkey x) 1 (xlen x)) by lia. fold (b1 x).
  destruct Hu as [(y & Hy & Hyb & -> & Hone)|(big & cs & -> & Hnd & Hall & Hback)].
  - rewrite Forall_forall in Hal. rewrite (masked_byte y 1 (aligned_wide y (Hal y Hy))) by lia. fold (b1 y).
    pose proof (Hdist y Hy Hyb) as Hne. eexists _, _. split; [done|]. csimpl. split_and!.
    + apply NoDup_cons. split; [set_solver|]. apply NoDup_singleton.
    + intros z [Hz|Hz%list_elem_of_singleton]%elem_of_app Hzb.
      * rewrite (Hone z Hz Hzb), Z.eqb_refl. eexists. split; [done|]. by left.
      * subst z. rewrite (proj2 (Z.eqb_neq _ _) Hne), Z.eqb_refl. by eexists.
    + intros k. destruct (Z.eqb_spec (b1 y) k); [intros _; exists y; set_solver|].
      destruct (Z.eqb_spec (b1 x) k); [intros _; exists x; set_solver|by intros [? ?]].
  - assert (assoc cs (b1 x) = None) as Hn.
    { destruct (assoc cs (b1 x)) eqn:E; [|done]. destruct (Hback (b1 x)) as (y & ? & ? & ?); [by eexists|].
      exfalso. by eapply Hdist. }
    rewrite Hn, grown_id by done. eexists _, _. split; [done|]. split_and!.
    + by apply nodup_snoc.
    + intros z [Hz|Hz%list_elem_of_singleton]%elem_of_app Hzb; rewrite assoc_snoc by done.
      * rewrite (proj2 (Z.eqb_neq _ _)); [by apply Hall|]. intros Heq. by apply (Hdist z Hz Hzb).
      * subst z. rewrite Z.eqb_refl. eexists. split; [done|]. by left.
    + intros k. rewrite assoc_snoc by done. destruct (Z.eqb_spec (b1 x) k).
      * intros _. exists x. set_solver.
      * intros Hs. destruct (Hback k Hs) as (z & ? & ? & ?). exists z. set_solver.
Qed.

Lemma two_level_insert xs t x :
  Forall aligned xs → aligned x →
  (∀ y, y ∈ xs → b0 y = b0 x → b1 y ≠ b1 x) →
  two_level xs t → two_level (xs ++ [x]) (p_add t x).
Proof.
  intros Hal Hx Hdist (big & cs & -> & Hnd & Hall & Hu).
  destruct (wide_bytes x (aligned_wide x Hx)) as (Hk & Hf & r & Hr). unfold p_add. rewrite Hr.
  cbn [p_insert]. rewrite (ibyte_full (xkey x) 0 (xlen x)) by lia. fold (b0 x).
  destruct (assoc cs (b0 x)) as [c|] eqn:Ha.
  - eexists _, _. split; [done|]. split; [by rewrite assoc_set_keys|].
    assert (is_Some (assoc cs (b0 x))) as Hs by (by eexists). split.
    + intros y Hy. rewrite assoc_set_lookup by done. destruct (Z.eqb_spec (b0 x) (b0 y)); [by eexists|].
      apply elem_of_app in Hy as [Hy|Hy%list_elem_of_singleton]; [by apply Hall|congruence].
    + intros b c'. rewrite assoc_set_lookup by done. destruct (Z.eqb_spec (b0 x) b) as [<-|Hne].
      * intros [= <-]. apply (under_insert xs c x r Hal Hx Hr Hdist). by apply Hu.
      * intros Hc. apply under_other; [by apply Hu|done].
  - rewrite grown_id by done. eexists _, _. split; [done|]. split; [by apply nodup_snoc|]. split.
    + intros y Hy. rewrite assoc_snoc by done. destruct (Z.eqb_spec (b0 x) (b0 y)); [by eexists|].
      apply elem_of_app in Hy as [Hy|Hy%list_elem_of_singleton]; [by apply Hall|congruence].
    + intros b c'. rewrite assoc_snoc by done. destruct (Z.eqb_spec (b0 x) b) as [<-|Hne].
      * intros [= <-]. left. exists x. split_and!; [set_solver|done|done|].
        intros y [Hy|Hy%list_elem_of_singleton]%elem_of_app Hyb; [|done].
        destruct (Hall y Hy) as [? Hy']. rewrite Hyb in Hy'. congruence.
      * intros Hc. apply under_other; [by apply Hu|done].
Qed.

Lemma two_level_run xs :
  Forall aligned xs → NoDup ((λ x, (b0 x, b1 x)) <$> xs) → two_level xs (p_run xs).
Proof.
  induction xs as [|x xs IH] using rev_ind; intros Hal Hnd.
  - exists false, []. split_and!; [done|constructor|set_solver|done].
  - rewrite p_run_snoc. apply Forall_app in Hal as [Hal [Hx _]%Forall_cons].
    rewrite fmap_app in Hnd. apply NoDup_app in Hnd as (Hnd & Hd & _).
    apply two_level_insert; [done|done| |by apply IH]. intros y Hy H0 H1.
    apply (Hd (b0 y, b1 y)); [apply list_elem_of_fmap; by exists y|]. csimpl. rewrite H0, H1. set_solver.
Qed.

(** Every one of them is found. *)
Lemma two_level_search xs t x ip :
  Forall aligned xs → two_level xs t → x ∈ xs → Forall is_byte ip → length ip = length (xkey x) →
  lmatch (xleaf x) ip = true → p_search (length ip) t ip 0 = Some x.2.
Proof.
  intros Hal (big & cs & -> & Hnd & Hall & Hu) Hx Hip Hlen Hm.
  assert (aligned x) as Hxa by (by eapply Forall_forall in Hal).
  destruct (wide_bytes x (aligned_wide x Hxa)) as (Hk & Hf & _). destruct Hxa as [Hok Hl].
  pose proof (proj1 (lmatch_bytes _ _ x.2 ip Hok Hip Hlen) Hm) as [Hb _].
  destruct (length ip) as [|[|r]] eqn:Hli; [lia|lia|]. cbn [p_search].
  rewrite (Hb 0%nat) by lia. fold (b0 x). destruct (Hall x Hx) as [c Hc]. rewrite Hc. cbn [mbind option_bind].
  destruct (Hu _ _ Hc) as [(y & Hy & Hyb & -> & Hone)|(big' & cs' & -> & Hnd' & Hall' & _)].
  - rewrite <- (Hone x Hx eq_refl). cbn [p_search]. by rewrite Hm.
  - rewrite (Hb 1%nat) by lia. fold (b1 x). destruct (Hall' x Hx eq_refl) as (c' & -> & Htwo).
    cbn [mbind option_bind]. destruct Htwo as [->|[H24 ->]].
    + destruct r; cbn [p_search]; by rewrite Hm.
    + destruct Hok as (_ & _ & Hle). destruct r as [|r]; [lia|]. cbn [p_search].
      rewrite (Hb 2%nat) by (Z.div_mod_to_equations; lia). cbn [assoc]. rewrite Z.eqb_refl.
      cbn [mbind option_bind]. destruct r; cbn [p_search]; by rewrite Hm.
Qed.

(** ** Prefixes that share them *)

(** The second of two prefixes with the same first two bytes is stored behind
    the first one, under the same key of the same node. *)
Lemma p_run_clash x y :
  wide x → wide y → b0 x = b0 y → b1 x = b1 y →
  ∃ t, p_run [x; y] = PNode false [(b0 x, PNode false [(b1 x, PLeaf (xleaf x)); (b1 x, t)])].
Proof.
  intros Hx Hy H0 H1. destruct (wide_bytes x Hx) as (Lx & Fx & rx & Dx).
  destruct (wide_bytes y Hy) as (Ly & Fy & ry & Dy).
  assert (p_add (PNode false []) x = PNode false [(b0 x, PLeaf (xleaf x))]) as Hx1.
  { unfold p_add. rewrite Dx. cbn [p_insert assoc]. by rewrite ibyte_full by lia. }
  change (p_run [x; y]) with (p_add (p_add (PNode false []) x) y). rewrite Hx1.
  unfold p_add. rewrite Dy. cbn [p_insert]. rewrite (ibyte_full (xkey y) 0), (ibyte_full (xkey y) 1) by lia.
  fold (b0 y) (b1 y). rewrite <- H0, <- H1. cbn [assoc]. rewrite Z.eqb_refl. cbn [assoc_set].
  rewrite Z.eqb_refl, (masked_byte x 1 Hx) by lia. fold (b1 x). by eexists.
Qed.
