(* ===== verification/ArtEngine.v ===== *)
(** * The ART engines (engine/src/engine_art.rs)

    [ARTEngineAdapter] boxes the metadata of every insert and hands the raw
    pointer to the tree; [ShardedARTEngineAdapter] keeps one such engine per
    shard.  An engine owns its boxes, so they are part of its state. *)

From S2P Require Import Prelude Addr Lpm DashMap Node Heap RouteTree Engine Simd ArtNode ArtTree ArtLookup.

Local Open Scope Z_scope.

#[export] Instance Outcome_ret : MRet Outcome := λ A x, Done x.
#[export] Instance Outcome_bind : MBind Outcome := λ A B f o,
  match o with
  | Done a => f a
  | Panics => Panics
  | Undefined => Undefined
  | Diverges => Diverges
  end.

Lemma o_run {A B} (o : Outcome A) (f : A → Outcome B) a : o = Done a → (o ≫= f) = f a.
Proof. by intros ->. Qed.

Section engine.
Context `{IpNetworkCrate} (bd : build).

(** ** ARTEngineAdapter *)

Record ARTEngineAdapter := mkArt {
  ae_tree : Tree;
  ae_store : Store;                 (* the boxes of the nodes *)
  ae_values : gmap loc Metadata;    (* the boxes of the metadata *)
  ae_next : loc;
}.

Definition art_new : Outcome ARTEngineAdapter :=
  '(t, st) ← tree_new (mkStore ∅ 1); Done (mkArt t st ∅ 1).

Definition ip_bytes (ip : IpAddr) : list Z := octets ip.

Definition art_insert (e : ARTEngineAdapter) (prefix : IpNetwork) (metadata : Metadata)
    : Outcome (Result unit string * ARTEngineAdapter) :=
  let metadata_ptr := ae_next e in
  '(t, st) ← insert_prefix bd (ae_tree e) (ip_bytes (net_ip prefix)) (net_prefix prefix)
               (Some metadata_ptr) (ae_store e);
  Done (Ok tt, mkArt t st (<[metadata_ptr := metadata]> (ae_values e)) (Pos.succ metadata_ptr)).

(** [&*(ptr as *const Metadata)] *)
Definition value_at (e : ARTEngineAdapter) (p : ptr) : Outcome Metadata :=
  match p with
  | Some l => match ae_values e !! l with Some md => Done md | None => Undefined end
  | None => Undefined
  end.

Definition art_lookup (e : ARTEngineAdapter) (ip : IpAddr) : Outcome (option Metadata) :=
  '(r, _) ← match_ip bd (ae_tree e) (ip_bytes ip) (ae_store e);
  match r with
  | Some p => md ← value_at e p; Done (Some md)
  | None => Done None
  end.

Definition art_remove (e : ARTEngineAdapter) (prefix : IpNetwork)
    : Outcome (option Metadata * ARTEngineAdapter) :=
  let ip := ip_bytes (net_ip prefix) in
  '(r, _) ← match_ip bd (ae_tree e) ip (ae_store e);
  '(old_metadata, values) ←
    match r with
    | Some p =>
        md ← value_at e p;
        Done (Some md, match p with Some l => delete l (ae_values e) | None => ae_values e end)
    | None => Done (None, ae_values e)
    end;
  '(_, t, st) ← delete_prefix bd (ae_tree e) ip (net_prefix prefix) (ae_store e);
  Done (old_metadata, mkArt t st values (ae_next e)).

Definition art_contains (e : ARTEngineAdapter) (prefix : IpNetwork) : Outcome bool :=
  '(r, _) ← match_ip bd (ae_tree e) (ip_bytes (net_ip prefix)) (ae_store e);
  Done (is_some r).

(** [*tree = Tree::new()]: the new tree is made, then the old one dropped; the
    metadata stays allocated. *)
Definition art_clear (e : ARTEngineAdapter) : Outcome ARTEngineAdapter :=
  '(t, st) ← tree_new (ae_store e);
  '(_, st') ← tree_drop (ae_tree e) st;
  Done (mkArt t st' (ae_values e) (ae_next e)).

Definition art_size (e : ARTEngineAdapter) : Z := tr_size (ae_tree e).

Definition art_stats (e : ARTEngineAdapter) : EngineStats := mkStats 0 0 0 0 0 (art_size e).

(** ** ShardedARTEngineAdapter *)

Record ShardedARTEngineAdapter := mkShardedArt {
  sa_shards : list ARTEngineAdapter;
  sa_num_shards : nat;
  sa_shard_size : nat;
  sa_mask_bits : Z;   (* u8 *)
}.

(** [mask_bits] is not taken from the caller. *)
Definition sharded_art_new (num_shards shard_size : nat) : Outcome ShardedARTEngineAdapter :=
  shards ← mapM (λ _, art_new) (seq 0 num_shards);
  Done (mkShardedArt shards num_shards shard_size 32).

Definition with_shards (s : ShardedARTEngineAdapter) (es : list ARTEngineAdapter)
    : ShardedARTEngineAdapter :=
  mkShardedArt es (sa_num_shards s) (sa_shard_size s) (sa_mask_bits s).

Fixpoint art_insert_all (es : list ARTEngineAdapter) (prefix : IpNetwork) (metadata : Metadata)
    : Outcome (Result unit string * list ARTEngineAdapter) :=
  match es with
  | [] => Done (Ok tt, [])
  | e :: es' =>
      '(r, e') ← art_insert e prefix metadata;
      match r with
      | Err err => Done (Err err, e' :: es')
      | Ok _ => '(r', es'') ← art_insert_all es' prefix metadata; Done (r', e' :: es'')
      end
  end.

Fixpoint art_remove_all (es : list ARTEngineAdapter) (prefix : IpNetwork)
    (removed : option Metadata) : Outcome (option Metadata * list ARTEngineAdapter) :=
  match es with
  | [] => Done (removed, [])
  | e :: es' =>
      '(shard_removed, e') ← art_remove e prefix;
      let removed' := if is_none removed then shard_removed else removed in
      '(r, es'') ← art_remove_all es' prefix removed'; Done (r, e' :: es'')
  end.

Fixpoint art_clear_all (es : list ARTEngineAdapter) : Outcome (list ARTEngineAdapter) :=
  match es with
  | [] => Done []
  | e :: es' => e' ← art_clear e; es'' ← art_clear_all es'; Done (e' :: es'')
  end.

Definition sharded_art_insert (s : ShardedARTEngineAdapter) (prefix : IpNetwork)
    (metadata : Metadata) : Outcome (Result unit string * ShardedARTEngineAdapter) :=
  '(r, es) ← art_insert_all (sa_shards s) prefix metadata; Done (r, with_shards s es).

(** [ShardedARTEngineAdapter::get_shard], word for word the function of the
    sharded engine; the outer option is the division by zero. *)
Definition art_get_shard (s : ShardedARTEngineAdapter) (ip : IpAddr) : option nat :=
  get_shard (sa_num_shards s) (sa_mask_bits s) ip.

Definition sharded_art_lookup (s : ShardedARTEngineAdapter) (ip : IpAddr)
    : Outcome (option Metadata) :=
  match art_get_shard s ip with
  | None => Panics
  | Some shard_idx =>
      match sa_shards s !! shard_idx with None => Panics | Some e => art_lookup e ip end
  end.

Definition sharded_art_remove (s : ShardedARTEngineAdapter) (prefix : IpNetwork)
    : Outcome (option Metadata * ShardedARTEngineAdapter) :=
  '(r, es) ← art_remove_all (sa_shards s) prefix None; Done (r, with_shards s es).

Definition sharded_art_contains (s : ShardedARTEngineAdapter) (prefix : IpNetwork) : Outcome bool :=
  match sa_shards s with e :: _ => art_contains e prefix | [] => Done false end.

Definition sharded_art_clear (s : ShardedARTEngineAdapter) : Outcome ShardedARTEngineAdapter :=
  es ← art_clear_all (sa_shards s); Done (with_shards s es).

Definition sharded_art_size (s : ShardedARTEngineAdapter) : Z :=
  match sa_shards s with e :: _ => art_size e | [] => 0 end.

Definition sharded_art_stats (s : ShardedARTEngineAdapter) : EngineStats :=
  let sum f := foldl (λ acc e, wrap 64 (acc + f (art_stats e))) 0 (sa_shards s) in
  mkStats (sum stat_inserts) (sum stat_lookups) (sum stat_hits) (sum stat_misses)
    (sum stat_removals) (sum stat_size).

(** ** Sessions *)

Definition art_op (e : ARTEngineAdapter) (o : op) : Outcome (res * ARTEngineAdapter) :=
  match o with
  | OpInsert p md => '(r, e') ← art_insert e p md; Done (RDone r, e')
  | OpLookup ip => r ← art_lookup e ip; Done (RMeta r, e)
  | OpRemove p => '(r, e') ← art_remove e p; Done (RMeta r, e')
  | OpContains p => r ← art_contains e p; Done (RBool r, e)
  | OpClear => e' ← art_clear e; Done (RUnit, e')
  end.

Definition sharded_art_op (s : ShardedARTEngineAdapter) (o : op)
    : Outcome (res * ShardedARTEngineAdapter) :=
  match o with
  | OpInsert p md => '(r, s') ← sharded_art_insert s p md; Done (RDone r, s')
  | OpLookup ip => r ← sharded_art_lookup s ip; Done (RMeta r, s)
  | OpRemove p => '(r, s') ← sharded_art_remove s p; Done (RMeta r, s')
  | OpContains p => r ← sharded_art_contains s p; Done (RBool r, s)
  | OpClear => s' ← sharded_art_clear s; Done (RUnit, s')
  end.

Fixpoint run_session {E} (step : E → op → Outcome (res * E)) (e : E) (os : list op)
    : Outcome (list res * E) :=
  match os with
  | [] => Done ([], e)
  | o :: os' =>
      '(r, e') ← step e o; '(rs, e'') ← run_session step e' os'; Done (r :: rs, e'')
  end.

Definition art_session (os : list op) : Outcome (list res * Z) :=
  e ← art_new; '(rs, e') ← run_session art_op e os; Done (rs, art_size e').
Definition sharded_art_session (k : nat) (os : list op) : Outcome (list res * Z) :=
  s ← sharded_art_new k 32; '(rs, s') ← run_session sharded_art_op s os; Done (rs, sharded_art_size s').

(** ** The shards of a sharded engine are equal *)

Lemma art_insert_all_same k e p md :
  (0 < k)%nat →
  art_insert_all (replicate k e) p md =
  '(r, e') ← art_insert e p md; Done (r, replicate k e').
Proof.
  intros Hk. destruct k as [|k]; [lia|]. clear Hk. unfold art_insert.
  destruct (insert_prefix _ _ _ _ _ _) as [[t st]| | |] eqn:E; simpl; unfold art_insert; rewrite E; try done.
  simpl. set (e' := mkArt _ _ _ _).
  assert (∀ j, art_insert_all (replicate j e) p md = Done (Ok tt, replicate j e')) as Hall; [|by rewrite Hall].
  induction j as [|j IH]; [done|]. simpl. unfold art_insert at 1. rewrite E. simpl. by rewrite IH.
Qed.

Lemma art_remove_all_same k e p :
  (0 < k)%nat →
  art_remove_all (replicate k e) p None = '(r, e') ← art_remove e p; Done (r, replicate k e').
Proof.
  intros Hk. destruct k as [|k]; [lia|]. clear Hk. cbn [replicate art_remove_all].
  destruct (art_remove e p) as [[r e']| | |] eqn:E; simpl; try done.
  assert (∀ j, art_remove_all (replicate j e) p r = Done (r, replicate j e')) as Hall; [|by rewrite Hall].
  induction j as [|j IH]; [done|]. simpl. rewrite E. simpl.
  replace (if is_none r then r else r) with r by (by destruct r). by rewrite IH.
Qed.

Lemma art_clear_all_same k e :
  (0 < k)%nat →
  art_clear_all (replicate k e) = e' ← art_clear e; Done (replicate k e').
Proof.
  intros Hk. destruct k as [|k]; [lia|]. clear Hk. cbn [replicate art_clear_all].
  destruct (art_clear e) as [e'| | |] eqn:E; simpl; try done.
  assert (∀ j, art_clear_all (replicate j e) = Done (replicate j e')) as Hall; [|by rewrite Hall].
  induction j as [|j IH]; [done|]. simpl. rewrite E. simpl. by rewrite IH.
Qed.

Definition copies (k : nat) (e : ARTEngineAdapter) : ShardedARTEngineAdapter :=
  mkShardedArt (replicate k e) k 32 32.

Lemma sharded_art_op_copies k e o :
  (0 < k)%nat →
  sharded_art_op (copies k e) o = '(r, e') ← art_op e o; Done (r, copies k e').
Proof.
  intros Hk. destruct o as [p md|ip|p|p|]; cbn [sharded_art_op art_op].
  - unfold sharded_art_insert. cbn [sa_shards copies]. rewrite art_insert_all_same by done.
    by destruct (art_insert e p md) as [[r e']| | |].
  - unfold sharded_art_lookup. cbn [sa_num_shards sa_mask_bits sa_shards copies].
    unfold art_get_shard. cbn [sa_num_shards sa_mask_bits copies]. destruct (get_shard_range k ip Hk) as (i & -> & Hi). rewrite lookup_replicate_2 by done.
    by destruct (art_lookup e ip).
  - unfold sharded_art_remove. cbn [sa_shards copies]. rewrite art_remove_all_same by done.
    by destruct (art_remove e p) as [[r e']| | |].
  - unfold sharded_art_contains. cbn [sa_shards copies]. destruct k as [|k]; [lia|].
    cbn [replicate]. by destruct (art_contains e p).
  - unfold sharded_art_clear. cbn [sa_shards copies]. rewrite art_clear_all_same by done.
    by destruct (art_clear e).
Qed.

Lemma sharded_art_session_eq k os :
  (0 < k)%nat → sharded_art_session k os = art_session os.
Proof.
  intros Hk. unfold sharded_art_session, art_session, sharded_art_new.
  destruct art_new as [e| | |] eqn:Hnew; [|done..].
  assert (∀ j n, mapM (λ _, Done e) (seq j n) = Done (replicate n e)) as Hmk.
  { intros j n. revert j. induction n as [|n IH]; intros j; [done|]. cbn [seq mapM].
    cbn [mbind Outcome_bind]. by rewrite IH. }
  rewrite Hmk. simpl. change (mkShardedArt (replicate k e) k 32 32) with (copies k e). clear Hnew Hmk.
  assert (∀ os e, run_session sharded_art_op (copies k e) os =
    '(rs, e') ← run_session art_op e os; Done (rs, copies k e')) as Hrun.
  { clear os e. induction os as [|o os IH]; intros e; [done|]. cbn [run_session].
    rewrite sharded_art_op_copies by done. destruct (art_op e o) as [[r e']| | |]; [|done..].
    simpl. rewrite IH. by destruct (run_session art_op e' os) as [[rs e'']| | |]. }
  rewrite Hrun. destruct (run_session art_op e os) as [[rs e']| | |]; [|done..]. simpl.
  unfold sharded_art_size. cbn [sa_shards copies]. destruct k; [lia|done].
Qed.

(** The sharded ART engine answers every sequence of calls as the unsharded
    one, down to the runs that panic or are undefined, and reports the same
    size. *)
Theorem sharded_art_equals_standard k os :
  (0 < k)%nat → sharded_art_session k os = art_session os.
Proof. apply sharded_art_session_eq. Qed.
End engine.

(** ** Runs of inserts and lookups

    Without overflow checks, on the instruction sets whose key search is
    correct. *)

Section runs.
Context `{IpNetworkLaws} (bd : build) (Hrel : b_profile bd = Release) (Harch : b_arch bd ≠ AArch64).
Implicit Types (ps : list (IpNetwork * Metadata)) (ip : IpAddr).

(** What the tree is given since it was made, when [base] inserts came before:
    the metadata of the [i]-th insert is in the box after them. *)
Definition entry_of (base i : nat) (x : IpNetwork * Metadata) : entry :=
  (net_key x.1, net_prefix x.1, Some (Pos.of_succ_nat (base + i))).
Definition entries_of (base : nat) ps : list entry := imap (entry_of base) ps.

Definition inserts ps : list op := (λ x, OpInsert x.1 x.2) <$> ps.

Definition art_answer (base : nat) ps ip : option Metadata :=
  match p_search (length (octets ip)) (p_run (entries_of base ps)) (octets ip) 0 with
  | Some (Some l) => snd <$> ps !! (Nat.pred (Pos.to_nat l) - base)%nat
  | _ => None
  end.

Definition art_inv (e : ARTEngineAdapter) (base : nat) ps : Prop :=
  ∃ l F, tr_root (ae_tree e) = Some l ∧ store_wf (ae_store e) ∧
    art_rep (st_nodes (ae_store e)) (p_run (entries_of base ps)) l F ∧
    ae_next e = Pos.of_succ_nat (base + length ps) ∧
    (∀ i x, ps !! i = Some x → ae_values e !! Pos.of_succ_nat (base + i) = Some x.2) ∧
    tr_size (ae_tree e) = wrap 64 (Z.of_nat (length ps)).

Lemma entries_of_snoc base ps x :
  entries_of base (ps ++ [x]) = entries_of base ps ++ [entry_of base (length ps) x].
Proof. unfold entries_of. rewrite imap_app. simpl. by rewrite Nat.add_0_r. Qed.

Lemma elem_of_entries_of base ps x :
  x ∈ entries_of base ps ↔ ∃ i y, ps !! i = Some y ∧ x = entry_of base i y.
Proof.
  unfold entries_of. rewrite list_elem_of_lookup. setoid_rewrite list_lookup_imap. split.
  - intros (i & (y & Hy & ->)%fmap_Some). eauto.
  - intros (i & y & Hy & ->). exists i. by rewrite Hy.
Qed.

Lemma art_new_inv : ∃ e, art_new = Done e ∧ art_inv e 0 [].
Proof.
  eexists. split; [done|]. exists 1%positive, ({[ 1%positive ]} ∪ ∅). split_and!; [done| | |done|done|done].
  - apply (store_wf_new (mkStore ∅ 1)). intros x [n Hn]. simpl in Hn. by rewrite lookup_empty in Hn.
  - apply (rep_node _ 1%positive (N4 Node4_default) [] []); [reflexivity| |constructor|set_solver].
    apply node_rep_default.
Qed.

Lemma art_insert_run e base ps p md :
  art_inv e base ps → ∃ e', art_insert bd e p md = Done (Ok tt, e') ∧ art_inv e' base (ps ++ [(p, md)]).
Proof.
  intros (l & F & Hroot & Hwf & Hrep & Hnext & Hvals & Hsize).
  pose proof (net_key_ok p) as Hk. pose proof (max_depth_le _ _ Hk) as Hmd.
  pose proof (octets_le (net_ip p)) as H16. unfold net_key in Hmd.
  destruct (insert_node_run bd Hrel Harch (net_key p) (net_prefix p) (Some (ae_next e)) Hk
    (max_depth_of (net_prefix p)) tree_fuel 0 (ae_store e) (Some l) (Some (p_run (entries_of base ps))) F)
    as (l' & st' & F' & Hrun & Hrep' & Hch); [lia|pose proof tree_fuel_bound; lia|done|done|].
  unfold art_insert, insert_prefix, ip_bytes. fold (net_key p). rewrite Hroot, (am_run _ _ _ _ _ Hrun).
  unfold usize_arith. rewrite Hrel. cbn [lift mbind AM_bind mret AM_ret Outcome_bind].
  eexists. split; [done|]. exists l', F'. cbn [ae_tree ae_store ae_values ae_next tr_root tr_size].
  split_and!; [done|apply (evo_wf _ _ _ _ Hch)| |by rewrite Hnext, length_app; simpl; f_equal; lia| |].
  - rewrite entries_of_snoc, p_run_snoc. unfold p_add, entry_of, xkey, xlen. cbn [fst snd].
    rewrite <- Hnext. done.
  - intros i x [Hi|[Hi Hx]]%lookup_app_Some.
    + pose proof (lookup_lt_Some _ _ _ Hi). rewrite lookup_insert_ne by (rewrite Hnext; lia). by apply Hvals.
    + destruct (i - length ps)%nat as [|?] eqn:E; [|done]. injection Hx as <-.
      assert (i = length ps) as -> by lia. by rewrite <- Hnext, lookup_insert_eq.
  - rewrite Hsize. unfold wrap. rewrite Z.add_mod_idemp_l by lia. rewrite length_app. simpl. f_equal. lia.
Qed.

Lemma match_ip_run e base ps ip :
  art_inv e base ps →
  match_ip bd (ae_tree e) (octets ip) (ae_store e) =
  Done (p_search (length (octets ip)) (p_run (entries_of base ps)) (octets ip) 0, ae_store e).
Proof.
  intros (l & F & Hroot & Hwf & Hrep & _). unfold match_ip. rewrite Hroot.
  pose proof (octets_le ip). eapply (search_run bd Harch (octets ip) (octets_bytes ip) (octets_le ip));
    [lia|pose proof tree_fuel_bound; lia|done].
Qed.

(** Where an answer comes from. *)
Lemma p_search_entry base ps ip v :
  p_search (length (octets ip)) (p_run (entries_of base ps)) (octets ip) 0 = Some v →
  ∃ i x, ps !! i = Some x ∧ v = Some (Pos.of_succ_nat (base + i)) ∧ lmatch (xleaf (entry_of base i x)) (octets ip) = true.
Proof.
  intros (lf & Hin & Hm & <-)%p_search_leaf.
  apply p_run_leaf in Hin as (y & (i & x & Hx & ->)%elem_of_entries_of & ->). by exists i, x.
Qed.

Lemma art_lookup_run e base ps ip :
  art_inv e base ps → art_lookup bd e ip = Done (art_answer base ps ip).
Proof.
  intros Hinv. unfold art_lookup, ip_bytes, art_answer. rewrite (match_ip_run e base ps ip Hinv).
  destruct Hinv as (l & F & _ & _ & _ & _ & Hvals & _).
  destruct (p_search _ _ _ _) as [v|] eqn:Hs; [|done].
  apply p_search_entry in Hs as (i & x & Hx & -> & _). simpl.
  rewrite (Hvals i x Hx), SuccNat2Pos.id_succ. cbn [Nat.pred mbind Outcome_bind].
  by rewrite Nat.add_comm, Nat.add_sub, Hx.
Qed.

Lemma art_inserts_run qs : ∀ e base ps, art_inv e base ps →
  ∃ e', run_session (art_op bd) e (inserts qs) = Done (replicate (length qs) (RDone (Ok tt)), e') ∧
    art_inv e' base (ps ++ qs).
Proof.
  induction qs as [|[p md] qs IH]; intros e base ps Hinv.
  - exists e. by rewrite app_nil_r.
  - destruct (art_insert_run e base ps p md Hinv) as (e1 & R1 & Hinv1).
    destruct (IH e1 _ _ Hinv1) as (e2 & R2 & Hinv2). exists e2.
    rewrite <- (assoc_L (++)) in Hinv2. split; [|done].
    cbn [inserts fmap list_fmap run_session art_op fst snd]. rewrite R1. cbn [mbind Outcome_bind].
    unfold inserts in R2. by rewrite R2.
Qed.

Lemma run_session_cons {E} (step : E → op → Outcome (res * E)) o os e r e1 rs e2 :
  step e o = Done (r, e1) → run_session step e1 os = Done (rs, e2) →
  run_session step e (o :: os) = Done (r :: rs, e2).
Proof. intros Ho Hos. cbn [run_session]. by rewrite (o_run _ _ _ Ho), (o_run _ _ _ Hos). Qed.

Lemma run_session_app {E} (step : E → op → Outcome (res * E)) os : ∀ e rs e' os',
  run_session step e os = Done (rs, e') →
  run_session step e (os ++ os') = '(rs', e'') ← run_session step e' os'; Done (rs ++ rs', e'').
Proof.
  induction os as [|o os IH]; intros e rs e' os'; cbn [app run_session].
  - intros [= <- <-]. by destruct (run_session step e os') as [[? ?]| | |].
  - destruct (step e o) as [[r e1]| | |]; simpl; try done.
    destruct (run_session step e1 os) as [[rs1 e2]| | |] eqn:E1; simpl; try done. intros [= <- <-].
    rewrite (IH _ _ _ _ E1). by destruct (run_session step e2 os') as [[? ?]| | |].
Qed.

Lemma art_lookup_session ps ip :
  art_session bd (inserts ps ++ [OpLookup ip]) =
  Done (replicate (length ps) (RDone (Ok tt)) ++ [RMeta (art_answer 0 ps ip)],
        wrap 64 (Z.of_nat (length ps))).
Proof.
  unfold art_session. destruct art_new_inv as (e & -> & Hinv). cbn [mbind Outcome_bind].
  destruct (art_inserts_run ps e 0 [] Hinv) as (e' & R & Hinv').
  rewrite (run_session_app _ _ _ _ _ _ R). cbn [run_session art_op].
  rewrite (art_lookup_run e' 0 ps ip Hinv'). simpl.
  destruct Hinv' as (_ & _ & _ & _ & _ & _ & _ & Hs). unfold art_size. by rewrite Hs.
Qed.

(** [clear]: the old tree is freed box by box, and the engine starts over. *)
Lemma art_clear_run e base ps :
  art_inv e base ps → ∃ e', art_clear e = Done e' ∧ art_inv e' (base + length ps) [].
Proof.
  intros (l & F & Hroot & Hwf & Hrep & Hnext & _ & _). unfold art_clear, tree_new.
  set (st := ae_store e) in *.
  set (st1 := mkStore (<[st_next st := N4 Node4_default]> (st_nodes st)) (Pos.succ (st_next st))).
  rewrite (o_run _ _ (mkTree (Some (st_next st)) 0, st1)) by done.
  destruct (tree_drop_run st1 (p_run (entries_of base ps)) (ae_tree e) l F Hroot) as (st2 & R & [Hn Hd]).
  { eapply art_frame; [exact Hrep|]. intros x Hx. simpl.
    pose proof (rep_below st _ _ _ x Hwf Hrep Hx). by rewrite lookup_insert_ne by lia. }
  rewrite (o_run _ _ _ R). eexists. split; [done|].
  assert (st_next st ∉ F) as Hfresh.
  { intros Hx. pose proof (rep_below st _ _ _ _ Hwf Hrep Hx). lia. }
  exists (st_next st), ({[ st_next st ]} ∪ ∅).
  cbn [ae_tree ae_store ae_values ae_next tr_root tr_size]. split_and!; [done| | | |done|done].
  - intros x. rewrite Hd, Hn. case_decide; [by intros [? ?]|]. intros Hx.
    by apply (store_wf_new st (N4 Node4_default) Hwf).
  - apply (rep_node _ (st_next st) (N4 Node4_default) [] []); [| |constructor|set_solver].
    + rewrite Hd, decide_False by done. simpl. by rewrite lookup_insert_eq.
    + apply node_rep_default.
  - by rewrite Hnext, Nat.add_0_r.
Qed.

(** ** Sessions without removals *)

(** The prefixes inserted since the last [clear] are what an answer can be
    taken from. *)
Definition from_entry ps ip (md : Metadata) : Prop :=
  ∃ p, (p, md) ∈ ps ∧ (same_family (net_ip p) ip = true → net_contains p ip = true).

Inductive art_step : list (IpNetwork * Metadata) → op → res → list (IpNetwork * Metadata) → Prop :=
  | as_insert ps p md : art_step ps (OpInsert p md) (RDone (Ok tt)) (ps ++ [(p, md)])
  | as_lookup ps ip r : (∀ md, r = Some md → from_entry ps ip md) → art_step ps (OpLookup ip) (RMeta r) ps
  | as_contains ps q b : (b = true → ∃ md, from_entry ps (net_ip q) md) → art_step ps (OpContains q) (RBool b) ps
  | as_clear ps : art_step ps OpClear RUnit [].

Inductive art_steps : list (IpNetwork * Metadata) → list op → list res → list (IpNetwork * Metadata) → Prop :=
  | ass_nil ps : art_steps ps [] [] ps
  | ass_cons ps o r ps' os rs ps'' :
      art_step ps o r ps' → art_steps ps' os rs ps'' → art_steps ps (o :: os) (r :: rs) ps''.

Definition no_remove (o : op) : Prop := match o with OpRemove _ => False | _ => True end.

Lemma search_from_entry base ps ip v :
  p_search (length (octets ip)) (p_run (entries_of base ps)) (octets ip) 0 = Some v →
  ∃ i p md, ps !! i = Some (p, md) ∧ v = Some (Pos.of_succ_nat (base + i)) ∧ from_entry ps ip md.
Proof.
  intros (i & [p md] & Hx & -> & Hm)%p_search_entry. exists i, p, md. split_and!; [done|done|].
  exists p. split; [by eapply list_elem_of_lookup_2|]. intros Hf.
  by rewrite <- (lmatch_contains p (Some (Pos.of_succ_nat (base + i))) ip Hf).
Qed.

Lemma art_op_run e base ps o :
  art_inv e base ps → no_remove o →
  ∃ r e' base' ps', art_op bd e o = Done (r, e') ∧ art_inv e' base' ps' ∧ art_step ps o r ps'.
Proof.
  intros Hinv Ho. destruct o as [p md|ip|p|p|]; cbn [art_op]; [..|].
  - destruct (art_insert_run e base ps p md Hinv) as (e' & R & Hinv').
    rewrite (o_run _ _ _ R). eexists _, _, _, _. split; [done|]. split; [exact Hinv'|constructor].
  - rewrite (o_run _ _ _ (art_lookup_run e base ps ip Hinv)). eexists _, _, _, _.
    split; [done|]. split; [exact Hinv|]. constructor. intros md. unfold art_answer.
    destruct (p_search _ _ _ _) as [v|] eqn:Hs; [|done].
    apply search_from_entry in Hs as (i & p & md' & Hx & -> & Hfrom).
    rewrite SuccNat2Pos.id_succ. cbn [Nat.pred]. rewrite Nat.add_comm, Nat.add_sub, Hx. by intros [= <-].
  - done.
  - assert (art_contains bd e p = Done (is_some (p_search (length (octets (net_ip p)))
      (p_run (entries_of base ps)) (octets (net_ip p)) 0))) as Hc.
    { unfold art_contains, ip_bytes. by rewrite (o_run _ _ _ (match_ip_run e base ps (net_ip p) Hinv)). }
    rewrite (o_run _ _ _ Hc).
    eexists _, _, _, _. split; [done|]. split; [exact Hinv|]. constructor.
    destruct (p_search _ _ _ _) as [v|] eqn:Hs; [|done]. intros _.
    apply search_from_entry in Hs as (i & p' & md' & _ & _ & Hfrom). eauto.
  - destruct (art_clear_run e base ps Hinv) as (e' & R & Hinv'). rewrite (o_run _ _ _ R).
    eexists _, _, _, _. split; [done|]. split; [exact Hinv'|constructor].
Qed.

Lemma art_ops_run os : ∀ e base ps, art_inv e base ps → Forall no_remove os →
  ∃ rs e' base' ps', run_session (art_op bd) e os = Done (rs, e') ∧ art_inv e' base' ps' ∧
    art_steps ps os rs ps'.
Proof.
  induction os as [|o os IH]; intros e base ps Hinv Hos.
  - eexists _, _, _, _. split; [done|]. split; [exact Hinv|constructor].
  - apply Forall_cons in Hos as [Ho Hos].
    destruct (art_op_run e base ps o Hinv Ho) as (r & e1 & base1 & ps1 & R1 & Hinv1 & Hs1).
    destruct (IH e1 base1 ps1 Hinv1 Hos) as (rs & e2 & base2 & ps2 & R2 & Hinv2 & Hs2).
    eexists _, _, _, _. split; [by eapply run_session_cons|]. split; [exact Hinv2|by econstructor].
Qed.

(** C16: in a release build for a target other than AArch64, a session of inserts,
    lookups, [contains] and [clear] never panics, never touches a freed box and
    never frees one twice; a lookup only answers with the metadata of a prefix
    inserted since the last [clear], which contains the address if the two are
    of one family, and [size] counts these inserts. *)
Theorem art_remove_free_sound os :
  Forall no_remove os →
  ∃ rs ps, art_session bd os = Done (rs, wrap 64 (Z.of_nat (length ps))) ∧ art_steps [] os rs ps.
Proof.
  intros Hos. destruct art_new_inv as (e & Hnew & Hinv).
  destruct (art_ops_run os e 0 [] Hinv Hos) as (rs & e' & base & ps & R & Hinv' & Hs).
  exists rs, ps. split; [|done]. unfold art_session. rewrite (o_run _ _ _ Hnew), (o_run _ _ _ R).
  destruct Hinv' as (_ & _ & _ & _ & _ & _ & _ & Hsize). unfold art_size. by rewrite Hsize.
Qed.

Definition first_two (p : IpNetwork) : Z * Z := (byte_at (net_key p) 0, byte_at (net_key p) 1).

(** A prefix of at least 16 bits starts with the first two bytes of every
    address it contains. *)
Lemma contains_first_two p ip :
  16 ≤ net_prefix p → net_contains p ip = true →
  first_two p = (byte_at (octets ip) 0, byte_at (octets ip) 1).
Proof.
  intros H16 Hc. pose proof Hc as [Hf _]%net_contains_bits. rewrite same_family_network in Hf.
  rewrite <- (lmatch_contains p None ip Hf) in Hc.
  apply lmatch_bytes in Hc as [Hb _]; [|apply net_key_ok|apply octets_bytes|].
  - unfold first_two. rewrite !Hb by (Z.div_mod_to_equations; lia). done.
  - pose proof (same_family_width _ _ Hf). pose proof (length_octets ip).
    pose proof (length_octets (net_ip p)). unfold net_key. lia.
Qed.

(** C19: in a release build for a target other than AArch64, on prefixes of the
    family of the address that differ in their first two bytes and end at the
    second byte or at the third or after it, a lookup in the adaptive radix
    tree is the reference matcher [LPM::lookup]. *)
Theorem art_two_bytes_lpm ps ip :
  Forall (λ x, same_family (net_ip x.1) ip = true) ps →
  Forall (λ x, net_prefix x.1 = 16 ∨ 24 ≤ net_prefix x.1) ps →
  NoDup ((λ x, first_two x.1) <$> ps) →
  art_session bd (inserts ps ++ [OpLookup ip]) =
  Done (replicate (length ps) (RDone (Ok tt)) ++ [RMeta (LPM_lookup ps ip)],
        wrap 64 (Z.of_nat (length ps))).
Proof.
  intros Hfam Hlen Hnd. rewrite art_lookup_session. cut (art_answer 0 ps ip = LPM_lookup ps ip); [by intros ->|].
  rewrite Forall_lookup in Hfam, Hlen.
  assert (Forall aligned (entries_of 0 ps)) as Hal.
  { apply Forall_forall. intros x (i & y & Hy & ->)%elem_of_entries_of.
    split; [apply net_key_ok|]. by apply (Hlen i). }
  assert (two_level (entries_of 0 ps) (p_run (entries_of 0 ps))) as Htwo.
  { apply two_level_run; [done|]. unfold entries_of.
    replace ((λ x, (b0 x, b1 x)) <$> imap (entry_of 0) ps) with ((λ x, first_two x.1) <$> ps); [done|].
    apply list_eq. intros i. rewrite !list_lookup_fmap, list_lookup_imap. by destruct (ps !! i). }
  assert (∀ x, x ∈ ps → net_contains x.1 ip = true →
    ∃ i, ps !! i = Some x ∧ art_answer 0 ps ip = Some x.2) as Hfound.
  { intros x (i & Hi)%list_elem_of_lookup Hc. exists i. split; [done|]. unfold art_answer.
    pose proof (Hfam i x Hi) as Hf.
    rewrite (two_level_search (entries_of 0 ps) _ (entry_of 0 i x) (octets ip) Hal Htwo).
    - cbn [entry_of snd]. rewrite SuccNat2Pos.id_succ. simpl. by rewrite Nat.sub_0_r, Hi.
    - apply elem_of_entries_of. eauto.
    - apply octets_bytes.
    - pose proof (same_family_width _ _ Hf). pose proof (length_octets ip).
      pose proof (length_octets (net_ip x.1)). unfold xkey, entry_of, net_key. simpl. lia.
    - unfold xleaf, xkey, xlen, entry_of. cbn [fst snd]. by rewrite lmatch_contains. }
  unfold LPM_lookup. destruct (existsb (λ x, net_contains x.1 ip) ps) eqn:Hex.
  - apply existsb_exists in Hex as (x & Hx & Hc). apply list_elem_of_In in Hx.
    destruct (Hfound x Hx Hc) as (i & Hi & ->). symmetry. apply lpm_entries_unique; [done| |].
    + by rewrite network_contains_ip_spec.
    + intros y (j & Hj)%list_elem_of_lookup Hcy. rewrite network_contains_ip_spec in Hcy. left.
      assert (i = j) as <-; [|congruence].
      eapply (NoDup_lookup _ i j _ Hnd); rewrite list_lookup_fmap, ?Hi, ?Hj; simpl; f_equal.
      rewrite (contains_first_two x.1 ip), (contains_first_two y.1 ip); [done|..]; try done.
      * destruct (Hlen j y Hj); lia.
      * destruct (Hlen i x Hi); lia.
  - rewrite lpm_entries_none.
    + unfold art_answer. destruct (p_search _ _ _ _) as [v|] eqn:Hs; [|done].
      apply p_search_entry in Hs as (i & x & Hx & -> & Hm).
      exfalso. apply not_true_iff_false in Hex. apply Hex, existsb_exists. exists x.
      split; [apply list_elem_of_In; by eapply list_elem_of_lookup_2|].
      rewrite <- (lmatch_contains x.1 (Some (Pos.of_succ_nat i)) ip); [exact Hm|]. by apply (Hfam i).
    + intros x Hx. rewrite network_contains_ip_spec. apply not_true_iff_false. intros Hc.
      apply not_true_iff_false in Hex. apply Hex, existsb_exists. exists x. split; [by apply list_elem_of_In|done].
Qed.

(** ** What goes wrong outside of that class *)

(** Two prefixes that share their first two bytes: the second
    insert is counted and lost; addresses of the second prefix are answered as if only
    the first were stored. *)
Theorem art_shared_bytes_lost p q mdp mdq ip :
  16 ≤ net_prefix p → 16 ≤ net_prefix q → first_two p = first_two q →
  same_family (net_ip p) ip = true → same_family (net_ip q) ip = true → net_contains q ip = true →
  art_session bd [OpInsert p mdp; OpInsert q mdq; OpLookup ip] =
  Done ([RDone (Ok tt); RDone (Ok tt); RMeta (if net_contains p ip then Some mdp else None)], 2).
Proof.
  intros Hp Hq Heq Hfp Hfq Hc.
  pose proof (art_lookup_session [(p, mdp); (q, mdq)] ip) as Hrun. cbn in Hrun. rewrite Hrun. clear Hrun.
  cut (art_answer 0 [(p, mdp); (q, mdq)] ip = if net_contains p ip then Some mdp else None); [by intros ->|].
  rewrite <- (lmatch_contains p (Some 1%positive) ip Hfp).
  pose proof (contains_first_two q ip Hq Hc) as Hip. unfold first_two in Heq, Hip.
  injection Heq as Hb0 Hb1. injection Hip as Hq0 Hq1.
  set (x := entry_of 0 0 (p, mdp)). set (y := entry_of 0 1 (q, mdq)).
  destruct (p_run_clash x y) as [t Ht]; [split; [apply net_key_ok|done]..|done|done|].
  unfold art_answer. change (entries_of 0 [(p, mdp); (q, mdq)]) with [x; y]. rewrite Ht.
  destruct (length (octets ip)) as [|[|r]] eqn:Hl; [by destruct ip|by destruct ip|].
  cbn [p_search assoc]. rewrite <- Hq0, <- Hb0. unfold b0 at 1. cbn [xkey x entry_of fst].
  rewrite Z.eqb_refl. cbn [mbind option_bind p_search assoc].
  rewrite <- Hq1, <- Hb1. unfold b1 at 1. cbn [xkey x entry_of fst]. rewrite Z.eqb_refl.
  cbn [mbind option_bind p_search]. change (xleaf x) with (leaf_of (net_key p) (net_prefix p) (Some 1%positive)).
  destruct r; cbn [p_search]; by destruct (lmatch _ _).
Qed.

(** A deletion that finds no leaf of its length changes nothing. *)
Lemma delete_absent_run key len :
  Forall is_byte key → (length key ≤ 16)%nat → (max_depth_of len ≤ length key)%nat →
  ∀ fuel depth st t l F, art_rep (st_nodes st) t l F →
  (∀ lf, leaf_in lf t → leaf_prefix_len lf ≠ len) → (max_depth_of len - depth < fuel)%nat →
  delete_node bd fuel (Some l) key depth len st = Done ((Some l, false), st).
Proof.
  intros Hby H16 Hmd. induction fuel as [|fuel IH]; intros depth st t l F Hrep Hno Hf; [lia|].
  cbn [delete_node]. destruct Hrep as [l lf Hl Hlok|l n cs kls F Hl Hn Hkids HlF];
    rewrite (deref_run _ _ _ _ Hl).
  - by rewrite (proj2 (Z.eqb_neq _ _) (Hno lf (in_leaf lf))).
  - rewrite node_not_leaf by (by destruct n; [..|destruct Hn]).
    destruct (Nat.leb_spec (max_depth_of len) depth) as [|Hlt]; [done|].
    destruct (index_byte_run key depth len Hby ltac:(lia)) as [Hib Hb].
    rewrite (lift_run _ _ _ _ Hib), (lift_run _ _ _ _ (find_child_run bd _ _ _ _ Harch Hn Hb)).
    destruct (assoc cs (ibyte key depth len)) as [c|] eqn:Ha.
    + destruct (kids_some _ _ _ _ _ c Hkids Ha) as (lc & Fc & -> & Hc & _).
      cbn [fmap option_fmap option_map]. rewrite (am_run _ _ _ (Some lc, false) st); [done|].
      eapply IH; [exact Hc| |lia]. intros lf Hin. apply Hno. eapply in_node; [by apply assoc_elem|done].
    + by rewrite (proj1 (kids_none _ _ _ _ _ Hkids) Ha).
Qed.

(** One prefix, looked up with an address it contains. *)
Lemma p_search_single p v a :
  8 ≤ net_prefix p → net_contains p a = true →
  p_search (length (octets a)) (p_run [(net_key p, net_prefix p, v)]) (octets a) 0 = Some v.
Proof.
  intros H8 Ha. pose proof Ha as [Hf _]%net_contains_bits. rewrite same_family_network in Hf.
  pose proof (net_key_ok p) as Hk. pose proof Hk as (_ & _ & Hr).
  assert (0 < Z.to_nat (net_prefix p / 8))%nat as Hfull by (Z.div_mod_to_equations; lia).
  assert (max_depth_of (net_prefix p) = S (max_depth_of (net_prefix p) - 1)) as Hr1
    by (unfold max_depth_of; Z.div_mod_to_equations; lia).
  pose proof Ha as Hm. rewrite <- (lmatch_contains p v a Hf) in Hm.
  assert (length (octets a) = length (net_key p)) as Hla.
  { unfold net_key. pose proof (same_family_width _ _ Hf). pose proof (length_octets a).
    pose proof (length_octets (net_ip p)). lia. }
  pose proof (proj1 (lmatch_bytes (net_key p) (net_prefix p) v (octets a) Hk (octets_bytes a) Hla) Hm)
    as [Hb _].
  unfold p_run, p_add, xkey, xlen. cbn [foldl fst snd]. rewrite Hr1. cbn [p_insert assoc].
  rewrite ibyte_full by lia. unfold grown, grows. cbn [length Nat.eqb andb app negb orb].
  destruct (length (octets a)) as [|[|r']] eqn:Hl; [by destruct a|by destruct a|].
  cbn [p_search assoc]. rewrite (Hb 0%nat Hfull), Z.eqb_refl. cbn [mbind option_bind p_search].
  by rewrite Hm.
Qed.

Lemma entries_of_single p md : entries_of 0 [(p, md)] = [(net_key p, net_prefix p, Some 1%positive)].
Proof. reflexivity. Qed.

Lemma art_remove_other e p q md :
  8 ≤ net_prefix p → net_contains p (net_ip q) = true → net_prefix q ≠ net_prefix p →
  art_inv e 0 [(p, md)] →
  art_remove bd e q = Done (Some md, mkArt (ae_tree e) (ae_store e) (delete 1%positive (ae_values e)) (ae_next e)).
Proof.
  intros H8 Hq Hne Hinv. unfold art_remove. change (ip_bytes (net_ip q)) with (net_key q). cbv zeta.
  pose proof (match_ip_run e _ _ (net_ip q) Hinv) as Hmatch. fold (net_key q) in Hmatch.
  rewrite (o_run _ _ _ Hmatch), entries_of_single. unfold net_key at 2 3.
  rewrite (p_search_single p _ _ H8 Hq).
  destruct Hinv as (l & F & Hroot & Hwf & Hrep & _ & Hvals & _).
  rewrite (o_run _ _ (Some md, delete 1%positive (ae_values e))).
  2: { rewrite (o_run _ _ md); [done|]. unfold value_at.
       by rewrite (Hvals 0%nat (p, md) eq_refl : ae_values e !! 1%positive = _). }
  pose proof (net_key_ok q) as Hkq. pose proof (max_depth_le _ _ Hkq) as Hmd. destruct Hkq as (Hby & H16 & _).
  rewrite (o_run _ _ (false, ae_tree e, ae_store e)); [done|].
  unfold delete_prefix. rewrite (am_run _ _ _ (Some l, false) (ae_store e)).
  - destruct (ae_tree e) as [rt sz]. simpl in Hroot. by subst rt.
  - rewrite Hroot.
    eapply (delete_absent_run (net_key q) (net_prefix q) Hby H16 Hmd);
      [exact Hrep| |pose proof tree_fuel_bound; lia].
    intros lf Hin. apply p_run_leaf in Hin as (y & Hy & ->).
    apply elem_of_entries_of in Hy as ([|i] & z & Hz & ->); [|done]. injection Hz as <-. by apply not_eq_sym.
Qed.

(** [remove] looks the address of the prefix up and frees what it
    finds: removing a prefix that was never stored, inside a stored one,
    returns the metadata of the stored prefix and leaves its leaf with a
    dangling pointer; the next lookup reads freed memory. *)
Theorem art_remove_dangles p q md ip :
  8 ≤ net_prefix p → net_contains p (net_ip q) = true → net_prefix q ≠ net_prefix p →
  net_contains p ip = true →
  art_session bd [OpInsert p md; OpRemove q] = Done ([RDone (Ok tt); RMeta (Some md)], 1) ∧
  art_session bd [OpInsert p md; OpRemove q; OpLookup ip] = Undefined.
Proof.
  intros H8 Hq Hne Hip. destruct art_new_inv as (e0 & Hnew & Hinv0).
  destruct (art_insert_run e0 0 [] p md Hinv0) as (e & R1 & Hinv).
  pose proof (art_remove_other e p q md H8 Hq Hne Hinv) as R2. set (e' := mkArt _ _ _ _) in R2.
  assert (run_session (art_op bd) e0 [OpInsert p md; OpRemove q] =
          Done ([RDone (Ok tt); RMeta (Some md)], e')) as Hrun.
  { eapply run_session_cons; [cbn [art_op]; by rewrite (o_run _ _ _ R1)|].
    eapply run_session_cons; [cbn [art_op]; by rewrite (o_run _ _ _ R2)|done]. }
  assert (art_lookup bd e' ip = Undefined) as Hund.
  { pose proof (match_ip_run e 0 [(p, md)] ip Hinv) as Hm. rewrite entries_of_single in Hm.
    rewrite (p_search_single p _ _ H8 Hip) in Hm. unfold art_lookup.
    rewrite (o_run _ _ _ (Hm : match_ip bd (ae_tree e') (ip_bytes ip) (ae_store e') = _)).
    unfold value_at, e'. cbn [ae_values]. by rewrite lookup_delete_eq. }
  unfold art_session. rewrite !(o_run _ _ _ Hnew). split.
  - rewrite (o_run _ _ _ Hrun). destruct Hinv as (_ & _ & _ & _ & _ & _ & _ & Hs).
    unfold art_size, e'. cbn [ae_tree]. by rewrite Hs.
  - change [OpInsert p md; OpRemove q; OpLookup ip] with ([OpInsert p md; OpRemove q] ++ [OpLookup ip]).
    rewrite (run_session_app _ _ _ _ _ _ Hrun). cbn [run_session art_op]. by rewrite Hund.
Qed.
End runs.

(** ** Dropping a tree after a slot was overwritten *)

(** Inserts of [i.0.0.0/8] for the listed bytes. *)
Fixpoint insert_bytes (bd : build) (t : Tree) (f : nat → ptr) (ixs : list nat) : AM Tree :=
  match ixs with
  | [] => mret t
  | i :: ixs' => t' ← insert_prefix bd t [Z.of_nat i; 0; 0; 0] 8 (f i); insert_bytes bd t' f ixs'
  end.

(** Twenty inserts, one removal and one more insert leave two bytes
    of a [Node48] on one slot, and dropping the tree frees that child twice. *)
Theorem art_drop_double_free bd (f : nat → ptr) :
  b_arch bd ≠ AArch64 →
  (t0 ← tree_new;
   t1 ← insert_bytes bd t0 f (seq 0 20);
   '(deleted, t2) ← delete_prefix bd t1 [3; 0; 0; 0] 8;
   t3 ← insert_bytes bd t2 f [20%nat];
   tree_drop t3) (mkStore ∅ 1) = Undefined.
Proof. destruct bd as [[] [[] []| |]]; intros Ha; try done; vm_compute; reflexivity. Qed.
