(* ===== verification/Wrapper.v ===== *)
(** * The engine wrapper (EngineWrapper of engine/src/engine.rs, engine/src/config.rs)

    [EngineWrapper::new] picks a tree, a node representation and a number of
    shards from the configuration and the machine; every call is dispatched
    to the engine it picked.  The presets of [RadixConfig] are here too. *)

From S2P Require Import Prelude Addr Lpm DashMap Node Heap RouteTree Trie Patricia Engine Engines.
From S2P Require Import Simd ArtNode ArtTree ArtLookup ArtEngine.

Local Open Scope Z_scope.

(** ** How many shards *)

(** What the code asks the machine: [available_parallelism()] (an error is
    [None]) and [sysinfo]'s [available_memory()] in bytes. *)
Record Host := mkHost { host_parallelism : option nat; host_memory : Z (* u64 *) }.

Definition shards_from_cpu (host : Host) (breakpoints : list (nat * nat)) (dflt : nat) : nat :=
  let cpus := default 1%nat (host_parallelism host) in
  match List.find (λ x, (cpus <=? x.1)%nat) breakpoints with
  | Some (_, shards) => shards
  | None => dflt
  end.

Definition usable_memory_bytes (host : Host) : Z := sat_mul 64 (host_memory host) 3 / 4.

Definition shards_from_memory (host : Host) : nat :=
  let usable_mb := usable_memory_bytes host / (1024 * 1024) in
  if usable_mb <=? 512 then 2
  else if usable_mb <=? 2048 then 8
  else if usable_mb <=? 4096 then 16
  else if usable_mb <=? 8192 then 32
  else 64.

Definition calculate_optimal_shards (host : Host) (variant : EngineVariant) : nat :=
  match variant with
  | Standard | LockFree => 1
  | ART => shards_from_cpu host [(2, 2); (4, 4); (8, 8)]%nat 16
  | Concurrent => shards_from_cpu host [(2, 2); (4, 8); (8, 16); (16, 32)]%nat 64
  | Adaptive =>
      let cpu_based := shards_from_cpu host [(2, 2); (4, 8); (8, 16); (16, 32)]%nat 64 in
      let mem_based := shards_from_memory host in
      cpu_based `min` mem_based
  end.

(** The node representation and the shard count [new] works with. *)
Definition resolved_node_variant (variant : EngineVariant) (node_variant : NodeVariant)
    (compressed : bool) : NodeVariant :=
  match variant with
  | LockFree => if compressed then LockFreeRadixNode_v else LockFreeTrieNode_v
  | Adaptive => if compressed then AtomicRadixNode_v else AtomicTrieNode_v
  | _ => node_variant
  end.

Definition effective_shards (variant : EngineVariant) (shard_count : nat) : nat :=
  match variant with LockFree => 1 | _ => shard_count end.

(** An operation of the ART engines, which keep their own store: a panic or
    an undefined behaviour ends the run. *)
Definition lift_art `{IpNetworkCrate} `{DashMapCrate} {A} (o : Outcome A) : M A := λ h,
  match o with Done a => Some (a, h) | _ => None end.

(** The profile and the target the crate is compiled for. *)
Class TargetBuild := target_build : ArtNode.build.

Section wrapper.
Context `{IpNetworkCrate} `{DashMapCrate} `{bd : TargetBuild}.

Inductive EngineWrapper :=
  | StandardUncompressed (e : StandardEngine UncompressedTree)
  | ConcurrentUncompressed (e : ShardedEngine UncompressedTree)
  | StandardCompressed (e : StandardEngine CompressedTree)
  | ConcurrentCompressed (e : ShardedEngine CompressedTree)
  | StandardART (e : ARTEngineAdapter)
  | ConcurrentART (e : ShardedARTEngineAdapter).

Definition wrapper_new (host : Host) (variant : EngineVariant) (node_variant : NodeVariant)
    (compressed : bool) (num_shards : option nat) : M EngineWrapper :=
  let shard_count := default (calculate_optimal_shards host variant) num_shards in
  if decide (variant = ART) then
    if (1 <? shard_count)%nat then
      s ← lift_art (sharded_art_new shard_count 32); mret (ConcurrentART s)
    else
      e ← lift_art art_new; mret (StandardART e)
  else
    let v := resolved_node_variant variant node_variant compressed in
    let k := effective_shards variant shard_count in
    if compressed then
      tree ← patricia_new v;
      if (1 <? k)%nat then mret (ConcurrentCompressed (sharded_new k tree))
      else mret (StandardCompressed (standard_new tree))
    else
      tree ← trie_new v;
      if (1 <? k)%nat then mret (ConcurrentUncompressed (sharded_new k tree))
      else mret (StandardUncompressed (standard_new tree)).

Definition wrapper_insert (w : EngineWrapper) (prefix : IpNetwork) (metadata : Metadata)
    : M (Result unit string * EngineWrapper) :=
  match w with
  | StandardUncompressed e => '(r, e') ← standard_insert e prefix metadata; mret (r, StandardUncompressed e')
  | ConcurrentUncompressed e => '(r, e') ← sharded_insert e prefix metadata; mret (r, ConcurrentUncompressed e')
  | StandardCompressed e => '(r, e') ← standard_insert e prefix metadata; mret (r, StandardCompressed e')
  | ConcurrentCompressed e => '(r, e') ← sharded_insert e prefix metadata; mret (r, ConcurrentCompressed e')
  | StandardART e => '(r, e') ← lift_art (art_insert bd e prefix metadata); mret (r, StandardART e')
  | ConcurrentART e => '(r, e') ← lift_art (sharded_art_insert bd e prefix metadata); mret (r, ConcurrentART e')
  end.

Definition wrapper_lookup (w : EngineWrapper) (ip : IpAddr) : M (option Metadata * EngineWrapper) :=
  match w with
  | StandardUncompressed e => '(r, e') ← standard_lookup e ip; mret (r, StandardUncompressed e')
  | ConcurrentUncompressed e => '(r, e') ← sharded_lookup e ip; mret (r, ConcurrentUncompressed e')
  | StandardCompressed e => '(r, e') ← standard_lookup e ip; mret (r, StandardCompressed e')
  | ConcurrentCompressed e => '(r, e') ← sharded_lookup e ip; mret (r, ConcurrentCompressed e')
  | StandardART e => r ← lift_art (art_lookup bd e ip); mret (r, w)
  | ConcurrentART e => r ← lift_art (sharded_art_lookup bd e ip); mret (r, w)
  end.

Definition wrapper_remove (w : EngineWrapper) (prefix : IpNetwork) : M (option Metadata * EngineWrapper) :=
  match w with
  | StandardUncompressed e => '(r, e') ← standard_remove e prefix; mret (r, StandardUncompressed e')
  | ConcurrentUncompressed e => '(r, e') ← sharded_remove e prefix; mret (r, ConcurrentUncompressed e')
  | StandardCompressed e => '(r, e') ← standard_remove e prefix; mret (r, StandardCompressed e')
  | ConcurrentCompressed e => '(r, e') ← sharded_remove e prefix; mret (r, ConcurrentCompressed e')
  | StandardART e => '(r, e') ← lift_art (art_remove bd e prefix); mret (r, StandardART e')
  | ConcurrentART e => '(r, e') ← lift_art (sharded_art_remove bd e prefix); mret (r, ConcurrentART e')
  end.

Definition wrapper_contains (w : EngineWrapper) (prefix : IpNetwork) : M bool :=
  match w with
  | StandardUncompressed e => standard_contains e prefix
  | ConcurrentUncompressed e => sharded_contains e prefix
  | StandardCompressed e => standard_contains e prefix
  | ConcurrentCompressed e => sharded_contains e prefix
  | StandardART e => lift_art (art_contains bd e prefix)
  | ConcurrentART e => lift_art (sharded_art_contains bd e prefix)
  end.

Definition wrapper_clear (w : EngineWrapper) : M EngineWrapper :=
  match w with
  | StandardUncompressed e => e' ← standard_clear e; mret (StandardUncompressed e')
  | ConcurrentUncompressed e => e' ← sharded_clear e; mret (ConcurrentUncompressed e')
  | StandardCompressed e => e' ← standard_clear e; mret (StandardCompressed e')
  | ConcurrentCompressed e => e' ← sharded_clear e; mret (ConcurrentCompressed e')
  | StandardART e => e' ← lift_art (art_clear e); mret (StandardART e')
  | ConcurrentART e => e' ← lift_art (sharded_art_clear e); mret (ConcurrentART e')
  end.

Definition wrapper_size (w : EngineWrapper) : Z :=
  match w with
  | StandardUncompressed e => standard_size e
  | ConcurrentUncompressed e => sharded_size e
  | StandardCompressed e => standard_size e
  | ConcurrentCompressed e => sharded_size e
  | StandardART e => art_size e
  | ConcurrentART e => sharded_art_size e
  end.

Definition wrapper_stats (w : EngineWrapper) : EngineStats :=
  match w with
  | StandardUncompressed e => standard_stats e
  | ConcurrentUncompressed e => sharded_stats e
  | StandardCompressed e => standard_stats e
  | ConcurrentCompressed e => sharded_stats e
  | StandardART e => art_stats e
  | ConcurrentART e => sharded_art_stats e
  end.

#[export] Instance EngineWrapper_RadixEngine : RadixEngine EngineWrapper := {|
  re_insert := wrapper_insert;
  re_lookup := wrapper_lookup;
  re_remove := wrapper_remove;
  re_contains := wrapper_contains;
  re_clear := wrapper_clear;
  re_size := wrapper_size;
  re_stats := wrapper_stats;
|}.
End wrapper.

(** ** The shard count *)

Lemma shards_from_cpu_mono host host' bps d :
  (default 1 (host_parallelism host) ≤ default 1 (host_parallelism host'))%nat →
  (∀ i j x y, bps !! i = Some x → bps !! j = Some y → (i ≤ j)%nat → (x.2 ≤ y.2)%nat) →
  Forall (λ x, (x.2 ≤ d)%nat) bps → (shards_from_cpu host bps d ≤ shards_from_cpu host' bps d)%nat.
Proof.
  intros Hc Hsort Hd. unfold shards_from_cpu. 
  revert Hc. generalize (default 1%nat (host_parallelism host)), (default 1%nat (host_parallelism host')). intros c c' Hc.
  induction bps as [|[mx s] bps IH]; [done|]. simpl. apply Forall_cons in Hd as [Hs Hd].
  destruct (Nat.leb_spec c mx) as [Hle|Hgt]; destruct (Nat.leb_spec c' mx) as [Hle'|Hgt']; [lia| |lia|].
  - clear IH. destruct (List.find _ bps) as [[mx' s']|] eqn:E; [|done].
    apply find_some in E as [(j & Hj)%list_elem_of_In%list_elem_of_lookup _].
    by apply (Hsort 0%nat (S j) (mx, s) (mx', s')); [..|lia].
  - apply IH; [|done]. intros i j x y Hx Hy Hij. by apply (Hsort (S i) (S j) x y Hx Hy); lia.
Qed.

Lemma shards_from_memory_mono host host' :
  host_memory host ≤ host_memory host' → (shards_from_memory host ≤ shards_from_memory host')%nat.
Proof.
  intros Hm. unfold shards_from_memory.
  assert (usable_memory_bytes host / (1024 * 1024) ≤ usable_memory_bytes host' / (1024 * 1024)) as Hle.
  { apply Z.div_le_mono; [lia|]. unfold usable_memory_bytes. apply Z.div_le_mono; [lia|].
    unfold sat_mul. lia. }
  repeat case_match; bprop; lia.
Qed.

(** The automatic number of shards is between 1 and 64 for every machine, 1 for the
    engines that are not sharded, at most 16 for ART, never larger for an adaptive
    engine than for a concurrent one, and a machine with more cores and more memory
    never gets fewer. *)
Theorem shard_count_spec host host' variant :
  let n := calculate_optimal_shards host variant in
  (1 ≤ n ≤ 64)%nat ∧
  (variant = Standard ∨ variant = LockFree → n = 1%nat) ∧ (variant = ART → (n ≤ 16)%nat) ∧
  (calculate_optimal_shards host Adaptive ≤ calculate_optimal_shards host Concurrent)%nat ∧
  ((default 1 (host_parallelism host) ≤ default 1 (host_parallelism host'))%nat →
   host_memory host ≤ host_memory host' → (n ≤ calculate_optimal_shards host' variant)%nat).
Proof.
  intros n. assert (∀ bps d, Forall (λ x, 1 ≤ x.2 ≤ d)%nat bps → (1 ≤ d)%nat →
    (1 ≤ shards_from_cpu host bps d ≤ d)%nat) as Hcpu.
  { intros bps d Hb Hd. unfold shards_from_cpu. destruct (List.find _ _) as [[mx s]|] eqn:E; [|lia].
    apply find_some in E as [E%list_elem_of_In _]. rewrite Forall_forall in Hb. apply (Hb _ E). }
  assert (1 ≤ shards_from_memory host ≤ 64)%nat as Hmem by (unfold shards_from_memory; repeat case_match; lia).
  pose proof (Hcpu [(2, 2); (4, 4); (8, 8)]%nat 16%nat ltac:(repeat constructor) ltac:(lia)).
  pose proof (Hcpu [(2, 2); (4, 8); (8, 16); (16, 32)]%nat 64%nat ltac:(repeat constructor; simpl; lia) ltac:(lia)).
  split; [unfold n; destruct variant; cbn [calculate_optimal_shards]; lia|]. split_and!.
  - by intros [-> | ->].
  - intros ->. unfold n. cbn [calculate_optimal_shards]. lia.
  - cbn [calculate_optimal_shards]. lia.
  - intros Hc Hm. pose proof (shards_from_memory_mono host host' Hm). unfold n.
    assert (∀ bps d, (∀ i j x y, bps !! i = Some x → bps !! j = Some y → (i ≤ j)%nat → (x.2 ≤ y.2)%nat) →
      Forall (λ x, (x.2 ≤ d)%nat) bps → (shards_from_cpu host bps d ≤ shards_from_cpu host' bps d)%nat)
      as Hmono by (intros; by apply shards_from_cpu_mono).
    pose proof (Hmono [(2, 2); (4, 4); (8, 8)]%nat 16%nat
      ltac:(intros [|[|[|i]]] [|[|[|j]]] x y [= <-] [= <-]; simpl; lia) ltac:(repeat constructor; simpl; lia)).
    pose proof (Hmono [(2, 2); (4, 8); (8, 16); (16, 32)]%nat 64%nat
      ltac:(intros [|[|[|[|i]]]] [|[|[|[|j]]]] x y [= <-] [= <-]; simpl; lia)
      ltac:(repeat constructor; simpl; lia)).
    destruct variant; cbn [calculate_optimal_shards]; lia.
Qed.

(** ** The wrapper keeps the promise of the engine it picked *)

Section laws.
Context `{IpNetworkLaws} `{DashMapLaws} `{bd : TargetBuild}.
Implicit Types (h : Heap) (m : table) (F : gset loc) (n : Z) (w : EngineWrapper).

Ltac dispatch :=
  split; intros;
  cbn [re_insert re_lookup re_remove re_contains re_clear re_size EngineWrapper_RadixEngine
       StandardEngine_RadixEngine ShardedEngine_RadixEngine wrapper_insert wrapper_lookup wrapper_remove
       wrapper_contains wrapper_clear wrapper_size]; reflexivity.

#[export] Instance dispatches_su : Dispatches StandardUncompressed.
Proof. dispatch. Qed.
#[export] Instance dispatches_cu : Dispatches ConcurrentUncompressed.
Proof. dispatch. Qed.
#[export] Instance dispatches_sc : Dispatches StandardCompressed.
Proof. dispatch. Qed.
#[export] Instance dispatches_cc : Dispatches ConcurrentCompressed.
Proof. dispatch. Qed.

(** The engine behind an injection keeps its promise through the wrapper. *)
Section transport.
Context {E} `{!RadixEngine E} `{!RadixEngineLaws E} (inj : E → EngineWrapper) `{!Dispatches inj}.

Lemma via_insert h e m n F p md : re_rep h e m n F →
  ∃ e' h' F', re_insert (inj e) p md h = Some ((Ok tt, inj e'), h') ∧
    re_rep h' e' (<[re_key p := (p, md)]> m)
      (if is_none (m !! re_key p) then wrap 64 (n + 1) else n) F' ∧ evolves h h' F F'.
Proof.
  intros Hr. destruct (re_insert_spec h e m n F p md Hr) as (e' & h' & F' & R & Hr' & Hev).
  exists e', h', F'. by rewrite d_insert, (bind_run _ _ _ _ _ R).
Qed.

Lemma via_lookup h e m n F ip : re_rep h e m n F →
  ∃ r e', re_lookup (inj e) ip h = Some ((r, inj e'), h) ∧ re_rep h e' m n F ∧ re_answers m ip r.
Proof.
  intros Hr. destruct (re_lookup_spec h e m n F ip Hr) as (r & e' & R & Hr' & Ha).
  exists r, e'. by rewrite d_lookup, (bind_run _ _ _ _ _ R).
Qed.

Lemma via_remove h e m n F p : re_rep h e m n F →
  ∃ e' h' F', re_remove (inj e) p h = Some ((snd <$> m !! re_key p, inj e'), h') ∧
    re_rep h' e' (delete (re_key p) m)
      (if is_some (m !! re_key p) then wrap 64 (n - 1) else n) F' ∧ evolves h h' F F'.
Proof.
  intros Hr. destruct (re_remove_spec h e m n F p Hr) as (e' & h' & F' & R & Hr' & Hev).
  exists e', h', F'. by rewrite d_remove, (bind_run _ _ _ _ _ R).
Qed.

Lemma via_clear h e m n F : re_rep h e m n F →
  ∃ e' h' F', re_clear (inj e) h = Some (inj e', h') ∧ re_rep h' e' (re_cleared m) 0 F' ∧ evolves h h' F F'.
Proof.
  intros Hr. destruct (re_clear_spec h e m n F Hr) as (e' & h' & F' & R & Hr' & Hev).
  exists e', h', F'. by rewrite d_clear, (bind_run _ _ _ _ _ R).
Qed.
End transport.

(** The wrapper around a standard or a sharded engine over one kind of tree. *)
Section one_tree.
Context {T : Type} `{!RouteTree T} `{!RouteTreeLaws T}.
Context (std : StandardEngine T → EngineWrapper) (conc : ShardedEngine T → EngineWrapper).
Context `{!Dispatches std} `{!Dispatches conc}.

Inductive tree_rep h : EngineWrapper → table → Z → gset loc → Prop :=
  | rep_std e m n F : re_rep h e m n F → tree_rep h (std e) m n F
  | rep_conc e m n F : re_rep h e m n F → tree_rep h (conc e) m n F.

Program Definition tree_wrapper_laws : RadixEngineLaws EngineWrapper := {|
  re_key := rt_key;
  re_answers := rt_answers;
  re_cleared := rt_cleared;
  re_rep := tree_rep;
|}.
Next Obligation. intros h w m n F [e m' n' F' Hr|e m' n' F' Hr]; exact (re_rep_wf h e m' n' F' Hr). Qed.
Next Obligation. intros h w m n F [e m' n' F' Hr|e m' n' F' Hr]; rewrite d_size; exact (re_size_spec h e m' n' F' Hr). Qed.
Next Obligation.
  intros h w m n F p md [e m' n' F' Hr|e m' n' F' Hr].
  - destruct (via_insert std h e _ _ _ p md Hr) as (e1 & h1 & F1 & R & Hr1 & Hev).
    exists (std e1), h1, F1. split_and!; [done|by constructor|done].
  - destruct (via_insert conc h e _ _ _ p md Hr) as (e1 & h1 & F1 & R & Hr1 & Hev).
    exists (conc e1), h1, F1. split_and!; [done|by constructor|done].
Qed.
Next Obligation.
  intros h w m n F ip [e m' n' F' Hr|e m' n' F' Hr].
  - destruct (via_lookup std h e _ _ _ ip Hr) as (r & e1 & R & Hr1 & Ha).
    exists r, (std e1). split_and!; [done|by constructor|done].
  - destruct (via_lookup conc h e _ _ _ ip Hr) as (r & e1 & R & Hr1 & Ha).
    exists r, (conc e1). split_and!; [done|by constructor|done].
Qed.
Next Obligation.
  intros h w m n F p [e m' n' F' Hr|e m' n' F' Hr].
  - destruct (via_remove std h e _ _ _ p Hr) as (e1 & h1 & F1 & R & Hr1 & Hev).
    exists (std e1), h1, F1. split_and!; [done|by constructor|done].
  - destruct (via_remove conc h e _ _ _ p Hr) as (e1 & h1 & F1 & R & Hr1 & Hev).
    exists (conc e1), h1, F1. split_and!; [done|by constructor|done].
Qed.
Next Obligation.
  intros h w m n F p [e m' n' F' Hr|e m' n' F' Hr]; rewrite d_contains.
  - exact (re_contains_spec h e m' n' F' p Hr).
  - exact (re_contains_spec h e m' n' F' p Hr).
Qed.
Next Obligation.
  intros h w m n F [e m' n' F' Hr|e m' n' F' Hr].
  - destruct (via_clear std h e _ _ _ Hr) as (e1 & h1 & F1 & R & Hr1 & Hev).
    exists (std e1), h1, F1. split_and!; [done|by constructor|done].
  - destruct (via_clear conc h e _ _ _ Hr) as (e1 & h1 & F1 & R & Hr1 & Hev).
    exists (conc e1), h1, F1. split_and!; [done|by constructor|done].
Qed.
Next Obligation.
  intros h h' w m n F G G' [e m' n' F' Hr|e m' n' F' Hr] Hev Hd;
    destruct (re_frame h h' e m' n' F' G G' Hr Hev Hd) as [Hr' Hd']; (split; [by constructor|done]).
Qed.
End one_tree.

#[export] Instance wrapper_uncompressed_laws : RadixEngineLaws EngineWrapper :=
  tree_wrapper_laws StandardUncompressed ConcurrentUncompressed.
Definition wrapper_compressed_laws : RadixEngineLaws EngineWrapper :=
  tree_wrapper_laws StandardCompressed ConcurrentCompressed.

#[export] Instance wrapper_lpm : LpmEngine EngineWrapper.
Proof. by split. Qed.

Lemma wrapper_new_uncompressed host variant nv k h :
  variant ≠ ART → heap_wf h →
  ∃ w h' F, wrapper_new host variant nv false k h = Some (w, h') ∧ re_rep h' w ∅ 0 F ∧ evolves h h' ∅ F.
Proof.
  intros Hv Hwf. unfold wrapper_new. rewrite decide_False by done. cbv zeta.
  destruct (trie_new_refines h (resolved_node_variant variant nv false) Hwf) as (t & h' & F & R & _ & Hr & Hev).
  rewrite (bind_run _ _ _ _ _ R). change (rt_rep h' t ∅ F) in Hr.
  destruct (Nat.ltb_spec 1 (effective_shards variant (default (calculate_optimal_shards host variant) k))).
  - eexists _, h', F. split; [done|]. split; [|done]. apply rep_conc, sharded_rep_new; [lia|done].
  - eexists _, h', F. split; [done|]. split; [|done]. by apply rep_std.
Qed.

(** Whatever engine variant other than ART, node representation, number of
    shards and machine: the wrapper over an uncompressed tree gives every sequence of
    calls the answers and the size of the plain engine, and never panics. *)
Theorem wrapper_configurations_agree host variant nv k os :
  variant ≠ ART →
  is_Some (session (wrapper_new host variant nv false k) os) ∧
  session (wrapper_new host variant nv false k) os = session (uncompressed_standard NormalTrieNode_v) os.
Proof.
  intros Hv.
  destruct (wrapper_new_uncompressed host variant nv k empty_heap Hv heap_wf_empty) as (w & h & F & R & Hr & _).
  destruct (lpm_session (wrapper_new host variant nv false k) w h F os R Hr) as (rs & m & n & R1 & S1).
  destruct (standard_uncompressed_session NormalTrieNode_v os) as (rs' & m' & n' & R2 & S2).
  destruct (lpm_steps_det _ _ _ _ _ _ S1 S2) as [<- [= _ <-]]. rewrite R1, R2. eauto.
Qed.

Lemma wrapper_new_compressed host variant nv k h :
  variant ≠ ART → heap_wf h →
  ∃ w h' F, wrapper_new host variant nv true k h = Some (w, h') ∧
    tree_rep StandardCompressed ConcurrentCompressed h' w ∅ 0 F ∧ evolves h h' ∅ F.
Proof.
  intros Hv Hwf. unfold wrapper_new. rewrite decide_False by done. cbv zeta.
  destruct (patricia_new_refines h (resolved_node_variant variant nv true) Hwf) as (t & h' & F & R & Hr & Hev).
  rewrite (bind_run _ _ _ _ _ R). change (rt_rep h' t ∅ F) in Hr.
  destruct (Nat.ltb_spec 1 (effective_shards variant (default (calculate_optimal_shards host variant) k))).
  - eexists _, h', F. split; [done|]. split; [|done]. apply rep_conc, sharded_rep_new; [lia|done].
  - eexists _, h', F. split; [done|]. split; [|done]. by apply rep_std.
Qed.

(** What a configuration asks for, as tables.  The shards a machine gets by
    its processors and by its available memory: the memory rows are bounds on
    three quarters of the available bytes, counted in whole megabytes. *)
Definition megabytes (n : Z) : Z := n * 1024 * 1024.

Definition art_row (cpus k : nat) : Prop :=
  (cpus ≤ 2 ∧ k = 2)%nat ∨ (2 < cpus ≤ 4 ∧ k = 4)%nat ∨ (4 < cpus ≤ 8 ∧ k = 8)%nat ∨ (8 < cpus ∧ k = 16)%nat.

Definition cpu_row (cpus k : nat) : Prop :=
  (cpus ≤ 2 ∧ k = 2)%nat ∨ (2 < cpus ≤ 4 ∧ k = 8)%nat ∨ (4 < cpus ≤ 8 ∧ k = 16)%nat ∨
  (8 < cpus ≤ 16 ∧ k = 32)%nat ∨ (16 < cpus ∧ k = 64)%nat.

Definition memory_row (mem : Z) (k : nat) : Prop :=
  let quarters := 3 * mem in
  (quarters < 4 * megabytes 513 ∧ k = 2%nat) ∨
  (4 * megabytes 513 ≤ quarters < 4 * megabytes 2049 ∧ k = 8%nat) ∨
  (4 * megabytes 2049 ≤ quarters < 4 * megabytes 4097 ∧ k = 16%nat) ∨
  (4 * megabytes 4097 ≤ quarters < 4 * megabytes 8193 ∧ k = 32%nat) ∨
  (4 * megabytes 8193 ≤ quarters ∧ k = 64%nat).

(** The number of trees: the one given, except that a lock-free engine is never
    sharded; without one the row of the machine. *)
Definition asked_shards (host : Host) (variant : EngineVariant) (num_shards : option nat) (k : nat) : Prop :=
  let cpus := default 1%nat (host_parallelism host) in
  match variant, num_shards with
  | LockFree, _ | Standard, None => k = 1%nat
  | _, Some n => k = n
  | ART, None => art_row cpus k
  | Concurrent, None => cpu_row cpus k
  | Adaptive, None => ∃ a b, cpu_row cpus a ∧ memory_row (host_memory host) b ∧
      (k = a ∨ k = b) ∧ (k ≤ a)%nat ∧ (k ≤ b)%nat
  end.

(** How a node protects its fields, apart from whether it carries an edge. *)
Inductive Protection := Unprotected | Atomics | PaddedAtomics | LockFreeCells.

Definition protection (v : NodeVariant) : Protection :=
  match v with
  | NormalTrieNode_v | NormalRadixNode_v => Unprotected
  | AtomicTrieNode_v | AtomicRadixNode_v => Atomics
  | PaddedTrieNode_v | PaddedRadixNode_v => PaddedAtomics
  | LockFreeTrieNode_v | LockFreeRadixNode_v => LockFreeCells
  end.

(** The node representation [v] a tree has to be built from: lock-free and
    adaptive engines choose the protection and the matching kind of node, the
    other engines keep the caller's, with an edge in a compressed tree. *)
Definition asked_node (variant : EngineVariant) (nv : NodeVariant) (compressed : bool) (v : NodeVariant) : Prop :=
  match variant with
  | LockFree => protection v = LockFreeCells ∧ is_compressed v = compressed
  | Adaptive => protection v = Atomics ∧ is_compressed v = compressed
  | _ => protection v = protection nv ∧ is_compressed v = (compressed || is_compressed nv)
  end.

(** What the configuration promises about the engine in the wrapper when it
    asks for [k] trees. *)
Definition configured (variant : EngineVariant) (nv : NodeVariant) (compressed : bool) (k : nat)
    (w : EngineWrapper) : Prop :=
  match w with
  | StandardUncompressed e =>
      variant ≠ ART ∧ compressed = false ∧ (k ≤ 1)%nat ∧
      asked_node variant nv false (nb_variant (ut_builder (se_tree e)))
  | ConcurrentUncompressed s =>
      variant ≠ ART ∧ compressed = false ∧ (1 < k)%nat ∧ length (sh_shards s) = k ∧
      Forall (λ e, asked_node variant nv false (nb_variant (ut_builder (se_tree e)))) (sh_shards s)
  | StandardCompressed e =>
      variant ≠ ART ∧ compressed = true ∧ (k ≤ 1)%nat ∧
      asked_node variant nv true (nb_variant (ct_builder (se_tree e)))
  | ConcurrentCompressed s =>
      variant ≠ ART ∧ compressed = true ∧ (1 < k)%nat ∧ length (sh_shards s) = k ∧
      Forall (λ e, asked_node variant nv true (nb_variant (ct_builder (se_tree e)))) (sh_shards s)
  | StandardART _ => variant = ART ∧ (k ≤ 1)%nat
  | ConcurrentART s => variant = ART ∧ (1 < k)%nat ∧ length (sa_shards s) = k
  end.

Lemma mapM_done {A B} (x : B) (l : list A) : mapM (λ _, Done x) l = Done (replicate (length l) x).
Proof. induction l as [|a l IH]; [done|]. cbn [mapM mbind Outcome_bind]. by rewrite IH. Qed.

Lemma art_row_spec host :
  art_row (default 1%nat (host_parallelism host)) (calculate_optimal_shards host ART).
Proof.
  unfold art_row, calculate_optimal_shards, shards_from_cpu. simpl. repeat case_match; simplify_eq; bprop; lia.
Qed.

Lemma cpu_row_spec host :
  cpu_row (default 1%nat (host_parallelism host)) (calculate_optimal_shards host Concurrent).
Proof.
  unfold cpu_row, calculate_optimal_shards, shards_from_cpu. simpl. repeat case_match; simplify_eq; bprop; lia.
Qed.

Lemma memory_row_spec host : memory_row (host_memory host) (shards_from_memory host).
Proof.
  unfold memory_row, megabytes, shards_from_memory, usable_memory_bytes, sat_mul.
  change (umax 64) with 18446744073709551615. rewrite Z.div_div by lia.
  repeat case_match; bprop; Z.to_euclidean_division_equations; lia.
Qed.

Lemma asked_shards_spec host variant num_shards :
  asked_shards host variant num_shards
    (effective_shards variant (default (calculate_optimal_shards host variant) num_shards)).
Proof.
  destruct variant, num_shards as [n|]; try done.
  - apply cpu_row_spec.
  - eexists _, _. split; [apply cpu_row_spec|]. split; [apply memory_row_spec|].
    cbn [default effective_shards]. unfold calculate_optimal_shards. lia.
  - apply art_row_spec.
Qed.

Lemma asked_node_uncompressed variant nv : asked_node variant nv false (resolved_node_variant variant nv false).
Proof. by destruct variant. Qed.

Lemma asked_node_compressed variant nv :
  asked_node variant nv true (compressed_variant (resolved_node_variant variant nv true)).
Proof. by destruct variant, nv. Qed.

(** C20: [EngineWrapper::new] always returns, and the engine in the wrapper is the
    one the configuration asks for, against tables written independently of the
    code: ART exactly for the ART variant, otherwise the compressed or the
    uncompressed tree; sharded exactly when more than one tree is asked for, with
    that number of shards (the given one, or the row of the machine's processors
    and memory; a lock-free engine has one tree whatever was given); and every
    tree is built from the node representation of that variant, with an edge in
    a compressed tree. *)
Theorem wrapper_new_configured host variant nv compressed num_shards :
  ∃ w h k, wrapper_new host variant nv compressed num_shards empty_heap = Some (w, h) ∧
    asked_shards host variant num_shards k ∧ configured variant nv compressed k w.
Proof.
  pose proof (asked_shards_spec host variant num_shards) as Hk.
  unfold wrapper_new. set (n := default _ _) in *. destruct (decide (variant = ART)) as [->|Hv].
  - cbn [effective_shards] in Hk. destruct (Nat.ltb_spec 1 n) as [Hn|Hn].
    + unfold sharded_art_new. destruct art_new as [e| | |] eqn:Hnew; [|done..]. rewrite mapM_done.
      eexists _, _, n. split; [done|]. split_and!; [done..|]. simpl. by rewrite length_replicate, length_seq.
    + destruct art_new as [e| | |] eqn:Hnew; [|done..]. eexists _, _, n. split; [done|]. by split_and!.
  - destruct compressed.
    + pose proof (asked_node_compressed variant nv) as Hnode.
      destruct (patricia_new_run empty_heap (resolved_node_variant variant nv true) heap_wf_empty)
        as (t & h & F & R & _). rewrite (bind_run _ _ _ _ _ R).
      rewrite <- (patricia_new_variant _ _ _ _ R) in Hnode.
      destruct (Nat.ltb_spec 1 (effective_shards variant n)) as [Hn|Hn]; eexists _, _, _; (split; [done|]);
        (split; [exact Hk|]).
      * split_and!; [done|done|done|apply length_replicate|by apply Forall_replicate].
      * by split_and!.
    + pose proof (asked_node_uncompressed variant nv) as Hnode.
      destruct (trie_new_refines empty_heap (resolved_node_variant variant nv false) heap_wf_empty)
        as (t & h & F & R & Hb & _). rewrite (bind_run _ _ _ _ _ R).
      change (asked_node variant nv false (nb_variant (mkBuilder (resolved_node_variant variant nv false)))) in Hnode.
      rewrite <- Hb in Hnode.
      destruct (Nat.ltb_spec 1 (effective_shards variant n)) as [Hn|Hn]; eexists _, _, _; (split; [done|]);
        (split; [exact Hk|]).
      * split_and!; [done|done|done|apply length_replicate|by apply Forall_replicate].
      * by split_and!.
Qed.

(** *** The ART engines *)

Definition finished {A} (o : Outcome A) : option A := match o with Done a => Some a | _ => None end.

Lemma art_engine_ops {E} (step : E → op → Outcome (res * E)) (inj : E → EngineWrapper) :
  (∀ e o h, engine_op (inj e) o h = '(r, e') ← finished (step e o); Some ((r, inj e'), h)) →
  ∀ os e h, engine_ops (inj e) os h = '(rs, e') ← finished (run_session step e os); Some ((rs, inj e'), h).
Proof.
  intros Hop. induction os as [|o os IH]; intros e h; [done|]. cbn [engine_ops run_session].
  unfold mbind, M_bind at 1. rewrite Hop. destruct (step e o) as [[r e']| | |]; [|done..].
  cbn [finished mbind option_bind Outcome_bind]. unfold M_bind. rewrite IH.
  by destruct (run_session step e' os) as [[rs e'']| | |].
Qed.

Lemma standard_art_op e o h :
  engine_op (StandardART e) o h = '(r, e') ← finished (art_op target_build e o); Some ((r, StandardART e'), h).
Proof.
  destruct o as [p md|ip|p|p|];
    cbn [engine_op art_op re_insert re_lookup re_remove re_contains re_clear EngineWrapper_RadixEngine
         wrapper_insert wrapper_lookup wrapper_remove wrapper_contains wrapper_clear];
    unfold lift_art, mbind, M_bind, mret, M_ret, target_build.
  - by destruct (art_insert bd e p md) as [[r e']| | |].
  - by destruct (art_lookup bd e ip) as [r| | |].
  - by destruct (art_remove bd e p) as [[r e']| | |].
  - by destruct (art_contains bd e p) as [r| | |].
  - by destruct (art_clear e) as [e'| | |].
Qed.

Lemma concurrent_art_op e o h :
  engine_op (ConcurrentART e) o h =
  '(r, e') ← finished (sharded_art_op target_build e o); Some ((r, ConcurrentART e'), h).
Proof.
  destruct o as [p md|ip|p|p|];
    cbn [engine_op sharded_art_op re_insert re_lookup re_remove re_contains re_clear EngineWrapper_RadixEngine
         wrapper_insert wrapper_lookup wrapper_remove wrapper_contains wrapper_clear];
    unfold lift_art, mbind, M_bind, mret, M_ret, target_build.
  - by destruct (sharded_art_insert bd e p md) as [[r e']| | |].
  - by destruct (sharded_art_lookup bd e ip) as [r| | |].
  - by destruct (sharded_art_remove bd e p) as [[r e']| | |].
  - by destruct (sharded_art_contains bd e p) as [r| | |].
  - by destruct (sharded_art_clear e) as [e'| | |].
Qed.

(** Behind the wrapper an ART engine runs as the unsharded adapter, for every
    number of shards, node representation and machine. *)
Theorem wrapper_art_session host nv c k os :
  session (wrapper_new host ART nv c k) os = finished (art_session target_build os).
Proof.
  unfold session, wrapper_new. rewrite decide_True by done. cbv zeta.
  set (n := default (calculate_optimal_shards host ART) k). destruct (Nat.ltb_spec 1 n).
  - rewrite <- (sharded_art_session_eq target_build n os) by lia. unfold sharded_art_session.
    unfold lift_art, mbind, M_bind, mret, M_ret.
    destruct (sharded_art_new n 32) as [s| | |]; [|done..]. cbn [option_bind Outcome_bind].
    rewrite (art_engine_ops _ ConcurrentART concurrent_art_op).
    by destruct (run_session (sharded_art_op target_build) s os) as [[rs s']| | |].
  - unfold art_session, lift_art, mbind, M_bind, mret, M_ret.
    destruct art_new as [e| | |]; [|done..]. cbn [option_bind Outcome_bind].
    rewrite (art_engine_ops _ StandardART standard_art_op).
    by destruct (run_session (art_op target_build) e os) as [[rs e']| | |].
Qed.
End laws.
