(* ===== verification/Hybrid.v ===== *)
(** * The split-plane engine (engine/src/hybrid.rs, engine/src/config.rs and the
      messages of cache/src/redis.rs)

    [HybridEngine] writes to a control plane and reads from a data plane; the
    two are kept in step either directly or through Redis pub/sub.  The
    configuration record with its presets is here as well. *)

From S2P Require Import Prelude Addr Lpm DashMap Node Heap RouteTree Trie Patricia Engine Engines Cache.
From S2P Require Import Simd ArtNode ArtTree ArtLookup ArtEngine Wrapper.

Local Open Scope Z_scope.

(** ** Configuration *)

Record RedisConfig := mkRedisConfig {
  rcfg_url : string;
  rcfg_pool_size : nat;
  rcfg_connect_timeout : Z;  (* seconds *)
  rcfg_max_retries : nat;
}.

Definition RedisConfig_default : RedisConfig :=
  mkRedisConfig "redis://127.0.0.1:6379" 10 5 3.

Record RadixConfig := mkRadixConfig {
  engine_variant : EngineVariant;
  node_variant : NodeVariant;
  cache_enabled : bool;
  cache_max_entries : Z;
  cache_ttl_seconds : option Z;
  cfg_redis : option RedisConfig;
  redis_channel : string;
  num_shards : option nat;
  enable_stats : bool;
  enable_split_plane : bool;
  write_compressed : bool;
  read_compressed : bool;
}.

Definition RadixConfig_default : RadixConfig :=
  mkRadixConfig Concurrent AtomicTrieNode_v true 10000 (Some 3600) None "radixip:updates" None true
    false false true.

Definition with_engine (c : RadixConfig) (variant : EngineVariant) : RadixConfig :=
  mkRadixConfig variant (node_variant c) (cache_enabled c) (cache_max_entries c) (cache_ttl_seconds c)
    (cfg_redis c) (redis_channel c) (num_shards c) (enable_stats c) (enable_split_plane c)
    (write_compressed c) (read_compressed c).

Definition with_node (c : RadixConfig) (variant : NodeVariant) : RadixConfig :=
  mkRadixConfig (engine_variant c) variant (cache_enabled c) (cache_max_entries c) (cache_ttl_seconds c)
    (cfg_redis c) (redis_channel c) (num_shards c) (enable_stats c) (enable_split_plane c)
    (write_compressed c) (read_compressed c).

Definition with_cache (c : RadixConfig) (enabled : bool) (max_entries : Z) : RadixConfig :=
  mkRadixConfig (engine_variant c) (node_variant c) enabled max_entries (cache_ttl_seconds c)
    (cfg_redis c) (redis_channel c) (num_shards c) (enable_stats c) (enable_split_plane c)
    (write_compressed c) (read_compressed c).

Definition with_redis (c : RadixConfig) (redis : RedisConfig) (channel : string) : RadixConfig :=
  mkRadixConfig (engine_variant c) (node_variant c) (cache_enabled c) (cache_max_entries c)
    (cache_ttl_seconds c) (Some redis) channel (num_shards c) (enable_stats c) (enable_split_plane c)
    (write_compressed c) (read_compressed c).

Definition high_performance : RadixConfig :=
  mkRadixConfig LockFree LockFreeTrieNode_v true 100000 None None "radixip:updates" (Some 32%nat) false
    false false true.

Definition memory_efficient : RadixConfig :=
  mkRadixConfig Standard NormalTrieNode_v false 0 None None "radixip:updates" None false
    false false true.

Definition balanced : RadixConfig :=
  mkRadixConfig Concurrent AtomicTrieNode_v true 10000 (Some 3600) None "radixip:updates" (Some 16%nat) true
    false false true.

(** ** Messages *)

(** [serde_json::Value] and the conversions the sources call. *)
Class JsonValues := {
  JsonValue : Type;
  json_null : JsonValue;                                 (* Value::default() *)
  metadata_to_value : Metadata → Result JsonValue string;
  metadata_from_value : JsonValue → Result Metadata string;
}.

Inductive RedisCacheUpdate `{IpNetworkCrate} `{JsonValues} :=
  | UInsert (prefix : IpNetwork) (metadata : JsonValue)
  | URemove (prefix : IpNetwork)
  | UClear.

(** The derived serialization of the messages. *)
Class UpdateForms `{IpNetworkCrate} `{JsonValues} := {
  update_to_json : RedisCacheUpdate → Result string string;
  update_from_json : string → Result RedisCacheUpdate string;
}.

(** A message whose value, if it has one, is that of some metadata: an object
    of strings and of a map of strings, without numbers and of bounded depth. *)
Definition of_metadata `{UpdateForms} (u : RedisCacheUpdate) : Prop :=
  match u with UInsert _ v => ∃ md, metadata_to_value md = Ok v | _ => True end.

(** What the hybrid engine relies on: metadata, and messages about metadata,
    survive the trip. *)
Class UpdateLaws `{UpdateForms} : Prop := {
  value_roundtrip md : ∃ v, metadata_to_value md = Ok v ∧ metadata_from_value v = Ok md;
  update_roundtrip u : of_metadata u → ∃ json, update_to_json u = Ok json ∧ update_from_json json = Ok u;
}.

(** The [redis] feature of the crate, whether calls run inside a Tokio
    runtime, and [RedisClient::new]. *)
Class HybridEnv `{RedisCrate} := {
  redis_feature : bool;
  in_runtime : bool;
  redis_connect : RedisConfig → Result Redis string;
}.

(** ** HybridEngine *)

Section hybrid.
Context `{IpNetworkCrate} `{DashMapCrate} `{TargetBuild} `{RedisCrate} `{!TextForms}.
Context `{JsonValues} `{!UpdateForms} `{!HybridEnv}.

(** [hy_spawned] lists the payloads of the publishing tasks handed to the
    runtime and not yet run. *)
Record HybridEngine := mkHybrid {
  control_plane : EngineWrapper;
  data_plane : EngineWrapper;
  hy_redis : option Redis;
  hy_channel : string;
  hy_spawned : list string;
}.

(** The loop over the persisted entries. *)
Fixpoint hybrid_boot (control data : EngineWrapper) (es : list (string * string))
    : M (EngineWrapper * EngineWrapper) :=
  match es with
  | [] => mret (control, data)
  | (cidr, meta_json) :: rest =>
      match network_from_string cidr, metadata_from_json meta_json with
      | Ok ipnet, Ok meta =>
          '(_, control') ← re_insert control ipnet meta;
          '(_, data') ← re_insert data ipnet meta;
          hybrid_boot control' data' rest
      | _, _ => hybrid_boot control data rest
      end
  end.

Definition hybrid_new (host : Host) (config : RadixConfig) : M (Result HybridEngine string) :=
  control ← wrapper_new host (engine_variant config) (node_variant config) (write_compressed config)
              (num_shards config);
  data ← wrapper_new host (engine_variant config) (node_variant config) (read_compressed config)
           (num_shards config);
  match (if redis_feature then redis_connect <$> cfg_redis config else None) with
  | None => mret (Ok (mkHybrid control data None (redis_channel config) []))
  | Some (Err e) => mret (Err e)
  | Some (Ok r) =>
      match r_hgetall r "radixip:entries" with
      | Ok es =>
          '(control', data') ← hybrid_boot control data es;
          mret (Ok (mkHybrid control' data' (Some r) (redis_channel config) []))
      | Err _ => mret (Ok (mkHybrid control data (Some r) (redis_channel config) []))
      end
  end.

(** [Handle::current().spawn(redis.publish_insert(..))]: outside of a runtime
    [Handle::current] panics; a message that does not serialize is dropped. *)
Definition spawn_publish (prefix : IpNetwork) (metadata : Metadata) : M (list string) :=
  match metadata_to_value metadata with
  | Ok value =>
      if in_runtime then
        match update_to_json (UInsert prefix value) with
        | Ok payload => mret [payload]
        | Err _ => mret []
        end
      else panic
  | Err _ => mret []
  end.

(** The second message of [insert], and those of [remove] and [clear], are
    futures that are dropped without being awaited: they publish nothing. *)
Definition hybrid_insert (e : HybridEngine) (prefix : IpNetwork) (metadata : Metadata)
    : M (Result unit string * HybridEngine) :=
  '(r, control) ← re_insert (control_plane e) prefix metadata;
  match r with
  | Err err => mret (Err err, mkHybrid control (data_plane e) (hy_redis e) (hy_channel e) (hy_spawned e))
  | Ok _ =>
      if redis_feature then
        if is_some (hy_redis e) then
          let redis := persist (hy_redis e) prefix metadata in
          tasks ← spawn_publish prefix metadata;
          mret (Ok tt, mkHybrid control (data_plane e) redis (hy_channel e) (hy_spawned e ++ tasks))
        else
          '(_, data) ← re_insert (data_plane e) prefix metadata;
          mret (Ok tt, mkHybrid control data None (hy_channel e) (hy_spawned e))
      else mret (Ok tt, mkHybrid control (data_plane e) (hy_redis e) (hy_channel e) (hy_spawned e))
  end.

Definition hybrid_lookup (e : HybridEngine) (ip : IpAddr) : M (option Metadata * HybridEngine) :=
  '(r, data) ← re_lookup (data_plane e) ip;
  mret (r, mkHybrid (control_plane e) data (hy_redis e) (hy_channel e) (hy_spawned e)).

Definition hybrid_remove (e : HybridEngine) (prefix : IpNetwork) : M (option Metadata * HybridEngine) :=
  '(result, control) ← re_remove (control_plane e) prefix;
  if redis_feature then
    if is_some (hy_redis e) then
      mret (result, mkHybrid control (data_plane e) (unpersist (hy_redis e) prefix) (hy_channel e) (hy_spawned e))
    else
      '(_, data) ← re_remove (data_plane e) prefix;
      mret (result, mkHybrid control data None (hy_channel e) (hy_spawned e))
  else mret (result, mkHybrid control (data_plane e) (hy_redis e) (hy_channel e) (hy_spawned e)).

Definition hybrid_contains (e : HybridEngine) (prefix : IpNetwork) : M bool :=
  re_contains (data_plane e) prefix.

Definition hybrid_clear (e : HybridEngine) : M HybridEngine :=
  control ← re_clear (control_plane e);
  if redis_feature then
    if is_some (hy_redis e) then
      mret (mkHybrid control (data_plane e) (hy_redis e) (hy_channel e) (hy_spawned e))
    else
      data ← re_clear (data_plane e);
      mret (mkHybrid control data None (hy_channel e) (hy_spawned e))
  else mret (mkHybrid control (data_plane e) (hy_redis e) (hy_channel e) (hy_spawned e)).

#[export] Instance HybridEngine_RadixEngine : RadixEngine HybridEngine := {|
  re_insert := hybrid_insert;
  re_lookup := hybrid_lookup;
  re_remove := hybrid_remove;
  re_contains := hybrid_contains;
  re_clear := hybrid_clear;
  re_size e := re_size (data_plane e);
  re_stats e := re_stats (data_plane e);
|}.

(** ** Synchronization *)

(** [subscribe_engine_updates]: a payload that does not decode is handed on
    as [Clear]. *)
Definition decode_update (payload : string) : RedisCacheUpdate :=
  match update_from_json payload with Ok update => update | Err _ => UClear end.

(** The handler of [start_sync], on the data plane the engine shares with it. *)
Definition apply_update (dp : EngineWrapper) (update : RedisCacheUpdate) : M EngineWrapper :=
  match update with
  | UInsert prefix value =>
      match metadata_from_value value with
      | Ok meta => '(_, dp') ← re_insert dp prefix meta; mret dp'
      | Err _ => mret dp
      end
  | URemove prefix => '(_, dp') ← re_remove dp prefix; mret dp'
  | UClear => re_clear dp
  end.

Definition set_data (e : HybridEngine) (dp : EngineWrapper) : HybridEngine :=
  mkHybrid (control_plane e) dp (hy_redis e) (hy_channel e) (hy_spawned e).
Definition set_spawned (e : HybridEngine) (ts : list string) : HybridEngine :=
  mkHybrid (control_plane e) (data_plane e) (hy_redis e) (hy_channel e) ts.

(** The process and the messages on their way to its subscription. *)
Record World := mkWorld { w_engine : HybridEngine; w_heap : Heap; w_wire : list string }.

Inductive event :=
  | Call (o : op) (r : res)      (* a caller *)
  | Publish (payload : string)   (* a spawned task reaches Redis *)
  | Lose (payload : string)      (* a spawned task fails to reach Redis *)
  | Deliver (payload : string)   (* the subscription hands a message on *)
  | Foreign (payload : string).  (* another client publishes on the channel *)

(** The interleavings: calls, tasks in any order, and the subscription. *)
Inductive hybrid_step : World → event → World → Prop :=
  | hs_call e h wire o r e' h' :
      engine_op e o h = Some ((r, e'), h') →
      hybrid_step (mkWorld e h wire) (Call o r) (mkWorld e' h' wire)
  | hs_publish e h wire ts1 payload ts2 :
      hy_spawned e = ts1 ++ payload :: ts2 →
      hybrid_step (mkWorld e h wire) (Publish payload)
        (mkWorld (set_spawned e (ts1 ++ ts2)) h (wire ++ [payload]))
  | hs_lose e h wire ts1 payload ts2 :
      hy_spawned e = ts1 ++ payload :: ts2 →
      hybrid_step (mkWorld e h wire) (Lose payload) (mkWorld (set_spawned e (ts1 ++ ts2)) h wire)
  | hs_deliver e h payload wire dp h' :
      apply_update (data_plane e) (decode_update payload) h = Some (dp, h') →
      hybrid_step (mkWorld e h (payload :: wire)) (Deliver payload) (mkWorld (set_data e dp) h' wire)
  | hs_foreign e h wire payload :
      hybrid_step (mkWorld e h wire) (Foreign payload) (mkWorld e h (wire ++ [payload])).

Inductive hybrid_steps : World → list event → World → Prop :=
  | hs_done w : hybrid_steps w [] w
  | hs_more w ev w' evs w'' :
      hybrid_step w ev w' → hybrid_steps w' evs w'' → hybrid_steps w (ev :: evs) w''.
End hybrid.

(** ** Without Redis the planes move together *)

Section local.
Context `{IpNetworkLaws} `{DashMapLaws} `{TargetBuild} `{RedisCrate} `{!TextForms}.
Context `{JsonValues} `{!UpdateForms} `{!HybridEnv}.
Implicit Types (h : Heap) (m : table) (F : gset loc) (n : Z) (e : HybridEngine).

(** Both planes hold the table, in disjoint parts of the heap. *)
Definition planes_rep h e m n F : Prop :=
  redis_feature = true ∧ hy_redis e = None ∧
  ∃ Fc Fd, F = Fc ∪ Fd ∧ Fc ## Fd ∧ re_rep h (control_plane e) m n Fc ∧ re_rep h (data_plane e) m n Fd.

Lemma evolves_both h h1 h2 Fc Fc' Fd Fd' :
  evolves h h1 Fc Fc' → evolves h1 h2 Fd Fd' → evolves h h2 (Fc ∪ Fd) (Fc' ∪ Fd').
Proof.
  intros E1 E2. eapply evolves_trans; [by apply evolves_extend|].
  rewrite !(comm_L (∪) Fc'). by apply evolves_extend.
Qed.

(** The control plane changed and the data plane did not notice; then the
    data plane follows and the control plane does not notice. *)
Lemma planes_step h h1 (c' d : EngineWrapper) m n m' n' Fc Fc' Fd :
  Fc ## Fd → re_rep h d m n Fd → re_rep h1 c' m' n' Fc' → evolves h h1 Fc Fc' →
  re_rep h1 d m n Fd ∧ Fc' ## Fd ∧
  ∀ h2 (d' : EngineWrapper) m2 n2 Fd', re_rep h2 d' m2 n2 Fd' → evolves h1 h2 Fd Fd' →
    Fc' ## Fd' ∧ re_rep h2 c' m' n' Fc' ∧ re_rep h2 d' m2 n2 Fd' ∧ evolves h h2 (Fc ∪ Fd) (Fc' ∪ Fd').
Proof.
  intros Hdis Hd Hc' E1. destruct (re_frame _ _ _ _ _ _ _ _ Hd E1 Hdis) as [Hd1 Hdis1].
  split_and!; [done|done|]. intros h2 d' m2 n2 Fd' Hd' E2.
  destruct (re_frame _ _ _ _ _ _ _ _ Hc' E2 ltac:(done)) as [Hc2 Hdis2].
  split_and!; [done|done|done|by eapply evolves_both].
Qed.

#[export] Program Instance hybrid_local_laws : RadixEngineLaws HybridEngine := {|
  re_key := net_bits;
  re_answers := lpm_answers;
  re_cleared := keep_default;
  re_rep := planes_rep;
|}.
Next Obligation. intros h e m n F (_ & _ & Fc & Fd & _ & _ & Hc & _). exact (re_rep_wf _ _ _ _ _ Hc). Qed.
Next Obligation. intros h e m n F (_ & _ & Fc & Fd & _ & _ & _ & Hd). exact (re_size_spec _ _ _ _ _ Hd). Qed.
Next Obligation.
  intros h e m n F p md (Hf & Hn & Fc & Fd & -> & Hdis & Hc & Hd).
  destruct (re_insert_spec h _ m n Fc p md Hc) as (c' & h1 & Fc' & R1 & Hc' & E1).
  destruct (planes_step h h1 c' _ m n _ _ Fc Fc' Fd Hdis Hd Hc' E1) as (Hd1 & Hdis1 & Hstep).
  destruct (re_insert_spec h1 _ m n Fd p md Hd1) as (d' & h2 & Fd' & R2 & Hd' & E2).
  destruct (Hstep h2 d' _ _ Fd' Hd' E2) as (Hdis2 & Hc2 & Hd2 & Hev).
  exists (mkHybrid c' d' None (hy_channel e) (hy_spawned e)), h2, (Fc' ∪ Fd').
  cbn [re_insert HybridEngine_RadixEngine]. unfold hybrid_insert.
  rewrite (bind_run _ _ _ _ _ R1), Hf, Hn. cbn [is_some]. rewrite (bind_run _ _ _ _ _ R2).
  split_and!; [done| |done]. by split_and!; [..|exists Fc', Fd'].
Qed.
Next Obligation.
  intros h e m n F ip (Hf & Hn & Fc & Fd & -> & Hdis & Hc & Hd).
  destruct (re_lookup_spec h _ m n Fd ip Hd) as (r & d' & R & Hd' & Ha).
  exists r, (mkHybrid (control_plane e) d' (hy_redis e) (hy_channel e) (hy_spawned e)).
  cbn [re_lookup HybridEngine_RadixEngine]. unfold hybrid_lookup. rewrite (bind_run _ _ _ _ _ R).
  split_and!; [done| |done]. by split_and!; [..|exists Fc, Fd].
Qed.
Next Obligation.
  intros h e m n F p (Hf & Hn & Fc & Fd & -> & Hdis & Hc & Hd).
  destruct (re_remove_spec h _ m n Fc p Hc) as (c' & h1 & Fc' & R1 & Hc' & E1).
  destruct (planes_step h h1 c' _ m n _ _ Fc Fc' Fd Hdis Hd Hc' E1) as (Hd1 & Hdis1 & Hstep).
  destruct (re_remove_spec h1 _ m n Fd p Hd1) as (d' & h2 & Fd' & R2 & Hd' & E2).
  destruct (Hstep h2 d' _ _ Fd' Hd' E2) as (Hdis2 & Hc2 & Hd2 & Hev).
  exists (mkHybrid c' d' None (hy_channel e) (hy_spawned e)), h2, (Fc' ∪ Fd').
  cbn [re_remove HybridEngine_RadixEngine]. unfold hybrid_remove.
  rewrite (bind_run _ _ _ _ _ R1), Hf, Hn. cbn [is_some]. rewrite (bind_run _ _ _ _ _ R2).
  split_and!; [done| |done]. by split_and!; [..|exists Fc', Fd'].
Qed.
Next Obligation.
  intros h e m n F p (_ & _ & Fc & Fd & _ & _ & _ & Hd). exact (re_contains_spec h _ m n Fd p Hd).
Qed.
Next Obligation.
  intros h e m n F (Hf & Hn & Fc & Fd & -> & Hdis & Hc & Hd).
  destruct (re_clear_spec h _ m n Fc Hc) as (c' & h1 & Fc' & R1 & Hc' & E1).
  destruct (planes_step h h1 c' _ m n _ _ Fc Fc' Fd Hdis Hd Hc' E1) as (Hd1 & Hdis1 & Hstep).
  destruct (re_clear_spec h1 _ m n Fd Hd1) as (d' & h2 & Fd' & R2 & Hd' & E2).
  destruct (Hstep h2 d' _ _ Fd' Hd' E2) as (Hdis2 & Hc2 & Hd2 & Hev).
  exists (mkHybrid c' d' None (hy_channel e) (hy_spawned e)), h2, (Fc' ∪ Fd').
  cbn [re_clear HybridEngine_RadixEngine]. unfold hybrid_clear.
  rewrite (bind_run _ _ _ _ _ R1), Hf, Hn. cbn [is_some]. rewrite (bind_run _ _ _ _ _ R2).
  split_and!; [done| |done]. by split_and!; [..|exists Fc', Fd'].
Qed.
Next Obligation.
  intros h h' e m n F G G' (Hf & Hn & Fc & Fd & -> & Hdis & Hc & Hd) Hev HG.
  destruct (re_frame _ _ _ _ _ _ _ _ Hc Hev ltac:(set_solver)) as [Hc' Gc].
  destruct (re_frame _ _ _ _ _ _ _ _ Hd Hev ltac:(set_solver)) as [Hd' Gd].
  split; [|set_solver]. by split_and!; [..|exists Fc, Fd].
Qed.

#[export] Instance hybrid_lpm : LpmEngine HybridEngine.
Proof. by split. Qed.

Lemma hybrid_new_local host config h :
  engine_variant config ≠ ART → write_compressed config = false → read_compressed config = false →
  redis_feature = true → cfg_redis config = None → heap_wf h →
  ∃ e h' F, hybrid_new host config h = Some (Ok e, h') ∧ re_rep h' e ∅ 0 F.
Proof.
  intros Hv Hw Hr Hf Hn Hwf. unfold hybrid_new. rewrite Hw, Hr, Hf, Hn.
  destruct (wrapper_new_uncompressed host _ (node_variant config) (num_shards config) h Hv Hwf)
    as (c & h1 & Fc & R1 & Hc & E1).
  rewrite (bind_run _ _ _ _ _ R1).
  destruct (wrapper_new_uncompressed host _ (node_variant config) (num_shards config) h1 Hv
    (ev_wf _ _ _ _ E1)) as (d & h2 & Fd & R2 & Hd & E2).
  rewrite (bind_run _ _ _ _ _ R2).
  destruct (re_frame _ _ _ _ _ _ _ _ Hc E2 ltac:(set_solver)) as [Hc' Hdis].
  eexists _, h2, (Fc ∪ Fd). split; [done|]. split_and!; [done|done|]. by exists Fc, Fd.
Qed.

(** [HybridEngine::new(..).expect(..)] *)
Definition hybrid_make host config : M HybridEngine :=
  r ← hybrid_new host config;
  match r with Ok e => mret e | Err _ => panic end.

(** Without a Redis configuration the split-plane engine over uncompressed
    trees gives every sequence of calls the answers and the size of the plain engine,
    although calls are spread over two engines. *)
Theorem hybrid_local_equals_engine host config os :
  engine_variant config ≠ ART → write_compressed config = false → read_compressed config = false →
  redis_feature = true → cfg_redis config = None →
  is_Some (session (hybrid_make host config) os) ∧
  session (hybrid_make host config) os = session (uncompressed_standard NormalTrieNode_v) os.
Proof.
  intros Hv Hw Hr Hf Hn.
  destruct (hybrid_new_local host config empty_heap Hv Hw Hr Hf Hn heap_wf_empty) as (e & h & F & R & Hrep).
  destruct (lpm_session (hybrid_make host config) e h F os) as (rs & m & n & R1 & S1); [|done|].
  { unfold hybrid_make. by rewrite (bind_run _ _ _ _ _ R). }
  destruct (standard_uncompressed_session NormalTrieNode_v os) as (rs' & m' & n' & R2 & S2).
  destruct (lpm_steps_det _ _ _ _ _ _ S1 S2) as [<- [= _ <-]]. rewrite R1, R2. eauto.
Qed.
End local.

(** ** With Redis the data plane only grows *)

Section redis.
Context `{IpNetworkLaws} `{DashMapLaws} `{TargetBuild} `{RedisCrate} `{!TextForms}.
Context `{JsonValues} `{!UpdateForms} `{!UpdateLaws} `{!HybridEnv}.
Implicit Types (h : Heap) (m : table) (F : gset loc) (n : Z) (e : HybridEngine).

(** The prefixes that were inserted in a run. *)
Definition inserted (evs : list event) : list IpNetwork :=
  omap (λ ev, match ev with Call (OpInsert p _) _ => Some p | _ => None end) evs.

(** Nothing but this process publishes, and its messages arrive. *)
Definition reliable (ev : event) : Prop :=
  match ev with Foreign _ | Lose _ => False | _ => True end.

(** The prefix a message on its way will insert. *)
Definition carries (payload : string) (p : IpNetwork) : Prop :=
  ∃ v md, decode_update payload = UInsert p v ∧ metadata_from_value v = Ok md.

(** The key a message on its way will store. *)
Definition pending (payloads : list string) (k : list bool) : Prop :=
  ∃ payload p, payload ∈ payloads ∧ carries payload p ∧ net_bits p = k.

(** The two planes hold some tables in disjoint parts of the heap; what is
    stored in the data plane or on its way to it is what was inserted. *)
Definition sync_inv (w : World) (ps : list IpNetwork) : Prop :=
  is_some (hy_redis (w_engine w)) = true ∧
  (∀ payload, payload ∈ hy_spawned (w_engine w) ++ w_wire w → ∃ p, carries payload p) ∧
  ∃ mc nc Fc md nd Fd,
    re_rep (w_heap w) (control_plane (w_engine w)) mc nc Fc ∧
    re_rep (w_heap w) (data_plane (w_engine w)) md nd Fd ∧ Fc ## Fd ∧
    ∀ k, is_Some (md !! k) ∨ pending (hy_spawned (w_engine w) ++ w_wire w) k ↔ k ∈ net_bits <$> ps.

Lemma carries_inj payload p q : carries payload p → carries payload q → p = q.
Proof. intros (v & md & E & _) (v' & md' & E' & _). congruence. Qed.

Lemma pending_cons payload p ts k :
  carries payload p → pending (payload :: ts) k ↔ k = net_bits p ∨ pending ts k.
Proof.
  intros Hc. split.
  - intros (x & q & [->|Hx]%elem_of_cons & Hq & <-).
    + left. by rewrite (carries_inj _ _ _ Hc Hq).
    + right. by exists x, q.
  - intros [->|(x & q & Hx & Hq & <-)].
    + exists payload, p. split_and!; [apply elem_of_cons; by left|done|done].
    + exists x, q. split_and!; [apply elem_of_cons; by right|done|done].
Qed.

Lemma pending_perm ts ts' k : ts ≡ₚ ts' → pending ts k → pending ts' k.
Proof. intros Hp (x & q & Hx & Hq). exists x, q. split; [by rewrite <- Hp|done]. Qed.

Lemma spawn_publish_run p md h :
  in_runtime = true → ∃ payload, spawn_publish p md h = Some ([payload], h) ∧ carries payload p.
Proof.
  intros Hrt. unfold spawn_publish. destruct (value_roundtrip md) as (v & Hto & Hv). rewrite Hto, Hrt.
  destruct (update_roundtrip (UInsert p v) ltac:(by exists md)) as (json & -> & Hjson). exists json. split; [done|].
  exists v, md. unfold decode_update. by rewrite Hjson.
Qed.

Lemma persist_some (r : option Redis) p md : is_some r = true → is_some (persist r p md) = true.
Proof.
  destruct r as [r|]; [|done]. intros _. unfold persist.
  destruct (metadata_to_json md); [|done]. by destruct (r_hset _ _ _ _).
Qed.

Lemma unpersist_some (r : option Redis) p : is_some r = true → is_some (unpersist r p) = true.
Proof. destruct r as [r|]; [|done]. intros _. unfold unpersist. by destruct (r_hdel _ _ _). Qed.

(** A call touches the control plane only, and an insert spawns its message. *)
Lemma sync_call e h wire o ps :
  redis_feature = true → in_runtime = true → sync_inv (mkWorld e h wire) ps →
  ∃ r e' h', engine_op e o h = Some ((r, e'), h') ∧
    sync_inv (mkWorld e' h' wire) (ps ++ match o with OpInsert p _ => [p] | _ => [] end).
Proof.
  intros Hf Hrt (Hred & Hcar & mc & nc & Fc & md & nd & Fd & Hc & Hd & Hdis & Hk).
  cbn [w_engine w_heap w_wire] in *.
  destruct o as [p x|ip|p|p|];
    cbn [engine_op re_insert re_lookup re_remove re_contains re_clear HybridEngine_RadixEngine].
  - destruct (re_insert_spec h _ mc nc Fc p x Hc) as (c' & h1 & Fc' & R1 & Hc' & E1).
    destruct (re_frame _ _ _ _ _ _ _ _ Hd E1 Hdis) as [Hd1 Hdis1].
    destruct (spawn_publish_run p x h1 Hrt) as (payload & Rs & Hp).
    eexists _, _, h1. unfold hybrid_insert. rewrite bind_bind, (bind_run _ _ _ _ _ R1), Hf, Hred.
    rewrite bind_bind, (bind_run _ _ _ _ _ Rs). split; [done|].
    assert ((hy_spawned e ++ [payload]) ++ wire ≡ₚ payload :: hy_spawned e ++ wire) as Hperm
      by (rewrite <- (assoc_L (++)); symmetry; apply Permutation_middle).
    split; [by apply persist_some|]. cbn [w_engine w_heap w_wire hy_spawned control_plane data_plane].
    split; [intros y; rewrite Hperm; intros [->|Hy]%elem_of_cons; eauto|].
    eexists _, _, Fc', md, nd, Fd. split_and!; [exact Hc'|exact Hd1|done|].
    intros k. rewrite fmap_app, elem_of_app, <- (Hk k), (list_elem_of_singleton k (net_bits p)).
    split.
    + intros [?|Hpe%(pending_perm _ _ _ Hperm)%(pending_cons _ _ _ _ Hp)]; [tauto|].
      destruct Hpe; [by right|tauto].
    + intros [[?|?]|Hkp]; [tauto|right|right].
      * eapply pending_perm; [symmetry; exact Hperm|]. apply (pending_cons _ _ _ _ Hp). tauto.
      * eapply pending_perm; [symmetry; exact Hperm|]. apply (pending_cons _ _ _ _ Hp). by left.
  - destruct (re_lookup_spec h _ md nd Fd ip Hd) as (r & d' & R & Hd' & _).
    eexists _, _, h. unfold hybrid_lookup. rewrite bind_bind, (bind_run _ _ _ _ _ R). split; [done|].
    rewrite app_nil_r. split_and!; [done|done|]. by exists mc, nc, Fc, md, nd, Fd.
  - destruct (re_remove_spec h _ mc nc Fc p Hc) as (c' & h1 & Fc' & R1 & Hc' & E1).
    destruct (re_frame _ _ _ _ _ _ _ _ Hd E1 Hdis) as [Hd1 Hdis1].
    eexists _, _, h1. unfold hybrid_remove. rewrite bind_bind, (bind_run _ _ _ _ _ R1), Hf, Hred. split; [done|].
    rewrite app_nil_r. split; [by apply unpersist_some|]. split; [done|]. by eexists _, _, Fc', md, nd, Fd.
  - rewrite (bind_run _ _ _ _ _ (re_contains_spec h _ md nd Fd p Hd : hybrid_contains e p h = _)).
    eexists _, _, h. split; [done|]. rewrite app_nil_r. split_and!; [done|done|]. by exists mc, nc, Fc, md, nd, Fd.
  - destruct (re_clear_spec h _ mc nc Fc Hc) as (c' & h1 & Fc' & R1 & Hc' & E1).
    destruct (re_frame _ _ _ _ _ _ _ _ Hd E1 Hdis) as [Hd1 Hdis1].
    eexists _, _, h1. unfold hybrid_clear. rewrite bind_bind, (bind_run _ _ _ _ _ R1), Hf, Hred. split; [done|].
    rewrite app_nil_r. split_and!; [done|done|]. by eexists _, _, Fc', md, nd, Fd.
Qed.

(** A delivered message moves its key into the data plane. *)
Lemma sync_deliver e h payload wire ps :
  sync_inv (mkWorld e h (payload :: wire)) ps →
  ∃ dp h', apply_update (data_plane e) (decode_update payload) h = Some (dp, h') ∧
    sync_inv (mkWorld (set_data e dp) h' wire) ps.
Proof.
  intros (Hred & Hcar & mc & nc & Fc & md & nd & Fd & Hc & Hd & Hdis & Hk). cbn [w_engine w_heap w_wire] in *.
  destruct (Hcar payload) as [p Hp]; [apply elem_of_app; right; apply elem_of_cons; by left|].
  pose proof Hp as (v & x & -> & Hv). cbn [apply_update]. rewrite Hv.
  destruct (re_insert_spec h _ md nd Fd p x Hd) as (d' & h1 & Fd' & R1 & Hd' & E1).
  destruct (re_frame _ _ _ _ _ _ _ _ Hc E1 ltac:(done)) as [Hc1 Hdis1].
  exists d', h1. rewrite (bind_run _ _ _ _ _ R1). split; [done|].
  assert (hy_spawned e ++ payload :: wire ≡ₚ payload :: hy_spawned e ++ wire) as Hperm
    by (symmetry; apply Permutation_middle).
  split; [done|]. cbn [w_engine w_heap w_wire set_data hy_spawned control_plane data_plane].
  split; [intros y Hy; apply Hcar; rewrite Hperm; apply elem_of_cons; by right|].
  eexists mc, nc, Fc, _, _, Fd'. split_and!; [exact Hc1|exact Hd'|done|].
  intros k. rewrite <- (Hk k). cbn [re_key wrapper_uncompressed_laws].
  change (re_key p) with (net_bits p). rewrite lookup_insert_is_Some'.
  split.
  - intros [[<-|?]|?]; [right|tauto|right]; (eapply pending_perm; [symmetry; exact Hperm|]);
      apply (pending_cons _ _ _ _ Hp); [by left|by right].
  - intros [?|Hpe%(pending_perm _ _ _ Hperm)%(pending_cons _ _ _ _ Hp)]; [tauto|].
    destruct Hpe as [->|?]; tauto.
Qed.

(** A spawned task moves its message to the wire. *)
Lemma sync_publish e h wire ts1 payload ts2 ps :
  hy_spawned e = ts1 ++ payload :: ts2 → sync_inv (mkWorld e h wire) ps →
  sync_inv (mkWorld (set_spawned e (ts1 ++ ts2)) h (wire ++ [payload])) ps.
Proof.
  intros Hts (Hred & Hcar & mc & nc & Fc & md & nd & Fd & Hc & Hd & Hdis & Hk).
  cbn [w_engine w_heap w_wire] in *. rewrite Hts in Hcar, Hk.
  assert ((ts1 ++ payload :: ts2) ++ wire ≡ₚ (ts1 ++ ts2) ++ wire ++ [payload]) as Hperm by solve_Permutation.
  split; [done|]. cbn [w_engine w_heap w_wire set_spawned hy_spawned control_plane data_plane].
  split; [intros y; rewrite <- Hperm; apply Hcar|].
  exists mc, nc, Fc, md, nd, Fd. split_and!; [done|done|done|]. intros k. rewrite <- (Hk k).
  split; (intros [?|Hpe]; [by left|right]); (eapply pending_perm; [|exact Hpe]); [by symmetry|done].
Qed.

Lemma sync_steps w evs w' ps :
  redis_feature = true → in_runtime = true → hybrid_steps w evs w' → Forall reliable evs →
  sync_inv w ps → sync_inv w' (ps ++ inserted evs).
Proof.
  intros Hf Hrt Hs. revert ps. induction Hs as [w|w ev w1 evs w2 Hs Hss IH]; intros ps Hrel Hinv.
  { by rewrite app_nil_r. }
  apply Forall_cons in Hrel as [Hr Hrel].
  assert (sync_inv w1 (ps ++ inserted [ev])) as H1'.
  { destruct Hs as [e h wire o r e' h' R|e h wire ts1 x ts2 Hts| |e h x wire dp h' R|]; try done; cbn [inserted omap list_omap].
    - destruct (sync_call e h wire o ps Hf Hrt Hinv) as (r1 & e1 & h1 & R1 & Hi).
      rewrite R in R1. injection R1 as <- <- <-. by destruct o.
    - rewrite app_nil_r. by eapply sync_publish.
    - rewrite app_nil_r. destruct (sync_deliver e h x wire ps Hinv) as (dp1 & h1 & R1 & Hi).
      rewrite R in R1. by injection R1 as <- <-. }
  specialize (IH _ Hrel H1'). rewrite <- (assoc_L (++)) in IH.
  replace (inserted (ev :: evs)) with (inserted [ev] ++ inserted evs); [done|].
  unfold inserted. rewrite <- omap_app. done.
Qed.

Lemma sync_new host config rc r :
  engine_variant config ≠ ART → write_compressed config = false → read_compressed config = false →
  redis_feature = true → cfg_redis config = Some rc → redis_connect rc = Ok r →
  r_hgetall r "radixip:entries" = Ok [] →
  ∃ e h, hybrid_new host config empty_heap = Some (Ok e, h) ∧ sync_inv (mkWorld e h []) [].
Proof.
  intros Hv Hw Hr Hf Hn Hconn Hget. unfold hybrid_new. rewrite Hw, Hr, Hf, Hn.
  destruct (wrapper_new_uncompressed host _ (node_variant config) (num_shards config) empty_heap Hv heap_wf_empty)
    as (c & h1 & Fc & R1 & Hc & E1).
  rewrite (bind_run _ _ _ _ _ R1).
  destruct (wrapper_new_uncompressed host _ (node_variant config) (num_shards config) h1 Hv
    (ev_wf _ _ _ _ E1)) as (d & h2 & Fd & R2 & Hd & E2).
  rewrite (bind_run _ _ _ _ _ R2). cbn [fmap option_fmap option_map]. rewrite Hconn, Hget.
  eexists _, h2. split; [done|].
  destruct (re_frame _ _ _ _ _ _ _ _ Hc E2 ltac:(set_solver)) as [Hc' Hdis].
  split; [done|]. split; [by intros payload ?%elem_of_nil|].
  exists ∅, 0, Fc, ∅, 0, Fd. split_and!; [done|done|done|]. intros k. cbn [w_engine w_wire hy_spawned app].
  rewrite lookup_empty. split.
  - intros [[? [=]]|(x & p & Hx & _)]. by apply elem_of_nil in Hx.
  - by intros ?%elem_of_nil.
Qed.

Lemma sync_init host config rc r e h :
  engine_variant config ≠ ART → write_compressed config = false → read_compressed config = false →
  redis_feature = true → cfg_redis config = Some rc → redis_connect rc = Ok r →
  r_hgetall r "radixip:entries" = Ok [] → hybrid_new host config empty_heap = Some (Ok e, h) →
  sync_inv (mkWorld e h []) [].
Proof.
  intros Hv Hw Hr Hf Hn Hconn Hget Hnew.
  destruct (sync_new host config rc r Hv Hw Hr Hf Hn Hconn Hget) as (e1 & h1 & Hnew1 & Hi).
  rewrite Hnew in Hnew1. by injection Hnew1 as <- <-.
Qed.

(** With Redis, whatever interleaving of calls, publishing tasks and
    deliveries: when no message is on its way any more, the data plane contains exactly the
    prefixes that were ever inserted.  Every insert arrives, and no removal and no clear does. *)
Theorem hybrid_redis_only_grows host config rc r e h evs e' h' p :
  engine_variant config ≠ ART → write_compressed config = false → read_compressed config = false →
  redis_feature = true → in_runtime = true → cfg_redis config = Some rc → redis_connect rc = Ok r →
  r_hgetall r "radixip:entries" = Ok [] → hybrid_new host config empty_heap = Some (Ok e, h) →
  hybrid_steps (mkWorld e h []) evs (mkWorld e' h' []) → Forall reliable evs → hy_spawned e' = [] →
  hybrid_contains e' p h' = Some (bool_decide (net_bits p ∈ net_bits <$> inserted evs), h').
Proof.
  intros Hv Hw Hr Hf Hrt Hn Hconn Hget Hnew Hs Hrel Hq.
  pose proof (sync_init host config rc r e h Hv Hw Hr Hf Hn Hconn Hget Hnew) as H0'.
  apply (sync_steps _ _ _ _ Hf Hrt Hs Hrel) in H0' as (_ & _ & mc & nc & Fc & md & nd & Fd & _ & Hd & _ & Hk).
  cbn [w_engine w_heap w_wire] in *. rewrite Hq in Hk. unfold hybrid_contains.
  rewrite (re_contains_spec h' _ md nd Fd p Hd). change (re_key p) with (net_bits p).
  specialize (Hk (net_bits p)). cbn [app] in Hk. do 2 f_equal. apply eq_bool_prop_intro.
  rewrite bool_decide_spec, <- Hk. destruct (md !! net_bits p); simpl; split; eauto; try done.
  intros [[? [=]]|(x & q & Hx & _)]. by apply elem_of_nil in Hx.
Qed.

(** What is still under way: every spawned task reaches Redis, then the
    subscription hands on what was on the wire and what the tasks published. *)
Definition outstanding (w : World) : list event :=
  (Publish <$> hy_spawned (w_engine w)) ++ (Deliver <$> w_wire w ++ hy_spawned (w_engine w)).

Lemma outstanding_reliable w : Forall reliable (outstanding w) ∧ inserted (outstanding w) = [].
Proof.
  unfold outstanding. split.
  - apply Forall_app. split; apply Forall_fmap, Forall_forall; by intros.
  - unfold inserted. rewrite omap_app. generalize (w_wire w ++ hy_spawned (w_engine w)). intros ds.
    generalize (hy_spawned (w_engine w)). intros ts. induction ts; [induction ds|]; done.
Qed.

(** Every world of such a run can always be brought to rest, without a further call. *)
Lemma hybrid_drains w ps :
  sync_inv w ps → ∃ w', hybrid_steps w (outstanding w) w' ∧ hy_spawned (w_engine w') = [] ∧ w_wire w' = [].
Proof.
  destruct w as [e h wire]. unfold outstanding. cbn [w_engine w_wire].
  remember (hy_spawned e) as ts eqn:Hts. revert e h wire Hts.
  induction ts as [|x ts IHts]; intros e h wire Hts Hinv.
  - rewrite app_nil_r. cbn [fmap list_fmap app]. revert e h Hts Hinv.
    induction wire as [|x wire IH]; intros e h Hts Hinv.
    { exists (mkWorld e h []). split; [constructor|done]. }
    destruct (sync_deliver e h x wire ps Hinv) as (dp & h' & R & Hi).
    destruct (IH (set_data e dp) h' Hts Hi) as (w' & Hs & Hq).
    exists w'. split; [|done]. by econstructor; [constructor|].
  - pose proof (sync_publish e h wire [] x ts ps (eq_sym Hts) Hinv) as Hi.
    destruct (IHts (set_spawned e ts) h (wire ++ [x]) eq_refl Hi) as (w' & Hs & Hq).
    exists w'. split; [|done]. rewrite <-app_assoc in Hs.
    by econstructor; [apply (hs_publish e h wire [] x ts (eq_sym Hts))|].
Qed.

(** C39: with Redis in front of uncompressed planes (not ART), from every state
    that is reachable from an empty Redis by calls, tasks and deliveries (no
    task fails and nobody else publishes), the tasks and deliveries that are
    under way, and nothing else, bring the data plane to contain every prefix
    that was inserted. *)
Theorem hybrid_inserts_arrive host config rc r e h evs w :
  engine_variant config ≠ ART → write_compressed config = false → read_compressed config = false →
  redis_feature = true → in_runtime = true → cfg_redis config = Some rc → redis_connect rc = Ok r →
  r_hgetall r "radixip:entries" = Ok [] → hybrid_new host config empty_heap = Some (Ok e, h) →
  hybrid_steps (mkWorld e h []) evs w → Forall reliable evs →
  ∃ e' h', hybrid_steps w (outstanding w) (mkWorld e' h' []) ∧ hy_spawned e' = [] ∧
    ∀ p, p ∈ inserted evs → hybrid_contains e' p h' = Some (true, h').
Proof.
  intros Hv Hw Hr Hf Hrt Hn Hconn Hget Hnew Hs Hrel.
  pose proof (sync_init host config rc r e h Hv Hw Hr Hf Hn Hconn Hget Hnew) as H0'.
  apply (sync_steps _ _ _ _ Hf Hrt Hs Hrel) in H0'.
  destruct (hybrid_drains w _ H0') as ([e' h' wire] & Hs' & Hq & Hwire). simpl in Hq, Hwire. subst wire.
  destruct (outstanding_reliable w) as [Hrel' _].
  exists e', h'. split_and!; [done|done|]. intros p Hp.
  pose proof (sync_steps _ _ _ _ Hf Hrt Hs' Hrel' H0') as (_ & _ & mc & nc & Fc & md & nd & Fd & _ & Hd & _ & Hk).
  cbn [w_engine w_heap w_wire] in *. unfold hybrid_contains.
  rewrite (re_contains_spec h' _ md nd Fd p Hd). change (re_key p) with (net_bits p).
  destruct (proj2 (Hk (net_bits p))) as [[x ->]|(y & q & Hy & _)]; [|done|].
  - apply list_elem_of_fmap. exists p. split; [done|]. apply elem_of_app. by left.
  - rewrite Hq in Hy. by apply elem_of_nil in Hy.
Qed.

(** A message that does not decode empties the data plane: one malformed publish on the
    shared channel, and no prefix but the default route is found any more. *)
Theorem hybrid_garbage_clears e h m n F junk err p :
  re_rep h (data_plane e) m n F → update_from_json junk = Err err → 0 < net_prefix p →
  ∃ e' h', hybrid_steps (mkWorld e h []) [Foreign junk; Deliver junk] (mkWorld e' h' []) ∧
    hybrid_contains e' p h' = Some (false, h').
Proof.
  intros Hd Hj Hp. destruct (re_clear_spec h _ m n F Hd) as (d' & h' & F' & R & Hd' & _).
  exists (set_data e d'), h'. split.
  - econstructor; [apply hs_foreign|]. econstructor; [|constructor]. apply hs_deliver.
    unfold decode_update. by rewrite Hj.
  - unfold hybrid_contains, set_data. cbn [data_plane]. rewrite (re_contains_spec h' _ _ _ F' p Hd').
    change (re_key p) with (net_bits p). change (re_cleared m) with (keep_default m).
    assert (keep_default m !! net_bits p = None) as ->; [|done].
    unfold keep_default. apply map_lookup_filter_None. right. intros x _ Hnil. simpl in Hnil.
    pose proof (length_net_bits p) as Hl. rewrite Hnil in Hl. rewrite net_prefix_len in Hp. simpl in Hl. lia.
Qed.
End redis.

(** ** Without the [redis] feature the data plane is never written *)

Section no_feature.
Context `{IpNetworkLaws} `{DashMapLaws} `{TargetBuild} `{RedisCrate} `{!TextForms}.
Context `{JsonValues} `{!UpdateForms} `{!HybridEnv}.
Implicit Types (h : Heap) (m : table) (F : gset loc) (n : Z) (e : HybridEngine).

Definition blind (o : op) (r : res) : Prop :=
  match o with OpLookup _ => r = RMeta None | OpContains _ => r = RBool false | _ => True end.

Definition data_empty h e : Prop :=
  ∃ m n Fc Fd, re_rep h (control_plane e) m n Fc ∧ re_rep h (data_plane e) ∅ 0 Fd ∧ Fc ## Fd.

Lemma data_empty_op e o h :
  redis_feature = false → data_empty h e →
  ∃ r e' h', engine_op e o h = Some ((r, e'), h') ∧ data_empty h' e' ∧ blind o r.
Proof.
  intros Hf (m & n & Fc & Fd & Hc & Hd & Hdis).
  destruct o as [p x|ip|p|p|];
    cbn [engine_op re_insert re_lookup re_remove re_contains re_clear HybridEngine_RadixEngine].
  - destruct (re_insert_spec h _ m n Fc p x Hc) as (c' & h1 & Fc' & R1 & Hc' & E1).
    destruct (re_frame _ _ _ _ _ _ _ _ Hd E1 Hdis) as [Hd1 Hdis1].
    eexists _, _, h1. unfold hybrid_insert. rewrite bind_bind, (bind_run _ _ _ _ _ R1), Hf.
    split; [done|]. split; [|done]. by eexists _, _, Fc', Fd.
  - destruct (re_lookup_spec h _ ∅ 0 Fd ip Hd) as (r & d' & R & Hd' & Ha%lpm_answer).
    eexists _, _, h. unfold hybrid_lookup. rewrite bind_bind, (bind_run _ _ _ _ _ R). split; [done|].
    split; [by exists m, n, Fc, Fd|]. simpl. by rewrite Ha.
  - destruct (re_remove_spec h _ m n Fc p Hc) as (c' & h1 & Fc' & R1 & Hc' & E1).
    destruct (re_frame _ _ _ _ _ _ _ _ Hd E1 Hdis) as [Hd1 Hdis1].
    eexists _, _, h1. unfold hybrid_remove. rewrite bind_bind, (bind_run _ _ _ _ _ R1), Hf.
    split; [done|]. split; [|done]. by eexists _, _, Fc', Fd.
  - rewrite (bind_run _ _ _ _ _ (re_contains_spec h _ ∅ 0 Fd p Hd : hybrid_contains e p h = _)).
    eexists _, _, h. split; [done|]. split; [by exists m, n, Fc, Fd|]. simpl. by rewrite lookup_empty.
  - destruct (re_clear_spec h _ m n Fc Hc) as (c' & h1 & Fc' & R1 & Hc' & E1).
    destruct (re_frame _ _ _ _ _ _ _ _ Hd E1 Hdis) as [Hd1 Hdis1].
    eexists _, _, h1. unfold hybrid_clear. rewrite bind_bind, (bind_run _ _ _ _ _ R1), Hf.
    split; [done|]. split; [|done]. by eexists _, _, Fc', Fd.
Qed.

(** A crate built without the [redis] feature: the split-plane engine accepts every
    insert and finds nothing, whatever is called. *)
Theorem hybrid_without_feature_blind host config os :
  engine_variant config ≠ ART → write_compressed config = false → read_compressed config = false →
  redis_feature = false →
  ∃ rs, session (hybrid_make host config) os = Some (rs, 0) ∧ Forall2 blind os rs.
Proof.
  intros Hv Hw Hr Hf.
  assert (∃ e h, hybrid_make host config empty_heap = Some (e, h) ∧ data_empty h e) as (e & h & R & He).
  { unfold hybrid_make, hybrid_new. rewrite Hw, Hr, Hf, bind_bind.
    destruct (wrapper_new_uncompressed host _ (node_variant config) (num_shards config) empty_heap Hv heap_wf_empty)
      as (c & h1 & Fc & R1 & Hc & E1).
    rewrite (bind_run _ _ _ _ _ R1), bind_bind.
    destruct (wrapper_new_uncompressed host _ (node_variant config) (num_shards config) h1 Hv
      (ev_wf _ _ _ _ E1)) as (d & h2 & Fd & R2 & Hd & E2).
    rewrite (bind_run _ _ _ _ _ R2). destruct (re_frame _ _ _ _ _ _ _ _ Hc E2 ltac:(set_solver)) as [Hc' Hdis].
    eexists _, h2. split; [done|]. by exists ∅, 0, Fc, Fd. }
  unfold session. rewrite R. cbn [mbind option_bind]. clear R. revert e h He.
  induction os as [|o os IH]; intros e h He.
  - destruct He as (m & n & Fc & Fd & _ & Hd & _). exists []. split; [|constructor].
    cbn [engine_ops mret M_ret mbind option_bind].
    do 2 f_equal. apply (re_size_spec h _ ∅ 0 Fd Hd).
  - destruct (data_empty_op e o h Hf He) as (r & e' & h' & R & He' & Hb).
    destruct (IH e' h' He') as (rs & Hrs & Hf2).
    destruct (engine_ops e' os h') as [[[rs' e''] h'']|] eqn:E2; [|done].
    exists (r :: rs). rewrite (engine_ops_cons _ _ _ _ _ _ _ _ _ _ R E2).
    cbn [mbind option_bind] in *. injection Hrs as -> Hsz. split; [by do 2 f_equal|by constructor].
Qed.
End no_feature.
