(* ===== verification/RedisClient.v ===== *)
(** * The Redis client (cache/src/redis.rs)

    [RedisClient] wraps a connection manager for publishing, opens a blocking
    connection per synchronous command and runs one task per subscription.
    The [redis] crate and the server behind it are parameters ([RedisDriver]);
    the client's commands discharge the interface [RedisCrate] that the engine
    cache and the hybrid engine are proved against, and the subscription task
    discharges the delivery step of the hybrid engine. *)

From S2P Require Import Prelude Addr Lpm DashMap Node Heap RouteTree Trie Patricia Engine Engines Cache.
From S2P Require Import Simd ArtNode ArtTree ArtLookup ArtEngine Wrapper Hybrid.

Local Open Scope Z_scope.

(** ** The [redis] crate *)

(** The calls the client makes.  [Server] is the state of the server and of
    the network in front of it; a command that fails leaves it as it was. *)
Class RedisDriver := {
  RedisError : Type;
  redis_error_text : RedisError → string;               (* Display *)
  type_error : string → string → RedisError;            (* (ErrorKind::TypeError, _, _) *)
  Client : Type;
  client_open : string → Result Client RedisError;
  Server : Type;
  ConnectionManager : Type;
  connection_manager_new : Server → Client → Result ConnectionManager RedisError;
  Connection : Type;
  open_connection : Server → Client → Result Connection RedisError;
  cmd_get : Server → Connection → string → Result (option string) RedisError;
  cmd_set : Server → Connection → string → string → Result Server RedisError;
  cmd_hgetall : Server → Connection → string → Result (list (string * string)) RedisError;
  cmd_hset : Server → Connection → string → string → string → Result (Z * Server) RedisError;
  cmd_hdel : Server → Connection → string → string → Result (Z * Server) RedisError;
  cmd_publish : Server → ConnectionManager → string → string → Result (Z * Server) RedisError;
  PubSub : Type;
  get_async_pubsub : Server → Client → Result PubSub RedisError;
  pubsub_subscribe : Server → PubSub → string → Result Server RedisError;
  Msg : Type;
  get_payload : Msg → Result string RedisError;
  get_channel_name : Msg → string;
}.

(** What the string commands of a reachable server promise. *)
Class DriverLaws `{RedisDriver} : Prop := {
  open_ok s c : ∃ conn, open_connection s c = Ok conn;
  set_get s conn k v : ∃ s', cmd_set s conn k v = Ok s' ∧ ∀ conn', cmd_get s' conn' k = Ok (Some v);
  hset_get s conn k f v n s' : cmd_hset s conn k f v = Ok (n, s') →
    ∀ conn' k', cmd_get s' conn' k' = cmd_get s conn' k';
  hdel_get s conn k f n s' : cmd_hdel s conn k f = Ok (n, s') →
    ∀ conn' k', cmd_get s' conn' k' = cmd_get s conn' k';
  get_conn s conn conn' k : cmd_get s conn k = cmd_get s conn' k;
}.

Section client.
Context `{RedisDriver}.

(** ** Errors and the client *)

Inductive RedisPubSubError :=
  | PSRedis (e : RedisError)
  | SendError
  | RecvError.

Definition RedisPubSubError_display (e : RedisPubSubError) : string :=
  match e with
  | PSRedis e => "Redis error: " +:+ redis_error_text e
  | SendError => "Channel send error"
  | RecvError => "Channel receive error"
  end.

(** The [?] operator through [#[from] RedisError]. *)
Definition from_redis {A} (r : Result A RedisError) : Result A RedisPubSubError :=
  match r with Ok a => Ok a | Err e => Err (PSRedis e) end.

(** A [broadcast] channel as far as it is used: its capacity and whether a
    value was sent on it; nothing is ever sent on [pubsub_sender]. *)
Record Broadcast := mkBroadcast { bc_capacity : nat; bc_sent : bool }.

(** [Arc<RedisClientInner>] with the number of its owners. *)
Record RedisClient := mkRedisClient {
  rci_client : Client;
  connection_manager : ConnectionManager;
  rci_config : RedisConfig;
  pubsub_sender : Broadcast;
  shutdown_tx : Broadcast;
  rci_owners : nat;
}.

Definition redis_client_new (s : Server) (config : RedisConfig) : Result RedisClient RedisPubSubError :=
  match from_redis (client_open (rcfg_url config)) with
  | Err e => Err e
  | Ok client =>
      match from_redis (connection_manager_new s client) with
      | Err e => Err e
      | Ok manager =>
          Ok (mkRedisClient client manager config (mkBroadcast 100 false) (mkBroadcast 1 false) 1)
      end
  end.

Definition set_owners (c : RedisClient) (n : nat) : RedisClient :=
  mkRedisClient (rci_client c) (connection_manager c) (rci_config c) (pubsub_sender c) (shutdown_tx c) n.

Definition client_clone (c : RedisClient) : RedisClient := set_owners c (S (rci_owners c)).
Definition client_drop (c : RedisClient) : RedisClient := set_owners c (pred (rci_owners c)).

(** ** Synchronous commands *)

Definition get_sync_connection (s : Server) (c : RedisClient) : Result Connection RedisPubSubError :=
  from_redis (open_connection s (rci_client c)).

(** [let mut conn = self.get_sync_connection()?; .. ?]. *)
Definition with_connection {A} (s : Server) (c : RedisClient) (cmd : Connection → Result A RedisError)
    : Result A RedisPubSubError :=
  match get_sync_connection s c with
  | Ok conn => from_redis (cmd conn)
  | Err e => Err e
  end.

Definition get_sync (s : Server) (c : RedisClient) (key : string)
    : Result (option string) RedisPubSubError :=
  with_connection s c (λ conn, cmd_get s conn key).

Definition set_sync (s : Server) (c : RedisClient) (key value : string)
    : Result Server RedisPubSubError :=
  with_connection s c (λ conn, cmd_set s conn key value).

Definition hgetall_sync (s : Server) (c : RedisClient) (key : string)
    : Result (list (string * string)) RedisPubSubError :=
  with_connection s c (λ conn, cmd_hgetall s conn key).

(** The count that the command returns is dropped. *)
Definition drop_count {A E} (r : Result (Z * A) E) : Result A E :=
  match r with Ok (_, a) => Ok a | Err e => Err e end.

Definition hset_sync (s : Server) (c : RedisClient) (key field value : string)
    : Result Server RedisPubSubError :=
  drop_count (with_connection s c (λ conn, cmd_hset s conn key field value)).

Definition hdel_sync (s : Server) (c : RedisClient) (key field : string)
    : Result Server RedisPubSubError :=
  drop_count (with_connection s c (λ conn, cmd_hdel s conn key field)).

(** ** Publishing *)

(** The connection manager is behind a mutex, whose lock does not fail. *)
Definition publish (s : Server) (c : RedisClient) (channel message : string)
    : Result Server RedisPubSubError :=
  drop_count (from_redis (cmd_publish s (connection_manager c) channel message)).

(** [to_string] is [serde_json::to_string] on the value. *)
Definition publish_json {T} (to_string : T → Result string string) (s : Server) (c : RedisClient)
    (channel : string) (data : T) : Result Server RedisPubSubError :=
  match to_string data with
  | Ok json => publish s c channel json
  | Err e => Err (PSRedis (type_error "Serialization error" e))
  end.

Section updates.
Context `{IpNetworkCrate} `{JsonValues} `{!UpdateForms}.

Definition publish_insert (s : Server) (c : RedisClient) (channel : string) (prefix : IpNetwork)
    (metadata : JsonValue) : Result Server RedisPubSubError :=
  publish_json update_to_json s c channel (UInsert prefix metadata).

Definition publish_clear (s : Server) (c : RedisClient) (channel : string)
    : Result Server RedisPubSubError :=
  publish_json update_to_json s c channel UClear.

Definition publish_remove (s : Server) (c : RedisClient) (channel : string) (prefix : IpNetwork)
    : Result Server RedisPubSubError :=
  publish_json update_to_json s c channel (URemove prefix).
End updates.

(** ** The subscription task *)

Record PubSubMessage := mkPubSub { ps_channel : string; ps_payload : string; ps_pattern : option string }.

(** A payload that is not a string becomes the empty one. *)
Definition to_message (msg : Msg) : PubSubMessage :=
  let payload := match get_payload msg with Ok p => p | Err _ => "" end in
  mkPubSub (get_channel_name msg) payload None.

(** What awaiting the callback comes to: still pending, done, done with a
    [break], or a panic. *)
Inductive cb (A : Type) := CbPending | CbReturn (a : A) | CbBreak (a : A) | CbPanic.

Inductive pc :=
  | Selecting                       (* at the select! *)
  | Awaiting (m : PubSubMessage)    (* in the callback *)
  | Stopped (lost : list PubSubMessage)
  | Panicked (m : PubSubMessage).

Record Task (A : Type) := mkTask {
  t_callback : A → PubSubMessage → cb A;
  t_channel : string;
  t_stream : list Msg;      (* arrived and not yet taken *)
  t_closed : bool;          (* the connection of the stream has ended *)
  t_shutdown : bool;        (* shutdown.recv() is ready *)
  t_pc : pc;
  t_env : A;                (* what the callback works on *)
}.

(** Events: of the outside world, of other users of the callback's state, and
    of the task itself. *)
Inductive ev (L : Type) :=
  | Arrive (msg : Msg)
  | CloseStream
  | ShutdownReady
  | Env (l : L)
  | TakeMessage
  | RunCallback
  | SeeStreamEnd
  | SeeShutdown.
End client.

Arguments CbPending {A}. Arguments CbReturn {A}. Arguments CbBreak {A}. Arguments CbPanic {A}.
Arguments mkTask {_ A}. Arguments t_callback {_ A}. Arguments t_channel {_ A}. Arguments t_stream {_ A}. Arguments t_closed {_ A}.
Arguments t_shutdown {_ A}. Arguments t_pc {_ A}. Arguments t_env {_ A}.
Arguments Arrive {_ L}. Arguments CloseStream {_ L}. Arguments ShutdownReady {_ L}. Arguments Env {_ L}.
Arguments TakeMessage {_ L}. Arguments RunCallback {_ L}. Arguments SeeStreamEnd {_ L}. Arguments SeeShutdown {_ L}.

Section loop.
Context `{RedisDriver} {A L : Type}.
Variable env : A → L → option A.

Implicit Types (t : Task A) (es : list (ev L)).

Definition set_pc t p := mkTask (t_callback t) (t_channel t) (t_stream t) (t_closed t) (t_shutdown t) p (t_env t).
Definition set_env t p (a : A) := mkTask (t_callback t) (t_channel t) (t_stream t) (t_closed t) (t_shutdown t) p a.

(** The loop of the spawned task, one event at a time; [None] when the event
    is not possible.  When both branches of the select! are ready either may
    be taken.  While the callback is awaited, nothing else is polled. *)
Definition task_step t (e : ev L) : option (Task A) :=
  match e with
  | Arrive msg =>
      if t_closed t then None
      else Some (mkTask (t_callback t) (t_channel t) (t_stream t ++ [msg]) false (t_shutdown t) (t_pc t) (t_env t))
  | CloseStream => Some (mkTask (t_callback t) (t_channel t) (t_stream t) true (t_shutdown t) (t_pc t) (t_env t))
  | ShutdownReady => Some (mkTask (t_callback t) (t_channel t) (t_stream t) (t_closed t) true (t_pc t) (t_env t))
  | Env l => a ← env (t_env t) l; Some (set_env t (t_pc t) a)
  | TakeMessage =>
      match t_pc t, t_stream t with
      | Selecting, msg :: rest =>
          Some (mkTask (t_callback t) (t_channel t) rest (t_closed t) (t_shutdown t) (Awaiting (to_message msg)) (t_env t))
      | _, _ => None
      end
  | RunCallback =>
      match t_pc t with
      | Awaiting m =>
          match t_callback t (t_env t) m with
          | CbPending => None
          | CbReturn a => Some (set_env t Selecting a)
          | CbBreak a => Some (set_env t (Stopped [m]) a)
          | CbPanic => Some (set_pc t (Panicked m))
          end
      | _ => None
      end
  | SeeStreamEnd =>
      match t_pc t, t_stream t with
      | Selecting, [] => if t_closed t then Some (set_pc t (Stopped [])) else None
      | _, _ => None
      end
  | SeeShutdown =>
      match t_pc t with
      | Selecting => if t_shutdown t then Some (set_pc t (Stopped [])) else None
      | _ => None
      end
  end.

Fixpoint task_run t es : option (Task A) :=
  match es with
  | [] => Some t
  | e :: es => t' ← task_step t e; task_run t' es
  end.

(** [shutdown_tx.subscribe()] before the connection is made: the receiver is
    ready at once when the last owner of the client is gone. *)
Definition subscribe (s : Server) (c : RedisClient) (channel : string)
    (callback : A → PubSubMessage → cb A) (a : A) : Result (Task A * Server) RedisPubSubError :=
  match from_redis (get_async_pubsub s (rci_client c)) with
  | Err e => Err e
  | Ok pubsub =>
      match from_redis (pubsub_subscribe s pubsub channel) with
      | Err e => Err e
      | Ok s' => Ok (mkTask callback channel [] false (rci_owners c =? 0)%nat Selecting a, s')
      end
  end.

(** ** Order of delivery *)

Definition arrived es : list Msg :=
  omap (λ e, match e with Arrive msg => Some msg | _ => None end) es.

Definition in_flight (p : pc) : list PubSubMessage :=
  match p with
  | Selecting => []
  | Awaiting m | Panicked m => [m]
  | Stopped lost => lost
  end.

(** The callback's state after it has handled a list of messages, with the
    steps of its other users in between; a [break] handles nothing. *)
Inductive handles (callback : A → PubSubMessage → cb A) : A → list PubSubMessage → A → Prop :=
  | handles_nil a : handles callback a [] a
  | handles_cb a ms a1 m a2 :
      handles callback a ms a1 → callback a1 m = CbReturn a2 → handles callback a (ms ++ [m]) a2
  | handles_break a ms a1 m a2 :
      handles callback a ms a1 → callback a1 m = CbBreak a2 → handles callback a ms a2
  | handles_env a ms a1 l a2 :
      handles callback a ms a1 → env a1 l = Some a2 → handles callback a ms a2.

Definition delivery callback a ms0 t : Prop :=
  t_callback t = callback ∧
  ∃ ms, ms0 = ms ++ in_flight (t_pc t) ++ (to_message <$> t_stream t) ∧ handles callback a ms (t_env t).

Lemma task_run_snoc t es e t' :
  task_run t (es ++ [e]) = Some t' ↔ ∃ t1, task_run t es = Some t1 ∧ task_step t1 e = Some t'.
Proof.
  revert t. induction es as [|e1 es IH]; intros t; simpl.
  - split.
    + intros (t1 & Ht & Hr)%bind_Some. exists t. by simplify_eq.
    + intros (t1 & [= ->] & ->). done.
  - destruct (task_step t e1) as [t2|]; simpl; [apply IH|]. split; [done|by intros (? & ? & ?)].
Qed.

Lemma delivery_step callback a ms0 t e t' :
  delivery callback a ms0 t → task_step t e = Some t' → delivery callback a (ms0 ++ (to_message <$> arrived [e])) t'.
Proof.
  intros (<- & ms & -> & Hst). destruct t as [callback ch q cl sh p st]; simpl in *.
  destruct e as [msg| | |l| | | | ]; simpl; rewrite ?app_nil_r; intros Hstep.
  - destruct cl; simplify_eq/=. split; [done|]; exists ms. simpl. by rewrite fmap_app, !(assoc_L (++)).
  - simplify_eq/=. split; [done|]; by exists ms.
  - simplify_eq/=. split; [done|]; by exists ms.
  - apply bind_Some in Hstep as (st' & He & ?). simplify_eq/=. split; [done|]; exists ms.
    split; [done|by eapply handles_env].
  - destruct p; try done. destruct q as [|msg q]; simplify_eq/=. split; [done|]; by exists ms.
  - destruct p as [|m| |]; try done.
    destruct (callback st m) as [|st'|st'|] eqn:Hcb; simplify_eq/=.
    + split; [done|]; exists (ms ++ [m]). rewrite <-!(assoc_L (++)). split; [done|by eapply handles_cb].
    + split; [done|]; exists ms. split; [done|by eapply handles_break].
    + split; [done|]; by exists ms.
  - destruct p; try done. destruct q; try done. destruct cl; simplify_eq/=. split; [done|]; by exists ms.
  - destruct p; try done. destruct sh; simplify_eq/=. split; [done|]; by exists ms.
Qed.

Lemma arrived_snoc es e : arrived (es ++ [e]) = arrived es ++ arrived [e].
Proof. apply omap_app. Qed.

Lemma task_run_delivery callback ch a sh es t :
  task_run (mkTask callback ch [] false sh Selecting a) es = Some t → delivery callback a (to_message <$> arrived es) t.
Proof.
  revert t. induction es as [|e es IH] using rev_ind; intros t.
  - intros [= <-]. split; [done|]. exists []. split; [done|constructor].
  - intros (t1 & Hr & Hs)%task_run_snoc. rewrite arrived_snoc, fmap_app.
    eapply delivery_step; eauto.
Qed.

(** ** The task ends *)

Definition own (e : ev L) : bool :=
  match e with TakeMessage | RunCallback | SeeStreamEnd | SeeShutdown => true | _ => false end.

Definition task_measure t : nat :=
  match t_pc t with
  | Selecting => 2 * length (t_stream t) + 1
  | Awaiting _ => 2 * length (t_stream t) + 2
  | Stopped _ | Panicked _ => 0
  end.

Definition ended t : Prop := match t_pc t with Stopped _ | Panicked _ => True | _ => False end.

#[local] Instance ended_dec t : Decision (ended t).
Proof. unfold ended. destruct (t_pc t); apply _. Defined.

Lemma own_step_decreases t e t' :
  own e = true → task_step t e = Some t' → (task_measure t' < task_measure t)%nat.
Proof.
  destruct t as [callback ch q cl sh p st], e; simpl; try done; intros _ Hs; unfold task_measure; simpl.
  - destruct p; try done. destruct q; simplify_eq/=. lia.
  - destruct p as [|m| |]; try done. destruct (callback st m); simplify_eq/=; lia.
  - destruct p; try done. destruct q; try done. destruct cl; simplify_eq/=. lia.
  - destruct p; try done. destruct sh; simplify_eq/=. lia.
Qed.

Lemma own_run_bound t es t' :
  Forall (λ e, own e = true) es → task_run t es = Some t' →
  (length es + task_measure t' ≤ task_measure t)%nat.
Proof.
  revert t. induction es as [|e es IH]; intros t; simpl.
  - intros _ [= ->]. lia.
  - intros [Ho Hos]%Forall_cons (t1 & Hs & Hr)%bind_Some.
    pose proof (own_step_decreases _ _ _ Ho Hs). specialize (IH t1 Hos Hr). lia.
Qed.

Lemma own_step_flags t e t' :
  own e = true → task_step t e = Some t' → t_closed t' = t_closed t ∧ t_shutdown t' = t_shutdown t ∧ t_callback t' = t_callback t.
Proof.
  destruct t as [callback ch q cl sh p st], e; simpl; try done; intros _ Hs.
  - destruct p; try done. by destruct q; simplify_eq/=.
  - destruct p as [|m| |]; try done. by destruct (callback st m); simplify_eq/=.
  - destruct p; try done. destruct q; try done. by destruct cl; simplify_eq/=.
  - destruct p; try done. by destruct sh; simplify_eq/=.
Qed.

Lemma task_progress t :
  t_closed t = true ∨ t_shutdown t = true → ¬ ended t →
  (∃ e t', own e = true ∧ task_step t e = Some t') ∨
  ∃ m, t_pc t = Awaiting m ∧ t_callback t (t_env t) m = CbPending.
Proof.
  destruct t as [callback ch q cl sh p st]; unfold ended; simpl. intros Hc Hne.
  destruct p as [|m| |]; try done.
  - left. destruct q as [|msg q].
    + destruct Hc as [->| ->]; [exists SeeStreamEnd|exists SeeShutdown]; eexists; done.
    + exists TakeMessage. by eexists.
  - destruct (callback st m) as [|a|a|] eqn:Hcb; [by right; exists m| | |];
      left; exists RunCallback; simpl; rewrite Hcb; by eexists.
Qed.

Lemma task_eventually_ends t :
  (∀ a m, t_callback t a m ≠ CbPending) → t_closed t = true ∨ t_shutdown t = true →
  ∃ es t', Forall (λ e, own e = true) es ∧ task_run t es = Some t' ∧ ended t'.
Proof.
  remember (task_measure t) as n eqn:Hn. revert t Hn.
  induction n as [n IH] using lt_wf_ind. intros t -> Hnp Hc.
  destruct (decide (ended t)) as [He|He]; [by exists [], t|].
  destruct (task_progress t Hc He) as [(e & t' & Ho & Hs)|(m & _ & Hp)].
  - destruct (own_step_flags _ _ _ Ho Hs) as (Hcl & Hsh & Hcb).
    destruct (IH (task_measure t') (own_step_decreases _ _ _ Ho Hs) t' eq_refl) as (es & t2 & Hos & Hr & Hend).
    { by rewrite Hcb. }
    { by rewrite Hcl, Hsh. }
    exists (e :: es), t2. split_and!; [by constructor| |done]. simpl. by rewrite Hs.
  - by destruct (Hnp (t_env t) m).
Qed.
End loop.

(** ** What a subscription promises *)

Section subscription.
Context `{RedisDriver} {A L : Type} (env : A → L → option A).
Implicit Types (t : Task A) (es : list (ev L)).

Definition drained t : Prop := t_pc t = Stopped [] ∧ t_stream t = [] ∧ t_closed t = true.

Lemma drained_step t e t' : drained t → task_step env t e = Some t' → drained t'.
Proof.
  destruct t as [callback ch q cl sh p st]. intros (Hp & Hq & Hc) Hs; simpl in *; subst.
  destruct e; simpl in Hs; simplify_eq/=; [done|done|].
  apply bind_Some in Hs as (a & _ & ?). by simplify_eq.
Qed.

Lemma stream_end_drains t t' : task_step env t SeeStreamEnd = Some t' → drained t'.
Proof.
  destruct t as [callback ch q cl sh p st]; simpl. destruct p; try done. destruct q; try done.
  destruct cl; by intros ?; simplify_eq.
Qed.

Lemma drained_run t es t' : SeeStreamEnd ∈ es → task_run env t es = Some t' → drained t'.
Proof.
  revert t'. induction es as [|e es IH] using rev_ind; intros t'; [by intros ?%elem_of_nil|].
  intros Hin (t1 & Hr & Hs)%task_run_snoc. apply elem_of_app in Hin as [Hin|Hin].
  - eapply drained_step; eauto.
  - apply list_elem_of_singleton in Hin as <-. by eapply stream_end_drains.
Qed.

Lemma subscribe_task s c ch callback (a : A) t s' :
  subscribe s c ch callback a = Ok (t, s') →
  t = mkTask callback ch [] false (rci_owners c =? 0)%nat Selecting a.
Proof. unfold subscribe. by repeat case_match; intros; simplify_eq. Qed.

(** A subscription hands the messages of its channel to the callback one at a
    time, in the order of arrival, none twice and none left out: what has
    arrived is what was handled, what is being handled and what waits in the
    stream.  When the task ends because the stream did, all of it was handled. *)
Theorem subscribe_in_order s c ch callback a t0 s' es t :
  subscribe s c ch callback a = Ok (t0, s') → task_run env t0 es = Some t →
  (∃ ms, to_message <$> arrived es = ms ++ in_flight (t_pc t) ++ (to_message <$> t_stream t) ∧
         handles env callback a ms (t_env t)) ∧
  (SeeStreamEnd ∈ es → handles env callback a (to_message <$> arrived es) (t_env t)).
Proof.
  intros Hsub%subscribe_task Hr. subst t0. destruct (task_run_delivery _ _ _ _ _ _ _ Hr) as (_ & ms & Heq & Hh).
  split; [by exists ms|]. intros Hin. destruct (drained_run _ _ _ Hin Hr) as (Hp & Hq & _).
  rewrite Hp, Hq, !app_nil_r in Heq. by rewrite Heq.
Qed.

(** Once the stream has closed or the last handle on the client is dropped,
    and the callback does not block, the task ends: its own steps are at most
    two per waiting message and two more, and as long as it has not ended one
    of them is possible. *)
Theorem subscription_terminates t :
  (∀ a m, t_callback t a m ≠ CbPending) → t_closed t = true ∨ t_shutdown t = true →
  (∀ es t', Forall (λ e, own e = true) es → task_run env t es = Some t' →
     (length es ≤ 2 * length (t_stream t) + 2)%nat) ∧
  (∃ es t', Forall (λ e, own e = true) es ∧ task_run env t es = Some t' ∧ ended t') ∧
  (¬ ended t → ∃ e t', own e = true ∧ task_step env t e = Some t').
Proof.
  intros Hnp Hc. split_and!.
  - intros es t' Ho Hr. pose proof (own_run_bound env t es t' Ho Hr). unfold task_measure in *.
    destruct (t_pc t); lia.
  - by apply task_eventually_ends.
  - intros Hne. destruct (task_progress env t Hc Hne) as [?|(m & _ & Hp)]; [done|].
    by destruct (Hnp (t_env t) m).
Qed.
End subscription.

(** ** [subscribe_to_channel] *)

Section channel.
Context `{RedisDriver}.

(** [mpsc::channel(100)], with what the receiver has taken from it. *)
Record Mpsc := mkMpsc { mp_received : list PubSubMessage; mp_buffer : list PubSubMessage; mp_receiver : bool }.

Definition mpsc_capacity : nat := 100.

(** [tx.send(m).await]: an error once the receiver is gone, pending while the
    buffer is full. *)
Definition mpsc_send (q : Mpsc) (m : PubSubMessage) : cb Mpsc :=
  if mp_receiver q then
    if (length (mp_buffer q) <? mpsc_capacity)%nat
    then CbReturn (mkMpsc (mp_received q) (mp_buffer q ++ [m]) true)
    else CbPending
  else CbBreak q.

(** The receiver: [recv] when a message is there, or dropping it. *)
Inductive rx_op := RxRecv | RxDrop.

Definition rx_step (q : Mpsc) (o : rx_op) : option Mpsc :=
  match o with
  | RxRecv =>
      match mp_receiver q, mp_buffer q with
      | true, m :: rest => Some (mkMpsc (mp_received q ++ [m]) rest true)
      | _, _ => None
      end
  | RxDrop => Some (mkMpsc (mp_received q) [] false)
  end.

Definition subscribe_to_channel (s : Server) (c : RedisClient) (channel : string)
    : Result (Task Mpsc * Server) RedisPubSubError :=
  subscribe s c channel mpsc_send (mkMpsc [] [] true).

Definition channel_step := task_step rx_step.
Definition channel_run := task_run rx_step.

(** [rx.recv().await] on the pair: a message, the end of the channel (the
    task, which owns the only sender, is over), or pending. *)
Inductive recv := RecvSome (m : PubSubMessage) | RecvNone | RecvPending.

Definition rx_recv (t : Task Mpsc) : recv :=
  match mp_buffer (t_env t), t_pc t with
  | m :: _, _ => RecvSome m
  | [], (Stopped _ | Panicked _) => RecvNone
  | [], _ => RecvPending
  end.

Lemma mpsc_handles q0 ms q :
  handles rx_step mpsc_send q0 ms q → q0 = mkMpsc [] [] true →
  mp_received q `prefix_of` ms ∧ (length (mp_buffer q) ≤ mpsc_capacity)%nat ∧
  (mp_receiver q = true → ms = mp_received q ++ mp_buffer q).
Proof.
  induction 1 as [a|a ms q m q' Hh IH Hcb|a ms q m q' Hh IH Hcb|a ms q o q' Hh IH Hop]; intros ->.
  - split_and!; [done|simpl; lia|done].
  - destruct (IH eq_refl) as (Hp & Hb & Heq). unfold mpsc_send in Hcb.
    destruct (mp_receiver q) eqn:Hr; [|done].
    destruct (length (mp_buffer q) <? mpsc_capacity)%nat eqn:Hc; simplify_eq/=.
    apply Nat.ltb_lt in Hc. split_and!; [by apply prefix_app_r|rewrite length_app; simpl; lia|].
    intros _. rewrite (Heq eq_refl). by rewrite <-(assoc_L (++)).
  - destruct (IH eq_refl) as (Hp & Hb & Heq). unfold mpsc_send in Hcb.
    destruct (mp_receiver q) eqn:Hr; [by destruct (_ <? _)%nat|]. simplify_eq.
    split_and!; [done|done|congruence].
  - destruct (IH eq_refl) as (Hp & Hb & Heq). destruct o; simpl in Hop.
    + destruct (mp_receiver q) eqn:Hr; [|done]. destruct (mp_buffer q) as [|m rest]; simplify_eq/=.
      rewrite (Heq eq_refl). split_and!; [|lia|intros _; by rewrite <-(assoc_L (++))].
      apply prefix_app, prefix_cons, prefix_nil.
    + simplify_eq/=. split_and!; [done|lia|done].
Qed.

Lemma channel_in_flight es t ch sh :
  channel_run (mkTask mpsc_send ch [] false sh Selecting (mkMpsc [] [] true)) es = Some t →
  mp_receiver (t_env t) = true → t_pc t ≠ Selecting → (∀ m, t_pc t ≠ Awaiting m) → t_pc t = Stopped [].
Proof.
  revert t. induction es as [|e es IH] using rev_ind; intros t; [by intros [= <-]|].
  intros (t1 & Hr & Hs)%task_run_snoc Hrx Hsel Haw. specialize (IH t1 Hr).
  destruct (task_run_delivery _ _ _ _ _ _ _ Hr) as (Hcb & _).
  destruct t1 as [cb1 ch1 q cl sh1 p st]; simpl in *; subst cb1.
  destruct e as [msg| | |l| | | | ]; simpl in Hs.
  - destruct cl; simplify_eq/=. by apply IH.
  - simplify_eq/=. by apply IH.
  - simplify_eq/=. by apply IH.
  - apply bind_Some in Hs as (q' & Hl & ?). simplify_eq/=. apply IH; [|done..].
    destruct l; simpl in Hl; [|by simplify_eq]. by destruct (mp_receiver st).
  - destruct p; try done. destruct q; simplify_eq/=. by destruct (Haw (to_message m)).
  - destruct p as [|m| |]; try done. unfold mpsc_send in Hs. destruct (mp_receiver st) eqn:Hrs.
    + destruct (length (mp_buffer st) <? mpsc_capacity)%nat; simplify_eq/=.
    + simplify_eq/=. congruence.
  - destruct p; try done. destruct q; try done. by destruct cl; simplify_eq/=.
  - destruct p; try done. by destruct sh1; simplify_eq/=.
Qed.

(** The receiver of [subscribe_to_channel] gets the messages of the channel in
    the order of arrival, at most 100 of them wait in the channel, and as long
    as the receiver is kept none is lost: the end of the channel is seen only
    after every message the task took from the stream.  Dropping the receiver
    makes the task stop at its next message instead of blocking on it. *)
Theorem channel_fifo s c ch t0 s' es t :
  subscribe_to_channel s c ch = Ok (t0, s') → channel_run t0 es = Some t →
  mp_received (t_env t) `prefix_of` (to_message <$> arrived es) ∧
  (length (mp_buffer (t_env t)) ≤ 100)%nat ∧
  (mp_receiver (t_env t) = true →
     to_message <$> arrived es =
       mp_received (t_env t) ++ mp_buffer (t_env t) ++ in_flight (t_pc t) ++ (to_message <$> t_stream t) ∧
     (rx_recv t = RecvNone → to_message <$> arrived es = mp_received (t_env t) ++ (to_message <$> t_stream t))) ∧
  (mp_receiver (t_env t) = false → ∀ m, t_pc t = Awaiting m →
     ∃ t', channel_step t RunCallback = Some t' ∧ t_pc t' = Stopped [m]).
Proof.
  intros Hsub%subscribe_task Hr. subst t0.
  destruct (task_run_delivery _ _ _ _ _ _ _ Hr) as (Hcb & ms & Heq & Hh).
  destruct (mpsc_handles _ _ _ Hh eq_refl) as (Hp & Hb & Hq). split_and!; [|done| |].
  - rewrite Heq. by apply prefix_app_r.
  - intros Hrx. assert (to_message <$> arrived es = mp_received (t_env t) ++ mp_buffer (t_env t) ++
      in_flight (t_pc t) ++ (to_message <$> t_stream t)) as Hall.
    { by rewrite Heq, (Hq Hrx), <-!(assoc_L (++)). }
    split; [done|]. rewrite Hall. unfold rx_recv. destruct (mp_buffer (t_env t)) as [|m b]; [|done].
    intros Hend. rewrite (channel_in_flight _ _ _ _ Hr Hrx); [done| |];
      [intros Hs|intros m Hs]; by rewrite Hs in Hend.
  - intros Hrx m Hm. unfold channel_step, task_step. rewrite Hm, Hcb. unfold mpsc_send. rewrite Hrx.
    by eexists.
Qed.
End channel.

(** ** The client behind the engine's interface *)

Section crate.
Context `{RedisDriver}.

(** [.map_err(|e| e.to_string())]. *)
Definition err_text {A} (r : Result A RedisPubSubError) : Result A string :=
  match r with Ok a => Ok a | Err e => Err (RedisPubSubError_display e) end.

(** A client together with the server it talks to. *)
Definition on_server (r : RedisClient * Server) (res : Result Server RedisPubSubError)
    : Result (RedisClient * Server) string :=
  match err_text res with Ok s => Ok (r.1, s) | Err e => Err e end.

#[export] Instance redis_client_crate : RedisCrate := {|
  Redis := RedisClient * Server;
  r_get r key := err_text (get_sync r.2 r.1 key);
  r_set r key value := on_server r (set_sync r.2 r.1 key value);
  r_hset r key field value := on_server r (hset_sync r.2 r.1 key field value);
  r_hdel r key field := on_server r (hdel_sync r.2 r.1 key field);
  r_hgetall r key := err_text (hgetall_sync r.2 r.1 key);
|}.

(** [RedisClient::new] as the hybrid engine and the library call it. *)
Definition redis_client_connect (s : Server) (config : RedisConfig) : Result (RedisClient * Server) string :=
  match err_text (redis_client_new s config) with Ok c => Ok (c, s) | Err e => Err e end.

Lemma with_connection_ok `{!DriverLaws} {A} s c (cmd : Connection → Result A RedisError) :
  ∃ conn, with_connection s c cmd = from_redis (cmd conn).
Proof.
  unfold with_connection, get_sync_connection. destruct (open_ok s (rci_client c)) as [conn ->]. by exists conn.
Qed.

Lemma get_sync_stable `{!DriverLaws} s s' c key :
  (∀ conn, cmd_get s' conn key = cmd_get s conn key) → get_sync s' c key = get_sync s c key.
Proof.
  intros Hg. unfold get_sync.
  destruct (with_connection_ok s c (λ conn, cmd_get s conn key)) as [conn ->].
  destruct (with_connection_ok s' c (λ conn, cmd_get s' conn key)) as [conn' ->].
  by rewrite Hg, (get_conn s conn' conn).
Qed.

(** Over a reachable server the client's commands keep the promises the engine
    cache relies on: a stored string is read back, over whichever connection,
    and the hash commands leave the string keys alone. *)
#[export] Instance redis_client_laws `{!DriverLaws} : RedisLaws.
Proof.
  split.
  - intros [c s] k v; simpl. unfold set_sync.
    destruct (with_connection_ok s c (λ conn, cmd_set s conn k v)) as [conn ->].
    destruct (set_get s conn k v) as (s' & -> & Hg). exists (c, s'). split; [done|]. unfold get_sync; simpl.
    destruct (with_connection_ok s' c (λ conn, cmd_get s' conn k)) as [conn' ->]. by rewrite Hg.
  - intros [c s] k f v r' k'; simpl. unfold hset_sync, on_server.
    destruct (with_connection_ok s c (λ conn, cmd_hset s conn k f v)) as [conn ->].
    destruct (cmd_hset s conn k f v) as [[n s']|] eqn:Hs; simpl; intros; simplify_eq/=.
    simpl. rewrite (get_sync_stable s s'); [done|]. intros conn'. by eapply hset_get.
  - intros [c s] k f r' k'; simpl. unfold hdel_sync, on_server.
    destruct (with_connection_ok s c (λ conn, cmd_hdel s conn k f)) as [conn ->].
    destruct (cmd_hdel s conn k f) as [[n s']|] eqn:Hs; simpl; intros; simplify_eq/=.
    simpl. rewrite (get_sync_stable s s'); [done|]. intros conn'. by eapply hdel_get.
Qed.
End crate.

(** ** Synchronization of the data plane *)

Section sync.
Context `{IpNetworkCrate} `{DashMapCrate} `{TargetBuild} `{RedisDriver} `{!TextForms}.
Context `{JsonValues} `{!UpdateForms} `{!HybridEnv}.

(** [subscribe_engine_updates]: the callback decodes the payload; what does
    not decode is handed on as [Clear]. *)
Definition subscribe_engine_updates {A} (s : Server) (c : RedisClient) (channel : string)
    (on_update : A → RedisCacheUpdate → cb A) (a : A) : Result (Task A * Server) RedisPubSubError :=
  subscribe s c channel (λ a m, on_update a (decode_update (ps_payload m))) a.

(** The handler of [start_sync] works on the data plane of the shared engine. *)
Definition sync_handler (st : HybridEngine * Heap) (u : RedisCacheUpdate) : cb (HybridEngine * Heap) :=
  match apply_update (data_plane st.1) u st.2 with
  | Some (dp, h) => CbReturn (set_data st.1 dp, h)
  | None => CbPanic
  end.

(** The block that [start_sync] spawns, from the state it finds when it runs;
    an error is printed and the synchronization never starts. *)
Definition sync_task (r : RedisClient * Server) (e : HybridEngine) (h : Heap)
    : option (Task (HybridEngine * Heap)) :=
  match subscribe_engine_updates r.2 r.1 (hy_channel e) sync_handler (e, h) with
  | Ok (t, _) => Some t
  | Err _ => None
  end.

(** [start_sync] answers before the subscription is made. *)
Definition start_sync (e : HybridEngine) (h : Heap)
    : Result unit string * option (option (Task (HybridEngine * Heap))) :=
  (Ok tt, (λ r, sync_task r e h) <$> hy_redis e).

(** The callers of the shared engine. *)
Definition caller_step (st : HybridEngine * Heap) (o : op) : option (HybridEngine * Heap) :=
  match engine_op st.1 o st.2 with
  | Some ((_, e), h) => Some (e, h)
  | None => None
  end.

(** The world of the hybrid engine that a subscription task stands for: the
    messages under way are the one being handled and the ones waiting. *)
Definition task_world (t : Task (HybridEngine * Heap)) : World :=
  mkWorld (t_env t).1 (t_env t).2
    (ps_payload <$> in_flight (t_pc t) ++ (to_message <$> t_stream t)).

Definition is_sync (t : Task (HybridEngine * Heap)) : Prop :=
  t_callback t = (λ st m, sync_handler st (decode_update (ps_payload m))) ∧
  (∀ lost, t_pc t = Stopped lost → lost = []).

(** What an event of the task is for the hybrid engine. *)
Inductive abstracts : ev op → list event → Prop :=
  | abs_arrive msg : abstracts (Arrive msg) [Foreign (ps_payload (to_message msg))]
  | abs_env o r : abstracts (Env o) [Call o r]
  | abs_deliver payload : abstracts RunCallback [Deliver payload]
  | abs_silent e : match e with Arrive _ | Env _ => False | _ => True end → abstracts e [].

Lemma sync_task_init r e h t : sync_task r e h = Some t → is_sync t ∧ task_world t = mkWorld e h [].
Proof.
  unfold sync_task, subscribe_engine_updates.
  destruct (subscribe _ _ _ _ _) as [[t0 s]|] eqn:Hs; intros; simplify_eq.
  apply subscribe_task in Hs as ->. done.
Qed.

Lemma sync_step t e t' :
  is_sync t → task_step caller_step t e = Some t' →
  is_sync t' ∧ ∃ evs, abstracts e evs ∧ hybrid_steps (task_world t) evs (task_world t').
Proof.
  destruct t as [callback ch q cl sh p [eng h]]. intros [Hcb Hst]; simpl in *; subst callback.
  destruct e as [msg| | |o| | | | ]; simpl; intros Hs.
  - destruct cl; simplify_eq/=. split; [done|]. eexists; split; [constructor|].
    eapply hs_more; [|constructor]. unfold task_world; simpl.
    rewrite !fmap_app, !(assoc_L (++)). apply hs_foreign.
  - simplify_eq/=. split; [done|]. eexists; split; [by apply abs_silent|constructor].
  - simplify_eq/=. split; [done|]. eexists; split; [by apply abs_silent|constructor].
  - apply bind_Some in Hs as (st' & Hc & ?). simplify_eq/=. split; [done|]. unfold caller_step in Hc; simpl in Hc.
    destruct (engine_op eng o h) as [[[r e'] h']|] eqn:Ho; simplify_eq/=.
    eexists; split; [apply (abs_env o r)|]. eapply hs_more; [|constructor]. by apply hs_call.
  - destruct p; try done. destruct q as [|msg q]; simplify_eq/=. split; [done|].
    eexists; split; [by apply abs_silent|constructor].
  - destruct p as [|m| |]; try done. unfold sync_handler in Hs; simpl in Hs.
    destruct (apply_update _ _ _) as [[dp h']|] eqn:Ha; simplify_eq/=; (split; [done|]).
    + eexists; split; [apply (abs_deliver (ps_payload m))|]. eapply hs_more; [|constructor]. by apply hs_deliver.
    + eexists; split; [by apply abs_silent|constructor].
  - destruct p; try done. destruct q; try done. destruct cl; simplify_eq/=.
    split; [split; [done|by intros ? [= <-]]|]. eexists; split; [by apply abs_silent|constructor].
  - destruct p; try done. destruct sh; simplify_eq/=.
    split; [split; [done|by intros ? [= <-]]|]. eexists; split; [by apply abs_silent|constructor].
Qed.

Lemma hybrid_steps_app w evs w1 evs' w2 :
  hybrid_steps w evs w1 → hybrid_steps w1 evs' w2 → hybrid_steps w (evs ++ evs') w2.
Proof. induction 1; simpl; [done|]. intros. econstructor; eauto. Qed.

(** C12: the synchronization task of the hybrid engine refines its abstract
    transition system: every run of the task, with callers of the engine in
    between, is a run of [hybrid_step] in which each message is one delivery,
    so whatever holds of all runs of that system holds of the running task. *)
Theorem sync_task_refines r e h t0 es t :
  sync_task r e h = Some t0 → task_run caller_step t0 es = Some t →
  ∃ evss, Forall2 abstracts es evss ∧ hybrid_steps (mkWorld e h []) (concat evss) (task_world t).
Proof.
  intros [Hi Hw]%sync_task_init. rewrite <-Hw. clear Hw. revert t0 Hi. induction es as [|ev es IH]; intros t0 Hi; simpl.
  - intros [= ->]. exists []. split; constructor.
  - intros (t1 & Hs & Hr)%bind_Some. destruct (sync_step _ _ _ Hi Hs) as (Hi1 & evs & Ha & Hh).
    destruct (IH t1 Hi1 Hr) as (evss & Hall & Hrest). exists (evs :: evss).
    split; [by constructor|]. simpl. by eapply hybrid_steps_app.
Qed.
End sync.

(** ** Updates from publisher to subscriber *)

Section roundtrip.
Context `{IpNetworkCrate} `{RedisDriver} `{JsonValues} `{!UpdateForms} {A : Type}.
Variable on_update : A → RedisCacheUpdate → A.

(** [publish_insert], [publish_remove] and [publish_clear] by the update. *)
Definition publish_update (s : Server) (c : RedisClient) (channel : string) (u : RedisCacheUpdate)
    : Result Server RedisPubSubError :=
  match u with
  | UInsert prefix metadata => publish_insert s c channel prefix metadata
  | URemove prefix => publish_remove s c channel prefix
  | UClear => publish_clear s c channel
  end.

Abbreviation update_callback := (λ a m, CbReturn (on_update a (decode_update (ps_payload m)))).

Lemma handles_fold (env : A → Empty_set → option A) a ms a' :
  handles env update_callback a ms a' →
  a' = foldl on_update a (decode_update ∘ ps_payload <$> ms).
Proof.
  induction 1 as [a|a ms a1 m a2 _ IH Hcb|a ms a1 m a2 _ IH Hcb|a ms a1 [] ]; simplify_eq/=; [done|].
  by rewrite fmap_app, foldl_app.
Qed.

Lemma decode_published `{!UpdateLaws} u msg json :
  of_metadata u → update_to_json u = Ok json → get_payload msg = Ok json →
  decode_update (ps_payload (to_message msg)) = u.
Proof.
  intros Hu Hj Hp. unfold to_message, decode_update; simpl. rewrite Hp.
  destruct (update_roundtrip u Hu) as (json' & Hj' & Hd). rewrite Hj in Hj'. injection Hj' as <-. by rewrite Hd.
Qed.

(** C33: updates about metadata (inserts whose value is the JSON value of some
    metadata, removals and clears) that are published on a channel reach the
    subscriber's callback as they were, in order: each of them serializes, so
    publishing it is one PUBLISH of its JSON form, and when messages with these payloads have
    arrived and the stream has ended, the callback was called with exactly
    the published updates. *)
Theorem updates_roundtrip `{!UpdateLaws} (env : A → Empty_set → option A) s c ch a t0 s' us es t :
  subscribe_engine_updates s c ch (λ a u, CbReturn (on_update a u)) a = Ok (t0, s') →
  task_run env t0 es = Some t → SeeStreamEnd ∈ es →
  Forall of_metadata us →
  Forall2 (λ u msg, ∃ json, update_to_json u = Ok json ∧ get_payload msg = Ok json) us (arrived es) →
  t_env t = foldl on_update a us ∧
  ∀ u, of_metadata u → ∃ json, update_to_json u = Ok json ∧ publish_update s c ch u = publish s c ch json.
Proof.
  intros Hsub Hr Hin Hmeta Hall. split.
  - unfold subscribe_engine_updates in Hsub. apply subscribe_task in Hsub. subst t0.
    destruct (task_run_delivery _ _ _ _ _ _ _ Hr) as (_ & ms & Heq & Hh).
    destruct (drained_run _ _ _ _ Hin Hr) as (Hp & Hq & _). rewrite Hp, Hq, !app_nil_r in Heq.
    rewrite (handles_fold _ _ _ _ Hh), <-Heq, <-list_fmap_compose. f_equal.
    clear Heq Hh Hr Hin Hp Hq. induction Hall as [|u msg us msgs (json & Hj & Hp) _ IH]; [done|].
    apply Forall_cons in Hmeta as [Hu Hmeta]. rewrite fmap_cons, IH by done. f_equal. by apply (decode_published _ _ json).
  - intros u Hu. destruct (update_roundtrip u Hu) as (json & Hj & _). exists json. split; [done|].
    by destruct u; simpl; unfold publish_insert, publish_remove, publish_clear, publish_json; rewrite Hj.
Qed.
End roundtrip.
