(* ===== verification/Library.v ===== *)
(** * The entry points of the engine crate (engine/src/lib.rs)

    [radixip::new] turns a configuration into a boxed engine: split planes, a
    cached wrapper or the bare wrapper.  The theorems compose the results of
    the trees, the engines, the cache and the planes. *)

From S2P Require Import Prelude Addr Lpm DashMap Node Heap RouteTree Trie Patricia Engine Engines Cache.
From S2P Require Import Simd ArtNode ArtTree ArtLookup ArtEngine Wrapper Hybrid.

Local Open Scope Z_scope.

Section library.
Context `{IpNetworkCrate} `{DashMapCrate} `{TargetBuild} `{HashOrder} `{RedisCrate} `{!TextForms}.
Context `{JsonValues} `{!UpdateForms} `{!HybridEnv}.

(** [Box<dyn RadixEngine>]: the three types [new] puts in the box. *)
Inductive BoxedEngine :=
  | BHybrid (e : HybridEngine)
  | BCached (e : CachedEngine EngineWrapper)
  | BPlain (e : EngineWrapper).

(** [radixip::new]; [expect] panics. *)
Definition library_new (host : Host) (config : RadixConfig) : M BoxedEngine :=
  if enable_split_plane config then
    r ← hybrid_new host config;
    match r with Ok e => mret (BHybrid e) | Err _ => panic end
  else
    engine ← wrapper_new host (engine_variant config) (node_variant config) (read_compressed config)
               (num_shards config);
    if cache_enabled config then
      let cache_config := mkCacheConfig (cache_max_entries config) (cache_ttl_seconds config) in
      redis ← match (if redis_feature then cfg_redis config else None) with
              | Some rc => match redis_connect rc with Ok r => mret (Some r) | Err _ => panic end
              | None => mret None
              end;
      c ← cached_new engine cache_config redis;
      mret (BCached c)
    else mret (BPlain engine).

Definition new_high_performance (host : Host) : M BoxedEngine := library_new host high_performance.
Definition new_memory_efficient (host : Host) : M BoxedEngine := library_new host memory_efficient.
Definition new_balanced (host : Host) : M BoxedEngine := library_new host balanced.

(** The virtual calls through the box. *)
#[export] Instance BoxedEngine_RadixEngine : RadixEngine BoxedEngine := {|
  re_insert b p md :=
    match b with
    | BHybrid e => '(r, e') ← re_insert e p md; mret (r, BHybrid e')
    | BCached e => '(r, e') ← re_insert e p md; mret (r, BCached e')
    | BPlain e => '(r, e') ← re_insert e p md; mret (r, BPlain e')
    end;
  re_lookup b ip :=
    match b with
    | BHybrid e => '(r, e') ← re_lookup e ip; mret (r, BHybrid e')
    | BCached e => '(r, e') ← re_lookup e ip; mret (r, BCached e')
    | BPlain e => '(r, e') ← re_lookup e ip; mret (r, BPlain e')
    end;
  re_remove b p :=
    match b with
    | BHybrid e => '(r, e') ← re_remove e p; mret (r, BHybrid e')
    | BCached e => '(r, e') ← re_remove e p; mret (r, BCached e')
    | BPlain e => '(r, e') ← re_remove e p; mret (r, BPlain e')
    end;
  re_contains b p :=
    match b with BHybrid e => re_contains e p | BCached e => re_contains e p | BPlain e => re_contains e p end;
  re_clear b :=
    match b with
    | BHybrid e => e' ← re_clear e; mret (BHybrid e')
    | BCached e => e' ← re_clear e; mret (BCached e')
    | BPlain e => e' ← re_clear e; mret (BPlain e')
    end;
  re_size b := match b with BHybrid e => re_size e | BCached e => re_size e | BPlain e => re_size e end;
  re_stats b := match b with BHybrid e => re_stats e | BCached e => re_stats e | BPlain e => re_stats e end;
|}.

#[export] Instance dispatches_hybrid : Dispatches BHybrid.
Proof. split; intros; cbn [re_insert re_lookup re_remove re_contains re_clear re_size BoxedEngine_RadixEngine]; reflexivity. Qed.
#[export] Instance dispatches_cached : Dispatches BCached.
Proof. split; intros; cbn [re_insert re_lookup re_remove re_contains re_clear re_size BoxedEngine_RadixEngine]; reflexivity. Qed.
#[export] Instance dispatches_plain : Dispatches BPlain.
Proof. split; intros; cbn [re_insert re_lookup re_remove re_contains re_clear re_size BoxedEngine_RadixEngine]; reflexivity. Qed.
End library.

(** ** What the configured engine answers *)

Section theorems.
Context `{IpNetworkLaws} `{DashMapLaws} `{TargetBuild} `{HashOrder} `{RedisCrate} `{!TextForms}.
Context `{JsonValues} `{!UpdateForms} `{!HybridEnv}.

(** C4: in a build with the [redis] feature, every engine [new] can make over
    uncompressed trees, other than ART and without a Redis configuration
    (split planes or not, cached or not, any engine variant,
    node representation, shard count and machine), answers every sequence of
    calls as the plain engine, whose lookups are the reference matcher; with
    the cache, for prefixes of one address family. *)
Theorem library_engine_lpm host config fam os :
  engine_variant config ≠ ART → write_compressed config = false → read_compressed config = false →
  redis_feature = true → cfg_redis config = None →
  (enable_split_plane config = false → cache_enabled config = true → Forall (op_family fam) os) →
  session (library_new host config) os = session (uncompressed_standard NormalTrieNode_v) os.
Proof.
  intros Hv Hw Hr Hf Hn Hfam.
  destruct (standard_uncompressed_session NormalTrieNode_v os) as (rs' & m' & n' & R2 & S2). rewrite R2.
  cut (∃ rs m n, session (library_new host config) os = Some (rs, n) ∧
    engine_steps net_bits lpm_answers keep_default (∅, 0) os rs (m, n)).
  { intros (rs & m & n & R1 & S1). by destruct (lpm_steps_det _ _ _ _ _ _ S1 S2) as [<- [= _ <-]]. }
  unfold library_new. destruct (enable_split_plane config).
  - destruct (hybrid_new_local host config empty_heap Hv Hw Hr Hf Hn heap_wf_empty) as (e & h & F & R & Hrep).
    rewrite (dispatch_session BHybrid (λ _, Some (e, h))).
    + by apply (lpm_session _ e h F).
    + by rewrite (bind_run _ _ _ _ _ R).
  - destruct (wrapper_new_uncompressed host _ (node_variant config) (num_shards config) empty_heap Hv
      heap_wf_empty) as (w & h & F & R & Hrep & _). rewrite Hr, Hf, Hn.
    destruct (cache_enabled config).
    + set (cfg := mkCacheConfig _ _).
      rewrite (dispatch_session BCached (λ _, Some (mkCached w (mkRadixCache ∅ cfg None), h))).
      * by apply (cached_session fam _ w cfg h F); [..|apply Hfam].
      * by rewrite (bind_run _ _ _ _ _ R).
    + rewrite (dispatch_session BPlain (λ _, Some (w, h))).
      * by apply (lpm_session _ w h F).
      * by rewrite (bind_run _ _ _ _ _ R).
Qed.
End theorems.

(** ** The presets *)

Section presets.
Context `{IpNetworkLaws} `{DashMapLaws} `{TargetBuild} `{HashOrder} `{RedisCrate} `{!TextForms}.
Context `{JsonValues} `{!UpdateForms} `{!HybridEnv}.
Implicit Types (h : Heap) (w : EngineWrapper).

(** An empty cache in front of an engine stays empty under inserts, and its
    first lookup asks the engine. *)
Lemma fresh_cache_insert w cfg p md h w' h' :
  re_insert w p md h = Some ((Ok tt, w'), h') →
  engine_op (mkCached w (mkRadixCache ∅ cfg None)) (OpInsert p md) h =
  Some ((RDone (Ok tt), mkCached w' (mkRadixCache ∅ cfg None)), h').
Proof.
  intros R. cbn [engine_op re_insert CachedEngine_RadixEngine]. unfold cached_insert.
  rewrite bind_bind, (bind_run _ _ _ _ _ R). unfold mret, M_ret, invalidate. cbn [mbind M_bind].
  unfold set_redis, persist. cbn [ce_cache rc_cache rc_config rc_redis]. by rewrite map_filter_empty.
Qed.

Lemma fresh_cache_lookup w cfg ip h r w' :
  re_lookup w ip h = Some ((r, w'), h) →
  ∃ c, engine_op (mkCached w (mkRadixCache ∅ cfg None)) (OpLookup ip) h =
    Some ((RMeta r, mkCached w' c), h).
Proof.
  intros R. cbn [engine_op re_lookup CachedEngine_RadixEngine]. unfold cached_lookup, lookup_with_cache.
  cbn [ce_cache ce_inner rc_cache]. rewrite lookup_empty, !bind_bind, (bind_run _ _ _ _ _ R).
  cbn beta iota zeta. cbn [rc_redis].
  assert ((if is_none r then redis_lookup None ip else r) = r) as -> by (by destruct r).
  eexists. done.
Qed.

(** The engine of every preset sits on a compressed tree: of two IPv4 prefixes of
    the same length only the second is kept.  Both inserts succeed, the size is 1, and no
    address of the first prefix is answered with its metadata. *)
Theorem presets_lose_ipv4 host config (n1 n2 : Ipv4Network) md1 md2 ip :
  config ∈ [RadixConfig_default; high_performance; memory_efficient; balanced] →
  net_prefix (NetV4 n1) = net_prefix (NetV4 n2) → md1 ≠ md2 →
  ∃ r, session (library_new host config) [OpInsert (NetV4 n1) md1; OpInsert (NetV4 n2) md2; OpLookup ip] =
    Some ([RDone (Ok tt); RDone (Ok tt); RMeta r], 1) ∧ r ≠ Some md1.
Proof.
  intros Hcfg Hlen Hmd.
  assert (pkey (NetV4 n2) = pkey (NetV4 n1)) as Hkey by (rewrite !pkey_v4; unfold net_len; by rewrite Hlen).
  assert (engine_variant config ≠ ART ∧ read_compressed config = true ∧ enable_split_plane config = false ∧
    cfg_redis config = None) as (Hv & Hr & Hsp & Hn) by (by repeat (apply elem_of_cons in Hcfg as [->|Hcfg]; [done|]);
    apply elem_of_nil in Hcfg).
  destruct (wrapper_new_compressed host _ (node_variant config) (num_shards config) empty_heap Hv heap_wf_empty)
    as (w0 & h0 & F0 & R0 & Hrep0 & _).
  destruct (@re_insert_spec _ _ _ _ wrapper_compressed_laws h0 w0 ∅ 0 F0 (NetV4 n1) md1 Hrep0) as (w1 & h1 & F1 & R1 & Hrep1 & _).
  destruct (@re_insert_spec _ _ _ _ wrapper_compressed_laws h1 w1 _ _ F1 (NetV4 n2) md2 Hrep1) as (w2 & h2 & F2 & R2 & Hrep2 & _).
  destruct (@re_lookup_spec _ _ _ _ wrapper_compressed_laws h2 w2 _ _ F2 ip Hrep2) as (r & w3 & R3 & Hrep3 & Ha).
  pose proof (@re_size_spec _ _ _ _ wrapper_compressed_laws _ _ _ _ _ Hrep3) as Hsize.
  change (@re_key _ _ _ _ wrapper_compressed_laws) with pkey in *.
  change (@re_answers _ _ _ _ wrapper_compressed_laws) with sound_answer in Ha.
  rewrite Hkey in *. rewrite lookup_insert_eq in Hsize. cbn [is_none is_some negb] in Hsize.
  exists r. split.
  - unfold library_new. rewrite Hsp, Hr, Hn. set (cfg := mkCacheConfig _ _).
    replace (if redis_feature then None else None) with (@None RedisConfig) by (by destruct redis_feature).
    destruct (cache_enabled config).
    + rewrite (dispatch_session BCached (λ _, Some (mkCached w0 (mkRadixCache ∅ cfg None), h0)))
        by (by rewrite (bind_run _ _ _ _ _ R0)).
      destruct (fresh_cache_lookup w2 cfg ip h2 r w3 R3) as [c Rc]. unfold session. cbn [mbind option_bind].
      erewrite engine_ops_cons; [|by apply fresh_cache_insert, R1|].
      2: { eapply engine_ops_cons; [by apply fresh_cache_insert, R2|].
           eapply engine_ops_cons; [exact Rc|done]. }
      cbn [mbind option_bind]. do 2 f_equal. exact Hsize.
    + rewrite (dispatch_session BPlain (λ _, Some (w0, h0))) by (by rewrite (bind_run _ _ _ _ _ R0)).
      unfold session. cbn [mbind option_bind].
      erewrite engine_ops_cons; [|cbn [engine_op]; by rewrite (bind_run _ _ _ _ _ R1)|].
      2: { eapply engine_ops_cons; [cbn [engine_op]; by rewrite (bind_run _ _ _ _ _ R2)|].
           eapply engine_ops_cons; [cbn [engine_op]; by rewrite (bind_run _ _ _ _ _ R3)|done]. }
      cbn [mbind option_bind]. do 2 f_equal. exact Hsize.
  - intros ->. destruct (Ha md1 eq_refl) as (k & p & _ & Hk). rewrite insert_insert_eq in Hk.
    apply lookup_insert_Some in Hk as [[_ [= _ ?]]|[_ Hk]]; [done|]. by rewrite lookup_empty in Hk.
Qed.
End presets.
