(* ===== verification/Boxed.v ===== *)
(** * The engines that the bindings hold (engine/src/lib.rs, [new])

    [Box<dyn RadixEngine>] as [radixip::new] fills it without split planes: a
    wrapper over one of the trees, with the lookup cache in front of it or
    not.  What a caller of the box may rely on in either case: updates, [contains] and
    the size are those of a routing table, and every metadata that is ever
    answered was given to an insert before.  What the lookups answer beyond
    that is the tree's contract without the cache, and with the cache depends
    on what is still cached. *)

From S2P Require Import Prelude Addr Lpm DashMap Node Heap RouteTree Trie Patricia Engine Engines Cache.
From S2P Require Import Simd ArtNode ArtTree ArtLookup ArtEngine Wrapper Hybrid Library.

Local Open Scope Z_scope.

Section boxed.
Context `{IpNetworkLaws} `{DashMapLaws} `{TargetBuild} `{HashOrder} `{RedisCrate} `{!TextForms}.
Implicit Types (m : table) (h : Heap) (n : Z) (F : gset loc) (known : list Metadata).

(** The metadata that has been inserted so far. *)
Definition knows known (o : op) : list Metadata :=
  match o with OpInsert _ md => md :: known | _ => known end.

(** Every answered metadata was given to an insert before. *)
Fixpoint from_inserts known (os : list op) (rs : list res) : Prop :=
  match os, rs with
  | [], [] => True
  | o :: os, r :: rs => (∀ md, r = RMeta (Some md) → md ∈ known) ∧ from_inserts (knows known o) os rs
  | _, _ => False
  end.

Definition told known m : Prop := ∀ k p md, m !! k = Some (p, md) → md ∈ known.

(** An engine answers with what its table holds, and [clear] adds nothing. *)
Class Grounded (E : Type) `{!RadixEngine E} `{!RadixEngineLaws E} : Prop := {
  grounded m ip md : re_answers m ip (Some md) → ∃ k p, m !! k = Some (p, md);
  grounded_clear m : re_cleared m ⊆ m;
}.

(** The same machine by other names, with weaker answers. *)
Lemma engine_step_weaken (key key' : IpNetwork → list bool) (a b : table → IpAddr → option Metadata → Prop)
    (cl cl' : table → table) s o r s' :
  (∀ p, key p = key' p) → (∀ m ip r, a m ip r → b m ip r) → (∀ m, cl m = cl' m) →
  engine_step key a cl s o r s' → engine_step key' b cl' s o r s'.
Proof. intros Hk Hab Hcl []; rewrite ?Hk, ?Hcl; constructor; auto. Qed.

Lemma engine_steps_weaken (key key' : IpNetwork → list bool) (a b : table → IpAddr → option Metadata → Prop)
    (cl cl' : table → table) s os rs s' :
  (∀ p, key p = key' p) → (∀ m ip r, a m ip r → b m ip r) → (∀ m, cl m = cl' m) →
  engine_steps key a cl s os rs s' → engine_steps key' b cl' s os rs s'.
Proof. intros Hk Hab Hcl. induction 1; econstructor; eauto using engine_step_weaken. Qed.

Section any_engine.
Context {E : Type} `{!RadixEngine E} `{!RadixEngineLaws E} `{!Grounded E}.
Implicit Types (c : CachedEngine E).

Lemma told_insert known m p md : told known m → told (md :: known) (<[re_key p := (p, md)]> m).
Proof. intros Hm k q md' [[_ [= _ ->]]|[_ Hk]]%lookup_insert_Some; [left|right; by eapply Hm]. Qed.

Lemma told_sub known m m' : m' ⊆ m → told known m → told known m'.
Proof. intros Hs Hm k p md Hk. eapply Hm, lookup_weaken; eauto. Qed.

(** A step of the routing table keeps what is known. *)
Lemma told_step (answers : table → IpAddr → option Metadata → Prop) known m n o r m' n' :
  told known m → engine_step re_key answers re_cleared (m, n) o r (m', n') →
  (∀ ip md, o = OpLookup ip → r = RMeta (Some md) → md ∈ known) →
  told (knows known o) m' ∧ ∀ md, r = RMeta (Some md) → md ∈ known.
Proof.
  intros Hm Hs Hl. inversion Hs; subst; simpl.
  - split; [by apply told_insert|done].
  - split; [done|]. intros md Hr. by eapply Hl.
  - split; [by eapply told_sub; [apply delete_subseteq|]|]. intros md [= Hr].
    apply fmap_Some in Hr as ([q md'] & Hk & ->). by eapply Hm.
  - done.
  - split; [|done]. eapply told_sub; [apply grounded_clear|done].
Qed.

Lemma plain_ops_told os : ∀ known h (e : E) m n F,
  re_rep h e m n F → told known m →
  ∃ rs e' h' m', engine_ops e os h = Some ((rs, e'), h') ∧
    engine_steps re_key re_answers re_cleared (m, n) os rs (m', re_size e') ∧ from_inserts known os rs.
Proof.
  induction os as [|o os IH]; intros known h e m n F Hr Hm; cbn [engine_ops].
  { pose proof (re_size_spec _ _ _ _ _ Hr) as <-. exists [], e, h, m. split; [done|]. split; [constructor|done]. }
  destruct (engine_op_refines h e m n F o Hr) as (r & e1 & h1 & m1 & n1 & F1 & R1 & Hr1 & _ & S1).
  destruct (told_step _ known _ _ _ _ _ _ Hm S1) as [Hm1 Ha].
  { intros ip md -> ->. inversion S1; subst. edestruct grounded as (k & p & Hk); [eassumption|]. by eapply Hm. }
  destruct (IH (knows known o) h1 e1 m1 n1 F1 Hr1 Hm1) as (rs & e2 & h2 & m2 & R2 & S2 & Hf).
  rewrite (bind_run _ _ _ _ _ R1). cbn beta iota. rewrite (bind_run _ _ _ _ _ R2).
  exists (r :: rs), e2, h2, m2. split; [done|]. split; [by econstructor|by split].
Qed.

(** The cache holds only what an insert has told. *)
Definition cached_told known c : Prop :=
  rc_redis (ce_cache c) = None ∧ ∀ ip md, rc_cache (ce_cache c) !! ip = Some (Some md) → md ∈ known.

Definition any_answer : table → IpAddr → option Metadata → Prop := λ _ _ _, True.

Lemma cached_told_more known c o : cached_told known c → cached_told (knows known o) c.
Proof. intros [Hr Hc]. split; [done|]. intros ip md Hl. destruct o; simpl; eauto using list_elem_of_further. Qed.

Lemma invalidate_told known e' c p :
  cached_told known c → cached_told known (mkCached e' (invalidate (set_redis (ce_cache c) None) p)).
Proof. intros [Hr Hc]. split; [done|]. intros ip md [Hl _]%map_lookup_filter_Some. by eapply Hc. Qed.

Lemma cached_lookup_told known h c m n F ip :
  re_rep h (ce_inner c) m n F → told known m → cached_told known c →
  ∃ r c', cached_lookup c ip h = Some ((r, c'), h) ∧ re_rep h (ce_inner c') m n F ∧ cached_told known c' ∧
    ∀ md, r = Some md → md ∈ known.
Proof.
  intros Hr Hm [Hred Hc]. unfold cached_lookup, lookup_with_cache.
  destruct (rc_cache (ce_cache c) !! ip) as [r|] eqn:Hl.
  { exists r, c. split; [by destruct c|]. split_and!; [done|done|]. intros md ->. by eapply Hc. }
  destruct (re_lookup_spec h _ m n F ip Hr) as (r & e' & R & Hr' & Ha).
  rewrite !bind_bind, (bind_run _ _ _ _ _ R). cbn beta iota zeta. rewrite Hred.
  assert ((if is_none r then redis_lookup None ip else r) = r) as -> by (by destruct r).
  assert (∀ md, r = Some md → md ∈ known) as Hk.
  { intros md ->. destruct (grounded m ip md Ha) as (k & p & Hk). by eapply Hm. }
  eexists r, _. split; [done|]. split_and!; [done| |done]. split; [done|]. intros ip' md. simpl.
  rewrite lookup_insert. case_decide; [intros [= ->]; by apply Hk|]. intros Hl'. eapply Hc, lookup_weaken; [exact Hl'|].
  apply evict_subseteq.
Qed.

Lemma cached_op_told known h c m n F o :
  re_rep h (ce_inner c) m n F → told known m → cached_told known c →
  ∃ r c' h' m' n' F', engine_op c o h = Some ((r, c'), h') ∧ re_rep h' (ce_inner c') m' n' F' ∧
    cached_told (knows known o) c' ∧ engine_step re_key any_answer re_cleared (m, n) o r (m', n') ∧
    ∀ ip md, o = OpLookup ip → r = RMeta (Some md) → md ∈ known.
Proof.
  intros Hr Hm Hc. pose proof (cached_told_more known c o Hc) as Hc'. destruct o as [p md|ip|p|p|];
    cbn [engine_op re_insert re_lookup re_remove re_contains re_clear CachedEngine_RadixEngine].
  - destruct (re_insert_spec h _ m n F p md Hr) as (e' & h' & F' & R & Hr' & _).
    unfold cached_insert. rewrite bind_bind, (bind_run _ _ _ _ _ R).
    eexists _, _, h', _, _, F'. split; [done|]. split; [exact Hr'|]. split; [|split; [constructor|done]].
    rewrite (proj1 Hc). by apply invalidate_told.
  - destruct (cached_lookup_told known h c m n F ip Hr Hm Hc) as (r & c' & R & Hr' & Hct & Hk).
    rewrite (bind_run _ _ _ _ _ R). eexists _, c', h, m, n, F. split; [done|]. split; [done|].
    split; [done|]. split; [by constructor|]. intros ip' md _ [= ->]. by apply Hk.
  - destruct (re_remove_spec h _ m n F p Hr) as (e' & h' & F' & R & Hr' & _).
    unfold cached_remove. rewrite bind_bind, (bind_run _ _ _ _ _ R).
    eexists _, _, h', _, _, F'. split; [done|]. split; [exact Hr'|]. split; [|split; [constructor|done]].
    rewrite (proj1 Hc). by apply invalidate_told.
  - unfold cached_contains. rewrite (bind_run _ _ _ _ _ (re_contains_spec h _ m n F p Hr)).
    eexists _, c, h, m, n, F. split; [done|]. split; [done|]. split; [done|]. split; [constructor|done].
  - destruct (re_clear_spec h _ m n F Hr) as (e' & h' & F' & R & Hr' & _).
    unfold cached_clear. rewrite bind_bind, (bind_run _ _ _ _ _ R).
    eexists _, _, h', _, _, F'. split; [done|]. split; [exact Hr'|]. split; [|split; [constructor|done]].
    split; [apply Hc|]. intros ip md. simpl. by rewrite lookup_empty.
Qed.

Lemma cached_ops_told os : ∀ known h c m n F,
  re_rep h (ce_inner c) m n F → told known m → cached_told known c →
  ∃ rs c' h' m', engine_ops c os h = Some ((rs, c'), h') ∧
    engine_steps re_key any_answer re_cleared (m, n) os rs (m', re_size c') ∧ from_inserts known os rs.
Proof.
  induction os as [|o os IH]; intros known h c m n F Hr Hm Hc; cbn [engine_ops].
  { pose proof (re_size_spec _ _ _ _ _ Hr) as <-. exists [], c, h, m. split; [done|]. split; [constructor|done]. }
  destruct (cached_op_told known h c m n F o Hr Hm Hc) as (r & c1 & h1 & m1 & n1 & F1 & R1 & Hr1 & Hc1 & S1 & Hl).
  destruct (told_step _ known _ _ _ _ _ _ Hm S1 Hl) as [Hm1 Ha].
  destruct (IH (knows known o) h1 c1 m1 n1 F1 Hr1 Hm1 Hc1) as (rs & c2 & h2 & m2 & R2 & S2 & Hf).
  rewrite (bind_run _ _ _ _ _ R1). cbn beta iota. rewrite (bind_run _ _ _ _ _ R2).
  exists (r :: rs), c2, h2, m2. split; [done|]. split; [by econstructor|by split].
Qed.
End any_engine.

(** ** The two wrappers *)

#[export] Instance grounded_uncompressed : @Grounded EngineWrapper _ wrapper_uncompressed_laws.
Proof.
  split.
  - intros m ip md Ha. change (Some md = LPM_lookup (entries m) ip) in Ha.
    unfold LPM_lookup, longest_prefix_match_entries in Ha. pose proof (lpm_fold_best (entries m) ip) as Hb.
    destruct (foldl _ _ (entries m)) as [[p md']|]; [|done]. injection Ha as ->.
    destruct Hb as [[k Hk]%elem_of_entries _]. by exists k, p.
  - intros m. change (keep_default m ⊆ m). apply map_filter_subseteq.
Qed.

Lemma grounded_compressed : @Grounded EngineWrapper _ wrapper_compressed_laws.
Proof.
  split.
  - intros m ip md Ha. destruct (Ha md eq_refl) as (k & p & _ & Hk). by exists k, p.
  - intros m. apply map_empty_subseteq.
Qed.
End boxed.

Section library.
Context `{IpNetworkLaws} `{DashMapLaws} `{TargetBuild} `{HashOrder} `{RedisCrate} `{!TextForms}.
Context `{JsonValues} `{!UpdateForms} `{!HybridEnv}.
Implicit Types (h : Heap) (config : RadixConfig).

(** The routing table of a configuration: what names a prefix, what [clear]
    leaves, and what a lookup may answer. *)
Definition boxed_key config : IpNetwork → list bool := if read_compressed config then pkey else net_bits.
Definition boxed_cleared config (m : table) : table := if read_compressed config then ∅ else keep_default m.
Definition boxed_answers config (m : table) (ip : IpAddr) (r : option Metadata) : Prop :=
  cache_enabled config = false →
  if read_compressed config then sound_answer m ip r else lpm_answers m ip r.

(** Everything but ART, split planes and Redis. *)
Definition local_config config : Prop :=
  engine_variant config ≠ ART ∧ enable_split_plane config = false ∧
  (redis_feature = false ∨ cfg_redis config = None).

(** What a box promises from the moment it was made. *)
Definition boxed_serves config (e : BoxedEngine) h : Prop :=
  ∀ os, ∃ rs e' h' m, engine_ops e os h = Some ((rs, e'), h') ∧
    engine_steps (boxed_key config) (boxed_answers config) (boxed_cleared config) (∅, 0) os rs (m, re_size e') ∧
    from_inserts [] os rs.

Lemma told_empty : told [] (∅ : table).
Proof. intros k p md. by rewrite lookup_empty. Qed.

(** A wrapper behind the box, with the cache or without. *)
Lemma wrapper_serves (L : RadixEngineLaws EngineWrapper) `{!Grounded EngineWrapper} config w h F cc :
  re_rep h w ∅ 0 F →
  (∀ p, re_key p = boxed_key config p) → (∀ m, re_cleared m = boxed_cleared config m) →
  (∀ m ip r, re_answers m ip r → cache_enabled config = false → boxed_answers config m ip r) →
  boxed_serves config
    (if cache_enabled config then BCached (mkCached w (mkRadixCache ∅ cc None)) else BPlain w) h.
Proof.
  intros Hr Hk Hcl Ha os. destruct (cache_enabled config) eqn:Hcache.
  - set (c := mkCached w _). assert (cached_told [] c) as Hc.
    { split; [done|]. intros ip md. simpl. by rewrite lookup_empty. }
    destruct (cached_ops_told os [] h c ∅ 0 F Hr told_empty Hc) as (rs & e' & h' & m & R & Hs & Hf).
    exists rs, (BCached e'), h', m. rewrite (dispatch_ops BCached), R. split; [done|]. split; [|done].
    eapply engine_steps_weaken; [done| |done|exact Hs]. intros m' ip r _. unfold boxed_answers. by rewrite Hcache.
  - destruct (plain_ops_told os [] h w ∅ 0 F Hr told_empty) as (rs & e' & h' & m & R & Hs & Hf).
    exists rs, (BPlain e'), h', m. rewrite (dispatch_ops BPlain), R. split; [done|]. split; [|done].
    eapply engine_steps_weaken; [done| |done|exact Hs]. auto.
Qed.

(** Every engine that [new] makes of such a configuration. *)
Lemma library_new_serves host config h :
  local_config config → heap_wf h →
  ∃ e h' F, library_new host config h = Some (e, h') ∧ evolves h h' ∅ F ∧ boxed_serves config e h'.
Proof.
  intros (Hv & Hsp & Hred) Hwf. unfold library_new. rewrite Hsp.
  assert ((if redis_feature then cfg_redis config else None) = None) as ->.
  { destruct redis_feature; [by destruct Hred|done]. }
  pose (cc := mkCacheConfig (cache_max_entries config) (cache_ttl_seconds config)).
  assert (∃ w h' F, wrapper_new host (engine_variant config) (node_variant config) (read_compressed config)
      (num_shards config) h = Some (w, h') ∧ evolves h h' ∅ F ∧
    boxed_serves config
      (if cache_enabled config then BCached (mkCached w (mkRadixCache ∅ cc None)) else BPlain w) h')
    as (w & h' & F & R & Hev & Hs).
  { destruct (read_compressed config) eqn:Hrc.
    - destruct (wrapper_new_compressed host _ (node_variant config) (num_shards config) h Hv Hwf) as (w & h' & F & R & Hr & Hev).
      exists w, h', F. split_and!; [done|done|].
      apply (@wrapper_serves wrapper_compressed_laws grounded_compressed config w h' F cc Hr);
        unfold boxed_key, boxed_cleared, boxed_answers; rewrite Hrc; done.
    - destruct (wrapper_new_uncompressed host _ (node_variant config) (num_shards config) h Hv Hwf) as (w & h' & F & R & Hr & Hev).
      exists w, h', F. split_and!; [done|done|].
      apply (@wrapper_serves wrapper_uncompressed_laws grounded_uncompressed config w h' F cc Hr);
        unfold boxed_key, boxed_cleared, boxed_answers; rewrite Hrc; done. }
  rewrite (bind_run _ _ _ _ _ R). destruct (cache_enabled config); eexists _, h', F; by split_and!.
Qed.
End library.
