(* ===== verification/TokenBucket.v ===== *)
(** * The token bucket (policy/src/token_bucket.rs)

    One [AtomicU64] holds a timestamp and a fixed-point token count.  [allow]
    is a CAS loop: [attempt] is what one iteration computes from the value it
    loaded, [allow] the loop run without interference, and [bstep] a step
    relation in which any number of threads run the loop concurrently on one
    bucket. *)

From Stdlib Require Import Sorting.Sorted.
From S2P Require Import Prelude.

Local Open Scope Z_scope.

Definition pack (ts tokens_fp : Z) : Z := Z.lor (wrap 64 (Z.shiftl ts 32)) tokens_fp.

Definition unpack (v : Z) : Z * Z := (wrap 32 (Z.shiftr v 32), wrap 32 v).

(** [as_secs() as u32] of the time since the epoch. *)
Definition now_secs (epoch_secs : Z) : Z := wrap 32 epoch_secs.

(** [(capacity * 1000).min(u32::MAX as u64) as u32]; [None] is the overflow
    panic of the multiplication, in a build with overflow checks (one without
    them wraps; the two agree whenever the product fits). *)
Definition cap_fp (capacity : Z) : option Z :=
  c ← checked 64 (capacity * 1000); Some (wrap 32 (Z.min c (umax 32))).

Definition bucket_new (now capacity : Z) : option Z :=
  tokens_fp ← cap_fp capacity; Some (pack now tokens_fp).

(** The refilled token count one iteration computes from a loaded value. *)
Definition refilled (cap rate_fp now old : Z) : Z :=
  let '(ts, raw_fp) := unpack old in
  let elapsed := sat_sub now ts in
  let refill_fp := wrap 32 (Z.min (sat_mul 64 elapsed rate_fp) (umax 32)) in
  Z.min (sat_add 32 raw_fp refill_fp) cap.

(** One iteration up to the CAS: [None] rejects, [Some new] is the value the CAS
    tries to install. *)
Definition attempt (cap rate_fp now old : Z) : option Z :=
  let tokens_fp := refilled cap rate_fp now old in
  if tokens_fp <? 1000 then None else Some (pack now (tokens_fp - 1000)).

(** [allow] without interference: the CAS succeeds.  The result is the answer
    and the new state; [None] is an overflow panic, as for [cap_fp]. *)
Definition allow (capacity tokens_per_sec now state : Z) : option (bool * Z) :=
  cap ← cap_fp capacity;
  rate_fp ← checked 64 (tokens_per_sec * 1000);
  Some (match attempt cap rate_fp now state with
        | None => (false, state)
        | Some new => (true, new)
        end).

(** [tokens_approx], in thousandths of a token. *)
Definition tokens_approx_milli (state : Z) : Z := (unpack state).2.

(** ** Concurrent callers *)

(** A thread in [allow]: its clock reading, and the value of its last load. *)
Inductive tstate :=
  | Idle                      (* not in a call *)
  | Looping (now : Z)         (* at the head of the loop *)
  | Loaded (now old new : Z)  (* about to CAS *)
  | Answered (b : bool).      (* returned *)

Record bconf := mkConf { bc_state : Z; bc_threads : gmap nat tstate; bc_granted : nat }.

(** [clock now]: a caller may read the clock as [now]. *)
Inductive bstep (clock : Z → Prop) (cap rate_fp : Z) : bconf → bconf → Prop :=
  | b_call v th g i now :
      th !! i = Some Idle → clock now →
      bstep clock cap rate_fp (mkConf v th g) (mkConf v (<[i := Looping now]> th) g)
  | b_reject v th g i now :
      th !! i = Some (Looping now) → attempt cap rate_fp now v = None →
      bstep clock cap rate_fp (mkConf v th g) (mkConf v (<[i := Answered false]> th) g)
  | b_load v th g i now new :
      th !! i = Some (Looping now) → attempt cap rate_fp now v = Some new →
      bstep clock cap rate_fp (mkConf v th g) (mkConf v (<[i := Loaded now v new]> th) g)
  | b_cas_ok v th g i now new :
      th !! i = Some (Loaded now v new) →
      bstep clock cap rate_fp (mkConf v th g) (mkConf new (<[i := Answered true]> th) (S g))
  | b_cas_fail v th g i now old new :
      th !! i = Some (Loaded now old new) → old ≠ v →
      bstep clock cap rate_fp (mkConf v th g) (mkConf v (<[i := Looping now]> th) g)
  | b_return v th g i b :
      th !! i = Some (Answered b) →
      bstep clock cap rate_fp (mkConf v th g) (mkConf v (<[i := Idle]> th) g).

(** A sequence of calls, one after the other, at the given times. *)
Fixpoint run_allow (capacity tokens_per_sec : Z) (nows : list Z) (state : Z)
    : option (list bool * Z) :=
  match nows with
  | [] => Some ([], state)
  | now :: nows' =>
      '(b, state') ← allow capacity tokens_per_sec now state;
      '(bs, state'') ← run_allow capacity tokens_per_sec nows' state';
      Some (b :: bs, state'')
  end.

Definition count_true (bs : list bool) : nat := length (filter (λ b : bool, b = true) bs).

(** ** The packed word *)

Lemma lor_shift_add ts tok :
  in_width 32 ts → in_width 32 tok →
  Z.lor (Z.shiftl ts 32) tok = ts * 2 ^ 32 + tok.
Proof.
  intros Hts Htok. rewrite Z.shiftl_mul_pow2 by lia. symmetry.
  apply Z.add_nocarry_lor. apply Z.bits_inj'. intros i Hi.
  rewrite Z.land_spec, Z.bits_0. destruct (decide (i < 32)).
  - by rewrite Z.mul_pow2_bits_low by lia.
  - rewrite <- (Z.mod_small tok (2 ^ 32)) by done.
    rewrite Z.mod_pow2_bits_high by lia. apply andb_false_r.
Qed.

Lemma pack_value ts tok : in_width 32 ts → in_width 32 tok → pack ts tok = ts * 2 ^ 32 + tok.
Proof.
  intros Hts Htok. unfold pack. rewrite wrap_small; [by apply lor_shift_add|].
  unfold in_width in *. rewrite Z.shiftl_mul_pow2 by lia. lia.
Qed.

Lemma unpack_pack_eq ts tok : in_width 32 ts → in_width 32 tok → unpack (pack ts tok) = (ts, tok).
Proof.
  intros Hts Htok. unfold unpack, wrap. rewrite pack_value by done.
  unfold in_width in *. rewrite Z.shiftr_div_pow2 by lia.
  rewrite Z.div_add_l, (Z.div_small tok), Z.add_0_r by lia.
  rewrite (Z.add_comm (ts * _)), Z_mod_plus_full. rewrite !Z.mod_small by lia. done.
Qed.

Lemma pack_range ts tok : in_width 32 ts → in_width 32 tok → in_width 64 (pack ts tok).
Proof. intros Hts Htok. rewrite pack_value by done. unfold in_width in *. lia. Qed.

Lemma unpack_range v : in_width 32 (unpack v).1 ∧ in_width 32 (unpack v).2.
Proof. split; apply wrap_range; lia. Qed.

(** The timestamp and the token count of a state. *)
Definition bts (v : Z) : Z := (unpack v).1.
Definition btok (v : Z) : Z := (unpack v).2.

Lemma cap_fp_range capacity c : cap_fp capacity = Some c → in_width 32 c ∧ c ≤ capacity * 1000.
Proof.
  unfold cap_fp. destruct (checked 64 (capacity * 1000)) as [x|] eqn:E; [|done].
  apply checked_inv in E as [-> Hx]. intros [= <-].
  unfold in_width, wrap, umax in *.
  rewrite Z.mod_small by lia. lia.
Qed.

(** What an iteration computes: never more than the cap, never more than the
    elapsed time pays for. *)
Lemma refilled_bounds cap rate_fp now old :
  in_width 32 cap → 0 ≤ rate_fp →
  0 ≤ refilled cap rate_fp now old ≤ cap ∧
  refilled cap rate_fp now old ≤ btok old + Z.max 0 (now - bts old) * rate_fp.
Proof.
  intros Hcap Hr. unfold refilled, btok, bts.
  pose proof (unpack_range old) as [Hts Htok]. destruct (unpack old) as [ts tok]. simpl in *.
  unfold sat_sub, sat_mul, sat_add, umax, wrap, in_width in *.
  rewrite Z.mod_small by (split; [nia|lia]). nia.
Qed.

Lemma attempt_Some cap rate_fp now old new :
  in_width 32 cap → 0 ≤ rate_fp → in_width 32 now →
  attempt cap rate_fp now old = Some new →
  bts new = now ∧ btok new = refilled cap rate_fp now old - 1000 ∧ 0 ≤ btok new ∧ in_width 64 new.
Proof.
  intros Hcap Hr Hnow. unfold attempt.
  destruct (refilled_bounds cap rate_fp now old Hcap Hr) as [Hb _].
  destruct (refilled cap rate_fp now old <? 1000) eqn:E; [done|]. bprop. intros [= <-].
  assert (in_width 32 (refilled cap rate_fp now old - 1000)) as Hw by (unfold in_width in *; lia).
  unfold bts, btok. rewrite unpack_pack_eq by done. simpl.
  split_and!; [done|done|lia|by apply pack_range].
Qed.

Lemma count_true_cons b bs : count_true (b :: bs) = ((if b then 1 else 0) + count_true bs)%nat.
Proof. unfold count_true. rewrite filter_cons. by destruct b. Qed.

(** Tokens granted are tokens that were there or were refilled since. *)
Lemma run_allow_potential capacity rate cap nows : ∀ v bs v' t_end,
  cap_fp capacity = Some cap → 0 ≤ rate →
  Sorted Z.le (bts v :: nows) → Forall (λ now, in_width 32 now ∧ now ≤ t_end) (bts v :: nows) →
  run_allow capacity rate nows v = Some (bs, v') →
  1000 * Z.of_nat (count_true bs) + btok v' ≤ btok v + (t_end - bts v) * (rate * 1000).
Proof.
  induction nows as [|now nows IH]; intros v bs v' t_end Hcap Hr Hs Hf Hrun.
  - injection Hrun as <- <-. apply Forall_cons in Hf as [[_ Ht] _]. unfold count_true. simpl. nia.
  - cbn [run_allow] in Hrun. unfold allow in Hrun. rewrite Hcap in Hrun. cbn [mbind option_bind] in Hrun.
    destruct (checked 64 (rate * 1000)) as [R|] eqn:Hck; [|done]. cbn [mbind option_bind] in Hrun.
    apply checked_inv in Hck as [-> HR].
    apply Forall_cons in Hf as [[Hw0 Ht0] Hf]. pose proof Hf as [[Hw1 Ht1] _]%Forall_cons.
    apply Sorted_inv in Hs as [Hs Hd]. apply HdRel_inv in Hd.
    destruct (cap_fp_range _ _ Hcap) as [Hcw _].
    destruct (attempt cap (rate * 1000) now v) as [new|] eqn:Ha; cbn [mbind option_bind] in Hrun.
    + destruct (run_allow capacity rate nows new) as [[bs' v'']|] eqn:Hrun'; [|done].
      injection Hrun as <- <-.
      destruct (attempt_Some cap (rate * 1000) now v new Hcw ltac:(lia) Hw1 Ha) as (Hts & Htok & _ & _).
      destruct (refilled_bounds cap (rate * 1000) now v Hcw ltac:(lia)) as [_ Hle].
      specialize (IH new bs' v'' t_end Hcap Hr). rewrite Hts in IH.
      specialize (IH Hs Hf Hrun'). rewrite count_true_cons. nia.
    + destruct (run_allow capacity rate nows v) as [[bs' v'']|] eqn:Hrun'; [|done].
      injection Hrun as <- <-. rewrite count_true_cons. apply (IH v); try done.
      * destruct nows as [|n2 nows]; [by repeat constructor|].
        apply Sorted_inv in Hs as [Hs Hd2]. apply HdRel_inv in Hd2.
        constructor; [done|]. constructor. lia.
      * apply Forall_cons in Hf as [_ Hf]. by constructor.
Qed.

(** ** Theorems *)

(** [pack] and [unpack] are inverse to each other on a 32-bit timestamp and
    a 32-bit token count, and every 64-bit word is a packed pair. *)
Theorem pack_unpack_roundtrip ts tok v :
  in_width 32 ts → in_width 32 tok → in_width 64 v →
  unpack (pack ts tok) = (ts, tok) ∧ pack (unpack v).1 (unpack v).2 = v.
Proof.
  intros Hts Htok Hv. split; [by apply unpack_pack_eq|].
  pose proof (unpack_range v) as [H1 H2]. rewrite pack_value by done.
  unfold unpack, wrap, in_width in *. simpl. rewrite Z.shiftr_div_pow2 by lia.
  rewrite (Z.mod_small (v / 2 ^ 32)).
  - rewrite Z.mul_comm. symmetry. apply Z.div_mod. lia.
  - split; [apply Z.div_pos; lia|]. apply Z.div_lt_upper_bound; lia.
Qed.

(** C8: rate limit: a bucket created at [t0] grants at most
    [capacity + rate * (t_end - t0)] of the calls made, in order, up to [t_end]. *)
Theorem token_bucket_rate_bound capacity rate t0 nows t_end v bs v' :
  0 ≤ rate → Sorted Z.le (t0 :: nows) →
  Forall (λ now, in_width 32 now ∧ now ≤ t_end) (t0 :: nows) →
  bucket_new t0 capacity = Some v →
  run_allow capacity rate nows v = Some (bs, v') →
  Z.of_nat (count_true bs) ≤ capacity + rate * (t_end - t0).
Proof.
  intros Hr Hs Hf Hnew Hrun. unfold bucket_new in Hnew.
  destruct (cap_fp capacity) as [cap|] eqn:Hcap; [|done]. injection Hnew as <-.
  destruct (cap_fp_range _ _ Hcap) as [Hcw Hle].
  pose proof Hf as [[Hw _] _]%Forall_cons.
  assert (bts (pack t0 cap) = t0 ∧ btok (pack t0 cap) = cap) as [Hts Htok].
  { unfold bts, btok. by rewrite unpack_pack_eq. }
  pose proof (run_allow_potential capacity rate cap nows (pack t0 cap) bs v' t_end Hcap Hr) as Hp.
  rewrite Hts, Htok in Hp. specialize (Hp Hs Hf Hrun).
  pose proof (unpack_range v') as [_ [Hb _]]. fold (btok v') in Hb. nia.
Qed.

Lemma allow_total capacity rate now v :
  0 ≤ capacity * 1000 < 2 ^ 64 → 0 ≤ rate * 1000 < 2 ^ 64 → is_Some (allow capacity rate now v).
Proof. intros Hc Hr. unfold allow, cap_fp. rewrite !checked_Some by (split; lia). by eexists. Qed.

Lemma allow_live capacity rate now v :
  0 < capacity * 1000 < 2 ^ 64 → 0 < rate * 1000 < 2 ^ 64 →
  bts v < now → in_width 32 now →
  ∃ v', allow capacity rate now v = Some (true, v') ∧ bts v' = now.
Proof.
  intros Hc Hr Hts Hnow. unfold allow.
  assert (∃ cap, cap_fp capacity = Some cap ∧ 1000 ≤ cap ∧ in_width 32 cap) as (cap & Hcap & Hge & Hcw).
  { unfold cap_fp. rewrite checked_Some by (split; lia). eexists. split; [done|].
    unfold wrap, umax, in_width. rewrite Z.mod_small by lia. lia. }
  rewrite Hcap, checked_Some by (split; lia). cbn [mbind option_bind].
  assert (1000 ≤ refilled cap (rate * 1000) now v) as Href.
  { unfold refilled, bts in *. pose proof (unpack_range v) as [H1 H2].
    destruct (unpack v) as [ts tok]. simpl in *.
    unfold sat_sub, sat_mul, sat_add, umax, wrap, in_width in *.
    rewrite Z.mod_small by (split; [nia|lia]). nia. }
  unfold attempt. destruct (Z.ltb_spec (refilled cap (rate * 1000) now v) 1000); [lia|].
  eexists. split; [done|]. unfold bts. rewrite unpack_pack_eq; [done|done|].
  destruct (refilled_bounds cap (rate * 1000) now v Hcw) as [Hb _]; [lia|]. unfold in_width in *. lia.
Qed.

(** C38: when [capacity * 1000] and [rate * 1000] fit in 64 bits [allow] never
    panics, at whatever time and in whatever state; and it is live: if in
    addition the capacity and the rate are positive, a caller that comes at
    least a second after the timestamp of the bucket is admitted. *)
Theorem token_bucket_live capacity rate :
  0 ≤ capacity * 1000 < 2 ^ 64 → 0 ≤ rate * 1000 < 2 ^ 64 →
  (∀ now v, is_Some (allow capacity rate now v)) ∧
  (0 < capacity → 0 < rate → ∀ now v, bts v < now → in_width 32 now →
     ∃ v', allow capacity rate now v = Some (true, v') ∧ bts v' = now).
Proof.
  intros Hc Hr. split; [intros now v; by apply allow_total|]. intros Hc0 Hr0 now v. apply allow_live; lia.
Qed.

(** ** Concurrent callers on a frozen clock *)

Section frozen.
Context (t cap rate_fp v0 : Z).
Hypothesis (Ht : in_width 32 t) (Hcap : in_width 32 cap) (Hr : 0 ≤ rate_fp).
Hypothesis (Hts0 : bts v0 = t) (Htok0 : btok v0 ≤ cap).

(** Within one second nothing is refilled. *)
Lemma refilled_frozen v : bts v = t → btok v ≤ cap → refilled cap rate_fp t v = btok v.
Proof.
  unfold refilled, bts, btok. pose proof (unpack_range v) as [_ Hw].
  destruct (unpack v) as [ts tok]. simpl in *. intros -> Hle.
  unfold sat_sub, sat_mul, sat_add, umax, wrap, in_width in *.
  rewrite Z.sub_diag, Z.max_id, Z.mul_0_l.
  change (Z.min (Z.min 0 (2 ^ 64 - 1)) (2 ^ 32 - 1) mod 2 ^ 32) with 0. lia.
Qed.

Definition thread_ok (s : tstate) : Prop :=
  match s with
  | Looping now => now = t
  | Loaded now old new => now = t ∧ attempt cap rate_fp t old = Some new
  | Idle | Answered _ => True
  end.

Definition frozen_inv (c : bconf) : Prop :=
  bts (bc_state c) = t ∧ btok (bc_state c) ≤ cap ∧
  1000 * Z.of_nat (bc_granted c) + btok (bc_state c) = btok v0 ∧
  map_Forall (λ _, thread_ok) (bc_threads c).

Lemma frozen_inv_step c c' :
  frozen_inv c → bstep (λ now, now = t) cap rate_fp c c' → frozen_inv c'.
Proof.
  intros (Hts & Hle & Hsum & Hth) Hs.
  destruct Hs as [v th g i now Hi Hclk|v th g i now Hi Ha|v th g i now new Hi Ha
    |v th g i now new Hi|v th g i now old new Hi Hne|v th g i b Hi];
    simpl in *; pose proof (Hth _ _ Hi) as Hti; simpl in Hti.
  4: { destruct Hti as [-> Ha].
       destruct (attempt_Some _ _ _ _ _ Hcap Hr Ht Ha) as (Hts' & Htok' & Hge & _).
       rewrite refilled_frozen in Htok' by done.
       split_and!; simpl; [done|lia|lia|]. by apply map_Forall_insert_2. }
  all: split_and!; simpl; try done; apply map_Forall_insert_2; try done; simpl.
  - subst now. done.
  - by destruct Hti.
Qed.
End frozen.

(** C9: conservation under concurrency: while the clock stands still, any number
    of threads running the CAS loop on one bucket, in any interleaving and
    with any failed CAS, are granted exactly the tokens that leave the bucket:
    a token is never handed out twice. *)
Theorem token_bucket_no_double_spend t cap rate_fp v0 th0 c :
  in_width 32 t → in_width 32 cap → 0 ≤ rate_fp → bts v0 = t → btok v0 ≤ cap →
  map_Forall (λ _ s, s = Idle) th0 →
  rtc (bstep (λ now, now = t) cap rate_fp) (mkConf v0 th0 0) c →
  1000 * Z.of_nat (bc_granted c) + btok (bc_state c) = btok v0.
Proof.
  intros Ht Hcap Hr Hts Htok Hth Hsteps.
  assert (frozen_inv t cap rate_fp v0 c) as (_ & _ & Hsum & _); [|done].
  assert (frozen_inv t cap rate_fp v0 (mkConf v0 th0 0)) as H0.
  { split_and!; simpl; [done|done|lia|]. eapply map_Forall_impl; [exact Hth|].
    intros i s ->. done. }
  clear Hth. induction Hsteps as [|c1 c2 c3 Hs _ IH]; [done|].
  apply IH. by eapply frozen_inv_step.
Qed.

(** The clock readings of concurrent callers are not ordered: a caller that
    read the clock before another one was refilled moves the timestamp back,
    and the same second is refilled twice.  From one token, at a rate of one
    token per second, three calls are granted within one second. *)
Theorem token_bucket_timestamp_regression :
  ∃ c, rtc (bstep (λ now, now = 10 ∨ now = 11) 2000 1000)
         (mkConf (pack 10 1000) {[ 0%nat := Idle; 1%nat := Idle; 2%nat := Idle ]} 0) c ∧
       bc_granted c = 3%nat.
Proof.
  eexists. split.
  - eapply rtc_l; [apply (b_call _ _ _ _ _ _ 0%nat 10); [reflexivity|by left]|].
    eapply rtc_l; [apply (b_call _ _ _ _ _ _ 1%nat 11); [reflexivity|by right]|].
    eapply rtc_l; [eapply (b_load _ _ _ _ _ _ 1%nat); [reflexivity|vm_compute; reflexivity]|].
    eapply rtc_l; [eapply (b_cas_ok _ _ _ _ _ _ 1%nat); reflexivity|].
    eapply rtc_l; [eapply (b_load _ _ _ _ _ _ 0%nat); [reflexivity|vm_compute; reflexivity]|].
    eapply rtc_l; [eapply (b_cas_ok _ _ _ _ _ _ 0%nat); reflexivity|].
    eapply rtc_l; [apply (b_call _ _ _ _ _ _ 2%nat 11); [reflexivity|by right]|].
    eapply rtc_l; [eapply (b_load _ _ _ _ _ _ 2%nat); [reflexivity|vm_compute; reflexivity]|].
    eapply rtc_l; [eapply (b_cas_ok _ _ _ _ _ _ 2%nat); reflexivity|].
    apply rtc_refl.
  - done.
Qed.

(** A burst at one instant. *)
Lemma attempt_burst cap rate_fp t tok :
  in_width 32 t → in_width 32 cap → 0 ≤ tok ≤ cap →
  attempt cap rate_fp t (pack t tok) = if tok <? 1000 then None else Some (pack t (tok - 1000)).
Proof.
  intros Ht Hcap Htok. assert (in_width 32 tok) as Hw by (unfold in_width in *; lia).
  unfold attempt. rewrite (refilled_frozen t); unfold bts, btok; rewrite ?unpack_pack_eq by done;
    simpl; try done. lia.
Qed.

Lemma run_allow_burst capacity rate cap t n : ∀ k : nat,
  in_width 32 t → cap_fp capacity = Some cap → 0 ≤ rate * 1000 < 2 ^ 64 →
  1000 * Z.of_nat k ≤ cap →
  run_allow capacity rate (replicate n t) (pack t (1000 * Z.of_nat k)) =
  Some (replicate (n `min` k) true ++ replicate (n - k) false, pack t (1000 * Z.of_nat (k - n))).
Proof.
  induction n as [|n IH]; intros k Ht Hcap Hr Hk; [simpl; by rewrite Nat.sub_0_r|].
  destruct (cap_fp_range _ _ Hcap) as [Hcw _].
  cbn [replicate run_allow]. unfold allow. rewrite Hcap, checked_Some by (split; lia).
  cbn [mbind option_bind]. rewrite attempt_burst by (done || lia).
  destruct k as [|k].
  - specialize (IH 0%nat Ht Hcap Hr Hk). change (1000 * Z.of_nat 0) with 0 in *.
    change (0 <? 1000) with true. cbn iota beta. rewrite IH.
    rewrite !Nat.min_0_r, !Nat.sub_0_r. done.
  - destruct (Z.ltb_spec (1000 * Z.of_nat (S k)) 1000); [lia|]. cbn iota beta.
    replace (1000 * Z.of_nat (S k) - 1000) with (1000 * Z.of_nat k) by lia.
    rewrite (IH k) by (done || lia). done.
Qed.

(** Burst: a fresh bucket of [capacity] tokens (up to 4,294,967, where the
    fixed-point counter saturates) admits exactly the first [capacity] of any
    number of calls made in the same second and rejects the rest. *)
Theorem token_bucket_burst capacity rate t n v :
  in_width 32 t → 0 ≤ capacity ≤ 4294967 → 0 ≤ rate * 1000 < 2 ^ 64 →
  bucket_new t capacity = Some v →
  ∃ v', run_allow capacity rate (replicate n t) v =
    Some (replicate (n `min` Z.to_nat capacity) true ++
          replicate (n - Z.to_nat capacity) false, v').
Proof.
  intros Ht Hc Hr Hnew.
  assert (cap_fp capacity = Some (capacity * 1000)) as Hcap.
  { unfold cap_fp. rewrite checked_Some by (split; lia). cbn [mbind option_bind].
    rewrite Z.min_l, wrap_small by (unfold umax, in_width; lia). done. }
  unfold bucket_new in Hnew. rewrite Hcap in Hnew. injection Hnew as <-.
  eexists. replace (capacity * 1000) with (1000 * Z.of_nat (Z.to_nat capacity)) by lia.
  apply (run_allow_burst capacity rate (capacity * 1000)); done || lia.
Qed.
