(* ===== verification/Config.v ===== *)
(** * Configuration (config/src/lib.rs)

    The configuration records with their defaults, the builder of
    [RateLimitConfig] and the validation that [from_file] and [from_config]
    apply.  Reading the file and parsing YAML are parameters. *)

From S2P Require Import Prelude Addr.

Local Open Scope Z_scope.

(** The text of an I/O or YAML error is what its [Display] prints. *)
Inductive ConfigError := Io (e : string) | Yaml (e : string) | Validation (e : string).

Record XdpRedisConfig := mkXdpRedis { xr_url : string; xr_channel : string; xr_snapshot_key : string }.
Definition XdpRedisConfig_default : XdpRedisConfig :=
  mkXdpRedis "redis://127.0.0.1:6379" "security:blocklist" "security:blocklist:set".

Record XdpConfig := mkXdp {
  xdp_enabled : bool; xdp_interface : string; xdp_mode : string; xdp_pin_dir : string;
  xdp_fail_closed : bool; xdp_min_v4_prefix : Z; xdp_min_v6_prefix : Z;
  xdp_never_block : list string; xdp_redis : XdpRedisConfig;
}.
Definition XdpConfig_default : XdpConfig :=
  mkXdp false "eth0" "skb" "/sys/fs/bpf/radixip/v1" false 8 16 [] XdpRedisConfig_default.

Record CacheConfig := mkCacheConfig {
  cc_enabled : bool; cc_max_entries : Z; cc_ttl_seconds : option Z }.
Definition CacheConfig_default : CacheConfig := mkCacheConfig true 10000 (Some 3600).

Record EngineConfig := mkEngineConfig {
  ec_variant : string; ec_node_variant : string; ec_num_shards : option Z; ec_cache : CacheConfig }.
Definition EngineConfig_default : EngineConfig :=
  mkEngineConfig "concurrent" "atomic" (Some 16) CacheConfig_default.

Inductive IpSource := XForwardedFor | XRealIp | RemoteAddr.

Record ResponseConfig := mkResponse { rc_blocked : Z; rc_rate_limited : Z }.
Definition ResponseConfig_default : ResponseConfig := mkResponse 403 429.

Inductive RateLimitAlgorithm := TokenBucketAlgorithm.

Inductive BucketKeyMode :=
  | Ip
  | Subnet (depth_v4 depth_v6 : Z)
  | Both (depth_v4 depth_v6 : Z).

Record RateLimitConfig := mkRateLimit {
  rl_enabled : bool; rl_algorithm : RateLimitAlgorithm; rl_bucket_mode : BucketKeyMode;
  rl_capacity : Z; rl_refill_rate : Z; rl_max_buckets : Z; rl_ttl_seconds : Z;
}.
Definition RateLimitConfig_default : RateLimitConfig :=
  mkRateLimit false TokenBucketAlgorithm Ip 100 10 1000000 60.

(** *** The builder *)

Record RateLimitConfigBuilder := mkRLBuilder {
  b_capacity : option Z; b_refill_rate : option Z; b_bucket_mode : option BucketKeyMode;
  b_max_buckets : option Z; b_ttl_seconds : option Z;
}.

Module RateLimitConfig.
Definition builder : RateLimitConfigBuilder := mkRLBuilder None None None None None.
Definition ttl (c : RateLimitConfig) : Z := rl_ttl_seconds c.
Definition capacity (b : RateLimitConfigBuilder) (v : Z) : RateLimitConfigBuilder :=
  mkRLBuilder (Some v) (b_refill_rate b) (b_bucket_mode b) (b_max_buckets b) (b_ttl_seconds b).
Definition refill_rate (b : RateLimitConfigBuilder) (v : Z) : RateLimitConfigBuilder :=
  mkRLBuilder (b_capacity b) (Some v) (b_bucket_mode b) (b_max_buckets b) (b_ttl_seconds b).
Definition bucket_mode (b : RateLimitConfigBuilder) (m : BucketKeyMode) : RateLimitConfigBuilder :=
  mkRLBuilder (b_capacity b) (b_refill_rate b) (Some m) (b_max_buckets b) (b_ttl_seconds b).
Definition max_buckets (b : RateLimitConfigBuilder) (v : Z) : RateLimitConfigBuilder :=
  mkRLBuilder (b_capacity b) (b_refill_rate b) (b_bucket_mode b) (Some v) (b_ttl_seconds b).
Definition ttl_seconds (b : RateLimitConfigBuilder) (v : Z) : RateLimitConfigBuilder :=
  mkRLBuilder (b_capacity b) (b_refill_rate b) (b_bucket_mode b) (b_max_buckets b) (Some v).
Definition build (b : RateLimitConfigBuilder) : RateLimitConfig :=
  mkRateLimit true TokenBucketAlgorithm (default Ip (b_bucket_mode b))
    (default 100 (b_capacity b)) (default 10 (b_refill_rate b))
    (default 1000000 (b_max_buckets b)) (default 60 (b_ttl_seconds b)).
End RateLimitConfig.

Record MetricsConfig := mkMetrics { mc_enabled : bool; mc_prometheus_path : string }.
Definition MetricsConfig_default : MetricsConfig := mkMetrics false "/metrics".

Record AutoBanConfig := mkAutoBan {
  ab_enabled : bool; ab_threshold_violations : Z; ab_window_seconds : Z; ab_ban_duration_seconds : Z }.
Definition AutoBanConfig_default : AutoBanConfig := mkAutoBan false 100 60 3600.

Record RouteConfig := mkRoute { route_path : string; route_methods : list string; route_rate_limit : RateLimitConfig }.
Definition RouteConfig_default : RouteConfig := mkRoute "" [] RateLimitConfig_default.

Record RateLimitRoutesConfig := mkRoutes { rr_enabled : bool; rr_routes : list RouteConfig }.
Definition RateLimitRoutesConfig_default : RateLimitRoutesConfig := mkRoutes false [].

Section config.
Context `{IpNetworkCrate}.

Record MiddlewareConfig := mkMiddleware {
  mw_ip_source : IpSource; mw_trusted_proxies : list IpNetwork; mw_responses : ResponseConfig }.
Definition MiddlewareConfig_default : MiddlewareConfig :=
  mkMiddleware XForwardedFor [] ResponseConfig_default.

Inductive BlocklistSource := Inline (subnets : list IpNetwork) | File (path : string).

Record BlocklistConfig := mkBlocklist { bl_enabled : bool; bl_sources : list BlocklistSource }.
Definition BlocklistConfig_default : BlocklistConfig := mkBlocklist false [].

Record RootConfig := mkRoot {
  root_engine : EngineConfig; root_middleware : MiddlewareConfig; root_blocklist : BlocklistConfig;
  root_xdp : XdpConfig; root_rate_limit : RateLimitConfig; root_metrics : MetricsConfig;
  root_auto_ban : AutoBanConfig; root_rate_limit_routes : RateLimitRoutesConfig;
}.

(** What deserialising a document with an empty [radixip] section gives. *)
Definition RootConfig_default : RootConfig :=
  mkRoot EngineConfig_default MiddlewareConfig_default BlocklistConfig_default XdpConfig_default
    RateLimitConfig_default MetricsConfig_default AutoBanConfig_default RateLimitRoutesConfig_default.

Record RadixIpConfig := mkRadixIp { radixip : RootConfig }.

Definition validate (self : RadixIpConfig) : Result unit ConfigError :=
  let rl := root_rate_limit (radixip self) in
  if rl_enabled rl then
    if rl_capacity rl =? 0 then Err (Validation "rate_limit.capacity must be > 0")
    else if rl_refill_rate rl =? 0 then Err (Validation "rate_limit.refill_rate must be > 0")
    else Ok tt
  else Ok tt.

Definition from_config (config : RootConfig) : Result RadixIpConfig ConfigError :=
  let this := mkRadixIp config in
  match validate this with Ok _ => Ok this | Err e => Err e end.

(** [read_to_string] and [serde_yaml::from_str] are parameters. *)
Definition from_file {P : Type} (read_to_string : P → Result string string)
    (from_str : string → Result RadixIpConfig string) (path : P)
    : Result RadixIpConfig ConfigError :=
  match read_to_string path with
  | Err e => Err (Io e)
  | Ok raw =>
      match from_str raw with
      | Err e => Err (Yaml e)
      | Ok cfg => match validate cfg with Ok _ => Ok cfg | Err e => Err e end
      end
  end.

(** What validation accepts: with rate limiting enabled, a positive capacity
    and a positive refill rate; nothing else is looked at. *)
Definition valid (c : RadixIpConfig) : Prop :=
  let rl := root_rate_limit (radixip c) in
  rl_enabled rl = true → rl_capacity rl ≠ 0 ∧ rl_refill_rate rl ≠ 0.

Lemma validate_spec c : validate c = Ok tt ↔ valid c.
Proof.
  unfold validate, valid. destruct (rl_enabled _); [|by split].
  destruct (Z.eqb_spec (rl_capacity (root_rate_limit (radixip c))) 0);
    [split; [done|by intros []]|].
  destruct (Z.eqb_spec (rl_refill_rate (root_rate_limit (radixip c))) 0);
    [split; [done|by intros []]|].
  by split.
Qed.

Lemma from_file_valid {P} (rd : P → Result string string) ps path c :
  from_file rd ps path = Ok c → valid c ∧ ∃ raw, rd path = Ok raw ∧ ps raw = Ok c.
Proof.
  unfold from_file. destruct (rd path) as [raw|]; [|done].
  destruct (ps raw) as [cfg|] eqn:Hp; [|done].
  destruct (validate cfg) as [[]|] eqn:Hv; [|done]. intros [= ->].
  apply validate_spec in Hv. eauto.
Qed.
End config.

(** The builder fills what was not set with the documented defaults (100
    tokens, 10 per second, keyed by IP, 1,000,000 buckets, 60 s idle time) and
    keeps what was set last; what it builds is enabled and, unless a zero was
    set, passes validation. *)
Theorem builder_build_spec `{IpNetworkCrate} c r m n t (root : RootConfig) :
  let b := RateLimitConfig.ttl_seconds (RateLimitConfig.max_buckets (RateLimitConfig.bucket_mode
             (RateLimitConfig.refill_rate (RateLimitConfig.capacity RateLimitConfig.builder c) r) m) n) t in
  RateLimitConfig.build b = mkRateLimit true TokenBucketAlgorithm m c r n t ∧
  RateLimitConfig.build RateLimitConfig.builder =
    mkRateLimit true TokenBucketAlgorithm Ip 100 10 1000000 60 ∧
  (root_rate_limit root = RateLimitConfig.build b →
   (∃ cfg, from_config root = Ok cfg) ↔ c ≠ 0 ∧ r ≠ 0).
Proof.
  intros b. split_and!; [done|done|]. intros Hrl. unfold from_config, validate. simpl.
  rewrite Hrl. simpl. destruct (Z.eqb_spec c 0) as [->|Hc]; [split; [by intros []|tauto]|].
  destruct (Z.eqb_spec r 0) as [->|Hr]; [split; [by intros []|tauto]|].
  split; [done|]. eauto.
Qed.

(** [from_file] returns a configuration only when the file was read, parsed
    and, if rate limiting is enabled, has a positive capacity and refill rate;
    every error keeps its stage. *)
Theorem from_file_spec `{IpNetworkCrate} {P} (rd : P → Result string string) ps path :
  match from_file rd ps path with
  | Ok c => (∃ raw, rd path = Ok raw ∧ ps raw = Ok c) ∧ valid c
  | Err (Io e) => rd path = Err e
  | Err (Yaml e) => ∃ raw, rd path = Ok raw ∧ ps raw = Err e
  | Err (Validation _) => ∃ raw c, rd path = Ok raw ∧ ps raw = Ok c ∧ ¬ valid c
  end.
Proof.
  unfold from_file. destruct (rd path) as [raw|e] eqn:Hr; [|done].
  destruct (ps raw) as [cfg|e] eqn:Hp; [|eauto].
  destruct (validate cfg) as [[]|e] eqn:Hv.
  - apply validate_spec in Hv. eauto.
  - assert (¬ valid cfg) as Hnv. { intros Hok%validate_spec. congruence. }
    unfold validate in Hv. destruct (rl_enabled _); [|done].
    destruct (_ =? 0); [injection Hv as <-; eauto|].
    destruct (_ =? 0); [injection Hv as <-; eauto|done].
Qed.
