(* ===== verification/Str.v ===== *)
(** * Strings, and [IpAddr::from_str]

    The string functions of the standard library the sources call ([split] on
    a character, [trim], [to_uppercase]), on ASCII text, and the address
    parser behind [str::parse::<IpAddr>], which follows the recursive-descent
    parser of [core::net]. *)

From Stdlib Require Import Ascii.
From S2P Require Import Prelude Addr.

Local Open Scope Z_scope.

(** ** Splitting and trimming *)

(** [s.split(c)]: the pieces between the separators, empty ones included. *)
Fixpoint split_on (c : ascii) (s : string) : list string :=
  match s with
  | EmptyString => [EmptyString]
  | String x s' =>
      if Ascii.eqb x c then EmptyString :: split_on c s'
      else match split_on c s' with
           | p :: ps => String x p :: ps
           | [] => [String x EmptyString]
           end
  end.

Definition code (x : ascii) : Z := Z.of_nat (nat_of_ascii x).

(** White space of ASCII: tab, line feed, vertical tab, form feed, carriage
    return and space. *)
Definition is_space (x : ascii) : bool :=
  ((9 <=? code x) && (code x <=? 13)) || (code x =? 32).

Fixpoint trim_start (s : string) : string :=
  match s with
  | String x s' => if is_space x then trim_start s' else s
  | EmptyString => EmptyString
  end.

Fixpoint string_rev_app (s acc : string) : string :=
  match s with String x s' => string_rev_app s' (String x acc) | EmptyString => acc end.
Definition string_rev (s : string) : string := string_rev_app s EmptyString.

(** [str::trim] *)
Definition trim (s : string) : string := string_rev (trim_start (string_rev (trim_start s))).

Definition upper (x : ascii) : ascii :=
  if ((97 <=? code x) && (code x <=? 122)) then ascii_of_nat (nat_of_ascii x - 32) else x.

(** [str::to_uppercase] *)
Fixpoint to_uppercase (s : string) : string :=
  match s with String x s' => String (upper x) (to_uppercase s') | EmptyString => EmptyString end.

Lemma split_on_nonempty c s : split_on c s ≠ [].
Proof. destruct s as [|x s]; simpl; [done|]. by repeat case_match. Qed.

(** A separator cuts the list of pieces. *)
Lemma split_on_sep c s1 s2 :
  split_on c (s1 +:+ String c s2) = split_on c s1 ++ split_on c s2.
Proof.
  induction s1 as [|x s1 IH]; simpl.
  - by rewrite Ascii.eqb_refl.
  - rewrite IH. destruct (Ascii.eqb x c); [done|].
    destruct (split_on c s1) as [|p ps] eqn:E; [|done]. by apply split_on_nonempty in E.
Qed.

Lemma upper_idemp x : upper (upper x) = upper x.
Proof. destruct x as [[] [] [] [] [] [] [] []]; reflexivity. Qed.

Lemma to_uppercase_idemp s : to_uppercase (to_uppercase s) = to_uppercase s.
Proof. induction s as [|x s IH]; simpl; [done|]. by rewrite upper_idemp, IH. Qed.

(** ** Parsing addresses *)

Definition parser (A : Type) : Type := string → option (A * string).

(** The value of a digit in a radix up to 16. *)
Definition to_digit (radix : Z) (x : ascii) : option Z :=
  let c := code x in
  let d := if (48 <=? c) && (c <=? 57) then Some (c - 48)
           else if (97 <=? c) && (c <=? 102) then Some (c - 87)
           else if (65 <=? c) && (c <=? 70) then Some (c - 55)
           else None in
  v ← d; if v <? radix then Some v else None.

Definition read_given_char (c : ascii) : parser unit := λ s,
  match s with
  | String x s' => if Ascii.eqb x c then Some (tt, s') else None
  | EmptyString => None
  end.

(** The digits of [read_number]: value, count and rest; [None] when a digit too
    many is met or the value overflows [max]. *)
Fixpoint read_digits (radix max_val max_digits acc count : Z) (s : string)
    : option (Z * Z * string) :=
  match s with
  | EmptyString => Some (acc, count, s)
  | String x s' =>
      match to_digit radix x with
      | None => Some (acc, count, s)
      | Some d =>
          let acc' := acc * radix + d in
          if max_val <? acc' then None
          else if max_digits <? count + 1 then None
          else read_digits radix max_val max_digits acc' (count + 1) s'
      end
  end.

Definition read_number (radix max_val max_digits : Z) (allow_zero_prefix : bool) : parser Z := λ s,
  let has_leading_zero := match s with String x _ => Ascii.eqb x "0" | EmptyString => false end in
  '(v, count, rest) ← read_digits radix max_val max_digits 0 0 s;
  if count =? 0 then None
  else if negb allow_zero_prefix && has_leading_zero && (1 <? count) then None
  else Some (v, rest).

Definition read_separator {A} (sep : ascii) (index : nat) (inner : parser A) : parser A := λ s,
  match index with
  | O => inner s
  | S _ => '(_, s') ← read_given_char sep s; inner s'
  end.

Definition read_octet (index : nat) : parser Z :=
  read_separator "." index (read_number 10 255 3 false).

Definition read_ipv4_addr : parser Z := λ s,
  '(a, s) ← read_octet 0 s;
  '(b, s) ← read_octet 1 s;
  '(c, s) ← read_octet 2 s;
  '(d, s) ← read_octet 3 s;
  Some (((a * 256 + b) * 256 + c) * 256 + d, s).

(** [read_groups] with [n] slots left at index [i] of [limit]: the groups read,
    whether they end in an IPv4 address, and the rest. *)
Fixpoint read_groups (limit i n : nat) (s : string) : list Z * bool * string :=
  match n with
  | O => ([], false, s)
  | S n' =>
      match (if (i <? limit - 1)%nat then read_separator ":" i read_ipv4_addr s else None) with
      | Some (v4, s') => ([v4 / 65536; v4 mod 65536], true, s')
      | None =>
          match read_separator ":" i (read_number 16 65535 4 true) s with
          | Some (g, s') =>
              let '(gs, v4, rest) := read_groups limit (S i) n' s' in (g :: gs, v4, rest)
          | None => ([], false, s)
          end
      end
  end.

Definition groups_value (gs : list Z) : Z := foldl (λ acc g, acc * 65536 + g) 0 gs.

Definition read_ipv6_addr : parser Z := λ s,
  let '(head, head_ipv4, s1) := read_groups 8 0 8 s in
  if (length head =? 8)%nat then Some (groups_value head, s1)
  else if (head_ipv4 : bool) then None
  else
    '(_, s2) ← read_given_char ":" s1;
    '(_, s3) ← read_given_char ":" s2;
    let limit := (8 - (length head + 1))%nat in
    let '(tail, _, s4) := read_groups limit 0 limit s3 in
    Some (groups_value (head ++ replicate (8 - length head - length tail) 0 ++ tail), s4).

(** [s.parse::<IpAddr>()]: the whole string must be consumed. *)
Definition parse_ip (s : string) : option IpAddr :=
  match read_ipv4_addr s with
  | Some (a, EmptyString) => Some (V4 a)
  | Some (_, String _ _) => None
  | None =>
      match read_ipv6_addr s with
      | Some (a, EmptyString) => Some (V6 a)
      | _ => None
      end
  end.

(** Sanity checks of the parser on concrete addresses. *)
Example parse_v4 : parse_ip "203.0.113.5" = Some (V4 3405803781).
Proof. reflexivity. Qed.
Example parse_v4_leading_zero : parse_ip "10.01.2.3" = None.
Proof. reflexivity. Qed.
Example parse_v4_overflow : parse_ip "256.1.1.1" = None.
Proof. reflexivity. Qed.
Example parse_v6_compressed : parse_ip "2001:db8::42" = Some (V6 0x20010db8000000000000000000000042).
Proof. reflexivity. Qed.
Example parse_v6_loopback : parse_ip "::1" = Some (V6 1).
Proof. reflexivity. Qed.
Example parse_v6_mapped : parse_ip "::ffff:10.1.2.3" = Some (V6 0xffff0a010203).
Proof. reflexivity. Qed.
Example parse_v6_full : parse_ip "1:2:3:4:5:6:7:8" = Some (V6 0x00010002000300040005000600070008).
Proof. reflexivity. Qed.
Example parse_v6_two_gaps : parse_ip "1::2::3" = None.
Proof. reflexivity. Qed.

(** ** Parsed addresses are well-formed *)

Lemma to_digit_range radix x d : to_digit radix x = Some d → 0 ≤ d < radix.
Proof.
  unfold to_digit. intros Hd.
  repeat case_match; simpl in Hd; try done; case_match; try done; injection Hd as <-; bprop; lia.
Qed.

Lemma read_digits_range radix max_val max_digits s : ∀ acc count v c rest,
  0 ≤ acc ≤ max_val → read_digits radix max_val max_digits acc count s = Some (v, c, rest) →
  0 ≤ v ≤ max_val.
Proof.
  induction s as [|x s IH]; intros acc count v c rest Hacc; simpl; [by intros [= <- _ _]|].
  destruct (to_digit radix x) as [d|] eqn:Hd; [|by intros [= <- _ _]].
  apply to_digit_range in Hd. destruct (Z.ltb_spec max_val (acc * radix + d)); [done|].
  case_match; [done|]. intros Hr. eapply IH; [|exact Hr]. nia.
Qed.

Lemma read_number_range radix max_val max_digits z s v rest :
  0 ≤ max_val → read_number radix max_val max_digits z s = Some (v, rest) → 0 ≤ v ≤ max_val.
Proof.
  intros Hm. unfold read_number.
  destruct (read_digits radix max_val max_digits 0 0 s) as [[[v' c'] rest']|] eqn:Hr; [|done].
  simpl. repeat (case_match; [done|]). intros [= <- _]. eapply read_digits_range; [|exact Hr]. lia.
Qed.

Lemma read_separator_range {A} (P : A → Prop) sep i (inner : parser A) s v rest :
  (∀ s v rest, inner s = Some (v, rest) → P v) →
  read_separator sep i inner s = Some (v, rest) → P v.
Proof.
  intros Hin. destruct i as [|i]; simpl; [apply Hin|].
  destruct (read_given_char sep s) as [[[] s']|]; [|done]. simpl. apply Hin.
Qed.

Lemma read_octet_range i s v rest : read_octet i s = Some (v, rest) → 0 ≤ v ≤ 255.
Proof.
  apply (read_separator_range (λ v, 0 ≤ v ≤ 255)). intros *. by apply read_number_range.
Qed.

Lemma read_ipv4_range s v rest : read_ipv4_addr s = Some (v, rest) → 0 ≤ v < 2 ^ 32.
Proof.
  unfold read_ipv4_addr.
  destruct (read_octet 0 s) as [[a s1]|] eqn:Ha; [|done]. cbn [mbind option_bind].
  destruct (read_octet 1 s1) as [[b s2]|] eqn:Hb; [|done]. cbn [mbind option_bind].
  destruct (read_octet 2 s2) as [[c s3]|] eqn:Hc; [|done]. cbn [mbind option_bind].
  destruct (read_octet 3 s3) as [[d s4]|] eqn:Hd; [|done]. cbn [mbind option_bind].
  apply read_octet_range in Ha, Hb, Hc, Hd. intros [= <- _]. lia.
Qed.

Lemma read_groups_range limit n : ∀ i s gs b rest,
  (i + n)%nat = limit → read_groups limit i n s = (gs, b, rest) →
  (length gs ≤ n)%nat ∧ Forall (λ g, 0 ≤ g < 65536) gs.
Proof.
  induction n as [|n IH]; intros i s gs b rest Hin; cbn [read_groups].
  { intros [= <- _ _]. split; [simpl; lia|constructor]. }
  destruct (if (i <? limit - 1)%nat then _ else None) as [[v4 s']|] eqn:H4.
  - destruct (Nat.ltb_spec i (limit - 1)) as [Hlt|]; [|done].
    apply (read_separator_range (λ v, 0 ≤ v < 2 ^ 32)) in H4; [|apply read_ipv4_range].
    intros [= <- _ _]. split; [simpl; lia|]. repeat constructor.
    + apply Z.div_pos; lia.
    + apply Z.div_lt_upper_bound; lia.
    + apply Z.mod_pos_bound; lia.
    + apply Z.mod_pos_bound; lia.
  - destruct (read_separator ":" i (read_number 16 65535 4 true) s) as [[g s']|] eqn:Hg.
    + apply (read_separator_range (λ v, 0 ≤ v ≤ 65535)) in Hg; [|intros *; by apply read_number_range].
      destruct (read_groups limit (S i) n s') as [[gs' b'] rest'] eqn:Hgs.
      apply IH in Hgs as [Hl Hall]; [|lia].
      intros [= <- _ _]. split; [simpl; lia|]. constructor; [lia|done].
    + intros [= <- _ _]. split; [simpl; lia|constructor].
Qed.

Lemma groups_value_app gs g : groups_value (gs ++ [g]) = groups_value gs * 65536 + g.
Proof. unfold groups_value. by rewrite foldl_app. Qed.

Lemma groups_value_range gs :
  Forall (λ g, 0 ≤ g < 65536) gs → 0 ≤ groups_value gs < 2 ^ (16 * Z.of_nat (length gs)).
Proof.
  induction gs as [|g gs IH] using rev_ind; intros Hall; [done|].
  apply Forall_app in Hall as [Hall Hg]. apply Forall_cons in Hg as [Hg _]. specialize (IH Hall).
  rewrite groups_value_app, length_app. simpl.
  replace (16 * Z.of_nat (length gs + 1)) with (16 * Z.of_nat (length gs) + 16) by lia.
  rewrite Z.pow_add_r by lia. change (2 ^ 16) with 65536. nia.
Qed.

Lemma read_ipv6_range s v rest : read_ipv6_addr s = Some (v, rest) → 0 ≤ v < 2 ^ 128.
Proof.
  unfold read_ipv6_addr. destruct (read_groups 8 0 8 s) as [[hd b] s1] eqn:Hh.
  apply read_groups_range in Hh as [Hlen Hhd]; [|done].
  destruct (Nat.eqb_spec (length hd) 8) as [H8|H8].
  { intros [= <- _]. pose proof (groups_value_range hd Hhd) as Hv. by rewrite H8 in Hv. }
  destruct b; [done|].
  destruct (read_given_char ":" s1) as [[[] s2]|]; [|done]. cbn [mbind option_bind].
  destruct (read_given_char ":" s2) as [[[] s3]|]; [|done]. cbn [mbind option_bind].
  destruct (read_groups (8 - (length hd + 1)) 0 _ s3) as [[tl b'] s4] eqn:Ht.
  apply read_groups_range in Ht as [Hlt Htl]; [|done].
  intros [= <- _]. set (gs := hd ++ _).
  assert (length gs = 8%nat) as Hg by (unfold gs; rewrite !length_app, length_replicate; lia).
  assert (Forall (λ g, 0 ≤ g < 65536) gs) as Hall.
  { unfold gs. rewrite !Forall_app. split_and!; [done| |done]. apply Forall_replicate. lia. }
  pose proof (groups_value_range gs Hall) as Hv. by rewrite Hg in Hv.
Qed.

Lemma parse_ip_wf s ip : parse_ip s = Some ip → ip_wf ip.
Proof.
  unfold parse_ip. destruct (read_ipv4_addr s) as [[a []]|] eqn:H4; [|done|].
  - intros [= <-]. by apply read_ipv4_range in H4.
  - destruct (read_ipv6_addr s) as [[a []]|] eqn:H6; [|done|done].
    intros [= <-]. by apply read_ipv6_range in H6.
Qed.
