(* ===== verification/IpExtractor.v ===== *)
(** * Client address extraction (policy/src/ip_extractor.rs) *)

From Stdlib Require Import Ascii.
From S2P Require Import Prelude Addr Str.

Local Open Scope Z_scope.

Inductive ExtractError := NotFound | Invalid (raw : string).

(** The [Display] of the error. *)
Definition ExtractError_to_string (e : ExtractError) : string :=
  match e with
  | NotFound => "No usable IP found in headers"
  | Invalid raw => "Invalid IP address: " +:+ raw
  end.

(** [std::net::SocketAddr] *)
Record SocketAddr := mkSocketAddr { sa_ip : IpAddr; sa_port : Z }.

Section extract.
Context `{IpNetworkCrate}.

Definition is_trusted (ip : IpAddr) (trusted : list IpNetwork) : bool :=
  existsb (λ net, net_contains net ip) trusted.

(** The loop over the hops, from the right: [Some] is an early return. *)
Fixpoint walk_hops (hops : list string) (trusted : list IpNetwork)
    : option (Result IpAddr ExtractError) :=
  match hops with
  | [] => None
  | raw :: hops' =>
      match parse_ip raw with
      | None => Some (Err (Invalid raw))
      | Some ip => if negb (is_trusted ip trusted) then Some (Ok ip) else walk_hops hops' trusted
      end
  end.

Definition extract_ip (xff x_real_ip : option string) (remote_addr : option SocketAddr)
    (trusted_proxies : list IpNetwork) : Result IpAddr ExtractError :=
  let from_xff :=
    xff_val ← xff;
    let ips := trim <$> split_on "," xff_val in
    walk_hops (reverse ips) trusted_proxies in
  match from_xff with
  | Some r => r
  | None =>
      match x_real_ip with
      | Some rip =>
          match parse_ip rip with
          | Some ip => Ok ip
          | None => Err (Invalid rip)
          end
      | None =>
          match remote_addr with
          | Some addr => Ok (sa_ip addr)
          | None => Err NotFound
          end
      end
  end.

Implicit Types (trusted : list IpNetwork) (hops : list string).

(** A hop the walk passes over. *)
Definition passed trusted (raw : string) : Prop :=
  ∃ ip, parse_ip raw = Some ip ∧ is_trusted ip trusted = true.

(** The walk answers with the first hop that is not a trusted proxy. *)
Lemma walk_hops_spec hops trusted :
  match walk_hops hops trusted with
  | None => Forall (passed trusted) hops
  | Some r =>
      ∃ before raw after, hops = before ++ raw :: after ∧ Forall (passed trusted) before ∧
        match r with
        | Ok ip => parse_ip raw = Some ip ∧ is_trusted ip trusted = false
        | Err e => parse_ip raw = None ∧ e = Invalid raw
        end
  end.
Proof.
  induction hops as [|raw hops IH]; simpl; [constructor|].
  destruct (parse_ip raw) as [ip|] eqn:Hp; [|by exists [], raw, hops].
  destruct (is_trusted ip trusted) eqn:Ht; simpl; [|by exists [], raw, hops].
  assert (passed trusted raw) as Hraw by (exists ip; done).
  destruct (walk_hops hops trusted) as [r|].
  - destruct IH as (before & raw' & after & -> & Hb & Hr).
    exists (raw :: before), raw', after. split_and!; [done|by constructor|done].
  - by constructor.
Qed.

(** What stands beyond a decisive hop does not matter. *)
Lemma walk_hops_app hops extra trusted r :
  walk_hops hops trusted = Some r → walk_hops (hops ++ extra) trusted = Some r.
Proof.
  induction hops as [|raw hops IH]; [done|]. simpl.
  destruct (parse_ip raw) as [ip|]; [|done]. by destruct (is_trusted ip trusted).
Qed.

Lemma walk_hops_wf hops trusted ip : walk_hops hops trusted = Some (Ok ip) → ip_wf ip.
Proof.
  induction hops as [|raw hops IH]; [done|]. simpl.
  destruct (parse_ip raw) as [ip'|] eqn:Hp; [|done].
  destruct (is_trusted ip' trusted); simpl; [done|]. intros [= <-]. by eapply parse_ip_wf.
Qed.

Lemma extract_ip_wf xff rip ra trusted ip :
  (∀ a, ra = Some a → ip_wf (sa_ip a)) → extract_ip xff rip ra trusted = Ok ip → ip_wf ip.
Proof.
  intros Hra. unfold extract_ip.
  destruct (xff ≫= _) as [[ip'|]|] eqn:Hx; simpl in Hx |- *.
  - intros [= ->]. destruct xff as [x|]; [|done]. simpl in Hx. by eapply walk_hops_wf.
  - done.
  - destruct rip as [r|].
    + destruct (parse_ip r) eqn:Hp; [|done]. intros [= ->]. by eapply parse_ip_wf.
    + destruct ra as [a|]; [|done]. intros [= <-]. by apply Hra.
Qed.

(** C14: what a client puts in front of the X-Forwarded-For chain has no effect:
    as soon as the part appended by the proxies contains a hop that is not
    trusted (or does not parse), any text prepended to the header, up to a
    comma, leaves the extracted address unchanged. *)
Theorem xff_prefix_irrelevant spoofed chain x_real_ip remote trusted :
  is_Some (walk_hops (reverse (trim <$> split_on "," chain)) trusted) →
  extract_ip (Some (spoofed +:+ String "," chain)) x_real_ip remote trusted =
  extract_ip (Some chain) x_real_ip remote trusted.
Proof.
  intros [r Hr]. unfold extract_ip. cbn [mbind option_bind].
  rewrite split_on_sep, fmap_app, reverse_app, (walk_hops_app _ _ _ _ Hr). by rewrite Hr.
Qed.

(** C13: an address taken from X-Forwarded-For is a hop of the chain that is not a
    trusted proxy, and every hop to its right is one; X-Real-IP and the
    socket address are used exactly when every hop is trusted or the header
    is absent; the only error besides an unparsable hop is the absence of
    all three sources. *)
Theorem extract_ip_spec xff x_real_ip remote trusted :
  let hops := match xff with Some v => trim <$> split_on "," v | None => [] end in
  match extract_ip xff x_real_ip remote trusted with
  | Ok ip =>
      (∃ before raw after, hops = before ++ raw :: after ∧ Forall (passed trusted) after ∧
         parse_ip raw = Some ip ∧ is_trusted ip trusted = false) ∨
      (Forall (passed trusted) hops ∧
         ((∃ rip, x_real_ip = Some rip ∧ parse_ip rip = Some ip) ∨
          (x_real_ip = None ∧ ∃ addr, remote = Some addr ∧ sa_ip addr = ip)))
  | Err (Invalid raw) =>
      parse_ip raw = None ∧
      ((∃ before after, hops = before ++ raw :: after ∧ Forall (passed trusted) after) ∨
       (Forall (passed trusted) hops ∧ x_real_ip = Some raw))
  | Err NotFound => Forall (passed trusted) hops ∧ x_real_ip = None ∧ remote = None
  end.
Proof.
  intros hops. unfold extract_ip.
  assert ((xff_val ← xff; walk_hops (reverse (trim <$> split_on "," xff_val)) trusted) =
          walk_hops (reverse hops) trusted) as Heq by (by destruct xff).
  cbv zeta. rewrite Heq. pose proof (walk_hops_spec (reverse hops) trusted) as Hw.
  destruct (walk_hops (reverse hops) trusted) as [r|].
  - destruct Hw as (before & raw & after & Hrev & Hb & Hr).
    assert (hops = reverse after ++ raw :: reverse before) as Hh.
    { rewrite <- (reverse_involutive hops), Hrev, reverse_app, reverse_cons.
      by rewrite <- (assoc_L (++)). }
    destruct r as [ip|e]; [left|]; [|destruct Hr as [Hr ->]; split; [done|left]].
    + exists (reverse after), raw, (reverse before). split_and!; try apply Hr; [done|].
      by apply Forall_reverse.
    + exists (reverse after), (reverse before). split; [done|]. by apply Forall_reverse.
  - assert (Forall (passed trusted) hops) as Hall.
    { apply Forall_reverse in Hw. by rewrite reverse_involutive in Hw. }
    destruct x_real_ip as [rip|].
    + destruct (parse_ip rip) as [ip|] eqn:Hp; [right|]; eauto 10.
    + destruct remote as [addr|]; [right|]; eauto 10.
Qed.
End extract.
