(* ===== verification/Xdp.v ===== *)
(** * The XDP data plane (ebpf/xdp-kernel/src/main.rs, ebpf/xdp-loader/src/lib.rs)

    The kernel program drops packets whose source address is in one of two
    LPM tries; the loader fills the tries from a Redis snapshot and from
    pub/sub messages, behind guards.  The LPM tries of the kernel (through
    [aya]) and the [ipnet] crate are parameters with their documented laws. *)

From Stdlib Require Import Ascii.
From S2P Require Import Prelude Addr Str.

Local Open Scope Z_scope.

(** ** BPF LPM tries *)

(** Keyed by a prefix length and [n] address bytes.  [lt_content] is what a
    dump of the map shows; [Err] leaves the map as it was. *)
Class LpmTrieCrate := {
  LpmTrie : nat → Type;
  lt_content {n} : LpmTrie n → gmap (Z * list Z) Z;
  lt_get {n} : LpmTrie n → Z → list Z → option Z;
  lt_insert {n} : LpmTrie n → Z → list Z → Z → Result (LpmTrie n) string;
  lt_remove {n} : LpmTrie n → Z → list Z → Result (LpmTrie n) string;
}.

(** [addr] starts with the first [len] bits of [key]. *)
Definition covers (n : nat) (len : Z) (key addr : list Z) : Prop :=
  Z.land (be_value addr) (netmask (8 * Z.of_nat n) len) = Z.land (be_value key) (netmask (8 * Z.of_nat n) len).

#[export] Instance covers_dec n len key addr : Decision (covers n len key addr).
Proof. unfold covers. apply _. Defined.

(** A key without host bits: on such keys the trie is a map. *)
Definition canonical (n : nat) (len : Z) (key : list Z) : Prop :=
  Z.land (be_value key) (netmask (8 * Z.of_nat n) len) = be_value key.

Class LpmTrieLaws `{LpmTrieCrate} : Prop := {
  lt_insert_ok n (t t' : LpmTrie n) len key v :
    canonical n len key → lt_insert t len key v = Ok t' →
    lt_content t' = <[(len, key) := v]> (lt_content t);
  lt_remove_ok n (t t' : LpmTrie n) len key :
    canonical n len key → lt_remove t len key = Ok t' → lt_content t' = delete (len, key) (lt_content t);
  lt_remove_err n (t : LpmTrie n) len key e :
    canonical n len key → lt_remove t len key = Err e → lt_content t !! (len, key) = None;
  lt_get_some n (t : LpmTrie n) addr v :
    lt_get t (8 * Z.of_nat n) addr = Some v →
    ∃ len key, lt_content t !! (len, key) = Some v ∧ covers n len key addr ∧
      ∀ len' key' v', lt_content t !! (len', key') = Some v' → covers n len' key' addr → len' ≤ len;
  lt_get_none n (t : LpmTrie n) addr len key v :
    lt_get t (8 * Z.of_nat n) addr = None → lt_content t !! (len, key) = Some v → ¬ covers n len key addr;
}.

(** ** A concrete trie, for the witnesses *)

Module RefLpmTrie.
(** The longest entry that covers an address. *)
Definition better (n : nat) (addr : list Z) (best : option (Z * Z)) (x : Z * list Z * Z) : option (Z * Z) :=
  let '(len, key, v) := x in
  if bool_decide (covers n len key addr) then
    match best with
    | Some (len', _) => if len' <? len then Some (len, v) else best
    | None => Some (len, v)
    end
  else best.

#[export] Instance crate : LpmTrieCrate := {|
  LpmTrie _ := gmap (Z * list Z) Z;
  lt_content _ t := t;
  lt_get n t _ addr := snd <$> foldl (better n addr) None (map_to_list t);
  lt_insert _ t len key v := Ok (<[(len, key) := v]> t);
  lt_remove _ t len key := if is_some (t !! (len, key)) then Ok (delete (len, key) t) else Err "ENOENT"%string;
|}.

Lemma foldl_better n addr xs :
  match foldl (better n addr) None xs with
  | Some (len, v) =>
      (∃ key, (len, key, v) ∈ xs ∧ covers n len key addr) ∧
      ∀ len' key' v', (len', key', v') ∈ xs → covers n len' key' addr → len' ≤ len
  | None => ∀ len' key' v', (len', key', v') ∈ xs → ¬ covers n len' key' addr
  end.
Proof.
  induction xs as [|[[l k] v] xs IH] using rev_ind; [by intros ??? ?%elem_of_nil|].
  rewrite foldl_app. cbn [foldl]. unfold better at 1. case_bool_decide as Hc.
  - destruct (foldl (better n addr) None xs) as [[len w]|].
    + destruct IH as [(key & Hin & Hcov) Hmax]. destruct (Z.ltb_spec len l) as [Hlt|Hge]; (split; [|]).
      * exists k. split; [|done]. apply elem_of_app. right. by apply list_elem_of_singleton.
      * intros l' k' v' [Hin'|[= -> -> ->]%list_elem_of_singleton]%elem_of_app Hc'; [|lia].
        specialize (Hmax _ _ _ Hin' Hc'). lia.
      * exists key. split; [|done]. apply elem_of_app. by left.
      * intros l' k' v' [Hin'|[= -> -> ->]%list_elem_of_singleton]%elem_of_app Hc'; [by eapply Hmax|lia].
    + split.
      * exists k. split; [|done]. apply elem_of_app. right. by apply list_elem_of_singleton.
      * intros l' k' v' [Hin'|[= -> -> ->]%list_elem_of_singleton]%elem_of_app Hc'; [by destruct (IH _ _ _ Hin')|lia].
  - destruct (foldl (better n addr) None xs) as [[len w]|].
    + destruct IH as [(key & Hin & Hcov) Hmax]. split.
      * exists key. split; [|done]. apply elem_of_app. by left.
      * intros l' k' v' [Hin'|[= -> -> ->]%list_elem_of_singleton]%elem_of_app Hc'; [by eapply Hmax|done].
    + intros l' k' v' [Hin'|[= -> -> ->]%list_elem_of_singleton]%elem_of_app; [by eapply IH|done].
Qed.

#[export] Instance laws : LpmTrieLaws.
Proof.
  split; simpl.
  - by intros n t t' len key v _ [= <-].
  - intros n t t' len key _. destruct (is_some _); [|done]. by intros [= <-].
  - intros n t len key e _. destruct (t !! (len, key)); [done|]. done.
  - intros n t addr v Hg. pose proof (foldl_better n addr (map_to_list t)) as Hb.
    destruct (foldl (better n addr) None (map_to_list t)) as [[len w]|]; [|done]. injection Hg as <-.
    destruct Hb as [(key & Hin & Hc) Hmax]. exists len, key. split; [by apply elem_of_map_to_list|].
    split; [done|]. intros len' key' v' Hin' Hc'. eapply Hmax; [|done]. by apply elem_of_map_to_list.
  - intros n t addr len key v Hg Hin. pose proof (foldl_better n addr (map_to_list t)) as Hb.
    destruct (foldl (better n addr) None (map_to_list t)) as [[len' w]|]; [done|].
    eapply Hb. by apply elem_of_map_to_list.
Qed.
End RefLpmTrie.

(** ** The kernel program *)

Inductive xdp_action := XDP_DROP | XDP_PASS.

#[export] Instance xdp_action_eq_dec : EqDecision xdp_action.
Proof. solve_decision. Defined.

(** The packet and the address it is mapped at. *)
Record XdpContext := mkCtx { ctx_data : Z; ctx_packet : list Z }.
Definition ctx_data_end (ctx : XdpContext) : Z := ctx_data ctx + Z.of_nat (length (ctx_packet ctx)).

Definition ETH_HLEN : Z := 14.
Definition VLAN_HLEN : Z := 4.
Definition ETH_P_IP : Z := 0x0800.
Definition ETH_P_IPV6 : Z := 0x86DD.
Definition ETH_P_8021Q : Z := 0x8100.
Definition ETH_P_8021AD : Z := 0x88A8.
Definition STAT_V4_DROP : nat := 0.
Definition STAT_V4_PASS : nat := 1.
Definition STAT_V6_DROP : nat := 2.
Definition STAT_V6_PASS : nat := 3.
Definition STAT_PARSE_ERR : nat := 4.

Definition ptr_at (ctx : XdpContext) (offset size : Z) : Result Z unit :=
  if ctx_data_end ctx <? ctx_data ctx + offset + size then Err tt else Ok (ctx_data ctx + offset).

(** Reading [size] bytes behind a pointer; [None] outside of the packet. *)
Definition load (ctx : XdpContext) (p size : Z) : option (list Z) :=
  let off := p - ctx_data ctx in
  if (0 <=? off) && (p + size <=? ctx_data_end ctx)
  then Some (take (Z.to_nat size) (drop (Z.to_nat off) (ctx_packet ctx))) else None.

Section kernel.
Context `{LpmTrieCrate}.

Record Kernel := mkKernel { k_v4 : LpmTrie 4; k_v6 : LpmTrie 16; k_stats : list Z }.

(** The program: [None] is a read outside of the packet, [Err] the early
    return of [?]. *)
Definition XM (A : Type) : Type := Kernel → option (Result A unit * Kernel).
#[export] Instance XM_ret : MRet XM := λ A x k, Some (Ok x, k).
#[export] Instance XM_bind : MBind XM := λ A B f m k,
  match m k with
  | Some (Ok a, k') => f a k'
  | Some (Err e, k') => Some (Err e, k')
  | None => None
  end.

Definition bump_stat (idx : nat) : XM unit := λ k,
  Some (Ok tt, mkKernel (k_v4 k) (k_v6 k) (alter (λ x, wrap 64 (x + 1)) idx (k_stats k))).

(** [*ptr_at::<[u8; size]>(ctx, offset)?] *)
Definition read_at (ctx : XdpContext) (offset size : Z) : XM (list Z) := λ k,
  match ptr_at ctx offset size with
  | Err e => Some (Err e, k)
  | Ok p => match load ctx p size with Some bs => Some (Ok bs, k) | None => None end
  end.

(** [BLOCKLIST.get(&key).map_or(false, |v| *v != 0)] *)
Definition hit4 (src : list Z) : XM bool := λ k,
  Some (Ok (match lt_get (k_v4 k) 32 src with Some v => negb (v =? 0) | None => false end), k).
Definition hit6 (src : list Z) : XM bool := λ k,
  Some (Ok (match lt_get (k_v6 k) 128 src with Some v => negb (v =? 0) | None => false end), k).

Definition try_xdp (ctx : XdpContext) : XM xdp_action :=
  et ← read_at ctx 12 2;
  let proto := be_value et in
  '(proto, l3) ← (if (proto =? ETH_P_8021Q) || (proto =? ETH_P_8021AD) then
                    inner ← read_at ctx (ETH_HLEN + 2) 2;
                    mret (be_value inner, ETH_HLEN + VLAN_HLEN)
                  else mret (proto, ETH_HLEN));
  if proto =? ETH_P_IP then
    src ← read_at ctx (l3 + 12) 4;
    hit ← hit4 src;
    if (hit : bool) then _ ← bump_stat STAT_V4_DROP; mret XDP_DROP
    else _ ← bump_stat STAT_V4_PASS; mret XDP_PASS
  else if proto =? ETH_P_IPV6 then
    src ← read_at ctx (l3 + 8) 16;
    hit ← hit6 src;
    if (hit : bool) then _ ← bump_stat STAT_V6_DROP; mret XDP_DROP
    else _ ← bump_stat STAT_V6_PASS; mret XDP_PASS
  else mret XDP_PASS.

Definition radixip_xdp (ctx : XdpContext) (k : Kernel) : option (xdp_action * Kernel) :=
  match try_xdp ctx k with
  | Some (Ok action, k') => Some (action, k')
  | Some (Err _, k') => '(_, k'') ← bump_stat STAT_PARSE_ERR k'; Some (XDP_PASS, k'')
  | None => None
  end.
End kernel.

(** ** What the program drops *)

(** The [n] bytes at an offset of the frame. *)
Definition slice (pkt : list Z) (off n : nat) : option (list Z) :=
  if (off + n <=? length pkt)%nat then Some (take n (drop off pkt)) else None.

(** The source address of an Ethernet frame with at most one VLAN tag, by the
    offsets of the wire format. *)
Inductive source (pkt : list Z) : IpAddr → Prop :=
  | source_v4 s :
      slice pkt 12 2 = Some [0x08; 0x00] → slice pkt 26 4 = Some s → source pkt (V4 (be_value s))
  | source_v4_tagged tag s :
      tag = [0x81; 0x00] ∨ tag = [0x88; 0xa8] → slice pkt 12 2 = Some tag →
      slice pkt 16 2 = Some [0x08; 0x00] → slice pkt 30 4 = Some s → source pkt (V4 (be_value s))
  | source_v6 s :
      slice pkt 12 2 = Some [0x86; 0xdd] → slice pkt 22 16 = Some s → source pkt (V6 (be_value s))
  | source_v6_tagged tag s :
      tag = [0x81; 0x00] ∨ tag = [0x88; 0xa8] → slice pkt 12 2 = Some tag →
      slice pkt 16 2 = Some [0x86; 0xdd] → slice pkt 26 16 = Some s → source pkt (V6 (be_value s)).

Lemma slice_bytes pkt off s :
  Forall (in_width 8) pkt → slice pkt off 2 = Some s → ∃ a b, s = [a; b] ∧ in_width 8 a ∧ in_width 8 b.
Proof.
  intros Hb. unfold slice. destruct (Nat.leb_spec (off + 2) (length pkt)) as [Hl|]; [|done]. intros [= <-].
  assert (Forall (in_width 8) (take 2 (drop off pkt))) as Hs by (by apply Forall_take, Forall_drop).
  assert (length (take 2 (drop off pkt)) = 2%nat) as Hlen by (rewrite length_take, length_drop; lia).
  destruct (take 2 (drop off pkt)) as [|a [|b [|]]]; try done.
  apply Forall_cons in Hs as [Ha Hs]. apply Forall_cons in Hs as [Hb' _]. by exists a, b.
Qed.

(** Two bytes are determined by their value. *)
Lemma be_value_pair a b c d :
  in_width 8 a → in_width 8 b → in_width 8 c → in_width 8 d →
  be_value [a; b] = be_value [c; d] → [a; b] = [c; d].
Proof. unfold in_width, be_value. simpl. intros ???? Heq. repeat f_equal; lia. Qed.

Section drops.
Context `{LpmTrieLaws}.
Implicit Types (k : Kernel) (ctx : XdpContext).

(** An entry that covers the address. *)
Definition listed4 (t : LpmTrie 4) (a : Z) : Prop :=
  ∃ len key v, lt_content t !! (len, key) = Some v ∧
    Z.land a (netmask 32 len) = Z.land (be_value key) (netmask 32 len).
Definition listed6 (t : LpmTrie 16) (a : Z) : Prop :=
  ∃ len key v, lt_content t !! (len, key) = Some v ∧
    Z.land a (netmask 128 len) = Z.land (be_value key) (netmask 128 len).
Definition listed k (ip : IpAddr) : Prop :=
  match ip with V4 a => listed4 (k_v4 k) a | V6 a => listed6 (k_v6 k) a end.

(** The loader only writes ones. *)
Definition all_ones k : Prop :=
  (∀ e v, lt_content (k_v4 k) !! e = Some v → v = 1) ∧ (∀ e v, lt_content (k_v6 k) !! e = Some v → v = 1).

Lemma read_at_slice ctx (off n : nat) k :
  read_at ctx (Z.of_nat off) (Z.of_nat n) k =
  Some (match slice (ctx_packet ctx) off n with Some bs => Ok bs | None => Err tt end, k).
Proof.
  unfold read_at, ptr_at, load, slice, ctx_data_end. set (len := length (ctx_packet ctx)).
  destruct (Z.ltb_spec (ctx_data ctx + Z.of_nat len) (ctx_data ctx + Z.of_nat off + Z.of_nat n)) as [Hlt|Hge].
  - by rewrite (proj2 (Nat.leb_gt (off + n) len)) by lia.
  - rewrite (proj2 (Nat.leb_le (off + n) len)) by lia.
    rewrite (proj2 (Z.leb_le 0 _)), (proj2 (Z.leb_le (ctx_data ctx + _ + _) _)) by lia. simpl.
    replace (Z.to_nat (ctx_data ctx + Z.of_nat off - ctx_data ctx)) with off by lia. by rewrite Nat2Z.id.
Qed.

Lemma hit4_listed k s :
  all_ones k → match lt_get (k_v4 k) 32 s with Some v => negb (v =? 0) | None => false end = true ↔
    listed4 (k_v4 k) (be_value s).
Proof.
  intros [Hone _]. destruct (lt_get (k_v4 k) 32 s) as [v|] eqn:Hg.
  - apply (lt_get_some 4 (k_v4 k)) in Hg as (len & key & Hc & Hcov & _). rewrite (Hone _ _ Hc). split; [|done].
    intros _. by exists len, key, v.
  - split; [done|]. intros (len & key & v & Hc & Hcov). by destruct (lt_get_none 4 (k_v4 k) s len key v Hg Hc).
Qed.

Lemma hit6_listed k s :
  all_ones k → match lt_get (k_v6 k) 128 s with Some v => negb (v =? 0) | None => false end = true ↔
    listed6 (k_v6 k) (be_value s).
Proof.
  intros [_ Hone]. destruct (lt_get (k_v6 k) 128 s) as [v|] eqn:Hg.
  - apply (lt_get_some 16 (k_v6 k)) in Hg as (len & key & Hc & Hcov & _). rewrite (Hone _ _ Hc). split; [|done].
    intros _. by exists len, key, v.
  - split; [done|]. intros (len & key & v & Hc & Hcov). by destruct (lt_get_none 16 (k_v6 k) s len key v Hg Hc).
Qed.

(** The two arms of the match, with the source address at [off]. *)
Definition v4_arm ctx (off : nat) : XM xdp_action :=
  src ← read_at ctx (Z.of_nat off) 4;
  hit ← hit4 src;
  if (hit : bool) then _ ← bump_stat STAT_V4_DROP; mret XDP_DROP
  else _ ← bump_stat STAT_V4_PASS; mret XDP_PASS.
Definition v6_arm ctx (off : nat) : XM xdp_action :=
  src ← read_at ctx (Z.of_nat off) 16;
  hit ← hit6 src;
  if (hit : bool) then _ ← bump_stat STAT_V6_DROP; mret XDP_DROP
  else _ ← bump_stat STAT_V6_PASS; mret XDP_PASS.

(** How a run ends: the tries are as before, and the packet is dropped
    exactly when [drop] holds; a failed parse never drops. *)
Definition ends (r : option (Result xdp_action unit * Kernel)) k (drop : Prop) : Prop :=
  ∃ out k', r = Some (out, k') ∧ k_v4 k' = k_v4 k ∧ k_v6 k' = k_v6 k ∧ (out = Ok XDP_DROP ↔ drop).

Lemma v4_arm_ends ctx off k :
  all_ones k → ends (v4_arm ctx off k) k (∃ s, slice (ctx_packet ctx) off 4 = Some s ∧ listed4 (k_v4 k) (be_value s)).
Proof.
  intros Hone. unfold v4_arm, mbind, XM_bind. rewrite (read_at_slice ctx off 4).
  destruct (slice (ctx_packet ctx) off 4) as [s|]; cbn [hit4].
  - pose proof (hit4_listed k s Hone) as Hh. unfold hit4.
    destruct (match lt_get (k_v4 k) 32 s with Some v => negb (v =? 0) | None => false end);
      eexists _, _; (split_and!; [done|done|done|]); (split; [|intros (s' & [= <-] & Hl%Hh)]); try done.
    intros _. exists s. split; [done|by apply Hh].
  - eexists _, _. split_and!; [done|done|done|]. split; [done|by intros (s & ? & _)].
Qed.

Lemma v6_arm_ends ctx off k :
  all_ones k → ends (v6_arm ctx off k) k (∃ s, slice (ctx_packet ctx) off 16 = Some s ∧ listed6 (k_v6 k) (be_value s)).
Proof.
  intros Hone. unfold v6_arm, mbind, XM_bind. rewrite (read_at_slice ctx off 16).
  destruct (slice (ctx_packet ctx) off 16) as [s|]; cbn [hit6].
  - pose proof (hit6_listed k s Hone) as Hh. unfold hit6.
    destruct (match lt_get (k_v6 k) 128 s with Some v => negb (v =? 0) | None => false end);
      eexists _, _; (split_and!; [done|done|done|]); (split; [|intros (s' & [= <-] & Hl%Hh)]); try done.
    intros _. exists s. split; [done|by apply Hh].
  - eexists _, _. split_and!; [done|done|done|]. split; [done|by intros (s & ? & _)].
Qed.

Lemma ends_iff r k P Q : ends r k P → (P ↔ Q) → ends r k Q.
Proof. intros (out & k' & Hr & H4 & H6 & Hd) HPQ. exists out, k'. by rewrite Hd. Qed.

(** The EtherType decides which arm runs. *)
Definition dispatch_proto ctx (proto : Z) (off4 off6 : nat) : XM xdp_action :=
  if proto =? ETH_P_IP then v4_arm ctx off4
  else if proto =? ETH_P_IPV6 then v6_arm ctx off6
  else mret XDP_PASS.

Lemma dispatch_ends ctx a b off4 off6 k :
  all_ones k → in_width 8 a → in_width 8 b →
  ends (dispatch_proto ctx (be_value [a; b]) off4 off6 k) k
    (([a; b] = [0x08; 0x00] ∧ ∃ s, slice (ctx_packet ctx) off4 4 = Some s ∧ listed4 (k_v4 k) (be_value s)) ∨
     ([a; b] = [0x86; 0xdd] ∧ ∃ s, slice (ctx_packet ctx) off6 16 = Some s ∧ listed6 (k_v6 k) (be_value s))).
Proof.
  intros Hone Ha Hb. unfold dispatch_proto.
  destruct (Z.eqb_spec (be_value [a; b]) ETH_P_IP) as [E|E].
  - apply (be_value_pair a b 0x08 0x00) in E as ->; [|done..].
    eapply ends_iff; [by apply v4_arm_ends|]. split; [by left|]. by intros [[_ ?]|[? _]].
  - destruct (Z.eqb_spec (be_value [a; b]) ETH_P_IPV6) as [E'|E'].
    + apply (be_value_pair a b 0x86 0xdd) in E' as ->; [|done..].
      eapply ends_iff; [by apply v6_arm_ends|]. split; [by right|]. by intros [[? _]|[_ ?]].
    + eexists _, k. split_and!; [done|done|done|]. split; [done|].
      intros [[Heq _]|[Heq _]]; injection Heq as -> ->; [by destruct E|by destruct E'].
Qed.

Lemma try_xdp_stages ctx k :
  try_xdp ctx k =
  match slice (ctx_packet ctx) 12 2 with
  | None => Some (Err tt, k)
  | Some et =>
      if (be_value et =? ETH_P_8021Q) || (be_value et =? ETH_P_8021AD) then
        match slice (ctx_packet ctx) 16 2 with
        | None => Some (Err tt, k)
        | Some inner => dispatch_proto ctx (be_value inner) 30 26 k
        end
      else dispatch_proto ctx (be_value et) 26 22 k
  end.
Proof.
  unfold try_xdp, mbind at 1, XM_bind at 1. rewrite (read_at_slice ctx 12 2).
  destruct (slice (ctx_packet ctx) 12 2) as [et|]; [|done].
  destruct ((be_value et =? ETH_P_8021Q) || (be_value et =? ETH_P_8021AD)).
  - unfold mbind at 1, XM_bind at 1. unfold mbind at 1, XM_bind at 1. rewrite (read_at_slice ctx 16 2).
    by destruct (slice (ctx_packet ctx) 16 2).
  - done.
Qed.

Lemma source_tagged pkt tag inner k :
  tag = [0x81; 0x00] ∨ tag = [0x88; 0xa8] → slice pkt 12 2 = Some tag → slice pkt 16 2 = Some inner →
  (inner = [0x08; 0x00] ∧ ∃ s, slice pkt 30 4 = Some s ∧ listed4 (k_v4 k) (be_value s)) ∨
  (inner = [0x86; 0xdd] ∧ ∃ s, slice pkt 26 16 = Some s ∧ listed6 (k_v6 k) (be_value s)) ↔
  ∃ ip, source pkt ip ∧ listed k ip.
Proof.
  intros Ht E1 E2. split.
  - intros [[-> (s & Es & Hl)]|[-> (s & Es & Hl)]].
    + exists (V4 (be_value s)). split; [by eapply source_v4_tagged|done].
    + exists (V6 (be_value s)). split; [by eapply source_v6_tagged|done].
  - intros (ip & Hs & Hl). destruct Hs as [s E|tag' s _ _ E Es|s E|tag' s _ _ E Es]; simplify_eq.
    + by destruct Ht.
    + left. eauto.
    + by destruct Ht.
    + right. eauto.
Qed.

Lemma source_untagged pkt et k :
  et ≠ [0x81; 0x00] → et ≠ [0x88; 0xa8] → slice pkt 12 2 = Some et →
  (et = [0x08; 0x00] ∧ ∃ s, slice pkt 26 4 = Some s ∧ listed4 (k_v4 k) (be_value s)) ∨
  (et = [0x86; 0xdd] ∧ ∃ s, slice pkt 22 16 = Some s ∧ listed6 (k_v6 k) (be_value s)) ↔
  ∃ ip, source pkt ip ∧ listed k ip.
Proof.
  intros Ht1 Ht2 E1. split.
  - intros [[-> (s & Es & Hl)]|[-> (s & Es & Hl)]].
    + exists (V4 (be_value s)). split; [by eapply source_v4|done].
    + exists (V6 (be_value s)). split; [by eapply source_v6|done].
  - intros (ip & Hs & Hl). destruct Hs as [s E|tag' s Ht E _ Es|s E|tag' s Ht E _ Es]; simplify_eq.
    + left. eauto.
    + by destruct Ht.
    + right. eauto.
    + by destruct Ht.
Qed.

Lemma try_xdp_ends ctx k :
  Forall (in_width 8) (ctx_packet ctx) → all_ones k →
  ends (try_xdp ctx k) k (∃ ip, source (ctx_packet ctx) ip ∧ listed k ip).
Proof.
  intros Hb Hone. rewrite try_xdp_stages. set (pkt := ctx_packet ctx) in *.
  assert (∀ P : Prop, ¬ P → ends (Some (Err tt, k)) k P) as Herr.
  { intros P HP. eexists _, k. split_and!; [done|done|done|]. by split. }
  destruct (slice pkt 12 2) as [et|] eqn:E1.
  2: { apply Herr. intros (ip & Hs & _). destruct Hs; congruence. }
  destruct (slice_bytes _ _ _ Hb E1) as (a & b & -> & Ha & Hb').
  destruct (decide ([a; b] = [0x81; 0x00] ∨ [a; b] = [0x88; 0xa8])) as [Ht|Ht].
  - replace ((be_value [a; b] =? ETH_P_8021Q) || (be_value [a; b] =? ETH_P_8021AD)) with true
      by (destruct Ht as [-> | ->]; done).
    destruct (slice pkt 16 2) as [inner|] eqn:E2.
    2: { apply Herr. intros (ip & Hs & _). destruct Hs; destruct Ht; congruence. }
    destruct (slice_bytes _ _ _ Hb E2) as (c & d & -> & Hc & Hd).
    eapply ends_iff; [by apply dispatch_ends|]. by apply (source_tagged pkt [a; b]).
  - replace ((be_value [a; b] =? ETH_P_8021Q) || (be_value [a; b] =? ETH_P_8021AD)) with false.
    + eapply ends_iff; [by apply dispatch_ends|]. apply source_untagged; tauto.
    + symmetry. apply orb_false_iff. rewrite !Z.eqb_neq. split; intros E; apply Ht; [left|right];
        apply be_value_pair; done.
Qed.

Lemma xdp_run ctx k :
  Forall (in_width 8) (ctx_packet ctx) → all_ones k →
  ∃ action k', radixip_xdp ctx k = Some (action, k') ∧ k_v4 k' = k_v4 k ∧ k_v6 k' = k_v6 k ∧
    (action = XDP_DROP ↔ ∃ ip, source (ctx_packet ctx) ip ∧ listed k ip).
Proof.
  intros Hb Hone. destruct (try_xdp_ends ctx k Hb Hone) as (out & k' & R & H4 & H6 & Hd).
  unfold radixip_xdp. rewrite R. destruct out as [action|e].
  - exists action, k'. split_and!; [done|done|done|]. rewrite <- Hd. split; [by intros ->|by intros [= ->]].
  - eexists XDP_PASS, _. split_and!; [done|done|done|]. rewrite <- Hd. done.
Qed.

(** C15: for every packet the program reads only inside the packet, leaves the tries alone
    and drops it exactly when it is an IPv4 or IPv6 frame, plain or with one VLAN tag, whose
    source address is covered by an entry; everything else, truncated frames included, passes. *)
Theorem xdp_drop_iff ctx k :
  Forall (in_width 8) (ctx_packet ctx) → all_ones k →
  ∃ action k', radixip_xdp ctx k = Some (action, k') ∧ k_v4 k' = k_v4 k ∧ k_v6 k' = k_v6 k ∧
    (action = XDP_DROP ↔ ∃ ip, source (ctx_packet ctx) ip ∧ listed k ip).
Proof. apply xdp_run. Qed.
End drops.
