(* ===== verification/XdpLoader.v ===== *)
(** * The XDP loader (ebpf/xdp-loader/src/lib.rs)

    The guards of [normalize], the maps, the seed from the Redis snapshot and
    the pub/sub events.  The [ipnet] crate is a parameter with its documented
    laws. *)

From Stdlib Require Import Ascii.
From S2P Require Import Prelude Addr Str Xdp.

Local Open Scope Z_scope.

(** ** The [ipnet] crate *)

Class IpNetCrate := {
  Ipv4Net : Type;
  Ipv6Net : Type;
  Ipv4Net_eq_dec :: EqDecision Ipv4Net;
  Ipv6Net_eq_dec :: EqDecision Ipv6Net;
  Ipv4Net_countable :: Countable Ipv4Net;
  Ipv6Net_countable :: Countable Ipv6Net;
  n4_new : Z → Z → option Ipv4Net;
  n4_addr : Ipv4Net → Z;
  n4_prefix_len : Ipv4Net → Z;
  n4_network : Ipv4Net → Z;
  n4_trunc : Ipv4Net → Ipv4Net;
  n4_contains : Ipv4Net → Ipv4Net → bool;
  n6_new : Z → Z → option Ipv6Net;
  n6_addr : Ipv6Net → Z;
  n6_prefix_len : Ipv6Net → Z;
  n6_network : Ipv6Net → Z;
  n6_trunc : Ipv6Net → Ipv6Net;
  n6_contains : Ipv6Net → Ipv6Net → bool;
  ipnet_from_str : string → option (Ipv4Net + Ipv6Net);   (* str::parse::<IpNet>() *)
  ipnet_from_ip : IpAddr → Ipv4Net + Ipv6Net;             (* IpNet::from(IpAddr) *)
}.

Abbreviation IpNet := (Ipv4Net + Ipv6Net)%type.
Abbreviation INetV4 := (@inl Ipv4Net Ipv6Net).
Abbreviation INetV6 := (@inr Ipv4Net Ipv6Net).

(** One family of the crate, of addresses of [w] bits: a network keeps its
    address and prefix length, [network] clears the host bits, [trunc] is the
    network at that address, and [contains] compares two networks. *)
Record ipnet_laws (w : Z) {N : Type} (new : Z → Z → option N) (addr len network : N → Z)
    (trunc : N → N) (contains : N → N → bool) : Prop := {
  il_addr n : in_width w (addr n);
  il_len n : 0 ≤ len n ≤ w;
  il_network n : network n = Z.land (addr n) (netmask w (len n));
  il_trunc n : addr (trunc n) = network n ∧ len (trunc n) = len n;
  il_contains n m :
    contains n m = (len n <=? len m) && (Z.land (network m) (netmask w (len n)) =? network n);
  il_new a p : in_width w a → 0 ≤ p ≤ w → ∃ n, new a p = Some n ∧ addr n = a ∧ len n = p;
  il_new_err a p : w < p → new a p = None;
  il_ext n m : addr n = addr m → len n = len m → n = m;
}.

Class IpNetLaws `{IpNetCrate} : Prop := {
  n4_laws : ipnet_laws 32 n4_new n4_addr n4_prefix_len n4_network n4_trunc n4_contains;
  n6_laws : ipnet_laws 128 n6_new n6_addr n6_prefix_len n6_network n6_trunc n6_contains;
}.

(** ** A concrete model of the crate, for the witnesses *)

Module RefIpNet.
Import RefNetwork.

Definition trunc {w} (n : net w) : net w := default n (new w (network n) (prefix n)).
Definition net_contains_net {w} (n m : net w) : bool :=
  (prefix n <=? prefix m) && (Z.land (network m) (netmask w (prefix n)) =? network n).

(** Text forms: a bare address is a host network; CIDR text is not needed. *)
#[export] Program Instance crate : IpNetCrate := {|
  Ipv4Net := net 32; Ipv6Net := net 128;
  n4_new := new 32; n4_addr := ip; n4_prefix_len := prefix; n4_network := network;
  n4_trunc := trunc; n4_contains := net_contains_net;
  n6_new := new 128; n6_addr := ip; n6_prefix_len := prefix; n6_network := network;
  n6_trunc := trunc; n6_contains := net_contains_net;
  ipnet_from_str _ := None;
  ipnet_from_ip ip :=
    match ip with
    | V4 a => inl (default (dexist (0, 0) _) (new 32 a 32))
    | V6 a => inr (default (dexist (0, 0) _) (new 128 a 128))
    end;
|}.
Next Obligation. by split. Qed.
Next Obligation. by split. Qed.

Lemma laws_n w : 0 ≤ w → ipnet_laws w (new w) ip prefix network trunc net_contains_net.
Proof.
  intros Hw. pose proof (laws_w w) as L. split; try apply L; try done.
  - intros n. unfold trunc.
    destruct (fl_new_ok _ _ _ _ _ _ L (network n) (prefix n)) as (m & -> & Hip & Hlen); [| |by split].
    + apply land_width; [done|]. apply (fl_ip_range _ _ _ _ _ _ L).
    + apply (fl_prefix_range _ _ _ _ _ _ L).
Qed.

#[export] Instance laws : IpNetLaws.
Proof. split; by apply laws_n. Qed.
End RefIpNet.

(** ** Configuration and maps *)

(** Lines cut at white space, as [str::split_whitespace] on ASCII text. *)
Fixpoint split_spaces (s : string) : list string :=
  match s with
  | EmptyString => [EmptyString]
  | String x s' =>
      if is_space x then EmptyString :: split_spaces s'
      else match split_spaces s' with
           | p :: ps => String x p :: ps
           | [] => [String x EmptyString]
           end
  end.
Definition split_whitespace (s : string) : list string := filter (λ p, p ≠ EmptyString) (split_spaces s).

Fixpoint contains_char (c : ascii) (s : string) : bool :=
  match s with String x s' => Ascii.eqb x c || contains_char c s' | EmptyString => false end.

(** [Ipv6Addr::to_ipv4_mapped]: the addresses [::ffff:a.b.c.d] *)
Definition to_ipv4_mapped (a : Z) : option Z :=
  if Z.shiftr a 32 =? 0xffff then Some (Z.land a 0xffffffff) else None.

Inductive LoaderError :=
  | ParseError | TooShort (minimum : Z) | NeverBlock | EmptyMessage | MissingCidr | MapError (e : string)
  | FailClosed.

Inductive Mode := Skb | Driver.

Section loader.
Context `{IpNetCrate} `{LpmTrieCrate}.

Record LoaderConfig := mkLoaderConfig {
  xc_iface : string;
  xc_mode : Mode;
  xc_pin_dir : string;
  xc_redis_url : string;
  xc_channel : string;
  xc_snapshot_key : string;
  fail_closed : bool;
  min_v4 : Z;
  min_v6 : Z;
  never_block : list IpNet;
}.

Record Maps := mkMaps {
  m_v4 : LpmTrie 4;
  m_v6 : LpmTrie 16;
  m_stats : list (list Z);   (* per CPU *)
  m_entries : gset IpNet;
}.

Definition maps_put (m : Maps) (net : IpNet) : Result Maps LoaderError :=
  match net with
  | inl prefix =>
      match lt_insert (m_v4 m) (n4_prefix_len prefix) (be_bytes 4 (n4_network prefix)) 1 with
      | Ok t => Ok (mkMaps t (m_v6 m) (m_stats m) ({[net]} ∪ m_entries m))
      | Err e => Err (MapError e)
      end
  | inr prefix =>
      match lt_insert (m_v6 m) (n6_prefix_len prefix) (be_bytes 16 (n6_network prefix)) 1 with
      | Ok t => Ok (mkMaps (m_v4 m) t (m_stats m) ({[net]} ∪ m_entries m))
      | Err e => Err (MapError e)
      end
  end.

(** The error of [remove] is dropped. *)
Definition maps_delete (m : Maps) (net : IpNet) : Maps :=
  match net with
  | inl prefix =>
      let t := match lt_remove (m_v4 m) (n4_prefix_len prefix) (be_bytes 4 (n4_network prefix)) with
               | Ok t => t | Err _ => m_v4 m end in
      mkMaps t (m_v6 m) (m_stats m) (m_entries m ∖ {[net]})
  | inr prefix =>
      let t := match lt_remove (m_v6 m) (n6_prefix_len prefix) (be_bytes 16 (n6_network prefix)) with
               | Ok t => t | Err _ => m_v6 m end in
      mkMaps (m_v4 m) t (m_stats m) (m_entries m ∖ {[net]})
  end.

Definition maps_stat (m : Maps) (index : nat) : Z :=
  match m_stats m !! index with Some values => foldl Z.add 0 values | None => 0 end.

(** ** Guards *)

Definition net_trunc (net : IpNet) : IpNet :=
  match net with inl n => inl (n4_trunc n) | inr n => inr (n6_trunc n) end.

Definition overlaps (net protected : IpNet) : bool :=
  match net, protected with
  | inl candidate, inl protected => n4_contains candidate protected || n4_contains protected candidate
  | inr candidate, inr protected => n6_contains candidate protected || n6_contains protected candidate
  | _, _ => false
  end.

(** An IPv4-mapped IPv6 prefix becomes an IPv4 prefix. *)
Definition unmap (net : IpNet) : Result IpNet LoaderError :=
  match net with
  | inr prefix =>
      if 96 <=? n6_prefix_len prefix then
        match to_ipv4_mapped (n6_network prefix) with
        | Some address =>
            match n4_new address (n6_prefix_len prefix - 96) with
            | Some n => Ok (inl n)
            | None => Err ParseError
            end
        | None => Ok net
        end
      else Ok net
  | inl _ => Ok net
  end.

Definition normalize (config : LoaderConfig) (net : IpNet) : Result IpNet LoaderError :=
  match unmap (net_trunc net) with
  | Err e => Err e
  | Ok net =>
      let '(minimum, len) := match net with
                             | inl n => (min_v4 config, n4_prefix_len n)
                             | inr n => (min_v6 config, n6_prefix_len n)
                             end in
      if len <? minimum then Err (TooShort minimum)
      else if existsb (overlaps net) (never_block config) then Err NeverBlock
      else Ok net
  end.

Definition parse_net (value : string) : Result IpNet LoaderError :=
  let value := trim value in
  if contains_char "/" value then
    match ipnet_from_str value with Some net => Ok net | None => Err ParseError end
  else
    match parse_ip value with Some ip => Ok (ipnet_from_ip ip) | None => Err ParseError end.

(** ** Seed and events *)

Definition apply_event (config : LoaderConfig) (m : Maps) (payload : string) : Result Maps LoaderError :=
  match split_whitespace payload with
  | [] => Err EmptyMessage
  | first :: fields =>
      let parsed :=
        if decide (first = "add" ∨ first = "del") then
          match fields with cidr :: _ => Ok (first, cidr) | [] => Err MissingCidr end
        else Ok ("add"%string, first) in
      match parsed with
      | Err e => Err e
      | Ok (operation, cidr) =>
          match parse_net cidr with
          | Err e => Err e
          | Ok net =>
              match normalize config net with
              | Err e => Err e
              | Ok net =>
                  if decide (operation = "add"%string) then maps_put m net else Ok (maps_delete m net)
              end
          end
      end
  end.

(** One item of the snapshot; a bad item is skipped. *)
Definition seed_item (config : LoaderConfig) (m : Maps) (item : string) : Result Maps LoaderError :=
  match parse_net item with
  | Err e => Err e
  | Ok net => match normalize config net with Err e => Err e | Ok net => maps_put m net end
  end.

Fixpoint seed (config : LoaderConfig) (m : Maps) (items : list string) : Maps :=
  match items with
  | [] => m
  | item :: rest =>
      match seed_item config m item with Ok m' => seed config m' rest | Err _ => seed config m rest end
  end.

(** [start] up to the attachment: the seed from [SMEMBERS], whose failure is
    fatal only when the configuration says so. *)
Definition start (config : LoaderConfig) (m : Maps) (snapshot : Result (list string) string)
    : Result Maps LoaderError :=
  let '(m', seeded) := match snapshot with
                       | Ok items => (seed config m items, true)
                       | Err _ => (m, false)
                       end in
  if negb seeded && fail_closed config then Err FailClosed else Ok m'.

(** The messages of the subscription; a bad one is logged and ignored. *)
Fixpoint serve (config : LoaderConfig) (m : Maps) (payloads : list string) : Maps :=
  match payloads with
  | [] => m
  | payload :: rest =>
      match apply_event config m payload with Ok m' => serve config m' rest | Err _ => serve config m rest end
  end.
End loader.

(** ** Networks *)

(** The trie key of a network without host bits. *)
Lemma key_canonical (n : nat) {N new addr len network trunc contains}
    (L : @ipnet_laws (8 * Z.of_nat n) N new addr len network trunc contains) (x : N) :
  be_value (be_bytes n (network x)) = network x ∧ canonical n (len x) (be_bytes n (network x)).
Proof.
  assert (be_value (be_bytes n (network x)) = network x) as Hv.
  { apply be_value_be_bytes. rewrite (il_network _ _ _ _ _ _ _ L).
    apply (land_width (8 * Z.of_nat n)); [lia|]. apply (il_addr _ _ _ _ _ _ _ L). }
  split; [done|]. unfold canonical. rewrite Hv, (il_network _ _ _ _ _ _ _ L). apply land_netmask_idemp.
Qed.

(** Two networks that share an address: the longer one lies in the other. *)
Lemma shared_address w {N new addr len network trunc contains}
    (L : @ipnet_laws w N new addr len network trunc contains) (x y : N) a :
  Z.land a (netmask w (len x)) = network x → Z.land a (netmask w (len y)) = network y →
  contains x y || contains y x = true.
Proof.
  intros Hx Hy. rewrite !(il_contains _ _ _ _ _ _ _ L).
  pose proof (il_len _ _ _ _ _ _ _ L x). pose proof (il_len _ _ _ _ _ _ _ L y).
  destruct (Z.leb_spec (len x) (len y)) as [Hle|Hgt]; [|rewrite (proj2 (Z.leb_le (len y) (len x))) by lia];
    cbn [andb]; apply orb_true_iff; [left|right].
  - rewrite <- Hy, <- Hx, land_netmask_le by lia. apply Z.eqb_refl.
  - rewrite <- Hy, <- Hx, land_netmask_le by lia. apply Z.eqb_refl.
Qed.

(** ** What is in the tries *)

Section guarded.
Context `{IpNetLaws} `{LpmTrieLaws}.
Implicit Types (config : LoaderConfig) (m : Maps) (net : IpNet).

Definition net_length net : Z := match net with inl n => n4_prefix_len n | inr n => n6_prefix_len n end.
Definition min_length config net : Z := match net with inl _ => min_v4 config | inr _ => min_v6 config end.

(** A network the guards let through. *)
Definition admitted config net : Prop :=
  min_length config net ≤ net_length net ∧ existsb (overlaps net) (never_block config) = false.

(** Every entry is a one, written for an admitted network. *)
Definition guarded config m : Prop :=
  (∀ len key v, lt_content (m_v4 m) !! (len, key) = Some v →
     v = 1 ∧ ∃ n, len = n4_prefix_len n ∧ key = be_bytes 4 (n4_network n) ∧ admitted config (inl n)) ∧
  (∀ len key v, lt_content (m_v6 m) !! (len, key) = Some v →
     v = 1 ∧ ∃ n, len = n6_prefix_len n ∧ key = be_bytes 16 (n6_network n) ∧ admitted config (inr n)).

Lemma normalize_admitted config net net' : normalize config net = Ok net' → admitted config net'.
Proof.
  unfold normalize. destruct (unmap (net_trunc net)) as [x|]; [|done].
  destruct x as [n|n].
  - destruct (Z.ltb_spec (n4_prefix_len n) (min_v4 config)); [done|].
    destruct (existsb _ _) eqn:Hno; [done|]. intros [= <-]. by split.
  - destruct (Z.ltb_spec (n6_prefix_len n) (min_v6 config)); [done|].
    destruct (existsb _ _) eqn:Hno; [done|]. intros [= <-]. by split.
Qed.

Lemma maps_put_guarded config m net m' :
  admitted config net → maps_put m net = Ok m' → guarded config m → guarded config m'.
Proof.
  intros Ha Hput [H4 H6]. destruct net as [n|n]; simpl in Hput.
  - destruct (lt_insert _ _ _ _) as [t|] eqn:Hins; [|done]. injection Hput as <-.
    apply lt_insert_ok in Hins; [|apply (key_canonical 4 n4_laws)]. split; [|done].
    intros len key v. cbn [m_v4]. rewrite Hins, lookup_insert_Some.
    intros [[[= <- <-] <-]|[_ Hc]]; [|by apply H4]. split; [done|]. by exists n.
  - destruct (lt_insert _ _ _ _) as [t|] eqn:Hins; [|done]. injection Hput as <-.
    apply lt_insert_ok in Hins; [|apply (key_canonical 16 n6_laws)]. split; [done|].
    intros len key v. cbn [m_v6]. rewrite Hins, lookup_insert_Some.
    intros [[[= <- <-] <-]|[_ Hc]]; [|by apply H6]. split; [done|]. by exists n.
Qed.

Lemma maps_delete_guarded config m net : guarded config m → guarded config (maps_delete m net).
Proof.
  intros [H4 H6]. destruct net as [n|n]; simpl.
  - destruct (lt_remove _ _ _) as [t|] eqn:Hrem; [|done].
    apply lt_remove_ok in Hrem; [|apply (key_canonical 4 n4_laws)]. split; [|done].
    intros len key v. cbn [m_v4]. rewrite Hrem. intros [_ Hc]%lookup_delete_Some. by apply H4.
  - destruct (lt_remove _ _ _) as [t|] eqn:Hrem; [|done].
    apply lt_remove_ok in Hrem; [|apply (key_canonical 16 n6_laws)]. split; [done|].
    intros len key v. cbn [m_v6]. rewrite Hrem. intros [_ Hc]%lookup_delete_Some. by apply H6.
Qed.

Lemma apply_event_guarded config m payload m' :
  apply_event config m payload = Ok m' → guarded config m → guarded config m'.
Proof.
  unfold apply_event. destruct (split_whitespace payload) as [|first fields]; [done|].
  destruct (if decide _ then _ else _) as [[operation cidr]|]; [|done].
  destruct (parse_net cidr) as [net|]; [|done].
  destruct (normalize config net) as [net'|] eqn:Hn; [|done]. apply normalize_admitted in Hn.
  case_decide; [by apply maps_put_guarded|]. intros [= <-]. apply maps_delete_guarded.
Qed.

Lemma seed_guarded config items : ∀ m, guarded config m → guarded config (seed config m items).
Proof.
  induction items as [|item items IH]; intros m Hm; [done|]. cbn [seed].
  destruct (seed_item config m item) as [m'|] eqn:Hs; [|by apply IH]. apply IH. revert Hs. unfold seed_item.
  destruct (parse_net item) as [net|]; [|done].
  destruct (normalize config net) as [net'|] eqn:Hn; [|done]. apply normalize_admitted in Hn.
  intros Hp. by eapply maps_put_guarded.
Qed.

Lemma serve_guarded config payloads : ∀ m, guarded config m → guarded config (serve config m payloads).
Proof.
  induction payloads as [|p payloads IH]; intros m Hm; [done|]. cbn [serve].
  destruct (apply_event config m p) as [m'|] eqn:He; [|by apply IH].
  apply IH. by eapply apply_event_guarded.
Qed.

Lemma start_guarded config m snapshot m' :
  start config m snapshot = Ok m' → guarded config m → guarded config m'.
Proof.
  unfold start. destruct snapshot as [items|e]; simpl.
  - intros [= <-]. apply seed_guarded.
  - destruct (fail_closed config); [done|]. by intros [= <-].
Qed.

Definition empty_maps m : Prop := lt_content (m_v4 m) = ∅ ∧ lt_content (m_v6 m) = ∅.

Lemma empty_guarded config m : empty_maps m → guarded config m.
Proof. intros [H4 H6]. split; intros len key v; by rewrite ?H4, ?H6, lookup_empty. Qed.

(** On fresh maps, whatever the snapshot and the messages say, every entry of the tries
    is a one written for a network at least as long as the configured minimum that neither
    contains nor lies in a never-block network; and with [fail_closed] an unreadable snapshot
    stops the start. *)
Theorem blocklist_guarded config m0 snapshot m payloads :
  empty_maps m0 → start config m0 snapshot = Ok m →
  guarded config (serve config m payloads) ∧
  (fail_closed config = true → ∃ items, snapshot = Ok items).
Proof.
  intros He Hs. split.
  - apply serve_guarded. eapply start_guarded; [exact Hs|]. by apply empty_guarded.
  - intros Hf. unfold start in Hs. destruct snapshot as [items|]; [by exists items|].
    simpl in Hs. by rewrite Hf in Hs.
Qed.

(** ** From the messages to the packets *)

Definition kernel_of m stats : Kernel := mkKernel (m_v4 m) (m_v6 m) stats.

(** An address of a network of its own family. *)
Definition in_net net (ip : IpAddr) : Prop :=
  match net, ip with
  | inl n, V4 a => Z.land a (netmask 32 (n4_prefix_len n)) = n4_network n
  | inr n, V6 a => Z.land a (netmask 128 (n6_prefix_len n)) = n6_network n
  | _, _ => False
  end.

Lemma guarded_ones config m stats : guarded config m → all_ones (kernel_of m stats).
Proof. intros [H4 H6]. split; intros [len key] v Hc; [by apply H4 in Hc as [-> _]|by apply H6 in Hc as [-> _]]. Qed.

Lemma guarded_protected config m stats protected ip :
  guarded config m → protected ∈ never_block config → in_net protected ip → ¬ listed (kernel_of m stats) ip.
Proof.
  intros [H4 H6] Hp Hin Hl. destruct ip as [a|a]; destruct Hl as (len & key & v & Hc & Hcov).
  - apply H4 in Hc as (_ & n & -> & -> & _ & Hno). destruct protected as [q|q]; [|done]. simpl in Hin.
    destruct (key_canonical 4 n4_laws n) as [Hkey Hcan]. unfold canonical in Hcan. rewrite Hkey in *.
    apply not_true_iff_false in Hno. apply Hno, existsb_exists. exists (inl q).
    split; [by apply list_elem_of_In|]. apply (shared_address 32 n4_laws n q a); [|done]. by rewrite Hcov.
  - apply H6 in Hc as (_ & n & -> & -> & _ & Hno). destruct protected as [q|q]; [done|]. simpl in Hin.
    destruct (key_canonical 16 n6_laws n) as [Hkey Hcan]. unfold canonical in Hcan. rewrite Hkey in *.
    apply not_true_iff_false in Hno. apply Hno, existsb_exists. exists (inr q).
    split; [by apply list_elem_of_In|]. apply (shared_address 128 n6_laws n q a); [|done]. by rewrite Hcov.
Qed.

(** A frame has one source address. *)
Lemma source_unique pkt ip ip' : source pkt ip → source pkt ip' → ip = ip'.
Proof. intros [] []; simplify_eq; try done; by destruct_or?; simplify_eq. Qed.

Lemma guarded_passes config m stats ctx protected ip :
  guarded config m → Forall (in_width 8) (ctx_packet ctx) → source (ctx_packet ctx) ip →
  protected ∈ never_block config → in_net protected ip →
  ∃ k, radixip_xdp ctx (kernel_of m stats) = Some (XDP_PASS, k).
Proof.
  intros Hg Hb Hsrc Hp Hin.
  destruct (xdp_run ctx (kernel_of m stats) Hb (guarded_ones _ _ _ Hg)) as (action & k & R & _ & _ & Hdrop).
  destruct action; [|by exists k]. exfalso.
  destruct (proj1 Hdrop eq_refl) as (ip' & Hsrc' & Hl). rewrite (source_unique _ _ _ Hsrc' Hsrc) in Hl.
  by apply (guarded_protected config m stats protected ip).
Qed.

(** Starting from fresh maps, after any snapshot and any sequence of messages, a packet
    whose source address lies in a never-block network of its family passes. *)
Theorem never_block_passes config m0 snapshot m payloads stats ctx protected ip :
  empty_maps m0 → start config m0 snapshot = Ok m →
  Forall (in_width 8) (ctx_packet ctx) → source (ctx_packet ctx) ip →
  protected ∈ never_block config → in_net protected ip →
  ∃ k, radixip_xdp ctx (kernel_of (serve config m payloads) stats) = Some (XDP_PASS, k).
Proof.
  intros He Hs Hb Hsrc Hp Hin. eapply guarded_passes; [|done..].
  apply serve_guarded. eapply start_guarded; [exact Hs|]. by apply empty_guarded.
Qed.

(** ** Adding and deleting *)

Lemma decide_add (x : string) : x = "add"%string ∨ x = "del"%string → ∀ A (a b : A),
  (if decide (x = "add"%string ∨ x = "del"%string) then a else b) = a.
Proof. intros Hx A a b. by rewrite decide_True. Qed.

(** The packets of an address are dropped after [add <cidr>] for a network that contains
    it, and [del <cidr>] takes the network out of the tries again: what is left is what was
    there before the [add] without the network. *)
Theorem event_add_del config m payload payload' cidr net0 net m1 stats ctx ip :
  guarded config m → split_whitespace payload = ["add"; cidr] → split_whitespace payload' = ["del"; cidr] →
  parse_net cidr = Ok net0 → normalize config net0 = Ok net → apply_event config m payload = Ok m1 →
  Forall (in_width 8) (ctx_packet ctx) → source (ctx_packet ctx) ip → in_net net ip →
  (∃ k, radixip_xdp ctx (kernel_of m1 stats) = Some (XDP_DROP, k)) ∧
  ∃ m2, apply_event config m1 payload' = Ok m2 ∧ m_entries m2 = m_entries m ∖ {[net]} ∧
    match net with
    | inl n => lt_content (m_v4 m2) = delete (n4_prefix_len n, be_bytes 4 (n4_network n)) (lt_content (m_v4 m)) ∧
               m_v6 m2 = m_v6 m
    | inr n => lt_content (m_v6 m2) = delete (n6_prefix_len n, be_bytes 16 (n6_network n)) (lt_content (m_v6 m)) ∧
               m_v4 m2 = m_v4 m
    end.
Proof.
  intros Hg Hw Hw' Hparse Hnorm Hadd Hb Hsrc Hin.
  pose proof (apply_event_guarded _ _ _ _ Hadd Hg) as Hg1.
  unfold apply_event in Hadd. rewrite Hw, decide_add in Hadd by auto. cbn beta iota zeta in Hadd.
  rewrite Hparse, Hnorm, decide_True in Hadd by done. split.
  - destruct (xdp_run ctx (kernel_of m1 stats) Hb (guarded_ones _ _ _ Hg1)) as (action & k & R & _ & _ & Hdrop).
    exists k. rewrite R. rewrite (proj2 Hdrop); [done|]. exists ip. split; [done|].
    destruct net as [n|n], ip as [a|a]; try done; simpl in Hadd, Hin;
      (destruct (lt_insert _ _ _ _) as [t|] eqn:Hins; [|done]); injection Hadd as <-;
      cbn [listed kernel_of k_v4 k_v6 m_v4 m_v6].
    + destruct (key_canonical 4 n4_laws n) as [Hkey Hcan]. apply lt_insert_ok in Hins; [|done].
      eexists _, _, 1. rewrite Hins, lookup_insert_eq. split; [done|].
      unfold canonical in Hcan. change (8 * Z.of_nat 4) with 32 in Hcan. by rewrite Hcan, Hkey.
    + destruct (key_canonical 16 n6_laws n) as [Hkey Hcan]. apply lt_insert_ok in Hins; [|done].
      eexists _, _, 1. rewrite Hins, lookup_insert_eq. split; [done|].
      unfold canonical in Hcan. change (8 * Z.of_nat 16) with 128 in Hcan. by rewrite Hcan, Hkey.
  - exists (maps_delete m1 net). unfold apply_event. rewrite Hw', decide_add by auto. cbn beta iota zeta.
    rewrite Hparse, Hnorm, decide_False by done. split; [done|].
    destruct net as [n|n]; simpl in Hadd; (destruct (lt_insert _ _ _ _) as [t|] eqn:Hins; [|done]);
      injection Hadd as <-; cbn [maps_delete m_v4 m_v6 m_entries]; (split; [set_solver|]); (split; [|done]).
    + destruct (key_canonical 4 n4_laws n) as [_ Hcan]. apply lt_insert_ok in Hins; [|done].
      destruct (lt_remove t _ _) as [t'|e] eqn:Hrem.
      * apply lt_remove_ok in Hrem; [|done]. by rewrite Hrem, Hins, delete_insert_eq.
      * apply lt_remove_err in Hrem; [|done]. by rewrite Hins, lookup_insert_eq in Hrem.
    + destruct (key_canonical 16 n6_laws n) as [_ Hcan]. apply lt_insert_ok in Hins; [|done].
      destruct (lt_remove t _ _) as [t'|e] eqn:Hrem.
      * apply lt_remove_ok in Hrem; [|done]. by rewrite Hrem, Hins, delete_insert_eq.
      * apply lt_remove_err in Hrem; [|done]. by rewrite Hins, lookup_insert_eq in Hrem.
Qed.

(** ** Warm restarts *)

(** The tries hold an entry for the network. *)
Definition holds m net : Prop :=
  match net with
  | inl n => is_Some (lt_content (m_v4 m) !! (n4_prefix_len n, be_bytes 4 (n4_network n)))
  | inr n => is_Some (lt_content (m_v6 m) !! (n6_prefix_len n, be_bytes 16 (n6_network n)))
  end.

Lemma holds_put m net net' m' : maps_put m net' = Ok m' → holds m net → holds m' net.
Proof.
  destruct net' as [n'|n']; simpl; (destruct (lt_insert _ _ _ _) as [t|] eqn:Hins; [|done]); intros [= <-];
    destruct net as [n|n]; simpl; try done; intros Hh.
  - apply lt_insert_ok in Hins as ->; [|apply (key_canonical 4 n4_laws)]. apply lookup_insert_is_Some'. by right.
  - apply lt_insert_ok in Hins as ->; [|apply (key_canonical 16 n6_laws)]. apply lookup_insert_is_Some'. by right.
Qed.

(** What the guards say of a network only depends on its key. *)
Lemma overlaps_ext w {N new addr len network trunc contains}
    (L : @ipnet_laws w N new addr len network trunc contains) (x y q : N) :
  len x = len y → network x = network y → contains x q || contains q x = contains y q || contains q y.
Proof. intros Hl Hn. by rewrite !(il_contains _ _ _ _ _ _ _ L), Hl, Hn. Qed.

Lemma same_key_admitted4 config (x y : Ipv4Net) :
  (n4_prefix_len x, be_bytes 4 (n4_network x)) = (n4_prefix_len y, be_bytes 4 (n4_network y)) →
  admitted config (inl x) → admitted config (inl y).
Proof.
  intros [Hl Hb]%pair_equal_spec [Hm Hno]. apply (f_equal be_value) in Hb.
  rewrite (proj1 (key_canonical 4 n4_laws x)), (proj1 (key_canonical 4 n4_laws y)) in Hb.
  unfold admitted, min_length, net_length in *. rewrite <- Hl. split; [done|]. rewrite <- Hno.
  apply existsb_same. intros [q|q]; [|done]. symmetry. by apply (overlaps_ext 32 n4_laws).
Qed.

Lemma same_key_admitted6 config (x y : Ipv6Net) :
  (n6_prefix_len x, be_bytes 16 (n6_network x)) = (n6_prefix_len y, be_bytes 16 (n6_network y)) →
  admitted config (inr x) → admitted config (inr y).
Proof.
  intros [Hl Hb]%pair_equal_spec [Hm Hno]. apply (f_equal be_value) in Hb.
  rewrite (proj1 (key_canonical 16 n6_laws x)), (proj1 (key_canonical 16 n6_laws y)) in Hb.
  unfold admitted, min_length, net_length in *. rewrite <- Hl. split; [done|]. rewrite <- Hno.
  apply existsb_same. intros [q|q]; [done|]. symmetry. by apply (overlaps_ext 128 n6_laws).
Qed.

Lemma holds_delete config m net net' :
  ¬ admitted config net → admitted config net' → holds m net → holds (maps_delete m net') net.
Proof.
  intros Hn Hn' Hh. destruct net' as [n'|n']; simpl; (destruct (lt_remove _ _ _) as [t|] eqn:Hrem; [|by destruct net]);
    destruct net as [n|n]; simpl in *; try done.
  - apply lt_remove_ok in Hrem as ->; [|apply (key_canonical 4 n4_laws)].
    rewrite lookup_delete_ne; [done|]. intros Heq. by apply Hn, (same_key_admitted4 config n').
  - apply lt_remove_ok in Hrem as ->; [|apply (key_canonical 16 n6_laws)].
    rewrite lookup_delete_ne; [done|]. intros Heq. by apply Hn, (same_key_admitted6 config n').
Qed.

(** The tries are pinned and survive a restart, and the guards also apply to deletions:
    an entry that the configuration no longer admits (its network was put on the never-block
    list, or the minimum was raised) outlives every snapshot and every message. *)
Theorem stale_entry_permanent config m0 snapshot m payloads net :
  ¬ admitted config net → holds m0 net → start config m0 snapshot = Ok m →
  holds (serve config m payloads) net.
Proof.
  intros Hn Hh Hs. assert (holds m net) as Hm.
  { unfold start in Hs. destruct snapshot as [items|]; simpl in Hs.
    - injection Hs as <-. revert m0 Hh. induction items as [|item items IH]; intros m0 Hh; [done|]. cbn [seed].
      destruct (seed_item config m0 item) as [m'|] eqn:He; [|by apply IH]. apply IH. revert He. unfold seed_item.
      destruct (parse_net item) as [x|]; [|done]. destruct (normalize config x) as [y|]; [|done].
      intros Hp. by eapply holds_put.
    - destruct (fail_closed config); [done|]. by injection Hs as <-. }
  clear Hs Hh. revert m Hm. induction payloads as [|p payloads IH]; intros m Hm; [done|]. cbn [serve].
  destruct (apply_event config m p) as [m'|] eqn:He; [|by apply IH]. apply IH. revert He. unfold apply_event.
  destruct (split_whitespace p) as [|first fields]; [done|].
  destruct (if decide _ then _ else _) as [[operation cidr]|]; [|done].
  destruct (parse_net cidr) as [x|]; [|done].
  destruct (normalize config x) as [y|] eqn:Hy; [|done]. apply normalize_admitted in Hy.
  case_decide; [intros Hp; by eapply holds_put|]. intros [= <-]. by eapply holds_delete.
Qed.
End guarded.
