(* ===== verification/XdpRuntime.v ===== *)
(** * The XDP runtime (ebpf/xdp-loader/src/lib.rs, ebpf/xdp-loader/src/main.rs)

    [start] with every step that can fail, in order, and the task it spawns:
    one loop over the shutdown signal, the statistics timer and the Redis
    messages.  The [aya] and [redis] crates are parameters. *)

From S2P Require Import Prelude Addr Str Xdp XdpLoader.

Local Open Scope Z_scope.

(** ** The crates *)

Inductive XdpFlags := SKB_MODE | DRV_MODE.

(** Errors are their texts. *)
Class LoaderHost `{LpmTrieCrate} := {
  create_dir_all : string → Result unit string;
  Ebpf : Type;
  ebpf_load : string → Result Ebpf string;                        (* map_pin_path(dir).load(BPF_OBJ) *)
  take_v4 : Ebpf → option (Result (LpmTrie 4) string);            (* take_map, then try_from *)
  take_v6 : Ebpf → option (Result (LpmTrie 16) string);
  take_stats : Ebpf → option (Result (list (list Z)) string);
  program_mut : Ebpf → string → option (Result unit string);      (* then try_into *)
  program_load : Ebpf → Result unit string;
  program_attach : Ebpf → string → XdpFlags → Result unit string;
  RClient : Type;
  rclient_open : string → Result RClient string;
  rclient_pubsub : RClient → Result unit string;                  (* get_async_pubsub *)
  rclient_subscribe : RClient → string → Result unit string;
  rclient_connect : RClient → Result unit string;                 (* get_multiplexed_async_connection *)
  rclient_smembers : RClient → string → Result (list string) string;
}.

Section runtime.
Context `{IpNetCrate} `{LpmTrieCrate} `{!LoaderHost}.

(** ** [start] *)

Inductive StartError :=
  | CreateDir (e : string) | LoadObject (e : string)
  | NoMap (name : string) | BadMap (e : string)
  | RedisOpen (e : string) | SnapshotUnread
  | NoProgram | BadProgram (e : string) | Verifier (e : string)
  | Attach (iface : string) (mode : Mode) (e : string).

Definition try_map {A} (name : string) (m : option (Result A string)) : Result A StartError :=
  match m with
  | None => Err (NoMap name)
  | Some (Err e) => Err (BadMap e)
  | Some (Ok a) => Ok a
  end.

Definition take_maps (ebpf : Ebpf) : Result Maps StartError :=
  match try_map "blocklist_v4" (take_v4 ebpf) with
  | Err e => Err e
  | Ok v4 =>
      match try_map "blocklist_v6" (take_v6 ebpf) with
      | Err e => Err e
      | Ok v6 =>
          match try_map "stats" (take_stats ebpf) with
          | Err e => Err e
          | Ok stats => Ok (mkMaps v4 v6 stats ∅)
          end
      end
  end.

(** The subscription; without it the loader goes on. *)
Definition try_subscribe (client : RClient) (channel : string) : bool :=
  match rclient_pubsub client with
  | Ok _ => match rclient_subscribe client channel with Ok _ => true | Err _ => false end
  | Err _ => false
  end.

Definition snapshot (client : RClient) (key : string) : Result (list string) string :=
  match rclient_connect client with
  | Ok _ => rclient_smembers client key
  | Err e => Err e
  end.

Definition mode_flags (m : Mode) : XdpFlags := match m with Skb => SKB_MODE | Driver => DRV_MODE end.

(** Finding, loading and attaching the program. *)
Definition attach_program (config : LoaderConfig) (ebpf : Ebpf) : Result unit StartError :=
  match program_mut ebpf "radixip_xdp" with
  | None => Err NoProgram
  | Some (Err e) => Err (BadProgram e)
  | Some (Ok _) =>
      match program_load ebpf with
      | Err e => Err (Verifier e)
      | Ok _ =>
          match program_attach ebpf (xc_iface config) (mode_flags (xc_mode config)) with
          | Err e => Err (Attach (xc_iface config) (xc_mode config) e)
          | Ok _ => Ok tt
          end
      end
  end.

(** What the spawned task owns.  [rt_stream] is [None] without a
    subscription; a message is its payload or the error of [get_payload]. *)
Record Task := mkXTask {
  rt_config : LoaderConfig;
  rt_maps : Maps;
  rt_stream : option (list (Result string string));
  rt_closed : bool;            (* the pub/sub connection has ended *)
  rt_shutdown : bool;          (* the oneshot is ready: a value, or its sender is gone *)
  rt_running : bool;
}.

Definition start_runtime (config : LoaderConfig) : Result Task StartError :=
  match create_dir_all (xc_pin_dir config) with
  | Err e => Err (CreateDir e)
  | Ok _ =>
      match ebpf_load (xc_pin_dir config) with
      | Err e => Err (LoadObject e)
      | Ok ebpf =>
          match take_maps ebpf with
          | Err e => Err e
          | Ok maps =>
              match rclient_open (xc_redis_url config) with
              | Err e => Err (RedisOpen e)
              | Ok client =>
                  let pubsub := try_subscribe client (xc_channel config) in
                  match start config maps (snapshot client (xc_snapshot_key config)) with
                  | Err _ => Err SnapshotUnread
                  | Ok maps =>
                      match attach_program config ebpf with
                      | Err e => Err e
                      | Ok _ => Ok (mkXTask config maps (if pubsub then Some [] else None) false false true)
                      end
                  end
              end
          end
      end
  end.

(** ** The loop *)

Inductive rt_event :=
  | RtArrive (msg : Result string string)   (* Redis delivers a message *)
  | RtClose                                 (* the connection ends *)
  | RtSignal                                (* Runtime::shutdown or drop *)
  | RtStop                                  (* the shutdown branch *)
  | RtTick                                  (* the timer branch *)
  | RtMessage                               (* the message branch: a message *)
  | RtEnd.                                  (* the message branch: None *)

Definition set_maps (t : Task) (m : Maps) (s : option (list (Result string string))) : Task :=
  mkXTask (rt_config t) m s (rt_closed t) (rt_shutdown t) (rt_running t).

(** [match message.get_payload() { .. }] *)
Definition on_message (config : LoaderConfig) (m : Maps) (msg : Result string string) : Maps :=
  match msg with
  | Ok payload => match apply_event config m payload with Ok m' => m' | Err _ => m end
  | Err _ => m
  end.

Definition rt_step (t : Task) (e : rt_event) : option Task :=
  match e with
  | RtArrive msg =>
      match rt_stream t, rt_closed t with
      | Some q, false => Some (set_maps t (rt_maps t) (Some (q ++ [msg])))
      | _, _ => None
      end
  | RtClose => Some (mkXTask (rt_config t) (rt_maps t) (rt_stream t) true (rt_shutdown t) (rt_running t))
  | RtSignal => Some (mkXTask (rt_config t) (rt_maps t) (rt_stream t) (rt_closed t) true (rt_running t))
  | RtStop =>
      if rt_running t && rt_shutdown t
      then Some (mkXTask (rt_config t) (rt_maps t) (rt_stream t) (rt_closed t) true false) else None
  | RtTick => if rt_running t then Some t else None
  | RtMessage =>
      match rt_running t, rt_stream t with
      | true, Some (msg :: q) => Some (set_maps t (on_message (rt_config t) (rt_maps t) msg) (Some q))
      | _, _ => None
      end
  | RtEnd =>
      match rt_running t, rt_stream t, rt_closed t with
      | true, Some [], true => Some (set_maps t (rt_maps t) None)
      | _, _, _ => None
      end
  end.

Fixpoint rt_run (t : Task) (es : list rt_event) : option Task :=
  match es with
  | [] => Some t
  | e :: es => t' ← rt_step t e; rt_run t' es
  end.

(** The line that the timer logs. *)
Definition stats_line (m : Maps) : list Z :=
  [maps_stat m 0; maps_stat m 1; maps_stat m 2; maps_stat m 3; maps_stat m 4; Z.of_nat (size (m_entries m))].

(** ** [main] *)

(** An invalid or absent configuration, or a start that fails, leaves the
    process running without XDP. *)
Definition main_runtime (config : Result (option LoaderConfig) string) : option Task :=
  match config with
  | Ok (Some config) => match start_runtime config with Ok t => Some t | Err _ => None end
  | Ok None => None
  | Err _ => None
  end.

(** ** What the loop does to the maps *)

Definition rt_arrived (es : list rt_event) : list (Result string string) :=
  omap (λ e, match e with RtArrive m => Some m | _ => None end) es.

Definition payloads_of (ms : list (Result string string)) : list string :=
  omap (λ m, match m with Ok p => Some p | Err _ => None end) ms.

Lemma serve_snoc config m ps p :
  serve config m (ps ++ [p]) = on_message config (serve config m ps) (Ok p).
Proof.
  revert m. induction ps as [|q ps IH]; intros m; simpl.
  - by destruct (apply_event config m p).
  - by destruct (apply_event config m q).
Qed.

Lemma rt_run_snoc t es e t' :
  rt_run t (es ++ [e]) = Some t' ↔ ∃ t1, rt_run t es = Some t1 ∧ rt_step t1 e = Some t'.
Proof.
  revert t. induction es as [|e1 es IH]; intros t; simpl.
  - split; [intros (t1 & Ht & Hr)%bind_Some; exists t; by simplify_eq|by intros (t1 & [= ->] & ->)].
  - destruct (rt_step t e1) as [t2|]; simpl; [apply IH|]. split; [done|by intros (? & ? & ?)].
Qed.

Record rt_inv (config : LoaderConfig) (m0 : Maps) (ms : list (Result string string)) (t : Task) : Prop := {
  ri_config : rt_config t = config;
  ri_maps : ∃ done, rt_maps t = serve config m0 (payloads_of done) ∧
    match rt_stream t with Some q => ms = done ++ q | None => ms = done end;
}.

Lemma rt_inv_step config m0 ms t e t' :
  rt_inv config m0 ms t → rt_step t e = Some t' →
  rt_inv config m0 (ms ++ rt_arrived [e]) t'.
Proof.
  destruct t as [cfg m st cl sh rn]. intros [Hc (done & Hm & Hq)]; simpl in *; subst cfg.
  destruct e as [msg| | | | | | ]; simpl; rewrite ?app_nil_r; intros Hs.
  - destruct st as [q|]; [|done]. destruct cl; simplify_eq/=. split; [done|]. exists done. simpl.
    by rewrite (assoc_L (++)).
  - simplify_eq/=. split; [done|]. by exists done.
  - simplify_eq/=. split; [done|]. by exists done.
  - destruct rn, sh; simplify_eq/=. split; [done|]. by exists done.
  - destruct rn; simplify_eq/=. split; [done|]. by exists done.
  - destruct rn; [|done]. destruct st as [[|msg q]|]; simplify_eq/=. split; [done|].
    exists (done ++ [msg]). simpl. rewrite <-(assoc_L (++)). split; [|done]. unfold payloads_of. rewrite omap_app.
    destruct msg as [p|e]; simpl; [by rewrite serve_snoc|by rewrite app_nil_r].
  - destruct rn; [|done]. destruct st as [[|msg q]|]; try done. destruct cl; simplify_eq/=.
    split; [done|]. exists done. simpl. by rewrite app_nil_r.
Qed.

Lemma rt_run_inv config m0 pubsub es t :
  rt_run (mkXTask config m0 pubsub false false true) es = Some t → pubsub = Some [] ∨ pubsub = None →
  rt_inv config m0 (rt_arrived es) t.
Proof.
  intros Hr Hp. revert t Hr. induction es as [|e es IH] using rev_ind; intros t Hr.
  - injection Hr as <-. split; [done|]. exists []. by destruct Hp as [->| ->].
  - apply rt_run_snoc in Hr as (t1 & Hr & Hs). unfold rt_arrived. rewrite omap_app.
    eapply rt_inv_step; eauto.
Qed.

(** A runtime that started. *)
Lemma start_runtime_Ok config t :
  start_runtime config = Ok t →
  ∃ ebpf client maps0 m pubsub, ebpf_load (xc_pin_dir config) = Ok ebpf ∧ take_maps ebpf = Ok maps0 ∧
    rclient_open (xc_redis_url config) = Ok client ∧
    start config maps0 (snapshot client (xc_snapshot_key config)) = Ok m ∧
    program_attach ebpf (xc_iface config) (mode_flags (xc_mode config)) = Ok tt ∧
    (pubsub = Some [] ∨ pubsub = None) ∧ t = mkXTask config m pubsub false false true.
Proof.
  unfold start_runtime. destruct (create_dir_all _); [|done].
  destruct (ebpf_load _) as [ebpf|]; [|done]. destruct (take_maps ebpf) as [maps0|] eqn:Ht; [|done].
  destruct (rclient_open _) as [client|]; [|done].
  destruct (start config maps0 _) as [m|] eqn:Hs; [|done].
  destruct (attach_program config ebpf) as [u|] eqn:Ha; [|done]. intros [= <-].
  eexists ebpf, client, maps0, m, _. split_and!; try done.
  - unfold attach_program in Ha. destruct (program_mut _ _) as [[?|]|]; [|done|done].
    destruct (program_load _); [|done]. by destruct (program_attach _ _ _) as [[]|].
  - by destruct (try_subscribe _ _); [left|right].
Qed.

(** [fail_closed]: the program is attached only with a snapshot that was read;
    without it an unreachable Redis leaves the seed empty and the start goes on. *)
Theorem fail_closed_attach config t :
  start_runtime config = Ok t →
  (fail_closed config = true →
     ∃ client items, rclient_open (xc_redis_url config) = Ok client ∧
       snapshot client (xc_snapshot_key config) = Ok items) ∧
  rt_running t = true ∧ rt_shutdown t = false.
Proof.
  intros (ebpf & client & maps0 & m & pubsub & _ & _ & Ho & Hs & _ & _ & ->)%start_runtime_Ok.
  split; [|done]. intros Hf. unfold start in Hs. destruct (snapshot client _) as [items|] eqn:Hsn; [eauto|].
  simpl in Hs. by rewrite Hf in Hs.
Qed.

(** Stopping: once the signal was given, or the handle dropped, the shutdown
    branch is open at every turn of the loop, and after it no event changes
    the maps or restarts the loop. *)
Theorem shutdown_stops t :
  rt_running t = true → rt_shutdown t = true →
  ∃ t', rt_step t RtStop = Some t' ∧ rt_maps t' = rt_maps t ∧
    ∀ es t'', rt_run t' es = Some t'' → rt_maps t'' = rt_maps t ∧ rt_running t'' = false.
Proof.
  intros Hr Hs. simpl. rewrite Hr, Hs. simpl. eexists. split_and!; [done|done|].
  set (t' := mkXTask _ _ _ _ _ _). assert (rt_maps t' = rt_maps t ∧ rt_running t' = false) as Ht' by done.
  clearbody t'. intros es. revert t' Ht'. induction es as [|e es IH]; intros t' Ht' t''; simpl.
  - by intros [= <-].
  - intros (t1 & H1' & Hrun)%bind_Some. apply (IH t1); [|done]. destruct Ht' as [<- Hn].
    destruct e; simpl in H1'; rewrite ?Hn in H1'; simpl in H1'; repeat case_match; by simplify_eq/=.
Qed.
End runtime.

Section guarantees.
Context `{IpNetLaws} `{LpmTrieLaws} `{!LoaderHost}.

(** The pinned directory holds no maps yet, or empty ones. *)
Definition fresh_pins config : Prop :=
  ∀ ebpf maps0, ebpf_load (xc_pin_dir config) = Ok ebpf → take_maps ebpf = Ok maps0 → empty_maps maps0.

(** C10: at every moment of a run from fresh pins, whatever arrives and in whatever
    order the branches of the loop are taken, the maps are those of the seed
    after a prefix of the delivered messages, handled in order, and a packet
    of a never-block network passes. *)
Theorem runtime_never_blocks config t0 es t ctx protected ip stats :
  start_runtime config = Ok t0 → fresh_pins config → rt_run t0 es = Some t →
  (∃ done rest, rt_arrived es = done ++ rest ∧ rt_maps t = serve config (rt_maps t0) (payloads_of done)) ∧
  (Forall (in_width 8) (ctx_packet ctx) → source (ctx_packet ctx) ip →
   protected ∈ never_block config → in_net protected ip →
   ∃ k, radixip_xdp ctx (kernel_of (rt_maps t) stats) = Some (XDP_PASS, k)).
Proof.
  intros (ebpf & client & maps0 & m & pubsub & Hl & Ht & _ & Hs & _ & Hp & ->)%start_runtime_Ok Hf Hr.
  destruct (rt_run_inv _ _ _ _ _ Hr Hp) as [_ (done & Hm & Hq)]. split.
  - destruct (rt_stream t) as [q|]; [by exists done, q|]. exists done, []. by rewrite app_nil_r.
  - intros Hb Hsrc Hpr Hin. eapply guarded_passes; [|done..]. rewrite Hm. apply serve_guarded.
    eapply start_guarded; [exact Hs|]. apply empty_guarded. by eapply Hf.
Qed.
End guarantees.
