(* ===== verification/Limiter.v ===== *)
(** * The rate limiter (policy/src/limiter.rs)

    [TokenBucketLimiter] keeps one token bucket per key in a [moka] cache, a
    parameter of the model: [MokaCrate] is the operation the source calls and
    [MokaLaws] what its documentation says, entries may be evicted at any
    time; [MokaRetains] is the case without eviction. *)

From Stdlib Require Import Sorting.Sorted.
From S2P Require Import Prelude Addr DashMap Node Heap RouteTree Engine TokenBucket Config.

Local Open Scope Z_scope.

(** ** The [moka] crate *)

Class MokaCrate := {
  Cache : Type → Type → Type;
  (* Cache::builder().max_capacity(n).time_to_idle(secs).build() *)
  mk_build : ∀ {K V}, Z → Z → Cache K V;
  (* the entry a reader would find *)
  mk_peek : ∀ {K V} `{EqDecision K}, Cache K V → K → option V;
  (* get_with(key, || init) *)
  mk_get_with : ∀ {K V} `{EqDecision K}, Cache K V → K → V → V * Cache K V;
}.

Class MokaLaws `{MokaCrate} : Prop := {
  mk_peek_build {K V} `{EqDecision K} n s (k : K) : mk_peek (V:=V) (mk_build n s) k = None;
  (* the entry found, or the initial value *)
  mk_get_with_value {K V} `{EqDecision K} (c : Cache K V) k init :
    (mk_get_with c k init).1 = init ∨ mk_peek c k = Some (mk_get_with c k init).1;
  (* an entry afterwards is the value returned, or was there before *)
  mk_get_with_peek {K V} `{EqDecision K} (c : Cache K V) k init k' v :
    mk_peek (mk_get_with c k init).2 k' = Some v →
    if decide (k' = k) then v = (mk_get_with c k init).1 else mk_peek c k' = Some v;
}.

(** Nothing is evicted: fewer keys than [max_capacity], none idle too long. *)
Class MokaRetains `{MokaCrate} : Prop := {
  mk_retains_hit {K V} `{EqDecision K} (c : Cache K V) k init :
    (mk_get_with c k init).1 = default init (mk_peek c k);
  mk_retains_peek {K V} `{EqDecision K} (c : Cache K V) k init k' :
    mk_peek (mk_get_with c k init).2 k' =
    if decide (k' = k) then Some (mk_get_with c k init).1 else mk_peek c k';
}.

(** An unbounded cache, for the witnesses. *)
Module RefMoka.
#[export] Instance crate : MokaCrate := {|
  Cache K V := list (K * V);
  mk_build K V _ _ := [];
  mk_peek K V _ := RefDashMap.get;
  mk_get_with K V _ c k init :=
    match RefDashMap.get c k with
    | Some v => (v, c)
    | None => (init, RefDashMap.insert c k init)
    end;
|}.

#[export] Instance retains : MokaRetains.
Proof.
  split; intros K V HK c k init; simpl; destruct (RefDashMap.get c k) as [v|] eqn:E; try done.
  - intros k'. simpl. by destruct (decide (k' = k)) as [->|].
  - intros k'. cbn [fst snd]. rewrite RefDashMap.get_insert.
    destruct (decide (k = k')) as [->|Hne]; [by rewrite decide_True|].
    by rewrite decide_False by congruence.
Qed.

#[export] Instance laws : MokaLaws.
Proof.
  split; [done| |]; intros K V HK c k init; simpl; destruct (RefDashMap.get c k) as [v|] eqn:E.
  - by right.
  - by left.
  - intros k' v'. simpl. case_decide as Hk; [|done]. subst k'. congruence.
  - intros k' v'. cbn [fst snd]. rewrite RefDashMap.get_insert.
    destruct (decide (k = k')) as [->|Hne]; [rewrite decide_True by done; congruence|].
    by rewrite decide_False by congruence.
Qed.
End RefMoka.

(** ** The limiter *)

Section limiter.
Context `{IpNetworkCrate} `{DashMapCrate} `{MokaCrate}.

Inductive BucketKey := Exact (ip : IpAddr) | SubnetKey (net : IpNetwork).

#[export] Instance BucketKey_eq_dec : EqDecision BucketKey.
Proof. solve_decision. Defined.

(** [None] is a panic: a depth above the width of the address. *)
Definition truncate_to_prefix (ip : IpAddr) (depth_v4 depth_v6 : Z) : option IpNetwork :=
  match ip with
  | V4 bits =>
      mask ← (if depth_v4 =? 0 then Some 0
              else if 32 <? depth_v4 then None
              else Some (wrap 32 (Z.shiftl (umax 32) (32 - depth_v4))));
      NetV4 <$> v4_new (Z.land bits mask) depth_v4
  | V6 bits =>
      mask ← (if depth_v6 =? 0 then Some 0
              else if 128 <? depth_v6 then None
              else Some (wrap 128 (Z.shiftl (umax 128) (128 - depth_v6))));
      NetV6 <$> v6_new (Z.land bits mask) depth_v6
  end.

(** The engine is looked up, which updates its statistics. *)
Definition ip_to_key {E} `{!RadixEngine E} (ip : IpAddr) (mode : BucketKeyMode) (engine : option E)
    : M (BucketKey * option E) :=
  match mode with
  | Ip => mret (Exact ip, engine)
  | Subnet depth_v4 depth_v6 =>
      match engine with
      | Some eng =>
          '(found, eng') ← re_lookup eng ip;
          if is_some found then
            match truncate_to_prefix ip depth_v4 depth_v6 with
            | Some prefix => mret (SubnetKey prefix, Some eng')
            | None => panic
            end
          else mret (Exact ip, Some eng')
      | None => mret (Exact ip, None)
      end
  | Both _ _ => mret (Exact ip, engine)
  end.

(** The cache maps a key to an [Arc<TokenBucket>]; the words of the buckets
    are in a store of their own. *)
Record TokenBucketLimiter := mkLimiter {
  lm_cache : Cache BucketKey positive;
  lm_buckets : gmap positive Z;
  lm_next : positive;
  lm_config : RateLimitConfig;
}.

Definition limiter_new (config : RateLimitConfig) : TokenBucketLimiter :=
  mkLimiter (mk_build (rl_max_buckets config) (RateLimitConfig.ttl config)) ∅ 1 config.

(** [consume]: the closure allocates a full bucket when there is none.  The
    clock is read once by [TokenBucket::new] and once by [allow]. *)
Definition consume (l : TokenBucketLimiter) (key : BucketKey) (now_new now : Z)
    : option (bool * TokenBucketLimiter) :=
  let cfg := lm_config l in
  let fresh := lm_next l in
  let '(bucket, cache) := mk_get_with (lm_cache l) key fresh in
  l' ← (if decide (bucket = fresh) then
          v ← bucket_new now_new (rl_capacity cfg);
          Some (mkLimiter cache (<[fresh := v]> (lm_buckets l)) (Pos.succ fresh) cfg)
        else Some (mkLimiter cache (lm_buckets l) fresh cfg));
  state ← lm_buckets l' !! bucket;
  '(b, state') ← allow (rl_capacity cfg) (rl_refill_rate cfg) now state;
  Some (b, mkLimiter (lm_cache l') (<[bucket := state']> (lm_buckets l')) (lm_next l') cfg).

Definition lift_opt {A} (o : option A) : M A := λ h, a ← o; Some (a, h).

(** [clock i] is the [i]-th reading of the clock during the call. *)
Definition limiter_allow {E} `{!RadixEngine E} (l : TokenBucketLimiter) (ip : IpAddr)
    (engine : option E) (clock : nat → Z) : M (bool * TokenBucketLimiter * option E) :=
  match rl_bucket_mode (lm_config l) with
  | Both depth_v4 depth_v6 =>
      '(subnet_key, engine') ← ip_to_key ip (Subnet depth_v4 depth_v6) engine;
      let exact_key := Exact ip in
      '(b, l') ← lift_opt (consume l subnet_key (clock 0%nat) (clock 1%nat));
      if (b : bool) then
        '(b', l'') ← lift_opt (consume l' exact_key (clock 2%nat) (clock 3%nat));
        mret (b', l'', engine')
      else mret (false, l', engine')
  | mode =>
      '(key, engine') ← ip_to_key ip mode engine;
      '(b, l') ← lift_opt (consume l key (clock 0%nat) (clock 1%nat));
      mret (b, l', engine')
  end.
End limiter.

(** ** Truncation *)

Lemma shl_mask (w d : nat) :
  (d ≤ w)%nat → wrap (Z.of_nat w) (Z.shiftl (umax (Z.of_nat w)) (Z.of_nat w - Z.of_nat d)) =
  netmask (Z.of_nat w) (Z.of_nat d).
Proof.
  intros Hd. apply Z.bits_inj'. intros i Hi.
  rewrite netmask_testbit by lia. unfold wrap, umax.
  destruct (decide (i < Z.of_nat w)) as [Hiw|Hiw].
  - rewrite Z.mod_pow2_bits_low, Z.shiftl_spec by lia.
    replace (2 ^ Z.of_nat w - 1) with (Z.ones (Z.of_nat w)) by (rewrite Z.ones_equiv; lia).
    destruct (decide (Z.of_nat w - Z.of_nat d ≤ i)).
    + rewrite bool_decide_eq_true_2 by lia. apply Z.ones_spec_low. lia.
    + rewrite bool_decide_eq_false_2 by lia. apply Z.testbit_neg_r. lia.
  - rewrite Z.mod_pow2_bits_high by lia. symmetry. apply bool_decide_eq_false_2. lia.
Qed.

Lemma netmask_0 w : netmask w 0 = 0.
Proof. unfold netmask. apply Z.shiftl_0_l. Qed.

(** One family of [truncate_to_prefix]. *)
Lemma truncate_family (w d : nat) {N} {new ip prefix network contains}
    (L : @family_laws (Z.of_nat w) N new ip prefix network contains) a :
  (d ≤ w)%nat → in_width (Z.of_nat w) a →
  ∃ n, (mask ← (if Z.of_nat d =? 0 then Some 0
                else if Z.of_nat w <? Z.of_nat d then None
                else Some (wrap (Z.of_nat w) (Z.shiftl (umax (Z.of_nat w)) (Z.of_nat w - Z.of_nat d))));
        new (Z.land a mask) (Z.of_nat d)) = Some n ∧
    prefix n = Z.of_nat d ∧ ip n = Z.land a (netmask (Z.of_nat w) (Z.of_nat d)).
Proof.
  intros Hd Ha.
  assert (in_width (Z.of_nat w) (Z.land a (netmask (Z.of_nat w) (Z.of_nat d)))) as Hw.
  { apply land_width; [lia|done]. }
  destruct (fl_new_ok _ _ _ _ _ _ L (Z.land a (netmask (Z.of_nat w) (Z.of_nat d))) (Z.of_nat d) Hw)
    as (n & Hn & Hip & Hp); [lia|].
  exists n. split_and!; [|done|done].
  destruct (Z.eqb_spec (Z.of_nat d) 0) as [Hz|Hz]; cbn [mbind option_bind].
  - replace (Z.of_nat d) with 0 in Hn |- * by lia. by rewrite netmask_0 in Hn.
  - destruct (Z.ltb_spec (Z.of_nat w) (Z.of_nat d)); [lia|]. cbn [mbind option_bind].
    by rewrite shl_mask by done.
Qed.

Section theorems.
Context `{IpNetworkLaws} `{DashMapCrate}.

Lemma truncate_spec ip (d4 d6 : nat) :
  ip_wf ip → (d4 ≤ 32)%nat → (d6 ≤ 128)%nat →
  ∃ n, truncate_to_prefix ip (Z.of_nat d4) (Z.of_nat d6) = Some n ∧
    net_prefix n = Z.of_nat (match ip with V4 _ => d4 | V6 _ => d6 end) ∧
    net_ip n = match ip with
               | V4 a => V4 (Z.land a (netmask 32 (Z.of_nat d4)))
               | V6 a => V6 (Z.land a (netmask 128 (Z.of_nat d6))) end.
Proof.
  intros Hwf H4 H6. destruct ip as [a|a]; unfold ip_wf in Hwf; simpl in Hwf; unfold truncate_to_prefix.
  - destruct (truncate_family 32 d4 v4_laws a H4 Hwf) as (n & Hn & Hp & Hip).
    exists (NetV4 n). rewrite net_prefix_spec, net_ip_spec. simpl in *.
    split_and!; [|done|by rewrite Hip].
    change (Z.of_nat 32) with 32 in Hn.
    destruct (if Z.of_nat d4 =? 0 then Some 0 else _); simpl in *; [by rewrite Hn|done].
  - destruct (truncate_family 128 d6 v6_laws a H6 Hwf) as (n & Hn & Hp & Hip).
    exists (NetV6 n). rewrite net_prefix_spec, net_ip_spec. simpl in *.
    split_and!; [|done|by rewrite Hip].
    change (Z.of_nat 128) with 128 in Hn.
    destruct (if Z.of_nat d6 =? 0 then Some 0 else _); simpl in *; [by rewrite Hn|done].
Qed.

(** With depths within the address widths, truncation succeeds, the network
    has the configured depth and contains the address, and two addresses of
    one family get the same network exactly when their leading [depth] bits
    agree: one bucket per subnet. *)
Theorem truncate_to_prefix_spec ip ip' (d4 d6 : nat) :
  ip_wf ip → ip_wf ip' → same_family ip ip' = true → (d4 ≤ 32)%nat → (d6 ≤ 128)%nat →
  let d := match ip with V4 _ => d4 | V6 _ => d6 end in
  ∃ n n', truncate_to_prefix ip (Z.of_nat d4) (Z.of_nat d6) = Some n ∧
    truncate_to_prefix ip' (Z.of_nat d4) (Z.of_nat d6) = Some n' ∧
    net_prefix n = Z.of_nat d ∧ net_contains n ip = true ∧
    (n = n' ↔ take d (ip_bits ip) = take d (ip_bits ip')).
Proof.
  intros Hwf Hwf' Hfam H4 H6 d. subst d.
  destruct (truncate_spec ip d4 d6 Hwf H4 H6) as (n & Hn & Hp & Hip).
  destruct (truncate_spec ip' d4 d6 Hwf' H4 H6) as (n' & Hn' & Hp' & Hip').
  exists n, n'. split_and!; [done|done|done| |].
  - rewrite net_contains_spec. rewrite net_ip_spec in Hip. rewrite net_prefix_spec in Hp.
    destruct ip as [a|a], n as [m|m]; try done; simpl in *; injection Hip as Hip.
    + rewrite (fl_contains _ _ _ _ _ _ v4_laws), (fl_network _ _ _ _ _ _ v4_laws), Hip, Hp.
      apply bool_decide_eq_true_2. by rewrite land_netmask_idemp.
    + rewrite (fl_contains _ _ _ _ _ _ v6_laws), (fl_network _ _ _ _ _ _ v6_laws), Hip, Hp.
      apply bool_decide_eq_true_2. by rewrite land_netmask_idemp.
  - rewrite net_ip_spec in Hip, Hip'. rewrite net_prefix_spec in Hp, Hp'. unfold ip_bits.
    destruct ip as [a|a], ip' as [a'|a'], n as [m|m], n' as [m'|m']; try done; simpl in *;
      injection Hip as Hip; injection Hip' as Hip'.
    + rewrite <- (land_netmask_bits 32 d4) by done. change (Z.of_nat 32) with 32. rewrite <- Hip, <- Hip'.
      split; [by intros [= ->]|]. intros Heq. f_equal.
      apply (fl_ext _ _ _ _ _ _ v4_laws); [done|congruence].
    + rewrite <- (land_netmask_bits 128 d6) by done. change (Z.of_nat 128) with 128. rewrite <- Hip, <- Hip'.
      split; [by intros [= ->]|]. intros Heq. f_equal.
      apply (fl_ext _ _ _ _ _ _ v6_laws); [done|congruence].
Qed.

(** The depths of the subnet modes are not validated: with an IPv4 depth
    above 32, a configuration that passes validation makes every request
    from a listed IPv4 address panic. *)
Theorem subnet_depth_panics {E} `{!RadixEngine E} (eng eng' : E) a depth_v4 depth_v6 md h h'
    (root : RootConfig) :
  32 < depth_v4 →
  root_rate_limit root = RateLimitConfig.build
    (RateLimitConfig.bucket_mode RateLimitConfig.builder (Subnet depth_v4 depth_v6)) →
  re_lookup eng (V4 a) h = Some ((Some md, eng'), h') →
  from_config root = Ok (mkRadixIp root) ∧
  ip_to_key (V4 a) (Subnet depth_v4 depth_v6) (Some eng) h = None.
Proof.
  intros Hd Hroot Hl. split.
  - unfold from_config, validate. simpl. by rewrite Hroot.
  - cbn [ip_to_key]. rewrite (bind_run _ _ _ _ _ Hl). simpl.
    destruct (Z.eqb_spec depth_v4 0); [lia|]. by rewrite (proj2 (Z.ltb_lt 32 depth_v4)).
Qed.
End theorems.

(** ** One private bucket per key *)

Section isolation.
Context `{IpNetworkCrate} `{MokaRetains} `{!MokaLaws}.
Implicit Types (l : TokenBucketLimiter) (k : BucketKey) (cfg : RateLimitConfig).

(** Requests, each with its key and the two readings of the clock, by the
    creation of a bucket and by [allow]. *)
Fixpoint consume_all l (reqs : list (BucketKey * (Z * Z))) : option (list bool * TokenBucketLimiter) :=
  match reqs with
  | [] => Some ([], l)
  | (k, (now_new, now)) :: reqs' =>
      '(b, l') ← consume l k now_new now;
      '(bs, l'') ← consume_all l' reqs';
      Some (b :: bs, l'')
  end.

(** A bucket that serves one key only, created full at its first request. *)
Fixpoint private_run cfg (st : option Z) (nows : list (Z * Z)) : option (list bool * option Z) :=
  match nows with
  | [] => Some ([], st)
  | (now_new, now) :: nows' =>
      s ← (match st with Some s => Some s | None => bucket_new now_new (rl_capacity cfg) end);
      '(b, s') ← allow (rl_capacity cfg) (rl_refill_rate cfg) now s;
      '(bs, st') ← private_run cfg (Some s') nows';
      Some (b :: bs, st')
  end.

Definition calls_of k (reqs : list (BucketKey * (Z * Z))) : list (Z * Z) :=
  snd <$> filter (λ r, r.1 = k) reqs.
Definition answers_of k (reqs : list (BucketKey * (Z * Z))) (bs : list bool) : list bool :=
  snd <$> filter (λ r, r.1.1 = k) (zip reqs bs).

Record limiter_inv l : Prop := {
  li_live k x : mk_peek (lm_cache l) k = Some x → (x < lm_next l)%positive;
  li_stored k x : mk_peek (lm_cache l) k = Some x → is_Some (lm_buckets l !! x);
  li_inj k k' x : mk_peek (lm_cache l) k = Some x → mk_peek (lm_cache l) k' = Some x → k = k';
}.

Definition bucket_of l k : option Z := x ← mk_peek (lm_cache l) k; lm_buckets l !! x.

Definition config_fits cfg : Prop :=
  0 ≤ rl_capacity cfg * 1000 < 2 ^ 64 ∧ 0 ≤ rl_refill_rate cfg * 1000 < 2 ^ 64.

Lemma bucket_new_Some cfg now : config_fits cfg → ∃ s, bucket_new now (rl_capacity cfg) = Some s.
Proof. intros [Hc _]. unfold bucket_new, cap_fp. rewrite checked_Some by (split; lia). simpl. eauto. Qed.

Lemma allow_Some cfg now s :
  config_fits cfg → ∃ b s', allow (rl_capacity cfg) (rl_refill_rate cfg) now s = Some (b, s').
Proof.
  intros [Hc Hr]. unfold allow, cap_fp. rewrite !checked_Some by (split; lia). simpl.
  case_match; eauto.
Qed.

(** What a request of key [k] does to the limiter, evictions allowed: it takes
    its token from the bucket of the key, or from a full one made for it; the
    bucket is stored under the key, the others are left alone, and any of them
    may be gone from the cache afterwards. *)
Definition charged l k (now_new now : Z) (b : bool) l' : Prop :=
  lm_config l' = lm_config l ∧
  ∃ s s', (bucket_of l k = Some s ∨ bucket_new now_new (rl_capacity (lm_config l)) = Some s) ∧
    allow (rl_capacity (lm_config l)) (rl_refill_rate (lm_config l)) now s = Some (b, s') ∧
    ∀ k', bucket_of l' k' = (if decide (k' = k) then Some s' else bucket_of l k') ∨ bucket_of l' k' = None.

Lemma consume_fresh l k now_new now c :
  limiter_inv l → config_fits (lm_config l) → mk_get_with (lm_cache l) k (lm_next l) = (lm_next l, c) →
  (∀ k' y, mk_peek c k' = Some y → if decide (k' = k) then y = lm_next l else mk_peek (lm_cache l) k' = Some y) →
  ∃ b l', consume l k now_new now = Some (b, l') ∧ limiter_inv l' ∧ charged l k now_new now b l'.
Proof.
  intros Hinv Hfit Hget Hpeek. unfold consume. rewrite Hget, decide_True by done.
  destruct (bucket_new_Some (lm_config l) now_new Hfit) as [s Hs].
  destruct (allow_Some (lm_config l) now s Hfit) as (b & s' & Ha).
  rewrite Hs. cbn [mbind option_bind lm_buckets lm_cache lm_next].
  rewrite lookup_insert_eq. cbn [mbind option_bind]. rewrite Ha. cbn [mbind option_bind].
  eexists b, _. split; [done|].
  assert (∀ k' y, k' ≠ k → mk_peek c k' = Some y → mk_peek (lm_cache l) k' = Some y ∧ y ≠ lm_next l) as Hold.
  { intros k' y Hk Hy%Hpeek. rewrite decide_False in Hy by done. pose proof (li_live l Hinv _ _ Hy). split; [done|lia]. }
  assert (∀ y, mk_peek c k = Some y → y = lm_next l) as Hnew.
  { intros y Hy%Hpeek. by rewrite decide_True in Hy. }
  split; [split; simpl|split; [done|]].
  - intros k' y Hy. destruct (decide (k' = k)) as [->|Hk]; [rewrite (Hnew y Hy); lia|].
    destruct (Hold k' y Hk Hy) as [Hy' _]. pose proof (li_live l Hinv _ _ Hy'). lia.
  - intros k' y Hy. destruct (decide (k' = k)) as [->|Hk].
    { rewrite (Hnew y Hy), lookup_insert_eq. eauto. }
    destruct (Hold k' y Hk Hy) as [Hy' Hn]. rewrite !lookup_insert_ne by done. by eapply Hinv.
  - intros k1 k2 y Hy1 Hy2. destruct (decide (k1 = k)) as [->|Hk1], (decide (k2 = k)) as [->|Hk2]; [done| | |].
    + pose proof (Hnew y Hy1). by destruct (Hold k2 y Hk2 Hy2).
    + pose proof (Hnew y Hy2). by destruct (Hold k1 y Hk1 Hy1).
    + eapply (li_inj l Hinv _ _ y); [by apply (Hold k1)|by apply (Hold k2)].
  - exists s, s'. split_and!; [by right|done|]. intros k'. unfold bucket_of. simpl.
    destruct (mk_peek c k') as [y|] eqn:Hy; [|by right]. left. simpl. case_decide as Hk.
    + subst k'. by rewrite (Hnew y Hy), lookup_insert_eq.
    + destruct (Hold k' y Hk Hy) as [-> Hn]. simpl. by rewrite !lookup_insert_ne by done.
Qed.

Lemma consume_found l k now_new now x c :
  limiter_inv l → config_fits (lm_config l) → mk_get_with (lm_cache l) k (lm_next l) = (x, c) →
  x ≠ lm_next l → mk_peek (lm_cache l) k = Some x →
  (∀ k' y, mk_peek c k' = Some y → if decide (k' = k) then y = x else mk_peek (lm_cache l) k' = Some y) →
  ∃ b l', consume l k now_new now = Some (b, l') ∧ limiter_inv l' ∧ charged l k now_new now b l'.
Proof.
  intros Hinv Hfit Hget Hne Hx Hpeek. unfold consume. rewrite Hget, decide_False by done.
  pose proof (li_live l Hinv k x Hx) as Hlt. destruct (li_stored l Hinv k x Hx) as [s Hs].
  destruct (allow_Some (lm_config l) now s Hfit) as (b & s' & Ha).
  cbn [mbind option_bind lm_buckets lm_cache lm_next].
  rewrite Hs. cbn [mbind option_bind]. rewrite Ha. cbn [mbind option_bind]. eexists b, _. split; [done|].
  assert (∀ k' y, mk_peek c k' = Some y → mk_peek (lm_cache l) k' = Some y) as Hold.
  { intros k' y Hy%Hpeek. case_decide; [by subst|done]. }
  split; [split; simpl|split; [done|]].
  - intros k' y Hy%Hold. by eapply Hinv.
  - intros k' y Hy%Hold. rewrite lookup_insert. case_decide; [eauto|by eapply Hinv].
  - intros k1 k2 y Hy1%Hold Hy2%Hold. by eapply Hinv.
  - exists s, s'. split_and!; [left; unfold bucket_of; by rewrite Hx|done|]. intros k'. unfold bucket_of. simpl.
    destruct (mk_peek c k') as [y|] eqn:Hy; [|by right]. left. apply Hold in Hy. rewrite Hy. simpl.
    case_decide as Hk; [subst k'; rewrite Hx in Hy; injection Hy as <-; apply lookup_insert_eq|].
    rewrite lookup_insert_ne; [done|]. intros <-. apply Hk. by eapply (li_inj l Hinv).
Qed.

Lemma consume_charged l k now_new now :
  limiter_inv l → config_fits (lm_config l) →
  ∃ b l', consume l k now_new now = Some (b, l') ∧ limiter_inv l' ∧ charged l k now_new now b l'.
Proof.
  intros Hinv Hfit.
  pose proof (mk_get_with_value (lm_cache l) k (lm_next l)) as Hval.
  pose proof (mk_get_with_peek (lm_cache l) k (lm_next l)) as Hpeek.
  destruct (mk_get_with (lm_cache l) k (lm_next l)) as [x c] eqn:Hget. cbn [fst snd] in *.
  destruct (decide (x = lm_next l)) as [->|Hne]; [by eapply consume_fresh|].
  destruct Hval as [?|Hx]; [done|]. by eapply consume_found.
Qed.

Lemma consume_run l k now_new now :
  limiter_inv l → config_fits (lm_config l) →
  ∃ s b s' l', (match bucket_of l k with Some s => Some s
                | None => bucket_new now_new (rl_capacity (lm_config l)) end) = Some s ∧
    allow (rl_capacity (lm_config l)) (rl_refill_rate (lm_config l)) now s = Some (b, s') ∧
    consume l k now_new now = Some (b, l') ∧ limiter_inv l' ∧ lm_config l' = lm_config l ∧
    ∀ k', bucket_of l' k' = if decide (k' = k) then Some s' else bucket_of l k'.
Proof.
  intros Hinv Hfit. unfold consume.
  pose proof (mk_retains_hit (lm_cache l) k (lm_next l)) as Hhit.
  pose proof (mk_retains_peek (lm_cache l) k (lm_next l)) as Hpeek.
  destruct (mk_get_with (lm_cache l) k (lm_next l)) as [x c]. cbn [fst snd] in *.
  destruct (mk_peek (lm_cache l) k) as [y|] eqn:Hy; simpl in Hhit; subst x.
  - pose proof (li_live l Hinv k y Hy) as Hlt. destruct (li_stored l Hinv k y Hy) as [s Hs].
    destruct (allow_Some (lm_config l) now s Hfit) as (b & s' & Ha).
    rewrite decide_False by lia. cbn [mbind option_bind lm_buckets lm_cache lm_next].
    rewrite Hs. cbn [mbind option_bind]. rewrite Ha. cbn [mbind option_bind].
    eexists s, b, s', _. split_and!; [unfold bucket_of; rewrite Hy; simpl; by rewrite Hs|done|done| |done|].
    + split; simpl.
      * intros k' x. rewrite Hpeek. case_decide; [intros [= <-]; lia|]. apply Hinv.
      * intros k' x. rewrite Hpeek, lookup_insert. intros Hx.
        destruct (decide (y = x)); [eauto|].
        destruct (decide (k' = k)); [congruence|]. by eapply Hinv.
      * intros k1 k2 x. rewrite !Hpeek. repeat case_decide; try congruence.
        -- intros [= <-] H2'. subst. by eapply Hinv.
        -- intros H1' [= <-]. subst. by eapply Hinv.
        -- apply Hinv.
    + intros k'. unfold bucket_of. simpl. rewrite Hpeek. case_decide as Hk.
      * simpl. by rewrite lookup_insert_eq.
      * destruct (mk_peek (lm_cache l) k') as [x|] eqn:Hx; [|done]. simpl.
        rewrite lookup_insert_ne; [done|]. intros <-. apply Hk. by eapply Hinv.
  - destruct (bucket_new_Some (lm_config l) now_new Hfit) as [s Hs].
    destruct (allow_Some (lm_config l) now s Hfit) as (b & s' & Ha).
    rewrite decide_True by done. rewrite Hs. cbn [mbind option_bind lm_buckets lm_cache lm_next].
    rewrite lookup_insert_eq. cbn [mbind option_bind]. rewrite Ha. cbn [mbind option_bind].
    eexists s, b, s', _. split_and!; [unfold bucket_of; by rewrite Hy|done|done| |done|].
    + split; simpl.
      * intros k' x. rewrite Hpeek. case_decide; [intros [= <-]; lia|].
        intros Hx. pose proof (li_live l Hinv k' x Hx). lia.
      * intros k' x. rewrite Hpeek, lookup_insert. intros Hx.
        destruct (decide (lm_next l = x)); [eauto|].
        destruct (decide (k' = k)); [congruence|]. rewrite lookup_insert_ne by done. by eapply Hinv.
      * intros k1 k2 x. rewrite !Hpeek. repeat case_decide; try congruence.
        -- intros [= <-] Hx. pose proof (li_live l Hinv _ _ Hx). lia.
        -- intros Hx [= <-]. pose proof (li_live l Hinv _ _ Hx). lia.
        -- apply Hinv.
    + intros k'. unfold bucket_of. simpl. rewrite Hpeek. case_decide as Hk.
      * simpl. by rewrite lookup_insert_eq.
      * destruct (mk_peek (lm_cache l) k') as [x|] eqn:Hx; [|done]. simpl.
        pose proof (li_live l Hinv _ _ Hx). by rewrite !lookup_insert_ne by lia.
Qed.

Lemma consume_all_private cfg reqs : ∀ l,
  limiter_inv l → lm_config l = cfg → config_fits cfg →
  ∃ bs l', consume_all l reqs = Some (bs, l') ∧ length bs = length reqs ∧
    ∀ k, private_run cfg (bucket_of l k) (calls_of k reqs) =
         Some (answers_of k reqs bs, bucket_of l' k).
Proof.
  induction reqs as [|[k0 [now_new now]] reqs IH]; intros l Hinv Hcfg Hfit.
  - exists [], l. split_and!; done.
  - destruct (consume_run l k0 now_new now Hinv) as (s & b & s' & l1 & Hs & Ha & Hc & Hinv1 & Hcfg1 & Hb);
      [by rewrite Hcfg|].
    destruct (IH l1 Hinv1 ltac:(congruence) Hfit) as (bs & l' & Hall & Hlen & Hpriv).
    exists (b :: bs), l'. cbn [consume_all]. rewrite Hc. cbn [mbind option_bind].
    rewrite Hall. cbn [mbind option_bind]. split_and!; [done|simpl; by rewrite Hlen|].
    intros k. specialize (Hpriv k). rewrite Hb in Hpriv.
    unfold calls_of, answers_of in *. cbn [zip zip_with]. rewrite !filter_cons. cbn [fst snd].
    destruct (decide (k0 = k)) as [->|Hne].
    + rewrite decide_True in Hpriv by done. rewrite !fmap_cons. cbn [private_run snd].
      rewrite <- Hcfg, Hs. cbn [mbind option_bind]. rewrite Ha. cbn [mbind option_bind].
      rewrite Hcfg, Hpriv. done.
    + by rewrite decide_False in Hpriv by congruence.
Qed.

Lemma limiter_new_empty cfg k : mk_peek (lm_cache (limiter_new cfg)) k = None.
Proof. apply mk_peek_build. Qed.

Lemma limiter_inv_new cfg : limiter_inv (limiter_new cfg).
Proof. split; intros *; rewrite !limiter_new_empty; done. Qed.

(** C11: isolation: without evictions, every sequence of requests is answered,
    and the answers to the requests of one key are exactly those of a
    private token bucket that saw only these requests, whatever other
    clients do. *)
Theorem limiter_isolation cfg reqs :
  config_fits cfg →
  ∃ bs l', consume_all (limiter_new cfg) reqs = Some (bs, l') ∧ length bs = length reqs ∧
    ∀ k, private_run cfg None (calls_of k reqs) = Some (answers_of k reqs bs, bucket_of l' k).
Proof.
  intros Hfit.
  destruct (consume_all_private cfg reqs (limiter_new cfg) (limiter_inv_new cfg) eq_refl Hfit) as (bs & l' & Hc & Hl & Hp).
  exists bs, l'. split_and!; [done|done|]. intros k. specialize (Hp k).
  unfold bucket_of in Hp at 1. by rewrite limiter_new_empty in Hp.
Qed.
End isolation.
