(* ===== verification/RouteTrie.v ===== *)
(** * Per-route limits (policy/src/route_trie.rs)

    A trie over path segments; a terminal node maps HTTP methods to limiters.
    A limiter is an [Arc] and may be shared by several methods: the nodes hold
    identifiers into the store [rt_limiters]. *)

From Stdlib Require Import Ascii.
From S2P Require Import Prelude Addr DashMap Node Heap RouteTree Engine TokenBucket Config Str Limiter.

Inductive RouteTrieNode := mkRouteNode {
  children : gmap string RouteTrieNode;
  limiters : gmap string positive;
}.

Definition RouteTrieNode_default : RouteTrieNode := mkRouteNode ∅ ∅.

(** [RouteTrieNode::lookup]: the method itself, then the catch-all. *)
Definition node_lookup (n : RouteTrieNode) (method : string) : option positive :=
  match limiters n !! method with
  | Some v => Some v
  | None => limiters n !! EmptyString
  end.

Definition split_path (path : string) : list string :=
  filter (λ s, s ≠ EmptyString) (split_on "/" path).

(** Walking down with [entry(seg).or_default()] and updating the terminal node. *)
Fixpoint node_insert (segments : list string) (f : gmap string positive → gmap string positive)
    (n : RouteTrieNode) : RouteTrieNode :=
  match segments with
  | [] => mkRouteNode (children n) (f (limiters n))
  | seg :: segments' =>
      let child := default RouteTrieNode_default (children n !! seg) in
      mkRouteNode (<[seg := node_insert segments' f child]> (children n)) (limiters n)
  end.

(** The methods of a route all point to one limiter. *)
Definition add_methods (methods : list string) (id : positive) (ls : gmap string positive)
    : gmap string positive :=
  match methods with
  | [] => <[EmptyString := id]> ls
  | _ => foldl (λ acc m, <[to_uppercase m := id]> acc) ls methods
  end.

(** The loop of [match_route]: the outcome is the node reached, if the walk did
    not die, and the last wildcard node recorded. *)
Fixpoint match_loop (segments : list string) (node : RouteTrieNode)
    (last_wildcard : option RouteTrieNode) : option RouteTrieNode * option RouteTrieNode :=
  match segments with
  | [] => (Some node, last_wildcard)
  | seg :: segments' =>
      match children node !! seg with
      | Some child =>
          match_loop segments' child
            (match children node !! "*"%string with Some wc => Some wc | None => last_wildcard end)
      | None =>
          match children node !! "*"%string with
          | Some wc => match_loop segments' wc (Some wc)
          | None => (None, last_wildcard)
          end
      end
  end.

Definition match_node (root : RouteTrieNode) (method path : string) : option positive :=
  let method_upper := to_uppercase method in
  let fallback (wc : option RouteTrieNode) := wc ≫= λ n, node_lookup n method_upper in
  match match_loop (split_path path) root None with
  | (Some node, last_wildcard) =>
      match node_lookup node method_upper with
      | Some id => Some id
      | None => fallback last_wildcard
      end
  | (None, last_wildcard) => fallback last_wildcard
  end.

Section trie.
Context `{IpNetworkCrate} `{MokaCrate}.

Record RouteTrie := mkRouteTrie {
  rt_root : RouteTrieNode;
  rt_limiters : gmap positive TokenBucketLimiter;
  rt_next : positive;
}.

Definition route_trie_new : RouteTrie := mkRouteTrie RouteTrieNode_default ∅ 1.

Definition route_insert (t : RouteTrie) (path : string) (methods : list string)
    (cfg : RateLimitConfig) : RouteTrie :=
  let id := rt_next t in
  mkRouteTrie (node_insert (split_path path) (add_methods methods id) (rt_root t))
    (<[id := limiter_new cfg]> (rt_limiters t)) (Pos.succ id).

(** The identifier of the limiter [match_route] returns a reference to. *)
Definition match_route (t : RouteTrie) (method path : string) : option positive :=
  match_node (rt_root t) method path.

(** Building the trie from the configured routes ([PolicyHandle::new],
    [PolicyState::from_config]). *)
Definition build_routes (routes : list RouteConfig) : RouteTrie :=
  foldl (λ t r, route_insert t (route_path r) (route_methods r) (route_rate_limit r))
    route_trie_new routes.
End trie.

(** ** Patterns *)

(** The node under a pattern. *)
Fixpoint node_at (n : RouteTrieNode) (pat : list string) : option RouteTrieNode :=
  match pat with
  | [] => Some n
  | s :: pat' => c ← children n !! s; node_at c pat'
  end.

(** A pattern segment matches itself, and ["*"] matches any segment. *)
Definition seg_matches (p s : string) : Prop := p = s ∨ p = "*"%string.

(** A pattern that ends in a wildcard also covers longer paths. *)
Definition covers (pat segs : list string) : Prop :=
  Forall2 seg_matches pat segs ∨
  ∃ pat' segs1 segs2, pat = pat' ++ ["*"%string] ∧ segs = segs1 ++ segs2 ∧
    Forall2 seg_matches pat segs1.

Lemma node_at_app n p q : node_at n (p ++ q) = node_at n p ≫= λ c, node_at c q.
Proof.
  revert n. induction p as [|s p IH]; intros n; [done|]. simpl.
  destruct (children n !! s); simpl; [apply IH|done].
Qed.

(** Where the loop can end up: on a pattern for the segments read, with a
    wildcard pattern as fallback. *)
Definition wild_ok (root : RouteTrieNode) (done : list string) (wc : option RouteTrieNode) : Prop :=
  ∀ n, wc = Some n → ∃ pat segs1 segs2, node_at root (pat ++ ["*"%string]) = Some n ∧
    done = segs1 ++ segs2 ∧ Forall2 seg_matches (pat ++ ["*"%string]) segs1.

Lemma wild_ok_snoc root done s wc : wild_ok root done wc → wild_ok root (done ++ [s]) wc.
Proof.
  intros Hwc n Hn. destruct (Hwc n Hn) as (pat & s1 & s2 & Hat & -> & Hm).
  exists pat, s1, (s2 ++ [s]). by rewrite (assoc_L (++)).
Qed.

Lemma match_loop_sound root segs : ∀ done pat node wc,
  node_at root pat = Some node → Forall2 seg_matches pat done → wild_ok root done wc →
  let '(r, wc') := match_loop segs node wc in
  wild_ok root (done ++ segs) wc' ∧
  (∀ n, r = Some n → ∃ pat', node_at root pat' = Some n ∧ Forall2 seg_matches pat' (done ++ segs)).
Proof.
  induction segs as [|s segs IH]; intros done pat node wc Hat Hm Hwc; cbn [match_loop].
  - rewrite app_nil_r. split; [done|]. intros n [= <-]. eauto.
  - assert (∀ c p, children node !! p = Some c → seg_matches p s →
      node_at root (pat ++ [p]) = Some c ∧ Forall2 seg_matches (pat ++ [p]) (done ++ [s])) as Hstep.
    { intros c p Hc Hp. split; [rewrite node_at_app, Hat; simpl; by rewrite Hc|].
      apply Forall2_app; [done|]. by constructor. }
    assert (∀ w, children node !! "*"%string = Some w → wild_ok root (done ++ [s]) (Some w)) as Hwild.
    { intros w Hw n [= <-]. destruct (Hstep w "*"%string Hw) as [Hat' Hm']; [by right|].
      exists pat, (done ++ [s]), []. by rewrite app_nil_r. }
    pose proof (wild_ok_snoc root done s wc Hwc) as Hold.
    replace (done ++ s :: segs) with ((done ++ [s]) ++ segs) by (by rewrite <- (assoc_L (++))).
    destruct (children node !! s) as [c|] eqn:Hc.
    + destruct (Hstep c s Hc) as [Hat' Hm']; [by left|].
      apply (IH _ (pat ++ [s])); [done|done|].
      destruct (children node !! "*"%string) as [w|] eqn:Hw; auto.
    + destruct (children node !! "*"%string) as [w|] eqn:Hw.
      * destruct (Hstep w "*"%string Hw) as [Hat' Hm']; [by right|].
        apply (IH _ (pat ++ ["*"%string])); auto.
      * split; [|done]. intros n Hn. destruct (Hold n Hn) as (pat' & s1 & s2 & Hat' & -> & Hm').
        exists pat', s1, (s2 ++ segs). by rewrite (assoc_L (++)).
Qed.

(** ** Insertion *)

Lemma node_insert_at segs f n :
  ∃ c, node_at (node_insert segs f n) segs = Some c ∧
    ∃ old, limiters c = f old.
Proof.
  revert n. induction segs as [|s segs IH]; intros n; simpl.
  - eexists. split; [done|]. by eexists.
  - rewrite lookup_insert_eq. simpl. apply IH.
Qed.

(** Every segment of an inserted path has an exact child. *)
Lemma match_loop_exact segs : ∀ n c wc,
  node_at n segs = Some c → ∃ wc', match_loop segs n wc = (Some c, wc').
Proof.
  induction segs as [|s segs IH]; intros n c wc; simpl.
  - intros [= ->]. eauto.
  - destruct (children n !! s) as [d|]; [|done]. simpl. apply IH.
Qed.

Lemma add_methods_lookup methods id m ls :
  m ∈ methods → add_methods methods id ls !! to_uppercase m = Some id.
Proof.
  intros Hm. unfold add_methods. destruct methods as [|m0 methods]; [set_solver|].
  revert Hm. generalize (m0 :: methods). clear m0 methods. intros ms Hm.
  induction ms as [|m' ms IH] using rev_ind; [set_solver|].
  rewrite foldl_app. simpl. rewrite lookup_insert. case_decide; [done|].
  apply IH. apply elem_of_app in Hm as [|Hm]; [done|].
  apply list_elem_of_singleton in Hm as ->. done.
Qed.

(** What the search finds is stored under a pattern that covers the path. *)
Lemma match_node_registered root method path id :
  match_node root method path = Some id →
  ∃ pat n, node_at root pat = Some n ∧ covers pat (split_path path) ∧
    (limiters n !! to_uppercase method = Some id ∨ limiters n !! EmptyString = Some id).
Proof.
  unfold match_node. intros Hmatch.
  pose proof (match_loop_sound root (split_path path) [] [] root None eq_refl) as Hs.
  destruct (match_loop (split_path path) root None) as [r wc].
  destruct Hs as [Hwc Hr]; [constructor|by intros n|]. simpl in Hwc, Hr.
  assert (∀ n, node_lookup n (to_uppercase method) = Some id →
    limiters n !! to_uppercase method = Some id ∨ limiters n !! EmptyString = Some id) as Hnl.
  { intros n. unfold node_lookup. destruct (limiters n !! to_uppercase method); auto. }
  assert (∀ n, wc = Some n → node_lookup n (to_uppercase method) = Some id →
    ∃ pat n, node_at root pat = Some n ∧ covers pat (split_path path) ∧
    (limiters n !! to_uppercase method = Some id ∨ limiters n !! EmptyString = Some id)) as Hfb.
  { intros n -> Hl. destruct (Hwc n eq_refl) as (pat & s1 & s2 & Hat & Hsegs & Hm).
    exists (pat ++ ["*"%string]), n. split_and!; [done| |by apply Hnl].
    right. by exists pat, s1, s2. }
  destruct r as [n|]; simpl in Hmatch.
  - destruct (node_lookup n (to_uppercase method)) as [x|] eqn:Hl.
    + injection Hmatch as ->. destruct (Hr n eq_refl) as (pat & Hat & Hm).
      exists pat, n. split_and!; [done|by left|by apply Hnl].
    + destruct wc as [w|]; [|done]. simpl in Hmatch. eauto.
  - destruct wc as [w|]; [|done]. simpl in Hmatch. eauto.
Qed.

(** Every identifier stored in a trie satisfies [P]. *)
Definition all_ids (P : positive → Prop) (n : RouteTrieNode) : Prop :=
  ∀ pat c x id, node_at n pat = Some c → limiters c !! x = Some id → P id.

Lemma node_insert_ids P segs f : ∀ n,
  all_ids P n →
  (∀ ls, (∀ x id, ls !! x = Some id → P id) → ∀ x id, f ls !! x = Some id → P id) →
  all_ids P (node_insert segs f n).
Proof.
  induction segs as [|s segs IH]; intros n Hn Hf pat c x id; simpl.
  - destruct pat as [|q pat]; simpl; intros Hat.
    + injection Hat as <-. simpl. apply Hf. intros y j. apply (Hn [] n). done.
    + apply (Hn (q :: pat) c x id Hat).
  - destruct pat as [|q pat]; simpl; intros Hat.
    + injection Hat as <-. simpl. apply (Hn [] n). done.
    + rewrite lookup_insert in Hat. destruct (decide (s = q)) as [<-|Hne]; simpl in Hat.
      * eapply (IH (default RouteTrieNode_default (children n !! s))); [|done|exact Hat].
        intros pat' c' y j Hat'. destruct (children n !! s) as [d|] eqn:Hd; simpl in Hat'.
        -- apply (Hn (s :: pat') c'). simpl. by rewrite Hd.
        -- destruct pat' as [|q' pat']; simpl in Hat'.
           ++ injection Hat' as <-. simpl. by rewrite lookup_empty.
           ++ by rewrite lookup_empty in Hat'.
      * apply (Hn (q :: pat) c x id). by simpl.
Qed.

Lemma add_methods_ids (P : positive → Prop) methods id ls :
  P id → (∀ x j, ls !! x = Some j → P j) → ∀ x j, add_methods methods id ls !! x = Some j → P j.
Proof.
  intros Hid. unfold add_methods.
  assert (∀ (ls : gmap string positive) k x j, (∀ x j, ls !! x = Some j → P j) →
    <[k := id]> ls !! x = Some j → P j) as Hins.
  { intros ls' k x j Hls. rewrite lookup_insert. case_decide; [by intros [= <-]|apply Hls]. }
  destruct methods as [|m0 ms]; [intros Hls x j; by apply Hins|].
  generalize (m0 :: ms). clear m0 ms. intros ms. revert ls.
  induction ms as [|m ms IH]; intros ls Hls x j; simpl; [apply Hls|].
  apply IH. intros y i. by apply Hins.
Qed.

Section theorems.
Context `{IpNetworkCrate} `{MokaCrate}.

(** Every identifier in the trie has its limiter in the store. *)
Definition routes_stored (t : RouteTrie) : Prop :=
  all_ids (λ id, is_Some (rt_limiters t !! id)) (rt_root t).

Lemma routes_stored_insert t path methods cfg :
  routes_stored t → routes_stored (route_insert t path methods cfg).
Proof.
  intros Ht. apply node_insert_ids.
  - intros pat c x id Hat Hl. apply lookup_insert_is_Some'. right. by eapply Ht.
  - intros ls Hls. apply add_methods_ids; [|done]. simpl. rewrite lookup_insert_eq. eauto.
Qed.

Lemma routes_stored_build routes : routes_stored (build_routes routes).
Proof.
  unfold build_routes. induction routes as [|r routes IH] using rev_ind.
  - intros [|q pat] c x id; simpl; intros Hat; [|by rewrite lookup_empty in Hat].
    injection Hat as <-. simpl. by rewrite lookup_empty.
  - rewrite foldl_app. by apply routes_stored_insert.
Qed.

Lemma match_route_stored t method path id :
  routes_stored t → match_route t method path = Some id → is_Some (rt_limiters t !! id).
Proof.
  intros Ht (pat & n & Hat & _ & [Hl|Hl])%match_node_registered; by eapply Ht.
Qed.

(** A route that was just inserted for a method is the one found for that
    method (in any letter case) and path, whatever routes exist: the latest
    definition of a path wins over wildcards and over older definitions. *)
Theorem route_insert_match t path methods cfg m m' :
  m ∈ methods → to_uppercase m' = to_uppercase m →
  let t' := route_insert t path methods cfg in
  match_route t' m' path = Some (rt_next t) ∧
  rt_limiters t' !! rt_next t = Some (limiter_new cfg).
Proof.
  intros Hm Hup t'. split; [|apply lookup_insert_eq].
  unfold match_route, match_node. cbn [rt_root t' route_insert].
  destruct (node_insert_at (split_path path) (add_methods methods (rt_next t)) (rt_root t))
    as (c & Hat & old & Hl).
  destruct (match_loop_exact _ _ _ None Hat) as [wc ->].
  unfold node_lookup. by rewrite Hl, Hup, add_methods_lookup.
Qed.

(** The limiter found for a request is one registered, for its method or for
    all methods, under a pattern that covers the path: segment by segment
    with ["*"] matching any segment, or, for a pattern ending in ["*"], a
    leading part of the path. *)
Theorem match_route_sound t method path id :
  match_route t method path = Some id →
  ∃ pat n, node_at (rt_root t) pat = Some n ∧ covers pat (split_path path) ∧
    (limiters n !! to_uppercase method = Some id ∨ limiters n !! EmptyString = Some id).
Proof.
  apply match_node_registered.
Qed.

(** The walk does not backtrack: an exact segment that leads to a dead end
    hides a route through the wildcard next to it, so a path a configured
    pattern covers can be left without its limit. *)
Theorem match_route_no_backtracking cfg1 cfg2 :
  let t := route_insert (route_insert route_trie_new "/a/*/c" ["GET"%string] cfg1)
             "/a/b/d" ["GET"%string] cfg2 in
  match_route t "GET" "/a/x/c" = Some 1%positive ∧
  match_route t "GET" "/a/b/c" = None ∧
  covers ["a"; "*"; "c"]%string (split_path "/a/b/c").
Proof.
  intros t. split_and!; [reflexivity|reflexivity|].
  left. change (split_path "/a/b/c") with ["a"; "b"; "c"]%string.
  repeat constructor; first [by left|by right].
Qed.
End theorems.
