(* ===== verification/AutoBan.v ===== *)
(** * Automatic bans (policy/src/auto_ban.rs)

    [AutoBanTracker] counts violations per address in a sliding window, records
    a ban and inserts a host route into the engine; a background thread
    removes expired bans.  The engine behind the [Arc] is shared with the
    policy engine and the sweeper, so it is not a field of the tracker but
    threaded through the calls.  The interleaving of callers with the sweeper
    is a step relation whose steps are the atomic calls on the two maps. *)

From S2P Require Import Prelude Addr Lpm DashMap Node Heap RouteTree Engine TokenBucket Config Limiter.

Local Open Scope Z_scope.

(** An [Instant] is a number of nanoseconds within the range of the platform. *)
Class InstantRange := { min_instant : Z; max_instant : Z }.

Definition nanos_per_sec : Z := 1000000000.

Section tracker.
Context `{IpNetworkCrate} `{DashMapCrate} `{InstantRange}.
Context {E : Type} `{!RadixEngine E}.

Definition instant_checked_sub (t d : Z) : option Z :=
  if t - d <? min_instant then None else Some (t - d).

(** [Instant + Duration] panics on overflow. *)
Definition instant_add (t d : Z) : option Z :=
  if max_instant <? t + d then None else Some (t + d).

Record AutoBanTracker := mkTracker {
  violations : DashMap IpAddr (list Z);
  banned : DashMap IpAddr Z;
  threshold : Z;
  window : Z;
  ban_duration : Z;
}.

(** [AutoBanTracker::new], without the thread it spawns. *)
Definition tracker_new (cfg : AutoBanConfig) : AutoBanTracker :=
  mkTracker dm_new dm_new (ab_threshold_violations cfg)
    (ab_window_seconds cfg * nanos_per_sec) (ab_ban_duration_seconds cfg * nanos_per_sec).

Definition host_prefix (ip : IpAddr) : option IpNetwork :=
  match ip with
  | V4 a => NetV4 <$> v4_new a 32
  | V6 a => NetV6 <$> v6_new a 128
  end.

Definition ban_metadata : Metadata :=
  Metadata.with_attribute (Metadata.new "auto-banned") "reason" "exceeded_threshold".

Definition insert_ban (e : E) (ip : IpAddr) : M E :=
  match host_prefix ip with
  | None => panic
  | Some prefix => '(_, e') ← re_insert e prefix ban_metadata; mret e'
  end.

(** What happens under the lock of the entry: prune, push, compare, reset. *)
Definition count_violation (threshold window now : Z) (timestamps : list Z) : bool * list Z :=
  let cutoff := default now (instant_checked_sub now window) in
  let kept := filter (λ t, cutoff ≤ t) timestamps ++ [now] in
  if Z.of_nat (length kept) <? threshold then (false, kept) else (true, []).

Definition record_violation (t : AutoBanTracker) (e : E) (ip : IpAddr) (now : Z)
    : M (bool * AutoBanTracker * E) :=
  let old := default [] (dm_get (violations t) ip) in
  let '(reached, timestamps) := count_violation (threshold t) (window t) now old in
  let vs := dm_insert (violations t) ip timestamps in
  if negb reached then
    mret (false, mkTracker vs (banned t) (threshold t) (window t) (ban_duration t), e)
  else
    match instant_add now (ban_duration t) with
    | None => panic
    | Some expiry =>
        let bs := dm_insert (banned t) ip expiry in
        e' ← insert_ban e ip;
        mret (true, mkTracker vs bs (threshold t) (window t) (ban_duration t), e')
    end.

Definition is_banned (t : AutoBanTracker) (ip : IpAddr) (now : Z) : bool :=
  match dm_get (banned t) ip with
  | Some expiry => now <? expiry
  | None => false
  end.

(** One round of [sweeper], run without interference. *)
Definition collect_expired (bs : DashMap IpAddr Z) (now : Z) : list IpAddr :=
  fst <$> filter (λ r, r.2 ≤ now) (dm_iter bs).

Fixpoint remove_routes (e : E) (ips : list IpAddr) : M E :=
  match ips with
  | [] => mret e
  | ip :: ips' =>
      match host_prefix ip with
      | None => panic
      | Some prefix => '(_, e') ← re_remove e prefix; remove_routes e' ips'
      end
  end.

Definition sweep_once (bs : DashMap IpAddr Z) (e : E) (now : Z) : M (DashMap IpAddr Z * E) :=
  let expired := collect_expired bs now in
  let bs' := foldl (λ m ip, dm_remove m ip) bs expired in
  e' ← remove_routes e expired;
  mret (bs', e').

(** A sequence of violations of one address, one after the other. *)
Fixpoint record_all (t : AutoBanTracker) (e : E) (ip : IpAddr) (nows : list Z)
    : M (list bool * AutoBanTracker * E) :=
  match nows with
  | [] => mret ([], t, e)
  | now :: nows' =>
      '(b, t', e') ← record_violation t e ip now;
      '(bs, t'', e'') ← record_all t' e' ip nows';
      mret (b :: bs, t'', e'')
  end.
End tracker.
Arguments AutoBanTracker {_}.

(** ** Counting *)

Section counting.
Context `{InstantRange}.

Lemma filter_all (ts : list Z) cutoff :
  Forall (λ t, cutoff ≤ t) ts → filter (λ t, cutoff ≤ t) ts = ts.
Proof.
  induction 1 as [|t ts Ht _ IH]; [done|]. rewrite filter_cons, decide_True by done. by rewrite IH.
Qed.

(** While every timestamp is in the window nothing is pruned. *)
Lemma count_violation_burst th w lo now ts :
  Forall (λ t, lo ≤ t) ts → now ≤ lo + w → min_instant + w ≤ now →
  count_violation th w now ts =
  if Z.of_nat (length ts) + 1 <? th then (false, ts ++ [now]) else (true, []).
Proof.
  intros Hts Hhi Hmin. unfold count_violation, instant_checked_sub.
  destruct (Z.ltb_spec (now - w) min_instant) as [?|_]; [lia|]. cbn [default].
  rewrite filter_all by (eapply Forall_impl; [exact Hts|]; simpl; lia).
  rewrite length_app. simpl. by replace (Z.of_nat (length ts + 1)) with (Z.of_nat (length ts) + 1) by lia.
Qed.
End counting.

(** ** The tracker over an engine that keeps its promise *)

Section correctness.
Context `{IpNetworkCrate} `{!IpNetworkLaws} `{DashMapCrate} `{!DashMapLaws} `{InstantRange}.
Context {E : Type} `{!RadixEngine E} `{!RadixEngineLaws E}.

Lemma host_prefix_Some ip :
  ip_wf ip → ∃ p, host_prefix ip = Some p ∧ net_ip p = ip ∧
    net_prefix p = Z.of_nat (ip_width ip).
Proof.
  intros Hwf. unfold ip_wf in Hwf. destruct ip as [a|a]; simpl in *.
  - destruct (fl_new_ok _ _ _ _ _ _ v4_laws a 32 Hwf) as (n & Hn & Hip & Hp); [lia|].
    exists (NetV4 n). rewrite Hn, net_ip_spec, net_prefix_spec. simpl. by rewrite Hip, Hp.
  - destruct (fl_new_ok _ _ _ _ _ _ v6_laws a 128 Hwf) as (n & Hn & Hip & Hp); [lia|].
    exists (NetV6 n). rewrite Hn, net_ip_spec, net_prefix_spec. simpl. by rewrite Hip, Hp.
Qed.

(** A host network contains its address. *)
Lemma host_contains ip p : ip_wf ip → host_prefix ip = Some p → network_contains_ip p ip = true.
Proof.
  intros Hwf Hp. destruct (host_prefix_Some ip Hwf) as (q & Hq & <- & _).
  rewrite Hp in Hq. injection Hq as <-. rewrite network_contains_ip_spec. apply net_contains_own.
Qed.

Lemma instant_add_ok t d : t + d ≤ max_instant → instant_add t d = Some (t + d).
Proof. intros Hle. unfold instant_add. by destruct (Z.ltb_spec max_instant (t + d)); [lia|]. Qed.

Lemma record_violation_run (h : Heap) (t : AutoBanTracker) (e : E) (m : table) (n : Z)
    (F : gset loc) ip p now reached ts :
  re_rep h e m n F → host_prefix ip = Some p → now + ban_duration t ≤ max_instant →
  count_violation (threshold t) (window t) now (default [] (dm_get (violations t) ip)) = (reached, ts) →
  ∃ e' h' n' F',
    record_violation t e ip now h =
      Some ((reached, mkTracker (dm_insert (violations t) ip ts)
               (if reached then dm_insert (banned t) ip (now + ban_duration t) else banned t)
               (threshold t) (window t) (ban_duration t), e'), h') ∧
    re_rep h' e' (if reached then <[re_key p := (p, ban_metadata)]> m else m) n' F' ∧
    evolves h h' F F'.
Proof.
  intros Hr Hp Hmax Hc. unfold record_violation. rewrite Hc. destruct reached; cbn [negb].
  - rewrite instant_add_ok by done. unfold insert_ban. rewrite Hp.
    destruct (re_insert_spec h e m n F p ban_metadata Hr) as (e' & h' & F' & R & Hr' & Hev).
    rewrite bind_bind, (bind_run _ _ _ _ _ R). eexists e', h', _, F'. split_and!; [done|exact Hr'|done].
  - exists e, h, n, F. split_and!; [done|done|]. eauto using evolves_refl, re_rep_wf.
Qed.

(** The violation that completes a multiple of the threshold bans. *)
Definition ban_pattern (th : Z) (j : nat) (k : nat) : list bool :=
  (λ i, Z.of_nat (j + S i) mod th =? 0) <$> seq 0 k.

Lemma ban_pattern_S th j k :
  ban_pattern th j (S k) = (Z.of_nat (S j) mod th =? 0) :: ban_pattern th (S j) k.
Proof.
  unfold ban_pattern. cbn [seq fmap list_fmap]. f_equal; [by rewrite Nat.add_1_r|].
  rewrite <- fmap_S_seq, <- list_fmap_compose. apply list_fmap_ext. intros i x _. simpl.
  by replace (j + S (S x))%nat with (S (j + S x))%nat by lia.
Qed.

Lemma ban_pattern_reset th j k :
  0 < th → Z.of_nat j = th → ban_pattern th j k = ban_pattern th 0 k.
Proof.
  intros Hth Hj. apply list_fmap_ext. intros i x _. f_equal.
  replace (Z.of_nat (j + S x)) with (Z.of_nat (0 + S x) + 1 * th) by lia.
  apply Z_mod_plus_full.
Qed.

Lemma record_all_run ip p nows : ∀ (h : Heap) (t : AutoBanTracker) (e : E) (m : table) (n : Z)
    (F : gset loc) lo ts,
  re_rep h e m n F → host_prefix ip = Some p → 0 < threshold t →
  default [] (dm_get (violations t) ip) = ts → Forall (λ x, lo ≤ x) ts →
  Z.of_nat (length ts) < threshold t → min_instant + window t ≤ lo →
  Forall (λ x, lo ≤ x ≤ lo + window t ∧ x + ban_duration t ≤ max_instant) nows →
  ∃ bs t' e' h' n' F',
    record_all t e ip nows h = Some ((bs, t', e'), h') ∧
    re_rep h' e' (if existsb id bs then <[re_key p := (p, ban_metadata)]> m else m) n' F' ∧
    bs = ban_pattern (threshold t) (length ts) (length nows) ∧
    (if existsb id bs then ∃ now, now ∈ nows ∧ dm_get (banned t') ip = Some (now + ban_duration t)
     else dm_get (banned t') ip = dm_get (banned t) ip) ∧
    ∀ ip', ip' ≠ ip → dm_get (banned t') ip' = dm_get (banned t) ip' ∧
      dm_get (violations t') ip' = dm_get (violations t) ip'.
Proof.
  induction nows as [|now nows IH]; intros h t e m n F lo ts Hr Hp Hth Hts Hlo Hlt Hmin Hn.
  - exists [], t, e, h, n, F. split_and!; try done.
  - apply Forall_cons in Hn as [[[Hlo1 Hhi] Hmax] Hn].
    assert (min_instant + window t ≤ now) as Hmin' by lia.
    pose proof (count_violation_burst (threshold t) (window t) lo now ts Hlo Hhi Hmin') as Hc.
    destruct (Z.of_nat (length ts) + 1 <? threshold t) eqn:Eth; rewrite <- Hts in Hc at 1;
      destruct (record_violation_run h t e m n F ip p now _ _ Hr Hp Hmax Hc)
        as (e1 & h1 & n1 & F1 & R1 & Hr1 & _); cbn [record_all]; rewrite (bind_run _ _ _ _ _ R1);
      cbn beta iota; bprop.
    + match type of R1 with _ = Some ((_, ?t1, _), _) => set (t' := t1) in * end.
      destruct (IH h1 t' e1 m n1 F1 lo (ts ++ [now]) Hr1 Hp Hth) as
        (bs & t2 & e2 & h2 & n2 & F2 & R2 & Hr2 & Hbs & Hb & Hoth); simpl; try done.
      { by rewrite dm_get_insert, decide_True by done. }
      { apply Forall_app. split; [done|]. by constructor. }
      { rewrite length_app. simpl. lia. }
      rewrite (bind_run _ _ _ _ _ R2). eexists (false :: bs), t2, e2, h2, n2, F2. simpl in *.
      split_and!; [done|done| | |].
      * rewrite ban_pattern_S, Hbs, length_app, Nat.add_1_r. f_equal.
        symmetry. apply Z.eqb_neq. rewrite Z.mod_small by lia. lia.
      * destruct (existsb id bs); [|done]. destruct Hb as (x & Hx & Hb). exists x. set_solver.
      * intros ip' Hne. destruct (Hoth ip' Hne) as [-> ->]. split; [done|].
        by rewrite dm_get_insert, decide_False by done.
    + match type of R1 with _ = Some ((_, ?t1, _), _) => set (t' := t1) in * end.
      destruct (IH h1 t' e1 _ n1 F1 lo [] Hr1 Hp Hth) as
        (bs & t2 & e2 & h2 & n2 & F2 & R2 & Hr2 & Hbs & Hb & Hoth); simpl; try done.
      { by rewrite dm_get_insert, decide_True by done. }
      rewrite (bind_run _ _ _ _ _ R2). eexists (true :: bs), t2, e2, h2, n2, F2. simpl in *.
      split_and!; [done| | | |].
      * rewrite insert_insert_eq in Hr2. by destruct (existsb id bs).
      * rewrite ban_pattern_S, Hbs. f_equal; [|by rewrite (ban_pattern_reset _ (S _)) by lia].
        symmetry. apply Z.eqb_eq. replace (Z.of_nat (S (length ts))) with (threshold t) by lia.
        by apply Z_mod_same_full.
      * destruct (existsb id bs).
        -- destruct Hb as (x & Hx & Hb). exists x. set_solver.
        -- exists now. split; [set_solver|]. rewrite Hb, dm_get_insert, decide_True by done. done.
      * intros ip' Hne. destruct (Hoth ip' Hne) as [-> ->].
        by rewrite !dm_get_insert, !decide_False by done.
Qed.

(** C22: a burst of violations of one address that fits in the window runs
    without a panic and reports a ban exactly at every [threshold]-th
    violation; after a ban the engine holds the host route of the address
    with the ban metadata, [is_banned] is true until the recorded expiry,
    and no other address is affected. *)
Theorem auto_ban_burst (cfg : AutoBanConfig) (h : Heap) (e : E) (m : table) (n : Z)
    (F : gset loc) ip lo nows :
  let t := tracker_new cfg in
  re_rep h e m n F → ip_wf ip → 0 < ab_threshold_violations cfg →
  min_instant + window t ≤ lo →
  Forall (λ x, lo ≤ x ≤ lo + window t ∧ x + ban_duration t ≤ max_instant) nows →
  ∃ p bs t' e' h' m' n' F', host_prefix ip = Some p ∧
    record_all t e ip nows h = Some ((bs, t', e'), h') ∧ re_rep h' e' m' n' F' ∧
    bs = (λ i, Z.of_nat (S i) mod ab_threshold_violations cfg =? 0) <$> seq 0 (length nows) ∧
    (if existsb id bs then
       m' = <[re_key p := (p, ban_metadata)]> m ∧
       ∃ now, now ∈ nows ∧ ∀ x, is_banned t' ip x = (x <? now + ban_duration t)
     else m' = m ∧ ∀ x, is_banned t' ip x = false) ∧
    ∀ ip' x, ip' ≠ ip → is_banned t' ip' x = false.
Proof.
  intros t Hr Hwf Hth Hmin Hn. destruct (host_prefix_Some ip Hwf) as (p & Hp & _).
  destruct (record_all_run ip p nows h t e m n F lo [] Hr Hp) as
    (bs & t' & e' & h' & n' & F' & R & Hr' & Hbs & Hb & Hoth); try done.
  { unfold t. simpl. by rewrite dm_get_new. }
  eexists p, bs, t', e', h', _, n', F'. split_and!; [done|done|exact Hr'|exact Hbs| |].
  - destruct (existsb id bs); (split; [done|]).
    + destruct Hb as (now & Hin & Hb). exists now. split; [done|]. intros x.
      unfold is_banned. by rewrite Hb.
    + intros x. unfold is_banned. rewrite Hb. simpl. by rewrite dm_get_new.
  - intros ip' x Hne. destruct (Hoth ip' Hne) as [Hb' _]. unfold is_banned. rewrite Hb'.
    simpl. by rewrite dm_get_new.
Qed.

(** ** The sweeper without interference *)

Definition host_key (ip : IpAddr) : option (list bool) := re_key <$> host_prefix ip.

Lemma remove_routes_run ips : ∀ (h : Heap) (e : E) (m : table) (n : Z) (F : gset loc),
  re_rep h e m n F → Forall ip_wf ips →
  ∃ e' h' m' n' F', remove_routes e ips h = Some (e', h') ∧ re_rep h' e' m' n' F' ∧
    ∀ k, m' !! k = if decide (Some k ∈ host_key <$> ips) then None else m !! k.
Proof.
  induction ips as [|ip ips IH]; intros h e m n F Hr Hwf; cbn [remove_routes].
  - exists e, h, m, n, F. split_and!; [done|done|]. intros k. by rewrite decide_False by set_solver.
  - apply Forall_cons in Hwf as [Hip Hwf]. destruct (host_prefix_Some ip Hip) as (p & Hp & _).
    rewrite Hp. destruct (re_remove_spec h e m n F p Hr) as (e1 & h1 & F1 & R1 & Hr1 & _).
    rewrite (bind_run _ _ _ _ _ R1).
    destruct (IH h1 e1 _ _ F1 Hr1 Hwf) as (e2 & h2 & m2 & n2 & F2 & R2 & Hr2 & Hm2).
    exists e2, h2, m2, n2, F2. split_and!; [done|done|]. intros k. rewrite Hm2. cbn [fmap list_fmap].
    assert (host_key ip = Some (re_key p)) as Hk by (unfold host_key; by rewrite Hp).
    rewrite Hk. destruct (decide (re_key p = k)) as [->|Hne].
    + rewrite lookup_delete_eq. rewrite (decide_True (P := Some k ∈ Some k :: _)) by set_solver.
      by destruct (decide _).
    + rewrite lookup_delete_ne by done.
      destruct (decide (Some k ∈ host_key <$> ips)), (decide (Some k ∈ Some (re_key p) :: (host_key <$> ips)));
        set_solver.
Qed.

Lemma elem_of_collect_expired (bs : DashMap IpAddr Z) now ip :
  ip ∈ collect_expired bs now ↔ ∃ x, dm_get bs ip = Some x ∧ x ≤ now.
Proof.
  unfold collect_expired. rewrite list_elem_of_fmap. split.
  - intros ([ip' x] & -> & [Hx Hin]%list_elem_of_filter). apply dm_iter_spec in Hin. eauto.
  - intros (x & Hg & Hx). exists (ip, x). split; [done|]. apply list_elem_of_filter.
    split; [done|]. by apply dm_iter_spec.
Qed.

Lemma dm_get_remove_all (ips : list IpAddr) : ∀ (bs : DashMap IpAddr Z) ip,
  dm_get (foldl (λ m ip, dm_remove m ip) bs ips) ip =
  if decide (ip ∈ ips) then None else dm_get bs ip.
Proof.
  induction ips as [|i ips IH]; intros bs ip; cbn [foldl].
  - by rewrite decide_False by set_solver.
  - rewrite IH, dm_get_remove.
    destruct (decide (ip ∈ ips)), (decide (i = ip)), (decide (ip ∈ i :: ips)); set_solver.
Qed.

(** A round of the sweeper that is not interleaved with anything removes
    exactly the expired bans from the ban table and exactly their host
    routes from the engine, and does not panic. *)
Theorem sweep_once_spec (bs : DashMap IpAddr Z) (h : Heap) (e : E) (m : table) (n : Z)
    (F : gset loc) now :
  re_rep h e m n F → (∀ ip x, dm_get bs ip = Some x → ip_wf ip) →
  ∃ bs' e' h' m' n' F', sweep_once bs e now h = Some ((bs', e'), h') ∧
    re_rep h' e' m' n' F' ∧
    (∀ ip x, dm_get bs' ip = Some x ↔ dm_get bs ip = Some x ∧ now < x) ∧
    ∀ k, m' !! k =
      if decide (Some k ∈ host_key <$> collect_expired bs now) then None else m !! k.
Proof.
  intros Hr Hwf. unfold sweep_once.
  destruct (remove_routes_run (collect_expired bs now) h e m n F Hr)
    as (e' & h' & m' & n' & F' & R & Hr' & Hm').
  { apply Forall_forall. intros ip (x & Hx & _)%elem_of_collect_expired. eauto. }
  rewrite (bind_run _ _ _ _ _ R). eexists _, e', h', m', n', F'. split_and!; [done|done| |done].
  intros ip x. rewrite dm_get_remove_all. destruct (decide (ip ∈ _)) as [Hin|Hnin].
  - apply elem_of_collect_expired in Hin as (y & Hy & Hle). rewrite Hy. naive_solver lia.
  - split; [|by intros [? _]]. intros Hx. split; [done|].
    apply Z.nle_gt. intros Hle. apply Hnin, elem_of_collect_expired. eauto.
Qed.
End correctness.

(** ** Callers and the sweeper, interleaved *)

Section interleaving.
Context `{DashMapCrate} (ban_duration : Z).

(** Where the sweeper thread is in its loop. *)
Inductive sweeper_pc :=
  | Sleeping
  | Unbanning (todo expired : list IpAddr)
  | Unrouting (todo : list IpAddr).

Record ban_sys := mkSys {
  sys_banned : DashMap IpAddr Z;
  sys_routes : gset IpAddr;       (* addresses with a host route in the engine *)
  sys_pending : list IpAddr;      (* callers between [banned.insert] and [engine.insert] *)
  sys_sweeper : sweeper_pc;
  sys_now : Z;
}.

Definition sys_init (now : Z) : ban_sys := mkSys dm_new ∅ [] Sleeping now.

(** [Some ip] marks the step in which a caller records a ban of [ip]. *)
Inductive ban_step : ban_sys → option IpAddr → ban_sys → Prop :=
  | step_tick bs rs pd sw now now' :
      now ≤ now' → ban_step (mkSys bs rs pd sw now) None (mkSys bs rs pd sw now')
  | step_ban bs rs pd sw now ip read :
      read ≤ now →
      ban_step (mkSys bs rs pd sw now) (Some ip)
        (mkSys (dm_insert bs ip (read + ban_duration)) rs (ip :: pd) sw now)
  | step_route bs rs pd1 pd2 sw now ip :
      ban_step (mkSys bs rs (pd1 ++ ip :: pd2) sw now) None
        (mkSys bs ({[ ip ]} ∪ rs) (pd1 ++ pd2) sw now)
  | step_collect bs rs pd now :
      ban_step (mkSys bs rs pd Sleeping now) None
        (mkSys bs rs pd (Unbanning (collect_expired bs now) (collect_expired bs now)) now)
  | step_unban bs rs pd ip todo expired now :
      ban_step (mkSys bs rs pd (Unbanning (ip :: todo) expired) now) None
        (mkSys (dm_remove bs ip) rs pd (Unbanning todo expired) now)
  | step_unbanned bs rs pd expired now :
      ban_step (mkSys bs rs pd (Unbanning [] expired) now) None
        (mkSys bs rs pd (Unrouting expired) now)
  | step_unroute bs rs pd ip todo now :
      ban_step (mkSys bs rs pd (Unrouting (ip :: todo)) now) None
        (mkSys bs (rs ∖ {[ ip ]}) pd (Unrouting todo) now)
  | step_done bs rs pd now :
      ban_step (mkSys bs rs pd (Unrouting []) now) None (mkSys bs rs pd Sleeping now).

Inductive ban_steps : ban_sys → list (option IpAddr) → ban_sys → Prop :=
  | bs_nil s : ban_steps s [] s
  | bs_cons s ev s' evs s'' : ban_step s ev s' → ban_steps s' evs s'' → ban_steps s (ev :: evs) s''.

Context `{!DashMapLaws}.

(** A route without a ban that the sweeper does not have in hand. *)
Definition orphaned (ip : IpAddr) (s : ban_sys) : Prop :=
  ip ∈ sys_routes s ∧ dm_get (sys_banned s) ip = None ∧
  match sys_sweeper s with
  | Sleeping => True
  | Unbanning todo expired => ip ∉ expired
  | Unrouting todo => ip ∉ todo
  end.

Lemma orphaned_step ip s ev s' :
  ban_step s ev s' → ev ≠ Some ip → orphaned ip s → orphaned ip s'.
Proof.
  unfold orphaned. intros Hs Hev.
  destruct Hs; simpl in *; intros (Hr & Hb & Hsw); split_and!; try done.
  - rewrite dm_get_insert, decide_False by congruence. done.
  - set_solver.
  - rewrite elem_of_collect_expired. intros (x & Hx & _). congruence.
  - rewrite dm_get_remove. by case_decide.
  - set_solver.
  - set_solver.
Qed.

Lemma orphaned_steps ip s evs s' :
  ban_steps s evs s' → Some ip ∉ evs → orphaned ip s → orphaned ip s'.
Proof.
  induction 1 as [|s ev s1 evs s2 Hs Hss IH]; [done|]. intros Hev Ho.
  apply IH; [set_solver|]. eapply orphaned_step; [done| |done]. set_solver.
Qed.

Lemma collect_single ip x now :
  x ≤ now → collect_expired (dm_insert dm_new ip x) now = [ip].
Proof.
  intros Hx. apply Permutation_singleton_r, NoDup_Permutation; [|apply NoDup_singleton|].
  - eapply sublist_NoDup; [apply (dm_iter_nodup (dm_insert dm_new ip x))|]. apply fmap_sublist, sublist_filter.
  - intros i. rewrite elem_of_collect_expired, dm_get_insert, list_elem_of_singleton.
    case_decide as Hi; [naive_solver|]. rewrite dm_get_new. naive_solver.
Qed.

(** C40: the ban table and the engine are updated by separate calls: a caller
    that is delayed between them past the expiry of its own ban inserts the
    host route after the sweeper has removed both, and from then on, as
    long as the address is not banned again, no step ever removes the
    route: the temporary ban has become permanent. *)
Theorem sweeper_race_permanent_ban now ip :
  0 ≤ ban_duration →
  ∃ evs s, ban_steps (sys_init now) evs s ∧ sys_pending s = [] ∧ sys_sweeper s = Sleeping ∧
    dm_get (sys_banned s) ip = None ∧
    ∀ evs' s', ban_steps s evs' s' → Some ip ∉ evs' →
      ip ∈ sys_routes s' ∧ dm_get (sys_banned s') ip = None.
Proof.
  intros Hd. set (x := now + ban_duration).
  exists [Some ip; None; None; None; None; None; None; None],
    (mkSys (dm_remove (dm_insert dm_new ip x) ip) {[ ip ]} [] Sleeping x).
  split_and!; try done.
  - eapply bs_cons; [apply (step_ban _ _ _ _ _ ip now); lia|]. fold x.
    eapply bs_cons; [apply (step_tick _ _ _ _ _ x); lia|].
    eapply bs_cons; [apply step_collect|]. rewrite collect_single by done.
    eapply bs_cons; [apply step_unban|]. eapply bs_cons; [apply step_unbanned|].
    eapply bs_cons; [apply step_unroute|]. eapply bs_cons; [apply step_done|].
    eapply bs_cons; [apply (step_route _ _ [] [])|].
    replace ({[ip]} ∪ ∅ ∖ {[ip]}) with ({[ ip ]} : gset IpAddr) by set_solver. constructor.
  - simpl. by rewrite dm_get_remove, decide_True by done.
  - intros evs' s' Hs Hno. eapply orphaned_steps in Hs as (? & ? & _); [done|done|].
    split_and!; [simpl; set_solver| |done]. simpl. by rewrite dm_get_remove, decide_True by done.
Qed.

(** The sweeper decides on the expiry and acts later: an address that is
    banned again after the sweeper has taken its entry out of the ban table
    loses its new host route, so its ban is in force in the table while
    the engine does not block it. *)
Theorem sweeper_race_lost_ban now ip :
  0 < ban_duration →
  ∃ evs s x, ban_steps (sys_init now) evs s ∧ sys_pending s = [] ∧ sys_sweeper s = Sleeping ∧
    dm_get (sys_banned s) ip = Some x ∧ sys_now s < x ∧ ip ∉ sys_routes s.
Proof.
  intros Hd. set (x := now + ban_duration).
  eexists [Some ip; None; None; None; None; None; Some ip; None; None; None],
    (mkSys _ _ [] Sleeping x), (x + ban_duration).
  split_and!; try done.
  - eapply bs_cons; [apply (step_ban _ _ _ _ _ ip now); lia|]. fold x.
    eapply bs_cons; [apply (step_route _ _ [] [])|].
    eapply bs_cons; [apply (step_tick _ _ _ _ _ x); lia|].
    eapply bs_cons; [apply step_collect|]. rewrite collect_single by done.
    eapply bs_cons; [apply step_unban|]. eapply bs_cons; [apply step_unbanned|].
    eapply bs_cons; [apply (step_ban _ _ _ _ _ ip x); lia|].
    eapply bs_cons; [apply (step_route _ _ [] [])|].
    eapply bs_cons; [apply step_unroute|]. eapply bs_cons; [apply step_done|]. constructor.
  - simpl. by rewrite dm_get_insert, decide_True by done.
  - simpl. lia.
  - simpl. set_solver.
Qed.
End interleaving.
