(* ===== verification/Policy.v ===== *)
(** * The policy engine (policy/src/lib.rs, policy/src/handle.rs)

    [PolicyEngine] composes address extraction, the blocklist engine, the token
    bucket limiter and the auto-ban tracker into one decision; [PolicyHandle]
    wraps it for the language bindings, with packed addresses and per-route
    limiters. *)

From S2P Require Import Prelude Addr Lpm DashMap Node Heap RouteTree Trie Engine Engines TokenBucket Config IpExtractor Limiter RouteTrie AutoBan.

Local Open Scope Z_scope.

Inductive PolicyDecision :=
  | Allow
  | Block
  | Limit
  | AutoBanned
  | BadRequest (msg : string).

Section policy.
Context `{IpNetworkCrate} `{DashMapCrate} `{MokaCrate} `{InstantRange}.
Context {E : Type} `{!RadixEngine E}.

(** The engine is the one the tracker and its sweeper share. *)
Record PolicyEngine := mkPolicy {
  pe_engine : E;
  pe_limiter : TokenBucketLimiter;
  pe_middleware_cfg : MiddlewareConfig;
  pe_rate_limit_enabled : bool;
  pe_blocklist_enabled : bool;
  pe_auto_ban : option AutoBanTracker;
}.

Definition policy_new (engine : E) (middleware_cfg : MiddlewareConfig)
    (rate_limit_cfg : RateLimitConfig) (blocklist_enabled : bool) : PolicyEngine :=
  mkPolicy engine (limiter_new rate_limit_cfg) middleware_cfg (rl_enabled rate_limit_cfg)
    blocklist_enabled None.

Definition with_auto_ban (p : PolicyEngine) (tracker : AutoBanTracker) : PolicyEngine :=
  mkPolicy (pe_engine p) (pe_limiter p) (pe_middleware_cfg p) (pe_rate_limit_enabled p)
    (pe_blocklist_enabled p) (Some tracker).

Definition set_engine (p : PolicyEngine) (e : E) : PolicyEngine :=
  mkPolicy e (pe_limiter p) (pe_middleware_cfg p) (pe_rate_limit_enabled p)
    (pe_blocklist_enabled p) (pe_auto_ban p).
Definition set_limiter (p : PolicyEngine) (l : TokenBucketLimiter) : PolicyEngine :=
  mkPolicy (pe_engine p) l (pe_middleware_cfg p) (pe_rate_limit_enabled p)
    (pe_blocklist_enabled p) (pe_auto_ban p).
Definition set_auto_ban (p : PolicyEngine) (t : option AutoBanTracker) : PolicyEngine :=
  mkPolicy (pe_engine p) (pe_limiter p) (pe_middleware_cfg p) (pe_rate_limit_enabled p)
    (pe_blocklist_enabled p) t.

(** [self.blocklist_enabled && self.engine.lookup(&ip).is_some()] *)
Definition blocklisted (p : PolicyEngine) (ip : IpAddr) : M (bool * PolicyEngine) :=
  if pe_blocklist_enabled p then
    '(r, e) ← re_lookup (pe_engine p) ip;
    mret (is_some r, set_engine p e)
  else mret (false, p).

(** The violation branch, common to [check] and [check_ip_with_limiter]. *)
Definition violation (p : PolicyEngine) (ip : IpAddr) (now : Z) : M (PolicyDecision * PolicyEngine) :=
  match pe_auto_ban p with
  | Some tracker =>
      '(banned_now, tracker', e) ← record_violation tracker (pe_engine p) ip now;
      let p' := set_auto_ban (set_engine p e) (Some tracker') in
      mret (if (banned_now : bool) then AutoBanned else Limit, p')
  | None => mret (Limit, p)
  end.

(** [clock] gives the readings of the limiter's clock, [now] the instant the
    tracker reads. *)
Definition check (p : PolicyEngine) (xff x_real_ip : option string)
    (remote_addr : option SocketAddr) (clock : nat → Z) (now : Z)
    : M (PolicyDecision * PolicyEngine) :=
  match extract_ip xff x_real_ip remote_addr (mw_trusted_proxies (pe_middleware_cfg p)) with
  | Err e => mret (BadRequest (ExtractError_to_string e), p)
  | Ok ip =>
      '(blocked, p1) ← blocklisted p ip;
      if (blocked : bool) then mret (Block, p1)
      else if pe_rate_limit_enabled p1 then
        '(allowed, l, e) ← limiter_allow (pe_limiter p1) ip (Some (pe_engine p1)) clock;
        let p2 := set_limiter (set_engine p1 (default (pe_engine p1) e)) l in
        if (allowed : bool) then mret (Allow, p2) else violation p2 ip now
      else mret (Allow, p1)
  end.

(** The tokens are taken before [rate_limit_enabled] is looked at. *)
Definition check_ip_with_limiter (p : PolicyEngine) (ip : IpAddr)
    (route_limiter : option TokenBucketLimiter) (clock : nat → Z) (now : Z)
    : M (PolicyDecision * PolicyEngine * option TokenBucketLimiter) :=
  '(blocked, p1) ← blocklisted p ip;
  if (blocked : bool) then mret (Block, p1, route_limiter)
  else
    '(allowed, p2, rl) ←
      match route_limiter with
      | Some limiter =>
          '(allowed, l, e) ← limiter_allow limiter ip (Some (pe_engine p1)) clock;
          mret (allowed, set_engine p1 (default (pe_engine p1) e), Some l)
      | None =>
          '(allowed, l, e) ← limiter_allow (pe_limiter p1) ip (Some (pe_engine p1)) clock;
          mret (allowed, set_limiter (set_engine p1 (default (pe_engine p1) e)) l, None)
      end;
    if pe_rate_limit_enabled p2 && negb allowed then
      '(d, p3) ← violation p2 ip now;
      mret (d, p3, rl)
    else mret (Allow, p2, rl).

Definition check_ip (p : PolicyEngine) (ip : IpAddr) (clock : nat → Z) (now : Z)
    : M (PolicyDecision * PolicyEngine) :=
  '(d, p', _) ← check_ip_with_limiter p ip None clock now;
  mret (d, p').
End policy.
Arguments PolicyEngine {_ _ _} _.

(** ** handle.rs *)

Record PackedIp := mkPacked { family : Z; bytes : list Z }.

(** [Ipv4Addr::new(a, b, c, d)] and [Ipv6Addr::from(bytes)] *)
Definition into_ip_addr (p : PackedIp) : option IpAddr :=
  if family p =? 4 then Some (V4 (be_value (take 4 (bytes p))))
  else if family p =? 6 then Some (V6 (be_value (bytes p)))
  else None.

Definition PackedIp_from (ip : IpAddr) : PackedIp :=
  match ip with
  | V4 _ => mkPacked 4 (octets ip ++ replicate 12 0)
  | V6 _ => mkPacked 6 (octets ip)
  end.

Inductive PolicyDecisionCode := CodeAllow | CodeBlock | CodeLimit | CodeBadRequest.

#[export] Instance PolicyDecisionCode_eq_dec : EqDecision PolicyDecisionCode.
Proof. solve_decision. Defined.

(** [code as u8] *)
Definition code_u8 (c : PolicyDecisionCode) : Z :=
  match c with CodeAllow => 0 | CodeBlock => 1 | CodeLimit => 2 | CodeBadRequest => 3 end.

Record PolicyResult := mkResult { decision : PolicyDecisionCode; retry_after_seconds : Z }.

Definition from_decision (d : PolicyDecision) : PolicyResult :=
  let code := match d with
              | Allow => CodeAllow
              | Block | AutoBanned => CodeBlock
              | Limit => CodeLimit
              | BadRequest _ => CodeBadRequest
              end in
  mkResult code (if decide (code = CodeLimit) then 1 else 0).

Section handle.
Context `{IpNetworkCrate} `{DashMapCrate} `{MokaCrate} `{InstantRange}.
Context {E : Type} `{!RadixEngine E}.

Record PolicyHandle := mkHandle { ph_policy : PolicyEngine E; ph_route_trie : option RouteTrie }.

Definition handle_new (engine : E) (config : RadixIpConfig) : PolicyHandle :=
  let root := radixip config in
  let policy := policy_new engine (root_middleware root) (root_rate_limit root)
                  (bl_enabled (root_blocklist root)) in
  let policy := if ab_enabled (root_auto_ban root)
                then with_auto_ban policy (tracker_new (root_auto_ban root)) else policy in
  let route_trie := if rr_enabled (root_rate_limit_routes root)
                    then Some (build_routes (rr_routes (root_rate_limit_routes root))) else None in
  mkHandle policy route_trie.

Definition handle_check (ph : PolicyHandle) (ip : PackedIp) (clock : nat → Z) (now : Z)
    : M (option PolicyResult * PolicyHandle) :=
  match into_ip_addr ip with
  | None => mret (None, ph)
  | Some ip =>
      '(d, p) ← check_ip (ph_policy ph) ip clock now;
      mret (Some (from_decision d), mkHandle p (ph_route_trie ph))
  end.

(** The limiter of the matched route is updated in the trie's store. *)
Definition check_request (ph : PolicyHandle) (ip : PackedIp) (method path : string)
    (clock : nat → Z) (now : Z) : M (option PolicyResult * PolicyHandle) :=
  match into_ip_addr ip with
  | None => mret (None, ph)
  | Some ip =>
      let route := trie ← ph_route_trie ph; id ← match_route trie method path; Some (trie, id) in
      let route_limiter := '(trie, id) ← route; rt_limiters trie !! id in
      '(d, p, rl) ← check_ip_with_limiter (ph_policy ph) ip route_limiter clock now;
      let trie' := match route, rl with
                   | Some (trie, id), Some l =>
                       Some (mkRouteTrie (rt_root trie) (<[id := l]> (rt_limiters trie)) (rt_next trie))
                   | _, _ => ph_route_trie ph
                   end in
      mret (Some (from_decision d), mkHandle p trie')
  end.
End handle.
Arguments PolicyHandle {_ _ _} _.

(** ** The decision *)

Section decision.
Context `{IpNetworkCrate} `{!IpNetworkLaws} `{DashMapCrate} `{!DashMapLaws} `{InstantRange}.
Context `{MokaCrate} `{!MokaLaws}.
Context {E : Type} `{!RadixEngine E} `{!RadixEngineLaws E}.
Implicit Types (p : PolicyEngine E) (h : Heap) (m : table) (n : Z) (F : gset loc).

Lemma blocklisted_run h p m n F ip :
  re_rep h (pe_engine p) m n F →
  ∃ r e', (pe_blocklist_enabled p = true → re_answers m ip r) ∧
    blocklisted p ip h = Some ((pe_blocklist_enabled p && is_some r, set_engine p e'), h) ∧
    re_rep h e' m n F.
Proof.
  intros Hr. unfold blocklisted. destruct (pe_blocklist_enabled p) eqn:Hb.
  - destruct (re_lookup_spec h _ m n F ip Hr) as (r & e' & R & Hr' & Ha).
    exists r, e'. split_and!; [done| |done]. by rewrite (bind_run _ _ _ _ _ R).
  - exists None, (pe_engine p). split_and!; [done| |done]. by destruct p.
Qed.

(** What a violation of [ip] at [now] does: without a tracker the request is
    limited.  With one, the violations of the address inside the window and this
    one are counted; below the threshold they are kept and the request is
    limited; at the threshold the count restarts, the address is banned for the
    ban duration and its host route enters the table.  The tracker's settings
    and what it knows of other addresses stay. *)
Definition violation_outcome (t : option AutoBanTracker) (ip : IpAddr) (now : Z) m
    (d : PolicyDecision) (t' : option AutoBanTracker) (m' : table) : Prop :=
  match t, t' with
  | None, None => d = Limit ∧ m' = m
  | Some t, Some t' =>
      let cutoff := default now (instant_checked_sub now (window t)) in
      let recent := filter (λ s, cutoff ≤ s) (default [] (dm_get (violations t) ip)) ++ [now] in
      threshold t' = threshold t ∧ window t' = window t ∧ ban_duration t' = ban_duration t ∧
      (∀ ip', ip' ≠ ip → dm_get (violations t') ip' = dm_get (violations t) ip' ∧
                         dm_get (banned t') ip' = dm_get (banned t) ip') ∧
      if decide (Z.of_nat (length recent) < threshold t) then
        d = Limit ∧ m' = m ∧
        dm_get (violations t') ip = Some recent ∧ dm_get (banned t') ip = dm_get (banned t) ip
      else
        d = AutoBanned ∧ (∃ pfx, host_prefix ip = Some pfx ∧ m' = <[re_key pfx := (pfx, ban_metadata)]> m) ∧
        dm_get (violations t') ip = Some [] ∧ dm_get (banned t') ip = Some (now + ban_duration t)
  | _, _ => False
  end.

Lemma violation_outcome_banned (t : option AutoBanTracker) (ip : IpAddr) (now : Z) m
    (t' : option AutoBanTracker) (m' : table) :
  violation_outcome t ip now m AutoBanned t' m' →
  ∃ pfx, host_prefix ip = Some pfx ∧ m' = <[re_key pfx := (pfx, ban_metadata)]> m.
Proof.
  unfold violation_outcome. destruct t as [t|], t' as [t'|]; [|done|done|by intros [? _]].
  intros (_ & _ & _ & _ & Hout). case_decide; [by destruct Hout|]. by destruct Hout as (_ & ? & _).
Qed.

(** What [check] never changes. *)
Definition same_settings p p' : Prop :=
  pe_middleware_cfg p' = pe_middleware_cfg p ∧ pe_blocklist_enabled p' = pe_blocklist_enabled p ∧
  pe_rate_limit_enabled p' = pe_rate_limit_enabled p.

Lemma violation_run h p m n F ip now :
  re_rep h (pe_engine p) m n F → ip_wf ip →
  (∀ t, pe_auto_ban p = Some t → now + ban_duration t ≤ max_instant) →
  ∃ d p' h' m' n' F', violation p ip now h = Some ((d, p'), h') ∧
    re_rep h' (pe_engine p') m' n' F' ∧ pe_limiter p' = pe_limiter p ∧ same_settings p p' ∧
    violation_outcome (pe_auto_ban p) ip now m d (pe_auto_ban p') m'.
Proof.
  intros Hr Hwf Hmax. unfold violation.
  destruct (pe_auto_ban p) as [t|] eqn:Ht;
    [|exists Limit, p, h, m, n, F; rewrite Ht; by split_and!].
  destruct (host_prefix_Some ip Hwf) as (pfx & Hp & _). specialize (Hmax t eq_refl).
  destruct (count_violation (threshold t) (window t) now (default [] (dm_get (violations t) ip))) as [reached ts] eqn:Hc.
  destruct (record_violation_run h t _ m n F ip pfx now reached ts Hr Hp Hmax Hc)
    as (e' & h' & n' & F' & R & Hr' & _).
  rewrite (bind_run _ _ _ _ _ R). cbn beta iota zeta.
  eexists _, _, h', _, n', F'. split_and!; [done|exact Hr'|done..|].
  revert Hc. unfold count_violation, violation_outcome. cbv zeta.
  cbn [pe_auto_ban set_auto_ban threshold window ban_duration violations banned].
  destruct (Z.ltb_spec (Z.of_nat (length (filter (λ s, default now (instant_checked_sub now (window t)) ≤ s)
    (default [] (dm_get (violations t) ip)) ++ [now]))) (threshold t)) as [Hlt|Hge]; intros [= <- <-].
  - rewrite decide_True by done. split_and!; [done..| |done|done| |done].
    + intros ip' Hi. rewrite dm_get_insert. by rewrite decide_False by done.
    + rewrite dm_get_insert. by rewrite decide_True by done.
  - rewrite decide_False by lia. split_and!; [done..| |done|eauto| |].
    + intros ip' Hi. rewrite !dm_get_insert. by rewrite !decide_False by done.
    + rewrite dm_get_insert. by rewrite decide_True by done.
    + rewrite dm_get_insert. by rewrite decide_True by done.
Qed.

Lemma limiter_allow_exact h (l : TokenBucketLimiter) ip (e : E) (oe : option E) clock b l' :
  (∀ d4 d6, rl_bucket_mode (lm_config l) ≠ Both d4 d6) →
  ip_to_key ip (rl_bucket_mode (lm_config l)) (Some e) h = Some ((Exact ip, oe), h) →
  consume l (Exact ip) (clock 0%nat) (clock 1%nat) = Some (b, l') →
  limiter_allow l ip (Some e) clock h = Some ((b, l', oe), h).
Proof.
  intros Hmode Hk Hc. unfold limiter_allow.
  destruct (rl_bucket_mode (lm_config l)) as [|d4 d6|d4 d6]; [| |by destruct (Hmode d4 d6)];
    rewrite (bind_run _ _ _ _ _ Hk); cbn beta iota; unfold lift_opt; rewrite Hc; done.
Qed.

(** What [check] answers for an extracted address, and what it changes. *)
Definition check_outcome p m (ip : IpAddr) (clock : nat → Z) (now : Z) (d : PolicyDecision)
    p' (m' : table) : Prop :=
  same_settings p p' ∧
  ∃ r, (pe_blocklist_enabled p = true → re_answers m ip r) ∧
    if pe_blocklist_enabled p && is_some r then
      d = Block ∧ pe_limiter p' = pe_limiter p ∧ pe_auto_ban p' = pe_auto_ban p ∧ m' = m
    else if pe_rate_limit_enabled p then
      ∃ b, consume (pe_limiter p) (Exact ip) (clock 0%nat) (clock 1%nat) = Some (b, pe_limiter p') ∧
        charged (pe_limiter p) (Exact ip) (clock 0%nat) (clock 1%nat) b (pe_limiter p') ∧
        if (b : bool) then d = Allow ∧ pe_auto_ban p' = pe_auto_ban p ∧ m' = m
        else violation_outcome (pe_auto_ban p) ip now m d (pe_auto_ban p') m'
    else d = Allow ∧ pe_limiter p' = pe_limiter p ∧ pe_auto_ban p' = pe_auto_ban p ∧ m' = m.

(** The body of [check] after extraction, for a limiter that ends up using
    the exact address as key. *)
Lemma check_run h p m n F xff rip ra ip clock now :
  extract_ip xff rip ra (mw_trusted_proxies (pe_middleware_cfg p)) = Ok ip →
  re_rep h (pe_engine p) m n F → ip_wf ip →
  limiter_inv (pe_limiter p) → config_fits (lm_config (pe_limiter p)) →
  (∀ t, pe_auto_ban p = Some t → now + ban_duration t ≤ max_instant) →
  (∀ d4 d6, rl_bucket_mode (lm_config (pe_limiter p)) ≠ Both d4 d6) →
  (∀ r e', (pe_blocklist_enabled p = true → re_answers m ip r) →
     pe_blocklist_enabled p && is_some r = false → re_rep h e' m n F →
     ∃ e'', ip_to_key ip (rl_bucket_mode (lm_config (pe_limiter p))) (Some e') h =
       Some ((Exact ip, Some e''), h) ∧ re_rep h e'' m n F) →
  ∃ d p' h' m' n' F', check p xff rip ra clock now h = Some ((d, p'), h') ∧
    re_rep h' (pe_engine p') m' n' F' ∧ limiter_inv (pe_limiter p') ∧
    check_outcome p m ip clock now d p' m'.
Proof.
  intros Hx Hr Hwf Hli Hfit Hmax Hboth Hkey. unfold check, check_outcome. rewrite Hx.
  destruct (blocklisted_run h p m n F ip Hr) as (r & e1 & Ha & R1 & Hr1).
  rewrite (bind_run _ _ _ _ _ R1). cbn beta iota.
  destruct (pe_blocklist_enabled p && is_some r) eqn:Hb; cbn iota.
  { eexists _, _, h, m, n, F. split_and!; [done..|]. exists r. split; [done|]. by rewrite Hb. }
  cbn [set_engine pe_rate_limit_enabled pe_limiter pe_engine].
  destruct (pe_rate_limit_enabled p) eqn:Hrl; cbn iota.
  2:{ eexists _, _, h, m, n, F. split_and!; [done..|]. exists r. split; [done|]. by rewrite Hb. }
  destruct (Hkey r e1 Ha Hb Hr1) as (e2 & Hk & Hr2).
  destruct (consume_charged (pe_limiter p) (Exact ip) (clock 0%nat) (clock 1%nat) Hli Hfit)
    as (b & l' & Hc & Hli' & Hch).
  pose proof (limiter_allow_exact h (pe_limiter p) ip e1 _ clock b l' Hboth Hk Hc) as R2.
  rewrite (bind_run _ _ _ _ _ R2). cbn beta iota zeta.
  destruct b; cbn iota.
  - eexists _, _, h, m, n, F. split_and!; [done..|]. exists r. split; [done|]. rewrite Hb. by exists true.
  - set (p2 := set_limiter _ l').
    destruct (violation_run h p2 m n F ip now Hr2 Hwf Hmax)
      as (d & p' & h' & m' & n' & F' & R3 & Hr3 & Hl & Hset & Hout).
    change (pe_limiter p2) with l' in Hl.
    exists d, p', h', m', n', F'. rewrite Hl. split_and!; [done..| |]; [by destruct Hset as (? & ? & ?)|].
    exists r. split; [done|]. rewrite Hb. by exists false.
Qed.

(** C7: the decision of [check] with one bucket per address (bucket mode [Ip]),
    for an engine that keeps the promise of a routing table, a limiter whose
    capacity and rate in thousandths fit 64 bits, and a ban expiry the clock can
    represent; the cache may evict buckets at any time.  Under these conditions
    the call returns, and: an address that cannot be extracted is a bad request
    and changes nothing; an address the engine knows, with the blocklist
    enabled, is blocked without consuming a token; with rate limiting disabled
    every other address is allowed; otherwise its own bucket decides (a full
    one if it has none or it was evicted), and a refused request is counted by
    the tracker, which keeps the count and limits the request or, at the
    threshold, bans the address until the expiry with its host route in the
    engine and restarts the count.  Settings, other addresses' buckets and
    counters and the other routes stay. *)
Theorem check_decision_spec h p m n F xff rip ra clock now :
  re_rep h (pe_engine p) m n F → (∀ a, ra = Some a → ip_wf (sa_ip a)) →
  limiter_inv (pe_limiter p) → config_fits (lm_config (pe_limiter p)) →
  rl_bucket_mode (lm_config (pe_limiter p)) = Ip →
  (∀ t, pe_auto_ban p = Some t → now + ban_duration t ≤ max_instant) →
  ∃ d p' h' m' n' F', check p xff rip ra clock now h = Some ((d, p'), h') ∧
    re_rep h' (pe_engine p') m' n' F' ∧ limiter_inv (pe_limiter p') ∧
    match extract_ip xff rip ra (mw_trusted_proxies (pe_middleware_cfg p)) with
    | Err err => d = BadRequest (ExtractError_to_string err) ∧ p' = p ∧ h' = h
    | Ok ip => check_outcome p m ip clock now d p' m'
    end.
Proof.
  intros Hr Hra Hli Hfit Hmode Hmax. destruct (extract_ip _ _ _ _) as [ip|err] eqn:Hx.
  - pose proof (extract_ip_wf _ _ _ _ _ Hra Hx) as Hwf.
    apply (check_run h p m n F xff rip ra ip clock now Hx Hr Hwf Hli Hfit Hmax).
    + by rewrite Hmode.
    + intros r e' _ _ Hr'. exists e'. by rewrite Hmode.
  - eexists _, p, h, m, n, F. unfold check. rewrite Hx. done.
Qed.

(** [check_ip], the entry point of the bindings, is [check] without the
    extraction when rate limiting is enabled; when it is disabled the
    decision is never [Limit], yet the tokens are still taken. *)
Theorem check_ip_agrees h p xff rip ra ip clock now :
  extract_ip xff rip ra (mw_trusted_proxies (pe_middleware_cfg p)) = Ok ip →
  if pe_rate_limit_enabled p then
    check_ip p ip clock now h = check p xff rip ra clock now h
  else ∀ d p' h', check_ip p ip clock now h = Some ((d, p'), h') →
    (d = Allow ∧ ∃ p1 h1 oe, blocklisted p ip h = Some ((false, p1), h1) ∧
       ∃ b, limiter_allow (pe_limiter p) ip (Some (pe_engine p1)) clock h1 =
         Some ((b, pe_limiter p', oe), h')) ∨
    (d = Block ∧ pe_limiter p' = pe_limiter p).
Proof.
  intros Hx. unfold check, check_ip, check_ip_with_limiter. rewrite Hx.
  assert (∀ b p1 h1, blocklisted p ip h = Some ((b, p1), h1) →
    pe_rate_limit_enabled p1 = pe_rate_limit_enabled p ∧ pe_limiter p1 = pe_limiter p) as Hbl.
  { intros b p1 h1. unfold blocklisted. destruct (pe_blocklist_enabled p); [|by intros [= _ <- _]].
    unfold mbind, M_bind. destruct (re_lookup _ _ _) as [[[r e] h2]|]; [|done]. by intros [= _ <- _]. }
  unfold mbind, M_bind.
  destruct (blocklisted p ip h) as [[[b p1] h1]|]; [|by destruct (pe_rate_limit_enabled p)].
  destruct (Hbl b p1 h1 eq_refl) as [Hrl Hl]. rewrite <- Hrl. destruct b; cbn iota.
  { destruct (pe_rate_limit_enabled p1); [done|]. intros d p' h' [= <- <- <-]. by right. }
  destruct (pe_rate_limit_enabled p1) eqn:Hrl1.
  - destruct (limiter_allow _ _ _ _ _) as [[[[b l] oe] h2]|]; [|done]. simpl. rewrite Hrl1.
    destruct b; simpl; [done|]. by destruct (violation _ _ _ _) as [[[d p3] h3]|].
  - intros d p' h'. destruct (limiter_allow _ _ _ _ _) as [[[[b l] oe] h2]|] eqn:Ha; [|done].
    simpl. rewrite Hrl1. simpl. intros [= <- <- <-]. left. split; [done|].
    exists p1, h1, oe. split; [done|]. exists b. simpl. by rewrite <- Hl.
Qed.
End decision.

(** ** On an engine with the uncompressed tree's table *)

Section banned.
Context `{IpNetworkCrate} `{!IpNetworkLaws} `{DashMapCrate} `{!DashMapLaws} `{InstantRange}.
Context `{MokaCrate} `{!MokaLaws}.
Context {E : Type} `{!RadixEngine E} `{!RadixEngineLaws E} `{!LpmEngine E}.
Implicit Types (p : PolicyEngine E) (h : Heap) (m : table) (n : Z) (F : gset loc).

Lemma host_route_found m ip pfx md r :
  ip_wf ip → host_prefix ip = Some pfx → re_answers (<[re_key pfx := (pfx, md)]> m) ip r → is_some r = true.
Proof.
  intros Hwf Hp ->%lpm_answer. destruct (host_prefix_Some ip Hwf) as (q & Hq & Hqip & Hqlen).
  rewrite Hp in Hq. injection Hq as <-. apply is_some_spec, lpm_is_Some. exists (pfx, md). split.
  - apply elem_of_entries. exists (re_key pfx). apply lookup_insert_eq.
  - by apply host_contains.
Qed.

(** C23: with the blocklist enabled, an address that is auto-banned by a request is
    blocked at its next request, whatever headers, peers and clock readings the
    two come with, as long as both are from that address and no other call
    reaches the policy and no sweep the engine in between.  For engines whose
    table is the uncompressed tree's, standard or sharded, buckets per address
    (mode [Ip]), capacity and rate in thousandths that fit 64 bits, and a ban
    expiry the clock can represent. *)
Theorem auto_banned_then_blocked h p m n F xff rip ra xff' rip' ra' ip clock clock' now now' p' h' :
  re_rep h (pe_engine p) m n F → pe_blocklist_enabled p = true →
  rl_bucket_mode (lm_config (pe_limiter p)) = Ip →
  limiter_inv (pe_limiter p) → config_fits (lm_config (pe_limiter p)) → ip_wf ip →
  (∀ t, pe_auto_ban p = Some t → now + ban_duration t ≤ max_instant) →
  extract_ip xff rip ra (mw_trusted_proxies (pe_middleware_cfg p)) = Ok ip →
  extract_ip xff' rip' ra' (mw_trusted_proxies (pe_middleware_cfg p)) = Ok ip →
  check p xff rip ra clock now h = Some ((AutoBanned, p'), h') →
  ∃ p'', check p' xff' rip' ra' clock' now' h' = Some ((Block, p''), h').
Proof.
  intros Hr Hbl Hmode Hli Hfit Hwf Hmax Hx Hx' Hrun.
  destruct (check_run h p m n F xff rip ra ip clock now Hx Hr Hwf Hli Hfit Hmax)
    as (d & p1 & h1 & m1 & n1 & F1 & R & Hr1 & _ & (Hmw & Hble & _) & r & _ & Hout).
  { by rewrite Hmode. }
  { intros r e' _ _ Hr'. exists e'. by rewrite Hmode. }
  rewrite Hrun in R. injection R as <- <- <-.
  assert (∃ pfx, host_prefix ip = Some pfx ∧ m1 = <[re_key pfx := (pfx, ban_metadata)]> m) as (pfx & Hp & ->).
  { destruct (pe_blocklist_enabled p && is_some r); [naive_solver|].
    destruct (pe_rate_limit_enabled p); [|naive_solver].
    destruct Hout as (b & _ & _ & Hout). destruct b; [naive_solver|]. by eapply violation_outcome_banned. }
  destruct (blocklisted_run h' p' _ n1 F1 ip Hr1) as (r' & e' & Ha & R' & _).
  rewrite Hble, Hbl in *. specialize (Ha eq_refl).
  rewrite (host_route_found m ip pfx ban_metadata r' Hwf Hp Ha) in R'.
  unfold check. rewrite Hmw, Hx'. rewrite (bind_run _ _ _ _ _ R'). by eexists.
Qed.
End banned.

(** ** On the uncompressed engine *)

Section composed.
Context `{IpNetworkCrate} `{!IpNetworkLaws} `{DashMapCrate} `{!DashMapLaws} `{InstantRange}.
Context `{MokaCrate} `{!MokaLaws}.
Abbreviation Std := (StandardEngine UncompressedTree).
Implicit Types (p : PolicyEngine Std) (h : Heap) (m : table) (n : Z) (F : gset loc).

(** The tracker's ban table is never consulted: with the blocklist
    disabled an address that is within its ban period is allowed whenever
    its bucket has a token. *)
Theorem auto_ban_needs_blocklist h p xff rip ra ip clock now t l' :
  pe_blocklist_enabled p = false →
  rl_bucket_mode (lm_config (pe_limiter p)) = Ip →
  extract_ip xff rip ra (mw_trusted_proxies (pe_middleware_cfg p)) = Ok ip →
  pe_auto_ban p = Some t → is_banned t ip now = true →
  consume (pe_limiter p) (Exact ip) (clock 0%nat) (clock 1%nat) = Some (true, l') →
  ∃ p', check p xff rip ra clock now h = Some ((Allow, p'), h).
Proof.
  intros Hbl Hmode Hx Ht Hban Hc. unfold check. rewrite Hx.
  assert (blocklisted p ip h = Some ((false, p), h)) as R1 by (unfold blocklisted; by rewrite Hbl).
  rewrite (bind_run _ _ _ _ _ R1). cbn beta iota. destruct (pe_rate_limit_enabled p); [|by eexists].
  assert (limiter_allow (pe_limiter p) ip (Some (pe_engine p)) clock h =
    Some ((true, l', Some (pe_engine p)), h)) as R2.
  { eapply limiter_allow_exact; [by rewrite Hmode|by rewrite Hmode|done]. }
  rewrite (bind_run _ _ _ _ _ R2). by eexists.
Qed.

(** With the blocklist enabled the subnet mode never groups addresses: an
    address the engine knows is blocked before the limiter runs, and one
    it does not know is keyed by itself, so [check] behaves as with one
    bucket per address, whatever the depths. *)
Theorem subnet_mode_never_groups h p m n F xff rip ra ip clock now d4 d6 :
  standard_rep h (pe_engine p) m n F → pe_blocklist_enabled p = true → ip_wf ip →
  rl_bucket_mode (lm_config (pe_limiter p)) = Subnet d4 d6 →
  limiter_inv (pe_limiter p) → config_fits (lm_config (pe_limiter p)) →
  (∀ t, pe_auto_ban p = Some t → now + ban_duration t ≤ max_instant) →
  extract_ip xff rip ra (mw_trusted_proxies (pe_middleware_cfg p)) = Ok ip →
  ∃ d p' h' m', check p xff rip ra clock now h = Some ((d, p'), h') ∧
    check_outcome p m ip clock now d p' m'.
Proof.
  intros Hr Hbl Hwf Hmode Hli Hfit Hmax Hx. change (re_rep h (pe_engine p) m n F) in Hr.
  destruct (check_run h p m n F xff rip ra ip clock now Hx Hr Hwf Hli Hfit Hmax)
    as (d & p' & h' & m' & n' & F' & R & _ & _ & Hout).
  - by rewrite Hmode.
  - intros r e' Ha Hno Hr'. rewrite Hbl in *. simpl in Hno. specialize (Ha eq_refl). simpl in Ha.
    destruct (re_lookup_spec h e' m n F ip Hr') as (r2 & e'' & R2 & Hr2 & Ha2). simpl in Ha2.
    exists e''. split; [|done]. rewrite Hmode. cbn [ip_to_key]. rewrite (bind_run _ _ _ _ _ R2).
    subst r2. rewrite <- Ha. cbn beta iota. by rewrite Hno.
  - by exists d, p', h', m'.
Qed.
End composed.

(** ** Packed addresses *)

(** [PackedIp::from] and [into_ip_addr] are inverse, sixteen bytes are
    filled for both families, and any family but 4 and 6 is rejected. *)
Theorem packed_ip_roundtrip ip :
  ip_wf ip →
  into_ip_addr (PackedIp_from ip) = Some ip ∧ length (bytes (PackedIp_from ip)) = 16%nat ∧
  ∀ f bs, f ≠ 4 → f ≠ 6 → into_ip_addr (mkPacked f bs) = None.
Proof.
  intros Hwf. split_and!.
  - destruct ip as [a|a]; unfold into_ip_addr; simpl family; cbn [Z.eqb Pos.eqb].
    + cbn [PackedIp_from bytes octets]. rewrite take_app_length' by (by rewrite length_be_bytes).
      by rewrite be_value_be_bytes.
    + cbn [PackedIp_from bytes octets]. by rewrite be_value_be_bytes.
  - by destruct ip.
  - intros f bs H4 H6. unfold into_ip_addr. simpl.
    destruct (Z.eqb_spec f 4); [done|]. by destruct (Z.eqb_spec f 6).
Qed.

(** ** Per-route limits in the handle *)

Section routes.
Context `{IpNetworkCrate} `{DashMapCrate} `{MokaCrate} `{InstantRange}.
Context {E : Type} `{!RadixEngine E}.

(** What [check_ip_with_limiter] leaves alone. *)
Lemma violation_limiter (p : PolicyEngine E) ip now h d p' h' :
  violation p ip now h = Some ((d, p'), h') → pe_limiter p' = pe_limiter p.
Proof.
  unfold violation. destruct (pe_auto_ban p) as [t|]; [|by intros [= _ <- _]].
  unfold mbind, M_bind. destruct (record_violation _ _ _ _ _) as [[[[b t'] e] h1]|]; [|done].
  by intros [= _ <- _].
Qed.

Lemma blocklisted_limiter (p : PolicyEngine E) ip h b p' h' :
  blocklisted p ip h = Some ((b, p'), h') → pe_limiter p' = pe_limiter p.
Proof.
  unfold blocklisted. destruct (pe_blocklist_enabled p); [|by intros [= _ <- _]].
  unfold mbind, M_bind. destruct (re_lookup _ _ _) as [[[r e] h1]|]; [|done]. by intros [= _ <- _].
Qed.

Lemma route_limiter_frame (p : PolicyEngine E) ip l clock now h d p' rl h' :
  check_ip_with_limiter p ip (Some l) clock now h = Some ((d, p', rl), h') →
  pe_limiter p' = pe_limiter p ∧ is_Some rl.
Proof.
  unfold check_ip_with_limiter, mbind, M_bind.
  destruct (blocklisted p ip h) as [[[b p1] h1]|] eqn:Hb; [|done].
  apply blocklisted_limiter in Hb. destruct b; [intros [= _ <- <- _]; eauto|].
  destruct (limiter_allow _ _ _ _ _) as [[[[a l'] oe] h2]|]; [|done]. simpl.
  destruct (pe_rate_limit_enabled p1 && negb a).
  - destruct (violation _ _ _ _) as [[[d' p3] h3]|] eqn:Hv; [|done].
    apply violation_limiter in Hv. simpl in Hv. intros [= _ <- <- _]. split; [congruence|eauto].
  - intros [= _ <- <- _]. simpl. eauto.
Qed.

(** A request on a configured route only touches the limiter of that
    route: the global limiter and the limiters of all other routes are
    unchanged, and so are the routes. *)
Theorem check_request_isolated (ph ph' : PolicyHandle E) ip method path clock now h h' r routes id :
  ph_route_trie ph = Some (build_routes routes) →
  match_route (build_routes routes) method path = Some id →
  check_request ph ip method path clock now h = Some ((r, ph'), h') →
  pe_limiter (ph_policy ph') = pe_limiter (ph_policy ph) ∧
  ∃ trie', ph_route_trie ph' = Some trie' ∧ rt_root trie' = rt_root (build_routes routes) ∧
    ∀ id', id' ≠ id → rt_limiters trie' !! id' = rt_limiters (build_routes routes) !! id'.
Proof.
  intros Htrie Hmatch. unfold check_request. rewrite Htrie.
  destruct (into_ip_addr ip) as [a|]; [|intros [= _ <- _]; eauto].
  destruct (match_route_stored _ _ _ _ (routes_stored_build routes) Hmatch) as [l Hl].
  cbn [mbind option_bind]. rewrite Hmatch. cbn [mbind option_bind]. rewrite Hl.
  unfold mbind at 1, M_bind at 1.
  destruct (check_ip_with_limiter _ _ _ _ _ _) as [[[[d p] rl] h1]|] eqn:Hc; [|done].
  apply route_limiter_frame in Hc as [Hp [l' ->]]. cbn beta iota. intros [= _ <- _]. simpl.
  split; [done|]. eexists. split_and!; [done|done|]. intros id' Hne. simpl.
  by rewrite lookup_insert_ne.
Qed.
End routes.
