(* ===== verification/Watcher.v ===== *)
(** * Hot reload (policy/src/watcher.rs)

    [PolicyState] is what a reload replaces; [ConfigWatcher] holds the current
    one in an [ArcSwap] and [handle_event] is called for every file-system
    event.  The [notify] crate, the file system and the YAML parser are
    parameters.  The shared engine is not part of the state. *)

From S2P Require Import Prelude Addr DashMap Node Heap RouteTree Engine TokenBucket Config Limiter RouteTrie AutoBan.

(** The [notify] crate: what [handle_event] inspects of an event. *)
Class NotifyCrate (P : Type) := {
  Event : Type;
  ev_paths : Event → list P;
  ev_modify_data : Event → bool;       (* Modify(ModifyKind::Data(_)) *)
  ev_rename_to : Event → bool;         (* Modify(ModifyKind::Name(RenameMode::To)) *)
  ev_create : Event → bool;            (* Create(_) *)
}.

Section watcher.
Context `{IpNetworkCrate} `{DashMapCrate} `{MokaCrate}.
Context {P : Type} `{!EqDecision P} `{!NotifyCrate P}.

Record PolicyState := mkPolicyState {
  ps_limiter : TokenBucketLimiter;
  ps_route_trie : option RouteTrie;
  ps_auto_ban : option AutoBanTracker;
  ps_config : RadixIpConfig;
}.

Definition state_from_config_with_engine (cfg : RadixIpConfig) : PolicyState :=
  let root := radixip cfg in
  let rl := root_rate_limit root in
  let route_trie := if rr_enabled (root_rate_limit_routes root)
                    then Some (build_routes (rr_routes (root_rate_limit_routes root))) else None in
  let auto_ban := if ab_enabled (root_auto_ban root)
                  then Some (tracker_new (root_auto_ban root)) else None in
  mkPolicyState (limiter_new rl) route_trie auto_ban cfg.

Definition state_from_config (cfg : RadixIpConfig) : PolicyState :=
  let root := radixip cfg in
  let rl := root_rate_limit root in
  let route_trie := if rr_enabled (root_rate_limit_routes root)
                    then Some (build_routes (rr_routes (root_rate_limit_routes root))) else None in
  mkPolicyState (limiter_new rl) route_trie None cfg.

(** [match engine { Some(engine) => ..., None => ... }] *)
Definition build_state (has_engine : bool) (cfg : RadixIpConfig) : PolicyState :=
  if has_engine then state_from_config_with_engine cfg else state_from_config cfg.

(** What [notify::recommended_watcher] and [watch], on the directory of a
    path, return. *)
Record NotifyStart := mkNotifyStart {
  ns_recommended_watcher : Result unit string;
  ns_watch : P → Result unit string;
}.

(** The errors boxed by [new_with_engine]. *)
Inductive WatcherError := WatchConfig (e : ConfigError) | WatchNotify (e : string).

Context (from_str : string → Result RadixIpConfig string).

(** [new_with_engine]: the file is parsed, then a watcher of the operating
    system is made and told to watch the directory of the file; each of the
    three may fail. *)
Definition watcher_new (notify : NotifyStart) (path : P) (has_engine : bool) (read : P → Result string string)
    : Result PolicyState WatcherError :=
  match from_file read from_str path with
  | Err e => Err (WatchConfig e)
  | Ok cfg =>
      let initial_state := build_state has_engine cfg in
      match ns_recommended_watcher notify with
      | Err e => Err (WatchNotify e)
      | Ok _ =>
          match ns_watch notify path with
          | Err e => Err (WatchNotify e)
          | Ok _ => Ok initial_state
          end
      end
  end.

Definition interesting (path : P) (event : Event) : bool :=
  existsb (λ p, bool_decide (p = path)) (ev_paths event) &&
  (ev_modify_data event || ev_rename_to event || ev_create event).

(** [read] is the file system at the time the event is handled. *)
Definition handle_event (path : P) (has_engine : bool) (state : PolicyState)
    (res : Result Event string) (read : P → Result string string) : PolicyState :=
  match res with
  | Err _ => state
  | Ok event =>
      if negb (existsb (λ p, bool_decide (p = path)) (ev_paths event)) then state
      else if negb (ev_modify_data event || ev_rename_to event || ev_create event) then state
      else match from_file read from_str path with
           | Ok new_cfg => build_state has_engine new_cfg
           | Err _ => state
           end
  end.

Definition handle_events (path : P) (has_engine : bool) (state : PolicyState)
    (evs : list (Result Event string * (P → Result string string))) : PolicyState :=
  foldl (λ st ev, handle_event path has_engine st ev.1 ev.2) state evs.

(** ** The state is always built from the last good configuration *)

(** The configuration an event installs, if any. *)
Definition reloads (path : P) (ev : Result Event string * (P → Result string string))
    : option RadixIpConfig :=
  match ev.1 with
  | Ok event =>
      if interesting path event then
        match from_file ev.2 from_str path with Ok cfg => Some cfg | Err _ => None end
      else None
  | Err _ => None
  end.

Lemma handle_event_reloads path he st ev :
  handle_event path he st ev.1 ev.2 =
  match reloads path ev with Some cfg => build_state he cfg | None => st end.
Proof.
  unfold handle_event, reloads, interesting. destruct ev as [[event|e] read]; [|done]. cbn [fst snd].
  destruct (existsb _ _); [|done]. destruct (_ || _); [|done]. simpl.
  by destruct (from_file read from_str path).
Qed.

Lemma reloads_valid path ev cfg : reloads path ev = Some cfg → valid cfg.
Proof.
  unfold reloads. destruct ev as [[event|e] read]; [|done]. cbn [fst snd].
  destruct (interesting path event); [|done].
  destruct (from_file read from_str path) as [c|] eqn:Hf; [|done]. intros [= <-].
  by apply from_file_valid in Hf as [? _].
Qed.

(** C32: whatever events arrive and whatever is in the file when they do, the
    published state is the one built from the last configuration that was
    read, parsed and validated (the initial one if none was), so a bad
    file never replaces a good state and every published configuration is
    valid. *)
Theorem watcher_last_good notify path he read st evs :
  watcher_new notify path he read = Ok st →
  ∃ cfg, from_file read from_str path = Ok cfg ∧ st = build_state he cfg ∧
    let cur := default cfg (last (omap (reloads path) evs)) in
    handle_events path he st evs = build_state he cur ∧ valid cur.
Proof.
  unfold watcher_new. destruct (from_file read from_str path) as [cfg|] eqn:Hf; [|done].
  destruct (ns_recommended_watcher notify); [|done]. destruct (ns_watch notify path); [|done].
  intros [= <-]. exists cfg. split; [done|]. split; [done|]. unfold handle_events.
  induction evs as [|ev evs IH] using rev_ind.
  - simpl. split; [done|]. by apply from_file_valid in Hf as [? _].
  - rewrite foldl_app, omap_app. simpl. destruct IH as [IHs IHv]. rewrite handle_event_reloads.
    destruct (reloads path ev) as [c|] eqn:Hr; simpl.
    + rewrite last_snoc. simpl. split; [done|]. by eapply reloads_valid.
    + by rewrite app_nil_r.
Qed.
End watcher.
Arguments NotifyStart _ : clear implicits.
