(* ===== verification/Adapters.v ===== *)
(** * Framework adapters (adapters/radixip-tower, radixip-axum, radixip-actix, interceptor)

    Each adapter reads the client's address off a request, asks for a decision
    and either forwards the request to the wrapped service or answers itself.
    The static adapters call [PolicyEngine::check]; the watched ones (the
    [from_yaml] modules) take a snapshot of the [PolicyState] published by the
    [ConfigWatcher] and run the checks inline.  [Forward] stands for
    [inner.call(req).await]: the answer of the wrapped service, whatever it is,
    is passed on unchanged. *)

From Stdlib Require Import Ascii.
From S2P Require Import Prelude Addr Lpm DashMap Node Heap RouteTree Engine TokenBucket Config Str IpExtractor Limiter RouteTrie AutoBan Policy Watcher.

Local Open Scope Z_scope.

(** ** Requests and responses *)

(** The [http] crate: header maps, and the status codes a [u16] can become. *)
Class HttpCrate := {
  HeaderMap : Type;
  HeaderValue : Type;
  hm_get : HeaderMap → string → option HeaderValue;
  hv_to_str : HeaderValue → option string;       (* to_str().ok() *)
  status_from_u16 : Z → option Z;                (* StatusCode::from_u16(n).ok() *)
}.

Class HttpLaws `{HttpCrate} : Prop := {
  status_valid n s : status_from_u16 n = Some s ↔ s = n ∧ 100 ≤ n < 1000;
}.

(** A reference model: a header map is an association list of visible
    strings. *)
Module RefHttp.
Definition get (hs : list (string * string)) (name : string) : option string :=
  snd <$> find (λ nv, String.eqb (fst nv) name) hs.

Definition from_u16 (n : Z) : option Z := if (100 <=? n) && (n <? 1000) then Some n else None.

Definition crate : HttpCrate := {|
  HeaderMap := list (string * string);
  HeaderValue := string;
  hm_get := get;
  hv_to_str := Some;
  status_from_u16 := from_u16;
|}.

Definition laws : @HttpLaws crate.
Proof.
  split. intros n s. cbn. unfold from_u16.
  destruct (Z.leb_spec 100 n), (Z.ltb_spec n 1000); cbn;
    (split; [intros [= <-]; lia|intros [-> ?]; first [done|lia]]).
Qed.
End RefHttp.

Section http.
Context `{HttpCrate}.

(** What the adapters read of a request.  The two extensions are different
    keys of the typed extension map. *)
Record Request := mkRequest {
  rq_method : string;
  rq_path : string;
  rq_headers : HeaderMap;
  rq_peer_addr : option SocketAddr;        (* actix peer_addr(), tonic remote_addr() *)
  rq_ext_socket : option SocketAddr;       (* extensions().get::<SocketAddr>() *)
  rq_ext_connect : option SocketAddr;      (* extensions().get::<ConnectInfo<SocketAddr>>() *)
}.

(** A body is the string it is made from; [None] is [ResBody::default()]. *)
Record Response := mkResp {
  res_status : Z;
  res_headers : list (string * string);
  res_body : option string;
}.

Inductive Verdict := Forward | Reply (r : Response).

Inductive Code := InvalidArgument | PermissionDenied | ResourceExhausted.

(** [tonic::Status], with the metadata inserted into it. *)
Record Status := mkStatus { st_code : Code; st_message : string; st_metadata : list (string * string) }.

(** [get(name).and_then(|v| v.to_str().ok())] *)
Definition header (req : Request) (name : string) : option string :=
  v ← hm_get (rq_headers req) name; hv_to_str v.

Definition x_forwarded_for (req : Request) : option string := header req "x-forwarded-for".
Definition x_real_ip (req : Request) : option string := header req "x-real-ip".

Definition quoted (s : string) : string :=
  let dq := String (ascii_of_nat 34) EmptyString in dq +:+ s +:+ dq.

(** [{"error":"<msg>"}] *)
Definition error_body (msg : string) : string :=
  "{" +:+ quoted "error" +:+ ":" +:+ quoted msg +:+ "}".
(** [{"error": "<msg>"}], with a space *)
Definition error_body_spaced (msg : string) : string :=
  "{" +:+ quoted "error" +:+ ": " +:+ quoted msg +:+ "}".
(** [{"error":"blocked","reason":"ip_blocked"}] *)
Definition blocked_body : string :=
  "{" +:+ quoted "error" +:+ ":" +:+ quoted "blocked" +:+ "," +:+
    quoted "reason" +:+ ":" +:+ quoted "ip_blocked" +:+ "}".

Definition json_type : string * string := ("content-type", "application/json").
Definition retry_after_1 : string * string := ("retry-after", "1").

Definition blocked_status (r : ResponseConfig) : Z := default 403 (status_from_u16 (rc_blocked r)).
Definition limited_status (r : ResponseConfig) : Z := default 429 (status_from_u16 (rc_rate_limited r)).

Definition reply_blocked (r : ResponseConfig) (body : option string) : Verdict :=
  Reply (mkResp (blocked_status r) [json_type] body).
Definition reply_limited (r : ResponseConfig) (body : option string) : Verdict :=
  Reply (mkResp (limited_status r) [json_type; retry_after_1] body).
Definition reply_bad_request (body : option string) : Verdict :=
  Reply (mkResp 400 [json_type] body).

(** [Response::new], [status_mut], [HeaderMap::insert], which replaces a header
    of the same name, and the builders of axum and actix. *)
Definition response_new (body : string) : Response := mkResp 200 [] (Some body).
Definition set_status (r : Response) (status : Z) : Response := mkResp status (res_headers r) (res_body r).
Definition insert_header (r : Response) (nv : string * string) : Response :=
  mkResp (res_status r) (filter (λ x, x.1 ≠ nv.1) (res_headers r) ++ [nv]) (res_body r).
Definition into_response (status : Z) (headers : list (string * string)) (body : string) : Response :=
  foldl insert_header (set_status (response_new body) status) headers.
Definition builder_new (status : Z) : Response := mkResp status [] None.
Definition with_body (r : Response) (body : string) : Response := mkResp (res_status r) (res_headers r) (Some body).

Definition grpc_limited : Status :=
  mkStatus ResourceExhausted "rate limited: exceeded rate limit" [retry_after_1].

(** [req_path == "/health" || req_path == "/metrics" || req_path.starts_with("/healthz")] *)
Definition is_probe (path : string) : bool :=
  String.eqb path "/health" || String.eqb path "/metrics" || String.prefix "/healthz" path.
End http.

(** ** The static adapters *)

Section static.
Context `{HttpCrate} `{IpNetworkCrate} `{DashMapCrate} `{MokaCrate} `{InstantRange}.
Context {E : Type} `{!RadixEngine E}.

(** [RadixIpMiddleware], [RadixIpService], [AxumRadixIpService] and
    [RadixIpInterceptor]: the shared policy and the response codes. *)
Record RadixIpService := mkService { svc_engine : PolicyEngine E; svc_responses : ResponseConfig }.

(** radixip-tower: [Response::new(body)], then the status and the headers. *)
Definition tower_reply (responses : ResponseConfig) (d : PolicyDecision) : Verdict :=
  match d with
  | Allow => Forward
  | Block | AutoBanned =>
      let res := set_status (response_new blocked_body) (default 403 (status_from_u16 (rc_blocked responses))) in
      Reply (insert_header res json_type)
  | Limit =>
      let res := set_status (response_new (error_body "rate limited"))
        (default 429 (status_from_u16 (rc_rate_limited responses))) in
      Reply (insert_header (insert_header res json_type) retry_after_1)
  | BadRequest msg =>
      let res := set_status (response_new (error_body_spaced ("bad request: " +:+ msg))) 400 in
      Reply (insert_header res json_type)
  end.

Definition tower_call (s : RadixIpService) (req : Request) (clock : nat → Z) (now : Z)
    : M (Verdict * RadixIpService) :=
  '(decision, p) ← check (svc_engine s) (x_forwarded_for req) (x_real_ip req) (rq_ext_socket req) clock now;
  mret (tower_reply (svc_responses s) decision, mkService p (svc_responses s)).

(** radixip-axum: [(status, [headers], body).into_response()] *)
Definition axum_reply (responses : ResponseConfig) (d : PolicyDecision) : Verdict :=
  match d with
  | Allow => Forward
  | Block | AutoBanned =>
      Reply (into_response (default 403 (status_from_u16 (rc_blocked responses))) [json_type] blocked_body)
  | Limit =>
      Reply (into_response (default 429 (status_from_u16 (rc_rate_limited responses))) [json_type; retry_after_1]
        (error_body "rate limited"))
  | BadRequest msg => Reply (into_response 400 [json_type] (error_body_spaced ("bad request: " +:+ msg)))
  end.

Definition axum_call (s : RadixIpService) (req : Request) (clock : nat → Z) (now : Z)
    : M (Verdict * RadixIpService) :=
  '(decision, p) ← check (svc_engine s) (x_forwarded_for req) (x_real_ip req) (rq_ext_connect req) clock now;
  mret (axum_reply (svc_responses s) decision, mkService p (svc_responses s)).

(** radixip-actix: a builder with a status, then headers, the body last. *)
Definition actix_reply (responses : ResponseConfig) (d : PolicyDecision) : Verdict :=
  match d with
  | Allow => Forward
  | Block | AutoBanned =>
      let builder := builder_new (default 403 (status_from_u16 (rc_blocked responses))) in
      Reply (with_body (insert_header builder json_type) blocked_body)
  | Limit =>
      let builder := builder_new (default 429 (status_from_u16 (rc_rate_limited responses))) in
      let builder := insert_header builder json_type in
      Reply (with_body (insert_header builder retry_after_1) (error_body "rate limited"))
  | BadRequest msg =>
      let builder := insert_header (builder_new 400) json_type in
      Reply (with_body builder (error_body_spaced ("bad request: " +:+ msg)))
  end.

Definition actix_call (s : RadixIpService) (req : Request) (clock : nat → Z) (now : Z)
    : M (Verdict * RadixIpService) :=
  '(decision, p) ← check (svc_engine s) (x_forwarded_for req) (x_real_ip req) (rq_peer_addr req) clock now;
  mret (actix_reply (svc_responses s) decision, mkService p (svc_responses s)).

(** interceptor, the Tower service: as radixip-tower, but for the space in the
    body of a bad request. *)
Definition grpc_http_reply (responses : ResponseConfig) (d : PolicyDecision) : Verdict :=
  match d with
  | Allow => Forward
  | Block | AutoBanned =>
      let res := set_status (response_new blocked_body) (default 403 (status_from_u16 (rc_blocked responses))) in
      Reply (insert_header res json_type)
  | Limit =>
      let res := set_status (response_new (error_body "rate limited"))
        (default 429 (status_from_u16 (rc_rate_limited responses))) in
      Reply (insert_header (insert_header res json_type) retry_after_1)
  | BadRequest msg =>
      let res := set_status (response_new (error_body ("bad request: " +:+ msg))) 400 in
      Reply (insert_header res json_type)
  end.

Definition grpc_call (s : RadixIpService) (req : Request) (clock : nat → Z) (now : Z)
    : M (Verdict * RadixIpService) :=
  '(decision, p) ← check (svc_engine s) (x_forwarded_for req) (x_real_ip req) (rq_ext_socket req) clock now;
  mret (grpc_http_reply (svc_responses s) decision, mkService p (svc_responses s)).

(** interceptor, the tonic [Interceptor]; [Ok tt] hands the request on *)
Definition grpc_reply (d : PolicyDecision) : Result unit Status :=
  match d with
  | Allow => Ok tt
  | Block | AutoBanned => Err (mkStatus PermissionDenied "blocked: IP is in blocklist" [])
  | Limit => Err grpc_limited
  | BadRequest msg => Err (mkStatus InvalidArgument ("failed to extract IP: " +:+ msg) [])
  end.

Definition interceptor_call (s : RadixIpService) (req : Request) (clock : nat → Z) (now : Z)
    : M (Result unit Status * RadixIpService) :=
  '(d, p) ← check (svc_engine s) (x_forwarded_for req) (x_real_ip req) (rq_peer_addr req) clock now;
  mret (grpc_reply d, mkService p (svc_responses s)).
End static.
Arguments RadixIpService {_ _ _} _.

(** ** The watched adapters *)

Section watched.
Context `{HttpCrate} `{IpNetworkCrate} `{DashMapCrate} `{MokaCrate} `{InstantRange}.
Context {E : Type} `{!RadixEngine E}.

(** The snapshot the watcher publishes and the engine. *)
Record WatchedService := mkWatched { ws_state : PolicyState; ws_engine : E }.

Definition st_middleware (st : PolicyState) : MiddlewareConfig := root_middleware (radixip (ps_config st)).
Definition st_rate_limit (st : PolicyState) : RateLimitConfig := root_rate_limit (radixip (ps_config st)).
Definition st_blocklist (st : PolicyState) : BlocklistConfig := root_blocklist (radixip (ps_config st)).
Definition st_responses (st : PolicyState) : ResponseConfig := mw_responses (st_middleware st).

Definition set_ps_limiter (st : PolicyState) (l : TokenBucketLimiter) : PolicyState :=
  mkPolicyState l (ps_route_trie st) (ps_auto_ban st) (ps_config st).
Definition set_ps_trie (st : PolicyState) (t : RouteTrie) : PolicyState :=
  mkPolicyState (ps_limiter st) (Some t) (ps_auto_ban st) (ps_config st).
Definition set_ps_auto_ban (st : PolicyState) (t : AutoBanTracker) : PolicyState :=
  mkPolicyState (ps_limiter st) (ps_route_trie st) (Some t) (ps_config st).

(** [bl_cfg.enabled && engine.lookup(&ip).is_some()] *)
Definition ws_blocked (ws : WatchedService) (ip : IpAddr) : M (bool * WatchedService) :=
  if bl_enabled (st_blocklist (ws_state ws)) then
    '(r, e) ← re_lookup (ws_engine ws) ip;
    mret (is_some r, mkWatched (ws_state ws) e)
  else mret (false, ws).

(** The limiter of the matched route, with its place in the trie. *)
Definition route_of (st : PolicyState) (method path : string) : option (RouteTrie * positive * TokenBucketLimiter) :=
  trie ← ps_route_trie st;
  id ← match_route trie method path;
  l ← rt_limiters trie !! id;
  Some (trie, id, l).

(** [state.limiter.allow(ip, Some(engine))] *)
Definition ws_allow_global (ws : WatchedService) (ip : IpAddr) (clock : nat → Z) : M (bool * WatchedService) :=
  '(b, l, e) ← limiter_allow (ps_limiter (ws_state ws)) ip (Some (ws_engine ws)) clock;
  mret (b, mkWatched (set_ps_limiter (ws_state ws) l) (default (ws_engine ws) e)).

(** [match limiter_to_use { Some(route_lim) => .., None => .. }] *)
Definition ws_allow (ws : WatchedService) (method path : string) (ip : IpAddr) (clock : nat → Z)
    : M (bool * WatchedService) :=
  match route_of (ws_state ws) method path with
  | Some (trie, id, route_lim) =>
      '(b, l, e) ← limiter_allow route_lim ip (Some (ws_engine ws)) clock;
      let trie' := mkRouteTrie (rt_root trie) (<[id := l]> (rt_limiters trie)) (rt_next trie) in
      mret (b, mkWatched (set_ps_trie (ws_state ws) trie') (default (ws_engine ws) e))
  | None => ws_allow_global ws ip clock
  end.

(** [if let Some(tracker) = &state.auto_ban { tracker.record_violation(ip) }] *)
Definition ws_violation (ws : WatchedService) (ip : IpAddr) (now : Z) : M (bool * WatchedService) :=
  match ps_auto_ban (ws_state ws) with
  | Some tracker =>
      '(banned_now, tracker', e) ← record_violation tracker (ws_engine ws) ip now;
      mret (banned_now, mkWatched (set_ps_auto_ban (ws_state ws) tracker') e)
  | None => mret (false, ws)
  end.

Definition ws_extract (ws : WatchedService) (req : Request) (remote : option SocketAddr)
    : Result IpAddr ExtractError :=
  extract_ip (x_forwarded_for req) (x_real_ip req) remote
    (mw_trusted_proxies (st_middleware (ws_state ws))).

(** interceptor/from_yaml.rs, [GrpcWatchedRadixIpService::call] *)
Definition grpc_watched_call (ws : WatchedService) (req : Request) (clock : nat → Z) (now : Z)
    : M (Verdict * WatchedService) :=
  let responses := st_responses (ws_state ws) in
  match ws_extract ws req (rq_ext_socket req) with
  | Err _ => mret (reply_bad_request None, ws)
  | Ok ip =>
      '(blocked, ws1) ← ws_blocked ws ip;
      if (blocked : bool) then mret (reply_blocked responses None, ws1)
      else if rl_enabled (st_rate_limit (ws_state ws1)) then
        '(allowed, ws2) ← ws_allow ws1 "POST" (rq_path req) ip clock;
        if (allowed : bool) then mret (Forward, ws2)
        else
          '(banned_now, ws3) ← ws_violation ws2 ip now;
          if (banned_now : bool) then mret (reply_blocked responses None, ws3)
          else mret (reply_limited responses None, ws3)
      else mret (Forward, ws1)
  end.

(** radixip-tower/from_yaml.rs, [TowerWatchedRadixIpService::call]: the
    tracker is not used. *)
Definition tower_watched_call (ws : WatchedService) (req : Request) (clock : nat → Z)
    : M (Verdict * WatchedService) :=
  let responses := st_responses (ws_state ws) in
  match ws_extract ws req (rq_ext_socket req) with
  | Err e => mret (reply_bad_request (Some (error_body ("bad request: " +:+ ExtractError_to_string e))), ws)
  | Ok ip =>
      '(blocked, ws1) ← ws_blocked ws ip;
      if (blocked : bool) then mret (reply_blocked responses (Some (error_body "blocked")), ws1)
      else if rl_enabled (st_rate_limit (ws_state ws1)) then
        '(allowed, ws2) ← ws_allow ws1 (rq_method req) (rq_path req) ip clock;
        if (allowed : bool) then mret (Forward, ws2)
        else mret (reply_limited responses (Some (error_body "rate limited")), ws2)
      else mret (Forward, ws1)
  end.

(** [if let Some(auto_ban) = &state.auto_ban { if auto_ban.is_banned(ip) .. }] *)
Definition ws_banned (ws : WatchedService) (ip : IpAddr) (now : Z) : bool :=
  match ps_auto_ban (ws_state ws) with Some t => is_banned t ip now | None => false end.

(** The checks radixip-axum and radixip-actix share; [now0] is read by
    [is_banned], [now] by [record_violation], whose answer is dropped. *)
Definition probe_watched_call (remote : option SocketAddr) (ws : WatchedService) (req : Request)
    (clock : nat → Z) (now0 now : Z) : M (Verdict * WatchedService) :=
  let responses := st_responses (ws_state ws) in
  if is_probe (rq_path req) then mret (Forward, ws)
  else match ws_extract ws req remote with
  | Err e =>
      mret (reply_bad_request (Some (error_body_spaced ("bad request: " +:+ ExtractError_to_string e))), ws)
  | Ok ip =>
      if ws_banned ws ip now0 then mret (reply_blocked responses (Some (error_body "auto-banned")), ws)
      else
        '(blocked, ws1) ← ws_blocked ws ip;
        if (blocked : bool) then mret (reply_blocked responses (Some (error_body "blocked")), ws1)
        else if rl_enabled (st_rate_limit (ws_state ws1)) then
          '(allowed, ws2) ← ws_allow ws1 (rq_method req) (rq_path req) ip clock;
          if (allowed : bool) then mret (Forward, ws2)
          else
            '(_, ws3) ← ws_violation ws2 ip now;
            mret (reply_limited responses (Some (error_body "rate limited")), ws3)
        else mret (Forward, ws1)
  end.

(** radixip-axum/from_yaml.rs *)
Definition axum_watched_call (ws : WatchedService) (req : Request) :=
  probe_watched_call (rq_ext_connect req) ws req.
(** radixip-actix/from_yaml.rs *)
Definition actix_watched_call (ws : WatchedService) (req : Request) :=
  probe_watched_call (rq_peer_addr req) ws req.

(** interceptor/from_yaml.rs, [GrpcWatchedRadixIpInterceptor]: its tracker is
    its own, built once from the configuration it is created with. *)
Record WatchedInterceptor := mkInterceptor { wi_service : WatchedService; wi_auto_ban : option AutoBanTracker }.

Definition watched_interceptor_new (st : PolicyState) (engine : E) : WatchedInterceptor :=
  let cfg := root_auto_ban (radixip (ps_config st)) in
  mkInterceptor (mkWatched st engine) (if ab_enabled cfg then Some (tracker_new cfg) else None).

Definition watched_interceptor_call (wi : WatchedInterceptor) (req : Request) (clock : nat → Z) (now : Z)
    : M (Result unit Status * WatchedInterceptor) :=
  let ws := wi_service wi in
  match ws_extract ws req (rq_peer_addr req) with
  | Err e =>
      mret (Err (mkStatus InvalidArgument ("failed to extract IP: " +:+ ExtractError_to_string e) []), wi)
  | Ok ip =>
      '(blocked, ws1) ← ws_blocked ws ip;
      if (blocked : bool) then
        mret (Err (mkStatus PermissionDenied "blocked: IP is in blocklist" []), mkInterceptor ws1 (wi_auto_ban wi))
      else if rl_enabled (st_rate_limit (ws_state ws1)) then
        '(allowed, ws2) ← ws_allow_global ws1 ip clock;
        if (allowed : bool) then mret (Ok tt, mkInterceptor ws2 (wi_auto_ban wi))
        else match wi_auto_ban wi with
        | Some tracker =>
            '(banned_now, tracker', e) ← record_violation tracker (ws_engine ws2) ip now;
            let wi' := mkInterceptor (mkWatched (ws_state ws2) e) (Some tracker') in
            if (banned_now : bool) then
              mret (Err (mkStatus PermissionDenied "auto-banned: exceeded violation threshold" []), wi')
            else mret (Err grpc_limited, wi')
        | None => mret (Err grpc_limited, mkInterceptor ws2 None)
        end
      else mret (Ok tt, mkInterceptor ws1 (wi_auto_ban wi))
  end.
End watched.
Arguments WatchedService {_ _ _} _.
Arguments WatchedInterceptor {_ _ _} _.

(** ** The static adapters agree *)

Section static_facts.
Context `{HttpCrate} `{!HttpLaws} `{IpNetworkCrate} `{DashMapCrate} `{MokaCrate} `{InstantRange}.
Context {E : Type} `{!RadixEngine E}.

(** Two verdicts that differ in the body only. *)
Definition same_verdict (v w : Verdict) : Prop :=
  match v, w with
  | Forward, Forward => True
  | Reply r, Reply s => res_status r = res_status s ∧ res_headers r = res_headers s
  | _, _ => False
  end.

Lemma status_default n d : 100 ≤ d < 1000 →
  100 ≤ default d (status_from_u16 n) < 1000 ∧
  (100 ≤ n < 1000 → default d (status_from_u16 n) = n).
Proof.
  intros Hd. destruct (status_from_u16 n) as [s|] eqn:E1.
  - apply status_valid in E1 as [-> Hn]. done.
  - split; [done|]. intros Hn. assert (status_from_u16 n = Some n) as E2 by by apply status_valid.
    congruence.
Qed.

(** What a static adapter does with a decision of the policy. *)
Definition renders (r : ResponseConfig) (d : PolicyDecision) (v : Verdict) : Prop :=
  match v with
  | Forward => d = Allow
  | Reply res =>
      d ≠ Allow ∧ 100 ≤ res_status res < 1000 ∧ json_type ∈ res_headers res ∧
      (retry_after_1 ∈ res_headers res ↔ d = Limit) ∧
      match d with
      | Allow => False
      | Block | AutoBanned => 100 ≤ rc_blocked r < 1000 → res_status res = rc_blocked r
      | Limit => 100 ≤ rc_rate_limited r < 1000 → res_status res = rc_rate_limited r
      | BadRequest _ => res_status res = 400
      end
  end.

(** The common form of the four HTTP adapters: a verdict for a decision. *)
Definition http_reply (bad_request : string → string) (r : ResponseConfig) (d : PolicyDecision) : Verdict :=
  match d with
  | Allow => Forward
  | Block | AutoBanned => reply_blocked r (Some blocked_body)
  | Limit => reply_limited r (Some (error_body "rate limited"))
  | BadRequest msg => reply_bad_request (Some (bad_request ("bad request: " +:+ msg)))
  end.

Definition service_call (bad_request : string → string) (remote : option SocketAddr)
    (s : RadixIpService E) (req : Request) (clock : nat → Z) (now : Z) : M (Verdict * RadixIpService E) :=
  '(d, p) ← check (svc_engine s) (x_forwarded_for req) (x_real_ip req) remote clock now;
  mret (http_reply bad_request (svc_responses s) d, mkService p (svc_responses s)).

Lemma tower_reply_eq r d : tower_reply r d = http_reply error_body_spaced r d.
Proof. by destruct d. Qed.
Lemma axum_reply_eq r d : axum_reply r d = http_reply error_body_spaced r d.
Proof. by destruct d. Qed.
Lemma actix_reply_eq r d : actix_reply r d = http_reply error_body_spaced r d.
Proof. by destruct d. Qed.
Lemma grpc_http_reply_eq r d : grpc_http_reply r d = http_reply error_body r d.
Proof. by destruct d. Qed.

Lemma tower_call_eq s req clock now h :
  tower_call s req clock now h = service_call error_body_spaced (rq_ext_socket req) s req clock now h.
Proof. unfold tower_call, service_call, mbind, M_bind. destruct (check _ _ _ _ _ _ _) as [[[d p] h']|]; [|done]. by rewrite tower_reply_eq. Qed.
Lemma axum_call_eq s req clock now h :
  axum_call s req clock now h = service_call error_body_spaced (rq_ext_connect req) s req clock now h.
Proof. unfold axum_call, service_call, mbind, M_bind. destruct (check _ _ _ _ _ _ _) as [[[d p] h']|]; [|done]. by rewrite axum_reply_eq. Qed.
Lemma actix_call_eq s req clock now h :
  actix_call s req clock now h = service_call error_body_spaced (rq_peer_addr req) s req clock now h.
Proof. unfold actix_call, service_call, mbind, M_bind. destruct (check _ _ _ _ _ _ _) as [[[d p] h']|]; [|done]. by rewrite actix_reply_eq. Qed.
Lemma grpc_call_eq s req clock now h :
  grpc_call s req clock now h = service_call error_body (rq_ext_socket req) s req clock now h.
Proof. unfold grpc_call, service_call, mbind, M_bind. destruct (check _ _ _ _ _ _ _) as [[[d p] h']|]; [|done]. by rewrite grpc_http_reply_eq. Qed.

Lemma http_reply_renders bad r d : renders r d (http_reply bad r d).
Proof.
  unfold http_reply, reply_blocked, reply_limited, blocked_status, limited_status.
  destruct (status_default (rc_blocked r) 403 ltac:(lia)) as [Hb Hb'].
  destruct (status_default (rc_rate_limited r) 429 ltac:(lia)) as [Hl Hl'].
  assert (retry_after_1 ∉ [json_type]) as Hno by set_solver.
  destruct d; cbn [renders reply_bad_request res_status res_headers];
    [done|..]; (split_and!; [done|lia|lia|set_solver|set_solver|done]).
Qed.

Lemma http_reply_same bad bad' r d : same_verdict (http_reply bad r d) (http_reply bad' r d).
Proof. by destruct d. Qed.

(** The [Status] of the tonic interceptor for a decision. *)
Definition answers_status (d : PolicyDecision) (g : Result unit Status) : Prop :=
  match d with
  | Allow => g = Ok tt
  | Block | AutoBanned => ∃ msg, g = Err (mkStatus PermissionDenied msg [])
  | Limit => ∃ msg, g = Err (mkStatus ResourceExhausted msg [retry_after_1])
  | BadRequest why => g = Err (mkStatus InvalidArgument ("failed to extract IP: " +:+ why) [])
  end.

(** C26: when the frameworks report the same peer, the five static adapters are
    one policy: they run [PolicyEngine::check] on the same inputs and leave
    the same policy behind.  The four HTTP services, each of which builds its
    own response, answer with the same status and headers (tower, axum and
    actix also with the same body): a request reaches the wrapped service
    exactly when the decision is [Allow], every other answer carries a valid
    status (the configured one if it is a status code at all), a JSON content
    type, and [Retry-After] exactly when the request was limited.  The tonic
    interceptor answers with the [Status] for the decision. *)
Theorem static_adapters_agree (s : RadixIpService E) req clock now h peer :
  rq_ext_socket req = peer → rq_ext_connect req = peer → rq_peer_addr req = peer →
  match check (svc_engine s) (x_forwarded_for req) (x_real_ip req) peer clock now h with
  | None => tower_call s req clock now h = None ∧ axum_call s req clock now h = None ∧
      actix_call s req clock now h = None ∧ grpc_call s req clock now h = None ∧
      interceptor_call s req clock now h = None
  | Some ((d, p), h') =>
      ∃ v w g, let s' := mkService p (svc_responses s) in
        tower_call s req clock now h = Some ((v, s'), h') ∧
        axum_call s req clock now h = Some ((v, s'), h') ∧
        actix_call s req clock now h = Some ((v, s'), h') ∧
        grpc_call s req clock now h = Some ((w, s'), h') ∧ same_verdict v w ∧
        interceptor_call s req clock now h = Some ((g, s'), h') ∧
        renders (svc_responses s) d v ∧ answers_status d g
  end.
Proof.
  intros Hs Hc Hp. rewrite tower_call_eq, axum_call_eq, actix_call_eq, grpc_call_eq, Hs, Hc, Hp.
  unfold interceptor_call, service_call, mbind, M_bind. rewrite Hp.
  destruct (check _ _ _ _ _ _ _) as [[[d p] h']|]; [|done].
  eexists _, _, _. split_and!; [done..| | | |].
  - apply http_reply_same.
  - done.
  - apply http_reply_renders.
  - destruct d; simpl; eauto.
Qed.

(** The layer of radixip-tower, which radixip-axum re-exports, does not read
    axum's [ConnectInfo]: a request with neither header is refused whatever
    address [ConnectInfo] holds, where the layer of radixip-axum checks it. *)
Theorem tower_layer_ignores_connect_info (s : RadixIpService E) req clock now h addr :
  x_forwarded_for req = None → x_real_ip req = None →
  rq_ext_socket req = None → rq_ext_connect req = Some addr →
  tower_call s req clock now h =
    Some ((reply_bad_request
      (Some (error_body_spaced "bad request: No usable IP found in headers")), s), h) ∧
  axum_call s req clock now h =
    match check (svc_engine s) None None (Some addr) clock now h with
    | Some ((d, p), h') =>
        Some ((http_reply error_body_spaced (svc_responses s) d, mkService p (svc_responses s)), h')
    | None => None
    end.
Proof.
  intros Hx Hr Hs Hc. unfold tower_call, axum_call, service_call. rewrite Hx, Hr, Hs, Hc.
  split; [by destruct s|]. unfold mbind, M_bind. by destruct (check _ _ _ _ _ _ _) as [[[d p] h']|].
Qed.

(** The body of a 400 repeats the offending text unescaped: with an
    [X-Real-IP] that contains quotes the client adds members of its own to the
    JSON object. *)
Theorem bad_request_body_injection (s : RadixIpService E) req clock now h :
  x_forwarded_for req = None →
  x_real_ip req = Some ("x" +:+ quoted "," +:+ "role" +:+ quoted ":" +:+ "admin") →
  tower_call s req clock now h =
    Some ((reply_bad_request (Some
      ("{" +:+ quoted "error" +:+ ": " +:+ quoted "bad request: Invalid IP address: x" +:+ "," +:+
        quoted "role" +:+ ":" +:+ quoted "admin" +:+ "}")), s), h).
Proof.
  intros Hx Hr. unfold tower_call, service_call, check. rewrite Hx, Hr. by destruct s.
Qed.
End static_facts.

(** ** The watched adapters run the policy engine's decision *)

Section watched_facts.
Context `{HttpCrate} `{IpNetworkCrate} `{DashMapCrate} `{MokaCrate} `{InstantRange}.
Context {E : Type} `{!RadixEngine E}.
Implicit Types (ws : WatchedService E) (h : Heap).

(** The [PolicyEngine] with the parts of a snapshot, and back. *)
Definition policy_of ws : PolicyEngine E :=
  let st := ws_state ws in
  mkPolicy (ws_engine ws) (ps_limiter st) (st_middleware st) (rl_enabled (st_rate_limit st))
    (bl_enabled (st_blocklist st)) (ps_auto_ban st).

Definition route_limiter ws (method path : string) : option TokenBucketLimiter :=
  snd <$> route_of (ws_state ws) method path.

Definition put_back ws (method path : string) (p : PolicyEngine E) (rl : option TokenBucketLimiter)
    (t : option AutoBanTracker) : WatchedService E :=
  let trie := match route_of (ws_state ws) method path, rl with
              | Some (trie, id, _), Some l =>
                  Some (mkRouteTrie (rt_root trie) (<[id := l]> (rt_limiters trie)) (rt_next trie))
              | _, _ => ps_route_trie (ws_state ws)
              end in
  mkWatched (mkPolicyState (pe_limiter p) trie t (ps_config (ws_state ws))) (pe_engine p).

Lemma blocklisted_watched ws ip h :
  blocklisted (policy_of ws) ip h =
  (λ '((b, ws1), h1), ((b, policy_of ws1), h1)) <$> ws_blocked ws ip h.
Proof.
  unfold blocklisted, ws_blocked. cbn [policy_of pe_blocklist_enabled].
  destruct (bl_enabled _); [|done]. unfold mbind, M_bind. cbn [pe_engine].
  by destruct (re_lookup _ _ _) as [[[r e] h1]|].
Qed.

Lemma ws_blocked_state ws ip h b ws1 h1 :
  ws_blocked ws ip h = Some ((b, ws1), h1) → ws_state ws1 = ws_state ws.
Proof.
  unfold ws_blocked. destruct (bl_enabled _); [|by intros [= _ <- _]].
  unfold mbind, M_bind. destruct (re_lookup _ _ _) as [[[r e] h2]|]; [|done]. by intros [= _ <- _].
Qed.

Lemma violation_watched ws ip now h :
  violation (policy_of ws) ip now h =
  (λ '((b, ws1), h1), ((if b : bool then AutoBanned else Limit, policy_of ws1), h1)) <$>
    ws_violation ws ip now h.
Proof.
  unfold violation, ws_violation. cbn [policy_of pe_auto_ban].
  destruct (ps_auto_ban (ws_state ws)) as [t|] eqn:Ht; [|done].
  unfold mbind, M_bind. cbn [pe_engine].
  by destruct (record_violation _ _ _ _ _) as [[[[b t'] e] h1]|].
Qed.

(** The answers of the adapters to each decision. *)
Definition grpc_watched_verdict (r : ResponseConfig) (d : PolicyDecision) : Verdict :=
  match d with
  | Allow => Forward
  | Block | AutoBanned => reply_blocked r None
  | Limit => reply_limited r None
  | BadRequest _ => reply_bad_request None
  end.

(** The request that triggers a ban is answered as a limited one. *)
Definition http_watched_verdict (r : ResponseConfig) (d : PolicyDecision) : Verdict :=
  match d with
  | Allow => Forward
  | Block => reply_blocked r (Some (error_body "blocked"))
  | Limit | AutoBanned => reply_limited r (Some (error_body "rate limited"))
  | BadRequest msg => reply_bad_request (Some (error_body_spaced ("bad request: " +:+ msg)))
  end.

(** The common body: blocklist, limiter of the route or the global one, and
    the tracker if [track] is set. *)
Definition ws_decide (track : bool) ws (method path : string) (ip : IpAddr) (clock : nat → Z) (now : Z)
    : M (PolicyDecision * WatchedService E) :=
  '(blocked, ws1) ← ws_blocked ws ip;
  if (blocked : bool) then mret (Block, ws1)
  else
    '(allowed, ws2) ← ws_allow ws1 method path ip clock;
    if (allowed : bool) then mret (Allow, ws2)
    else if track then
      '(b, ws3) ← ws_violation ws2 ip now;
      mret (if (b : bool) then AutoBanned else Limit, ws3)
    else mret (Limit, ws2).

Definition tracker_of (track : bool) ws : option AutoBanTracker :=
  if track then ps_auto_ban (ws_state ws) else None.

Lemma put_back_same ws method path p :
  pe_limiter p = ps_limiter (ws_state ws) →
  put_back ws method path p (route_limiter ws method path) (ps_auto_ban (ws_state ws)) =
  mkWatched (ws_state ws) (pe_engine p).
Proof.
  intros Hl. unfold put_back, route_limiter, route_of. destruct ws as [[lim trie ab cfg] e]. cbn in *.
  subst lim. destruct trie as [[root ls nx]|]; [|done]. cbn.
  destruct (match_route _ method path) as [id|]; [|done]. cbn.
  destruct (ls !! id) as [l|] eqn:Hid; [|done]. cbn. by rewrite insert_id.
Qed.

(** A result of [check_ip_with_limiter] as a result on the snapshot. *)
Definition to_watched (track : bool) ws (method path : string)
    (r : (PolicyDecision * PolicyEngine E * option TokenBucketLimiter) * Heap)
    : (PolicyDecision * WatchedService E) * Heap :=
  let '((d, p, rl), h') := r in
  ((d, put_back ws method path p rl
     (if track then pe_auto_ban p else ps_auto_ban (ws_state ws))), h').

(** [ws_decide] is [check_ip_with_limiter] with the limiter of the route. *)
Lemma ws_decide_policy track ws method path ip clock now h :
  rl_enabled (st_rate_limit (ws_state ws)) = true →
  ws_decide track ws method path ip clock now h =
  to_watched track ws method path <$>
  check_ip_with_limiter (set_auto_ban (policy_of ws) (tracker_of track ws)) ip
    (route_limiter ws method path) clock now h.
Proof.
  intros Hrl. unfold ws_decide, check_ip_with_limiter.
  set (p0 := set_auto_ban (policy_of ws) (tracker_of track ws)).
  assert (blocklisted p0 ip h =
    (λ '((b, ws1), h1), ((b, set_engine p0 (ws_engine ws1)), h1)) <$> ws_blocked ws ip h) as Hbl.
  { unfold blocklisted, ws_blocked. cbn [p0 policy_of set_auto_ban pe_blocklist_enabled pe_engine].
    destruct (bl_enabled _); [|done]. unfold mbind, M_bind. by destruct (re_lookup _ _ _) as [[[r e] h1]|]. }
  unfold mbind at 1 4, M_bind at 1 4. rewrite Hbl.
  destruct (ws_blocked ws ip h) as [[[b ws1] h1]|] eqn:Hws; [|done]. cbn [fmap option_fmap option_map].
  apply ws_blocked_state in Hws. destruct ws1 as [st1 e]. cbn in Hws. subst st1.
  destruct b; cbn beta iota.
  { cbn [fmap option_fmap option_map mret M_ret to_watched ws_engine].
    assert ((if track then pe_auto_ban (set_engine p0 e) else ps_auto_ban (ws_state ws)) =
      ps_auto_ban (ws_state ws)) as -> by by destruct track.
    by rewrite put_back_same. }
  unfold ws_allow, ws_allow_global, route_limiter, to_watched, put_back, mbind, M_bind.
  cbn [ws_state ws_engine].
  change (pe_limiter (set_engine p0 e)) with (ps_limiter (ws_state ws)).
  change (pe_engine (set_engine p0 e)) with e.
  destruct (route_of (ws_state ws) method path) as [[[trie id] l]|];
    cbn [fmap option_fmap option_map snd];
    (destruct (limiter_allow _ _ _ _ _) as [[[[b l'] oe] h2]|]; [|done]);
    unfold p0; cbn; unfold st_rate_limit in *; rewrite Hrl;
    (destruct b; cbn; [by destruct track|]);
    unfold violation, ws_violation, tracker_of, p0; destruct track; cbn; try done;
    (destruct (ps_auto_ban (ws_state ws)) as [t|] eqn:Ht; cbn; [|unfold set_ps_trie, set_ps_limiter; by rewrite Ht]); unfold mbind, M_bind;
    by destruct (record_violation _ _ _ _ _) as [[[[b t'] e'] h3]|].
Qed.

(** What an adapter answers: the decision rendered, and the new snapshot. *)
Definition answer (verdict : PolicyDecision → Verdict)
    (r : (PolicyDecision * WatchedService E) * Heap) : (Verdict * WatchedService E) * Heap :=
  let '((d, ws'), h') := r in ((verdict d, ws'), h').

Lemma grpc_watched_decides ws req ip clock now h :
  ws_extract ws req (rq_ext_socket req) = Ok ip → rl_enabled (st_rate_limit (ws_state ws)) = true →
  grpc_watched_call ws req clock now h =
  answer (grpc_watched_verdict (st_responses (ws_state ws))) <$>
    ws_decide true ws "POST" (rq_path req) ip clock now h.
Proof.
  intros Hx Hrl. unfold grpc_watched_call, ws_decide. rewrite Hx. unfold mbind, M_bind.
  destruct (ws_blocked ws ip h) as [[[b ws1] h1]|] eqn:Hb; [|done].
  apply ws_blocked_state in Hb. destruct b; [done|]. rewrite Hb, Hrl.
  destruct (ws_allow _ _ _ _ _ _) as [[[a ws2] h2]|]; [|done]. destruct a; [done|].
  by destruct (ws_violation _ _ _ _) as [[[[] ws3] h3]|].
Qed.

Lemma tower_watched_decides ws req ip clock now h :
  ws_extract ws req (rq_ext_socket req) = Ok ip → rl_enabled (st_rate_limit (ws_state ws)) = true →
  tower_watched_call ws req clock h =
  answer (http_watched_verdict (st_responses (ws_state ws))) <$>
    ws_decide false ws (rq_method req) (rq_path req) ip clock now h.
Proof.
  intros Hx Hrl. unfold tower_watched_call, ws_decide. rewrite Hx. unfold mbind, M_bind.
  destruct (ws_blocked ws ip h) as [[[b ws1] h1]|] eqn:Hb; [|done].
  apply ws_blocked_state in Hb. destruct b; [done|]. rewrite Hb, Hrl.
  destruct (ws_allow _ _ _ _ _ _) as [[[a ws2] h2]|]; [|done]. by destruct a.
Qed.

Lemma probe_watched_decides remote ws req ip clock now0 now h :
  is_probe (rq_path req) = false →
  ws_extract ws req remote = Ok ip → ws_banned ws ip now0 = false →
  rl_enabled (st_rate_limit (ws_state ws)) = true →
  probe_watched_call remote ws req clock now0 now h =
  answer (http_watched_verdict (st_responses (ws_state ws))) <$>
    ws_decide true ws (rq_method req) (rq_path req) ip clock now h.
Proof.
  intros Hp Hx Hban Hrl. unfold probe_watched_call, ws_decide. rewrite Hp, Hx, Hban. unfold mbind, M_bind.
  destruct (ws_blocked ws ip h) as [[[b ws1] h1]|] eqn:Hb; [|done].
  apply ws_blocked_state in Hb. destruct b; [done|]. rewrite Hb, Hrl.
  destruct (ws_allow _ _ _ _ _ _) as [[[a ws2] h2]|]; [|done]. destruct a; [done|].
  by destruct (ws_violation _ _ _ _) as [[[[] ws3] h3]|].
Qed.

(** C25: with rate limiting enabled and an address extracted, the watched
    adapters run the decision of [PolicyEngine::check_ip_with_limiter] on the
    published snapshot with the limiter of the matched route, and write the
    same limiter, tracker and engine back: the gRPC service exactly, matching
    every call as a POST; axum and actix on paths that are no probes and for
    addresses that are not already banned, except that the request that
    triggers a ban is answered 429; and the Tower service as a policy
    without a tracker. *)
Theorem watched_adapters_policy ws req ip clock now0 now h :
  rl_enabled (st_rate_limit (ws_state ws)) = true →
  let decide_as track method :=
    to_watched track ws method (rq_path req) <$>
    check_ip_with_limiter (set_auto_ban (policy_of ws) (tracker_of track ws)) ip
      (route_limiter ws method (rq_path req)) clock now h in
  let http := http_watched_verdict (st_responses (ws_state ws)) in
  (ws_extract ws req (rq_ext_socket req) = Ok ip →
    grpc_watched_call ws req clock now h =
      answer (grpc_watched_verdict (st_responses (ws_state ws))) <$> decide_as true "POST" ∧
    tower_watched_call ws req clock h = answer http <$> decide_as false (rq_method req)) ∧
  (is_probe (rq_path req) = false → ws_banned ws ip now0 = false →
    (ws_extract ws req (rq_ext_connect req) = Ok ip →
      axum_watched_call ws req clock now0 now h = answer http <$> decide_as true (rq_method req)) ∧
    (ws_extract ws req (rq_peer_addr req) = Ok ip →
      actix_watched_call ws req clock now0 now h = answer http <$> decide_as true (rq_method req))).
Proof.
  intros Hrl decide_as http. unfold decide_as.
  rewrite <- !ws_decide_policy by done. repeat split; intros.
  - by apply grpc_watched_decides.
  - by apply tower_watched_decides.
  - by apply probe_watched_decides.
  - by apply probe_watched_decides.
Qed.

(** A path that looks like a probe is never checked: a blocklisted or banned
    client reaches the service on every path that begins with [/healthz]. *)
Theorem probe_prefix_bypasses ws req rest clock now0 now h :
  rq_path req = ("/healthz" +:+ rest)%string →
  axum_watched_call ws req clock now0 now h = Some ((Forward, ws), h) ∧
  actix_watched_call ws req clock now0 now h = Some ((Forward, ws), h).
Proof.
  intros Hp. unfold axum_watched_call, actix_watched_call, probe_watched_call.
  assert (is_probe (rq_path req) = true) as ->; [|done].
  unfold is_probe. rewrite Hp. by destruct rest.
Qed.
End watched_facts.

(** ** What the adapters leave to the tracker *)

Section tracker.
Context `{HttpCrate} `{IpNetworkCrate} `{!IpNetworkLaws} `{DashMapCrate} `{!DashMapLaws} `{InstantRange}.
Context `{MokaCrate} `{!MokaRetains} `{!MokaLaws}.
Context {E : Type} `{!RadixEngine E} `{!RadixEngineLaws E}.
Implicit Types (ws : WatchedService E) (wi : WatchedInterceptor E) (h : Heap) (m : table) (n : Z) (F : gset loc).

(** The limiter and the blocklist check only look routes up. *)
Lemma ip_to_key_frame h (e : E) m n F ip mode k oe h' :
  re_rep h e m n F → ip_to_key ip mode (Some e) h = Some ((k, oe), h') →
  h' = h ∧ re_rep h (default e oe) m n F.
Proof.
  intros Hr. destruct mode as [|d4 d6|d4 d6]; cbn [ip_to_key]; [by intros [= _ <- <-]| |by intros [= _ <- <-]].
  destruct (re_lookup_spec h e m n F ip Hr) as (r & e' & R & Hr' & _).
  rewrite (bind_run _ _ _ _ _ R). cbn beta iota. destruct (is_some r); [|by intros [= _ <- <-]].
  destruct (truncate_to_prefix ip d4 d6); [by intros [= _ <- <-]|done].
Qed.

Lemma limiter_allow_frame h l ip (e : E) clock m n F b l' oe h' :
  re_rep h e m n F → limiter_allow l ip (Some e) clock h = Some ((b, l', oe), h') →
  h' = h ∧ re_rep h (default e oe) m n F.
Proof.
  intros Hr. unfold limiter_allow, lift_opt, mbind, M_bind.
  assert (∀ mode k oe1 h1, ip_to_key ip mode (Some e) h = Some ((k, oe1), h1) →
    h1 = h ∧ re_rep h (default e oe1) m n F) as Hk by (intros *; by apply ip_to_key_frame).
  destruct (rl_bucket_mode (lm_config l)) as [|d4 d6|d4 d6];
    (destruct (ip_to_key _ _ _ _) as [[[k oe1] h1]|] eqn:Ek; [|done]); apply Hk in Ek as [-> Hr1];
    cbn beta iota; (destruct (consume l _ _ _) as [[b1 l1]|]; [|done]); cbn.
  - by intros [= _ _ <- <-].
  - by intros [= _ _ <- <-].
  - destruct b1; [|by intros [= _ _ <- <-]]. cbn.
    destruct (consume l1 _ _ _) as [[b2 l2]|]; [|done]. by intros [= _ _ <- <-].
Qed.

(** A snapshot changes its limiters only, and the table not at all. *)
Definition quiet h m n F ws ws' : Prop :=
  re_rep h (ws_engine ws') m n F ∧ ps_auto_ban (ws_state ws') = ps_auto_ban (ws_state ws) ∧
  ps_config (ws_state ws') = ps_config (ws_state ws).

Lemma ws_blocked_run h ws m n F ip :
  re_rep h (ws_engine ws) m n F →
  ∃ b e', ws_blocked ws ip h = Some ((b, mkWatched (ws_state ws) e'), h) ∧ re_rep h e' m n F.
Proof.
  intros Hr. unfold ws_blocked. destruct (bl_enabled _); [|exists false, (ws_engine ws); by destruct ws].
  destruct (re_lookup_spec h _ m n F ip Hr) as (r & e' & R & Hr' & _).
  exists (is_some r), e'. by rewrite (bind_run _ _ _ _ _ R).
Qed.

Lemma ws_allow_global_quiet h ws m n F ip clock b ws' h' :
  re_rep h (ws_engine ws) m n F → ws_allow_global ws ip clock h = Some ((b, ws'), h') →
  h' = h ∧ quiet h m n F ws ws'.
Proof.
  intros Hr. unfold ws_allow_global, mbind, M_bind.
  destruct (limiter_allow _ _ _ _ _) as [[[[a l] oe] h1]|] eqn:Hl; [|done].
  destruct (limiter_allow_frame _ _ _ _ _ _ _ _ _ _ _ _ Hr Hl) as [-> Hr']. by intros [= _ <- <-].
Qed.

Lemma ws_allow_quiet h ws m n F method path ip clock b ws' h' :
  re_rep h (ws_engine ws) m n F → ws_allow ws method path ip clock h = Some ((b, ws'), h') →
  h' = h ∧ quiet h m n F ws ws'.
Proof.
  intros Hr. unfold ws_allow. destruct (route_of _ _ _) as [[[trie id] l]|]; [|by apply ws_allow_global_quiet].
  unfold mbind, M_bind. destruct (limiter_allow _ _ _ _ _) as [[[[a l'] oe] h1]|] eqn:Hl; [|done].
  destruct (limiter_allow_frame _ _ _ _ _ _ _ _ _ _ _ _ Hr Hl) as [-> Hr']. by intros [= _ <- <-].
Qed.

Lemma tower_watched_quiet h ws m n F req clock v ws' h' :
  re_rep h (ws_engine ws) m n F → tower_watched_call ws req clock h = Some ((v, ws'), h') →
  h' = h ∧ quiet h m n F ws ws'.
Proof.
  intros Hr. unfold tower_watched_call. destruct (ws_extract _ _ _) as [ip|e]; [|by intros [= _ <- <-]].
  destruct (ws_blocked_run h ws m n F ip Hr) as (b & e' & R & Hr').
  rewrite (bind_run _ _ _ _ _ R). cbn beta iota. destruct b; [by intros [= _ <- <-]|].
  cbn [ws_state]. destruct (rl_enabled _); [|by intros [= _ <- <-]]. unfold mbind, M_bind.
  destruct (ws_allow _ _ _ _ _ _) as [[[a ws2] h2]|] eqn:Ha; [|done].
  apply (ws_allow_quiet h _ m n F) in Ha as [-> Hq]; [|done]. by destruct a; intros [= _ <- <-].
Qed.

Fixpoint tower_watched_run ws (reqs : list (Request * (nat → Z))) : M (list Verdict * WatchedService E) :=
  match reqs with
  | [] => mret ([], ws)
  | (req, clock) :: reqs' =>
      '(v, ws1) ← tower_watched_call ws req clock;
      '(vs, ws2) ← tower_watched_run ws1 reqs';
      mret (v :: vs, ws2)
  end.

(** A snapshot without routes that keeps one bucket per address. *)
Definition plain_snapshot ws : Prop :=
  ps_route_trie (ws_state ws) = None ∧ rl_bucket_mode (lm_config (ps_limiter (ws_state ws))) = Ip ∧
  limiter_inv (ps_limiter (ws_state ws)) ∧ config_fits (lm_config (ps_limiter (ws_state ws))).

Lemma tower_watched_returns h ws m n F req clock :
  re_rep h (ws_engine ws) m n F → plain_snapshot ws →
  ∃ v ws', tower_watched_call ws req clock h = Some ((v, ws'), h) ∧ plain_snapshot ws'.
Proof.
  intros Hr Hpl. unfold tower_watched_call.
  destruct (ws_extract _ _ _) as [ip|e]; [|by eexists _, ws].
  destruct (ws_blocked_run h ws m n F ip Hr) as (b & e' & R & Hr').
  rewrite (bind_run _ _ _ _ _ R). cbn beta iota. destruct b; [by eexists _, _|].
  cbn [ws_state]. destruct (rl_enabled _); [|by eexists _, _].
  destruct Hpl as (Htrie & Hmode & Hli & Hfit).
  destruct (consume_run (ps_limiter (ws_state ws)) (Exact ip) (clock 0%nat) (clock 1%nat) Hli Hfit)
    as (_ & b & _ & l' & _ & _ & Hc & Hli' & Hcfg & _).
  assert (limiter_allow (ps_limiter (ws_state ws)) ip (Some e') clock h =
    Some ((b, l', Some e'), h)) as RL by (eapply limiter_allow_exact; by rewrite ?Hmode).
  assert (ws_allow (mkWatched (ws_state ws) e') (rq_method req) (rq_path req) ip clock h =
    Some ((b, mkWatched (set_ps_limiter (ws_state ws) l') e'), h)) as RA.
  { unfold ws_allow, route_of. cbn [ws_state]. rewrite Htrie. cbn [mbind option_bind].
    unfold ws_allow_global. by rewrite (bind_run _ _ _ _ _ RL). }
  rewrite (bind_run _ _ _ _ _ RA). cbn beta iota.
  destruct b; eexists _, _; (split; [done|]); split_and!; cbn; by rewrite ?Hcfg.
Qed.

(** The watched Tower service never reports a violation: whatever the
    requests and however many are limited, the tracker of the snapshot is
    never touched and no route is ever added to the engine, so auto-ban has
    no effect behind this adapter.  On a snapshot without routes that keeps
    one bucket per address every sequence of requests is answered. *)
Theorem tower_watched_never_bans reqs : ∀ h ws m n F,
  re_rep h (ws_engine ws) m n F →
  (∀ vs ws' h', tower_watched_run ws reqs h = Some ((vs, ws'), h') → h' = h ∧ quiet h m n F ws ws') ∧
  (plain_snapshot ws → ∃ vs ws', tower_watched_run ws reqs h = Some ((vs, ws'), h) ∧
     quiet h m n F ws ws').
Proof.
  induction reqs as [|[req clock] reqs IH]; intros h ws m n F Hr.
  { split; [by intros vs ws' h' [= _ <- <-]|]. intros _. by exists [], ws. }
  cbn [tower_watched_run]. split.
  - intros vs ws' h'. unfold mbind, M_bind.
    destruct (tower_watched_call ws req clock h) as [[[v ws1] h1]|] eqn:Hc; [|done].
    apply (tower_watched_quiet h ws m n F) in Hc as (-> & Hr1 & Ha1 & Hc1); [|done].
    destruct (tower_watched_run ws1 reqs h) as [[[vs2 ws2] h2]|] eqn:Ht; [|done].
    destruct (IH h ws1 m n F Hr1) as [IH1 _]. apply IH1 in Ht as (-> & Hr2 & Ha2 & Hc2).
    intros [= _ <- <-]. split; [done|]. split_and!; [done|congruence|congruence].
  - intros Hpl. destruct (tower_watched_returns h ws m n F req clock Hr Hpl) as (v & ws1 & R & Hpl1).
    destruct (tower_watched_quiet _ _ _ _ _ _ _ _ _ _ Hr R) as (_ & Hr1 & Ha1 & Hc1).
    destruct (IH h ws1 m n F Hr1) as [_ IH2]. destruct (IH2 Hpl1) as (vs & ws2 & R2 & Hr2 & Ha2 & Hc2).
    exists (v :: vs), ws2. rewrite (bind_run _ _ _ _ _ R). cbn beta iota.
    rewrite (bind_run _ _ _ _ _ R2). split; [done|]. split_and!; [done|congruence|congruence].
Qed.

(** ** The watched interceptor and reloads *)

Inductive wi_event :=
  | WRequest (req : Request) (clock : nat → Z) (now : Z)
  | WReload (st : PolicyState).

(** A reload replaces the published snapshot; the tracker of the interceptor
    is not part of it. *)
Definition wi_step wi (ev : wi_event) : M (option (Result unit Status) * WatchedInterceptor E) :=
  match ev with
  | WRequest req clock now =>
      '(r, wi') ← watched_interceptor_call wi req clock now;
      mret (Some r, wi')
  | WReload st => mret (None, mkInterceptor (mkWatched st (ws_engine (wi_service wi))) (wi_auto_ban wi))
  end.

Fixpoint wi_run wi (evs : list wi_event) : M (list (option (Result unit Status)) * WatchedInterceptor E) :=
  match evs with
  | [] => mret ([], wi)
  | ev :: evs' =>
      '(r, wi1) ← wi_step wi ev;
      '(rs, wi2) ← wi_run wi1 evs';
      mret (r :: rs, wi2)
  end.

Definition auto_banned_status : Status :=
  mkStatus PermissionDenied "auto-banned: exceeded violation threshold" [].

Lemma wi_step_untracked h wi m n F ev r wi' h' :
  re_rep h (ws_engine (wi_service wi)) m n F → wi_auto_ban wi = None →
  wi_step wi ev h = Some ((r, wi'), h') →
  h' = h ∧ re_rep h (ws_engine (wi_service wi')) m n F ∧ wi_auto_ban wi' = None ∧
  r ≠ Some (Err auto_banned_status).
Proof.
  intros Hr Hn. destruct ev as [req clock now|st]; cbn [wi_step]; [|by intros [= <- <- <-]].
  unfold watched_interceptor_call. destruct (ws_extract _ _ _) as [ip|e]; [|by intros [= <- <- <-]].
  destruct (ws_blocked_run h (wi_service wi) m n F ip Hr) as (b & e' & R & Hr').
  unfold mbind at 1, M_bind at 1. rewrite (bind_run _ _ _ _ _ R). cbn beta iota.
  destruct b; [by intros [= <- <- <-]|]. cbn [ws_state].
  destruct (rl_enabled _); [|by intros [= <- <- <-]]. unfold mbind, M_bind.
  destruct (ws_allow_global _ _ _ _) as [[[a ws2] h2]|] eqn:Ha; [|done].
  apply (ws_allow_global_quiet h _ m n F) in Ha as (-> & Hq & _); [|done].
  rewrite Hn. destruct a; by intros [= <- <- <-].
Qed.

(** An interceptor created while auto-ban was disabled never bans, whatever
    configuration is loaded later. *)
Theorem interceptor_ignores_reload evs : ∀ h wi m n F rs wi' h',
  re_rep h (ws_engine (wi_service wi)) m n F → wi_auto_ban wi = None →
  wi_run wi evs h = Some ((rs, wi'), h') →
  h' = h ∧ re_rep h (ws_engine (wi_service wi')) m n F ∧ wi_auto_ban wi' = None ∧
  Some (Err auto_banned_status) ∉ rs.
Proof.
  induction evs as [|ev evs IH]; intros h wi m n F rs wi' h' Hr Hn; cbn [wi_run].
  { intros [= <- <- <-]. split_and!; [done..|]. set_solver. }
  unfold mbind, M_bind. destruct (wi_step wi ev h) as [[[r wi1] h1]|] eqn:Hs; [|done].
  destruct (wi_step_untracked _ _ _ _ _ _ _ _ _ Hr Hn Hs) as (-> & Hr1 & Hn1 & Hne).
  destruct (wi_run wi1 evs h) as [[[rs1 wi2] h2]|] eqn:Ht; [|done].
  destruct (IH _ _ _ _ _ _ _ _ Hr1 Hn1 Ht) as (-> & Hr2 & Hn2 & Hni).
  intros [= <- <- <-]. split_and!; [done..|]. set_solver.
Qed.
End tracker.
