(* ===== verification/Layers.v ===== *)
(** * Layers and middleware (adapters/radixip-tower, radixip-axum, radixip-actix,
      interceptor: the layer, transform and service types)

    A layer holds [Arc]s; every service it produces shares the policy (or the
    published state) behind them.  A service checks the request and either
    answers itself or hands the request to the wrapped service.  The Tower
    services hand it to a clone of the wrapped service, the Actix ones to the
    wrapped service itself. *)

From S2P Require Import Prelude Addr Lpm DashMap Node Heap RouteTree Engine TokenBucket Config Str IpExtractor.
From S2P Require Import Limiter RouteTrie AutoBan Policy Watcher Adapters.

Local Open Scope Z_scope.

(** The [Service] trait of the wrapped application: [None] is a panic of
    [call].  Readiness belongs to the instance: [clone] may lose it. *)
Class Service `{HttpCrate} (S Rsp : Type) := {
  s_poll_ready : S → bool * S;
  s_clone : S → S;
  s_call : S → Request → option (Rsp * S);
}.

Section layers.
Context `{HttpCrate} `{IpNetworkCrate} `{DashMapCrate} `{MokaCrate} `{InstantRange}.
Context {E : Type} `{!RadixEngine E}.
Context {S Rsp : Type} `{!Service S Rsp}.

(** An [Arc] is the name of a shared cell. *)
Abbreviation arc := positive.

(** ** Static layers *)

(** [RadixIpLayer], [AxumRadixIpLayer], [RadixIpMiddleware] (actix): the
    policy and the response codes. *)
Record Layer := mkLayer { ly_engine : arc; ly_responses : ResponseConfig }.

(** The service a layer makes of an application. *)
Record Wrapped := mkWrapped { w_inner : S; w_engine : arc; w_responses : ResponseConfig }.

(** radixip-tower *)
Definition tower_layer_new (engine : arc) (responses : ResponseConfig) : Layer := mkLayer engine responses.
Definition tower_layer (l : Layer) (inner : S) : Wrapped := mkWrapped inner (ly_engine l) (ly_responses l).

(** radixip-axum *)
Definition axum_layer_new (engine : arc) (responses : ResponseConfig) : Layer := mkLayer engine responses.
Definition axum_service_new (inner : S) (engine : arc) (responses : ResponseConfig) : Wrapped :=
  mkWrapped inner engine responses.
Definition axum_layer (l : Layer) (service : S) : Wrapped :=
  axum_service_new service (ly_engine l) (ly_responses l).

(** radixip-actix *)
Definition actix_middleware_new (engine : arc) (responses : ResponseConfig) : Layer := mkLayer engine responses.
Definition actix_new_transform (l : Layer) (service : S) : Result Wrapped unit :=
  Ok (mkWrapped service (ly_engine l) (ly_responses l)).

(** interceptor *)
Definition interceptor_new (engine : arc) (responses : ResponseConfig) : Layer := mkLayer engine responses.
Definition grpc_layer_new (engine : arc) (responses : ResponseConfig) : Layer := mkLayer engine responses.
Definition grpc_layer (l : Layer) (service : S) : Wrapped := mkWrapped service (ly_engine l) (ly_responses l).

(** ** Watched layers *)

(** The watcher with its published state, and the engine: one shared cell. *)
Record WatchedLayer := mkWatchedLayer { wl_shared : arc }.
Record WatchedWrapped := mkWatchedWrapped { ww_inner : S; ww_shared : arc }.

Definition tower_watched_layer_new (shared : arc) : WatchedLayer := mkWatchedLayer shared.
Definition tower_watched_layer (l : WatchedLayer) (service : S) : WatchedWrapped :=
  mkWatchedWrapped service (wl_shared l).

Definition axum_watched_layer_new (shared : arc) : WatchedLayer := mkWatchedLayer shared.
Definition axum_watched_service_new (inner : S) (shared : arc) : WatchedWrapped := mkWatchedWrapped inner shared.
Definition axum_watched_layer (l : WatchedLayer) (service : S) : WatchedWrapped :=
  axum_watched_service_new service (wl_shared l).

Definition actix_watched_middleware_new (shared : arc) : WatchedLayer := mkWatchedLayer shared.
Definition actix_watched_new_transform (l : WatchedLayer) (service : S) : Result WatchedWrapped unit :=
  Ok (mkWatchedWrapped service (wl_shared l)).

Definition grpc_watched_layer_new (shared : arc) : WatchedLayer := mkWatchedLayer shared.
Definition grpc_watched_layer (l : WatchedLayer) (service : S) : WatchedWrapped :=
  mkWatchedWrapped service (wl_shared l).

(** ** Serving a request *)

(** What the client gets: the response of the application, or that of the
    adapter. *)
Inductive Served := FromApp (r : Rsp) | FromPolicy (r : Response).

(** [poll_ready] asks the wrapped instance. *)
Definition poll_ready (w : Wrapped) : bool * Wrapped :=
  let '(b, inner) := s_poll_ready (w_inner w) in (b, mkWrapped inner (w_engine w) (w_responses w)).

Definition watched_poll_ready (w : WatchedWrapped) : bool * WatchedWrapped :=
  let '(b, inner) := s_poll_ready (ww_inner w) in (b, mkWatchedWrapped inner (ww_shared w)).

(** [let mut inner = self.inner.clone(); .. inner.call(req).await] *)
Definition forward_clone (inner : S) (req : Request) : option (Rsp * S) :=
  '(r, _) ← s_call (s_clone inner) req; Some (r, inner).

(** [let service = self.service.clone(); .. service.call(req).await] on an [Rc]. *)
Definition forward_shared (inner : S) (req : Request) : option (Rsp * S) := s_call inner req.

Definition serve_verdict (forward : S → Request → option (Rsp * S)) (inner : S) (req : Request) (v : Verdict)
    : M (Served * S) :=
  match v with
  | Forward => λ h, '(r, inner') ← forward inner req; Some ((FromApp r, inner'), h)
  | Reply resp => mret (FromPolicy resp, inner)
  end.

(** A call of a service, on the shared policies. *)
Definition wrapped_call (call : RadixIpService E → Request → (nat → Z) → Z → M (Verdict * RadixIpService E))
    (forward : S → Request → option (Rsp * S)) (cells : gmap arc (PolicyEngine E)) (w : Wrapped)
    (req : Request) (clock : nat → Z) (now : Z) : M (Served * Wrapped * gmap arc (PolicyEngine E)) :=
  match cells !! w_engine w with
  | None => panic
  | Some p =>
      '(v, svc) ← call (mkService p (w_responses w)) req clock now;
      '(r, inner) ← serve_verdict forward (w_inner w) req v;
      mret (r, mkWrapped inner (w_engine w) (w_responses w), <[w_engine w := svc_engine svc]> cells)
  end.

Definition watched_call (call : WatchedService E → Request → M (Verdict * WatchedService E))
    (forward : S → Request → option (Rsp * S)) (cells : gmap arc (WatchedService E)) (w : WatchedWrapped)
    (req : Request) : M (Served * WatchedWrapped * gmap arc (WatchedService E)) :=
  match cells !! ww_shared w with
  | None => panic
  | Some ws =>
      '(v, ws') ← call ws req;
      '(r, inner) ← serve_verdict forward (ww_inner w) req v;
      mret (r, mkWatchedWrapped inner (ww_shared w), <[ww_shared w := ws']> cells)
  end.

(** ** What the wrapping guarantees *)

(** A request that the policy does not allow never reaches the application,
    and one that it allows is answered by the application alone. *)
Lemma wrapped_verdict call forward cells w p req clock now h v svc h1 :
  cells !! w_engine w = Some p →
  call (mkService p (w_responses w)) req clock now h = Some ((v, svc), h1) →
  let cells' := <[w_engine w := svc_engine svc]> cells in
  (∀ resp, v = Reply resp →
     wrapped_call call forward cells w req clock now h = Some ((FromPolicy resp, w, cells'), h1)) ∧
  (v = Forward →
     wrapped_call call forward cells w req clock now h =
       '(r, inner) ← forward (w_inner w) req;
       Some ((FromApp r, mkWrapped inner (w_engine w) (w_responses w), cells'), h1)).
Proof.
  intros Hc Hcall cells'. unfold wrapped_call. rewrite Hc, (bind_run _ _ _ _ _ Hcall). cbn beta iota. split.
  - intros resp ->. cbn. destruct w; done.
  - intros ->. unfold mbind, M_bind. cbn. destruct (forward (w_inner w) req) as [[r inner]|]; done.
Qed.

(** The Tower services poll one instance and call a clone of it.  With a
    wrapped service whose readiness is not cloned (a concurrency limit, for
    which calling an instance that was not polled panics), an allowed request
    panics although the service was just polled and was ready. *)
Theorem layer_calls_unpolled_clone call cells (l : Layer) inner p req clock now h svc h1 :
  (∀ s, s_call (s_clone s) req = None) →
  cells !! ly_engine l = Some p →
  call (mkService p (ly_responses l)) req clock now h = Some ((Forward, svc), h1) →
  (s_poll_ready inner).1 = true →
  let w := tower_layer l inner in
  (poll_ready w).1 = true ∧
  wrapped_call call forward_clone cells (poll_ready w).2 req clock now h = None.
Proof.
  intros Hcl Hc Hcall Hr. unfold poll_ready. cbn [tower_layer w_inner w_engine w_responses].
  destruct (s_poll_ready inner) as [b inner'] eqn:Hp. cbn [fst snd] in *. split; [done|].
  unfold wrapped_call. cbn [w_inner w_engine w_responses]. rewrite Hc, (bind_run _ _ _ _ _ Hcall). cbn beta iota.
  unfold serve_verdict, forward_clone, mbind, M_bind. cbn. by rewrite Hcl.
Qed.

(** ** Many services of one layer *)

(** A request that arrives at the [i]-th service, with the clocks it reads. *)
Abbreviation arrival := (nat * Request * (nat → Z) * Z)%type.

Fixpoint serve_all (call : RadixIpService E → Request → (nat → Z) → Z → M (Verdict * RadixIpService E))
    (forward : S → Request → option (Rsp * S)) (cells : gmap arc (PolicyEngine E)) (ws : list Wrapped)
    (arrivals : list arrival) : M (list Served * list Wrapped * gmap arc (PolicyEngine E)) :=
  match arrivals with
  | [] => mret ([], ws, cells)
  | (i, req, clock, now) :: rest =>
      match ws !! i with
      | None => panic
      | Some w =>
          '(r, w', cells1) ← wrapped_call call forward cells w req clock now;
          '(rs, ws', cells2) ← serve_all call forward cells1 (<[i := w']> ws) rest;
          mret (r :: rs, ws', cells2)
      end
  end.

(** One policy that checks the requests in the order of their arrival. *)
Fixpoint check_all (remote : Request → option SocketAddr) (p : PolicyEngine E) (arrivals : list arrival)
    : M (list PolicyDecision * PolicyEngine E) :=
  match arrivals with
  | [] => mret ([], p)
  | (_, req, clock, now) :: rest =>
      '(d, p1) ← check p (x_forwarded_for req) (x_real_ip req) (remote req) clock now;
      '(ds, p2) ← check_all remote p1 rest;
      mret (d :: ds, p2)
  end.

(** *** The four adapters *)

Inductive Adapter := Tower | Axum | Actix | Grpc.

(** [RadixIpLayer::new], [AxumRadixIpLayer::new], [RadixIpMiddleware::new]. *)
Definition adapter_new (a : Adapter) : arc → ResponseConfig → Layer :=
  match a with
  | Tower => tower_layer_new
  | Axum => axum_layer_new
  | Actix => actix_middleware_new
  | Grpc => grpc_layer_new
  end.

(** [layer.layer(app)], or [new_transform(app)] awaited. *)
Definition adapter_layer (a : Adapter) (l : Layer) (app : S) : Result Wrapped unit :=
  match a with
  | Tower => Ok (tower_layer l app)
  | Axum => Ok (axum_layer l app)
  | Actix => actix_new_transform l app
  | Grpc => Ok (grpc_layer l app)
  end.

Definition adapter_call (a : Adapter) : RadixIpService E → Request → (nat → Z) → Z → M (Verdict * RadixIpService E) :=
  match a with Tower => tower_call | Axum => axum_call | Actix => actix_call | Grpc => grpc_call end.

Definition adapter_forward (a : Adapter) : S → Request → option (Rsp * S) :=
  match a with Actix => forward_shared | _ => forward_clone end.

(** Where the adapter looks for the peer. *)
Definition adapter_peer (a : Adapter) (req : Request) : option SocketAddr :=
  match a with
  | Tower | Grpc => rq_ext_socket req
  | Axum => rq_ext_connect req
  | Actix => rq_peer_addr req
  end.

Lemma adapter_call_renders `{!HttpLaws} a s req clock now h :
  adapter_call a s req clock now h =
    '(d, p) ← check (svc_engine s) (x_forwarded_for req) (x_real_ip req) (adapter_peer a req) clock now h;
    Some ((http_reply (if a is Grpc then error_body else error_body_spaced) (svc_responses s) d.1,
      mkService d.2 (svc_responses s)), p).
Proof.
  destruct a; cbn [adapter_call adapter_peer];
    rewrite ?tower_call_eq, ?axum_call_eq, ?actix_call_eq, ?grpc_call_eq; unfold service_call, mbind, M_bind;
    by destruct (check _ _ _ _ _ _ _) as [[[d p] h']|].
Qed.

(** Every service that a layer makes holds the layer's policy. *)
Lemma adapter_layer_shares a engine responses app :
  adapter_layer a (adapter_new a engine responses) app = Ok (mkWrapped app engine responses).
Proof. by destruct a. Qed.

(** What the clients are answered: an allowed request by the application that
    it reached, which goes on from there, every other one by the adapter. *)
Inductive answered (forward : S → Request → option (Rsp * S)) (r : ResponseConfig)
    : list S → list arrival → list PolicyDecision → list Served → Prop :=
  | ans_done apps : answered forward r apps [] [] []
  | ans_allow apps i req clock now app rsp app' rest ds rs :
      apps !! i = Some app → forward app req = Some (rsp, app') →
      answered forward r (<[i := app']> apps) rest ds rs →
      answered forward r apps ((i, req, clock, now) :: rest) (Allow :: ds) (FromApp rsp :: rs)
  | ans_refuse apps i req clock now d resp rest ds rs :
      d ≠ Allow → renders r d (Reply resp) → answered forward r apps rest ds rs →
      answered forward r apps ((i, req, clock, now) :: rest) (d :: ds) (FromPolicy resp :: rs).

Lemma serve_one `{!HttpLaws} a cells engine responses app p req clock now h :
  cells !! engine = Some p → is_Some (adapter_forward a app req) →
  let w := mkWrapped app engine responses in
  match check p (x_forwarded_for req) (x_real_ip req) (adapter_peer a req) clock now h with
  | None => wrapped_call (adapter_call a) (adapter_forward a) cells w req clock now h = None
  | Some ((d, p1), h1) => ∃ r app', wrapped_call (adapter_call a) (adapter_forward a) cells w req clock now h =
      Some ((r, mkWrapped app' engine responses, <[engine := p1]> cells), h1) ∧
      ((d = Allow ∧ ∃ rsp, adapter_forward a app req = Some (rsp, app') ∧ r = FromApp rsp) ∨
       (d ≠ Allow ∧ app' = app ∧ ∃ resp, r = FromPolicy resp ∧ renders responses d (Reply resp)))
  end.
Proof.
  intros Hc [[rsp app'] Hf] w. pose proof (adapter_call_renders a (mkService p responses) req clock now h) as Hcall.
  cbn [svc_engine svc_responses] in Hcall.
  destruct (check p _ _ _ clock now h) as [[[d p1] h1]|] eqn:R; cbn in Hcall.
  - destruct (wrapped_verdict _ (adapter_forward a) cells w p req clock now h _ _ _ Hc Hcall) as [Hrep Hfwd].
    pose proof (http_reply_renders (if a is Grpc then error_body else error_body_spaced) responses d) as Hren.
    destruct (http_reply _ responses d) as [|resp] eqn:Hd.
    + rewrite Hfwd by done. cbn [w w_inner]. rewrite Hf. eexists _, app'. split; [done|]. left. eauto.
    + rewrite (Hrep resp) by done. eexists _, app. split; [done|]. right. split; [apply Hren|]. eauto.
  - unfold wrapped_call. cbn [w w_engine w_responses]. rewrite Hc. unfold mbind at 1, M_bind. by rewrite Hcall.
Qed.

(** C24: the services that one layer makes of any applications that do not
    panic, whatever requests reach them in whatever order, are one policy: the
    policy behind the layer goes through the checks of all requests as if they
    had reached it directly (and if one of these panics, so does the
    service); a client is answered by the application it reached exactly when
    its request was allowed, with the response that application gives, and
    otherwise by the adapter with the reply for the decision.  This holds for
    each of the four HTTP adapters, from its constructors on. *)
Theorem layer_is_one_policy `{!HttpLaws} a engine responses apps arrivals cells p h :
  cells !! engine = Some p → (∀ app req, is_Some (adapter_forward a app req)) →
  Forall (λ x : arrival, (x.1.1.1 < length apps)%nat) arrivals →
  ∃ ws, Forall2 (λ app w, adapter_layer a (adapter_new a engine responses) app = Ok w) apps ws ∧
    match check_all (adapter_peer a) p arrivals h with
    | None => serve_all (adapter_call a) (adapter_forward a) cells ws arrivals h = None
    | Some ((ds, p'), h') => ∃ rs ws',
        serve_all (adapter_call a) (adapter_forward a) cells ws arrivals h =
          Some ((rs, ws', <[engine := p']> cells), h') ∧
        answered (adapter_forward a) responses apps arrivals ds rs
    end.
Proof.
  intros Hc Hf Hin. exists ((λ app, mkWrapped app engine responses) <$> apps). split.
  { apply Forall2_fmap_r, Forall_Forall2_diag, Forall_forall. intros app _. apply adapter_layer_shares. }
  revert cells apps p h Hc Hin.
  induction arrivals as [|[[[i req] clock] now] rest IH]; intros cells apps p h Hc Hin; cbn [serve_all check_all].
  { exists [], ((λ app, mkWrapped app engine responses) <$> apps). rewrite insert_id by done. split; [done|constructor]. }
  apply Forall_cons in Hin as [Hi Hin]. apply lookup_lt_is_Some in Hi as [app Happ]. cbn [fst] in Happ.
  rewrite list_lookup_fmap, Happ. cbn [fmap option_fmap option_map].
  pose proof (serve_one a cells engine responses app p req clock now h Hc (Hf app req)) as Hone.
  cbn zeta in Hone. unfold mbind, M_bind.
  destruct (check p _ _ _ clock now h) as [[[d p1] h1]|]; [|by rewrite Hone].
  destruct Hone as (r & app' & -> & Hr). cbn beta iota.
  specialize (IH (<[engine := p1]> cells) (<[i := app']> apps) p1 h1 (lookup_insert_eq _ _ _)).
  rewrite length_insert, list_fmap_insert in IH. specialize (IH Hin).
  destruct (check_all _ p1 rest h1) as [[[ds p2] h2]|]; [|by rewrite IH].
  destruct IH as (rs & ws' & -> & Hall). cbn. exists (r :: rs), ws'. rewrite insert_insert_eq. split; [done|].
  destruct Hr as [(-> & rsp & Hfw & ->)|(Hd & -> & resp & -> & Hren)].
  - by econstructor.
  - rewrite list_insert_id in Hall by done. by econstructor.
Qed.
End layers.
