(* ===== verification/Reload.v ===== *)
(** * What a reload forgets (policy/src/watcher.rs with the watched adapters)

    A reload publishes a [PolicyState] built from the new file: a new limiter,
    a new route trie and a new auto-ban tracker.  Only the engine is kept. *)

From S2P Require Import Prelude Addr Lpm DashMap Node Heap RouteTree Engine TokenBucket Config Str IpExtractor.
From S2P Require Import Limiter RouteTrie AutoBan Policy Watcher Adapters.

Local Open Scope Z_scope.

Section fresh.

(** A bucket that was just created admits its first caller, whatever the clock
    reads by then. *)
Lemma fresh_bucket_grants capacity rate t0 now s :
  0 < capacity * 1000 < 2 ^ 64 → 0 ≤ rate * 1000 < 2 ^ 64 → in_width 32 t0 →
  bucket_new t0 capacity = Some s → ∃ s', allow capacity rate now s = Some (true, s').
Proof.
  intros Hc Hr Ht. unfold bucket_new, allow.
  destruct (cap_fp capacity) as [cap|] eqn:Hcap; [|done]. cbn [mbind option_bind]. intros [= <-].
  rewrite checked_Some by (split; lia). cbn [mbind option_bind].
  pose proof (cap_fp_range _ _ Hcap) as [Hcw _].
  assert (1000 ≤ cap) as Hge.
  { unfold cap_fp in Hcap. rewrite checked_Some in Hcap by (split; lia). injection Hcap as <-.
    unfold wrap, umax. rewrite Z.mod_small by lia. lia. }
  assert (1000 ≤ refilled cap (rate * 1000) now (pack t0 cap)) as Href.
  { unfold refilled. rewrite unpack_pack_eq by done.
    unfold sat_add, umax, in_width, wrap in *.
    pose proof (Z.mod_pos_bound (Z.min (sat_mul 64 (sat_sub now t0) (rate * 1000)) (2 ^ 32 - 1)) (2 ^ 32)).
    lia. }
  unfold attempt. destruct (Z.ltb_spec (refilled cap (rate * 1000) now (pack t0 cap)) 1000); [lia|]. eauto.
Qed.
End fresh.

Section reload.
Context `{HttpCrate} `{IpNetworkCrate} `{DashMapCrate} `{!DashMapLaws} `{MokaRetains} `{!MokaLaws} `{InstantRange}.
Context {E : Type} `{!RadixEngine E}.
Context {P : Type} `{!EqDecision P} `{!NotifyCrate P} (from_str : string → Result RadixIpConfig string).

Lemma fresh_limiter_grants rl ip (e : E) clock (h : Heap) :
  rl_bucket_mode rl = Ip → 0 < rl_capacity rl * 1000 < 2 ^ 64 → 0 ≤ rl_refill_rate rl * 1000 < 2 ^ 64 →
  in_width 32 (clock 0%nat) →
  ∃ l, limiter_allow (limiter_new rl) ip (Some e) clock h = Some ((true, l, Some e), h).
Proof.
  intros Hm Hc Hr Ht.
  destruct (consume_run (limiter_new rl) (Exact ip) (clock 0%nat) (clock 1%nat) (limiter_inv_new rl))
    as (s & b & s' & l & Hs & Ha & Hcon & _); [split; simpl; lia|].
  unfold bucket_of in Hs. rewrite limiter_new_empty in Hs. cbn [mbind option_bind] in Hs.
  destruct (fresh_bucket_grants _ _ _ (clock 1%nat) _ Hc Hr Ht Hs) as [s2 Ha2].
  simpl in Ha. rewrite Ha2 in Ha. injection Ha as <- <-.
  exists l. unfold limiter_allow. simpl. rewrite Hm. unfold ip_to_key, lift_opt.
  unfold mbind, M_bind, mret, M_ret. cbn -[consume]. by rewrite Hcon.
Qed.

(** With the blocklist switched off, an active ban is enforced by the tracker
    of the published state alone, and a reload replaces it: the request that
    was answered with the blocked status before a reload (of any valid file
    that leaves the global per-address limit on) is forwarded right after it. *)
Theorem reload_lifts_bans path ev cfg st (e : E) remote req ip clock now0 now (h : Heap) :
  reloads from_str path ev = Some cfg →
  let ws := mkWatched st e in
  let ws' := mkWatched (handle_event from_str path true st ev.1 ev.2) e in
  is_probe (rq_path req) = false →
  ws_extract ws req remote = Ok ip → ws_extract ws' req remote = Ok ip →
  ws_banned ws ip now0 = true →
  bl_enabled (root_blocklist (radixip cfg)) = false →
  rr_enabled (root_rate_limit_routes (radixip cfg)) = false →
  (let rl := root_rate_limit (radixip cfg) in
   rl_bucket_mode rl = Ip ∧ 0 < rl_capacity rl * 1000 < 2 ^ 64 ∧ 0 ≤ rl_refill_rate rl * 1000 < 2 ^ 64) →
  in_width 32 (clock 0%nat) →
  probe_watched_call remote ws req clock now0 now h =
    Some ((reply_blocked (st_responses st) (Some (error_body "auto-banned")), ws), h) ∧
  ∃ ws'', probe_watched_call remote ws' req clock now0 now h = Some ((Forward, ws''), h).
Proof.
  intros Hrel ws ws' Hp Hx Hx' Hb Hbl Hrr (Hm & Hc & Hr) Ht.
  split; [unfold probe_watched_call; by rewrite Hp, Hx, Hb|].
  unfold probe_watched_call. rewrite Hp, Hx'. unfold ws'. rewrite handle_event_reloads, Hrel.
  unfold build_state, state_from_config_with_engine. rewrite Hrr. set (tr := if ab_enabled _ then _ else _).
  assert (ws_banned (mkWatched (mkPolicyState (limiter_new (root_rate_limit (radixip cfg))) None tr cfg) e) ip now0 = false)
    as ->.
  { unfold ws_banned, tr. simpl. destruct (ab_enabled _); [|done]. unfold is_banned. simpl. by rewrite dm_get_new. }
  unfold ws_blocked, st_blocklist. simpl. rewrite Hbl.
  unfold mbind, M_bind, mret, M_ret. cbn. destruct (rl_enabled _); [|eauto].
  destruct (fresh_limiter_grants (root_rate_limit (radixip cfg)) ip e clock h Hm Hc Hr Ht) as [l Hl].
  unfold ws_allow, ws_allow_global. simpl. unfold mbind, M_bind. rewrite Hl. cbn. eauto.
Qed.
End reload.
