(* ===== verification/Bindings.v ===== *)
(** * Language bindings (engine/src/ffi.rs, policy-ffi, lib/node, lib/python)

    The C interface hands out raw pointers to boxed engines, policies and
    strings; the model keeps the live boxes in tables, a null pointer is [None]
    and a dereference of anything else that is not live is undefined, which
    the monad cannot return from.  The Node and Python classes own their
    engine and translate strings, configurations and errors. *)

From Stdlib Require Import Ascii.
From S2P Require Import Prelude Addr Lpm DashMap Node Heap RouteTree Trie Patricia Engine Engines Cache.
From S2P Require Import Simd ArtNode ArtTree ArtLookup ArtEngine Wrapper Hybrid Library Boxed TokenBucket Config Str.
From S2P Require Import IpExtractor Limiter RouteTrie AutoBan Policy.

Local Open Scope Z_scope.

(** ** The C interface of the engine *)

(** A [*const c_char]: null, or a C string whose bytes may not be UTF-8. *)
Inductive CStr := CNull | CBytes (utf8 : option string).

Definition read_c_str (p : CStr) : option string :=
  match p with CNull => None | CBytes s => s end.

(** [CString::new] refuses a string with a NUL byte. *)
Fixpoint has_nul (s : string) : bool :=
  match s with String x s' => (code x =? 0) || has_nul s' | EmptyString => false end.
Definition cstring_new (s : string) : option string := if has_nul s then None else Some s.

Section ffi.
Context `{IpNetworkCrate} `{DashMapCrate} `{!TextForms}.
Context {E : Type} `{!RadixEngine E}.

(** The boxes behind the handles and the strings given to the caller. *)
Record FfiState := mkFfi {
  ffi_handles : gmap positive E;
  ffi_strings : gmap positive string;
  ffi_next : positive;
}.

(** [unsafe { &*handle }] *)
Definition deref (st : FfiState) (handle : positive) : M E :=
  match ffi_handles st !! handle with Some e => mret e | None => panic end.

Definition set_handle (st : FfiState) (handle : positive) (e : E) : FfiState :=
  mkFfi (<[handle := e]> (ffi_handles st)) (ffi_strings st) (ffi_next st).

(** [Box::into_raw(Box::new(..))] *)
Definition new_handle (st : FfiState) (e : E) : positive * FfiState :=
  (ffi_next st, mkFfi (<[ffi_next st := e]> (ffi_handles st)) (ffi_strings st) (Pos.succ (ffi_next st))).

(** [CString::into_raw] *)
Definition new_string (st : FfiState) (s : string) : option positive * FfiState :=
  (Some (ffi_next st),
   mkFfi (ffi_handles st) (<[ffi_next st := s]> (ffi_strings st)) (Pos.succ (ffi_next st))).

Definition radix_engine_free (st : FfiState) (handle : option positive) : M FfiState :=
  match handle with
  | None => mret st
  | Some p =>
      match ffi_handles st !! p with
      | Some _ => mret (mkFfi (delete p (ffi_handles st)) (ffi_strings st) (ffi_next st))
      | None => panic
      end
  end.

Definition radix_engine_insert (st : FfiState) (handle : option positive) (subnet metadata : CStr)
    : M (Z * FfiState) :=
  match handle with
  | None => mret (-1, st)
  | Some p =>
      match read_c_str subnet with
      | None => mret (-1, st)
      | Some subnet_str =>
          match read_c_str metadata with
          | None => mret (-1, st)
          | Some metadata_str =>
              match network_from_string subnet_str with
              | Err _ => mret (-1, st)
              | Ok prefix =>
                  let metadata := match metadata_from_json metadata_str with
                                  | Ok md => md
                                  | Err _ => Metadata.new metadata_str
                                  end in
                  e ← deref st p;
                  '(r, e') ← re_insert e prefix metadata;
                  mret (match r with Ok _ => 0 | Err _ => -1 end, set_handle st p e')
              end
          end
      end
  end.

(** The lookup [radix_engine_match] and [radix_engine_contains] share; the
    outer [None] is an early return. *)
Definition ffi_lookup (st : FfiState) (handle : option positive) (ip : CStr)
    : M (option (option Metadata) * FfiState) :=
  match handle with
  | None => mret (None, st)
  | Some p =>
      match ip_str ← read_c_str ip; parse_ip ip_str with
      | None => mret (None, st)
      | Some ip =>
          e ← deref st p;
          '(r, e') ← re_lookup e ip;
          mret (Some r, set_handle st p e')
      end
  end.

(** The string for the caller, or null. *)
Definition match_string (st1 : FfiState) (r : option (option Metadata)) : option positive * FfiState :=
  match r with
  | Some (Some metadata) =>
      match metadata_to_json metadata with
      | Ok json => match cstring_new json with Some s => new_string st1 s | None => (None, st1) end
      | Err _ => (None, st1)
      end
  | _ => (None, st1)
  end.

Definition radix_engine_match (st : FfiState) (handle : option positive) (ip : CStr)
    : M (option positive * FfiState) :=
  '(r, st1) ← ffi_lookup st handle ip;
  mret (match_string st1 r).

Definition radix_engine_contains (st : FfiState) (handle : option positive) (ip : CStr)
    : M (bool * FfiState) :=
  '(r, st1) ← ffi_lookup st handle ip;
  mret (match r with Some found => is_some found | None => false end, st1).

Definition radix_engine_free_string (st : FfiState) (p : option positive) : M FfiState :=
  match p with
  | None => mret st
  | Some p =>
      match ffi_strings st !! p with
      | Some _ => mret (mkFfi (ffi_handles st) (delete p (ffi_strings st)) (ffi_next st))
      | None => panic
      end
  end.

Definition radix_engine_size (st : FfiState) (handle : option positive) : M Z :=
  match handle with
  | None => mret 0
  | Some p => e ← deref st p; mret (re_size e)
  end.

Definition radix_engine_clear (st : FfiState) (handle : option positive) : M FfiState :=
  match handle with
  | None => mret st
  | Some p => e ← deref st p; e' ← re_clear e; mret (set_handle st p e')
  end.

Definition radix_engine_remove (st : FfiState) (handle : option positive) (subnet : CStr)
    : M (Z * FfiState) :=
  match handle with
  | None => mret (-1, st)
  | Some p =>
      match read_c_str subnet with
      | None => mret (-1, st)
      | Some subnet_str =>
          match network_from_string subnet_str with
          | Err _ => mret (-1, st)
          | Ok prefix =>
              e ← deref st p;
              '(r, e') ← re_remove e prefix;
              mret (if is_some r then 0 else -1, set_handle st p e')
          end
      end
  end.

(** The statistics as JSON text; the printer is that of [serde_json]. *)
Definition radix_engine_stats_json (stats_json : EngineStats → string) (st : FfiState)
    (handle : option positive) : M (option positive * FfiState) :=
  match handle with
  | None => mret (None, st)
  | Some p =>
      e ← deref st p;
      match cstring_new (stats_json (re_stats e)) with
      | Some s => mret (new_string st s)
      | None => mret (None, st)
      end
  end.
End ffi.
Arguments FfiState : clear implicits.

Section ffi_new.
Context `{IpNetworkCrate} `{DashMapCrate} `{TargetBuild} `{HashOrder} `{RedisCrate} `{!TextForms}.
Context `{JsonValues} `{!UpdateForms} `{!HybridEnv}.

Definition radix_engine_new (host : Host) (st : FfiState BoxedEngine)
    : M (positive * FfiState BoxedEngine) :=
  e ← library_new host RadixConfig_default; mret (new_handle st e).

(** [RedisConfig] as the bindings fill it in. *)
Definition binding_redis (url : string) : RedisConfig := mkRedisConfig url 10 5 3.

Definition radix_engine_new_with_redis (host : Host) (st : FfiState BoxedEngine) (redis_url channel : CStr)
    : M (positive * FfiState BoxedEngine) :=
  let url := default "redis://127.0.0.1:6379"%string (read_c_str redis_url) in
  let ch := default "radixip:updates"%string (read_c_str channel) in
  let c := RadixConfig_default in
  e ← library_new host (mkRadixConfig (engine_variant c) (node_variant c) true (cache_max_entries c)
         (cache_ttl_seconds c) (Some (binding_redis url)) ch (num_shards c) (enable_stats c)
         (enable_split_plane c) (write_compressed c) (read_compressed c));
  mret (new_handle st e).
End ffi_new.

(** ** The C interface of the policy *)

Section policy_ffi.
Context `{IpNetworkCrate} `{DashMapCrate} `{MokaCrate} `{InstantRange}.
Context {E : Type} `{!RadixEngine E}.

Record PolicyFfi := mkPolicyFfi { pf_handles : gmap positive (PolicyHandle E); pf_next : positive }.

Definition read_path (path : CStr) : Result string Z :=
  match path with
  | CNull => Err 1
  | CBytes None => Err 2
  | CBytes (Some s) => Ok s
  end.

(** [if !error_code.is_null() { *error_code = code }]: what is written. *)
Definition write_code (error_code : bool) (code : Z) : option Z := if error_code then Some code else None.

(** [engine] is [new_balanced()] run on the runtime, [None] when the runtime
    cannot be created. *)
Definition radix_policy_new_from_yaml (read : string → Result string string)
    (from_str : string → Result RadixIpConfig string) (engine : option (M E))
    (st : PolicyFfi) (config_path : CStr) (error_code : bool)
    : M (option positive * option Z * PolicyFfi) :=
  match read_path config_path with
  | Err code => mret (None, write_code error_code code, st)
  | Ok path =>
      match from_file read from_str path with
      | Err _ => mret (None, write_code error_code 3, st)
      | Ok config =>
          match engine with
          | None => mret (None, write_code error_code 4, st)
          | Some new_balanced =>
              e ← new_balanced;
              let p := pf_next st in
              mret (Some p, write_code error_code 0,
                mkPolicyFfi (<[p := handle_new e config]> (pf_handles st)) (Pos.succ p))
          end
      end
  end.

(** [RadixPolicyResult]; the decision is the discriminant of the C enum. *)
Record RadixPolicyResult := mkPolicyResult { rp_decision : Z; rp_retry_after_seconds : Z }.

Definition radix_policy_check (st : PolicyFfi) (handle : option positive) (ip : option PackedIp)
    (result : bool) (clock : nat → Z) (now : Z) : M (Z * option RadixPolicyResult * PolicyFfi) :=
  match handle, ip, result with
  | Some p, Some packed, true =>
      match pf_handles st !! p with
      | None => panic
      | Some ph =>
          '(r, ph') ← handle_check ph packed clock now;
          let st' := mkPolicyFfi (<[p := ph']> (pf_handles st)) (pf_next st) in
          match r with
          | None => mret (2, None, st')
          | Some pr =>
              mret (0, Some (mkPolicyResult (code_u8 (decision pr)) (retry_after_seconds pr)), st')
          end
      end
  | _, _, _ => mret (1, None, st)
  end.

Definition radix_policy_free (st : PolicyFfi) (handle : option positive) : M PolicyFfi :=
  match handle with
  | None => mret st
  | Some p =>
      match pf_handles st !! p with
      | Some _ => mret (mkPolicyFfi (delete p (pf_handles st)) (pf_next st))
      | None => panic
      end
  end.
End policy_ffi.
Arguments PolicyFfi {_ _ _} _.

(** ** Node and Python *)

Inductive BindingError := InvalidArg (msg : string) | GenericFailure (msg : string) | TypeError (msg : string).

(** The [Display] of [ConfigError]. *)
Definition ConfigError_to_string (e : ConfigError) : string :=
  match e with
  | Io e => "IO error reading config: " +:+ e
  | Yaml e => "YAML parse error: " +:+ e
  | Validation e => "Validation error: " +:+ e
  end.

(** The configuration object of the Node class. *)
Record JsEngineConfig := mkJsConfig {
  js_variant : option string; js_read_compressed : option bool; js_write_compressed : option bool;
  js_enable_split_plane : option bool; js_cache_enabled : option bool;
  js_cache_max_entries : option Z; js_cache_ttl_seconds : option Z;
  js_redis_url : option string; js_redis_channel : option string;
}.

Definition js_engine_variant (variant : option string) (v0 : EngineVariant) : EngineVariant :=
  match variant with
  | None => v0
  | Some v =>
      if bool_decide (v = "standard"%string) then Standard
      else if bool_decide (v = "concurrent"%string) then Concurrent
      else if bool_decide (v = "lockfree"%string) then LockFree
      else if bool_decide (v = "adaptive"%string) then Adaptive
      else if bool_decide (v = "art"%string) then ART
      else v0
  end.

(** The configuration [RadixIP::new] of lib/node builds; the time to live is
    overwritten also when the object has none. *)
Definition node_config (config : option JsEngineConfig) : RadixConfig :=
  let cfg := RadixConfig_default in
  match config with
  | None => cfg
  | Some c =>
      mkRadixConfig (js_engine_variant (js_variant c) (engine_variant cfg)) (node_variant cfg)
        (default (cache_enabled cfg) (js_cache_enabled c))
        (default (cache_max_entries cfg) (js_cache_max_entries c)) (js_cache_ttl_seconds c)
        (match js_redis_url c with Some url => Some (binding_redis url) | None => cfg_redis cfg end)
        (match js_redis_url c with
         | Some _ => default "radixip:updates"%string (js_redis_channel c)
         | None => redis_channel cfg
         end)
        (num_shards cfg) (enable_stats cfg)
        (default (enable_split_plane cfg) (js_enable_split_plane c))
        (default (write_compressed cfg) (js_write_compressed c))
        (default (read_compressed cfg) (js_read_compressed c))
  end.

Definition with_variant (v : EngineVariant) (c : RadixConfig) : RadixConfig :=
  mkRadixConfig v (node_variant c) (cache_enabled c) (cache_max_entries c) (cache_ttl_seconds c)
    (cfg_redis c) (redis_channel c) (num_shards c) (enable_stats c) (enable_split_plane c)
    (write_compressed c) (read_compressed c).

(** The configuration [PyRadixEngine::new] of lib/python builds. *)
Definition python_config (variant : option string) (cache : bool) (max_entries : Z) (ttl_seconds : option Z)
    (redis_url : option string) (channel : string) : RadixConfig :=
  let c := match variant with
           | Some v =>
               if bool_decide (v = "standard"%string) then with_variant Standard RadixConfig_default
               else if bool_decide (v = "lockfree"%string) then with_variant LockFree RadixConfig_default
               else if bool_decide (v = "adaptive"%string) then with_variant Adaptive RadixConfig_default
               else memory_efficient
           | None => memory_efficient
           end in
  mkRadixConfig (engine_variant c) (node_variant c) cache max_entries ttl_seconds
    (match redis_url with Some url => Some (binding_redis url) | None => cfg_redis c end)
    (match redis_url with Some _ => channel | None => redis_channel c end)
    (num_shards c) (enable_stats c) (enable_split_plane c) (write_compressed c) (read_compressed c).

(** Python values, as far as the metadata dictionary needs them. *)
Inductive PyObj := PyStr (s : string) | PyDict (items : list (PyObj * PyObj)) | PyOther.

Definition py_string (o : PyObj) : Result string BindingError :=
  match o with PyStr s => Ok s | _ => Err (TypeError "not a string") end.

(** [dict.get_item(key)]: the keys of a dictionary are distinct. *)
Fixpoint get_item (key : string) (items : list (PyObj * PyObj)) : option PyObj :=
  match items with
  | (PyStr k, v) :: rest => if String.eqb k key then Some v else get_item key rest
  | _ :: rest => get_item key rest
  | [] => None
  end.

Fixpoint attributes_from_items (items : list (PyObj * PyObj)) (acc : gmap string string)
    : Result (gmap string string) BindingError :=
  match items with
  | [] => Ok acc
  | (k, v) :: rest =>
      match py_string k, py_string v with
      | Ok k, Ok v => attributes_from_items rest (<[k := v]> acc)
      | Err e, _ | _, Err e => Err e
      end
  end.

Definition meta_from_dict (dict : list (PyObj * PyObj)) : Result Metadata BindingError :=
  match match get_item "value" dict with Some v => py_string v | None => Ok EmptyString end with
  | Err e => Err e
  | Ok value =>
      match get_item "attributes" dict with
      | None => Ok (mkMetadata value ∅)
      | Some (PyDict items) =>
          match attributes_from_items items ∅ with
          | Ok attrs => Ok (mkMetadata value attrs)
          | Err e => Err e
          end
      | Some _ => Err (TypeError "'attributes' must be a dict")
      end
  end.

Definition meta_to_dict (m : Metadata) : list (PyObj * PyObj) :=
  [(PyStr "value", PyStr (value m));
   (PyStr "attributes", PyDict ((λ kv, (PyStr kv.1, PyStr kv.2)) <$> map_to_list (attributes m)))].

Section classes.
Context `{IpNetworkCrate} `{DashMapCrate} `{!TextForms} `{MokaCrate} `{InstantRange}.
Context {E : Type} `{!RadixEngine E}.

Definition python_insert (e : E) (subnet : string) (metadata : list (PyObj * PyObj))
    : M (Result unit BindingError * E) :=
  match network_from_string subnet with
  | Err err => mret (Err (InvalidArg ("Invalid CIDR '" +:+ subnet +:+ "': " +:+ err)), e)
  | Ok prefix =>
      match meta_from_dict metadata with
      | Err err => mret (Err err, e)
      | Ok meta =>
          '(r, e') ← re_insert e prefix meta;
          mret (match r with Ok _ => Ok tt | Err msg => Err (InvalidArg msg) end, e')
      end
  end.

Definition python_lookup (e : E) (ip : string)
    : M (Result (option (list (PyObj * PyObj))) BindingError * E) :=
  match parse_ip ip with
  | None => mret (Err (InvalidArg ("Invalid IP address: " +:+ ip)), e)
  | Some addr => '(r, e') ← re_lookup e addr; mret (Ok (meta_to_dict <$> r), e')
  end.

(** [from_yaml] of both classes: the factory of a policy on a balanced engine;
    [engine] as for the C interface. *)
Definition class_from_yaml (read : string → Result string string)
    (from_str : string → Result RadixIpConfig string) (engine : Result (M E) string) (path : string)
    : M (Result (PolicyHandle E) BindingError) :=
  match from_file read from_str path with
  | Err e => mret (Err (InvalidArg (ConfigError_to_string e)))
  | Ok config =>
      match engine with
      | Err e => mret (Err (GenericFailure e))
      | Ok new_balanced => e ← new_balanced; mret (Ok (handle_new e config))
      end
  end.

Definition decision_name (c : PolicyDecisionCode) : string :=
  match c with
  | CodeAllow => "allow"
  | CodeBlock => "block"
  | CodeLimit => "limit"
  | CodeBadRequest => "bad_request"
  end.

(** [JsPolicyResult], and the dictionary of the Python class *)
Record JsPolicyResult := mkJsPolicy { jp_decision : string; jp_retry_after_seconds : Z }.

Definition policy_answer (r : option PolicyResult) : Result JsPolicyResult BindingError :=
  match r with
  | None => Err (InvalidArg "Invalid IP address family")
  | Some pr => Ok (mkJsPolicy (decision_name (decision pr)) (retry_after_seconds pr))
  end.

Definition class_check_ip (ph : PolicyHandle E) (ip : string) (clock : nat → Z) (now : Z)
    : M (Result JsPolicyResult BindingError * PolicyHandle E) :=
  match parse_ip ip with
  | None => mret (Err (InvalidArg ("Invalid IP: " +:+ ip)), ph)
  | Some addr =>
      '(r, ph') ← handle_check ph (PackedIp_from addr) clock now;
      mret (policy_answer r, ph')
  end.

Definition class_check_request (ph : PolicyHandle E) (ip method path : string) (clock : nat → Z) (now : Z)
    : M (Result JsPolicyResult BindingError * PolicyHandle E) :=
  match parse_ip ip with
  | None => mret (Err (InvalidArg ("Invalid IP: " +:+ ip)), ph)
  | Some addr =>
      '(r, ph') ← check_request ph (PackedIp_from addr) method path clock now;
      mret (policy_answer r, ph')
  end.
End classes.

Section class_new.
Context `{IpNetworkCrate} `{DashMapCrate} `{TargetBuild} `{HashOrder} `{RedisCrate} `{!TextForms}.
Context `{JsonValues} `{!UpdateForms} `{!HybridEnv}.

Definition js_new (host : Host) (config : option JsEngineConfig) : M BoxedEngine :=
  library_new host (node_config config).

Definition python_new (host : Host) (variant : option string) (cache : bool) (max_entries : Z)
    (ttl_seconds : option Z) (redis_url : option string) (channel : string) : M BoxedEngine :=
  library_new host (python_config variant cache max_entries ttl_seconds redis_url channel).
End class_new.

(** ** Programs on a handle *)

Section programs.
Context `{IpNetworkCrate} `{DashMapCrate} `{!TextForms}.
Context {E : Type} `{!RadixEngine E}.

Inductive CCall :=
  | CInsert (subnet metadata : CStr)
  | CMatch (ip : CStr)
  | CContains (ip : CStr)
  | CRemove (subnet : CStr)
  | CClear.

Inductive CAnswer := ACode (code : Z) | APtr (p : option positive) | ABool (b : bool) | AUnit.

Definition c_call (st : FfiState E) (handle : option positive) (call : CCall) : M (CAnswer * FfiState E) :=
  match call with
  | CInsert subnet metadata => '(c, st') ← radix_engine_insert st handle subnet metadata; mret (ACode c, st')
  | CMatch ip => '(p, st') ← radix_engine_match st handle ip; mret (APtr p, st')
  | CContains ip => '(b, st') ← radix_engine_contains st handle ip; mret (ABool b, st')
  | CRemove subnet => '(c, st') ← radix_engine_remove st handle subnet; mret (ACode c, st')
  | CClear => st' ← radix_engine_clear st handle; mret (AUnit, st')
  end.

Fixpoint c_calls (st : FfiState E) (handle : option positive) (calls : list CCall)
    : M (list CAnswer * FfiState E) :=
  match calls with
  | [] => mret ([], st)
  | call :: calls' =>
      '(a, st1) ← c_call st handle call;
      '(as_, st2) ← c_calls st1 handle calls';
      mret (a :: as_, st2)
  end.

(** The engine call behind a call, if its arguments are well formed. *)
Definition c_op (call : CCall) : option op :=
  match call with
  | CInsert subnet metadata =>
      s ← read_c_str subnet; m ← read_c_str metadata;
      match network_from_string s with
      | Ok p => Some (OpInsert p match metadata_from_json m with Ok md => md | Err _ => Metadata.new m end)
      | Err _ => None
      end
  | CMatch ip | CContains ip => s ← read_c_str ip; a ← parse_ip s; Some (OpLookup a)
  | CRemove subnet =>
      s ← read_c_str subnet;
      match network_from_string s with Ok p => Some (OpRemove p) | Err _ => None end
  | CClear => Some OpClear
  end.

Definition json_c_string (md : Metadata) : option string :=
  match metadata_to_json md with Ok json => cstring_new json | Err _ => None end.

(** What the caller gets: [r] is the answer of the engine, [None] when the
    arguments were refused. *)
Definition c_answers (st' : FfiState E) (call : CCall) (r : option res) (a : CAnswer) : Prop :=
  match call, a with
  | CInsert _ _, ACode c => c = match r with Some (RDone (Ok _)) => 0 | _ => -1 end
  | CMatch _, APtr p =>
      match r with
      | Some (RMeta (Some md)) =>
          match json_c_string md with
          | Some json => ∃ x, p = Some x ∧ ffi_strings st' !! x = Some json
          | None => p = None
          end
      | _ => p = None
      end
  | CContains _, ABool b => b = match r with Some (RMeta md) => is_some md | _ => false end
  | CRemove _, ACode c => c = match r with Some (RMeta (Some _)) => 0 | _ => -1 end
  | CClear, AUnit => True
  | _, _ => False
  end.

(** A null handle is refused by every function, without effect. *)
Theorem ffi_null_safe (st : FfiState E) call h :
  radix_engine_free st None h = Some (st, h) ∧ radix_engine_size st None h = Some (0, h) ∧
  radix_engine_free_string st None h = Some (st, h) ∧
  ∃ a, c_call st None call h = Some ((a, st), h) ∧
    a = match call with
        | CInsert _ _ | CRemove _ => ACode (-1) | CMatch _ => APtr None | CContains _ => ABool false
        | CClear => AUnit
        end.
Proof. split_and!; [done..|]. destruct call; by eexists. Qed.

(** A freed handle is undefined to use and to free again. *)
Theorem ffi_use_after_free (st : FfiState E) hd st' h h' call o :
  radix_engine_free st (Some hd) h = Some (st', h') → c_op call = Some o →
  c_call st' (Some hd) call h' = None ∧ radix_engine_free st' (Some hd) h' = None.
Proof.
  unfold radix_engine_free. destruct (ffi_handles st !! hd) as [e|]; [|done]. intros [= <- <-] Ho.
  cbn [ffi_handles ffi_strings ffi_next]. rewrite lookup_delete_eq. split; [|done].
  set (st' := mkFfi _ _ _). assert (deref st' hd = panic) as Hd.
  { unfold deref, st'. cbn. by rewrite lookup_delete_eq. }
  destruct call as [sn md|ip|ip|sn|]; cbn [c_call]; cbn in Ho;
    unfold radix_engine_insert, radix_engine_match, radix_engine_contains, ffi_lookup, radix_engine_remove,
      radix_engine_clear.
  - destruct (read_c_str sn); [|done]. cbn in Ho. destruct (read_c_str md); [|done]. cbn in Ho.
    destruct (network_from_string _); [|done]. by rewrite Hd.
  - destruct (read_c_str ip) as [s|]; [|done]. cbn in *. destruct (parse_ip s); [|done]. by rewrite Hd.
  - destruct (read_c_str ip) as [s|]; [|done]. cbn in *. destruct (parse_ip s); [|done]. by rewrite Hd.
  - destruct (read_c_str sn) as [s|]; [|done]. cbn in *. destruct (network_from_string s); [|done]. by rewrite Hd.
  - by rewrite Hd.
Qed.

(** ** A program on a live handle is a sequence of engine calls *)

Implicit Types (st : FfiState E) (h : Heap) (m : table) (n : Z) (F : gset loc).

(** The allocator gives out addresses that are not in use. *)
Definition ffi_fresh st : Prop :=
  ∀ p, is_Some (ffi_strings st !! p) ∨ is_Some (ffi_handles st !! p) → (p < ffi_next st)%positive.

(** Other handles stay as they are and strings given out stay live. *)
Definition ffi_keeps (hd : positive) st st' : Prop :=
  (∀ p, p ≠ hd → ffi_handles st' !! p = ffi_handles st !! p) ∧
  ffi_strings st ⊆ ffi_strings st' ∧ ffi_fresh st'.

Lemma ffi_keeps_set hd st e : ffi_fresh st → is_Some (ffi_handles st !! hd) → ffi_keeps hd st (set_handle st hd e).
Proof.
  intros Hf Hhd. split_and!; [|done|].
  - intros p Hp. cbn. by rewrite lookup_insert_ne.
  - intros p. cbn. rewrite lookup_insert. destruct (decide (hd = p)) as [<-|]; intros Hp; apply Hf; auto.
Qed.

Lemma ffi_keeps_refl hd st : ffi_fresh st → ffi_keeps hd st st.
Proof. intros Hf. by split_and!. Qed.

Lemma ffi_keeps_string hd st s : ffi_fresh st → ffi_keeps hd st (new_string st s).2.
Proof.
  intros Hf. split_and!.
  - done.
  - cbn. apply insert_subseteq. destruct (ffi_strings st !! ffi_next st) eqn:Hs; [|done].
    specialize (Hf (ffi_next st) ltac:(eauto)). lia.
  - intros p. cbn. rewrite lookup_insert. destruct (decide (ffi_next st = p)) as [<-|]; [lia|].
    intros Hp. specialize (Hf p Hp). lia.
Qed.

Lemma ffi_keeps_trans hd st1 st2 st3 : ffi_keeps hd st1 st2 → ffi_keeps hd st2 st3 → ffi_keeps hd st1 st3.
Proof.
  intros (A1 & B1 & _) (A2 & B2 & C2). split_and!; [|by etrans|done].
  intros p Hp. rewrite A2, A1 by done. done.
Qed.

Lemma handle_deref st hd e h : ffi_handles st !! hd = Some e → deref st hd h = Some (e, h).
Proof. unfold deref. by intros ->. Qed.

Lemma c_answers_keeps hd st st' call r a : ffi_keeps hd st st' → c_answers st call r a → c_answers st' call r a.
Proof.
  intros (_ & Hs & _). destruct call, a; try done. cbn. intros Ha. repeat case_match; try done.
  destruct Ha as (x & -> & Hx). exists x. split; [done|]. by eapply lookup_weaken.
Qed.

(** What a call does, from the engine call behind it. *)
Definition c_sim st hd e call h : Prop :=
  match c_op call with
  | None => ∃ a, c_call st (Some hd) call h = Some ((a, st), h) ∧ c_answers st call None a
  | Some o =>
      match engine_op e o h with
      | None => c_call st (Some hd) call h = None
      | Some ((r, e'), h') => ∃ a st', c_call st (Some hd) call h = Some ((a, st'), h') ∧
          ffi_handles st' !! hd = Some e' ∧ c_answers st' call (Some r) a ∧ ffi_keeps hd st st'
      end
  end.

Lemma c_sim_insert st hd e sn md h : ffi_handles st !! hd = Some e → ffi_fresh st → c_sim st hd e (CInsert sn md) h.
Proof.
  intros He Hf. unfold c_sim. cbn [c_op c_call]. unfold radix_engine_insert.
  destruct (read_c_str sn) as [s|]; [|by eexists]. cbn [mbind option_bind].
  destruct (read_c_str md) as [j|]; [|by eexists]. cbn [mbind option_bind].
  destruct (network_from_string s) as [p|]; [|by eexists]. cbn [engine_op].
  rewrite bind_bind, (bind_run _ _ _ _ _ (handle_deref st hd e h He)), bind_bind. unfold mbind, M_bind.
  destruct (re_insert e p _ h) as [[[r e'] h']|]; [|done]. eexists _, _.
  split_and!; [done|apply lookup_insert_eq|by destruct r|by apply ffi_keeps_set].
Qed.

Lemma c_sim_remove st hd e sn h : ffi_handles st !! hd = Some e → ffi_fresh st → c_sim st hd e (CRemove sn) h.
Proof.
  intros He Hf. unfold c_sim. cbn [c_op c_call]. unfold radix_engine_remove.
  destruct (read_c_str sn) as [s|]; [|by eexists]. cbn [mbind option_bind].
  destruct (network_from_string s) as [p|]; [|by eexists]. cbn [engine_op].
  rewrite bind_bind, (bind_run _ _ _ _ _ (handle_deref st hd e h He)), bind_bind. unfold mbind, M_bind.
  destruct (re_remove e p h) as [[[r e'] h']|]; [|done]. eexists _, _.
  split_and!; [done|apply lookup_insert_eq|by destruct r|by apply ffi_keeps_set].
Qed.

Lemma c_sim_clear st hd e h : ffi_handles st !! hd = Some e → ffi_fresh st → c_sim st hd e CClear h.
Proof.
  intros He Hf. unfold c_sim. cbn [c_op c_call engine_op]. unfold radix_engine_clear.
  rewrite bind_bind, (bind_run _ _ _ _ _ (handle_deref st hd e h He)), bind_bind. unfold mbind, M_bind.
  destruct (re_clear e h) as [[e' h']|]; [|done]. eexists _, _.
  split_and!; [done|apply lookup_insert_eq|done|by apply ffi_keeps_set].
Qed.

(** The lookup under [match] and [contains]. *)
Lemma ffi_lookup_run st hd e ip h : ffi_handles st !! hd = Some e →
  ffi_lookup st (Some hd) ip h =
    match s ← read_c_str ip; parse_ip s with
    | None => Some ((None, st), h)
    | Some a => '((r, e'), h') ← re_lookup e a h; Some ((Some r, set_handle st hd e'), h')
    end.
Proof.
  intros He. unfold ffi_lookup. destruct (_ ≫= _) as [a|]; [|done].
  rewrite (bind_run _ _ _ _ _ (handle_deref st hd e h He)). unfold mbind, M_bind.
  by destruct (re_lookup e a h) as [[[r e'] h']|].
Qed.

Lemma c_sim_contains st hd e ip h : ffi_handles st !! hd = Some e → ffi_fresh st → c_sim st hd e (CContains ip) h.
Proof.
  intros He Hf. unfold c_sim. cbn [c_op c_call]. unfold radix_engine_contains. rewrite bind_bind.
  change (s ← read_c_str ip; a ← parse_ip s; Some (OpLookup a)) with (s ← read_c_str ip; OpLookup <$> parse_ip s).
  pose proof (ffi_lookup_run st hd e ip h He) as Hl.
  destruct (read_c_str ip) as [s|]; cbn [mbind option_bind] in *; [|rewrite (bind_run _ _ _ _ _ Hl); by eexists].
  destruct (parse_ip s) as [a|]; [|rewrite (bind_run _ _ _ _ _ Hl); by eexists].
  cbn [fmap option_fmap option_map engine_op] in *. unfold mbind, M_bind in *. rewrite Hl. clear Hl.
  destruct (re_lookup e a h) as [[[r e'] h']|]; [|done]. eexists _, _.
  split_and!; [done|apply lookup_insert_eq|done|by apply ffi_keeps_set].
Qed.

Lemma match_string_spec hd st e r :
  ffi_fresh st → ffi_handles st !! hd = Some e →
  let '(p, st') := match_string st (Some r) in
  ffi_handles st' !! hd = Some e ∧ c_answers st' (CMatch CNull) (Some (RMeta r)) (APtr p) ∧ ffi_keeps hd st st'.
Proof.
  intros Hf He. unfold match_string. destruct r as [md|]; [|by eauto using ffi_keeps_refl].
  cbn [c_answers]. unfold json_c_string.
  destruct (metadata_to_json md) as [j|]; [|by eauto using ffi_keeps_refl].
  destruct (cstring_new j) as [s'|]; [|by eauto using ffi_keeps_refl].
  pose proof (ffi_keeps_string hd st s' Hf) as Hk. unfold new_string in *. split; [done|]. split; [|done].
  eexists. split; [done|]. cbn. by rewrite lookup_insert_eq.
Qed.

Lemma c_sim_match st hd e ip h : ffi_handles st !! hd = Some e → ffi_fresh st → c_sim st hd e (CMatch ip) h.
Proof.
  intros He Hf. unfold c_sim. cbn [c_op c_call]. unfold radix_engine_match. rewrite bind_bind.
  change (s ← read_c_str ip; a ← parse_ip s; Some (OpLookup a)) with (s ← read_c_str ip; OpLookup <$> parse_ip s).
  pose proof (ffi_lookup_run st hd e ip h He) as Hl.
  destruct (read_c_str ip) as [s|]; cbn [mbind option_bind] in *; [|rewrite (bind_run _ _ _ _ _ Hl); by eexists].
  destruct (parse_ip s) as [a|]; [|rewrite (bind_run _ _ _ _ _ Hl); by eexists].
  cbn [fmap option_fmap option_map engine_op] in *. unfold mbind, M_bind in *. rewrite Hl. clear Hl.
  destruct (re_lookup e a h) as [[[r e'] h']|]; [|done]. cbn -[match_string].
  pose proof (ffi_keeps_set hd st e' Hf ltac:(eauto)) as Hk.
  pose proof (match_string_spec hd (set_handle st hd e') e' r (proj2 (proj2 Hk)) (lookup_insert_eq _ _ _)) as Hm.
  destruct (match_string _ (Some r)) as [p st'] eqn:Hms. destruct Hm as (Hh & Ha & Hk').
  eexists _, _. split; [done|]. split; [done|]. split; [done|]. by eapply ffi_keeps_trans.
Qed.

Lemma c_call_sim st hd e call h : ffi_handles st !! hd = Some e → ffi_fresh st → c_sim st hd e call h.
Proof.
  intros. destruct call; eauto using c_sim_insert, c_sim_match, c_sim_contains, c_sim_remove, c_sim_clear.
Qed.

(** The answers of a program, from those of the engine: a refused call has its
    documented answer, and the strings given out are live at the end. *)
Inductive c_answered st' : list CCall → list res → list CAnswer → Prop :=
  | ca_done : c_answered st' [] [] []
  | ca_refused call calls rs a answers :
      c_op call = None → c_answers st' call None a → c_answered st' calls rs answers →
      c_answered st' (call :: calls) rs (a :: answers)
  | ca_op call o calls r rs a answers :
      c_op call = Some o → c_answers st' call (Some r) a → c_answered st' calls rs answers →
      c_answered st' (call :: calls) (r :: rs) (a :: answers).

(** A program on a live handle is a sequence of engine calls: it panics where
    the engine does, and otherwise leaves the engine where these calls leave
    it and turns their answers into its own. *)
Lemma c_calls_sim calls : ∀ st hd e h,
  ffi_handles st !! hd = Some e → ffi_fresh st →
  match engine_ops e (omap c_op calls) h with
  | None => c_calls st (Some hd) calls h = None
  | Some ((rs, e'), h') => ∃ answers st', c_calls st (Some hd) calls h = Some ((answers, st'), h') ∧
      ffi_handles st' !! hd = Some e' ∧ c_answered st' calls rs answers ∧ ffi_keeps hd st st'
  end.
Proof.
  induction calls as [|call calls IH]; intros st hd e h He Hf; cbn [c_calls].
  { exists [], st. split_and!; [done|done|constructor|by apply ffi_keeps_refl]. }
  pose proof (c_call_sim st hd e call h He Hf) as Hsim. unfold c_sim in Hsim. cbn [omap list_omap].
  destruct (c_op call) as [o|] eqn:Ho; rewrite ?Ho.
  - cbn [engine_ops]. destruct (engine_op e o h) as [[[r e1] h1]|] eqn:R;
      [|unfold mbind, M_bind; by rewrite R, Hsim].
    destruct Hsim as (a & st1 & R1 & He1 & Ha & Hk). rewrite (bind_run _ _ _ _ _ R), (bind_run _ _ _ _ _ R1).
    cbn beta iota. specialize (IH st1 hd e1 h1 He1 (proj2 (proj2 Hk))). unfold mbind, M_bind.
    destruct (engine_ops e1 _ h1) as [[[rs e2] h2]|]; [|by rewrite IH]. destruct IH as (answers & st2 & R2 & He2 & Hc & Hk2).
    rewrite R2. exists (a :: answers), st2. split_and!; [done|done| |by eapply ffi_keeps_trans].
    econstructor; [done|by eapply c_answers_keeps|done].
  - destruct Hsim as (a & R1 & Ha). rewrite (bind_run _ _ _ _ _ R1). cbn beta iota.
    specialize (IH st hd e h He Hf). destruct (engine_ops e _ h) as [[[rs e2] h2]|];
      [|unfold mbind, M_bind; by rewrite IH]. destruct IH as (answers & st2 & R2 & He2 & Hc & Hk2).
    rewrite (bind_run _ _ _ _ _ R2). exists (a :: answers), st2. split_and!; [done|done| |done].
    econstructor; [done|by eapply c_answers_keeps|done].
Qed.
End programs.

(** ** From [radix_engine_new] on *)

Section from_new.
Context `{IpNetworkLaws} `{DashMapLaws} `{TargetBuild} `{HashOrder} `{RedisCrate} `{!TextForms}.
Context `{JsonValues} `{!UpdateForms} `{!HybridEnv}.
Implicit Types (st : FfiState BoxedEngine) (h : Heap).

(** A C program that makes an engine, works on it and asks for its size. *)
Definition c_program (host : Host) st (calls : list CCall) : M (positive * list CAnswer * Z * FfiState BoxedEngine) :=
  '(hd, st1) ← radix_engine_new host st;
  '(answers, st2) ← c_calls st1 (Some hd) calls;
  n ← radix_engine_size st2 (Some hd);
  mret (hd, answers, n, st2).

Lemma default_local : local_config RadixConfig_default.
Proof. split; [done|]. split; [done|]. by right. Qed.

Lemma new_handle_keeps st e : ffi_fresh st →
  let '(hd, st') := new_handle st e in ffi_handles st' !! hd = Some e ∧ ffi_keeps hd st st'.
Proof.
  intros Hf. cbn. rewrite lookup_insert_eq. split; [done|]. split_and!; [|done|].
  - intros p Hp. cbn. by rewrite lookup_insert_ne.
  - intros p. cbn. rewrite lookup_insert. destruct (decide (ffi_next st = p)) as [<-|]; [lia|].
    intros Hp. specialize (Hf p Hp). lia.
Qed.

(** C29: a C program that makes an engine with [radix_engine_new] (the default
    configuration: a cache in front of a sharded compressed tree) and works on
    it runs to its end, whatever arguments it passes.  Arguments that are
    null, not UTF-8 or not an address or a prefix are refused with the
    documented value and change nothing; the other calls are, in order, calls
    on a routing table over the keys of the compressed tree: inserts, removals
    with their return codes, [clear], and the size at the end.  A match or
    [contains] answers from the cache or the tree: what it answers is
    always metadata that an earlier insert of the program stored, as a string
    with its JSON that stays valid until it is freed.  No other handle is
    touched. *)
Theorem ffi_refines host st calls h :
  heap_wf h → ffi_fresh st →
  ∃ hd answers n st' h' rs m, c_program host st calls h = Some ((hd, answers, n, st'), h') ∧
    engine_steps pkey any_answer (λ _, ∅) (∅, 0) (omap c_op calls) rs (m, n) ∧
    from_inserts [] (omap c_op calls) rs ∧ c_answered st' calls rs answers ∧ ffi_keeps hd st st'.
Proof.
  intros Hwf Hf. unfold c_program, radix_engine_new.
  destruct (library_new_serves host RadixConfig_default h default_local Hwf) as (e & h1 & F & R & _ & Hserves).
  rewrite bind_bind, (bind_run _ _ _ _ _ R). pose proof (new_handle_keeps st e Hf) as Hnew.
  destruct (new_handle st e) as [hd st1]. destruct Hnew as [He Hk].
  destruct (Hserves (omap c_op calls)) as (rs & e' & h' & m & Rops & Hs & Hfi).
  pose proof (c_calls_sim calls st1 hd e h1 He (proj2 (proj2 Hk))) as Hsim. rewrite Rops in Hsim.
  destruct Hsim as (answers & st2 & R2 & He2 & Hc & Hk2).
  exists hd, answers, (re_size e'), st2, h', rs, m.
  rewrite (bind_run (mret (hd, st1)) _ h1 (hd, st1) h1 eq_refl).
  cbn beta iota. rewrite (bind_run _ _ _ _ _ R2). cbn beta iota. unfold radix_engine_size.
  rewrite bind_bind, (bind_run _ _ _ _ _ (handle_deref _ _ _ _ He2)).
  split_and!; [done| |done|done|by eapply ffi_keeps_trans].
  eapply engine_steps_weaken; [done| |done|exact Hs]. done.
Qed.
End from_new.

(** ** Round trips and corner cases *)

Section roundtrip.
Context `{IpNetworkCrate} `{!IpNetworkLaws} `{DashMapCrate} `{!TextForms} `{!JsonLaws}.
Context {E : Type} `{!RadixEngine E} `{!RadixEngineLaws E} `{!LpmEngine E}.

(** Metadata goes through the C interface unchanged: inserting the JSON of
    some metadata under a prefix of an empty engine and matching any address
    of the prefix returns a string with the same JSON. *)
Theorem ffi_insert_match_roundtrip (st : FfiState E) hd h e n F subnet ip p a md json :
  ffi_handles st !! hd = Some e → re_rep h e ∅ n F → ffi_fresh st →
  network_from_string subnet = Ok p → parse_ip ip = Some a → network_contains_ip p a = true →
  metadata_to_json md = Ok json → has_nul json = false →
  ∃ ptr st' h', c_calls st (Some hd) [CInsert (CBytes (Some subnet)) (CBytes (Some json)); CMatch (CBytes (Some ip))] h =
    Some (([ACode 0; APtr (Some ptr)], st'), h') ∧ ffi_strings st' !! ptr = Some json.
Proof.
  intros He Hr Hf Hp Ha Hin Hjs Hnul.
  destruct (json_roundtrip md) as (json' & Hj & Hback). rewrite Hjs in Hj. injection Hj as <-.
  set (ins := CInsert (CBytes (Some subnet)) (CBytes (Some json))). set (mat := CMatch (CBytes (Some ip))).
  assert (c_op ins = Some (OpInsert p md)) as Ho1 by (cbn; by rewrite Hp, Hback).
  assert (c_op mat = Some (OpLookup a)) as Ho2 by (cbn; by rewrite Ha).
  destruct (engine_ops_refines [OpInsert p md; OpLookup a] h e ∅ n F Hr) as (rs & e' & h' & m' & F' & R & _ & _ & Hs).
  pose proof (c_calls_sim [ins; mat] st hd e h He Hf) as Hsim. cbn [omap list_omap] in Hsim. rewrite Ho1, Ho2, R in Hsim.
  destruct Hsim as (answers & st' & R' & _ & Hc & _).
  inversion Hs as [|? ? r1 s1 ? rs1 ? S1 Hs1]; subst. inversion S1; subst.
  inversion Hs1 as [|? ? r2 s2 ? rs2 ? S2 Hs2]; subst. inversion S2 as [|? ? ? r Hans| | |]; subst. inversion Hs2; subst.
  apply lpm_answer in Hans. assert (r = Some md) as ->.
  { rewrite Hans. apply (lpm_entries_unique _ _ (p, md)); [apply elem_of_entries; eexists; apply lookup_insert_eq|done|].
    intros e2 [k Hk]%elem_of_entries _. left. apply lookup_insert_Some in Hk as [[_ <-]|[_ Hk]]; [done|].
    by rewrite lookup_empty in Hk. }
  inversion Hc as [| |? ? ? ? ? a1 ans1 _ Ha1 Hc1]; subst; [congruence|].
  inversion Hc1 as [| |? ? ? ? ? a2 ans2 _ Ha2 Hc2]; subst; [congruence|]. inversion Hc2; subst.
  destruct a1 as [c|ptr1|b|]; try done. destruct a2 as [c2|ptr|b|]; try done. cbn in Ha1. subst c.
  unfold mat, c_answers, json_c_string, cstring_new in Ha2. rewrite Hjs, Hnul in Ha2. destruct Ha2 as (x & -> & Hx).
  by exists x, st', h'.
Qed.
End roundtrip.

(** The dictionary of the Python class carries the metadata unchanged. *)
Lemma attributes_from_items_map (kvs : list (string * string)) acc :
  NoDup kvs.*1 →
  attributes_from_items ((λ kv, (PyStr kv.1, PyStr kv.2)) <$> kvs) acc = Ok (list_to_map kvs ∪ acc).
Proof.
  revert acc. induction kvs as [|[k v] kvs IH]; intros acc Hnd.
  { change (Ok acc = Ok (E:=BindingError) ((∅ : gmap string string) ∪ acc)). by rewrite (left_id_L ∅ (∪)). }
  cbn [fmap list_fmap attributes_from_items py_string fst snd]. change (list_to_map ((k, v) :: kvs) ∪ acc) with ((<[k := v]> (list_to_map kvs) : gmap string string) ∪ acc).
  apply NoDup_cons in Hnd as [Hk Hnd]. rewrite IH by done. f_equal.
  rewrite <- insert_union_l, insert_union_r; [done|]. by apply not_elem_of_list_to_map_1.
Qed.

Theorem python_metadata_roundtrip m : meta_from_dict (meta_to_dict m) = Ok m.
Proof.
  destruct m as [v attrs]. unfold meta_from_dict, meta_to_dict.
  cbn -[map_to_list]. rewrite attributes_from_items_map by apply NoDup_fst_map_to_list.
  by rewrite list_to_map_to_list, (right_id_L ∅ (∪)).
Qed.

(** The documentation of the Python class lists concurrent among the variants
    and calls the default balanced; both are the single-threaded engine. *)
Theorem python_concurrent_is_standard cache k ttl redis ch :
  engine_variant (python_config (Some "concurrent"%string) cache k ttl redis ch) = Standard ∧
  engine_variant (python_config None cache k ttl redis ch) = Standard ∧
  engine_variant balanced = Concurrent.
Proof. done. Qed.

(** An object without a time to live, passed to the Node class, drops the
    default one; every other missing field keeps its default. *)
Theorem node_config_drops_ttl :
  node_config None = RadixConfig_default ∧
  let c := node_config (Some (mkJsConfig None None None None None None None None None)) in
  cache_ttl_seconds c = None ∧ cache_ttl_seconds RadixConfig_default = Some 3600 ∧
  cache_max_entries c = cache_max_entries RadixConfig_default ∧
  engine_variant c = engine_variant RadixConfig_default ∧ cfg_redis c = cfg_redis RadixConfig_default.
Proof. done. Qed.

Section policies.
Context `{IpNetworkCrate} `{DashMapCrate} `{MokaCrate} `{InstantRange}.
Context {E : Type} `{!RadixEngine E}.

Lemma packed_unpacks ip : ip_wf ip → into_ip_addr (PackedIp_from ip) = Some ip.
Proof. intros Hwf. by apply packed_ip_roundtrip. Qed.

(** The class methods and the C function give the decision of
    [PolicyEngine::check_ip]: the error about the address family is never
    seen, and C gets the discriminant and the pause of the same result. *)
Theorem bindings_check_agree (ph : PolicyHandle E) hd (st : PolicyFfi E) s ip clock now h :
  parse_ip s = Some ip → ip_wf ip → pf_handles st !! hd = Some ph →
  match check_ip (ph_policy ph) ip clock now h with
  | Some ((d, p), h') =>
      let ph' := mkHandle p (ph_route_trie ph) in
      class_check_ip ph s clock now h =
        Some ((Ok (mkJsPolicy (decision_name (decision (from_decision d)))
                 (retry_after_seconds (from_decision d))), ph'), h') ∧
      radix_policy_check st (Some hd) (Some (PackedIp_from ip)) true clock now h =
        Some ((0, Some (mkPolicyResult (code_u8 (decision (from_decision d)))
                 (retry_after_seconds (from_decision d))),
               mkPolicyFfi (<[hd := ph']> (pf_handles st)) (pf_next st)), h')
  | None =>
      class_check_ip ph s clock now h = None ∧
      radix_policy_check st (Some hd) (Some (PackedIp_from ip)) true clock now h = None
  end.
Proof.
  intros Hs Hwf Hp. unfold class_check_ip, radix_policy_check, handle_check.
  rewrite Hs, Hp, packed_unpacks by done. unfold mbind, M_bind.
  by destruct (check_ip (ph_policy ph) ip clock now h) as [[[d p] h']|].
Qed.

(** Two configurations that differ in the sources of the blocklist only. *)
Definition set_sources (cfg : RadixIpConfig) (sources : list BlocklistSource) : RadixIpConfig :=
  let r := radixip cfg in
  mkRadixIp (mkRoot (root_engine r) (root_middleware r) (mkBlocklist (bl_enabled (root_blocklist r)) sources)
    (root_xdp r) (root_rate_limit r) (root_metrics r) (root_auto_ban r) (root_rate_limit_routes r)).

(** The sources of the blocklist do not reach the policy. *)
Theorem blocklist_sources_ignored (e : E) cfg sources :
  handle_new e (set_sources cfg sources) = handle_new e cfg.
Proof. by destruct cfg as [[]]. Qed.
End policies.
