(* ===== verification/Classes.v ===== *)
(** * Classes on an engine, and those of Python (lib/python/src/lib.rs)

    The interface of a class that a binding puts on an engine, and its first
    instance: [RadixEngine] and [RadixPolicy] of the Python module, method by method,
    with their own error texts.  A method parses its arguments and makes one
    engine call; what does not parse raises and leaves the engine alone. *)

From S2P Require Import Prelude Addr Lpm DashMap Node Heap RouteTree Patricia Engine Engines Cache Simd ArtNode ArtTree ArtLookup ArtEngine.
From S2P Require Import Wrapper Hybrid Library Boxed TokenBucket Config Str IpExtractor Limiter RouteTrie AutoBan Policy Bindings.

Local Open Scope Z_scope.

(** ** Classes on an engine *)

(** A class of a binding: a method parses its arguments and makes one engine
    call, or refuses them and leaves the engine alone. *)
Class BoundClass `{IpNetworkCrate} `{DashMapCrate} (E : Type) `{!RadixEngine E} (Call Answer : Type) := {
  bc_run : E → Call → M (Answer * E);
  bc_op : Call → option op;                (* the engine call, if the arguments parse *)
  bc_result : Call → res → Answer;         (* the answer from the engine's *)
  bc_refused : Answer → Prop;              (* the answers of calls that do not parse *)
  bc_run_spec e call h :
    match bc_op call with
    | Some o => bc_run e call h = '((r, e'), h') ← engine_op e o h; Some ((bc_result call r, e'), h')
    | None => ∃ a, bc_run e call h = Some ((a, e), h) ∧ bc_refused a
    end;
}.

Section bound.
Context `{IpNetworkCrate} `{DashMapCrate} {E : Type} `{!RadixEngine E}.
Context {Call Answer : Type} `{!BoundClass E Call Answer}.

Fixpoint bc_calls (e : E) (calls : list Call) : M (list Answer * E) :=
  match calls with
  | [] => mret ([], e)
  | call :: calls' =>
      '(a, e') ← bc_run e call;
      '(rest, e'') ← bc_calls e' calls';
      mret (a :: rest, e'')
  end.

(** The answers of a program: each call is refused, or answers from the next
    answer of the engine. *)
Inductive bc_answers : list Call → list res → list Answer → Prop :=
  | ba_done : bc_answers [] [] []
  | ba_refused call calls rs a rest :
      bc_op call = None → bc_refused a → bc_answers calls rs rest → bc_answers (call :: calls) rs (a :: rest)
  | ba_op call o calls r rs rest :
      bc_op call = Some o → bc_answers calls rs rest →
      bc_answers (call :: calls) (r :: rs) (bc_result call r :: rest).

(** A program on an object is a sequence of engine calls: it panics where the
    engine does, and otherwise leaves the engine where these calls leave it. *)
Lemma class_sim calls : ∀ (e : E) (h : Heap),
  match engine_ops e (omap bc_op calls) h with
  | None => bc_calls e calls h = None
  | Some ((rs, e'), h') => ∃ answers, bc_calls e calls h = Some ((answers, e'), h') ∧ bc_answers calls rs answers
  end.
Proof.
  induction calls as [|call calls IH]; intros e h; cbn [bc_calls].
  { exists []. split; [done|constructor]. }
  pose proof (bc_run_spec e call h) as Hcall. cbn [omap list_omap].
  destruct (bc_op call) as [o|] eqn:Ho; rewrite ?Ho.
  - cbn [engine_ops]. destruct (engine_op e o h) as [[[r e1] h1]|] eqn:R; cbn in Hcall;
      [|unfold mbind, M_bind; by rewrite R, Hcall].
    rewrite (bind_run _ _ _ _ _ R), (bind_run _ _ _ _ _ Hcall). cbn beta iota. specialize (IH e1 h1).
    unfold mbind, M_bind. destruct (engine_ops e1 _ h1) as [[[rs e2] h2]|]; [|by rewrite IH].
    destruct IH as (answers & R2 & Ha). rewrite R2. eexists. split; [done|by econstructor].
  - destruct Hcall as (a & Hcall & Hra). rewrite (bind_run _ _ _ _ _ Hcall). cbn beta iota. specialize (IH e h).
    destruct (engine_ops e _ h) as [[[rs e2] h2]|]; [|unfold mbind, M_bind; by rewrite IH].
    destruct IH as (answers & R2 & Ha). rewrite (bind_run _ _ _ _ _ R2). eexists. split; [done|by econstructor].
Qed.
End bound.

(** ** The Python classes *)

(** The decimal text of a size. *)
Fixpoint digits (fuel : nat) (n : Z) (acc : string) : string :=
  match fuel with
  | O => acc
  | S f =>
      let acc := String (Ascii.ascii_of_nat (48 + Z.to_nat (n mod 10))) acc in
      if n <? 10 then acc else digits f (n / 10) acc
  end.

(** A [usize] has at most 20 digits. *)
Definition usize_text (n : Z) : string := digits 20 n EmptyString.

Section python.
Context `{IpNetworkCrate} `{DashMapCrate} `{!TextForms} `{MokaCrate} `{InstantRange}.
Context {E : Type} `{!RadixEngine E}.

(** [PyValueError::new_err(msg)] is [InvalidArg msg]. *)
Definition python_remove (e : E) (subnet : string) : M (Result bool BindingError * E) :=
  match network_from_string subnet with
  | Err err => mret (Err (InvalidArg ("Invalid CIDR '" +:+ subnet +:+ "': " +:+ err)), e)
  | Ok prefix => '(r, e') ← re_remove e prefix; mret (Ok (is_some r), e')
  end.

Definition python_contains (e : E) (ip : string) : M (Result bool BindingError * E) :=
  match parse_ip ip with
  | None => mret (Err (InvalidArg ("Invalid IP address: " +:+ ip)), e)
  | Some addr => '(r, e') ← re_lookup e addr; mret (Ok (is_some r), e')
  end.

Definition python_clear (e : E) : M E := re_clear e.

(** [__len__] *)
Definition python_len (e : E) : Z := re_size e.

(** The dictionary of [stats]. *)
Definition python_stats (e : E) : list (string * Z) :=
  let s := re_stats e in
  [("size"%string, stat_size s); ("inserts"%string, stat_inserts s); ("lookups"%string, stat_lookups s);
   ("hits"%string, stat_hits s); ("misses"%string, stat_misses s); ("removals"%string, stat_removals s)].

(** [__repr__] *)
Definition python_repr (e : E) : string := "RadixEngine(size=" +:+ usize_text (re_size e) +:+ ")".

(** ** [RadixPolicy] *)

(** A failing runtime is a [ValueError] as well. *)
Definition python_from_yaml (read : string → Result string string)
    (from_str : string → Result RadixIpConfig string) (runtime : Result (M E) string) (path : string)
    : M (Result (PolicyHandle E) BindingError) :=
  match from_file read from_str path with
  | Err e => mret (Err (InvalidArg (ConfigError_to_string e)))
  | Ok config =>
      match runtime with
      | Err e => mret (Err (InvalidArg e))
      | Ok new_balanced => e ← new_balanced; mret (Ok (handle_new e config))
      end
  end.

(** The two items of the answer. *)
Definition python_answer (r : option PolicyResult) : Result (string * Z) BindingError :=
  match r with
  | None => Err (InvalidArg "invalid IP address family")
  | Some pr => Ok (decision_name (decision pr), retry_after_seconds pr)
  end.

Definition python_check_ip (ph : PolicyHandle E) (ip : string) (clock : nat → Z) (now : Z)
    : M (Result (string * Z) BindingError * PolicyHandle E) :=
  match parse_ip ip with
  | None => mret (Err (InvalidArg ("Invalid IP address: " +:+ ip)), ph)
  | Some addr =>
      '(r, ph') ← handle_check ph (PackedIp_from addr) clock now;
      mret (python_answer r, ph')
  end.

Definition python_check_request (ph : PolicyHandle E) (ip method path : string) (clock : nat → Z) (now : Z)
    : M (Result (string * Z) BindingError * PolicyHandle E) :=
  match parse_ip ip with
  | None => mret (Err (InvalidArg ("Invalid IP address: " +:+ ip)), ph)
  | Some addr =>
      '(r, ph') ← check_request ph (PackedIp_from addr) method path clock now;
      mret (python_answer r, ph')
  end.

(** ** Programs on one object *)

Inductive PyCall :=
  | PyInsert (subnet : string) (metadata : list (PyObj * PyObj))
  | PyLookup (ip : string)
  | PyRemove (subnet : string)
  | PyContains (ip : string)
  | PyClear.

Inductive PyAnswer :=
  | PyUnit (r : Result unit BindingError)
  | PyMeta (r : Result (option (list (PyObj * PyObj))) BindingError)
  | PyBool (r : Result bool BindingError).

Definition py_call (e : E) (call : PyCall) : M (PyAnswer * E) :=
  match call with
  | PyInsert s d => '(r, e') ← python_insert e s d; mret (PyUnit r, e')
  | PyLookup ip => '(r, e') ← python_lookup e ip; mret (PyMeta r, e')
  | PyRemove s => '(r, e') ← python_remove e s; mret (PyBool r, e')
  | PyContains ip => '(r, e') ← python_contains e ip; mret (PyBool r, e')
  | PyClear => e' ← python_clear e; mret (PyUnit (Ok tt), e')
  end.

(** The engine call of a method, if its arguments parse. *)
Definition py_op (call : PyCall) : option op :=
  match call with
  | PyInsert s d =>
      match network_from_string s, meta_from_dict d with
      | Ok p, Ok md => Some (OpInsert p md)
      | _, _ => None
      end
  | PyLookup ip | PyContains ip => OpLookup <$> parse_ip ip
  | PyRemove s => match network_from_string s with Ok p => Some (OpRemove p) | Err _ => None end
  | PyClear => Some OpClear
  end.

(** The answer of a method from the answer of the engine ... *)
Definition py_result (call : PyCall) (r : res) : PyAnswer :=
  match call, r with
  | PyLookup _, RMeta md => PyMeta (Ok (meta_to_dict <$> md))
  | PyRemove _, RMeta md | PyContains _, RMeta md => PyBool (Ok (is_some md))
  | _, RDone (Err msg) => PyUnit (Err (InvalidArg msg))
  | _, _ => PyUnit (Ok tt)
  end.

(** ... and of one that raises before it reaches the engine. *)
Definition raises (a : PyAnswer) : Prop :=
  match a with PyUnit (Err _) | PyMeta (Err _) | PyBool (Err _) => True | _ => False end.

(** A method is the engine call, with the parsing in front. *)
Lemma py_call_run e call h :
  match py_op call with
  | Some o => py_call e call h = '((r, e'), h') ← engine_op e o h; Some ((py_result call r, e'), h')
  | None => ∃ a, py_call e call h = Some ((a, e), h) ∧ raises a
  end.
Proof.
  destruct call as [s d|ip|s|ip| ]; cbn [py_op py_call].
  - unfold python_insert. destruct (network_from_string s) as [p|err]; [|by eexists].
    destruct (meta_from_dict d) as [md|err]; [|by eexists]. cbn [engine_op].
    unfold mbind, M_bind. by destruct (re_insert e p md h) as [[[[[]|msg] e'] h']|].
  - unfold python_lookup. destruct (parse_ip ip) as [a|]; [|by eexists]. cbn [fmap option_fmap option_map engine_op].
    unfold mbind, M_bind. by destruct (re_lookup e a h) as [[[r e'] h']|].
  - unfold python_remove. destruct (network_from_string s) as [p|err]; [|by eexists]. cbn [engine_op].
    unfold mbind, M_bind. by destruct (re_remove e p h) as [[[r e'] h']|].
  - unfold python_contains. destruct (parse_ip ip) as [a|]; [|by eexists]. cbn [fmap option_fmap option_map engine_op].
    unfold mbind, M_bind. by destruct (re_lookup e a h) as [[[r e'] h']|].
  - unfold python_clear. cbn [engine_op]. unfold mbind, M_bind. by destruct (re_clear e h) as [[e' h']|].
Qed.

#[export] Instance python_class : BoundClass E PyCall PyAnswer := {|
  bc_run := py_call; bc_op := py_op; bc_result := py_result; bc_refused := raises; bc_run_spec := py_call_run;
|}.
End python.

Section refinement.
Context `{IpNetworkLaws} `{DashMapLaws} `{TargetBuild} `{HashOrder} `{RedisCrate} `{!TextForms}.
Context `{JsonValues} `{!UpdateForms} `{!HybridEnv}.

(** A program on an object around a box that serves. *)
Lemma class_serves {Call Answer} `{!BoundClass BoxedEngine Call Answer} config (e : BoxedEngine) (h : Heap)
    (calls : list Call) :
  boxed_serves config e h →
  ∃ answers e' h' rs m, bc_calls (Answer:=Answer) e calls h = Some ((answers, e'), h') ∧
    engine_steps (boxed_key config) (boxed_answers config) (boxed_cleared config) (∅, 0) (omap (bc_op (E:=BoxedEngine) (Answer:=Answer)) calls) rs
      (m, re_size e') ∧
    from_inserts [] (omap (bc_op (E:=BoxedEngine) (Answer:=Answer)) calls) rs ∧ bc_answers (E:=BoxedEngine) calls rs answers.
Proof.
  intros Hserves. destruct (Hserves (omap (bc_op (E:=BoxedEngine) (Answer:=Answer)) calls)) as (rs & e' & h' & m & R & Hs & Hf).
  pose proof (class_sim calls e h) as Hsim. rewrite R in Hsim. destruct Hsim as (answers & R' & Ha).
  by exists answers, e', h', rs, m.
Qed.

(** C30: every program on a Python [RadixEngine] that was made without a Redis
    URL, with whatever variant and cache settings, runs to its end.  The calls
    whose arguments do not parse raise and change nothing; the others are, in
    order, the operations of a routing table over the keys of the compressed
    tree, and [len] is its counter.  A lookup or [in] answers, without the
    cache, a stored entry whose key leads the address, or nothing; with the
    cache, in any case only metadata that an earlier insert stored. *)
Theorem python_class_refines host variant cache max_entries ttl_seconds channel (calls : list PyCall) (h : Heap) :
  heap_wf h →
  ∃ e h1 answers e' h' rs m,
    python_new host variant cache max_entries ttl_seconds None channel h = Some (e, h1) ∧
    bc_calls (Answer:=PyAnswer) e calls h1 = Some ((answers, e'), h') ∧
    engine_steps pkey (λ m ip r, cache = false → sound_answer m ip r) (λ _, ∅) (∅, 0) (omap py_op calls) rs
      (m, python_len e') ∧
    from_inserts [] (omap py_op calls) rs ∧ bc_answers (E:=BoxedEngine) calls rs answers.
Proof.
  intros Hwf. unfold python_new. set (config := python_config _ _ _ _ _ _).
  assert (cache_enabled config = cache ∧ read_compressed config = true ∧ local_config config) as (Hc & Hrc & Hloc).
  { unfold local_config, config, python_config. cbn.
    destruct variant as [v|]; [repeat case_bool_decide|]; cbn; split_and!; try done; by right. }
  destruct (library_new_serves host config h Hloc Hwf) as (e & h1 & F & R & _ & Hserves).
  destruct (class_serves config e h1 calls Hserves) as (answers & e' & h' & rs & m & R' & Hs & Hf & Ha).
  exists e, h1, answers, e', h', rs, m. split_and!; [done|done| |done|done].
  unfold boxed_key, boxed_answers, boxed_cleared in Hs. by rewrite Hc, Hrc in Hs.
Qed.
End refinement.
