(* ===== verification/NodeClass.v ===== *)
(** * The Node class (lib/node/src/lib.rs)

    [RadixIP] holds its engine in a [RadixEngineWrapper], whose methods pass
    the call on, and speaks of flat objects: [JsMetadata], [JsEngineStats].
    Sizes and counters are cut to 32 bits. *)

From S2P Require Import Prelude Addr Lpm DashMap Node Heap RouteTree Trie Patricia Engine Engines Cache Simd ArtNode ArtTree ArtLookup ArtEngine.
From S2P Require Import Wrapper Hybrid Library Boxed Str Bindings Classes.

Local Open Scope Z_scope.

Record JsMetadata := mkJsMetadata { jm_value : string; jm_attributes : gmap string string }.

Record JsEngineStats := mkJsStats {
  js_st_size : Z; js_st_inserts : Z; js_st_lookups : Z; js_st_hits : Z; js_st_misses : Z; js_st_removals : Z }.

(** The two copies between the object and the library's record. *)
Definition js_to_metadata (m : JsMetadata) : Metadata := mkMetadata (jm_value m) (jm_attributes m).
Definition js_from_metadata (m : Metadata) : JsMetadata := mkJsMetadata (value m) (attributes m).

Section node.
Context `{IpNetworkCrate} `{DashMapCrate} `{!TextForms}.
Context {E : Type} `{!RadixEngine E}.

(** ** [RadixEngineWrapper] *)

Record RadixEngineWrapper := mkEngineWrapper { ew_engine : E }.

Definition ew_new (engine : E) : RadixEngineWrapper := mkEngineWrapper engine.

(** [e.to_string()] of a [String] is the string. *)
Definition ew_insert (self : RadixEngineWrapper) (prefix : IpNetwork) (metadata : Metadata)
    : M (Result unit string * RadixEngineWrapper) :=
  '(r, e) ← re_insert (ew_engine self) prefix metadata;
  mret (r, mkEngineWrapper e).

Definition ew_lookup (self : RadixEngineWrapper) (addr : IpAddr) : M (option Metadata * RadixEngineWrapper) :=
  '(r, e) ← re_lookup (ew_engine self) addr;
  mret (r, mkEngineWrapper e).

Definition ew_remove (self : RadixEngineWrapper) (prefix : IpNetwork) : M (option Metadata * RadixEngineWrapper) :=
  '(r, e) ← re_remove (ew_engine self) prefix;
  mret (r, mkEngineWrapper e).

Definition ew_clear (self : RadixEngineWrapper) : M RadixEngineWrapper :=
  e ← re_clear (ew_engine self);
  mret (mkEngineWrapper e).

Definition ew_size (self : RadixEngineWrapper) : Z := re_size (ew_engine self).
Definition ew_stats (self : RadixEngineWrapper) : EngineStats := re_stats (ew_engine self).

(** ** [RadixIP] *)

Record RadixIP := mkRadixIP { ri_inner : RadixEngineWrapper }.

Definition js_insert (self : RadixIP) (subnet : string) (metadata : JsMetadata)
    : M (Result unit BindingError * RadixIP) :=
  match network_from_string subnet with
  | Err _ => mret (Err (InvalidArg ("Invalid CIDR: " +:+ subnet)), self)
  | Ok prefix =>
      let meta := js_to_metadata metadata in
      '(r, inner) ← ew_insert (ri_inner self) prefix meta;
      mret (match r with Ok _ => Ok tt | Err e => Err (GenericFailure e) end, mkRadixIP inner)
  end.

Definition js_lookup (self : RadixIP) (ip : string) : M (Result (option JsMetadata) BindingError * RadixIP) :=
  match parse_ip ip with
  | None => mret (Err (InvalidArg ("Invalid IP: " +:+ ip)), self)
  | Some addr =>
      '(r, inner) ← ew_lookup (ri_inner self) addr;
      mret (Ok (js_from_metadata <$> r), mkRadixIP inner)
  end.

Definition js_remove (self : RadixIP) (subnet : string) : M (Result bool BindingError * RadixIP) :=
  match network_from_string subnet with
  | Err _ => mret (Err (InvalidArg ("Invalid CIDR: " +:+ subnet)), self)
  | Ok prefix =>
      '(r, inner) ← ew_remove (ri_inner self) prefix;
      mret (Ok (is_some r), mkRadixIP inner)
  end.

Definition js_contains (self : RadixIP) (ip : string) : M (Result bool BindingError * RadixIP) :=
  match parse_ip ip with
  | None => mret (Err (InvalidArg ("Invalid IP: " +:+ ip)), self)
  | Some addr =>
      '(r, inner) ← ew_lookup (ri_inner self) addr;
      mret (Ok (is_some r), mkRadixIP inner)
  end.

Definition js_clear (self : RadixIP) : M RadixIP :=
  inner ← ew_clear (ri_inner self);
  mret (mkRadixIP inner).

(** [as u32] *)
Definition js_size (self : RadixIP) : Z := wrap 32 (ew_size (ri_inner self)).

Definition js_stats (self : RadixIP) : JsEngineStats :=
  let s := ew_stats (ri_inner self) in
  mkJsStats (wrap 32 (stat_size s)) (wrap 32 (stat_inserts s)) (wrap 32 (stat_lookups s)) (wrap 32 (stat_hits s))
    (wrap 32 (stat_misses s)) (wrap 32 (stat_removals s)).

(** ** Programs on one object *)

Inductive JsCall :=
  | JsInsert (subnet : string) (metadata : JsMetadata)
  | JsLookup (ip : string)
  | JsRemove (subnet : string)
  | JsContains (ip : string)
  | JsClear.

Inductive JsAnswer :=
  | JsUnit (r : Result unit BindingError)
  | JsMeta (r : Result (option JsMetadata) BindingError)
  | JsBool (r : Result bool BindingError).

Definition js_call (self : RadixIP) (call : JsCall) : M (JsAnswer * RadixIP) :=
  match call with
  | JsInsert s m => '(r, self) ← js_insert self s m; mret (JsUnit r, self)
  | JsLookup ip => '(r, self) ← js_lookup self ip; mret (JsMeta r, self)
  | JsRemove s => '(r, self) ← js_remove self s; mret (JsBool r, self)
  | JsContains ip => '(r, self) ← js_contains self ip; mret (JsBool r, self)
  | JsClear => self ← js_clear self; mret (JsUnit (Ok tt), self)
  end.

(** The class seen from the engine it owns. *)
Definition js_run (e : E) (call : JsCall) : M (JsAnswer * E) :=
  '(a, self) ← js_call (mkRadixIP (ew_new e)) call;
  mret (a, ew_engine (ri_inner self)).

Definition js_op (call : JsCall) : option op :=
  match call with
  | JsInsert s m => match network_from_string s with Ok p => Some (OpInsert p (js_to_metadata m)) | Err _ => None end
  | JsLookup ip | JsContains ip => OpLookup <$> parse_ip ip
  | JsRemove s => match network_from_string s with Ok p => Some (OpRemove p) | Err _ => None end
  | JsClear => Some OpClear
  end.

Definition js_result (call : JsCall) (r : res) : JsAnswer :=
  match call, r with
  | JsLookup _, RMeta md => JsMeta (Ok (js_from_metadata <$> md))
  | JsRemove _, RMeta md | JsContains _, RMeta md => JsBool (Ok (is_some md))
  | _, RDone (Err msg) => JsUnit (Err (GenericFailure msg))
  | _, _ => JsUnit (Ok tt)
  end.

Definition js_throws (a : JsAnswer) : Prop :=
  match a with JsUnit (Err _) | JsMeta (Err _) | JsBool (Err _) => True | _ => False end.

Lemma js_run_spec e call h :
  match js_op call with
  | Some o => js_run e call h = '((r, e'), h') ← engine_op e o h; Some ((js_result call r, e'), h')
  | None => ∃ a, js_run e call h = Some ((a, e), h) ∧ js_throws a
  end.
Proof.
  destruct call as [s m|ip|s|ip| ]; unfold js_run; cbn [js_op js_call].
  - unfold js_insert. destruct (network_from_string s) as [p|err]; [|by eexists]. cbn [engine_op].
    unfold ew_insert, mbind, M_bind. simpl. by destruct (re_insert e p (js_to_metadata m) h) as [[[[[]|msg] e'] h']|].
  - unfold js_lookup. destruct (parse_ip ip) as [a|]; [|by eexists]. cbn [fmap option_fmap option_map engine_op].
    unfold ew_lookup, mbind, M_bind. simpl. by destruct (re_lookup e a h) as [[[r e'] h']|].
  - unfold js_remove. destruct (network_from_string s) as [p|err]; [|by eexists]. cbn [engine_op].
    unfold ew_remove, mbind, M_bind. simpl. by destruct (re_remove e p h) as [[[r e'] h']|].
  - unfold js_contains. destruct (parse_ip ip) as [a|]; [|by eexists]. cbn [fmap option_fmap option_map engine_op].
    unfold ew_lookup, mbind, M_bind. simpl. by destruct (re_lookup e a h) as [[[r e'] h']|].
  - unfold js_clear. cbn [engine_op]. unfold ew_clear, mbind, M_bind. simpl. by destruct (re_clear e h) as [[e' h']|].
Qed.

#[export] Instance node_class : BoundClass E JsCall JsAnswer := {|
  bc_run := js_run; bc_op := js_op; bc_result := js_result; bc_refused := js_throws; bc_run_spec := js_run_spec;
|}.
End node.

Arguments RadixEngineWrapper E : clear implicits.
Arguments RadixIP E : clear implicits.

Lemma js_metadata_roundtrip m : js_from_metadata (js_to_metadata m) = m.
Proof. by destruct m. Qed.

Section refinement.
Context `{IpNetworkLaws} `{DashMapLaws} `{TargetBuild} `{HashOrder} `{RedisCrate} `{!TextForms}.
Context `{JsonValues} `{!UpdateForms} `{!HybridEnv}.

(** C31: every program on a Node [RadixIP] whose configuration asks neither for
    ART nor for split planes nor for Redis (any other variant, either tree,
    any cache settings, or no configuration at all) runs to its end.  The calls
    whose arguments do not parse throw and change nothing; the others are, in
    order, the operations of a routing table over the keys of the configured
    tree, with the metadata copied as it is.  A lookup answers, without the
    cache, what the tree's contract says (the longest match on the uncompressed
    tree, a stored entry whose key leads the address on the compressed one);
    with the cache, in any case only metadata that an earlier insert stored.
    [size] is the table's counter cut to 32 bits: the counter below 2^32
    routes, and 0 at 2^32. *)
Theorem node_class_refines host config (calls : list JsCall) (h : Heap) :
  heap_wf h → local_config (node_config config) →
  ∃ e h1 answers e' h' rs m n, let c := node_config config in
    js_new host config h = Some (e, h1) ∧ bc_calls (Answer:=JsAnswer) e calls h1 = Some ((answers, e'), h') ∧
    engine_steps (boxed_key c) (boxed_answers c) (boxed_cleared c) (∅, 0) (omap js_op calls) rs (m, n) ∧
    from_inserts [] (omap js_op calls) rs ∧ bc_answers (E:=BoxedEngine) calls rs answers ∧
    (in_width 32 n → js_size (mkRadixIP (ew_new e')) = n) ∧
    (n = 2 ^ 32 → js_size (mkRadixIP (ew_new e')) = 0).
Proof.
  intros Hwf Hloc. destruct (library_new_serves host _ h Hloc Hwf) as (e & h1 & F & R & _ & Hserves).
  destruct (class_serves _ e h1 calls Hserves) as (answers & e' & h' & rs & m & R' & Hs & Hf & Ha).
  exists e, h1, answers, e', h', rs, m, (re_size e'). split_and!; [done|done|done|done|done| |];
    unfold js_size, ew_size; simpl; [by apply wrap_small|by intros ->].
Qed.
End refinement.
