(* ===== verification/Server.v ===== *)
(** * The gRPC server (cmd/grpc-server-rust/src/main.rs)

    [RadixServiceImpl] serves the seven calls of the RadixService protocol over
    an engine and keeps Prometheus metrics; [main] wires it to the watched
    interceptor and, from the [xdp] section of the configuration or from the
    environment (ebpf/xdp-loader/src/main.rs), to the XDP loader. *)

From Stdlib Require Import Ascii.
From S2P Require Import Prelude Addr Lpm DashMap Node Heap RouteTree Trie Patricia Engine Engines Cache.
From S2P Require Import Simd ArtNode ArtTree ArtLookup ArtEngine Wrapper TokenBucket Config Str IpExtractor.
From S2P Require Import Xdp XdpLoader Limiter RouteTrie AutoBan Policy Watcher Adapters.

Local Open Scope Z_scope.

(** ** Messages of the protocol *)

Record PbMetadata := mkPb { pb_value : string; pb_attributes : gmap string string }.
Record InsertRequest := mkInsert { ir_prefix : string; ir_metadata : option PbMetadata }.
Record InsertResponse := mkInsertResponse { success : bool; is_new : bool; error_message : string }.
Record FoundResponse := mkFound { found : bool; fr_metadata : option PbMetadata }.

(** A call; a stream ends regularly or with a transport error. *)
Inductive Rpc :=
  | RInsert (req : InsertRequest)
  | RLookup (ip : string)
  | RRemove (prefix : string)
  | RContains (prefix : string)
  | RClear
  | RGetStats
  | RStreamInsert (reqs : list InsertRequest) (broken : bool).

Inductive RpcResponse :=
  | PInsert (r : InsertResponse)
  | PLookup (r : FoundResponse)
  | PRemove (r : FoundResponse)
  | PContains (contains : bool)
  | PClear (success : bool)
  | PStats (s : EngineStats)
  | PStream (inserted_count : Z)
  | PBroken.

(** The counters and the gauge; the gauge is the size it was set from. *)
Record Metrics := mkMetrics {
  lookups_hit : Z; lookups_miss : Z; lookups_invalid : Z;
  inserts_success : Z; inserts_error : Z;
  removals_total : Z; active_routes : Z;
}.
Definition Metrics_zero : Metrics := mkMetrics 0 0 0 0 0 0 0.

Definition count_lookup (label : option bool) (m : Metrics) : Metrics :=
  mkMetrics (lookups_hit m + if decide (label = Some true) then 1 else 0)
    (lookups_miss m + if decide (label = Some false) then 1 else 0)
    (lookups_invalid m + if decide (label = None) then 1 else 0)
    (inserts_success m) (inserts_error m) (removals_total m) (active_routes m).
Definition count_insert (ok : bool) (m : Metrics) : Metrics :=
  mkMetrics (lookups_hit m) (lookups_miss m) (lookups_invalid m)
    (inserts_success m + if ok then 1 else 0) (inserts_error m + if ok then 0 else 1)
    (removals_total m) (active_routes m).
Definition count_removal (m : Metrics) : Metrics :=
  mkMetrics (lookups_hit m) (lookups_miss m) (lookups_invalid m)
    (inserts_success m) (inserts_error m) (removals_total m + 1) (active_routes m).
Definition set_routes (n : Z) (m : Metrics) : Metrics :=
  mkMetrics (lookups_hit m) (lookups_miss m) (lookups_invalid m)
    (inserts_success m) (inserts_error m) (removals_total m) n.

(** [x as i64] of a [u64] *)
Definition as_i64 (x : Z) : Z := if x <? 2 ^ 63 then x else x - 2 ^ 64.

(** The [Metadata] built from a request, attribute by attribute. *)
Definition metadata_of_pb (m : option PbMetadata) : Metadata :=
  let meta := Metadata.new (default EmptyString (pb_value <$> m)) in
  match m with
  | Some pb => map_fold (λ k v meta, Metadata.with_attribute meta k v) meta (pb_attributes pb)
  | None => meta
  end.

Definition pb_of_metadata (m : Metadata) : PbMetadata := mkPb (value m) (attributes m).

(** ** The service *)

Section service.
Context `{IpNetworkCrate} `{DashMapCrate} `{!TextForms}.
Context {E : Type} `{!RadixEngine E}.

Record RadixServiceImpl := mkGrpc { gs_engine : E; gs_metrics : Metrics }.

Definition grpc_insert (s : RadixServiceImpl) (req : InsertRequest) : M (InsertResponse * RadixServiceImpl) :=
  match network_from_string (ir_prefix req) with
  | Err e =>
      mret (mkInsertResponse false false e, mkGrpc (gs_engine s) (count_insert false (gs_metrics s)))
  | Ok prefix =>
      '(r, e) ← re_insert (gs_engine s) prefix (metadata_of_pb (ir_metadata req));
      match r with
      | Ok _ =>
          let m := set_routes (re_size e) (count_insert true (gs_metrics s)) in
          mret (mkInsertResponse true true EmptyString, mkGrpc e m)
      | Err msg => mret (mkInsertResponse false false msg, mkGrpc e (count_insert false (gs_metrics s)))
      end
  end.

Definition grpc_lookup (s : RadixServiceImpl) (ip : string) : M (FoundResponse * RadixServiceImpl) :=
  match parse_ip ip with
  | None => mret (mkFound false None, mkGrpc (gs_engine s) (count_lookup None (gs_metrics s)))
  | Some ip =>
      '(r, e) ← re_lookup (gs_engine s) ip;
      match r with
      | Some meta =>
          mret (mkFound true (Some (pb_of_metadata meta)), mkGrpc e (count_lookup (Some true) (gs_metrics s)))
      | None => mret (mkFound false None, mkGrpc e (count_lookup (Some false) (gs_metrics s)))
      end
  end.

Definition grpc_remove (s : RadixServiceImpl) (prefix : string) : M (FoundResponse * RadixServiceImpl) :=
  match network_from_string prefix with
  | Err _ => mret (mkFound false None, s)
  | Ok prefix =>
      '(removed, e) ← re_remove (gs_engine s) prefix;
      match removed with
      | Some meta =>
          mret (mkFound true (Some (pb_of_metadata meta)),
                mkGrpc e (set_routes (re_size e) (count_removal (gs_metrics s))))
      | None => mret (mkFound false None, mkGrpc e (gs_metrics s))
      end
  end.

Definition grpc_contains (s : RadixServiceImpl) (prefix : string) : M bool :=
  match network_from_string prefix with
  | Err _ => mret false
  | Ok prefix => re_contains (gs_engine s) prefix
  end.

Definition grpc_clear (s : RadixServiceImpl) : M (bool * RadixServiceImpl) :=
  e ← re_clear (gs_engine s);
  mret (true, mkGrpc e (set_routes 0 (gs_metrics s))).

Definition grpc_get_stats (s : RadixServiceImpl) : EngineStats :=
  let st := re_stats (gs_engine s) in
  mkStats (as_i64 (stat_inserts st)) (as_i64 (stat_lookups st)) (as_i64 (stat_hits st))
    (as_i64 (stat_misses st)) (as_i64 (stat_removals st)) (as_i64 (stat_size st)).

(** The loop over the messages of a stream. *)
Fixpoint stream_loop (e : E) (reqs : list InsertRequest) (count : Z) : M (Z * E) :=
  match reqs with
  | [] => mret (count, e)
  | req :: reqs' =>
      match network_from_string (ir_prefix req) with
      | Err _ => stream_loop e reqs' count
      | Ok prefix =>
          '(r, e') ← re_insert e prefix (metadata_of_pb (ir_metadata req));
          stream_loop e' reqs' (match r with Ok _ => count + 1 | Err _ => count end)
      end
  end.

(** A transport error leaves the function at the question mark. *)
Definition grpc_stream_insert (s : RadixServiceImpl) (reqs : list InsertRequest) (broken : bool)
    : M (option Z * RadixServiceImpl) :=
  '(count, e) ← stream_loop (gs_engine s) reqs 0;
  if broken then mret (None, mkGrpc e (gs_metrics s))
  else mret (Some count, mkGrpc e (set_routes (re_size e) (gs_metrics s))).

Definition serve_rpc (s : RadixServiceImpl) (rpc : Rpc) : M (RpcResponse * RadixServiceImpl) :=
  match rpc with
  | RInsert req => '(r, s') ← grpc_insert s req; mret (PInsert r, s')
  | RLookup ip => '(r, s') ← grpc_lookup s ip; mret (PLookup r, s')
  | RRemove p => '(r, s') ← grpc_remove s p; mret (PRemove r, s')
  | RContains p => b ← grpc_contains s p; mret (PContains b, s)
  | RClear => '(b, s') ← grpc_clear s; mret (PClear b, s')
  | RGetStats => mret (PStats (grpc_get_stats s), s)
  | RStreamInsert reqs broken =>
      '(r, s') ← grpc_stream_insert s reqs broken;
      mret (match r with Some n => PStream n | None => PBroken end, s')
  end.

Fixpoint serve_rpcs (s : RadixServiceImpl) (rpcs : list Rpc) : M (list RpcResponse * RadixServiceImpl) :=
  match rpcs with
  | [] => mret ([], s)
  | rpc :: rpcs' =>
      '(r, s1) ← serve_rpc s rpc;
      '(rs, s2) ← serve_rpcs s1 rpcs';
      mret (r :: rs, s2)
  end.
End service.
Arguments RadixServiceImpl : clear implicits.

(** ** The service refines a routing table *)

Definition insert_ops `{IpNetworkCrate} `{!TextForms} (req : InsertRequest) : list op :=
  match network_from_string (ir_prefix req) with
  | Ok p => [OpInsert p (metadata_of_pb (ir_metadata req))]
  | Err _ => []
  end.

Definition on_prefix `{IpNetworkCrate} `{!TextForms} (s : string) (f : IpNetwork → op) : list op :=
  match network_from_string s with Ok p => [f p] | Err _ => [] end.

(** The engine calls a call of the protocol stands for. *)
Definition rpc_ops `{IpNetworkCrate} `{!TextForms} (rpc : Rpc) : list op :=
  match rpc with
  | RInsert req => insert_ops req
  | RLookup ip => match parse_ip ip with Some ip => [OpLookup ip] | None => [] end
  | RRemove p => on_prefix p OpRemove
  | RContains p => on_prefix p OpContains
  | RClear => [OpClear]
  | RGetStats => []
  | RStreamInsert reqs _ => concat (insert_ops <$> reqs)
  end.

(** The response to a call, from the answers of the engine. *)
Definition rpc_answers (rpc : Rpc) (rs : list res) (resp : RpcResponse) : Prop :=
  match rpc, resp with
  | RInsert _, PInsert r => success r = bool_decide (rs ≠ []) ∧ is_new r = success r
  | RLookup _, PLookup r | RRemove _, PRemove r =>
      (rs = [] ∧ r = mkFound false None) ∨
      ∃ md, rs = [RMeta md] ∧ r = mkFound (is_some md) (pb_of_metadata <$> md)
  | RContains _, PContains b => (rs = [] ∧ b = false) ∨ rs = [RBool b]
  | RClear, PClear b => b = true
  | RGetStats, PStats _ => True
  | RStreamInsert _ false, PStream n => n = Z.of_nat (length rs)
  | RStreamInsert _ true, PBroken => True
  | _, _ => False
  end.

Definition is_broken (rpc : Rpc) : bool := match rpc with RStreamInsert _ b => b | _ => false end.
Definition is_lookup (rpc : Rpc) : bool := match rpc with RLookup _ => true | _ => false end.
Definition lookups_total (m : Metrics) : Z := lookups_hit m + lookups_miss m + lookups_invalid m.

Lemma count_lookup_total label m : lookups_total (count_lookup label m) = lookups_total m + 1.
Proof. destruct label as [[]|]; unfold lookups_total, count_lookup; repeat case_decide; simplify_eq; cbn; lia. Qed.

(** Building the metadata attribute by attribute copies the message. *)
Lemma metadata_of_pb_spec pb : metadata_of_pb (Some pb) = mkMetadata (pb_value pb) (pb_attributes pb).
Proof.
  destruct pb as [v attrs]. unfold metadata_of_pb. cbn [fmap option_fmap option_map default pb_value pb_attributes].
  apply (map_fold_weak_ind (λ meta m, meta = mkMetadata v m)); [done|].
  intros k x m meta Hk ->. done.
Qed.

Lemma pb_roundtrip pb : pb_of_metadata (metadata_of_pb (Some pb)) = pb.
Proof. rewrite metadata_of_pb_spec. by destruct pb. Qed.

Lemma engine_steps_app `{IpNetworkCrate} key answers cleared s1 os1 rs1 s2 os2 rs2 s3 :
  engine_steps key answers cleared s1 os1 rs1 s2 → engine_steps key answers cleared s2 os2 rs2 s3 →
  engine_steps key answers cleared s1 (os1 ++ os2) (rs1 ++ rs2) s3.
Proof. induction 1 as [|s o r s' os rs s'' Hs Hss IH]; [done|]. intros H3. econstructor; [done|by apply IH]. Qed.

Lemma engine_steps_one `{IpNetworkCrate} key answers cleared s o r s' :
  engine_step key answers cleared s o r s' → engine_steps key answers cleared s [o] [r] s'.
Proof. intros Hs. econstructor; [done|constructor]. Qed.

Section refinement.
Context `{IpNetworkCrate} `{DashMapCrate} `{!TextForms}.
Context {E : Type} `{!RadixEngine E} `{!RadixEngineLaws E}.
Implicit Types (s : RadixServiceImpl E) (h : Heap) (m : table) (n : Z) (F : gset loc).

Abbreviation steps := (engine_steps (re_key (E:=E)) (re_answers (E:=E)) (re_cleared (E:=E))).

Lemma stream_loop_run reqs : ∀ h (e : E) m n F count,
  re_rep h e m n F →
  ∃ rs e' h' m' n' F', stream_loop e reqs count h = Some ((count + Z.of_nat (length rs), e'), h') ∧
    re_rep h' e' m' n' F' ∧ evolves h h' F F' ∧ steps (m, n) (concat (insert_ops <$> reqs)) rs (m', n').
Proof.
  induction reqs as [|req reqs IH]; intros h e m n F count Hr; cbn [stream_loop fmap list_fmap concat].
  { exists [], e, h, m, n, F. rewrite Z.add_0_r.
    split_and!; [done|done|eauto using evolves_refl, re_rep_wf|constructor]. }
  unfold insert_ops at 1. destruct (network_from_string (ir_prefix req)) as [p|]; [|by apply IH].
  set (md := metadata_of_pb _).
  destruct (re_insert_spec h e m n F p md Hr) as (e1 & h1 & F1 & R1 & Hr1 & Hev1).
  rewrite (bind_run _ _ _ _ _ R1). cbn beta iota.
  destruct (IH h1 e1 _ _ F1 (count + 1) Hr1) as (rs & e' & h' & m' & n' & F' & R2 & Hr2 & Hev2 & Hs).
  exists (RDone (Ok tt) :: rs), e', h', m', n', F'. rewrite R2. cbn [length app].
  split_and!; [do 3 f_equal; lia|done|by eapply evolves_trans|]. econstructor; [constructor|done].
Qed.

(** A call returns, keeps the representation, answers from the steps of the
    engine, and keeps the gauge and the lookup counters true. *)
Definition rpc_ok s rpc h m n F : Prop :=
  ∃ resp s' h' rs m' n' F', serve_rpc s rpc h = Some ((resp, s'), h') ∧
    re_rep h' (gs_engine s') m' n' F' ∧ evolves h h' F F' ∧
    steps (m, n) (rpc_ops rpc) rs (m', n') ∧ rpc_answers rpc rs resp ∧
    (is_broken rpc = false → active_routes (gs_metrics s) = n → active_routes (gs_metrics s') = n') ∧
    lookups_total (gs_metrics s') = lookups_total (gs_metrics s) + Z.b2z (is_lookup rpc).

Ltac rpc_done :=
  split_and!; [done|done|eauto using evolves_refl, re_rep_wf|
    first [apply es_done|apply engine_steps_one; constructor; assumption]|
    cbn; first [done|by eauto|by split; [rewrite bool_decide_eq_true_2 by done|]]|
    cbn; eauto|cbn [gs_metrics]; first [apply count_lookup_total|unfold lookups_total; cbn; lia]].

Lemma rpc_ok_insert s req h m n F : re_rep h (gs_engine s) m n F → rpc_ok s (RInsert req) h m n F.
Proof.
  intros Hr. unfold rpc_ok. cbn [serve_rpc rpc_ops]. unfold grpc_insert, insert_ops.
  destruct (network_from_string (ir_prefix req)) as [p|e]; cbn.
  - set (md := metadata_of_pb _).
    destruct (re_insert_spec h _ m n F p md Hr) as (e' & h' & F' & R & Hr' & Hev).
    rewrite bind_bind, (bind_run _ _ _ _ _ R). cbn beta iota.
    eexists _, _, h', [RDone (Ok tt)], _, _, F'. pose proof (re_size_spec _ _ _ _ _ Hr') as Hsz. rpc_done.
  - eexists _, _, h, [], m, n, F. rpc_done.
Qed.

Lemma rpc_ok_lookup s ip h m n F : re_rep h (gs_engine s) m n F → rpc_ok s (RLookup ip) h m n F.
Proof.
  intros Hr. unfold rpc_ok. cbn [serve_rpc rpc_ops]. unfold grpc_lookup.
  destruct (parse_ip ip) as [a|]; cbn.
  - destruct (re_lookup_spec h _ m n F a Hr) as (r & e' & R & Hr' & Ha).
    rewrite bind_bind, (bind_run _ _ _ _ _ R). cbn beta iota.
    destruct r as [md|].
    + eexists _, _, h, [RMeta (Some md)], m, n, F. rpc_done.
    + eexists _, _, h, [RMeta None], m, n, F. rpc_done.
  - eexists _, _, h, [], m, n, F. rpc_done.
Qed.

Lemma rpc_ok_remove s p h m n F : re_rep h (gs_engine s) m n F → rpc_ok s (RRemove p) h m n F.
Proof.
  intros Hr. unfold rpc_ok. cbn [serve_rpc rpc_ops]. unfold grpc_remove, on_prefix.
  destruct (network_from_string p) as [q|e]; cbn.
  - destruct (re_remove_spec h _ m n F q Hr) as (e' & h' & F' & R & Hr' & Hev).
    rewrite bind_bind, (bind_run _ _ _ _ _ R). cbn beta iota.
    pose proof (re_size_spec _ _ _ _ _ Hr') as Hsz.
    assert (steps (m, n) [OpRemove q] [RMeta (snd <$> m !! re_key q)]
      (delete (re_key q) m, if is_some (m !! re_key q) then wrap 64 (n - 1) else n)) as Hs
      by (apply engine_steps_one; constructor).
    destruct (m !! re_key q) as [[q' md]|] eqn:Hq; cbn;
      (eexists _, _, h', [RMeta _], _, _, F'; split_and!;
       [done|exact Hr'|done|exact Hs|right; by eexists|by cbn; intros|unfold lookups_total; cbn; lia]).
  - eexists _, _, h, [], m, n, F. rpc_done.
Qed.

Lemma rpc_ok_read s p h m n F : re_rep h (gs_engine s) m n F → rpc_ok s (RContains p) h m n F.
Proof.
  intros Hr. unfold rpc_ok. cbn [serve_rpc rpc_ops]. unfold grpc_contains, on_prefix.
  destruct (network_from_string p) as [q|e]; cbn.
  - rewrite (bind_run _ _ _ _ _ (re_contains_spec h _ m n F q Hr)).
    eexists _, _, h, [RBool _], m, n, F. rpc_done.
  - eexists _, _, h, [], m, n, F. rpc_done.
Qed.

Lemma rpc_ok_clear s h m n F : re_rep h (gs_engine s) m n F → rpc_ok s RClear h m n F.
Proof.
  intros Hr. unfold rpc_ok. cbn [serve_rpc rpc_ops]. unfold grpc_clear.
  destruct (re_clear_spec h _ m n F Hr) as (e' & h' & F' & R & Hr' & Hev).
  rewrite bind_bind, (bind_run _ _ _ _ _ R). eexists _, _, h', [RUnit], _, _, F'. rpc_done.
Qed.

Lemma rpc_ok_stream s reqs b h m n F :
  re_rep h (gs_engine s) m n F → rpc_ok s (RStreamInsert reqs b) h m n F.
Proof.
  intros Hr. unfold rpc_ok. cbn [serve_rpc rpc_ops]. unfold grpc_stream_insert.
  destruct (stream_loop_run reqs h _ m n F 0 Hr) as (rs & e' & h' & m' & n' & F' & R & Hr' & Hev & Hs).
  rewrite bind_bind, (bind_run _ _ _ _ _ R). cbn beta iota.
  pose proof (re_size_spec _ _ _ _ _ Hr') as Hsz.
  destruct b; eexists _, _, h', rs, m', n', F'; split_and!; eauto; unfold lookups_total; cbn; lia || done.
Qed.

Lemma serve_rpc_run s rpc h m n F : re_rep h (gs_engine s) m n F → rpc_ok s rpc h m n F.
Proof.
  intros Hr. destruct rpc; eauto using rpc_ok_insert, rpc_ok_lookup, rpc_ok_remove, rpc_ok_read,
    rpc_ok_clear, rpc_ok_stream.
  eexists _, s, h, [], m, n, F. rpc_done.
Qed.

(** C27: over any engine, every sequence of calls of the protocol returns and
    is answered from the routing table the engine refines: malformed
    prefixes and addresses are reported as failed or not found and change
    nothing, a stream reports the number of prefixes it stored, and the
    metadata of a message comes back attribute by attribute.  As long as no
    stream breaks off, the gauge of active routes is the engine's size, and
    the three lookup counters add up to the lookups served. *)
Theorem grpc_service_refines rpcs : ∀ s h m n F,
  re_rep h (gs_engine s) m n F →
  ∃ resps s' h' rss m' n' F', serve_rpcs s rpcs h = Some ((resps, s'), h') ∧
    re_rep h' (gs_engine s') m' n' F' ∧ evolves h h' F F' ∧
    steps (m, n) (concat (rpc_ops <$> rpcs)) (concat rss) (m', n') ∧
    Forall3 rpc_answers rpcs rss resps ∧
    (Forall (λ rpc, is_broken rpc = false) rpcs → active_routes (gs_metrics s) = n →
       active_routes (gs_metrics s') = re_size (gs_engine s')) ∧
    lookups_total (gs_metrics s') =
      lookups_total (gs_metrics s) + Z.of_nat (length (filter (λ rpc, is_lookup rpc = true) rpcs)).
Proof.
  induction rpcs as [|rpc rpcs IH]; intros s h m n F Hr; cbn [serve_rpcs].
  { exists [], s, h, [], m, n, F. pose proof (re_size_spec _ _ _ _ _ Hr) as ->.
    split_and!; [done|done|eauto using evolves_refl, re_rep_wf|constructor|constructor|done|].
    cbn. lia. }
  destruct (serve_rpc_run s rpc h m n F Hr)
    as (resp & s1 & h1 & rs & m1 & n1 & F1 & R1 & Hr1 & Hev1 & Hs1 & Ha1 & Hg1 & Hl1).
  destruct (IH s1 h1 m1 n1 F1 Hr1)
    as (resps & s2 & h2 & rss & m2 & n2 & F2 & R2 & Hr2 & Hev2 & Hs2 & Ha2 & Hg2 & Hl2).
  rewrite (bind_run _ _ _ _ _ R1). cbn beta iota. rewrite (bind_run _ _ _ _ _ R2).
  exists (resp :: resps), s2, h2, (rs :: rss), m2, n2, F2.
  split_and!; [done|done|by eapply evolves_trans|by eapply engine_steps_app|by constructor| |].
  - intros [Hb Hbs]%Forall_cons Hn. auto.
  - rewrite Hl2, Hl1, filter_cons. destruct (is_lookup rpc);
      [rewrite decide_True by done|rewrite decide_False by done]; cbn [Z.b2z length]; lia.
Qed.
End refinement.

(** ** What the server is wired to *)

Section wiring.
Context `{HttpCrate} `{IpNetworkCrate} `{DashMapCrate} `{!TextForms} `{TargetBuild} `{MokaCrate} `{InstantRange}.

Record GrpcServer := mkServer {
  sv_service : RadixServiceImpl EngineWrapper;
  sv_interceptor : WatchedInterceptor EngineWrapper;
}.

(** The engine of [RadixServiceImpl::new], and again that of the interceptor. *)
Definition server_engine (host : Host) : M EngineWrapper :=
  wrapper_new host Standard AtomicRadixNode_v true None.

(** [main] with a configuration file: the watcher is created without an
    engine, and the interceptor gets an engine of its own. *)
Definition server_main (host : Host) (cfg : RadixIpConfig) : M GrpcServer :=
  engine ← server_engine host;
  engine_dyn ← server_engine host;
  mret (mkServer (mkGrpc engine Metrics_zero)
    (watched_interceptor_new (state_from_config cfg) engine_dyn)).

(** The interceptor runs first; its error is the answer. *)
Definition server_call (sv : GrpcServer) (req : Request) (rpc : Rpc) (clock : nat → Z) (now : Z)
    : M (Result RpcResponse Status * GrpcServer) :=
  '(r, wi) ← watched_interceptor_call (sv_interceptor sv) req clock now;
  match r with
  | Err status => mret (Err status, mkServer (sv_service sv) wi)
  | Ok _ =>
      '(resp, s) ← serve_rpc (sv_service sv) rpc;
      mret (Ok resp, mkServer s wi)
  end.

Fixpoint server_calls (sv : GrpcServer) (calls : list (Request * Rpc * (nat → Z) * Z))
    : M (list (Result RpcResponse Status) * GrpcServer) :=
  match calls with
  | [] => mret ([], sv)
  | (req, rpc, clock, now) :: calls' =>
      '(r, sv1) ← server_call sv req rpc clock now;
      '(rs, sv2) ← server_calls sv1 calls';
      mret (r :: rs, sv2)
  end.
End wiring.

(** ** Prefixes inserted over gRPC are never a blocklist *)

Section unblocked.
Context `{HttpCrate} `{IpNetworkCrate} `{!IpNetworkLaws} `{DashMapCrate} `{!DashMapLaws} `{!TextForms}.
Context `{TargetBuild} `{InstantRange} `{MokaCrate} `{!MokaRetains} `{!MokaLaws}.

Section interceptor.
Context {E : Type} `{!RadixEngine E} `{!RadixEngineLaws E}.

(** The interceptor of an empty engine, without a tracker, that keeps one
    bucket per address. *)
Record idle (h : Heap) (wi : WatchedInterceptor E) (F : gset loc) : Prop := {
  idle_rep : re_rep h (ws_engine (wi_service wi)) ∅ 0 F;
  idle_tracker : wi_auto_ban wi = None;
  idle_mode : rl_bucket_mode (lm_config (ps_limiter (ws_state (wi_service wi)))) = Ip;
  idle_inv : limiter_inv (ps_limiter (ws_state (wi_service wi)));
  idle_fits : config_fits (lm_config (ps_limiter (ws_state (wi_service wi))));
}.

Definition denied (r : Result unit Status) : Prop :=
  ∃ st, r = Err st ∧ st_code st = PermissionDenied.

Lemma idle_interceptor h wi F req clock now :
  (∀ ip r, re_answers (E:=E) ∅ ip r → r = None) → idle h wi F →
  ∃ r wi', watched_interceptor_call wi req clock now h = Some ((r, wi'), h) ∧ idle h wi' F ∧ ¬ denied r.
Proof.
  intros Hnone [Hr Ht Hm Hi Hf]. unfold watched_interceptor_call.
  destruct (ws_extract _ _ _) as [ip|e]; [|eexists _, wi; split_and!; [done|done|by intros (? & [= <-] & ?)]].
  assert (∃ e', ws_blocked (wi_service wi) ip h = Some ((false, mkWatched (ws_state (wi_service wi)) e'), h) ∧
    re_rep h e' ∅ 0 F) as (e' & R & Hr').
  { unfold ws_blocked. destruct (bl_enabled _); [|eexists; split; [|exact Hr]; by destruct (wi_service wi)].
    destruct (re_lookup_spec h _ ∅ 0 F ip Hr) as (r & e' & R & Hr' & Ha). apply Hnone in Ha as ->.
    exists e'. by rewrite (bind_run _ _ _ _ _ R). }
  rewrite (bind_run _ _ _ _ _ R). cbn beta iota. cbn [ws_state].
  assert (¬ denied (Ok tt)) as Hok by by intros (? & ? & ?).
  destruct (rl_enabled _); [|eexists _, _; by split_and!].
  destruct (consume_run _ (Exact ip) (clock 0%nat) (clock 1%nat) Hi Hf)
    as (_ & b & _ & l' & _ & _ & Hc & Hi' & Hcfg & _).
  assert (limiter_allow (ps_limiter (ws_state (wi_service wi))) ip (Some e') clock h =
    Some ((b, l', Some e'), h)) as RL by (eapply limiter_allow_exact; by rewrite ?Hm).
  assert (ws_allow_global (mkWatched (ws_state (wi_service wi)) e') ip clock h =
    Some ((b, mkWatched (set_ps_limiter (ws_state (wi_service wi)) l') e'), h)) as RA.
  { unfold ws_allow_global. cbn [ws_state ws_engine]. by rewrite (bind_run _ _ _ _ _ RL). }
  rewrite (bind_run _ _ _ _ _ RA). cbn beta iota. rewrite Ht.
  destruct b; eexists _, _; (split_and!; [done|split; cbn; by rewrite ?Hcfg|]); [done|].
  by intros (? & [= <-] & ?).
Qed.
End interceptor.

Abbreviation laws := wrapper_compressed_laws.
Abbreviation rep := (@re_rep _ _ _ _ laws).

Lemma empty_compressed_answers ip r : @re_answers _ _ _ _ laws ∅ ip r → r = None.
Proof.
  change (@re_answers _ _ _ _ laws) with sound_answer. intros Ha. destruct r as [md|]; [|done].
  destruct (Ha md eq_refl) as (k & p & _ & Hk). by rewrite lookup_empty in Hk.
Qed.

(** The engine of the service and that of the interceptor are apart. *)
Definition apart (h : Heap) (sv : GrpcServer) : Prop :=
  ∃ m n F G, rep h (gs_engine (sv_service sv)) m n F ∧
    @idle EngineWrapper _ laws h (sv_interceptor sv) G ∧ F ## G.

Lemma server_call_apart h sv req rpc clock now :
  apart h sv →
  ∃ r sv' h', server_call sv req rpc clock now h = Some ((r, sv'), h') ∧ apart h' sv' ∧
    (∀ st, r = Err st → st_code st ≠ PermissionDenied).
Proof.
  intros (m & n & F & G & Hr & Hidle & Hd). unfold server_call.
  destruct (idle_interceptor h _ G req clock now empty_compressed_answers Hidle) as (r & wi & R & Hidle' & Hnd).
  rewrite (bind_run _ _ _ _ _ R). cbn beta iota. destruct r as [[]|st].
  - destruct (@serve_rpc_run _ _ _ _ _ laws (sv_service sv) rpc h m n F Hr)
      as (resp & s' & h' & rs & m' & n' & F' & R' & Hr' & Hev & _).
    rewrite (bind_run _ _ _ _ _ R'). eexists _, _, h'. split_and!; [done| |by intros st [=]].
    destruct Hidle' as [Hri Ht Hm Hi Hf].
    destruct (@re_frame _ _ _ _ laws h h' _ ∅ 0 G F F' Hri Hev Hd) as [Hri' Hd'].
    exists m', n', F', G. split_and!; [done|by split|done].
  - eexists _, _, h. split_and!; [done|by exists m, n, F, G|].
    intros st' [= <-] Hp. apply Hnd. by exists st.
Qed.

Lemma server_calls_apart calls : ∀ h sv,
  apart h sv →
  ∃ rs sv' h', server_calls sv calls h = Some ((rs, sv'), h') ∧
    ∀ st, Err st ∈ rs → st_code st ≠ PermissionDenied.
Proof.
  induction calls as [|[[[req rpc] clock] now] calls IH]; intros h sv Hap; cbn [server_calls].
  { exists [], sv, h. split; [done|]. intros st Hin. by apply not_elem_of_nil in Hin. }
  destruct (server_call_apart h sv req rpc clock now Hap) as (r & sv1 & h1 & R1 & Hap1 & Hn1).
  destruct (IH h1 sv1 Hap1) as (rs & sv2 & h2 & R2 & Hn2).
  rewrite (bind_run _ _ _ _ _ R1). cbn beta iota. rewrite (bind_run _ _ _ _ _ R2).
  exists (r :: rs), sv2, h2. split; [done|]. intros st [Heq|Hin]%elem_of_cons; [by apply Hn1|by apply Hn2].
Qed.

(** With auto-ban disabled and one bucket per address, the server answers
    every sequence of calls and never denies one: the interceptor looks
    addresses up in an engine of its own that nothing is ever inserted into,
    so no prefix stored over gRPC, however it got there, keeps a client out,
    also when the blocklist is enabled. *)
Theorem grpc_prefixes_never_block host cfg calls :
  ab_enabled (root_auto_ban (radixip cfg)) = false →
  rl_bucket_mode (root_rate_limit (radixip cfg)) = Ip → config_fits (root_rate_limit (radixip cfg)) →
  ∃ sv h rs sv' h', server_main host cfg empty_heap = Some (sv, h) ∧
    server_calls sv calls h = Some ((rs, sv'), h') ∧
    ∀ st, Err st ∈ rs → st_code st ≠ PermissionDenied.
Proof.
  intros Hab Hmode Hfit. unfold server_main, server_engine.
  destruct (wrapper_new_compressed host Standard AtomicRadixNode_v None empty_heap ltac:(done) heap_wf_empty)
    as (e1 & h1 & F & R1 & Hr1 & Hev1).
  destruct (wrapper_new_compressed host Standard AtomicRadixNode_v None h1 ltac:(done) (ev_wf _ _ _ _ Hev1))
    as (e2 & h2 & G & R2 & Hr2 & Hev2).
  rewrite (bind_run _ _ _ _ _ R1). cbn beta. rewrite (bind_run _ _ _ _ _ R2).
  destruct (@re_frame _ _ _ _ laws h1 h2 e1 ∅ 0 F ∅ G Hr1 Hev2 ltac:(set_solver)) as [Hr1' Hd].
  set (sv := mkServer _ _).
  destruct (server_calls_apart calls h2 sv) as (rs & sv' & h' & R & Hn).
  { exists ∅, 0, F, G. split_and!; [done| |set_solver]. split; cbn; [done|by rewrite Hab|done|apply limiter_inv_new|done]. }
  by exists sv, h2, rs, sv', h'.
Qed.
End unblocked.

(** ** The configuration of the XDP loader *)

Section loader_config.
Context `{IpNetCrate}.

(** [str::parse::<u8>]: an optional plus sign and decimal digits. *)
Fixpoint u8_digits (s : string) (acc : Z) : option Z :=
  match s with
  | EmptyString => Some acc
  | String x s' =>
      d ← to_digit 10 x;
      let acc' := acc * 10 + d in
      if acc' <? 256 then u8_digits s' acc' else None
  end.

Definition parse_u8 (s : string) : option Z :=
  let digits := match s with String x s' => if Ascii.eqb x "+" then s' else s | EmptyString => s end in
  if bool_decide (digits = EmptyString) then None else u8_digits digits 0.

(** [std::env::var(key).unwrap_or_else(|_| fallback)] *)
Definition env_or (env : string → option string) (key fallback : string) : string :=
  default fallback (env key).

Inductive EnvError := BadNeverBlock | BadMode (mode : string).

Definition parse_mode (s : string) : option Mode :=
  if bool_decide (s = "skb"%string) then Some Skb
  else if bool_decide (s = "drv"%string) then Some Driver
  else None.

(** The pieces of the list that are not blank, trimmed. *)
Definition never_block_pieces (s : string) : list string :=
  trim <$> filter (λ v, trim v ≠ EmptyString) (split_on "," s).

(** xdp-loader/src/main.rs *)
Definition config_from_env (env : string → option string) : Result (option LoaderConfig) EnvError :=
  if negb (bool_decide (env_or env "RADIXIP_XDP_ENABLED" "false" = "true"%string)) then Ok None
  else
    match mapM ipnet_from_str (never_block_pieces (env_or env "RADIXIP_XDP_NEVER_BLOCK" EmptyString)) with
    | None => Err BadNeverBlock
    | Some never_block =>
        let mode_text := env_or env "RADIXIP_XDP_MODE" "skb" in
        match parse_mode mode_text with
        | None => Err (BadMode mode_text)
        | Some mode =>
            Ok (Some (mkLoaderConfig
              (env_or env "RADIXIP_XDP_IFACE" "eth0") mode
              (env_or env "RADIXIP_XDP_PIN_DIR" "/sys/fs/bpf/radixip/v1")
              (env_or env "RADIXIP_REDIS_URL" "redis://127.0.0.1:6379")
              (env_or env "RADIXIP_XDP_CHANNEL" "security:blocklist")
              (env_or env "RADIXIP_XDP_SNAPSHOT_KEY" "security:blocklist:set")
              (bool_decide (env_or env "RADIXIP_XDP_FAIL_CLOSED" "false" = "true"%string))
              (default 8 (parse_u8 (env_or env "RADIXIP_XDP_MIN_V4" "8")))
              (default 16 (parse_u8 (env_or env "RADIXIP_XDP_MIN_V6" "16")))
              never_block))
        end
    end.

(** [start_embedded_xdp], up to the call of [xdp_loader::start] *)
Definition embedded_config (env : string → option string) (xdp : XdpConfig) : option LoaderConfig :=
  if negb (xdp_enabled xdp) then None
  else
    mode ← parse_mode (xdp_mode xdp);
    never_block ← mapM ipnet_from_str (xdp_never_block xdp);
    Some (mkLoaderConfig (xdp_interface xdp) mode (xdp_pin_dir xdp)
      (match env "RADIXIP_XDP_REDIS_URL" with
       | Some url => url
       | None => default (xr_url (xdp_redis xdp)) (env "REDIS_URL")
       end)
      (xr_channel (xdp_redis xdp)) (xr_snapshot_key (xdp_redis xdp)) (xdp_fail_closed xdp)
      (xdp_min_v4_prefix xdp) (xdp_min_v6_prefix xdp) never_block).
End loader_config.

Section loader_facts.
Context `{IpNetCrate}.

Lemma u8_digits_range s : ∀ acc v, 0 ≤ acc < 256 → u8_digits s acc = Some v → 0 ≤ v < 256.
Proof.
  induction s as [|x s IH]; intros acc v Ha; cbn [u8_digits]; [by intros [= <-]|].
  assert (∀ d, to_digit 10 x = Some d → 0 ≤ d) as Hd.
  { intros d. unfold to_digit. cbv zeta.
    destruct ((48 <=? code x) && (code x <=? 57)) eqn:E1;
      [|destruct ((97 <=? code x) && (code x <=? 102)) eqn:E2;
        [|destruct ((65 <=? code x) && (code x <=? 70)) eqn:E3; [|done]]];
      bprop; cbn [mbind option_bind]; (destruct (_ <? 10); [|done]); intros [= <-]; lia. }
  destruct (to_digit 10 x) as [d|]; [|done]. cbn. specialize (Hd d eq_refl).
  destruct (Z.ltb_spec (acc * 10 + d) 256); [|done]. apply IH. lia.
Qed.

Lemma parse_u8_range s v : parse_u8 s = Some v → 0 ≤ v < 256.
Proof. unfold parse_u8. cbv zeta. case_bool_decide; [done|]. apply u8_digits_range. lia. Qed.

(** What the loader's configuration from the environment guarantees: every
    piece of the never-block list that is not blank is in the list as a
    network (one that does not parse stops the loader), and the minimum
    prefix lengths are bytes, the defaults when they are unset or do not
    parse. *)
Theorem config_from_env_guards env c :
  config_from_env env = Ok (Some c) →
  (∀ piece, piece ∈ split_on "," (env_or env "RADIXIP_XDP_NEVER_BLOCK" EmptyString) →
     trim piece ≠ EmptyString → ∃ net, net ∈ never_block c ∧ ipnet_from_str (trim piece) = Some net) ∧
  0 ≤ min_v4 c < 256 ∧ 0 ≤ min_v6 c < 256 ∧
  (env "RADIXIP_XDP_MIN_V4" = None → min_v4 c = 8) ∧ (env "RADIXIP_XDP_MIN_V6" = None → min_v6 c = 16).
Proof.
  unfold config_from_env. destruct (negb _); [done|].
  destruct (mapM _ _) as [nets|] eqn:Hm; [|done]. cbv zeta. destruct (parse_mode _) as [mode|]; [|done].
  intros [= <-]. cbn [never_block min_v4 min_v6].
  assert (∀ d s, 0 ≤ d < 256 → 0 ≤ default d (parse_u8 s) < 256) as Hdef.
  { intros d s Hd. destruct (parse_u8 s) eqn:E; [by apply parse_u8_range in E|done]. }
  split; [|split; [by apply Hdef|split; [by apply Hdef|split]]].
  - intros piece Hin Hne. apply mapM_Some in Hm.
    assert (trim piece ∈ never_block_pieces (env_or env "RADIXIP_XDP_NEVER_BLOCK" EmptyString)) as Hp.
    { unfold never_block_pieces. apply list_elem_of_fmap. exists piece. split; [done|].
      by apply list_elem_of_filter. }
    apply list_elem_of_lookup in Hp as [i Hi].
    destruct (Forall2_lookup_l _ _ _ _ _ Hm Hi) as (net & Hnet & Hparse).
    exists net. split; [by eapply list_elem_of_lookup_2|done].
  - unfold env_or. by intros ->.
  - unfold env_or. by intros ->.
Qed.

(** The two front ends have the same defaults: with nothing but the switch set,
    the loader's binary and the server start the loader alike. *)
Theorem loader_defaults_agree env :
  env "RADIXIP_XDP_ENABLED"%string = Some "true"%string →
  (∀ key, key ≠ "RADIXIP_XDP_ENABLED"%string → env key = None) →
  config_from_env env =
    Ok (embedded_config env (mkXdp true (xdp_interface XdpConfig_default) (xdp_mode XdpConfig_default)
      (xdp_pin_dir XdpConfig_default) (xdp_fail_closed XdpConfig_default)
      (xdp_min_v4_prefix XdpConfig_default) (xdp_min_v6_prefix XdpConfig_default)
      (xdp_never_block XdpConfig_default) (xdp_redis XdpConfig_default))).
Proof.
  intros He Hn. unfold config_from_env, embedded_config, env_or. rewrite He. rewrite !Hn by done. reflexivity.
Qed.
End loader_facts.
