(* ===== verification/Process.v ===== *)
(** * The gRPC server's process (cmd/grpc-server-rust/src/main.rs, [main])

    From the environment and the configuration file to a serving process:
    which addresses it binds, whether the policy runs in front of the service,
    whether the XDP program runs beside it, and which errors end it.  The
    crates behind the calls are those of the parts it starts. *)

From Stdlib Require Import Ascii.
From S2P Require Import Prelude Addr Lpm DashMap Node Heap RouteTree Trie Patricia Engine Engines Cache.
From S2P Require Import Simd ArtNode ArtTree ArtLookup ArtEngine Wrapper TokenBucket Config Str IpExtractor.
From S2P Require Import Xdp XdpLoader XdpRuntime Limiter RouteTrie AutoBan Policy Watcher Adapters Server.

Local Open Scope Z_scope.

(** ** Addresses *)

(** [SocketAddrV4::from_str]: an address, a colon and a port of any number of
    digits, leading zeros included. *)
Definition socket_v4_from_str (s : string) : option SocketAddr :=
  '(ip, s) ← read_ipv4_addr s;
  '(_, s) ← read_given_char ":" s;
  '(port, s) ← read_number 10 65535 (Z.of_nat (String.length s)) true s;
  if bool_decide (s = EmptyString) then Some (mkSocketAddr (V4 ip) port) else None.

(** [format!("0.0.0.0:{}", port)] *)
Definition any_address (port : string) : string := "0.0.0.0:" +:+ port.

Section process.
Context `{HttpCrate} `{IpNetworkCrate} `{DashMapCrate} `{!TextForms} `{TargetBuild} `{MokaCrate} `{InstantRange}.
Context `{IpNetCrate} `{LpmTrieCrate} `{!LoaderHost}.
Context (from_str : string → Result RadixIpConfig string) (host : Host).

(** ** [start_embedded_xdp] *)

Definition start_embedded_xdp (env : string → option string) (cfg : RadixIpConfig) : option Task :=
  c ← embedded_config env (root_xdp (radixip cfg));
  match start_runtime c with Ok t => Some t | Err _ => None end.

(** ** [main], up to the point where it serves *)

Inductive MainError :=
  | BadAddress (text : string)
  | BadWatcher (e : WatcherError)
  | Transport (e : string).

Record Process := mkProcess {
  pr_metrics_addr : SocketAddr;
  pr_grpc_addr : SocketAddr;
  pr_service : RadixServiceImpl EngineWrapper;
  pr_interceptor : option (WatchedInterceptor EngineWrapper);
  pr_xdp : option Task;
}.

Definition config_path (env : string → option string) : string :=
  match env "RADIXIP_CONFIG" with
  | Some path => path
  | None => env_or env "CONFIG_PATH" "radixip.yaml"
  end.

(** The file is read once for the sidecar, asked for, and read again by the
    watcher; [fs] is the file system at each of the three moments, and what
    the operating system answers to the watcher. *)
Record FileTimes := mkTimes {
  fs_sidecar : string → Result string string;
  fs_exists : string → bool;
  fs_watcher : string → Result string string;
  fs_notify : NotifyStart string;
}.

Definition process_start (env : string → option string) (fs : FileTimes) : M (Result Process MainError) :=
  let metrics_text := any_address (env_or env "METRICS_PORT" "9091") in
  let grpc_text := any_address (env_or env "GRPC_PORT" "50052") in
  match socket_v4_from_str metrics_text with
  | None => mret (Err (BadAddress metrics_text))
  | Some metrics_addr =>
      match socket_v4_from_str grpc_text with
      | None => mret (Err (BadAddress grpc_text))
      | Some grpc_addr =>
          engine ← server_engine host;
          let service := mkGrpc engine Metrics_zero in
          let path := config_path env in
          let xdp := match from_file (fs_sidecar fs) from_str path with
                     | Ok cfg => start_embedded_xdp env cfg
                     | Err _ => None
                     end in
          if fs_exists fs path then
            match watcher_new from_str (fs_notify fs) path false (fs_watcher fs) with
            | Err e => mret (Err (BadWatcher e))
            | Ok st =>
                engine_dyn ← server_engine host;
                mret (Ok (mkProcess metrics_addr grpc_addr service
                  (Some (watched_interceptor_new st engine_dyn)) xdp))
            end
          else mret (Ok (mkProcess metrics_addr grpc_addr service None xdp))
      end
  end.

(** A call on the gRPC port. *)
Definition process_call (p : Process) (req : Request) (rpc : Rpc) (clock : nat → Z) (now : Z)
    : M (Result RpcResponse Status * Process) :=
  match pr_interceptor p with
  | Some wi =>
      '(r, sv) ← server_call (mkServer (pr_service p) wi) req rpc clock now;
      mret (r, mkProcess (pr_metrics_addr p) (pr_grpc_addr p) (sv_service sv) (Some (sv_interceptor sv)) (pr_xdp p))
  | None =>
      '(resp, s) ← serve_rpc (pr_service p) rpc;
      mret (Ok resp, mkProcess (pr_metrics_addr p) (pr_grpc_addr p) s None (pr_xdp p))
  end.

Fixpoint process_calls (p : Process) (calls : list (Request * Rpc * (nat → Z) * Z))
    : M (list (Result RpcResponse Status) * Process) :=
  match calls with
  | [] => mret ([], p)
  | (req, rpc, clock, now) :: calls' =>
      '(r, p1) ← process_call p req rpc clock now;
      '(rs, p2) ← process_calls p1 calls';
      mret (r :: rs, p2)
  end.

(** The end of [main]: a transport error leaves at the question mark; after
    a regular shutdown the XDP task is told to stop and waited for. *)
Definition process_stop (p : Process) (served : Result unit string) : Result (option Task) MainError :=
  match served with
  | Err e => Err (Transport e)
  | Ok _ =>
      Ok (t ← pr_xdp p; t ← rt_step t RtSignal; rt_step t RtStop)
  end.

End process.

(** ** What decides whether the policy runs *)

Section start_facts.
Context `{HttpCrate} `{IpNetworkCrate} `{!IpNetworkLaws} `{DashMapCrate} `{!DashMapLaws} `{!TextForms}.
Context `{TargetBuild} `{InstantRange} `{MokaCrate} `{!MokaRetains} `{!MokaLaws}.
Context `{IpNetCrate} `{LpmTrieCrate} `{!LoaderHost}.
Implicit Types (p : Process) (h : Heap).

Abbreviation laws := wrapper_compressed_laws.
Abbreviation rep := (@re_rep _ _ _ _ laws).

(** Without an interceptor every call reaches the service. *)
Lemma process_calls_bare calls : ∀ p h m n F,
  pr_interceptor p = None → rep h (gs_engine (pr_service p)) m n F →
  ∃ resps p' h', process_calls p calls h = Some ((Ok <$> resps, p'), h') ∧ length resps = length calls.
Proof.
  induction calls as [|[[[req rpc] clock] now] calls IH]; intros p h m n F Hp Hr; cbn [process_calls].
  { by exists [], p, h. }
  destruct (@serve_rpc_run _ _ _ _ _ laws (pr_service p) rpc h m n F Hr)
    as (resp & s' & h1 & rs & m1 & n1 & F1 & R1 & Hr1 & _).
  unfold process_call. rewrite Hp, bind_bind, (bind_run _ _ _ _ _ R1). cbn beta iota.
  set (p1 := mkProcess _ _ _ _ _).
  destruct (IH p1 h1 m1 n1 F1 eq_refl Hr1) as (resps & p' & h' & R & Hl).
  exists (resp :: resps), p', h'. split; [|cbn; lia]. 
  unfold mbind, M_bind. cbn [mret M_ret]. fold p1. by rewrite R.
Qed.

(** C28: how the process comes up once its two ports parse: it always gets to an
    end of its start.  It exits exactly when the file exists and its second
    reading is not a valid configuration or the file cannot be watched;
    otherwise, when the file exists, the interceptor enforces that configuration
    over an empty engine of its own; when it does not exist every call of every
    client is answered by the service, unfiltered.  The XDP program runs only for a configuration of
    the first reading that enables it, and no failure of it stops the
    process, also under [fail_closed]. *)
Theorem process_start_cases from_str host env fs metrics grpc :
  let path := config_path env in
  socket_v4_from_str (any_address (env_or env "METRICS_PORT" "9091")) = Some metrics →
  socket_v4_from_str (any_address (env_or env "GRPC_PORT" "50052")) = Some grpc →
  ∃ r h, process_start from_str host env fs empty_heap = Some (r, h) ∧
    match r with
    | Err e => fs_exists fs path = true ∧
        ((∃ ce, e = BadWatcher (WatchConfig ce) ∧ from_file (fs_watcher fs) from_str path = Err ce) ∨
         (∃ cfg ne, e = BadWatcher (WatchNotify ne) ∧ from_file (fs_watcher fs) from_str path = Ok cfg ∧
            (ns_recommended_watcher (fs_notify fs) = Err ne ∨
             ns_recommended_watcher (fs_notify fs) = Ok tt ∧ ns_watch (fs_notify fs) path = Err ne)))
    | Ok p =>
        pr_metrics_addr p = metrics ∧ pr_grpc_addr p = grpc ∧
        (if fs_exists fs path
         then ∃ cfg e F, from_file (fs_watcher fs) from_str path = Ok cfg ∧ valid cfg ∧
                ns_recommended_watcher (fs_notify fs) = Ok tt ∧ ns_watch (fs_notify fs) path = Ok tt ∧
                pr_interceptor p = Some (watched_interceptor_new (state_from_config cfg) e) ∧ rep h e ∅ 0 F
         else ∀ calls, ∃ resps p' h',
                process_calls p calls h = Some ((Ok <$> resps, p'), h') ∧ length resps = length calls) ∧
        (∀ t, pr_xdp p = Some t → ∃ cfg c, from_file (fs_sidecar fs) from_str path = Ok cfg ∧
           embedded_config env (root_xdp (radixip cfg)) = Some c ∧ start_runtime c = Ok t)
    end.
Proof.
  intros path Hm Hg. unfold process_start, server_engine. cbv zeta. rewrite Hm, Hg.
  destruct (wrapper_new_compressed host Standard AtomicRadixNode_v None empty_heap ltac:(done) heap_wf_empty)
    as (e1 & h1 & F & R1 & Hr1 & Hev1).
  rewrite (bind_run _ _ _ _ _ R1). cbn beta. fold path. set (xdp := match from_file _ _ path with Ok _ => _ | _ => _ end).
  assert (∀ t, xdp = Some t → ∃ cfg c, from_file (fs_sidecar fs) from_str path = Ok cfg ∧
    embedded_config env (root_xdp (radixip cfg)) = Some c ∧ start_runtime c = Ok t) as Hx.
  { intros t. subst xdp. destruct (from_file (fs_sidecar fs) from_str path) as [cfg|]; [|done].
    unfold start_embedded_xdp. intros (c & Hc & Hs)%bind_Some. exists cfg, c.
    destruct (start_runtime c) as [t'|]; [|done]. by simplify_eq. }
  destruct (fs_exists fs path).
  - unfold watcher_new. destruct (from_file (fs_watcher fs) from_str path) as [cfg|ce] eqn:Hf.
    + destruct (ns_recommended_watcher (fs_notify fs)) as [[]|ne] eqn:Hrw;
        [|eexists _, h1; split; [done|]; split; [done|]; right; exists cfg, ne; auto].
      destruct (ns_watch (fs_notify fs) path) as [[]|ne] eqn:Hwt;
        [|eexists _, h1; split; [done|]; split; [done|]; right; exists cfg, ne; auto].
      destruct (wrapper_new_compressed host Standard AtomicRadixNode_v None h1 ltac:(done) (ev_wf _ _ _ _ Hev1))
        as (e2 & h2 & G & R2 & Hr2 & _).
      rewrite (bind_run _ _ _ _ _ R2). eexists _, h2. split; [done|]. split_and!; [done|done| |done].
      exists cfg, e2, G. split_and!; [done|by apply from_file_valid in Hf as [? _]|done..].
    + eexists _, h1. split; [done|]. split; [done|]. left. by exists ce.
  - eexists _, h1. split; [done|]. split_and!; [done|done| |done].
    intros calls. by eapply (process_calls_bare calls).
Qed.
End start_facts.
