(* ===== verification/KitchenSink.v ===== *)
(** * The demonstration server (cmd/kitchen-sink-rust/src/main.rs)

    Three servers in one process (Axum, Actix-Web, gRPC) behind the watched
    adapters, all on one engine and one [ConfigWatcher]. *)

From S2P Require Import Prelude Addr Lpm DashMap Node Heap RouteTree Engine Cache TokenBucket Config Str IpExtractor.
From S2P Require Import Limiter RouteTrie AutoBan Policy Watcher Adapters Server.

Local Open Scope Z_scope.

(** ** The gRPC service *)

Inductive TonicCode := Unimplemented.

Inductive KitchenReply :=
  | KOk (r : RpcResponse)
  | KStatus (code : TonicCode) (message : string).

Definition unimplemented (name : string) : KitchenReply :=
  KStatus Unimplemented ("kitchen-sink " +:+ name +:+ " is not implemented").

(** [KitchenGrpcService]: only [Lookup] answers, and finds nothing. *)
Definition kitchen_rpc (rpc : Rpc) : KitchenReply :=
  match rpc with
  | RInsert _ => unimplemented "Insert"
  | RLookup _ => KOk (PLookup (mkFound false None))
  | RRemove _ => unimplemented "Remove"
  | RContains _ => unimplemented "Contains"
  | RClear => unimplemented "Clear"
  | RGetStats => unimplemented "GetStats"
  | RStreamInsert _ _ => unimplemented "StreamInsert"
  end.

Section kitchen.
Context `{HttpCrate} `{IpNetworkCrate} `{DashMapCrate} `{MokaCrate} `{InstantRange}.
Context {E : Type} `{!RadixEngine E}.

(** ** Routes *)

(** The handler's text, when a handler is reached.  A route of Axum's [get]
    also takes HEAD. *)
Definition axum_get (method : string) : bool := String.eqb method "GET" || String.eqb method "HEAD".

Definition axum_route (method path : string) : option string :=
  if String.eqb path "/health" && axum_get method then Some "ok"%string
  else if String.eqb path "/api/v1/public" && axum_get method then Some "axum public ok"%string
  else if String.eqb path "/api/v1/auth" && axum_get method then Some "axum auth get ok"%string
  else if String.eqb path "/api/v1/auth" && String.eqb method "POST" then Some "axum auth post ok"%string
  else None.

Definition actix_route (method path : string) : option string :=
  if String.eqb path "/health" && String.eqb method "GET" then Some "ok"%string
  else if String.eqb path "/api/v1/public" && String.eqb method "GET" then Some "actix public ok"%string
  else if String.eqb path "/api/v1/auth" && String.eqb method "GET" then Some "actix auth get ok"%string
  else if String.eqb path "/api/v1/auth" && String.eqb method "POST" then Some "actix auth post ok"%string
  else None.

(** ** The process *)

(** Both reads of the file happen before anything is served. *)
Definition kitchen_start (notify : NotifyStart string) (read1 read2 : string → Result string string)
    (from_str : string → Result RadixIpConfig string) (new_high_performance : M E)
    : M (Result (WatchedService E) WatcherError) :=
  match from_file read1 from_str "config/radixip.yaml" with
  | Err e => mret (Err (WatchConfig e))
  | Ok _ =>
      engine ← new_high_performance;
      match watcher_new from_str notify "config/radixip.yaml"%string true read2 with
      | Err e => mret (Err e)
      | Ok st => mret (Ok (mkWatched st engine))
      end
  end.

(** A request on one of the three ports; the gRPC calls carry their message. *)
Inductive Arrival := OnAxum | OnActix | OnGrpc (rpc : Rpc).

Inductive KitchenResponse :=
  | Denied (r : Response)          (* answered by the adapter *)
  | Page (body : option string)    (* the route's text, or no such route *)
  | Rpc_ (r : KitchenReply).

Definition kitchen_serve (ws : WatchedService E) (a : Arrival) (req : Request) (clock : nat → Z) (now0 now : Z)
    : M (KitchenResponse * WatchedService E) :=
  '(v, ws') ← match a with
              | OnAxum => axum_watched_call ws req clock now0 now
              | OnActix => actix_watched_call ws req clock now0 now
              | OnGrpc _ => grpc_watched_call ws req clock now
              end;
  match v with
  | Reply r => mret (Denied r, ws')
  | Forward =>
      mret (match a with
            | OnAxum => Page (axum_route (rq_method req) (rq_path req))
            | OnActix => Page (actix_route (rq_method req) (rq_path req))
            | OnGrpc rpc => Rpc_ (kitchen_rpc rpc)
            end, ws')
  end.

(** What ctrl-c does to the three servers: the signal is sent only when it
    could be listened for, and [main] then waits for all of them. *)
Definition kitchen_shutdown (ctrl_c : Result unit string) : bool :=
  match ctrl_c with Ok _ => true | Err _ => false end.

(** Where an adapter looks for the peer address. *)
Definition remote_of (a : Arrival) (req : Request) : option SocketAddr :=
  match a with
  | OnAxum => rq_ext_connect req
  | OnActix => rq_peer_addr req
  | OnGrpc _ => rq_ext_socket req
  end.
End kitchen.

Section blocked.
Context `{HttpCrate} `{IpNetworkCrate} `{!IpNetworkLaws} `{DashMapCrate} `{MokaCrate} `{InstantRange}.
Context {E : Type} `{!RadixEngine E} `{!RadixEngineLaws E}.

(** An address that the shared engine knows is refused on every port: with the
    blocklist on, whatever answer the engine has for it, neither a route nor
    the gRPC service is reached, and no token is taken (the paths of the
    probes are exempt on the two HTTP ports). *)
Theorem kitchen_blocks_everywhere h ws m n F a req ip clock now0 now :
  re_rep h (ws_engine ws) m n F →
  (∀ r, re_answers m ip r → is_Some r) →
  bl_enabled (st_blocklist (ws_state ws)) = true →
  is_probe (rq_path req) = false →
  ws_extract ws req (remote_of a req) = Ok ip →
  ∃ r ws', kitchen_serve ws a req clock now0 now h = Some ((Denied r, ws'), h) ∧
    res_status r = blocked_status (st_responses (ws_state ws)) ∧ ws_state ws' = ws_state ws.
Proof.
  intros Hr Hknown Hbl Hp Hx.
  destruct (re_lookup_spec h _ m n F ip Hr) as (r & e' & R & _ & Ha).
  destruct (Hknown r Ha) as [md ->].
  assert (ws_blocked ws ip h = Some ((true, mkWatched (ws_state ws) e'), h)) as Hb.
  { unfold ws_blocked. rewrite Hbl, (bind_run _ _ _ _ _ R). done. }
  unfold kitchen_serve. destruct a as [| |rpc]; cbn [remote_of] in Hx.
  - unfold axum_watched_call, probe_watched_call. rewrite Hp, Hx.
    destruct (ws_banned ws ip now0).
    + eexists _, _. split_and!; done.
    + rewrite bind_bind, (bind_run _ _ _ _ _ Hb). eexists _, _. split_and!; done.
  - unfold actix_watched_call, probe_watched_call. rewrite Hp, Hx.
    destruct (ws_banned ws ip now0).
    + eexists _, _. split_and!; done.
    + rewrite bind_bind, (bind_run _ _ _ _ _ Hb). eexists _, _. split_and!; done.
  - unfold grpc_watched_call. rewrite Hx, bind_bind, (bind_run _ _ _ _ _ Hb). eexists _, _. split_and!; done.
Qed.
End blocked.
