(* ===== verification/Witness.v ===== *)
(** * Witnesses

    Every theorem with hypotheses applied at concrete inputs: networks of the
    reference model of the [ipnetwork] crate, the reference [dashmap] and
    [moka], and small concrete engines. *)

From Stdlib Require Import Ascii.
From S2P Require Import Prelude Addr Lpm DashMap Node Heap RouteTree Trie Patricia Engine Engines Cache Simd TokenBucket Config Str IpExtractor Limiter RouteTrie AutoBan Policy Watcher.

Local Open Scope Z_scope.

#[local] Existing Instance RefNetwork.crate.
#[local] Existing Instance RefNetwork.laws.
#[local] Existing Instance RefDashMap.crate.
#[local] Existing Instance RefDashMap.laws.
#[local] Existing Instance RefMoka.crate.
#[local] Existing Instance RefMoka.retains.
#[local] Existing Instance RefMoka.laws.
#[local] Existing Instance RefHashOrder.order.
#[local] Existing Instance RefHashOrder.laws.

(** ** Concrete data *)

(** 10.0.0.0/8, 10.1.0.0/16, 0.0.0.0/0, ::/0, 2001:db8::/32, ff00::/8 *)
Definition w_net10 : Ipv4Network := exist _ (0x0a000000, 8) I.
Definition w_net172 : Ipv4Network := exist _ (0xac000000, 8) I.
Definition w_net101 : Ipv4Network := exist _ (0x0a010000, 16) I.
Definition w_any4 : Ipv4Network := exist _ (0, 0) I.
Definition w_any6 : Ipv6Network := exist _ (0, 0) I.
Definition w_doc6 : Ipv6Network := exist _ (0x20010db8000000000000000000000000, 32) I.
Definition w_mcast6 : Ipv6Network := exist _ (0xff000000000000000000000000000000, 8) I.

(** 10.1.2.3 and 2001:db8::42 *)
Definition w_ip4 : IpAddr := V4 0x0a010203.
Definition w_ip6 : IpAddr := V6 0x20010db8000000000000000000000042.

Definition w_md1 : Metadata := Metadata.new "office".
Definition w_md2 : Metadata := Metadata.new "lab".

Definition w_ops : list op :=
  [OpInsert (NetV4 w_net10) w_md1; OpInsert (NetV4 w_net101) w_md2; OpLookup w_ip4;
   OpRemove (NetV4 w_net101); OpLookup w_ip4; OpClear].

(** ** The trees *)

Lemma uncompressed_tree_refines_witness :
  ∃ t h0 rs h1 m, trie_new NormalTrieNode_v empty_heap = Some (t, h0) ∧
    run_ops t w_ops h0 = Some (rs, h1) ∧
    spec_steps net_bits (λ m ip r, r = LPM_lookup (entries m) ip) keep_default ∅ w_ops rs m.
Proof. exact (uncompressed_tree_refines NormalTrieNode_v w_ops). Defined.

Lemma compressed_tree_refines_witness :
  ∃ t h0 rs h1 m, patricia_new AtomicRadixNode_v empty_heap = Some (t, h0) ∧
    run_ops t w_ops h0 = Some (rs, h1) ∧ spec_steps pkey sound_answer (λ _, ∅) ∅ w_ops rs m.
Proof. exact (compressed_tree_refines AtomicRadixNode_v w_ops). Defined.

Lemma trie_insert_then_lookup_witness :
  ∃ h t F b h' h'' q mdq, trie_rep h t ∅ F ∧
    trie_insert t (NetV4 w_net10) w_md1 h = Some (Ok b, h') ∧
    trie_lookup t w_ip4 h' = Some (Some mdq, h'') ∧
    (q, mdq) ∈ entries (<[net_bits (NetV4 w_net10) := (NetV4 w_net10, w_md1)]> ∅) ∧
    network_contains_ip q w_ip4 = true ∧ net_prefix (NetV4 w_net10) ≤ net_prefix q.
Proof.
  destruct (trie_new_refines empty_heap NormalTrieNode_v heap_wf_empty) as (t & h & F & _ & _ & Hr & _).
  destruct (trie_insert_then_lookup h t ∅ F (NetV4 w_net10) w_md1 w_ip4 Hr eq_refl)
    as (b & h' & h'' & q & mdq & Hout).
  by exists h, t, F, b, h', h'', q, mdq.
Defined.

Lemma trie_cross_family_overwrite_witness :
  ∃ t h0 h1, trie_new LockFreeTrieNode_v empty_heap = Some (t, h0) ∧
    run_ops t [OpInsert (NetV4 w_any4) w_md1; OpLookup w_ip4; OpInsert (NetV6 w_any6) w_md2;
               OpLookup w_ip4; OpContains (NetV4 w_any4)] h0 =
    Some ([RInsert (Ok true); RMeta (Some w_md1); RInsert (Ok false); RMeta None; RBool true], h1).
Proof.
  apply (trie_cross_family_overwrite LockFreeTrieNode_v (NetV4 w_any4) (NetV6 w_any6) w_md1 w_md2 w_ip4);
    reflexivity.
Defined.

Lemma compressed_v4_collision_witness :
  ∃ t h0 h1, patricia_new NormalRadixNode_v empty_heap = Some (t, h0) ∧
    run_ops t [OpInsert (NetV4 w_net10) w_md1; OpInsert (NetV4 w_net172) w_md2; OpLookup (V4 0);
               OpContains (NetV4 w_net10)] h0 =
    Some ([RInsert (Ok true); RInsert (Ok false); RMeta (Some w_md2); RBool true], h1).
Proof.
  apply (compressed_v4_collision NormalRadixNode_v w_net10 w_net172 w_md1 w_md2 0); reflexivity.
Defined.

Lemma compressed_blank_junction_witness :
  ∃ t h0 h1, patricia_new NormalRadixNode_v empty_heap = Some (t, h0) ∧
    run_ops t [OpInsert (NetV6 w_doc6) w_md1; OpInsert (NetV6 w_mcast6) w_md2; OpLookup w_ip6;
               OpContains (NetV6 w_doc6); OpContains (NetV6 w_mcast6)] h0 =
    Some ([RInsert (Ok true); RInsert (Ok true); RMeta None; RBool true; RBool true], h1).
Proof.
  eapply (compressed_blank_junction NormalRadixNode_v (NetV6 w_doc6) (NetV6 w_mcast6) w_md1 w_md2
    _ _ w_ip6); vm_compute; reflexivity.
Defined.


(** ** The engines *)

Lemma standard_engine_refines_witness :
  ∃ rs m n, session (uncompressed_standard PaddedTrieNode_v) w_ops = Some (rs, n) ∧
    engine_steps net_bits lpm_answers keep_default (∅, 0) w_ops rs (m, n).
Proof. exact (standard_engine_refines PaddedTrieNode_v w_ops). Defined.

Lemma sharded_equals_standard_witness :
  is_Some (session (uncompressed_standard AtomicTrieNode_v) w_ops) ∧
  session (uncompressed_sharded AtomicTrieNode_v 16) w_ops =
  session (uncompressed_standard AtomicTrieNode_v) w_ops.
Proof. apply (sharded_equals_standard AtomicTrieNode_v 16 w_ops). lia. Defined.

Lemma compressed_engine_size_witness :
  ∃ rs m n, session (compressed_sharded AtomicRadixNode_v 16) w_ops = Some (rs, n) ∧
    engine_steps pkey sound_answer (λ _, ∅) (∅, 0) w_ops rs (m, n) ∧
    n = wrap 64 (Z.of_nat (size m)).
Proof. apply (compressed_engine_size AtomicRadixNode_v 16 w_ops). lia. Defined.

Lemma size_wraps_after_clear_witness :
  session (uncompressed_standard NormalTrieNode_v)
    [OpInsert (NetV4 w_any4) w_md1; OpClear; OpRemove (NetV4 w_any4)] =
  Some ([RDone (Ok tt); RUnit; RMeta (Some w_md1)], 2 ^ 64 - 1).
Proof. apply (size_wraps_after_clear NormalTrieNode_v (NetV4 w_any4) w_md1). reflexivity. Defined.

(** ** The caches *)

Lemma memory_cache_spec_witness :
  let cfg := Cache.mkCacheConfig 2 (Some 3600) in
  let os := [Memory.CInsert w_ip4 1 0; Memory.CInsert w_ip6 2 0; Memory.CInsert (V4 0) 3 0] in
  let c := foldl Memory.cache_step (Memory.new cfg) os in
  Z.of_nat (size (Memory.cache c)) ≤ 2 ∧
  (Memory.get (Memory.insert c w_ip4 7 10) w_ip4 20).1 = Some 7.
Proof.
  destruct (Memory.memory_cache_spec (Cache.mkCacheConfig 2 (Some 3600))
    [Memory.CInsert w_ip4 1 0; Memory.CInsert w_ip6 2 0; Memory.CInsert (V4 0) 3 0]
    w_ip4 7 10 20 (λ _, true)) as (Hs & Hg & _); [simpl; lia|].
  split; [exact Hs|exact Hg].
Defined.

(** A Redis that is a map of strings and never persists hashes, and text forms
    that keep the value of a metadata only; enough for one metadata. *)
#[local] Instance w_redis : RedisCrate := {|
  Redis := gmap string string;
  r_get r k := Ok (r !! k);
  r_set r k v := Ok (<[k := v]> r);
  r_hset r k f v := Ok r;
  r_hdel r k f := Ok r;
  r_hgetall r k := Ok [];
|}.

#[local] Instance w_redis_laws : RedisLaws.
Proof.
  split.
  - intros r k v. eexists. split; [done|]. simpl. by rewrite lookup_insert_eq.
  - by intros r k f v r' k' [= <-].
  - by intros r k f r' k' [= <-].
Qed.

(** A text form of metadata: the digits of its number in an enumeration. *)
Fixpoint w_digits (p : positive) : string :=
  match p with
  | xH => EmptyString
  | xO p => String "0"%char (w_digits p)
  | xI p => String "1"%char (w_digits p)
  end.
Fixpoint w_number (s : string) : positive :=
  match s with
  | EmptyString => xH
  | String c s => if Ascii.eqb c "0"%char then xO (w_number s) else xI (w_number s)
  end.

Lemma w_number_digits p : w_number (w_digits p) = p.
Proof. by induction p as [p IH|p IH|]; simpl; rewrite ?IH. Qed.

#[local] Instance w_text : TextForms := {|
  metadata_to_json md := Ok (w_digits (encode (value md, attributes md)));
  metadata_from_json s :=
    match decode (w_number s) with
    | Some (v, a) => Ok (mkMetadata v a)
    | None => Err "invalid"%string
    end;
  network_to_string _ := "network"%string;
  network_from_string _ := Err "invalid"%string;
  ip_to_string ip := w_digits (encode ip);
|}.

#[local] Instance w_json_laws : JsonLaws.
Proof.
  intros [v a]. eexists. split; [done|]. simpl. rewrite w_number_digits, decode_encode. done.
Qed.

Lemma cached_engine_transparent_witness :
  ∃ t h0 c rs e1 h1 c2 h2, trie_new AtomicTrieNode_v empty_heap = Some (t, h0) ∧
    engine_ops (standard_new t) w_ops h0 = Some ((rs, e1), h1) ∧
    cached_new (standard_new t) (Cache.mkCacheConfig 100 None) None h0 = Some (c, h0) ∧
    engine_ops c w_ops h0 = Some ((rs, c2), h2) ∧ re_size c2 = re_size e1.
Proof.
  apply (cached_engine_transparent AtomicTrieNode_v (Cache.mkCacheConfig 100 None) true w_ops).
  repeat constructor.
Defined.

Lemma cached_redis_stale_witness :
  ∃ t h0 c c2 h2, trie_new NormalTrieNode_v empty_heap = Some (t, h0) ∧
    cached_new (standard_new t) (Cache.mkCacheConfig 100 None) (Some ∅) h0 = Some (c, h0) ∧
    engine_ops c [OpInsert (NetV4 w_net10) w_md1; OpLookup w_ip4; OpRemove (NetV4 w_net10);
                  OpContains (NetV4 w_net10); OpLookup w_ip4] h0 =
    Some (([RDone (Ok tt); RMeta (Some w_md1); RMeta (Some w_md1); RBool false;
            RMeta (Some w_md1)], c2), h2).
Proof.
  apply (cached_redis_stale NormalTrieNode_v (Cache.mkCacheConfig 100 None) (∅ : Redis)
    (NetV4 w_net10) w_md1 w_ip4); reflexivity.
Defined.

(** ** SIMD search *)

Definition w_keys : list Z := [3; 1; 4; 15; 9; 2; 6; 5; 35; 8; 97; 93; 23; 84; 62; 64].

Lemma simd_find_child_spec_witness :
  simd_find_child (X86_64 true true) w_keys 9 5 = Some (Some 4%nat) ∧
  simd_find_child (X86_64 true true) w_keys 9 5 = Some (first_index (take 5 w_keys) 9).
Proof.
  split; [reflexivity|]. apply (simd_find_child_spec (X86_64 true true) w_keys 9 5); [done|lia|done].
Defined.

Lemma neon_find_child_spec_witness :
  simd_find_child AArch64 w_keys 9 5 = Some (first_index (take 5 w_keys) 9).
Proof. apply (neon_find_child_spec w_keys 9 5); [done|lia]. Defined.

(** ** The token bucket *)

Lemma pack_unpack_roundtrip_witness :
  unpack (pack 1700000000 99000) = (1700000000, 99000) ∧ pack (unpack 12345).1 (unpack 12345).2 = 12345.
Proof. apply (pack_unpack_roundtrip 1700000000 99000 12345); split; lia. Defined.

Lemma token_bucket_rate_bound_witness :
  ∃ v bs v', bucket_new 100 2 = Some v ∧
    run_allow 2 1 [100; 100; 100; 101; 103] v = Some (bs, v') ∧
    Z.of_nat (count_true bs) ≤ 2 + 1 * (103 - 100).
Proof.
  eexists _, _, _. split; [reflexivity|]. split; [vm_compute; reflexivity|].
  eapply (token_bucket_rate_bound 2 1 100 [100; 100; 100; 101; 103] 103);
    [lia|repeat constructor; lia|repeat constructor; lia|reflexivity|vm_compute; reflexivity].
Defined.

Lemma token_bucket_live_witness :
  is_Some (allow 5 1 7 (pack 100 0)) ∧ ∃ v', allow 5 1 101 (pack 100 0) = Some (true, v') ∧ bts v' = 101.
Proof.
  destruct (token_bucket_live 5 1) as [Htotal Hlive]; [lia|lia|]. split; [apply Htotal|].
  apply (Hlive ltac:(lia) ltac:(lia) 101 (pack 100 0)); [reflexivity|split; lia].
Defined.

Lemma token_bucket_burst_witness :
  ∃ v v', bucket_new 100 3 = Some v ∧
    run_allow 3 1 (replicate 5 100) v = Some ([true; true; true; false; false], v').
Proof.
  destruct (token_bucket_burst 3 1 100 5 (pack 100 3000)) as [v' Hv'];
    [split; lia|lia|lia|reflexivity|].
  exists (pack 100 3000), v'. split; [reflexivity|exact Hv'].
Defined.

Lemma token_bucket_no_double_spend_witness :
  ∃ c, rtc (bstep (λ now, now = 100) 2000 1000)
         (mkConf (pack 100 2000) {[ 0%nat := Idle; 1%nat := Idle ]} 0) c ∧
       bc_granted c = 2%nat ∧ 1000 * Z.of_nat (bc_granted c) + btok (bc_state c) = 2000.
Proof.
  assert (∃ c, rtc (bstep (λ now, now = 100) 2000 1000)
    (mkConf (pack 100 2000) {[ 0%nat := Idle; 1%nat := Idle ]} 0) c ∧ bc_granted c = 2%nat)
    as (c & Hc & Hg).
  { eexists. split.
    - eapply rtc_l; [apply (b_call _ _ _ _ _ _ 0%nat 100); reflexivity|].
      eapply rtc_l; [apply (b_call _ _ _ _ _ _ 1%nat 100); reflexivity|].
      eapply rtc_l; [eapply (b_load _ _ _ _ _ _ 0%nat); [reflexivity|vm_compute; reflexivity]|].
      eapply rtc_l; [eapply (b_load _ _ _ _ _ _ 1%nat); [reflexivity|vm_compute; reflexivity]|].
      eapply rtc_l; [eapply (b_cas_ok _ _ _ _ _ _ 1%nat); reflexivity|].
      eapply rtc_l; [eapply (b_cas_fail _ _ _ _ _ _ 0%nat); [reflexivity|vm_compute; discriminate]|].
      eapply rtc_l; [eapply (b_load _ _ _ _ _ _ 0%nat); [reflexivity|vm_compute; reflexivity]|].
      eapply rtc_l; [eapply (b_cas_ok _ _ _ _ _ _ 0%nat); reflexivity|]. apply rtc_refl.
    - done. }
  exists c. split_and!; [done|done|].
  apply (token_bucket_no_double_spend 100 2000 1000 (pack 100 2000)
    {[ 0%nat := Idle; 1%nat := Idle ]} c); [split; lia|split; lia|lia|reflexivity|done| |done].
  apply map_Forall_insert_2; [done|]. by apply map_Forall_singleton.
Defined.

(** ** Extraction, limits and routes *)

Lemma xff_prefix_irrelevant_witness :
  extract_ip (Some "1.2.3.4,203.0.113.5, 10.0.0.1"%string) None None [NetV4 w_net10] =
  extract_ip (Some "203.0.113.5, 10.0.0.1"%string) None None [NetV4 w_net10].
Proof.
  apply (xff_prefix_irrelevant "1.2.3.4" "203.0.113.5, 10.0.0.1" None None [NetV4 w_net10]).
  vm_compute. by eexists.
Defined.

Lemma truncate_to_prefix_spec_witness :
  ∃ n n', truncate_to_prefix w_ip4 24 64 = Some n ∧ truncate_to_prefix (V4 0x0a0102ff) 24 64 = Some n' ∧
    net_prefix n = 24 ∧ net_contains n w_ip4 = true ∧
    (n = n' ↔ take 24 (ip_bits w_ip4) = take 24 (ip_bits (V4 0x0a0102ff))).
Proof.
  apply (truncate_to_prefix_spec w_ip4 (V4 0x0a0102ff) 24 64); [split; simpl; lia|split; simpl; lia|done|lia|lia].
Defined.

Definition w_limit : RateLimitConfig := mkRateLimit true TokenBucketAlgorithm Ip 2 1 1000 60.
Definition w_reqs : list (BucketKey * (Z * Z)) :=
  [(Exact w_ip4, (100, 100)); (Exact w_ip6, (100, 101)); (Exact w_ip4, (101, 101)); (Exact w_ip4, (101, 101))].

Lemma limiter_isolation_witness :
  ∃ bs l', consume_all (limiter_new w_limit) w_reqs = Some (bs, l') ∧ length bs = length w_reqs ∧
    ∀ k, private_run w_limit None (calls_of k w_reqs) = Some (answers_of k w_reqs bs, bucket_of l' k).
Proof. apply (limiter_isolation w_limit w_reqs). split; simpl; lia. Defined.

Lemma route_insert_match_witness :
  let t' := route_insert route_trie_new "/api/v1" ["get"%string; "POST"%string] w_limit in
  match_route t' "GET" "/api/v1" = Some 1%positive ∧
  rt_limiters t' !! 1%positive = Some (limiter_new w_limit).
Proof.
  apply (route_insert_match route_trie_new "/api/v1" ["get"%string; "POST"%string] w_limit "get" "GET");
    [set_solver|reflexivity].
Defined.

Lemma match_route_sound_witness :
  let t := route_insert route_trie_new "/api/*" [] w_limit in
  ∃ pat n, node_at (rt_root t) pat = Some n ∧ covers pat (split_path "/api/v1/users") ∧
    (limiters n !! "GET"%string = Some 1%positive ∨ limiters n !! EmptyString = Some 1%positive).
Proof.
  intros t. apply (match_route_sound t "get" "/api/v1/users" 1%positive). vm_compute. reflexivity.
Defined.

(** ** Bans and the policy engine *)

#[local] Instance w_instants : InstantRange := {| min_instant := 0; max_instant := 2 ^ 80 |}.

Definition w_ban : AutoBanConfig := mkAutoBan true 2 60 3600.

Lemma w_standard :
  ∃ t h F, trie_new NormalTrieNode_v empty_heap = Some (t, h) ∧
    re_rep h (standard_new t) (∅ : table) 0 F.
Proof.
  destruct (trie_new_refines empty_heap NormalTrieNode_v heap_wf_empty) as (t & h & F & Hn & _ & Hr & _).
  exists t, h, F. by split.
Qed.

Lemma auto_ban_burst_witness :
  ∃ t h p bs t' e' h', trie_new NormalTrieNode_v empty_heap = Some (t, h) ∧ host_prefix w_ip4 = Some p ∧
    record_all (tracker_new w_ban) (standard_new t) w_ip4
      [10 ^ 12; 10 ^ 12 + 1; 10 ^ 12 + 2] h = Some ((bs, t', e'), h') ∧
    bs = [false; true; false].
Proof.
  destruct w_standard as (t & h & F & Hn & Hr).
  destruct (auto_ban_burst w_ban h (standard_new t) ∅ 0 F w_ip4 (10 ^ 12)
    [10 ^ 12; 10 ^ 12 + 1; 10 ^ 12 + 2] Hr) as (p & bs & t' & e' & h' & m' & n' & F' & Hp & R & _ & Hbs & _).
  - split; simpl; lia.
  - simpl. lia.
  - simpl. unfold nanos_per_sec. lia.
  - simpl. unfold nanos_per_sec. repeat constructor; simpl; lia.
  - exists t, h, p, bs, t', e', h'. split_and!; [done|done|done|]. by rewrite Hbs.
Defined.

Definition w_banned : DashMap IpAddr Z := dm_insert (dm_insert dm_new w_ip4 100) w_ip6 300.

Lemma sweep_once_spec_witness :
  ∃ t h bs' e' h', trie_new NormalTrieNode_v empty_heap = Some (t, h) ∧
    sweep_once w_banned (standard_new t) 200 h = Some ((bs', e'), h') ∧
    ∀ ip x, dm_get bs' ip = Some x ↔ dm_get w_banned ip = Some x ∧ 200 < x.
Proof.
  destruct w_standard as (t & h & F & Hn & Hr).
  destruct (sweep_once_spec w_banned h (standard_new t) ∅ 0 F 200 Hr)
    as (bs' & e' & h' & m' & n' & F' & R & _ & Hbs & _).
  - intros ip x. unfold w_banned. rewrite !dm_get_insert. repeat case_decide; subst; [|..].
    + intros _. split; simpl; lia.
    + intros _. split; simpl; lia.
    + by rewrite dm_get_new.
  - by exists t, h, bs', e', h'.
Defined.

Lemma sweeper_race_permanent_ban_witness :
  ∃ evs s, ban_steps 3600 (sys_init 0) evs s ∧ sys_pending s = [] ∧ sys_sweeper s = Sleeping ∧
    dm_get (sys_banned s) w_ip4 = None ∧
    ∀ evs' s', ban_steps 3600 s evs' s' → Some w_ip4 ∉ evs' →
      w_ip4 ∈ sys_routes s' ∧ dm_get (sys_banned s') w_ip4 = None.
Proof. apply (sweeper_race_permanent_ban 3600 0 w_ip4). lia. Defined.

Lemma sweeper_race_lost_ban_witness :
  ∃ evs s x, ban_steps 3600 (sys_init 0) evs s ∧ sys_pending s = [] ∧ sys_sweeper s = Sleeping ∧
    dm_get (sys_banned s) w_ip4 = Some x ∧ sys_now s < x ∧ w_ip4 ∉ sys_routes s.
Proof. apply (sweeper_race_lost_ban 3600 0 w_ip4). lia. Defined.

(** A policy engine whose buckets hold no token and whose first violation bans. *)
Definition w_policy (t : UncompressedTree) (cfg : RateLimitConfig) (blocklist : bool)
    : PolicyEngine (StandardEngine UncompressedTree) :=
  with_auto_ban (policy_new (standard_new t) MiddlewareConfig_default cfg blocklist)
    (tracker_new (mkAutoBan true 1 60 3600)).
Definition w_empty : RateLimitConfig := mkRateLimit true TokenBucketAlgorithm Ip 0 1 1000 60.
Definition w_addr : option SocketAddr := Some (mkSocketAddr w_ip4 443).
Definition w_clock (_ : nat) : Z := 100.

Lemma w_addr_wf a : w_addr = Some a → ip_wf (sa_ip a).
Proof. intros [= <-]. split; simpl; lia. Qed.

Lemma w_policy_time t cfg b tr :
  pe_auto_ban (w_policy t cfg b) = Some tr → 10 ^ 12 + ban_duration tr ≤ max_instant.
Proof. intros [= <-]. simpl. unfold nanos_per_sec. lia. Qed.

Lemma check_decision_spec_witness :
  ∃ t h F d p' h' m' n' F', trie_new NormalTrieNode_v empty_heap = Some (t, h) ∧
    let p := w_policy t w_limit true in
    re_rep h (pe_engine p) ∅ 0 F ∧
    check p None None w_addr w_clock (10 ^ 12) h = Some ((d, p'), h') ∧
    re_rep h' (pe_engine p') m' n' F' ∧ check_outcome p ∅ w_ip4 w_clock (10 ^ 12) d p' m'.
Proof.
  destruct w_standard as (t & h & F & Hn & Hr).
  destruct (check_decision_spec h (w_policy t w_limit true) ∅ 0 F None None w_addr w_clock (10 ^ 12) Hr
    w_addr_wf) as (d & p' & h' & m' & n' & F' & R & Hr' & _ & Hout).
  - apply limiter_inv_new.
  - split; simpl; lia.
  - reflexivity.
  - apply w_policy_time.
  - by exists t, h, F, d, p', h', m', n', F'.
Defined.

Lemma check_ip_agrees_witness :
  ∃ t h, trie_new NormalTrieNode_v empty_heap = Some (t, h) ∧
    check_ip (w_policy t w_limit true) w_ip4 w_clock (10 ^ 12) h =
    check (w_policy t w_limit true) None None w_addr w_clock (10 ^ 12) h.
Proof.
  destruct w_standard as (t & h & F & Hn & Hr). exists t, h. split; [done|].
  apply (check_ip_agrees h (w_policy t w_limit true) None None w_addr w_ip4 w_clock (10 ^ 12)).
  reflexivity.
Defined.

Lemma auto_banned_then_blocked_witness :
  ∃ t h p' h' p'', trie_new NormalTrieNode_v empty_heap = Some (t, h) ∧
    check (w_policy t w_empty true) None None w_addr w_clock (10 ^ 12) h = Some ((AutoBanned, p'), h') ∧
    check p' None None w_addr w_clock (10 ^ 12) h' = Some ((Block, p''), h').
Proof.
  destruct w_standard as (t & h & F & Hn & Hr). set (p := w_policy t w_empty true).
  assert (extract_ip None None w_addr (mw_trusted_proxies (pe_middleware_cfg p)) = Ok w_ip4) as Hx by done.
  assert (ip_wf w_ip4) as Hwf by (split; simpl; lia).
  assert (limiter_inv (pe_limiter p)) as Hli by apply limiter_inv_new.
  assert (config_fits (lm_config (pe_limiter p))) as Hfit by (split; simpl; lia).
  destruct (check_run h p ∅ 0 F None None w_addr w_ip4 w_clock (10 ^ 12) Hx Hr Hwf Hli Hfit
    (w_policy_time t w_empty true))
    as (d & p' & h' & m' & n' & F' & R & _ & _ & _ & r & Ha & Hout); [done| |].
  { intros r e' _ _ Hr'. by exists e'. }
  specialize (Ha eq_refl). simpl in Ha. subst r.
  change (pe_blocklist_enabled p && is_some (LPM_lookup (entries ∅) w_ip4)) with false in Hout.
  destruct Hout as (b & Hc & _ & Hout).
  assert (fst <$> consume (pe_limiter p) (Exact w_ip4) (w_clock 0) (w_clock 1) = Some false) as Hb
    by (vm_compute; reflexivity).
  rewrite Hc in Hb. injection Hb as ->.
  unfold violation_outcome in Hout. destruct (pe_auto_ban p') as [t'|]; [|by destruct Hout].
  destruct Hout as (_ & _ & _ & _ & -> & _).
  destruct (auto_banned_then_blocked h p ∅ 0 F None None w_addr None None w_addr w_ip4 w_clock w_clock
    (10 ^ 12) (10 ^ 12) p' h' Hr eq_refl eq_refl Hli Hfit Hwf (w_policy_time t w_empty true) Hx Hx R)
    as [p'' Hb].
  by exists t, h, p', h', p''.
Defined.

Definition w_subnet : RateLimitConfig :=
  mkRateLimit true TokenBucketAlgorithm (Subnet 24 64) 2 1 1000 60.

Lemma subnet_mode_never_groups_witness :
  ∃ t h d p' h' m', trie_new NormalTrieNode_v empty_heap = Some (t, h) ∧
    check (w_policy t w_subnet true) None None w_addr w_clock (10 ^ 12) h = Some ((d, p'), h') ∧
    check_outcome (w_policy t w_subnet true) ∅ w_ip4 w_clock (10 ^ 12) d p' m'.
Proof.
  destruct w_standard as (t & h & F & Hn & Hr).
  destruct (subnet_mode_never_groups h (w_policy t w_subnet true) ∅ 0 F None None w_addr w_ip4 w_clock
    (10 ^ 12) 24 64 Hr eq_refl) as (d & p' & h' & m' & R & Hout).
  - split; simpl; lia.
  - reflexivity.
  - apply limiter_inv_new.
  - split; simpl; lia.
  - apply w_policy_time.
  - reflexivity.
  - by exists t, h, d, p', h', m'.
Defined.

Lemma packed_ip_roundtrip_witness :
  into_ip_addr (PackedIp_from w_ip6) = Some w_ip6 ∧ length (bytes (PackedIp_from w_ip6)) = 16%nat ∧
  ∀ f bs, f ≠ 4 → f ≠ 6 → into_ip_addr (mkPacked f bs) = None.
Proof. apply (packed_ip_roundtrip w_ip6). split; simpl; lia. Defined.

Definition w_routes : list RouteConfig := [mkRoute "/api/*" [] w_limit].

Lemma w_consume : ∃ b l', consume (limiter_new w_limit) (Exact w_ip4) 100 100 = Some (b, l').
Proof.
  destruct (consume_run (limiter_new w_limit) (Exact w_ip4) 100 100 (limiter_inv_new w_limit))
    as (_ & b & _ & l' & _ & _ & Hc & _); [split; simpl; lia|]. eauto.
Qed.

Lemma check_request_isolated_witness :
  ∃ t h r ph' h', trie_new NormalTrieNode_v empty_heap = Some (t, h) ∧
    let ph := mkHandle (policy_new (standard_new t) MiddlewareConfig_default w_limit false)
                (Some (build_routes w_routes)) in
    check_request ph (PackedIp_from w_ip4) "GET" "/api/users" w_clock 0 h = Some ((r, ph'), h') ∧
    pe_limiter (ph_policy ph') = pe_limiter (ph_policy ph).
Proof.
  destruct w_standard as (t & h & F & Hn & _).
  set (ph := mkHandle (policy_new (standard_new t) MiddlewareConfig_default w_limit false)
               (Some (build_routes w_routes))).
  assert (match_route (build_routes w_routes) "GET" "/api/users" = Some 1%positive) as Hm
    by (vm_compute; reflexivity).
  destruct w_consume as (b & l' & Hc).
  assert (∃ r ph', check_request ph (PackedIp_from w_ip4) "GET" "/api/users" w_clock 0 h =
    Some ((r, ph'), h)) as (r & ph' & R).
  { unfold check_request. change (into_ip_addr (PackedIp_from w_ip4)) with (Some w_ip4).
    change (ph_route_trie ph) with (Some (build_routes w_routes)). cbn [mbind option_bind]. rewrite Hm.
    cbn [mbind option_bind].
    change (rt_limiters (build_routes w_routes) !! 1%positive) with (Some (limiter_new w_limit)).
    pose proof (limiter_allow_exact h (limiter_new w_limit) w_ip4 (standard_new t)
      (Some (standard_new t)) w_clock b l' ltac:(done) eq_refl Hc) as R2.
    unfold check_ip_with_limiter.
    assert (blocklisted (ph_policy ph) w_ip4 h = Some ((false, ph_policy ph), h)) as R1 by done.
    rewrite bind_bind, (bind_run _ _ _ _ _ R1). cbn beta iota.
    rewrite !bind_bind, (bind_run _ _ _ _ _ R2). destruct b; by eexists _, _. }
  exists t, h, r, ph', h. split; [done|]. split; [exact R|].
  by apply (check_request_isolated ph ph' (PackedIp_from w_ip4) "GET" "/api/users" w_clock 0 h h r
    w_routes 1%positive eq_refl Hm R).
Defined.

(** An event is just the path it is about. *)
#[local] Instance w_notify : NotifyCrate string := {|
  Event := string;
  ev_paths e := [e];
  ev_modify_data _ := true;
  ev_rename_to _ := false;
  ev_create _ := false;
|}.

Definition w_config (capacity : Z) : RadixIpConfig :=
  mkRadixIp (mkRoot EngineConfig_default MiddlewareConfig_default BlocklistConfig_default
    XdpConfig_default (mkRateLimit true TokenBucketAlgorithm Ip capacity 1 1000 60)
    MetricsConfig_default AutoBanConfig_default RateLimitRoutesConfig_default).

(** The text "bad" has a zero capacity, any other text is accepted. *)
Definition w_parse (s : string) : Result RadixIpConfig string :=
  Ok (w_config (if bool_decide (s = "bad"%string) then 0 else 5)).

Definition w_events : list (Result Event string * (string → Result string string)) :=
  [(Ok ("radixip.yaml"%string : Event), λ _, Ok "bad"%string)].

Definition w_start : NotifyStart string := mkNotifyStart (Ok tt) (λ _, Ok tt).

Lemma watcher_last_good_witness :
  ∃ st, watcher_new w_parse w_start "radixip.yaml"%string false (λ _, Ok "good"%string) = Ok st ∧
    handle_events w_parse "radixip.yaml"%string false st w_events = build_state false (w_config 5).
Proof.
  exists (build_state false (w_config 5)). split; [reflexivity|].
  destruct (watcher_last_good w_parse w_start "radixip.yaml"%string false (λ _, Ok "good"%string)
    (build_state false (w_config 5)) w_events eq_refl)
    as (cfg & Hf & Hst & Hcur & _).
  rewrite Hcur. injection Hf as <-. reflexivity.
Defined.
