(* ===== verification/WitnessPlanes.v ===== *)
(** * Witnesses for the ART engines, the planes and the XDP data plane

    As in [Witness], with a reference model of the [ipnet] crate and of the
    kernel's LPM tries. *)

From Stdlib Require Import Ascii.
From S2P Require Import Prelude Addr Lpm DashMap Node Heap RouteTree Trie Patricia Engine Engines Cache.
From S2P Require Import Simd ArtNode ArtTree ArtLookup ArtEngine Wrapper Hybrid Library Str Xdp XdpLoader Witness.

Local Open Scope Z_scope.

#[local] Existing Instance RefNetwork.crate.
#[local] Existing Instance RefNetwork.laws.
#[local] Existing Instance RefDashMap.crate.
#[local] Existing Instance RefDashMap.laws.
#[local] Existing Instance RefHashOrder.order.
#[local] Existing Instance RefHashOrder.laws.
#[local] Existing Instance w_redis.
#[local] Existing Instance w_text.
#[local] Existing Instance RefLpmTrie.crate.
#[local] Existing Instance RefLpmTrie.laws.
#[local] Existing Instance RefIpNet.crate.
#[local] Existing Instance RefIpNet.laws.

(** A release build for x86-64 with the vector extensions. *)
Definition w_build : ArtNode.build := mkBuild Release (X86_64 true true).
#[local] Instance w_target : TargetBuild := w_build.

(** ** ART *)

Definition w_children : list (Z * loc) := (λ i, (Z.of_nat i, Pos.of_succ_nat i)) <$> seq 0 20.

Lemma tree_life_terminates_witness :
  ∃ r st, (t0 ← tree_new;
           t ← insert_prefixes w_build t0 [([10; 0; 0; 0], 8, Some 1%positive); ([10; 1; 0; 0], 16, Some 2%positive)];
           r ← match_ip w_build t [10; 1; 2; 3];
           _ ← tree_drop t; mret r) (mkStore ∅ 1) = Done (r, st).
Proof.
  apply (tree_life_terminates w_build
    [([10; 0; 0; 0], 8, Some 1%positive); ([10; 1; 0; 0], 16, Some 2%positive)] [10; 1; 2; 3]).
  - reflexivity.
  - discriminate.
  - repeat constructor; simpl; try lia; unfold is_byte; lia.
  - repeat constructor; unfold is_byte; lia.
  - simpl. lia.
Defined.

Lemma art_remove_free_sound_witness :
  ∃ rs ps, art_session w_build [OpInsert (NetV4 w_net10) w_md1; OpLookup w_ip4; OpContains (NetV4 w_net172)] =
    Done (rs, wrap 64 (Z.of_nat (length ps))) ∧
    art_steps [] [OpInsert (NetV4 w_net10) w_md1; OpLookup w_ip4; OpContains (NetV4 w_net172)] rs ps.
Proof.
  apply (art_remove_free_sound w_build eq_refl ltac:(discriminate)). repeat constructor.
Defined.

Lemma art_node_map_witness :
  ∃ n n', add_children w_build (N4 Node4_default) w_children = Some n ∧
    remove_children w_build n [3; 7; 200] = Some n' ∧
    find_child w_build n 7 = Some (Some (Some 8%positive)) ∧ find_child w_build n' 7 = Some None.
Proof.
  destruct (art_node_map w_build w_children [3; 7; 200]) as (n & n' & Ha & Hd & Hf).
  - discriminate.
  - apply (bool_decide_unpack _). vm_compute. exact I.
  - repeat constructor; unfold is_byte; simpl; lia.
  - vm_compute. lia.
  - repeat constructor; unfold is_byte; simpl; lia.
  - exists n, n'. split_and!; [done|done|..].
    + by destruct (Hf 7 ltac:(unfold is_byte; lia)) as [-> _].
    + by destruct (Hf 7 ltac:(unfold is_byte; lia)) as [_ ->].
Defined.

Lemma art_two_bytes_lpm_witness :
  art_session w_build (inserts [(NetV4 w_net101, w_md1)] ++ [OpLookup w_ip4]) =
  Done ([RDone (Ok tt); RMeta (Some w_md1)], 1).
Proof.
  rewrite (art_two_bytes_lpm w_build eq_refl ltac:(discriminate) [(NetV4 w_net101, w_md1)] w_ip4).
  - reflexivity.
  - repeat constructor.
  - repeat constructor.
  - apply NoDup_singleton.
Defined.

(** Removing 10.1.0.0/16, which was never stored, from an engine with 10.0.0.0/8. *)
Lemma art_remove_dangles_witness :
  art_session w_build [OpInsert (NetV4 w_net10) w_md1; OpRemove (NetV4 w_net101)] =
    Done ([RDone (Ok tt); RMeta (Some w_md1)], 1) ∧
  art_session w_build [OpInsert (NetV4 w_net10) w_md1; OpRemove (NetV4 w_net101); OpLookup w_ip4] = Undefined.
Proof.
  apply (art_remove_dangles w_build eq_refl ltac:(discriminate) (NetV4 w_net10) (NetV4 w_net101) w_md1 w_ip4);
    vm_compute; try reflexivity; discriminate.
Defined.

(** ** The wrapper and the library *)

Definition w_host : Host := mkHost (Some 8%nat) (16 * 2 ^ 30).

(** An encoding of the messages, and an environment with a server. *)
#[local] Instance w_values : JsonValues := {|
  JsonValue := Metadata;
  json_null := mkMetadata "" ∅;
  metadata_to_value := Ok;
  metadata_from_value := Ok;
|}.

Definition w_pair {w} (n : RefNetwork.net w) : Z * Z := (RefNetwork.ip n, RefNetwork.prefix n).
Definition w_unpair (w : Z) (x : Z * Z) : option (RefNetwork.net w) := RefNetwork.new w x.1 x.2.

Lemma w_unpair_pair w (n : RefNetwork.net w) : w_unpair w (w_pair n) = Some n.
Proof.
  pose proof (RefNetwork.laws_w w) as L. unfold w_unpair, w_pair. simpl.
  destruct (fl_new_ok _ _ _ _ _ _ L (RefNetwork.ip n) (RefNetwork.prefix n)
    (fl_ip_range _ _ _ _ _ _ L n) (fl_prefix_range _ _ _ _ _ _ L n)) as (m & -> & Hi & Hp).
  f_equal. by apply (fl_ext _ _ _ _ _ _ L).
Qed.

Definition w_of_net (n : IpNetwork) : (Z * Z) + (Z * Z) :=
  match n with inl m => inl (w_pair m) | inr m => inr (w_pair m) end.
Definition w_to_net (x : (Z * Z) + (Z * Z)) : option IpNetwork :=
  match x with inl y => inl <$> w_unpair 32 y | inr y => inr <$> w_unpair 128 y end.

Lemma w_to_of_net n : w_to_net (w_of_net n) = Some n.
Proof. destruct n as [n|n]; simpl; by rewrite w_unpair_pair. Qed.

Abbreviation w_code := ((((Z * Z) + (Z * Z)) * (string * gmap string string)) + ((Z * Z) + (Z * Z)) + unit)%type.
Definition w_of_update (u : RedisCacheUpdate) : w_code :=
  match u with
  | UInsert p v => inl (inl (w_of_net p, (value v, attributes v)))
  | URemove p => inl (inr (w_of_net p))
  | UClear => inr tt
  end.
Definition w_to_update (c : w_code) : option RedisCacheUpdate :=
  match c with
  | inl (inl (p, (v, a))) => p' ← w_to_net p; Some (UInsert p' (mkMetadata v a : @JsonValue w_values))
  | inl (inr p) => URemove <$> w_to_net p
  | inr tt => Some UClear
  end.

#[local] Instance w_updates : UpdateForms := {|
  update_to_json u := Ok (w_digits (encode (w_of_update u)));
  update_from_json s :=
    match decode (w_number s) ≫= w_to_update with Some u => Ok u | None => Err "invalid"%string end;
|}.

#[local] Instance w_update_laws : UpdateLaws.
Proof.
  split.
  - intros md. by exists md.
  - intros u _. eexists. split; [done|]. simpl. rewrite w_number_digits, decode_encode. simpl.
    assert (w_to_update (w_of_update u) = Some u) as ->; [|done].
    destruct u as [p [v a]|p|]; simpl; rewrite ?w_to_of_net; done.
Qed.

Definition w_empty_redis : Redis := ∅.

#[local] Instance w_env : HybridEnv := {|
  redis_feature := true;
  in_runtime := true;
  redis_connect _ := Ok w_empty_redis;
|}.

(** Uncompressed planes, without and with Redis. *)
Definition w_config (redis : option RedisConfig) (split : bool) : RadixConfig :=
  mkRadixConfig Adaptive NormalTrieNode_v true 100 None redis "updates" (Some 3%nat) true split false false.

Lemma wrapper_art_session_witness :
  session (wrapper_new w_host ART NormalTrieNode_v false (Some 4%nat)) w_ops = finished (art_session w_build w_ops).
Proof. exact (wrapper_art_session w_host NormalTrieNode_v false (Some 4%nat) w_ops). Defined.

Lemma library_engine_lpm_witness :
  session (library_new w_host (w_config None false)) w_ops = session (uncompressed_standard NormalTrieNode_v) w_ops ∧
  session (library_new w_host (w_config None true)) w_ops = session (uncompressed_standard NormalTrieNode_v) w_ops.
Proof.
  split; apply (library_engine_lpm w_host (w_config None _) true w_ops); try done; intros; repeat constructor.
Defined.

Lemma presets_lose_ipv4_witness :
  ∃ r, session (library_new w_host RadixConfig_default)
      [OpInsert (NetV4 w_net10) w_md1; OpInsert (NetV4 w_net172) w_md2; OpLookup w_ip4] =
    Some ([RDone (Ok tt); RDone (Ok tt); RMeta r], 1) ∧ r ≠ Some w_md1.
Proof.
  apply (presets_lose_ipv4 w_host RadixConfig_default w_net10 w_net172 w_md1 w_md2 w_ip4).
  - apply elem_of_cons. by left.
  - reflexivity.
  - discriminate.
Defined.

(** ** Split planes with Redis *)

Definition w_start : option (Result HybridEngine string * Heap) :=
  hybrid_new w_host (w_config (Some RedisConfig_default) true) empty_heap.

(** An insert that arrives and a removal that does not: the messages are
    delivered after both calls. *)
Lemma w_run :
  ∃ e h evs e' h', w_start = Some (Ok e, h) ∧ hybrid_steps (mkWorld e h []) evs (mkWorld e' h' []) ∧
    Forall reliable evs ∧ inserted evs = [NetV4 w_net10] ∧ hy_spawned e' = [].
Proof.
  destruct (sync_new w_host (w_config (Some RedisConfig_default) true) RedisConfig_default
    w_empty_redis) as (e & h & Hnew & Hi); try done.
  destruct (sync_call e h [] (OpInsert (NetV4 w_net10) w_md1) []) as (r1 & e1 & h1 & R1 & Hi1);
    [reflexivity|reflexivity|exact Hi|].
  destruct (sync_call e1 h1 [] (OpRemove (NetV4 w_net10)) ([] ++ [NetV4 w_net10])) as (r2 & e2 & h2 & R2 & Hi2);
    [reflexivity|reflexivity|exact Hi1|].
  destruct (hybrid_drains (mkWorld e2 h2 []) _ Hi2) as ([e' h' wire] & Hs & Hq & Hwire).
  destruct (outstanding_reliable (mkWorld e2 h2 [])) as [Hrel Hins]. set (evs := outstanding _) in *.
  simpl in Hwire, Hq. subst wire.
  exists e, h, (Call (OpInsert (NetV4 w_net10) w_md1) r1 :: Call (OpRemove (NetV4 w_net10)) r2 :: evs), e', h'.
  split_and!; [done| |by repeat constructor| |done].
  - eapply hs_more; [by constructor|]. eapply hs_more; [by constructor|]. exact Hs.
  - change (NetV4 w_net10 :: inserted evs = [NetV4 w_net10]). by rewrite Hins.
Qed.

Lemma hybrid_redis_only_grows_witness :
  ∃ e h evs e' h', w_start = Some (Ok e, h) ∧ hybrid_steps (mkWorld e h []) evs (mkWorld e' h' []) ∧
    hybrid_contains e' (NetV4 w_net10) h' = Some (true, h') ∧
    hybrid_contains e' (NetV4 w_net172) h' = Some (false, h').
Proof.
  destruct w_run as (e & h & evs & e' & h' & Hnew & Hs & Hrel & Hins & Hq). exists e, h, evs, e', h'.
  split_and!; [done|done|..].
  - rewrite (hybrid_redis_only_grows w_host (w_config (Some RedisConfig_default) true) RedisConfig_default
      w_empty_redis e h evs e' h' (NetV4 w_net10)); try done. by rewrite Hins.
  - rewrite (hybrid_redis_only_grows w_host (w_config (Some RedisConfig_default) true) RedisConfig_default
      w_empty_redis e h evs e' h' (NetV4 w_net172)); try done. by rewrite Hins.
Defined.

(** Right after an insert, with its task still to run. *)
Lemma w_called :
  ∃ e h r1 e1 h1, w_start = Some (Ok e, h) ∧
    hybrid_steps (mkWorld e h []) [Call (OpInsert (NetV4 w_net10) w_md1) r1] (mkWorld e1 h1 []).
Proof.
  destruct (sync_new w_host (w_config (Some RedisConfig_default) true) RedisConfig_default
    w_empty_redis) as (e & h & Hnew & Hi); try done.
  destruct (sync_call e h [] (OpInsert (NetV4 w_net10) w_md1) []) as (r1 & e1 & h1 & R1 & Hi1);
    [reflexivity|reflexivity|exact Hi|].
  exists e, h, r1, e1, h1. split; [done|]. by do 2 econstructor.
Qed.

Lemma hybrid_inserts_arrive_witness :
  ∃ e h evs w e' h', w_start = Some (Ok e, h) ∧ hybrid_steps (mkWorld e h []) evs w ∧
    hybrid_steps w (outstanding w) (mkWorld e' h' []) ∧ hybrid_contains e' (NetV4 w_net10) h' = Some (true, h').
Proof.
  destruct w_called as (e & h & r1 & e1 & h1 & Hnew & Hs).
  destruct (hybrid_inserts_arrive w_host (w_config (Some RedisConfig_default) true) RedisConfig_default
    w_empty_redis e h [Call (OpInsert (NetV4 w_net10) w_md1) r1] (mkWorld e1 h1 [])) as (e' & h' & Hs' & _ & Hc); try done.
  - by repeat constructor.
  - exists e, h, [Call (OpInsert (NetV4 w_net10) w_md1) r1], (mkWorld e1 h1 []), e', h'. split_and!; [done|done|done|].
    apply Hc. by apply list_elem_of_singleton.
Defined.

(** ** XDP *)

(** An IPv4 frame from 10.1.2.3 behind an 802.1Q tag. *)
Definition w_frame : list Z :=
  replicate 12 0 ++ [0x81; 0x00; 0; 5; 0x08; 0x00] ++ replicate 12 0 ++ [10; 1; 2; 3] ++ replicate 4 0.
Definition w_ctx : XdpContext := mkCtx 0x1000 w_frame.

Lemma w_frame_bytes : Forall (in_width 8) (ctx_packet w_ctx).
Proof. unfold w_ctx, w_frame. simpl. repeat constructor; unfold in_width; simpl; lia. Qed.

Lemma w_frame_source : source (ctx_packet w_ctx) w_ip4.
Proof. apply (source_v4_tagged _ [0x81; 0x00] [10; 1; 2; 3]); [by left|reflexivity..]. Qed.

Definition w_kernel : Kernel :=
  mkKernel ({[ (8, [10; 0; 0; 0]) := 1 ]} : LpmTrie 4) (∅ : LpmTrie 16) (replicate 5 0).

Lemma xdp_drop_iff_witness :
  ∃ k', radixip_xdp w_ctx w_kernel = Some (XDP_DROP, k') ∧ k_v4 k' = k_v4 w_kernel.
Proof.
  destruct (xdp_drop_iff w_ctx w_kernel w_frame_bytes) as (action & k' & R & H4 & _ & Hd).
  - split; simpl; intros e v Hv.
    + by apply lookup_singleton_Some in Hv as [_ <-].
    + by apply lookup_empty_Some in Hv.
  - exists k'. split; [|done]. rewrite R, (proj2 Hd); [done|]. exists w_ip4. split; [apply w_frame_source|].
    exists 8, [10; 0; 0; 0], 1. split; [vm_compute; reflexivity|reflexivity].
Defined.

(** 10.0.0.0/8 is protected, 192.0.2.1 may be blocked. *)
Definition w_guard (protected : list IpNet) : LoaderConfig :=
  mkLoaderConfig "eth0" Skb "/sys/fs/bpf" "redis://" "security" "set" false 8 16 protected.
Definition w_inet10 : Ipv4Net := exist _ (0x0a000000, 8) I.
Definition w_maps : Maps := mkMaps (∅ : LpmTrie 4) (∅ : LpmTrie 16) [] ∅.

Lemma blocklist_guarded_witness :
  ∃ m, start (w_guard [INetV4 w_inet10]) w_maps (Ok ["192.0.2.1"; "10.1.2.3"; "nonsense"]%string) = Ok m ∧
    guarded (w_guard [INetV4 w_inet10]) (serve (w_guard [INetV4 w_inet10]) m ["add 10.1.2.3"; "del 192.0.2.1"]%string).
Proof.
  exists (seed (w_guard [INetV4 w_inet10]) w_maps ["192.0.2.1"; "10.1.2.3"; "nonsense"]%string).
  split; [reflexivity|].
  by apply (blocklist_guarded (w_guard [INetV4 w_inet10]) w_maps (Ok ["192.0.2.1"; "10.1.2.3"; "nonsense"]%string)).
Defined.

Lemma never_block_passes_witness :
  let m := seed (w_guard [INetV4 w_inet10]) w_maps ["10.1.2.3"; "192.0.2.1"]%string in
  ∃ k, radixip_xdp w_ctx (kernel_of (serve (w_guard [INetV4 w_inet10]) m ["add 10.1.2.3"]%string) (replicate 5 0)) =
    Some (XDP_PASS, k).
Proof.
  intros m. apply (never_block_passes (w_guard [INetV4 w_inet10]) w_maps (Ok ["10.1.2.3"; "192.0.2.1"]%string) m
    ["add 10.1.2.3"]%string (replicate 5 0) w_ctx (INetV4 w_inet10) w_ip4).
  - done.
  - reflexivity.
  - apply w_frame_bytes.
  - apply w_frame_source.
  - by apply list_elem_of_singleton.
  - reflexivity.
Defined.

(** The networks the loader makes of the text 10.1.2.3. *)
Definition w_parsed10 : Ipv4Net := match ipnet_from_ip w_ip4 with inl n => n | inr _ => w_inet10 end.
Definition w_host10 : Ipv4Net := RefIpNet.trunc w_parsed10.

Definition w_added : Maps :=
  mkMaps (<[(32, be_bytes 4 0x0a010203) := 1]> (∅ : LpmTrie 4)) (∅ : LpmTrie 16) [] ({[INetV4 w_host10]} ∪ ∅).

Lemma event_add_del_witness :
  ∃ k m2, radixip_xdp w_ctx (kernel_of w_added (replicate 5 0)) = Some (XDP_DROP, k) ∧
    apply_event (w_guard []) w_added "del  10.1.2.3" = Ok m2 ∧ lt_content (m_v4 m2) = ∅.
Proof.
  destruct (event_add_del (w_guard []) w_maps "add 10.1.2.3" "del  10.1.2.3" "10.1.2.3"
    (INetV4 w_parsed10) (INetV4 w_host10) w_added (replicate 5 0) w_ctx w_ip4) as ((k & Rk) & m2 & R2 & _ & Hc & _).
  - by apply empty_guarded.
  - reflexivity.
  - reflexivity.
  - reflexivity.
  - reflexivity.
  - reflexivity.
  - apply w_frame_bytes.
  - apply w_frame_source.
  - reflexivity.
  - exists k, m2. split_and!; [done|done|]. rewrite Hc. exact (delete_empty (M := gmap (Z * list Z)) _).
Defined.

Lemma stale_entry_permanent_witness :
  let m0 := mkMaps ({[ (32, [10; 1; 2; 3]) := 1 ]} : LpmTrie 4) (∅ : LpmTrie 16) [] ∅ in
  holds (serve (w_guard [INetV4 w_inet10]) m0 ["del 10.1.2.3"]%string) (INetV4 w_host10).
Proof.
  intros m0. apply (stale_entry_permanent (w_guard [INetV4 w_inet10]) m0 (Ok []) m0 ["del 10.1.2.3"]%string).
  - intros [_ Hno]. vm_compute in Hno. discriminate.
  - simpl. exists 1. vm_compute. reflexivity.
  - reflexivity.
Defined.

Lemma wrapper_new_configured_witness :
  ∃ w h k, wrapper_new w_host Adaptive NormalTrieNode_v true None empty_heap = Some (w, h) ∧
    asked_shards w_host Adaptive None k ∧ configured Adaptive NormalTrieNode_v true k w.
Proof. exact (wrapper_new_configured w_host Adaptive NormalTrieNode_v true None). Defined.
