(* ===== verification/WitnessAdapters.v ===== *)
(** * Witnesses for the framework adapters, the bindings and the server

    The claims at concrete requests, with a reference model of the [http] crate
    and text forms that know one network. *)

From Stdlib Require Import Ascii.
From S2P Require Import Prelude Addr Lpm DashMap Node Heap RouteTree Trie Engine Engines TokenBucket Config Str.
From S2P Require Import Cache Simd ArtNode ArtTree ArtLookup ArtEngine Wrapper Hybrid Library Xdp XdpLoader.
From S2P Require Import IpExtractor Limiter RouteTrie AutoBan Policy Watcher Adapters Bindings Server Witness.

Local Open Scope Z_scope.

#[local] Existing Instance RefNetwork.crate.
#[local] Existing Instance RefNetwork.laws.
#[local] Existing Instance RefDashMap.crate.
#[local] Existing Instance RefDashMap.laws.
#[local] Existing Instance RefMoka.crate.
#[local] Existing Instance RefMoka.retains.
#[local] Existing Instance RefMoka.laws.
#[local] Existing Instance RefHttp.crate.
#[local] Existing Instance RefHttp.laws.
#[local] Existing Instance w_instants.

(** A GET request with no forwarding header, seen by every framework as
    coming from the same peer. *)
Definition w_request : Request :=
  mkRequest "GET" "/index.html" [("accept", "*/*")] w_addr w_addr w_addr.

Lemma static_adapters_agree_witness :
  ∃ t h d p h' v g, trie_new NormalTrieNode_v empty_heap = Some (t, h) ∧
    let s := mkService (w_policy t w_limit true) ResponseConfig_default in
    tower_call s w_request w_clock (10 ^ 12) h = Some ((v, mkService p ResponseConfig_default), h') ∧
    interceptor_call s w_request w_clock (10 ^ 12) h = Some ((g, mkService p ResponseConfig_default), h') ∧
    renders ResponseConfig_default d v ∧ answers_status d g.
Proof.
  destruct w_standard as (t & h & F & Hn & Hr).
  destruct (check_run h (w_policy t w_limit true) ∅ 0 F (x_forwarded_for w_request) (x_real_ip w_request)
    w_addr w_ip4 w_clock (10 ^ 12) eq_refl Hr) as (d & p & h' & m' & n' & F' & R & _).
  - split; simpl; lia.
  - apply limiter_inv_new.
  - split; simpl; lia.
  - apply w_policy_time.
  - done.
  - intros r e' _ _ Hr'. by exists e'.
  - pose proof (static_adapters_agree (mkService (w_policy t w_limit true) ResponseConfig_default)
      w_request w_clock (10 ^ 12) h w_addr eq_refl eq_refl eq_refl) as Hs.
    cbn [svc_engine svc_responses] in Hs. rewrite R in Hs.
    destruct Hs as (v & w & g & Ht & _ & _ & _ & _ & Hi & Hren & Hg).
    by exists t, h, d, p, h', v, g.
Defined.

Definition w_watched (t : UncompressedTree) : WatchedService (StandardEngine UncompressedTree) :=
  mkWatched (state_from_config_with_engine (w_config 5)) (standard_new t).

Lemma watched_adapters_policy_witness :
  ∃ t h, trie_new NormalTrieNode_v empty_heap = Some (t, h) ∧
    let ws := w_watched t in
    let decide_as track method :=
      to_watched track ws method "/index.html" <$>
      check_ip_with_limiter (set_auto_ban (policy_of ws) (tracker_of track ws)) w_ip4
        (route_limiter ws method "/index.html") w_clock 0 h in
    grpc_watched_call ws w_request w_clock 0 h =
      answer (grpc_watched_verdict ResponseConfig_default) <$> decide_as true "POST"%string ∧
    axum_watched_call ws w_request w_clock 0 0 h =
      answer (http_watched_verdict ResponseConfig_default) <$> decide_as true "GET"%string.
Proof.
  destruct w_standard as (t & h & F & Hn & Hr). exists t, h. split; [done|].
  destruct (watched_adapters_policy (w_watched t) w_request w_ip4 w_clock 0 0 h eq_refl) as [Hg Ha].
  split; [by apply Hg|by apply Ha].
Defined.

Lemma tower_watched_never_bans_witness :
  ∃ t h F vs ws', trie_new NormalTrieNode_v empty_heap = Some (t, h) ∧
    tower_watched_run (w_watched t) [(w_request, w_clock); (w_request, w_clock)] h = Some ((vs, ws'), h) ∧
    quiet h ∅ 0 F (w_watched t) ws'.
Proof.
  destruct w_standard as (t & h & F & Hn & Hr).
  destruct (tower_watched_never_bans [(w_request, w_clock); (w_request, w_clock)] h (w_watched t) ∅ 0 F Hr)
    as [_ Hrun].
  destruct Hrun as (vs & ws' & R & Hq).
  - split_and!; [reflexivity|reflexivity|apply limiter_inv_new|]. split; simpl; lia.
  - exists t, h, F, vs, ws'. exact (conj Hn (conj R Hq)).
Defined.

(** ** The bindings and the server *)

(** Text forms that know the network 10.0.0.0/8. *)
#[local] Instance w_forms : TextForms := {|
  metadata_to_json md := Ok (w_digits (encode (value md, attributes md)));
  metadata_from_json s :=
    match decode (w_number s) with
    | Some (v, a) => Ok (mkMetadata v a)
    | None => Err "invalid"%string
    end;
  network_to_string _ := "10.0.0.0/8"%string;
  network_from_string s :=
    if bool_decide (s = "10.0.0.0/8"%string) then Ok (NetV4 w_net10) else Err "invalid"%string;
  ip_to_string ip := w_digits (encode ip);
|}.

#[local] Instance w_forms_json : JsonLaws.
Proof.
  intros [v a]. eexists. split; [done|]. simpl. rewrite w_number_digits, decode_encode. done.
Qed.

Lemma w_digits_no_nul p : has_nul (w_digits p) = false.
Proof. by induction p as [p IH|p IH|]; cbn; rewrite ?IH. Qed.

Definition w_rpcs : list Rpc :=
  [RInsert (mkInsert "10.0.0.0/8" (Some (mkPb "office" {["asn"%string := "64500"%string]})));
   RLookup "10.1.2.3"; RLookup "not an address"; RGetStats].

Lemma grpc_service_refines_witness :
  ∃ t h resps s' h', trie_new NormalTrieNode_v empty_heap = Some (t, h) ∧
    serve_rpcs (mkGrpc (standard_new t) Metrics_zero) w_rpcs h = Some ((resps, s'), h') ∧
    active_routes (gs_metrics s') = re_size (gs_engine s') ∧ lookups_total (gs_metrics s') = 2.
Proof.
  destruct w_standard as (t & h & F & Hn & Hr).
  destruct (grpc_service_refines w_rpcs (mkGrpc (standard_new t) Metrics_zero) h ∅ 0 F Hr)
    as (resps & s' & h' & rss & m' & n' & F' & R & _ & _ & _ & _ & Hg & Hl).
  exists t, h, resps, s', h'. split; [exact Hn|]. split; [exact R|]. split; [|exact Hl].
  apply Hg; [|reflexivity]. repeat constructor.
Defined.

#[local] Instance w_release : TargetBuild := mkBuild Release (X86_64 true true).

Lemma grpc_prefixes_never_block_witness :
  ∃ sv h rs sv' h', server_main (mkHost (Some 8%nat) (16 * 2 ^ 30)) (w_config 5) empty_heap = Some (sv, h) ∧
    server_calls sv ((λ rpc, (w_request, rpc, w_clock, 0)) <$> w_rpcs) h = Some ((rs, sv'), h') ∧
    ∀ st, Err st ∈ rs → st_code st ≠ PermissionDenied.
Proof.
  apply (grpc_prefixes_never_block (mkHost (Some 8%nat) (16 * 2 ^ 30)) (w_config 5)
    ((λ rpc, (w_request, rpc, w_clock, 0)) <$> w_rpcs)).
  - reflexivity.
  - reflexivity.
  - split; simpl; lia.
Defined.

Definition w_ffi (t : UncompressedTree) : FfiState (StandardEngine UncompressedTree) :=
  mkFfi {[1%positive := standard_new t]} ∅ 2.

Lemma ffi_insert_match_roundtrip_witness :
  ∃ t h ptr st' h' json, trie_new NormalTrieNode_v empty_heap = Some (t, h) ∧ metadata_to_json w_md1 = Ok json ∧
    c_calls (w_ffi t) (Some 1%positive)
      [CInsert (CBytes (Some "10.0.0.0/8"%string)) (CBytes (Some json)); CMatch (CBytes (Some "10.1.2.3"%string))] h =
    Some (([ACode 0; APtr (Some ptr)], st'), h') ∧ ffi_strings st' !! ptr = Some json.
Proof.
  destruct w_standard as (t & h & F & Hn & Hr).
  set (json := w_digits (encode (value w_md1, attributes w_md1))).
  destruct (ffi_insert_match_roundtrip (w_ffi t) 1 h (standard_new t) 0 F "10.0.0.0/8" "10.1.2.3"
    (NetV4 w_net10) w_ip4 w_md1 json) as (ptr & st' & h' & R & Hs).
  - apply lookup_insert_eq.
  - exact Hr.
  - intros p [[x Hx]|[x Hx]]; cbn in Hx; [by rewrite lookup_empty in Hx|]. by apply lookup_singleton_Some in Hx as [<- _].
  - reflexivity.
  - reflexivity.
  - reflexivity.
  - reflexivity.
  - apply w_digits_no_nul.
  - exists t, h, ptr, st', h', json. exact (conj Hn (conj eq_refl (conj R Hs))).
Defined.
