(* ===== verification/WitnessRuntime.v ===== *)
(** * Witnesses for the running processes

    The claims on threads, tasks and processes at concrete runs: two threads on
    a small tree, a Redis server that is a map of strings, an XDP host on
    which every call succeeds, and two services of one layer. *)

From Stdlib Require Import Ascii.
From S2P Require Import Prelude Addr Lpm DashMap Node Heap RouteTree Trie Concurrent Readers Patricia PatriciaThreads Engine Engines TokenBucket.
From S2P Require Import Config Str Cache Simd ArtNode ArtTree ArtLookup ArtEngine Wrapper Hybrid RedisClient Library Boxed.
From S2P Require Import Xdp XdpLoader XdpRuntime IpExtractor Limiter RouteTrie AutoBan Policy Watcher Adapters Layers.
From S2P Require Import Bindings Server Process Witness WitnessPlanes WitnessAdapters.

Local Open Scope Z_scope.

#[local] Existing Instance RefNetwork.crate.
#[local] Existing Instance RefNetwork.laws.
#[local] Existing Instance RefDashMap.crate.
#[local] Existing Instance RefDashMap.laws.
#[local] Existing Instance RefMoka.crate.
#[local] Existing Instance RefMoka.retains.
#[local] Existing Instance RefMoka.laws.
#[local] Existing Instance RefHttp.crate.
#[local] Existing Instance RefHttp.laws.
#[local] Existing Instance RefLpmTrie.crate.
#[local] Existing Instance RefLpmTrie.laws.
#[local] Existing Instance RefIpNet.crate.
#[local] Existing Instance RefIpNet.laws.
#[local] Existing Instance w_instants.
#[local] Existing Instance w_forms.
#[local] Existing Instance w_release.
#[local] Existing Instance w_values.
#[local] Existing Instance w_updates.
#[local] Existing Instance w_update_laws.

(** ** Threads *)

Lemma lookup_linearizable_witness :
  ∃ t h s sched' r n h', trie_new NormalTrieNode_v empty_heap = Some (t, h) ∧
    interleave (mkThreads (lookup_p t w_ip4) (insert_p t (NetV4 w_net10) w_md1) h) [true; false; false; true] = Some s ∧
    interleave s sched' = Some (mkThreads (PRet r) (PRet n) h').
Proof.
  destruct (trie_new_refines empty_heap NormalTrieNode_v heap_wf_empty) as (t & h & F & Hn & _ & Hr & _).
  destruct (lookup_linearizable h t ∅ F w_ip4 (NetV4 w_net10) w_md1 Hr eq_refl) with (sched := [true; false; false; true])
    as (s & Hs & (sched' & r & n & h' & Hs') & _).
  - intros p0 md0 Hp. by rewrite lookup_empty in Hp.
  - by exists t, h, s, sched', r, n, h'.
Defined.

Lemma concurrent_insert_lost_witness :
  ∃ t h0 sched h' F, trie_new LockFreeTrieNode_v empty_heap = Some (t, h0) ∧
    interleave (mkThreads (insert_p t (NetV4 w_net10) w_md1) (insert_p t (NetV4 w_net101) w_md2) h0) sched =
      Some (mkThreads (PRet (Ok true)) (PRet (Ok true)) h') ∧
    trie_rep h' t {[net_bits (NetV4 w_net10) := (NetV4 w_net10, w_md1)]} F ∧
    trie_contains t (NetV4 w_net101) h' = Some (false, h').
Proof.
  apply (concurrent_insert_lost LockFreeTrieNode_v (NetV4 w_net10) (NetV4 w_net101) w_md1 w_md2).
  - reflexivity.
  - reflexivity.
  - vm_compute. discriminate.
  - reflexivity.
Defined.

(** 2002::/16, which leaves the edge of 2001:db8::/32 after fourteen bits. *)
Definition w_six6 : Ipv6Network := exist _ (0x20020000000000000000000000000000, 16) I.

Lemma compressed_lookup_torn_witness :
  ∃ t h0 h1 sched h2, patricia_new AtomicRadixNode_v empty_heap = Some (t, h0) ∧
    patricia_insert t (NetV6 w_doc6) w_md1 h0 = Some (Ok true, h1) ∧
    patricia_lookup t w_ip6 h1 = Some (Some w_md1, h1) ∧
    interleave (mkThreads (patricia_lookup_p t w_ip6) (patricia_insert_p t (NetV6 w_six6) w_md2) h1) sched =
      Some (mkThreads (PRet None) (PRet (Ok true)) h2) ∧
    patricia_lookup t w_ip6 h2 = Some (Some w_md1, h2).
Proof.
  apply (compressed_lookup_torn AtomicRadixNode_v (NetV6 w_doc6) (NetV6 w_six6) w_md1 w_md2 w_ip6).
  - apply (bool_decide_eq_true_1 _). vm_compute. reflexivity.
  - vm_compute. split; repeat constructor.
Defined.

(** ** The Redis client *)

(** A server that is a map of strings; a message is its channel and payload. *)
#[local] Instance w_driver : RedisDriver := {|
  RedisError := string; redis_error_text e := e; type_error _ e := e;
  Client := string; client_open := Ok;
  Server := gmap string string;
  ConnectionManager := unit; connection_manager_new _ _ := Ok tt;
  Connection := unit; open_connection _ _ := Ok tt;
  cmd_get s _ k := Ok (s !! k); cmd_set s _ k v := Ok (<[k := v]> s);
  cmd_hgetall _ _ _ := Ok []; cmd_hset s _ _ _ _ := Ok (1, s); cmd_hdel s _ _ _ := Ok (0, s);
  cmd_publish s _ _ _ := Ok (0, s);
  PubSub := unit; get_async_pubsub _ _ := Ok tt; pubsub_subscribe s _ _ := Ok s;
  Msg := string * string; get_payload m := Ok m.2; get_channel_name m := m.1;
|}.

#[local] Instance w_driver_laws : DriverLaws.
Proof.
  split.
  - intros s c. by exists tt.
  - intros s conn k v. eexists. split; [done|]. intros conn'. cbn. by rewrite lookup_insert_eq.
  - by intros s conn k f v n s' [= _ <-].
  - by intros s conn k f n s' [= _ <-].
  - done.
Qed.

Definition w_msg (channel payload : string) : @Msg w_driver := (channel, payload).
Definition w_server : Server := (∅ : gmap string string).
Definition w_client : RedisClient :=
  mkRedisClient ("redis://127.0.0.1:6379"%string : Client) (tt : ConnectionManager) RedisConfig_default
    (mkBroadcast 100 false) (mkBroadcast 1 false) 1.

Definition w_idle (_ : list RedisCacheUpdate) (e : Empty_set) : option (list RedisCacheUpdate) := match e with end.
Definition w_collect (a : list RedisCacheUpdate) (u : RedisCacheUpdate) : list RedisCacheUpdate := a ++ [u].
Definition w_delivered (m1 m2 m3 : Msg) : list (ev Empty_set) :=
  [Arrive m1; Arrive m2; TakeMessage; RunCallback; Arrive m3; TakeMessage; RunCallback; TakeMessage; RunCallback;
   CloseStream; SeeStreamEnd].

Lemma w_run_cons {A L} (env : A → L → option A) t e t1 es t2 :
  task_step env t e = Some t1 → task_run env t1 es = Some t2 → task_run env t (e :: es) = Some t2.
Proof. intros H1 H2. cbn [task_run]. by rewrite H1. Qed.

Lemma w_delivered_run (f : list RedisCacheUpdate → PubSubMessage → list RedisCacheUpdate) ch m1 m2 m3 :
  ∃ t, task_run w_idle (mkTask (λ a m, CbReturn (f a m)) ch [] false false Selecting []) (w_delivered m1 m2 m3) = Some t ∧
    arrived (w_delivered m1 m2 m3) = [m1; m2; m3] ∧ SeeStreamEnd ∈ w_delivered m1 m2 m3.
Proof.
  eexists. split_and!; [|reflexivity|unfold w_delivered; set_solver].
  unfold w_delivered. repeat (eapply w_run_cons; [cbn; reflexivity|]). reflexivity.
Qed.

Lemma w_collected m1 m2 m3 :
  ∃ t0 s' t, subscribe_engine_updates w_server w_client "updates" (λ a u, CbReturn (w_collect a u)) [] = Ok (t0, s') ∧
    task_run w_idle t0 (w_delivered m1 m2 m3) = Some t ∧
    arrived (w_delivered m1 m2 m3) = [m1; m2; m3] ∧ SeeStreamEnd ∈ w_delivered m1 m2 m3.
Proof.
  destruct (w_delivered_run (λ a m, w_collect a (decode_update (ps_payload m))) "updates" m1 m2 m3) as (t & Ht).
  eexists _, _, t. split; [reflexivity|exact Ht].
Qed.

Lemma w_published u : ∃ json, update_to_json u = Ok json ∧ ∃ msg : Msg, get_payload msg = Ok json.
Proof. eexists. split; [reflexivity|]. by exists (w_msg "updates" (w_digits (encode (w_of_update u)))). Qed.

Lemma updates_roundtrip_witness :
  ∃ t0 s' es t, subscribe_engine_updates w_server w_client "updates" (λ a u, CbReturn (w_collect a u)) [] = Ok (t0, s') ∧
    task_run w_idle t0 es = Some t ∧
    t_env t = [UInsert (NetV4 w_net10) (w_md1 : @JsonValue w_values); URemove (NetV4 w_net10); UClear].
Proof.
  destruct (w_published (UInsert (NetV4 w_net10) (w_md1 : @JsonValue w_values))) as (j1 & J1 & m1 & M1).
  destruct (w_published (URemove (NetV4 w_net10))) as (j2 & J2 & m2 & M2).
  destruct (w_published UClear) as (j3 & J3 & m3 & M3).
  destruct (w_collected m1 m2 m3) as (t0 & s' & t & Hsub & Hrun & Harr & Hend).
  exists t0, s', (w_delivered m1 m2 m3), t. split; [exact Hsub|]. split; [exact Hrun|].
  destruct (updates_roundtrip w_collect w_idle w_server w_client "updates" [] t0 s'
    [UInsert (NetV4 w_net10) (w_md1 : @JsonValue w_values); URemove (NetV4 w_net10); UClear] (w_delivered m1 m2 m3) t
    Hsub Hrun Hend) as [-> _]; [|rewrite Harr|reflexivity].
  { repeat constructor. by exists w_md1. }
  repeat constructor; [exists j1|exists j2|exists j3]; done.
Defined.

Lemma channel_fifo_witness :
  ∃ t0 s' t, subscribe_to_channel w_server w_client "news" = Ok (t0, s') ∧
    channel_run t0 [Arrive (w_msg "news" "a"); Arrive (w_msg "news" "b"); TakeMessage; RunCallback; Env RxRecv] = Some t ∧
    mp_received (t_env t) `prefix_of` [mkPubSub "news" "a" None; mkPubSub "news" "b" None].
Proof.
  eexists _, _, _. split; [reflexivity|]. split; [reflexivity|].
  exact (proj1 (channel_fifo w_server w_client "news" _ _
    [Arrive (w_msg "news" "a"); Arrive (w_msg "news" "b"); TakeMessage; RunCallback; Env RxRecv] _ eq_refl eq_refl)).
Defined.

#[local] Instance w_connected : HybridEnv := {|
  redis_feature := true;
  in_runtime := true;
  redis_connect := redis_client_connect w_server;
|}.

Definition w_link : @Redis redis_client_crate := (w_client, w_server).

(** A message is waiting in the task while a caller inserts a route. *)
Lemma sync_task_refines_witness :
  ∃ e h t0 t evss, hybrid_new w_host (w_config (Some RedisConfig_default) true) empty_heap = Some (Ok e, h) ∧
    sync_task w_link e h = Some t0 ∧
    task_run caller_step t0 [Arrive (w_msg "updates" "x"); Env (OpInsert (NetV4 w_net10) w_md1); TakeMessage] = Some t ∧
    hybrid_steps (mkWorld e h []) (concat evss) (task_world t).
Proof.
  destruct (sync_new w_host (w_config (Some RedisConfig_default) true) RedisConfig_default w_link)
    as (e & h & Hnew & Hi); try done.
  destruct (sync_call e h [] (OpInsert (NetV4 w_net10) w_md1) []) as (r1 & e1 & h1 & R1 & _);
    [reflexivity|reflexivity|exact Hi|].
  assert (∃ t, task_run caller_step (mkTask (λ st m, sync_handler st (decode_update (ps_payload m))) (hy_channel e) []
      false false Selecting (e, h)) [Arrive (w_msg "updates" "x"); Env (OpInsert (NetV4 w_net10) w_md1); TakeMessage] =
    Some t) as [t Ht].
  { assert (caller_step (e, h) (OpInsert (NetV4 w_net10) w_md1) = Some (e1, h1)) as Hc by (unfold caller_step; cbn [fst snd]; by rewrite R1).
    unfold task_run, task_step. cbn [mbind option_bind t_env t_closed t_callback t_channel t_stream t_shutdown t_pc]. rewrite Hc. by eexists. }
  destruct (sync_task_refines w_link e h
    (mkTask (λ st m, sync_handler st (decode_update (ps_payload m))) (hy_channel e) [] false false Selecting (e, h))
    [Arrive (w_msg "updates" "x"); Env (OpInsert (NetV4 w_net10) w_md1); TakeMessage] t eq_refl Ht) as (evss & _ & Hs).
  by exists e, h, (mkTask (λ st m, sync_handler st (decode_update (ps_payload m))) (hy_channel e) []
      false false Selecting (e, h)), t, evss.
Defined.

(** ** The XDP runtime *)

(** A host on which every call succeeds and the snapshot blocks two addresses. *)
#[local] Instance w_loader : LoaderHost := {|
  create_dir_all _ := Ok tt;
  Ebpf := unit; ebpf_load _ := Ok tt;
  take_v4 _ := Some (Ok (∅ : LpmTrie 4)); take_v6 _ := Some (Ok (∅ : LpmTrie 16)); take_stats _ := Some (Ok []);
  program_mut _ _ := Some (Ok tt); program_load _ := Ok tt; program_attach _ _ _ := Ok tt;
  RClient := unit; rclient_open _ := Ok tt; rclient_pubsub _ := Ok tt; rclient_subscribe _ _ := Ok tt;
  rclient_connect _ := Ok tt; rclient_smembers _ _ := Ok ["192.0.2.1"; "10.1.2.3"]%string;
|}.

Definition w_arrivals : list rt_event := [RtArrive (Ok "add 10.1.2.3"%string); RtTick; RtMessage; RtSignal; RtStop].

Lemma runtime_never_blocks_witness :
  ∃ t0 t k, start_runtime (w_guard [INetV4 w_inet10]) = Ok t0 ∧ rt_run t0 w_arrivals = Some t ∧
    radixip_xdp w_ctx (kernel_of (rt_maps t) (replicate 5 0)) = Some (XDP_PASS, k).
Proof.
  assert (∃ t0 t, start_runtime (w_guard [INetV4 w_inet10]) = Ok t0 ∧ rt_run t0 w_arrivals = Some t)
    as (t0 & t & H0 & Hr) by (eexists _, _; split; reflexivity).
  destruct (runtime_never_blocks (w_guard [INetV4 w_inet10]) t0 w_arrivals t w_ctx (INetV4 w_inet10) w_ip4 (replicate 5 0) H0)
    as [_ Hp]; [|exact Hr|].
  - intros ebpf maps0 _ [= <-]. done.
  - destruct Hp as [k Hk].
    + apply w_frame_bytes.
    + apply w_frame_source.
    + by apply list_elem_of_singleton.
    + reflexivity.
    + by exists t0, t, k.
Defined.

(** ** Two services of one layer *)

#[local] Instance w_app : Service nat string := {|
  s_poll_ready n := (true, n);
  s_clone n := n;
  s_call n req := Some (rq_path req, S n);
|}.

Definition w_nowhere : Request := mkRequest "GET" "/" [] None None None.

Lemma layer_is_one_policy_witness :
  ∃ t h d p' h' ws rs ws', trie_new NormalTrieNode_v empty_heap = Some (t, h) ∧
    Forall2 (λ app w, axum_layer (axum_layer_new 1 ResponseConfig_default) app = w) [0%nat; 7%nat] ws ∧
    serve_all axum_call forward_clone {[1%positive := w_policy t w_limit true]} ws
      [(0%nat, w_request, w_clock, 10 ^ 12); (1%nat, w_nowhere, w_clock, 10 ^ 12)] h =
      Some ((rs, ws', <[1%positive := p']> {[1%positive := w_policy t w_limit true]}), h') ∧
    answered forward_clone ResponseConfig_default [0%nat; 7%nat]
      [(0%nat, w_request, w_clock, 10 ^ 12); (1%nat, w_nowhere, w_clock, 10 ^ 12)]
      [d; BadRequest "No usable IP found in headers"] rs.
Proof.
  destruct w_standard as (t & h & F & Hn & Hr).
  destruct (check_run h (w_policy t w_limit true) ∅ 0 F (x_forwarded_for w_request) (x_real_ip w_request)
    w_addr w_ip4 w_clock (10 ^ 12) eq_refl Hr) as (d & p & h' & m' & n' & F' & R & _ & _ & (Hmw & _) & _).
  - split; simpl; lia.
  - apply limiter_inv_new.
  - split; simpl; lia.
  - apply w_policy_time.
  - done.
  - intros r e' _ _ Hr'. by exists e'.
  - destruct (layer_is_one_policy Axum 1 ResponseConfig_default [0%nat; 7%nat]
      [(0%nat, w_request, w_clock, 10 ^ 12); (1%nat, w_nowhere, w_clock, 10 ^ 12)]
      {[1%positive := w_policy t w_limit true]} (w_policy t w_limit true) h) as (ws & Hws & Hall).
    + reflexivity.
    + intros app req. by eexists.
    + repeat constructor.
    + assert (check_all (adapter_peer Axum) (w_policy t w_limit true)
        [(0%nat, w_request, w_clock, 10 ^ 12); (1%nat, w_nowhere, w_clock, 10 ^ 12)] h =
        Some (([d; BadRequest "No usable IP found in headers"], p), h')) as Hcheck.
      { cbn [check_all adapter_peer]. change (rq_ext_connect w_request) with w_addr.
        rewrite (bind_run _ _ _ _ _ R). cbn beta iota. unfold check. rewrite Hmw. reflexivity. }
      rewrite Hcheck in Hall. destruct Hall as (rs & ws' & Rs & Hans).
      exists t, h, d, p, h', ws, rs, ws'. split; [done|]. split; [|by split].
      eapply Forall2_impl; [exact Hws|]. by intros app w [= <-].
Defined.

(** ** The process *)

(** The file is missing; the ports are set to 8080 and left at the default. *)
Definition w_vars (key : string) : option string := if String.eqb key "GRPC_PORT" then Some "08080"%string else None.
Definition w_missing : FileTimes := mkTimes (λ _, Err "no such file"%string) (λ _, false) (λ _, Err "no such file"%string)
  (mkNotifyStart (Ok tt) (λ _, Ok tt)).

Lemma process_start_cases_witness :
  ∃ p h, process_start w_parse w_host w_vars w_missing empty_heap = Some (Ok p, h) ∧
    pr_grpc_addr p = mkSocketAddr (V4 0) 8080 ∧ pr_xdp p = None ∧
    ∃ resps p' h', process_calls p ((λ rpc, (w_request, rpc, w_clock, 0)) <$> w_rpcs) h = Some ((Ok <$> resps, p'), h').
Proof.
  destruct (process_start_cases w_parse w_host w_vars w_missing (mkSocketAddr (V4 0) 9091) (mkSocketAddr (V4 0) 8080))
    as ([p|e] & h & R & Hp).
  - reflexivity.
  - reflexivity.
  - destruct Hp as (_ & Hg & Hc & Hx). exists p, h. split; [exact R|]. split; [exact Hg|]. split.
    + destruct (pr_xdp p) as [t|]; [|done]. destruct (Hx t eq_refl) as (cfg & c & Hf & _). done.
    + destruct (Hc ((λ rpc, (w_request, rpc, w_clock, 0)) <$> w_rpcs)) as (resps & p' & h' & Rc & _).
      by exists resps, p', h'.
  - by destruct Hp as [[=] _].
Defined.
