(* ===== verification/WitnessBindings.v ===== *)
(** * Witnesses for the programs on the bindings

    A C, a Python and a Node program from their constructors on, on an engine
    without Redis. *)

From Stdlib Require Import Ascii.
From S2P Require Import Prelude Addr Lpm DashMap Node Heap RouteTree Trie Patricia Engine Engines Cache Simd ArtNode ArtTree.
From S2P Require Import ArtLookup ArtEngine Wrapper Hybrid Library Boxed TokenBucket Config Str IpExtractor Limiter RouteTrie.
From S2P Require Import AutoBan Policy Bindings Classes NodeClass Witness WitnessPlanes WitnessAdapters.

Local Open Scope Z_scope.

#[local] Existing Instance RefNetwork.crate.
#[local] Existing Instance RefNetwork.laws.
#[local] Existing Instance RefDashMap.crate.
#[local] Existing Instance RefDashMap.laws.
#[local] Existing Instance RefHashOrder.order.
#[local] Existing Instance w_redis.
#[local] Existing Instance w_forms.
#[local] Existing Instance w_release.
#[local] Existing Instance w_values.
#[local] Existing Instance w_updates.
#[local] Existing Instance w_env.

(** ** The Python class *)

Definition w_py : list PyCall :=
  [PyInsert "10.0.0.0/8" [(PyStr "value", PyStr "office")]; PyLookup "10.1.2.3"; PyLookup "ten"; PyRemove "10.0.0.0/8"].

Lemma python_class_refines_witness :
  ∃ e h1 answers e' h' rs m, python_new w_host (Some "adaptive"%string) true 100 None None "c" empty_heap = Some (e, h1) ∧
    bc_calls (Answer:=PyAnswer) e w_py h1 = Some ((answers, e'), h') ∧
    engine_steps pkey (λ m ip r, true = false → sound_answer m ip r) (λ _, ∅) (∅, 0) (omap py_op w_py) rs
      (m, python_len e') ∧
    from_inserts [] (omap py_op w_py) rs ∧ bc_answers (E:=BoxedEngine) w_py rs answers.
Proof.
  apply (python_class_refines w_host (Some "adaptive"%string) true 100 None "c" w_py empty_heap).
  exact heap_wf_empty.
Defined.

(** ** A C program *)

Definition w_c : list CCall :=
  [CInsert (CBytes (Some "10.0.0.0/8"%string)) (CBytes (Some "office"%string)); CInsert CNull CNull;
   CMatch (CBytes (Some "10.1.2.3"%string)); CClear].

Lemma ffi_refines_witness :
  ∃ hd answers n st' h' rs m, c_program w_host (mkFfi ∅ ∅ 1) w_c empty_heap = Some ((hd, answers, n, st'), h') ∧
    engine_steps pkey any_answer (λ _, ∅) (∅, 0) (omap c_op w_c) rs (m, n) ∧
    from_inserts [] (omap c_op w_c) rs ∧ c_answered st' w_c rs answers ∧ ffi_keeps hd (mkFfi ∅ ∅ 1) st'.
Proof.
  apply (ffi_refines w_host (mkFfi ∅ ∅ 1) w_c empty_heap).
  - exact heap_wf_empty.
  - intros p [[x Hx]|[x Hx]]; cbn in Hx; by rewrite lookup_empty in Hx.
Defined.

(** ** The Node class *)

Definition w_js : list JsCall :=
  [JsInsert "10.0.0.0/8" (mkJsMetadata "office" ∅); JsContains "10.1.2.3"; JsLookup "ten"; JsRemove "10.0.0.0/8"; JsClear].

(** An object that switches the cache and the compression off. *)
Definition w_js_config : JsEngineConfig :=
  mkJsConfig (Some "standard"%string) (Some false) None None (Some false) None None None None.

Lemma node_class_refines_witness :
  ∃ e h1 answers e' h' rs m n, let c := node_config (Some w_js_config) in
    js_new w_host (Some w_js_config) empty_heap = Some (e, h1) ∧
    bc_calls (Answer:=JsAnswer) e w_js h1 = Some ((answers, e'), h') ∧
    engine_steps (boxed_key c) (boxed_answers c) (boxed_cleared c) (∅, 0) (omap js_op w_js) rs (m, n) ∧
    from_inserts [] (omap js_op w_js) rs ∧ bc_answers (E:=BoxedEngine) w_js rs answers ∧
    (in_width 32 n → js_size (mkRadixIP (ew_new e')) = n) ∧
    (n = 2 ^ 32 → js_size (mkRadixIP (ew_new e')) = 0).
Proof.
  apply (node_class_refines w_host (Some w_js_config) w_js empty_heap).
  - exact heap_wf_empty.
  - split; [done|]. split; [done|]. by right.
Defined.
