(* ===== verification/WitnessThreads.v ===== *)
(** * Witnesses for the threads on one tree and one engine *)

From S2P Require Import Prelude Addr Lpm DashMap Node Heap RouteTree Trie Concurrent Readers SafeThreads Pool.
From S2P Require Import Patricia PatriciaThreads Engine EngineThreads Witness.

Local Open Scope Z_scope.

#[local] Existing Instance RefNetwork.crate.
#[local] Existing Instance RefNetwork.laws.
#[local] Existing Instance RefDashMap.crate.
#[local] Existing Instance RefDashMap.laws.

(** Two readers beside a writer of two routes; the first reader has the steps
    for its two addresses. *)
Definition w_routes : list (IpNetwork * Metadata) := [(NetV4 w_net10, w_md1); (NetV4 w_net101, w_md2)].
Definition w_sched : list who := Writer :: Reader 0 :: Writer :: Reader 1 :: Writer :: replicate 776 (Reader 0).

Lemma readers_linearizable_witness :
  ∃ t h s r n s' F', trie_new NormalTrieNode_v empty_heap = Some (t, h) ∧
    run_pool t (pool_start w_routes [[w_ip4; w_ip4]; [w_ip4]] h) w_sched = Some s ∧
    po_readers s !! 0%nat = Some r ∧ an_ip <$> rd_log r = [w_ip4; w_ip4] ∧
    run_pool t s (replicate n Writer) = Some s' ∧ trie_rep (po_heap s') t (table_after ∅ w_routes 2) F'.
Proof.
  destruct (trie_new_refines empty_heap NormalTrieNode_v heap_wf_empty) as (t & h & F & Hn & _ & Hr & _).
  destruct (readers_linearizable h t ∅ F w_routes [[w_ip4; w_ip4]; [w_ip4]] w_sched Hr)
    as (s & Hs & _ & Hreaders & n & s' & Hs' & _ & F' & Hrep).
  - assert (fits ∅ w_routes w_ip4) as Hf.
    { intros p [[md Hm]|[md Hm]] _; [by rewrite lookup_empty in Hm|].
      apply list_elem_of_In in Hm. destruct Hm as [[= <- _]|[[= <- _]|[]]]; reflexivity. }
    repeat constructor; exact Hf.
  - destruct (Hreaders 0%nat [w_ip4; w_ip4] eq_refl) as (r & Hri & _ & _ & _ & Hall).
    exists t, h, s, r, n, s', F'. split; [done|]. split; [done|]. split; [done|]. split; [|by split].
    apply Hall. apply Nat.leb_le. vm_compute. reflexivity.
Defined.

Definition w_calls : list engine_call :=
  [CallInsert (NetV4 w_net10) w_md1; CallLookup w_ip4; CallRemove (NetV4 w_net10); CallInsert (NetV4 w_net101) w_md2; CallStats].

Lemma engine_threads_safe_witness :
  ∃ t h phs g a, trie_new NormalTrieNode_v empty_heap = Some (t, h) ∧
    run_calls (call_start t <$> w_calls, mkMem h 0 EngineStats_default) ([0; 1; 0; 2; 3; 1; 2] ++ replicate 388 1)%nat = Some (phs, g) ∧
    phs !! 1%nat = Some (PhDone a) ∧ em_size g = wrap 64 (0 + tally n_size phs) ∧
    ∀ md, a = Looked (Some md) → ∃ p, offered ∅ w_calls p md ∧
      (same_family (net_network p) w_ip4 = true → network_contains_ip p w_ip4 = true).
Proof.
  destruct (trie_new_refines empty_heap NormalTrieNode_v heap_wf_empty) as (t & h & F & Hn & _ & Hr & _).
  change (rt_rep h t ∅ F) in Hr.
  destruct (engine_threads_safe h t ∅ F 0 EngineStats_default w_calls ([0; 1; 0; 2; 3; 1; 2] ++ replicate 388 1)%nat Hr)
    as (phs & g & Hrun & _ & Hdone & _ & Hsize & Hsound).
  - split; split; simpl; lia.
  - destruct (Hdone 1%nat (CallLookup w_ip4) eq_refl) as [a Ha]; [apply Nat.leb_le; vm_compute; reflexivity|].
    exists t, h, phs, g, a. split; [done|]. split; [done|]. split; [done|]. split.
    + apply Hsize. intros Hin%list_elem_of_In. by repeat (destruct Hin as [Hin|Hin]; [discriminate|]).
    + intros md ->. exact (path_sound_contains _ _ _ (Hsound 1%nat w_ip4 (Some md) eq_refl Ha) md eq_refl).
Defined.

Lemma double_remove_wraps_witness :
  ∃ t h sched h' F' st', run_calls (call_start t <$> [CallRemove (NetV4 w_net10); CallRemove (NetV4 w_net10)],
      mkMem h 1 EngineStats_default) sched =
      Some (PhDone <$> [Removed (Some w_md1); Removed (Some w_md1)], mkMem h' (2 ^ 64 - 1) st') ∧
    trie_rep h' t ∅ F' ∧ stat_size st' = 2 ^ 64 - 1.
Proof.
  destruct (trie_new_refines empty_heap NormalTrieNode_v heap_wf_empty) as (t & h & F & Hn & _ & Hr & _).
  destruct (trie_insert_refines h t ∅ F (NetV4 w_net10) w_md1 Hr) as (h1 & F1 & _ & Hr1 & _).
  destruct (double_remove_wraps h1 t F1 (NetV4 w_net10) w_md1 EngineStats_default) as (sched & h' & F' & st' & Hrest).
  - by rewrite <-insert_empty.
  - by exists t, h1, sched, h', F', st'.
Defined.

(** 2001:db8::/32 holds the address 2001:db8:8000::1; 2002::/15 does not. *)
Definition w_sixteen6 : Ipv6Network := exist _ (0x20020000000000000000000000000000, 15) I.
Definition w_ip6_high : Z := 0x20010db8800000000000000000000001.

Lemma compressed_lookup_foreign_witness :
  ∃ t h0 h1 sched h2, patricia_new AtomicRadixNode_v empty_heap = Some (t, h0) ∧
    patricia_insert t (NetV6 w_doc6) w_md1 h0 = Some (Ok true, h1) ∧
    interleave (mkThreads (patricia_lookup_p t (V6 w_ip6_high)) (patricia_insert_p t (NetV6 w_sixteen6) w_md2) h1) sched =
      Some (mkThreads (PRet (Some w_md2)) (PRet (Ok true)) h2) ∧
    network_contains_ip (NetV6 w_sixteen6) (V6 w_ip6_high) = false ∧
    patricia_lookup t (V6 w_ip6_high) h1 = Some (Some w_md1, h1) ∧ patricia_lookup t (V6 w_ip6_high) h2 = Some (Some w_md1, h2).
Proof.
  apply (compressed_lookup_foreign AtomicRadixNode_v (NetV6 w_doc6) w_sixteen6 w_md1 w_md2 w_ip6_high 14 false
    (drop 33 (kbits (V6 w_ip6_high)))).
  - vm_compute. reflexivity.
  - lia.
  - vm_compute. reflexivity.
  - vm_compute. reflexivity.
Defined.
